(* ===== verification/_CoqProject ===== *)
-Q . S2P
Prelude.v
Errors.v
Protocol.v
IsoTCP.v
Codec.v
GoText.v
Config.v
Item.v
Address.v
Planner.v
Session.v
SessionProofs.v
DataPlane.v
ReadProofs.v
WriteProofs.v
ClientProofs.v
ClosedProofs.v
TestPLC.v
PLCProofs.v
PLCMemory.v
PLCSafety.v
PLCStream.v
PLCServer.v
EndToEnd.v
EndToEndRead.v
EndToEndWrite.v
EndToEndArea.v
EndToEndConnect.v
EndToEndTheorems.v
