(* ===== verification/Prelude.v ===== *)
(** * gos7: a verified model of the S7comm client

    gos7 is a Go client for Siemens S7 controllers: it opens one session over
    TCP (COTP handshake, then S7 Setup Communication), splits logical reads and
    writes into PDUs of the negotiated size, and reports for every item what is
    known of it.  The repository also holds a scripted PLC that its tests talk
    to.  This library models both sides and proves them correct, alone and
    together.

    ** The parts

    - [Prelude]: outcomes of Go code ([Ok], [Err], [Panic]), machine integers,
      bounds-checked byte access, the tactics and lemmas every file shares.
    - [Errors] (src/errors.go): Go error values, the structured [Error],
      [errors.Is].
    - [Protocol] (src/internal/protocol/protocol.go): Setup, ReadVar and
      WriteVar PDUs: builders, parsers, sizes.
    - [IsoTCP] (src/internal/isotcp/framing.go): TPKT frames over a byte stream
      cut anywhere, COTP connection request and confirm, data TPDUs.
    - [Codec] (src/codec/scalar.go): scalars, classic strings, counters, S5TIME.
    - [GoText], [Config] (src/config.go): the string functions of the standard
      library the client uses; settings, defaults, limits, endpoints.
    - [Item] (src/item.go and the descriptors of src/client.go): addresses,
      transports, validation, wire descriptors.
    - [Address] (src/address.go): the textual form of addresses.
    - [Planner] (src/client.go): validation of batches, the fragment iterator,
      the batch builders.
    - [Session] (src/client.go, src/diagnostics.go): the state machine of a
      client with its gate, contexts, Connect, Close, exchange and queries.
    - [DataPlane] (src/client.go): Read, Write, ReadArea, WriteArea.
    - [TestPLC], [PLCServer] (src/internal/testplc/server.go): the scripted
      PLC, and its connection handler as a peer of a client; its accept loop,
      the goroutines of its connections and Close.

    ** How they interact

    A [World] is a client and its environment: the connections, what each call
    on them will answer, and the peer behind them.  Operations are functions
    [World -> result * World] in the monad [Session.M], composed as the Go code
    composes them.  The interface to the other side is the class
    [Session.Peer]: a state that changes with the bytes it is sent, and the
    bytes it answers.  Every theorem about the client alone holds for all peers.
    The instance [TestPLC.PLC_peer] is the handler of the scripted PLC,
    suspended while it waits for bytes.

    The environment keeps what really crossed each connection: its wire log
    [Session.c_wire], to which [Session.writeFull] adds the bytes the writer took
    and [Session.readFrame] the frame it hands over.  The theorems about the
    client speak of that log: a request is an [attempt] (SessionProofs), with
    the bytes sent for it and the frame received in answer, and the log at the
    end is the log before with the transfers of the attempts appended
    ([wire_after]).  What a result may hold, and what the outcome of a write may
    claim, is computed from those frames.

    Concurrency: the gate admits one operation at a time, so what runs beside
    it is Close, deadlines and cancellation.  [Env.schedule] lists the events
    that happen before each atomic step of the operation ([Session.interfere]),
    and the theorems quantify over every schedule.  An assertion that survives
    interference is an instance of [SessionProofs.Stable]; operations are
    verified with [SessionProofs.triple].

    The scripted PLC has goroutines that share its state. [PLCServer] has a
    program counter and a step function for each; a critical section is one
    step, and [PLCServer.step] interleaves them in every order.

    Between the bookkeeping of reads and writes and the session below them
    stand the classes [ReadProofs.ReadWire] and [WriteProofs.WriteWire]: what
    the batch loops ask of the session they run on.  The loops are verified
    once against them; instances are a session with any peer (ReadProofs,
    WriteProofs) and a session with the scripted PLC (EndToEndRead,
    EndToEndWrite).

    ** What is proved

    - Wire formats: parsers accept exactly the encodings of their results and
      never panic, builders succeed exactly on what can be sent and have the
      announced sizes, frames and codecs round-trip (Protocol, IsoTCP, Codec).
    - Validation and text: the decision procedures of Config, Item, Planner and
      Address against declarative specifications, written without the functions
      they specify (endpoints by their form, [Config.endpoint_form]; parameters of
      a Connection Confirm, [IsoTCP.legal_parameter]); ParseAddress against the
      grammar of its patterns, FormatAddress its right inverse.
    - Planning: calling [next] to the end ([Planner.drain]) yields a plan that
      covers every item once, in order; the iterator refines the list
      [Planner.all_fragments] whatever is put back or skipped; batches fit the
      PDU and are maximal.
    - The session: an invariant of every reachable world (ClientProofs),
      Connect publishes the limits that the two answers on its wire give, errors
      tell truthfully whether the session survives, Close is final (ClosedProofs).
    - The data plane over any peer: results are assembled from the frames that
      the wires carried, in order; a write is sent at most once and its outcome
      is what the answering frame says, or exactly what is known without one
      (ReadProofs, WriteProofs, ClientProofs).
    - The scripted PLC (PLCProofs, PLCMemory, PLCSafety, PLCStream): it reads
      back what the client encodes, answers what the client accepts, its memory
      holds what was written and nothing else changes. Its goroutine never
      panics and ends with the bytes it is sent; the suspended handler that
      the client talks to is that goroutine, however the bytes are cut.
    - Its life (PLCServer): an invariant of every interleaving; when Close has
      returned nothing is left; Close returns, unless it overtakes a connection
      between Accept and the table, in which case it may hang.  A request enters
      at most [PLCServer.request_sections] critical sections, which bounds the
      steps the server still makes, whatever its clients do meanwhile.
    - Client and PLC together (EndToEnd, EndToEndRead, EndToEndWrite,
      EndToEndArea, EndToEndConnect, EndToEndTheorems): on a network that
      delivers, Connect negotiates the smaller PDU, Read and ReadArea return
      the memory, Write and WriteArea change it as they say, and what was
      written is read back, for items of any size.

    ** Fuel

    Loops that are not structural take fuel: the length of the frame in
    [IsoTCP.ccLoop], sixteen doublings in [IsoTCP.tpduSizeLoop], the number of
    fragments plus one in [DataPlane.readLoop], the number of items in
    [DataPlane.writeLoop], the number of bytes in [DataPlane.writeAreaLoop], the
    number of unread bytes in [TestPLC.feed], the number of bytes that arrive
    in [TestPLC.serveLoop].  Running out is [Panic] (or, in [feed], a handler
    that stays behind), and the theorems show that it does not happen.

    ** Not modelled

    - The error that Close returns (of [net.Conn.Close]), and the watchers of
      armConnection and stopDeadline: their only effect is a deadline that
      passes, which is a [Fault] among the arrivals.
    - Nil receivers and nil contexts, which every operation refuses first, and
      the check of [acquire] for a Client that New did not make (nil gate or nil
      lifeCtx).
    - Reading a frame in pieces while other goroutines run: [Session.readFrame] is
      one step, after which the frame or the fault is there.  A connection whose
      arrivals are used up reads as closed by the peer; one that stays silent is a
      [Fault] among the arrivals, at the deadline.
    - The text of host names: the resolver judges them.
    - Float arithmetic: a REAL is its bit pattern.
    - Of the scripted PLC: Endpoint, which asks the listener, and the passing
      of a delay.
    - src/examples (command line programs) and the tests. *)

From stdpp Require Export prelude list strings pretty.
From Stdlib Require Export Ascii ZArith Lia.

#[export] Set Default Goal Selector "!".
#[global] Open Scope Z_scope.

(** ** Outcomes of Go code

    A Go call returns a value, returns an [error], or panics (index or slice
    bounds).  [Panic] is a value of the model, so absence of panics is a
    theorem and not an assumption. *)

Inductive outcome (E A : Type) : Type :=
| Ok (a : A)
| Err (e : E)
| Panic.
Arguments Ok {E A} a.
Arguments Err {E A} e.
Arguments Panic {E A}.

#[export] Instance outcome_ret E : MRet (outcome E) := λ A a, Ok a.
#[export] Instance outcome_bind E : MBind (outcome E) := λ A B f m,
  match m with
  | Ok a => f a
  | Err e => Err e
  | Panic => Panic
  end.

(** [returns m]: the call finishes without a panic. *)
Definition returns {E A} (m : outcome E A) : Prop := m ≠ Panic.

(** The error of an outcome is rewritten on the way out ([if err != nil]
    followed by a return of another error). *)
Definition map_err {E E' A} (f : E → E') (m : outcome E A) : outcome E' A :=
  match m with
  | Ok a => Ok a
  | Err e => Err (f e)
  | Panic => Panic
  end.

Lemma bind_Ok_inv {E A B} (m : outcome E A) (f : A → outcome E B) b :
  (m ≫= f) = Ok b → ∃ a, m = Ok a ∧ f a = Ok b.
Proof. destruct m; naive_solver. Qed.

Lemma bind_Err_inv {E A B} (m : outcome E A) (f : A → outcome E B) e :
  (m ≫= f) = Err e → m = Err e ∨ ∃ a, m = Ok a ∧ f a = Err e.
Proof. destruct m; naive_solver. Qed.

Lemma bind_returns {E A B} (m : outcome E A) (f : A → outcome E B) :
  returns m → (∀ a, m = Ok a → returns (f a)) → returns (m ≫= f).
Proof. destruct m; unfold returns; naive_solver. Qed.

Lemma returns_Ok {E A} (a : A) : returns (Ok (E:=E) a).
Proof. done. Qed.
Lemma returns_Err {E A} (e : E) : returns (Err (A:=A) e).
Proof. done. Qed.

(** ** Machine integers

    A w-bit unsigned integer is a [Z] in range; a Go conversion is the
    wrap-around written out. *)

Definition u8 (x : Z) : Z := x mod 2 ^ 8.
Definition u16 (x : Z) : Z := x mod 2 ^ 16.
Definition u32 (x : Z) : Z := x mod 2 ^ 32.
Definition u64 (x : Z) : Z := x mod 2 ^ 64.
(** Two's complement reading of a [w]-bit pattern ([int8(b)], [int16(v)], ...). *)
Definition signed (w x : Z) : Z :=
  if x mod 2 ^ w <? 2 ^ (w - 1) then x mod 2 ^ w else x mod 2 ^ w - 2 ^ w.

Definition MaxUint16 : Z := 65535.
Definition MaxUint32 : Z := 4294967295.
Definition MaxUint64 : Z := 18446744073709551615.
Definition MaxInt : Z := 9223372036854775807.

Definition is_u8 (x : Z) : Prop := 0 ≤ x < 256.
Definition is_u16 (x : Z) : Prop := 0 ≤ x < 65536.
Definition is_u32 (x : Z) : Prop := 0 ≤ x < 4294967296.
Definition is_u64 (x : Z) : Prop := 0 ≤ x < 18446744073709551616.
Abbreviation bytes := (Forall is_u8).

#[export] Instance is_u8_dec x : Decision (is_u8 x).
Proof. unfold is_u8. apply _. Defined.
#[export] Instance is_u16_dec x : Decision (is_u16 x).
Proof. unfold is_u16. apply _. Defined.
#[export] Instance is_u32_dec x : Decision (is_u32 x).
Proof. unfold is_u32. apply _. Defined.

Lemma u8_range x : is_u8 (u8 x).
Proof. unfold is_u8, u8. pose proof (Z.mod_pos_bound x (2^8)). lia. Qed.
Lemma u16_range x : is_u16 (u16 x).
Proof. unfold is_u16, u16. pose proof (Z.mod_pos_bound x (2^16)). lia. Qed.
Lemma u32_range x : is_u32 (u32 x).
Proof. unfold is_u32, u32. pose proof (Z.mod_pos_bound x (2^32)). lia. Qed.
Lemma u8_id x : is_u8 x → u8 x = x.
Proof. apply Z.mod_small. Qed.
Lemma u16_id x : is_u16 x → u16 x = x.
Proof. apply Z.mod_small. Qed.
Lemma u32_id x : is_u32 x → u32 x = x.
Proof. apply Z.mod_small. Qed.

(** ** Byte slices

    A Go slice is the list of its elements; lengths and indices are [int],
    modelled in [Z].  Reading or slicing outside [0 .. len] panics. *)

Definition zlen {A} (l : list A) : Z := Z.of_nat (length l).
Definition byte_at (l : list Z) (i : Z) : Z := nth (Z.to_nat i) l 0.
(** [l[a:b]] *)
Definition sub {A} (l : list A) (a b : Z) : list A :=
  take (Z.to_nat (b - a)) (drop (Z.to_nat a) l).

Definition in_bounds {A} (l : list A) (i : Z) : bool := (0 <=? i) && (i <? zlen l).

(** [l[i]] as an expression. *)
Definition index {E} (l : list Z) (i : Z) : outcome E Z :=
  if in_bounds l i then Ok (byte_at l i) else Panic.
(** [l[i]] for a slice of any element type. *)
Definition elem {E A} (l : list A) (i : Z) : outcome E A :=
  if in_bounds l i then match l !! Z.to_nat i with Some x => Ok x | None => Panic end else Panic.
(** [l[a:b]] as an expression. *)
Definition slice {E A} (l : list A) (a b : Z) : outcome E (list A) :=
  if (0 <=? a) && (a <=? b) && (b <=? zlen l) then Ok (sub l a b) else Panic.
(** [l[i] = v] *)
Definition store {E} (l : list Z) (i v : Z) : outcome E (list Z) :=
  if in_bounds l i then Ok (<[Z.to_nat i := v]> l) else Panic.
(** [copy(dst[off:], src)]: as many bytes as fit. *)
Definition copy_at {A} (dst : list A) (off : Z) (src : list A) : list A :=
  let n := Z.to_nat (Z.min (zlen src) (zlen dst - off)) in
  take (Z.to_nat off) dst ++ take n src ++ drop (Z.to_nat off + n) dst.
(** [make([]byte, n)] *)
Definition make (n : Z) : list Z := replicate (Z.to_nat n) 0.

(** [encoding/binary.BigEndian]: the unsigned integer of a big-endian byte
    string, and the [n] low bytes of an integer, most significant first. *)
Definition be_combine (l : list Z) : Z :=
  foldl (λ acc b, Z.lor (Z.shiftl acc 8) b) 0 l.
Fixpoint be_split (n : nat) (v : Z) : list Z :=
  match n with
  | O => []
  | S m => be_split m (Z.shiftr v 8) ++ [u8 v]
  end.

(** [binary.BigEndian.Uint16(l[a:a+2])] *)
Definition get_uint16 {E} (l : list Z) (a : Z) : outcome E Z :=
  b ← slice l a (a + 2); Ok (be_combine b).
(** [binary.BigEndian.PutUint16(l[a:a+2], v)] *)
Definition put_uint16 {E} (l : list Z) (a v : Z) : outcome E (list Z) :=
  l ← store l a (u8 (Z.shiftr v 8)); store l (a + 1) (u8 v).

(** ** Lengths and bounds *)

Lemma zlen_nonneg {A} (l : list A) : 0 ≤ zlen l.
Proof. unfold zlen. lia. Qed.
Lemma zlen_nil {A} : zlen (@nil A) = 0.
Proof. done. Qed.
Lemma zlen_cons {A} (x : A) l : zlen (x :: l) = 1 + zlen l.
Proof. unfold zlen. cbn [length]. lia. Qed.
Lemma zlen_app {A} (l k : list A) : zlen (l ++ k) = zlen l + zlen k.
Proof. unfold zlen. rewrite length_app. lia. Qed.
Lemma zlen_replicate {A} n (x : A) : zlen (replicate n x) = Z.of_nat n.
Proof. unfold zlen. by rewrite length_replicate. Qed.
Lemma zlen_make n : 0 ≤ n → zlen (make n) = n.
Proof. intros. unfold make. rewrite zlen_replicate. lia. Qed.
Lemma zlen_insert {A} (l : list A) i x : zlen (<[i:=x]> l) = zlen l.
Proof. unfold zlen. by rewrite length_insert. Qed.
Lemma zlen_drop {A} n (l : list A) : Z.of_nat n ≤ zlen l → zlen (drop n l) = zlen l - Z.of_nat n.
Proof. unfold zlen. rewrite length_drop. lia. Qed.
Lemma zlen_take {A} n (l : list A) : Z.of_nat n ≤ zlen l → zlen (take n l) = Z.of_nat n.
Proof. unfold zlen. rewrite length_take. lia. Qed.
Lemma zlen_map {A B} (f : A → B) l : zlen (f <$> l) = zlen l.
Proof. unfold zlen. by rewrite length_fmap. Qed.
Lemma zlen_nil_inv {A} (l : list A) : zlen l = 0 → l = [].
Proof. destruct l; [done|]. rewrite zlen_cons. pose proof (zlen_nonneg l). lia. Qed.
Lemma zlen_be_split n v : zlen (be_split n v) = Z.of_nat n.
Proof. revert v. induction n; intros; [done|]. cbn [be_split]. rewrite zlen_app, IHn, zlen_cons, zlen_nil. lia. Qed.
Lemma zlen_sub {A} (l : list A) a b : 0 ≤ a ≤ b → b ≤ zlen l → zlen (sub l a b) = b - a.
Proof. unfold sub, zlen. intros. rewrite length_take, length_drop. lia. Qed.
Lemma zlen_copy_at {A} (dst : list A) off src :
  0 ≤ off ≤ zlen dst → zlen (copy_at dst off src) = zlen dst.
Proof.
  unfold copy_at, zlen. intros. rewrite !length_app, !length_take, length_drop. lia.
Qed.

Create Rewrite HintDb zlen.
#[export] Hint Rewrite @zlen_nil @zlen_cons @zlen_app @zlen_replicate @zlen_insert
  @zlen_map @zlen_be_split : zlen.
#[export] Hint Rewrite @zlen_make using lia : zlen.
#[export] Hint Rewrite @zlen_sub using lia : zlen.

(** Linear arithmetic over lengths: every list length in sight is computed
    and known to be non-negative. *)
Ltac zlen_pos :=
  repeat match goal with
  | |- context [zlen ?l] =>
      lazymatch goal with
      | _ : 0 ≤ zlen l |- _ => fail
      | _ => pose proof (zlen_nonneg l)
      end
  | _ : context [zlen ?l] |- _ =>
      lazymatch goal with
      | _ : 0 ≤ zlen l |- _ => fail
      | _ => pose proof (zlen_nonneg l)
      end
  end.
Ltac zlia := autorewrite with zlen in *; zlen_pos; lia.

(** ** Indexing and slicing inside the bounds *)

Lemma in_bounds_true {A} (l : list A) i : in_bounds l i = true ↔ 0 ≤ i < zlen l.
Proof. unfold in_bounds. lia. Qed.

Lemma index_Ok {E} l i : 0 ≤ i < zlen l → index (E:=E) l i = Ok (byte_at l i).
Proof. intros ?%in_bounds_true. unfold index. by rewrite H. Qed.
Lemma slice_Ok {E A} (l : list A) a b :
  0 ≤ a ≤ b → b ≤ zlen l → slice (E:=E) l a b = Ok (sub l a b).
Proof. intros. unfold slice. by rewrite (proj2 (andb_true_iff _ _)) by lia. Qed.
Lemma store_Ok {E} l i v :
  0 ≤ i < zlen l → store (E:=E) l i v = Ok (<[Z.to_nat i := v]> l).
Proof. intros ?%in_bounds_true. unfold store. by rewrite H. Qed.

Lemma elem_Some {E A} (l : list A) i x :
  0 ≤ i → l !! Z.to_nat i = Some x → elem (E:=E) l i = Ok x.
Proof.
  intros Hi Hx. unfold elem. pose proof (lookup_lt_Some _ _ _ Hx).
  rewrite (proj2 (in_bounds_true l i)) by (unfold zlen; lia). by rewrite Hx.
Qed.

Lemma byte_at_cons_0 x l : byte_at (x :: l) 0 = x.
Proof. done. Qed.
Lemma byte_at_cons x l i : 0 < i → byte_at (x :: l) i = byte_at l (i - 1).
Proof.
  intros. unfold byte_at. replace (Z.to_nat i) with (S (Z.to_nat (i - 1))) by lia. done.
Qed.
Lemma byte_at_app_r k l i : zlen k ≤ i → byte_at (k ++ l) i = byte_at l (i - zlen k).
Proof. unfold zlen, byte_at. intros. rewrite app_nth2 by lia. f_equal. lia. Qed.
Lemma byte_at_app_l k l i : 0 ≤ i < zlen k → byte_at (k ++ l) i = byte_at k i.
Proof. unfold zlen, byte_at. intros. rewrite app_nth1 by lia. done. Qed.
Lemma byte_at_range l i : bytes l → is_u8 (byte_at l i).
Proof.
  intros Hl. unfold byte_at. destruct (decide (Z.to_nat i < length l)%nat).
  - rewrite Forall_forall in Hl. apply Hl, list_elem_of_In, nth_In. lia.
  - rewrite nth_overflow by lia. unfold is_u8. lia.
Qed.

Lemma byte_at_insert l i j v : 0 ≤ i < zlen l → 0 ≤ j →
  byte_at (<[Z.to_nat i := v]> l) j = if decide (j = i) then v else byte_at l j.
Proof.
  intros Hi Hj. unfold byte_at, zlen in *. rewrite !nth_lookup. case_decide; subst.
  - by rewrite list_lookup_insert_eq by lia.
  - by rewrite list_lookup_insert_ne by lia.
Qed.
Lemma bytes_insert l n v : bytes l → is_u8 v → bytes (<[n := v]> l).
Proof. intros. by apply Forall_insert. Qed.

(** Peeling bytes off the front of a slice. *)
Lemma drop_byte_at l n : Z.of_nat n < zlen l → drop n l = byte_at l (Z.of_nat n) :: drop (S n) l.
Proof.
  unfold zlen, byte_at. intros. rewrite Nat2Z.id.
  apply drop_S. rewrite (nth_lookup_or_length l n 0) || idtac.
  destruct (nth_lookup_or_length l n 0) as [->|]; [done|lia].
Qed.

Lemma sub_app_mid {A} (k l m : list A) a b :
  a = zlen k → b = zlen k + zlen l → sub (k ++ l ++ m) a b = l.
Proof.
  unfold zlen, sub. intros -> ->. rewrite Nat2Z.id, drop_app_length.
  rewrite take_app_length' by lia. done.
Qed.
Lemma sub_full {A} (l : list A) a : 0 ≤ a → sub l a (zlen l) = drop (Z.to_nat a) l.
Proof. unfold sub, zlen. intros. apply take_ge. rewrite length_drop. lia. Qed.
Lemma sub_0 {A} (l : list A) b : sub l 0 b = take (Z.to_nat b) l.
Proof. unfold sub. by rewrite Z.sub_0_r. Qed.
Lemma sub_split {A} (l : list A) a b : 0 ≤ a ≤ b →
  drop (Z.to_nat a) l = sub l a b ++ drop (Z.to_nat b) l.
Proof.
  unfold sub. intros. rewrite <-(take_drop (Z.to_nat (b - a)) (drop (Z.to_nat a) l)) at 1.
  rewrite drop_drop. do 2 f_equal. lia.
Qed.
Lemma sub_append {A} (l : list A) a b c : 0 ≤ a ≤ b → b ≤ c →
  sub l a b ++ sub l b c = sub l a c.
Proof.
  unfold sub. intros.
  replace (Z.to_nat (c - a)) with (Z.to_nat (b - a) + Z.to_nat (c - b))%nat by lia.
  replace (Z.to_nat b) with (Z.to_nat a + Z.to_nat (b - a))%nat by lia.
  by rewrite <-drop_drop, take_take_drop.
Qed.

Lemma bytes_sub l a b : bytes l → bytes (sub l a b).
Proof. intros. unfold sub. by apply Forall_take, Forall_drop. Qed.

(** Writing inside the middle part of a buffer. *)
Lemma store_app {E} k l m i v : zlen k ≤ i < zlen k + zlen l →
  store (E:=E) (k ++ l ++ m) i v = Ok (k ++ <[Z.to_nat (i - zlen k) := v]> l ++ m).
Proof.
  intros. zlen_pos. rewrite store_Ok by zlia. f_equal.
  replace (Z.to_nat i) with (length k + Z.to_nat (i - zlen k))%nat by (unfold zlen in *; lia).
  rewrite insert_app_r. f_equal. apply insert_app_l. unfold zlen in *; lia.
Qed.
Lemma copy_at_app {A} (k l m src : list A) off :
  off = zlen k → zlen src = zlen l → copy_at (k ++ l ++ m) off src = k ++ src ++ m.
Proof.
  intros -> Hl. unfold copy_at. rewrite !zlen_app.
  assert (zlen src ≤ zlen k + (zlen l + zlen m) - zlen k) by zlia.
  rewrite Z.min_l by done. unfold zlen in *. rewrite !Nat2Z.id.
  rewrite take_app_length, firstn_all.
  do 2 f_equal. rewrite app_assoc, drop_app_length' by (rewrite length_app; lia). done.
Qed.

Lemma copy_at_full {A} (dst src : list A) : zlen src = zlen dst → copy_at dst 0 src = src.
Proof.
  intros Hl. pose proof (copy_at_app [] dst [] src 0 eq_refl Hl) as H.
  by rewrite !app_nil_l, !app_nil_r in H.
Qed.

(** The same with the offset inside the middle part written out. *)
Lemma store_mid {E} k l m i j v : i = zlen k + j → 0 ≤ j < zlen l →
  store (E:=E) (k ++ l ++ m) i v = Ok (k ++ <[Z.to_nat j := v]> l ++ m).
Proof. intros -> ?. rewrite store_app by lia. do 5 f_equal. lia. Qed.

Lemma make_app a b : 0 ≤ a → 0 ≤ b → make (a + b) = make a ++ make b.
Proof. intros. unfold make. by rewrite Z2Nat.inj_add, replicate_add by lia. Qed.

(** ** Big-endian integers *)

Lemma lor_shiftl_8 a b : is_u8 b → Z.lor (Z.shiftl a 8) b = a * 256 + b.
Proof.
  intros Hb. unfold is_u8 in Hb.
  assert (Z.land (Z.shiftl a 8) b = 0) as Hz.
  { apply Z.bits_inj'. intros n Hn. rewrite Z.land_spec, Z.bits_0.
    destruct (decide (n < 8)); [by rewrite Z.shiftl_spec_low|].
    rewrite <-(Z.mod_small b (2 ^ 8)) by lia.
    rewrite Z.mod_pow2_bits_high by lia. by rewrite andb_false_r. }
  rewrite <-Z.lxor_lor, <-Z.add_nocarry_lxor by done. by rewrite Z.shiftl_mul_pow2.
Qed.

Lemma be_combine_snoc l b : is_u8 b → be_combine (l ++ [b]) = be_combine l * 256 + b.
Proof. intros. unfold be_combine. rewrite foldl_app. simpl. by apply lor_shiftl_8. Qed.

Lemma bytes_be_split n v : bytes (be_split n v).
Proof.
  revert v. induction n; intros; cbn [be_split]; [constructor|].
  apply Forall_app; split; [apply IHn|]. constructor; [apply u8_range|constructor].
Qed.

Lemma be_combine_split n v : be_combine (be_split n v) = v mod 2 ^ (8 * Z.of_nat n).
Proof.
  revert v. induction n; intros; cbn [be_split]; [by rewrite Z.mod_1_r|].
  rewrite be_combine_snoc, IHn by apply u8_range.
  replace (8 * Z.of_nat (S n)) with (8 + 8 * Z.of_nat n) by lia.
  rewrite Z.pow_add_r by lia. rewrite Z.rem_mul_r by lia.
  rewrite Z.shiftr_div_pow2 by lia. unfold u8. lia.
Qed.

Lemma bytes_snoc l b : bytes (l ++ [b]) ↔ bytes l ∧ is_u8 b.
Proof. by rewrite Forall_app, Forall_singleton. Qed.

Lemma be_combine_range l : bytes l → 0 ≤ be_combine l < 2 ^ (8 * zlen l).
Proof.
  induction l as [|b l IH] using rev_ind; intros Hl; [by split|].
  apply bytes_snoc in Hl as [Hl Hb].
  rewrite (be_combine_snoc l b Hb). specialize (IH Hl).
  unfold is_u8 in Hb.
  replace (8 * zlen (l ++ [b])) with (8 * zlen l + 8) by zlia.
  zlen_pos. rewrite Z.pow_add_r by lia. change (2 ^ 8) with 256. lia.
Qed.

Lemma be_split_combine l : bytes l → be_split (length l) (be_combine l) = l.
Proof.
  induction l as [|b l IH] using rev_ind; intros Hl; [done|].
  apply bytes_snoc in Hl as [Hl Hb].
  rewrite be_combine_snoc by done. rewrite length_app, Nat.add_comm. cbn [length Nat.add be_split].
  unfold is_u8 in Hb. rewrite Z.shiftr_div_pow2 by lia.
  change (2 ^ 8) with 256. rewrite Z.div_add_l, Z.div_small, Z.add_0_r, IH by (done || lia).
  do 2 f_equal. unfold u8. change (2 ^ 8) with 256.
  rewrite Z.add_comm, Z.mod_add, Z.mod_small; lia.
Qed.

Lemma get_uint16_Ok {E} l a : 0 ≤ a → a + 2 ≤ zlen l →
  get_uint16 (E:=E) l a = Ok (be_combine (sub l a (a + 2))).
Proof. intros. unfold get_uint16. by rewrite slice_Ok by lia. Qed.

Lemma be_combine_split2 v : is_u16 v → be_combine [u8 (Z.shiftr v 8); u8 v] = v.
Proof.
  intros. change [_; _] with (be_split 2 v). rewrite be_combine_split. by apply Z.mod_small.
Qed.
Lemma be_split_combine2 a b : is_u8 a → is_u8 b → be_split 2 (be_combine [a; b]) = [a; b].
Proof. intros. apply (be_split_combine [a; b]). repeat first [assumption|constructor]. Qed.
Lemma be_combine2_range a b : is_u8 a → is_u8 b → is_u16 (be_combine [a; b]).
Proof. intros. apply (be_combine_range [a; b]). repeat first [assumption|constructor]. Qed.

(** Take a slice known to be long enough apart, [n] bytes deep. *)
Ltac explode l n :=
  lazymatch n with
  | O => idtac
  | S ?m =>
      let b := fresh "b" in
      destruct l as [|b l]; [exfalso; zlia|]; explode l m
  end.

(** Evaluate accesses at constant positions of a slice taken apart. *)
Ltac nat_literal z :=
  let n := eval vm_compute in (Z.to_nat z) in
  lazymatch n with
  | O => n
  | S _ => n
  end.
Ltac eval_at :=
  repeat match goal with
  | |- context [byte_at (?b :: ?l) ?i] =>
      let n := nat_literal i in
      let v := eval cbn [nth] in (nth n (b :: l) 0) in
      change (byte_at (b :: l) i) with v
  | |- context [sub (?b :: ?l) ?i ?j] =>
      let n := nat_literal i in
      let m := nat_literal (j - i) in
      let v := eval cbv beta iota delta [firstn skipn] in (take m (drop n (b :: l))) in
      change (sub (b :: l) i j) with v
  end.

(** One branch of the outermost conditional of the goal. *)
Ltac case_if :=
  match goal with
  | |- context [if ?c then _ else _] =>
      lazymatch type of c with bool => destruct c eqn:? end
  end.

(** Every big-endian 16-bit field in sight is in range. *)
Ltac be_range a b :=
  lazymatch goal with
  | _ : is_u16 (be_combine [a; b]) |- _ => fail
  | _ => assert (is_u16 (be_combine [a; b])) by (apply be_combine2_range; assumption)
  end.
Ltac be_ranges :=
  repeat match goal with
  | _ : context [be_combine [?a; ?b]] |- _ => be_range a b
  | |- context [be_combine [?a; ?b]] => be_range a b
  end.

(** The branches taken by a computation that is known to have succeeded. *)
Ltac inv_if H :=
  repeat (match type of H with
          | context [if ?c then _ else _] =>
              lazymatch type of c with bool => destruct c eqn:? end
          end; [discriminate H|]).

(** Side conditions "these are bytes". *)
Create HintDb bytes discriminated.
#[export] Hint Resolve u8_range bytes_be_split bytes_sub byte_at_range : bytes.
Ltac solve_bytes :=
  rewrite ?Forall_app, ?Forall_cons, ?Forall_nil in *; destruct_and?; split_and?;
  solve [ assumption | done | eauto with bytes ].

(** Accesses relative to a consumed prefix. *)
Lemma index_app {E} k l i : 0 ≤ i → index (E:=E) (k ++ l) (zlen k + i) = index l i.
Proof.
  intros. unfold index, in_bounds. zlen_pos. rewrite zlen_app, byte_at_app_r by lia.
  replace (zlen k + i - zlen k) with i by lia.
  replace ((0 <=? zlen k + i) && (zlen k + i <? zlen k + zlen l))
    with ((0 <=? i) && (i <? zlen l)) by lia. done.
Qed.
Lemma sub_app_r {A} (k l : list A) a b : 0 ≤ a → sub (k ++ l) (zlen k + a) (zlen k + b) = sub l a b.
Proof.
  intros. unfold sub, zlen. rewrite drop_app_ge by lia. f_equal; [|f_equal]; lia.
Qed.
Lemma slice_app {E A} (k l : list A) a b : 0 ≤ a →
  slice (E:=E) (k ++ l) (zlen k + a) (zlen k + b) = slice l a b.
Proof.
  intros. unfold slice. zlen_pos. rewrite zlen_app, sub_app_r by lia.
  replace ((0 <=? zlen k + a) && (zlen k + a <=? zlen k + b) && (zlen k + b <=? zlen k + zlen l))
    with ((0 <=? a) && (a <=? b) && (b <=? zlen l)) by lia. done.
Qed.
Lemma get_uint16_app {E} k l a : 0 ≤ a → get_uint16 (E:=E) (k ++ l) (zlen k + a) = get_uint16 l a.
Proof. intros. unfold get_uint16. by rewrite <-Z.add_assoc, slice_app by lia. Qed.
Lemma index_app_0 {E} k x l : index (E:=E) (k ++ x :: l) (zlen k) = Ok x.
Proof.
  rewrite <-(Z.add_0_r (zlen k)), index_app by lia.
  zlen_pos. by rewrite index_Ok by zlia.
Qed.
Lemma slice_app_0 {E A} (k l : list A) b :
  0 ≤ b ≤ zlen l → slice (E:=E) (k ++ l) (zlen k) (zlen k + b) = Ok (take (Z.to_nat b) l).
Proof.
  intros. rewrite <-(Z.add_0_r (zlen k)) at 1.
  by rewrite slice_app, slice_Ok, sub_0 by lia.
Qed.

(** A run of stores into the middle part of a buffer: each store at a
    constant distance from the start of the part is executed. *)
Ltac store_step :=
  match goal with
  | |- context [store (?k ++ ?l ++ ?m) ?i ?v] =>
      rewrite (store_mid k l m i (i - zlen k) v) by zlia
  end;
  match goal with
  | |- context [Z.to_nat (?a - ?b)] =>
      let rec go n :=
        lazymatch n with
        | 24 => fail
        | _ => first [ replace (a - b) with n by (autorewrite with zlen; lia);
                       let m := eval vm_compute in (Z.to_nat n) in change (Z.to_nat n) with m
                     | let n' := eval compute in (n + 1) in go n' ]
        end in
      go 0
  end;
  cbn [insert list_insert mbind outcome_bind].

(** The bounds of every remainder in sight are known. *)
Ltac mod_bound a b :=
  lazymatch goal with
  | _ : 0 ≤ a mod b < b |- _ => fail
  | _ => pose proof (Z.mod_pos_bound a b ltac:(lia))
  end.
Ltac mod_bounds :=
  repeat match goal with
  | |- context [?a mod ?b] => mod_bound a b
  | _ : context [?a mod ?b] |- _ => mod_bound a b
  end.

(** Linear arithmetic through the range predicates. *)
Ltac bool_lia := unfold is_u8, is_u16, is_u32, is_u64, MaxUint16, MaxUint32 in *; lia.

(** ** Concrete instances

    Side conditions of a theorem applied to closed data are evaluated. *)
Ltac concrete :=
  repeat match goal with |- _ ∧ _ => split end;
  first
    [ done
    | apply (bool_decide_unpack _); vm_compute; exact I
    | vm_compute; intuition congruence
    | repeat constructor; vm_compute; intuition congruence ].
