(* ===== verification/Errors.v ===== *)
(** * Errors: Go error values and the package's structured error (errors.go)

    [error] is the universe of error values the package builds or receives:
    plain texts ([errors.New], [fmt.Errorf]), wrapped errors ([%w]), package
    level error variables, the kind sentinels [ErrTimeout] etc., network
    errors, and the structured [*Error].  [errors_Is] and [errors_As] follow
    the chain the way the standard library does. *)

From S2P Require Export Prelude.

(** ErrorKind: a stable, machine-readable category. *)
Inductive ErrorKind :=
| ErrorInvalidArgument
| ErrorNotConnected
| ErrorTimeout
| ErrorCanceled
| ErrorTransport
| ErrorProtocol
| ErrorPLC
| ErrorLimit
| ErrorClosed.

#[export] Instance ErrorKind_eq_dec : EqDecision ErrorKind.
Proof. solve_decision. Defined.

(** The string constants of the kinds. *)
Definition ErrorKind_text (k : ErrorKind) : string :=
  match k with
  | ErrorInvalidArgument => "invalid_argument"
  | ErrorNotConnected => "not_connected"
  | ErrorTimeout => "timeout"
  | ErrorCanceled => "canceled"
  | ErrorTransport => "transport"
  | ErrorProtocol => "protocol"
  | ErrorPLC => "plc"
  | ErrorLimit => "limit"
  | ErrorClosed => "closed"
  end.

(** SessionImpact: can the current session still be used? *)
Inductive SessionImpact := SessionUnchanged | SessionBroken.

#[export] Instance SessionImpact_eq_dec : EqDecision SessionImpact.
Proof. solve_decision. Defined.

(** Error values that are package-level variables, compared by identity. *)
Inductive errvar :=
| ContextCanceled
| ContextDeadlineExceeded
| IoEOF
| IoUnexpectedEOF
| IoNoProgress
| ErrCOTPFragmented.

#[export] Instance errvar_eq_dec : EqDecision errvar.
Proof. solve_decision. Defined.

Definition errvar_text (v : errvar) : string :=
  match v with
  | ContextCanceled => "context canceled"
  | ContextDeadlineExceeded => "context deadline exceeded"
  | IoEOF => "EOF"
  | IoUnexpectedEOF => "unexpected EOF"
  | IoNoProgress => "multiple Read calls return no data or error"
  | ErrCOTPFragmented => "isotcp: fragmented COTP DT is unsupported"
  end.

(** The fields of [Error]; [E] is the type of its [Cause]. *)
Record ErrorOf (E : Type) := mkError {
  Op : string;
  Kind : ErrorKind;
  Code : Z;
  ReturnCode : Z;
  Temporary : bool;
  Impact : SessionImpact;
  Cause : option E;
}.
Arguments mkError {E}.
Arguments Op {E}.
Arguments Kind {E}.
Arguments Code {E}.
Arguments ReturnCode {E}.
Arguments Temporary {E}.
Arguments Impact {E}.
Arguments Cause {E}.

Inductive error :=
| EText (msg : string)                       (**r [errors.New], [fmt.Errorf] *)
| EWrap (prefix : string) (inner : error)    (**r [fmt.Errorf("prefix%w", inner)] *)
| EVar (v : errvar)
| ESentinel (k : ErrorKind)                  (**r [kindSentinel] *)
| ENet (timeout : bool) (msg : string)       (**r a [net.Error] *)
| EGos7 (e : ErrorOf error).                 (**r a non-nil [*Error] *)

Abbreviation Error := (ErrorOf error).
Abbreviation result := (outcome error).

(** [errors.New(msg)] returned as the error of a call. *)
Definition text {A} (msg : string) : result A := Err (EText msg).

(** [%d] and [%02x] of the format strings. *)
Definition dec (z : Z) : string := pretty z.
Definition hex_digit (d : Z) : ascii :=
  Ascii.ascii_of_nat (Z.to_nat (if d <? 10 then 48 + d else 87 + d)).
Definition hex02 (b : Z) : string :=
  String (hex_digit (b / 16)) (String (hex_digit (b mod 16)) EmptyString).

(** [(e *Error) Error()] for a non-nil receiver, from the text of the cause. *)
Definition Error_text (text : error → string) (e : Error) : string :=
  Op e +:+ ": " +:+ ErrorKind_text (Kind e)
  +:+ (if negb (Code e =? 0) then " code=" +:+ dec (Code e) else EmptyString)
  +:+ (if negb (ReturnCode e =? 0) then " return_code=0x" +:+ hex02 (ReturnCode e) else EmptyString)
  +:+ match Cause e with
      | Some cause =>
          ": " +:+ (if (256 <? String.length (text cause))%nat
                    then String.substring 0 256 (text cause) +:+ "..."
                    else text cause)
      | None => EmptyString
      end.

(** The [Error()] method of every error value. *)
Fixpoint error_text (err : error) : string :=
  match err with
  | EText msg => msg
  | EWrap prefix inner => prefix +:+ error_text inner
  | EVar v => errvar_text v
  | ESentinel k => ErrorKind_text k
  | ENet _ msg => msg
  | EGos7 e => Error_text error_text e
  end.

(** The method on a possibly nil receiver. *)
Definition Error_Error (e : option Error) : string :=
  match e with
  | None => "<nil>"
  | Some e => error_text (EGos7 e)
  end.

Definition Error_Unwrap (e : option Error) : option error :=
  match e with
  | None => None
  | Some e => Cause e
  end.

(** [errors.As(err, **Error)]: the first [*Error] of the chain. *)
Fixpoint errors_As (err : error) : option Error :=
  match err with
  | EGos7 e => Some e
  | EWrap _ inner => errors_As inner
  | _ => None
  end.

(** [(e *Error) Is(target)] *)
Definition Error_Is (e : option Error) (target : option error) : bool :=
  match e, target with
  | Some e, Some (ESentinel k) => bool_decide (Kind e = k)
  | Some e, Some t =>
      match errors_As t with
      | Some other => bool_decide (Kind e = Kind other)
      | None => false
      end
  | _, _ => false
  end.

(** Identity of the comparable error values ([err == target]). *)
Definition same_error (err target : error) : bool :=
  match err, target with
  | EVar v, EVar w => bool_decide (v = w)
  | ESentinel k, ESentinel j => bool_decide (k = j)
  | _, _ => false
  end.

(** [errors.Is(err, target)] *)
Fixpoint errors_Is (err target : error) : bool :=
  same_error err target ||
  match err with
  | EGos7 e =>
      Error_Is (Some e) (Some target) ||
      match Cause e with
      | Some cause => errors_Is cause target
      | None => false
      end
  | EWrap _ inner => errors_Is inner target
  | _ => false
  end.

(** ** Constructors *)

Definition newError (op : string) (kind : ErrorKind) (impact : SessionImpact)
    (cause : option error) : Error :=
  mkError op kind 0 0 false impact cause.

Definition invalidError (op message : string) : Error :=
  newError op ErrorInvalidArgument SessionUnchanged (Some (EText message)).

Definition limitError (op message : string) : Error :=
  newError op ErrorLimit SessionUnchanged (Some (EText message)).

Definition protocolError (op : string) (cause : error) : Error :=
  newError op ErrorProtocol SessionBroken (Some cause).

Definition invariantError (op : string) (cause : error) : Error :=
  newError op ErrorProtocol SessionUnchanged (Some cause).

Definition plcError (op : string) (code : Z) : Error :=
  mkError op ErrorPLC (u32 code) 0 false SessionUnchanged None.

(** A structured error returned as an [error]. *)
Abbreviation fails e := (Err (EGos7 e)).

Definition plcItemError (op : string) (returnCode : Z) : Error :=
  mkError op ErrorPLC (u32 returnCode) returnCode false SessionUnchanged None.

(** [if err != nil { return ..., invalidError(op, err.Error()) }] *)
Definition invalid_text {A} (op : string) (m : outcome string A) : result A :=
  map_err (λ why, EGos7 (invalidError op why)) m.

(** An error of the invalid-argument kind that leaves the session alone. *)
Definition invalid_argument (e : error) : Prop :=
  ∃ op why, e = EGos7 (invalidError op why).

Lemma invalid_argument_intro op why : invalid_argument (EGos7 (invalidError op why)).
Proof. by eexists _, _. Qed.
#[export] Hint Resolve invalid_argument_intro : core.

(** ** The chain of an error *)

(** [chain err x]: [x] is reached from [err] by repeated [Unwrap]. *)
Inductive chain : error → error → Prop :=
| chain_here err : chain err err
| chain_wrap prefix inner x : chain inner x → chain (EWrap prefix inner) x
| chain_cause e cause x : Cause e = Some cause → chain cause x → chain (EGos7 e) x.

(** What a sentinel stands for: the sentinel itself or an [*Error] of its kind. *)
Definition of_kind (k : ErrorKind) (err : error) : Prop :=
  err = ESentinel k ∨ ∃ e, err = EGos7 e ∧ Kind e = k.

(** Rule induction for the nested type of errors. *)
Lemma error_ind' (P : error → Prop) :
  (∀ msg, P (EText msg)) → (∀ p i, P i → P (EWrap p i)) → (∀ v, P (EVar v)) →
  (∀ k, P (ESentinel k)) → (∀ t m, P (ENet t m)) →
  (∀ e, (∀ c, Cause e = Some c → P c) → P (EGos7 e)) → ∀ err, P err.
Proof.
  intros HT HW HV HS HN HG. fix IH 1. intros [msg|p i|v|k|t m|e].
  - apply HT.
  - apply HW, IH.
  - apply HV.
  - apply HS.
  - apply HN.
  - apply HG. destruct e as [? ? ? ? ? ? [c'|]]; cbn; intros c Hc; [|discriminate Hc].
    injection Hc as <-. apply IH.
Qed.

(** [errors.Is] with a kind sentinel finds exactly the errors of that kind,
    however deep [fmt.Errorf("...: %w")] and [*Error] wrapping buried them. *)
Theorem errors_Is_sentinel err k :
  errors_Is err (ESentinel k) = true ↔ ∃ x, chain err x ∧ of_kind k x.
Proof.
  split.
  - induction err as [msg|p i IH|v|k'|t m|e IH] using error_ind'; cbn; rewrite ?orb_false_r;
      try done.
    + intros (x & Hx & ?)%IH. exists x. split; [by constructor|done].
    + intros ->%bool_decide_eq_true_1. exists (ESentinel k). split; [constructor|by left].
    + rewrite orb_true_iff. intros [Hk%bool_decide_eq_true_1|Hc].
      * exists (EGos7 e). split; [constructor|]. right; eauto.
      * destruct (Cause e) as [c|] eqn:Hce; [|done].
        destruct (IH c eq_refl Hc) as (x & ? & ?). exists x. split; [by eapply chain_cause|done].
  - intros (x & Hc & Hk). induction Hc as [err|p i x Hc IH|e c x He Hc IH]; cbn.
    + destruct Hk as [->|(e & -> & Hk)]; cbn; [by rewrite bool_decide_true|].
      by rewrite bool_decide_true.
    + by rewrite IH.
    + rewrite He, (IH Hk). by rewrite !orb_true_r.
Qed.
