(* ===== verification/Protocol.v ===== *)
(** * Protocol: the S7comm data-plane PDUs (internal/protocol/protocol.go)

    Setup Communication, ReadVar and WriteVar requests, and the parsers of
    their AckData responses.  Parsers read the received bytes with bounds
    checked accesses, so "never panics on any input" is a theorem here. *)

From S2P Require Import Errors.

Definition protocolID : Z := 0x32.
Definition rosctrJob : Z := 0x01.
Definition rosctrAckData : Z := 0x03.
Definition functionReadVar : Z := 0x04.
Definition functionWriteVar : Z := 0x05.
Definition functionSetup : Z := 0xf0.
Definition jobHeaderSize : Z := 10.
Definition ackHeaderSize : Z := 12.
Definition itemSpecSize : Z := 12.
Definition itemDataHeaderSize : Z := 4.
Definition WireMaxItemsPerPDU : Z := 255.
Definition CompatibilityMaxItemsPerPDU : Z := 20.

(** Item: a fully validated wire-level variable descriptor. *)
Record Item := mkItem {
  WordLength : Z;          (**r byte *)
  ResponseTransport : Z;   (**r byte *)
  Amount : Z;              (**r uint16 *)
  DBNumber : Z;            (**r uint16 *)
  Area : Z;                (**r byte *)
  Address : Z;             (**r uint32 *)
  DataBytes : Z;           (**r int *)
  LengthInBits : bool;
}.

(** WriteItem: raw data added to a wire descriptor. *)
Record WriteItem := mkWriteItem { WItem : Item; WData : list Z }.

Record ItemResult := mkItemResult { ReturnCode : Z; Data : list Z }.

Record SetupResult := mkSetupResult {
  MaxAmQCaller : Z;
  MaxAmQCallee : Z;
  PDU : Z;
  GlobalCode : Z;
}.

#[export] Instance Item_eq_dec : EqDecision Item.
Proof. solve_decision. Defined.

(** ** PDU sizes *)

Definition ReadRequestSize (itemCount : Z) : Z :=
  jobHeaderSize + 2 + itemSpecSize * itemCount.

(** One padding byte follows every odd-sized item but the last one. *)
Definition padded (index count dataBytes : Z) : bool :=
  negb (index =? count - 1) && negb (Z.rem dataBytes 2 =? 0).

Fixpoint itemSizes (index count : Z) (sizes : list Z) : Z :=
  match sizes with
  | [] => 0
  | d :: rest =>
      itemDataHeaderSize + d + (if padded index count d then 1 else 0)
      + itemSizes (index + 1) count rest
  end.

Definition ReadResponseSize (items : list Item) : Z :=
  ackHeaderSize + 2 + itemSizes 0 (zlen items) (DataBytes <$> items).

Definition WriteRequestSize (items : list WriteItem) : Z :=
  jobHeaderSize + 2 + itemSpecSize * zlen items
  + itemSizes 0 (zlen items) ((λ i, zlen (WData i)) <$> items).

Definition WriteResponseSize (itemCount : Z) : Z := ackHeaderSize + 2 + itemCount.

(** ** Building job PDUs *)

Definition encodedLength (item : Item) : result Z :=
  let length := u64 (DataBytes item) in
  let length := if LengthInBits item then u64 (length * 8) else length in
  let length := if WordLength item =? 0x01 then Amount item else length in
  if length >? MaxUint16 then text "encoded data length exceeds uint16"
  else Ok (u16 length).

Fixpoint validateItemsFrom (index : Z) (items : list Item) : result unit :=
  match items with
  | [] => Ok tt
  | item :: rest =>
      if (WordLength item =? 0) || (ResponseTransport item =? 0) || (Amount item =? 0)
         || (Area item =? 0) || (Address item >? 0xFFFFFF) || (DataBytes item <? 1)
      then text ("protocol: invalid item " +:+ dec index)
      else
        map_err (EWrap ("protocol: item " +:+ dec index +:+ ": ")) (encodedLength item)
        ≫= λ _, validateItemsFrom (index + 1) rest
  end.

Definition validateItems (reference : Z) (items : list Item) : result unit :=
  if reference =? 0 then text "protocol: zero PDU reference"
  else if (zlen items =? 0) || (zlen items >? WireMaxItemsPerPDU)
  then text "protocol: item count outside 1..255"
  else validateItemsFrom 0 items.

(** [writeItemSpec(destination[off:], item)]: the writes go into the caller's
    buffer, starting at [off]. *)
Definition writeItemSpec (destination : list Z) (off : Z) (item : Item) : result (list Z) :=
  d ← store destination off 0x12;
  d ← store d (off + 1) 0x0a;
  d ← store d (off + 2) 0x10;
  d ← store d (off + 3) (WordLength item);
  d ← put_uint16 d (off + 4) (Amount item);
  d ← put_uint16 d (off + 6) (DBNumber item);
  d ← store d (off + 8) (Area item);
  d ← store d (off + 9) (u8 (Z.shiftr (Address item) 16));
  d ← store d (off + 10) (u8 (Z.shiftr (Address item) 8));
  store d (off + 11) (u8 (Address item)).

(** The loop [for index, item := range items]. *)
Fixpoint writeItemSpecs (parameters : list Z) (index : Z) (items : list Item) : result (list Z) :=
  match items with
  | [] => Ok parameters
  | item :: rest =>
      p ← writeItemSpec parameters (2 + index * itemSpecSize) item;
      writeItemSpecs p (index + 1) rest
  end.

(** The parameter block of a variable job: function, count, descriptors. *)
Definition variableParameters (function : Z) (items : list Item) : result (list Z) :=
  p ← store (make (2 + itemSpecSize * zlen items)) 0 function;
  p ← store p 1 (u8 (zlen items));
  writeItemSpecs p 0 items.

Definition buildJob (reference : Z) (parameters data : list Z) : result (list Z) :=
  if (reference =? 0) || (zlen parameters >? MaxUint16) || (zlen data >? MaxUint16)
  then text "protocol: job fields exceed wire limits"
  else
    let payload := make (jobHeaderSize + zlen parameters + zlen data) in
    p ← store payload 0 protocolID;
    p ← store p 1 rosctrJob;
    p ← put_uint16 p 4 reference;
    p ← put_uint16 p 6 (u16 (zlen parameters));
    p ← put_uint16 p 8 (u16 (zlen data));
    let p := copy_at p jobHeaderSize parameters in
    Ok (copy_at p (jobHeaderSize + zlen parameters) data).

Definition BuildSetupRequest (reference maxAmQCaller maxAmQCallee requestedPDU : Z)
    : result (list Z) :=
  if (reference =? 0) || (maxAmQCaller =? 0) || (maxAmQCallee =? 0) || (requestedPDU =? 0)
  then text "protocol: setup fields must be non-zero"
  else
    p ← store (make 8) 0 functionSetup;
    p ← put_uint16 p 2 maxAmQCaller;
    p ← put_uint16 p 4 maxAmQCallee;
    p ← put_uint16 p 6 requestedPDU;
    buildJob reference p [].

Definition BuildReadRequest (reference : Z) (items : list Item) : result (list Z) :=
  _ ← validateItems reference items;
  p ← variableParameters functionReadVar items;
  buildJob reference p [].

(** The first loop of BuildWriteRequest: descriptors, with the data lengths checked. *)
Fixpoint writeDescriptors (index : Z) (items : list WriteItem) : result (list Item) :=
  match items with
  | [] => Ok []
  | item :: rest =>
      if negb (zlen (WData item) =? DataBytes (WItem item))
      then text ("protocol: write item " +:+ dec index +:+ " data length mismatch")
      else r ← writeDescriptors (index + 1) rest; Ok (WItem item :: r)
  end.

(** The last loop: data headers, data and padding appended in order. *)
Fixpoint writeDataFrom (data : list Z) (index count : Z) (items : list WriteItem)
    : result (list Z) :=
  match items with
  | [] => Ok data
  | item :: rest =>
      length ← encodedLength (WItem item);
      let data := data ++ [0x00; ResponseTransport (WItem item); u8 (Z.shiftr length 8); u8 length] in
      let data := data ++ WData item in
      let data := if padded index count (zlen (WData item)) then data ++ [0x00] else data in
      writeDataFrom data (index + 1) count rest
  end.

Definition BuildWriteRequest (reference : Z) (items : list WriteItem) : result (list Z) :=
  if (zlen items =? 0) || (zlen items >? WireMaxItemsPerPDU)
  then text "protocol: write item count outside 1..255"
  else
    descriptors ← writeDescriptors 0 items;
    _ ← validateItems reference descriptors;
    p ← variableParameters functionWriteVar descriptors;
    data ← writeDataFrom [] 0 (zlen items) items;
    buildJob reference p data.

(** ** Parsing AckData PDUs *)

(** Parameters, data and the global error class/code of a matching AckData. *)
Definition parseAckData (payload : list Z) (reference : Z) : result (list Z * list Z * Z) :=
  if (reference =? 0) || (zlen payload <? ackHeaderSize)
  then text "protocol: short AckData PDU"
  else
    b0 ← index payload 0; b1 ← index payload 1;
    if negb (b0 =? protocolID) || negb (b1 =? rosctrAckData)
    then text "protocol: invalid protocol ID or ROSCTR"
    else
      b2 ← index payload 2; b3 ← index payload 3;
      if negb (b2 =? 0) || negb (b3 =? 0)
      then text "protocol: non-zero redundancy identification"
      else
        r ← get_uint16 payload 4;
        if negb (r =? reference) then text "protocol: PDU reference mismatch"
        else
          parameterLength ← get_uint16 payload 6;
          dataLength ← get_uint16 payload 8;
          if (parameterLength >? zlen payload - ackHeaderSize)
             || negb (dataLength =? zlen payload - ackHeaderSize - parameterLength)
          then text "protocol: AckData length mismatch"
          else
            b10 ← index payload 10; b11 ← index payload 11;
            let globalCode := Z.lor (Z.shiftl b10 8) b11 in
            parameters ← slice payload ackHeaderSize (ackHeaderSize + parameterLength);
            data ← slice payload (ackHeaderSize + parameterLength) (zlen payload);
            Ok (parameters, data, globalCode).

Definition ParseSetupResponse (payload : list Z) (reference : Z) : result SetupResult :=
  '(parameters, data, globalCode) ← parseAckData payload reference;
  if negb (globalCode =? 0) then Ok (mkSetupResult 0 0 0 globalCode)
  else if negb (zlen parameters =? 8) || negb (zlen data =? 0)
  then text "protocol: malformed setup response"
  else
    p0 ← index parameters 0; p1 ← index parameters 1;
    if negb (p0 =? functionSetup) || negb (p1 =? 0)
    then text "protocol: malformed setup response"
    else
      caller ← get_uint16 parameters 2;
      callee ← get_uint16 parameters 4;
      pdu ← get_uint16 parameters 6;
      Ok (mkSetupResult caller callee pdu globalCode).

(** The loop of ParseReadResponse over the expected items, at data offset
    [offset]; it ends with the trailing-data check. *)
Fixpoint parseReadItems (data : list Z) (offset idx count : Z) (expected : list Item)
    : result (list ItemResult) :=
  match expected with
  | [] =>
      if negb (offset =? zlen data) then text "protocol: trailing read response data" else Ok []
  | item :: rest =>
      if zlen data - offset <? itemDataHeaderSize
      then text ("protocol: truncated read item " +:+ dec idx +:+ " header")
      else
        returnCode ← index data offset;
        transport ← index data (offset + 1);
        lengthField ← get_uint16 data (offset + 2);
        let offset := offset + itemDataHeaderSize in
        if negb (returnCode =? 0xff) then
          if negb (transport =? 0) || (negb (lengthField =? 0) && negb (lengthField =? 4))
          then text ("protocol: failed read item " +:+ dec idx +:+ " includes data")
          else
            r ← parseReadItems data offset (idx + 1) count rest;
            Ok (mkItemResult returnCode [] :: r)
        else
          expectedLength ← encodedLength item;
          if negb (transport =? ResponseTransport item) || negb (lengthField =? expectedLength)
          then text ("protocol: read item " +:+ dec idx +:+ " transport or length mismatch")
          else if DataBytes item >? zlen data - offset
          then text ("protocol: truncated read item " +:+ dec idx +:+ " data")
          else
            d ← slice data offset (offset + DataBytes item);
            let offset := offset + DataBytes item in
            if padded idx count (DataBytes item) then
              if offset >=? zlen data
              then text ("protocol: missing read item " +:+ dec idx +:+ " padding")
              else
                pad ← index data offset;
                if negb (pad =? 0)
                then text ("protocol: missing read item " +:+ dec idx +:+ " padding")
                else
                  r ← parseReadItems data (offset + 1) (idx + 1) count rest;
                  Ok (mkItemResult returnCode d :: r)
            else
              r ← parseReadItems data offset (idx + 1) count rest;
              Ok (mkItemResult returnCode d :: r)
  end.

Definition ParseReadResponse (payload : list Z) (reference : Z) (expected : list Item)
    : result (list ItemResult * Z) :=
  '(parameters, data, globalCode) ← parseAckData payload reference;
  if negb (globalCode =? 0)
  then Ok (replicate (length expected) (mkItemResult 0 []), globalCode)
  else if negb (zlen parameters =? 2)
  then text "protocol: read response parameter mismatch"
  else
    p0 ← index parameters 0; p1 ← index parameters 1;
    if negb (p0 =? functionReadVar) || negb (p1 =? zlen expected)
    then text "protocol: read response parameter mismatch"
    else
      results ← parseReadItems data 0 0 (zlen expected) expected;
      Ok (results, globalCode).

Definition ParseWriteResponse (payload : list Z) (reference itemCount : Z)
    : result (list Z * Z) :=
  if (itemCount <? 1) || (itemCount >? WireMaxItemsPerPDU)
  then text "protocol: write item count outside 1..255"
  else
    '(parameters, data, globalCode) ← parseAckData payload reference;
    if negb (globalCode =? 0) then Ok (make itemCount, globalCode)
    else if negb (zlen parameters =? 2)
    then text "protocol: write response parameter mismatch"
    else
      p0 ← index parameters 0; p1 ← index parameters 1;
      if negb (p0 =? functionWriteVar) || negb (p1 =? itemCount)
      then text "protocol: write response parameter mismatch"
      else if negb (zlen data =? itemCount)
      then text "protocol: write response item-count mismatch"
      else Ok (data, globalCode).

(** ** The wire formats, as byte strings *)

Definition item_spec (item : Item) : list Z :=
  [0x12; 0x0a; 0x10; WordLength item] ++ be_split 2 (Amount item)
  ++ be_split 2 (DBNumber item) ++ [Area item] ++ be_split 3 (Address item).

Definition job_pdu (reference : Z) (parameters data : list Z) : list Z :=
  [0x32; 0x01; 0; 0] ++ be_split 2 reference ++ be_split 2 (zlen parameters)
  ++ be_split 2 (zlen data) ++ parameters ++ data.

Definition ack_pdu (reference : Z) (parameters data : list Z) (globalCode : Z) : list Z :=
  [0x32; 0x03; 0; 0] ++ be_split 2 reference ++ be_split 2 (zlen parameters)
  ++ be_split 2 (zlen data) ++ be_split 2 globalCode ++ parameters ++ data.

Definition variable_block (function : Z) (items : list Item) : list Z :=
  [function; zlen items] ++ concat (item_spec <$> items).

(** What a descriptor must satisfy to be sent: the conditions of validateItems. *)
Definition encoded_length (item : Item) : Z :=
  if WordLength item =? 0x01 then Amount item
  else if LengthInBits item then DataBytes item * 8 else DataBytes item.

Record valid_item (item : Item) : Prop := {
  vi_word : is_u8 (WordLength item) ∧ WordLength item ≠ 0;
  vi_transport : is_u8 (ResponseTransport item) ∧ ResponseTransport item ≠ 0;
  vi_amount : 0 < Amount item ≤ MaxUint16;
  vi_db : is_u16 (DBNumber item);
  vi_area : is_u8 (Area item) ∧ Area item ≠ 0;
  vi_address : 0 ≤ Address item ≤ 0xFFFFFF;
  vi_bytes : 1 ≤ DataBytes item < 2 ^ 61;
  vi_length : 0 ≤ encoded_length item ≤ MaxUint16;
}.

Lemma zlen_item_spec item : zlen (item_spec item) = 12.
Proof. done. Qed.
Lemma zlen_item_specs items : zlen (concat (item_spec <$> items)) = 12 * zlen items.
Proof.
  induction items as [|i items IH]; [done|]. rewrite fmap_cons. cbn [concat].
  rewrite zlen_app, zlen_item_spec, zlen_cons, IH. lia.
Qed.
Lemma zlen_variable_block f items : zlen (variable_block f items) = 2 + 12 * zlen items.
Proof. unfold variable_block. rewrite zlen_app, zlen_item_specs. zlia. Qed.
Lemma zlen_job_pdu r p d : zlen (job_pdu r p d) = 10 + zlen p + zlen d.
Proof. unfold job_pdu. zlia. Qed.
Lemma zlen_ack_pdu r p d g : zlen (ack_pdu r p d g) = 12 + zlen p + zlen d.
Proof. unfold ack_pdu. zlia. Qed.
#[export] Hint Rewrite zlen_item_spec zlen_item_specs zlen_variable_block zlen_job_pdu
  zlen_ack_pdu : zlen.


Lemma writeItemSpec_mid k l m off item : off = zlen k → zlen l = 12 →
  writeItemSpec (k ++ l ++ m) off item = Ok (k ++ item_spec item ++ m).
Proof.
  intros -> Hl. unfold writeItemSpec, put_uint16.
  do 12 (destruct l as [|? l]; [done|]). destruct l; [|zlia].
  repeat store_step. done.
Qed.

Lemma writeItemSpecs_mid items : ∀ k l idx,
  zlen k = 2 + 12 * idx → zlen l = 12 * zlen items →
  writeItemSpecs (k ++ l) idx items = Ok (k ++ concat (item_spec <$> items)).
Proof.
  induction items as [|item items IH]; intros k l idx Hk Hl.
  { replace l with (@nil Z) by (symmetry; apply zlen_nil_inv; zlia). done. }
  cbn [writeItemSpecs]. rewrite <-(take_drop 12 l).
  rewrite zlen_cons in Hl. zlen_pos.
  rewrite (writeItemSpec_mid k) by (unfold itemSpecSize; rewrite ?zlen_take; lia).
  cbn [mbind outcome_bind]. rewrite (app_assoc k).
  rewrite IH; rewrite ?zlen_drop; [|zlia..].
  rewrite fmap_cons. cbn [concat]. by rewrite <-app_assoc.
Qed.

Lemma variableParameters_block function items : zlen items ≤ 255 →
  variableParameters function items = Ok (variable_block function items).
Proof.
  intros Hn. unfold variableParameters. zlen_pos.
  rewrite make_app by (unfold itemSpecSize; lia).
  change (make 2) with ([0; 0]). rewrite <-(app_nil_l [0; 0]), <-app_assoc.
  repeat store_step. rewrite app_nil_l.
  rewrite (writeItemSpecs_mid items [function; u8 (zlen items)]).
  - unfold variable_block. by rewrite u8_id by (unfold is_u8; lia).
  - done.
  - unfold itemSpecSize. rewrite zlen_make; lia.
Qed.

Lemma buildJob_pdu reference parameters data :
  reference ≠ 0 → zlen parameters ≤ MaxUint16 → zlen data ≤ MaxUint16 →
  buildJob reference parameters data = Ok (job_pdu reference parameters data).
Proof.
  intros Hr Hp Hd. unfold buildJob, MaxUint16, jobHeaderSize in *. zlen_pos.
  rewrite (proj2 (Z.eqb_neq _ _)) by done.
  rewrite (proj2 (Z.ltb_ge _ _)) || rewrite Z.gtb_ltb, (proj2 (Z.ltb_ge _ _)) by lia.
  rewrite Z.gtb_ltb, (proj2 (Z.ltb_ge _ _)) by lia. cbn [orb].
  rewrite !make_app by lia. change (make 10) with (replicate 10 0). cbn [replicate].
  rewrite <-app_assoc, <-(app_nil_l (_ :: _)), <-app_assoc. unfold put_uint16.
  repeat store_step.
  rewrite !u16_id by (unfold is_u16; lia).
  rewrite app_nil_l, (copy_at_app _ (make (zlen parameters)) (make (zlen data))) by zlia.
  rewrite app_assoc, <-(app_nil_r (make (zlen data))), copy_at_app by zlia.
  by rewrite <-!app_assoc, app_nil_r.
Qed.

(** ** The conditions of the encoders *)


Lemma encodedLength_value item :
  0 ≤ DataBytes item < 2 ^ 61 → is_u16 (Amount item) →
  encodedLength item =
    if encoded_length item >? MaxUint16 then text "encoded data length exceeds uint16"
    else Ok (encoded_length item).
Proof.
  unfold encodedLength, encoded_length, u64, is_u16. intros Hd Ha.
  rewrite (Z.mod_small (DataBytes item)) by lia.
  rewrite (Z.mod_small (_ * 8)) by lia.
  destruct (WordLength item =? 1), (LengthInBits item);
    (match goal with |- context [?x >? MaxUint16] => destruct (x >? MaxUint16) eqn:E end;
     [done|rewrite u16_id by bool_lia; done]).
Qed.

Lemma encodedLength_valid item : valid_item item → encodedLength item = Ok (encoded_length item).
Proof.
  intros []. rewrite encodedLength_value by bool_lia.
  destruct (_ >? _) eqn:E; [bool_lia|done].
Qed.

(** The wire types of the fields of a descriptor (Go's static types). *)
Record typed_item (item : Item) : Prop := {
  ti_word : is_u8 (WordLength item);
  ti_transport : is_u8 (ResponseTransport item);
  ti_amount : is_u16 (Amount item);
  ti_db : is_u16 (DBNumber item);
  ti_area : is_u8 (Area item);
  ti_address : is_u32 (Address item);
  ti_bytes : DataBytes item < 2 ^ 61;
}.

Lemma valid_typed item : valid_item item → typed_item item.
Proof. intros []. constructor; bool_lia. Qed.

Lemma validateItemsFrom_spec items : ∀ idx, Forall typed_item items →
  (validateItemsFrom idx items = Ok tt ∧ Forall valid_item items)
  ∨ (∃ e, validateItemsFrom idx items = Err e ∧ ¬ Forall valid_item items).
Proof.
  induction items as [|item items IH]; intros idx Ht; [left; by split|].
  apply Forall_cons in Ht as [Hi Ht]. cbn [validateItemsFrom].
  match goal with |- context [if ?c then _ else _] => destruct c eqn:Hc end.
  { right. eexists; split; [done|]. intros [Hv _]%Forall_cons.
    destruct Hv. bool_lia. }
  destruct Hi. rewrite encodedLength_value by bool_lia.
  destruct (_ >? MaxUint16) eqn:Hl.
  { right. eexists; split; [done|]. intros [Hv _]%Forall_cons. destruct Hv. bool_lia. }
  assert (valid_item item) as Hv.
  { constructor; bool_lia || (unfold encoded_length in *; repeat case_match; bool_lia). }
  cbn [map_err mbind outcome_bind].
  destruct (IH (idx + 1) Ht) as [[-> ?]|(e & -> & Hn)].
  - left. split; [done|by constructor].
  - right. eexists; split; [done|]. by intros [_ ?]%Forall_cons.
Qed.

(** ** Parsing: AckData *)

Lemma parseAckData_cons b0 b1 b2 b3 b4 b5 b6 b7 b8 b9 b10 b11 r reference :
  bytes [b4; b5; b6; b7; b8; b9] →
  parseAckData (b0 :: b1 :: b2 :: b3 :: b4 :: b5 :: b6 :: b7 :: b8 :: b9 :: b10 :: b11 :: r)
    reference =
  if reference =? 0 then text "protocol: short AckData PDU"
  else if negb (b0 =? protocolID) || negb (b1 =? rosctrAckData)
  then text "protocol: invalid protocol ID or ROSCTR"
  else if negb (b2 =? 0) || negb (b3 =? 0)
  then text "protocol: non-zero redundancy identification"
  else if negb (be_combine [b4; b5] =? reference)
  then text "protocol: PDU reference mismatch"
  else if (be_combine [b6; b7] >? zlen r)
          || negb (be_combine [b8; b9] =? zlen r - be_combine [b6; b7])
  then text "protocol: AckData length mismatch"
  else Ok (take (Z.to_nat (be_combine [b6; b7])) r, drop (Z.to_nat (be_combine [b6; b7])) r,
           be_combine [b10; b11]).
Proof.
  intros Hb. unfold parseAckData, ackHeaderSize. zlen_pos.
  rewrite (proj2 (Z.ltb_ge _ _)) by zlia. rewrite orb_false_r.
  destruct (reference =? 0); [done|].
  rewrite !index_Ok, !get_uint16_Ok by zlia. cbn [mbind outcome_bind].
  eval_at.
  do 3 (case_if; [done|]).
  assert (is_u16 (be_combine [b6; b7])) as Hp.
  { rewrite !Forall_cons in Hb. destruct_and! Hb. by apply be_combine2_range. }
  replace (zlen _ - 12) with (zlen r) by zlia.
  case_if; [done|]. unfold is_u16 in *.
  rewrite !slice_Ok by zlia. cbn [mbind outcome_bind].
  rewrite sub_full by lia. do 3 f_equal; [f_equal|].
  - unfold sub. replace (12 + _ - 12) with (be_combine [b6; b7]) by lia. done.
  - replace (Z.to_nat (12 + _)) with (12 + Z.to_nat (be_combine [b6; b7]))%nat by lia. done.
Qed.

(** The parser accepts exactly the AckData PDUs of the reference. *)
Lemma parseAckData_Ok payload reference p d g : bytes payload →
  parseAckData payload reference = Ok (p, d, g) ↔
  payload = ack_pdu reference p d g ∧ reference ≠ 0 ∧ is_u16 reference ∧
  zlen p ≤ MaxUint16 ∧ zlen d ≤ MaxUint16 ∧ is_u16 g.
Proof.
  intros Hb. split.
  - intros H. destruct (decide (zlen payload < 12)).
    { unfold parseAckData, ackHeaderSize in H.
      rewrite (proj2 (Z.ltb_lt _ _)), orb_true_r in H by done. done. }
    explode payload 12%nat. rewrite !Forall_cons in Hb. destruct_and! Hb.
    rewrite parseAckData_cons in H by solve_bytes.
    inv_if H. injection H as <- <- <-. be_ranges.
    match goal with |- context [take (Z.to_nat ?n) ?r] =>
      assert (zlen (take (Z.to_nat n) r) = n) as Hzp by (rewrite zlen_take; bool_lia);
      assert (zlen (drop (Z.to_nat n) r) = zlen r - n) as Hzd by (rewrite zlen_drop; bool_lia)
    end.
    rewrite Hzp, Hzd. split; [|bool_lia]. unfold ack_pdu. rewrite Hzp, Hzd.
    match goal with E : negb (?x =? reference) = false |- _ =>
      replace reference with x by lia end.
    match goal with E : _ || negb (?x =? zlen payload - ?n) = false |- _ =>
      replace (zlen payload - n) with x by lia end.
    rewrite !be_split_combine2 by assumption. cbn [app]. rewrite take_drop.
    unfold protocolID, rosctrAckData in *. repeat f_equal; lia.
  - intros (-> & Hr & ? & ? & ? & ?). unfold ack_pdu. cbn [be_split app].
    rewrite parseAckData_cons by solve_bytes.
    zlen_pos. rewrite !be_combine_split2 by bool_lia.
    rewrite (proj2 (Z.eqb_neq reference 0) Hr), Z.eqb_refl. cbn [negb orb].
    change (50 =? protocolID) with true. change (3 =? rosctrAckData) with true. cbn [negb orb].
    rewrite zlen_app, !Z.eqb_refl. cbn [negb orb]. case_if; [lia|].
    unfold zlen. rewrite Nat2Z.id, take_app_length, drop_app_length. done.
Qed.

Lemma parseAckData_returns payload reference : bytes payload →
  returns (parseAckData payload reference).
Proof.
  intros Hb. destruct (decide (zlen payload < 12)).
  { unfold parseAckData, ackHeaderSize.
    by rewrite (proj2 (Z.ltb_lt _ _)), orb_true_r by done. }
  explode payload 12%nat. rewrite !Forall_cons in Hb. destruct_and! Hb.
  rewrite parseAckData_cons by solve_bytes. by repeat case_if.
Qed.

(** ** Parsing: ReadVar data *)

(** [read_data count idx items results data]: [data] is the data block that
    reports [results] for [items], the first of which has index [idx] of
    [count]. A failed item has no payload; its length field may be 0 or 4. *)
Inductive read_data (count : Z) : Z → list Item → list ItemResult → list Z → Prop :=
| rd_nil idx : read_data count idx [] [] []
| rd_failed idx item items rc len rs d :
    rc ≠ 0xff → len = 0 ∨ len = 4 →
    read_data count (idx + 1) items rs d →
    read_data count idx (item :: items) (mkItemResult rc [] :: rs) ([rc; 0; 0; len] ++ d)
| rd_ok idx item items payload rs d :
    zlen payload = DataBytes item →
    read_data count (idx + 1) items rs d →
    read_data count idx (item :: items) (mkItemResult 0xff payload :: rs)
      ([0xff; ResponseTransport item] ++ be_split 2 (encoded_length item) ++ payload
       ++ (if padded idx count (DataBytes item) then [0] else []) ++ d).

(** One item, relative to the consumed prefix [k]. *)
Lemma parseReadItems_cons k b0 b1 b2 b3 r idx count item items :
  valid_item item →
  parseReadItems (k ++ b0 :: b1 :: b2 :: b3 :: r) (zlen k) idx count (item :: items) =
  if negb (b0 =? 0xff) then
    if negb (b1 =? 0) || (negb (be_combine [b2; b3] =? 0) && negb (be_combine [b2; b3] =? 4))
    then text ("protocol: failed read item " +:+ dec idx +:+ " includes data")
    else
      rs ← parseReadItems ((k ++ [b0; b1; b2; b3]) ++ r) (zlen (k ++ [b0; b1; b2; b3]))
             (idx + 1) count items;
      Ok (mkItemResult b0 [] :: rs)
  else if negb (b1 =? ResponseTransport item)
          || negb (be_combine [b2; b3] =? encoded_length item)
  then text ("protocol: read item " +:+ dec idx +:+ " transport or length mismatch")
  else if DataBytes item >? zlen r
  then text ("protocol: truncated read item " +:+ dec idx +:+ " data")
  else
    let d := take (Z.to_nat (DataBytes item)) r in
    let r := drop (Z.to_nat (DataBytes item)) r in
    let k := k ++ [b0; b1; b2; b3] ++ d in
    if padded idx count (DataBytes item) then
      match r with
      | 0 :: r =>
          rs ← parseReadItems ((k ++ [0]) ++ r) (zlen (k ++ [0])) (idx + 1) count items;
          Ok (mkItemResult b0 d :: rs)
      | _ => text ("protocol: missing read item " +:+ dec idx +:+ " padding")
      end
    else
      rs ← parseReadItems (k ++ r) (zlen k) (idx + 1) count items;
      Ok (mkItemResult b0 d :: rs).
Proof.
  intros Hv. pose proof (vi_bytes _ Hv). zlen_pos.
  cbn [parseReadItems]. unfold itemDataHeaderSize.
  rewrite (proj2 (Z.ltb_ge _ _)) by zlia.
  rewrite index_app_0, (index_app k _ 1), (get_uint16_app k _ 2) by lia. cbn [mbind outcome_bind].
  rewrite (index_Ok _ 1), (get_uint16_Ok _ 2) by zlia. cbn [mbind outcome_bind]. eval_at.
  replace (k ++ b0 :: b1 :: b2 :: b3 :: r) with ((k ++ [b0; b1; b2; b3]) ++ r)
    by by rewrite <-app_assoc.
  replace (zlen k + 4) with (zlen (k ++ [b0; b1; b2; b3])) by zlia.
  rewrite (app_assoc k). set (k' := k ++ [b0; b1; b2; b3]).
  case_if; [done|]. rewrite encodedLength_valid by done. cbn [mbind outcome_bind].
  case_if; [done|]. zlen_pos. replace (zlen (k' ++ r) - zlen k') with (zlen r) by zlia.
  case_if; [done|]. rewrite slice_app_0 by lia. cbn [mbind outcome_bind].
  assert (r = take (Z.to_nat (DataBytes item)) r ++ drop (Z.to_nat (DataBytes item)) r) as Hr
    by by rewrite take_drop.
  assert (zlen (take (Z.to_nat (DataBytes item)) r) = DataBytes item) as Hd
    by (rewrite zlen_take; lia).
  revert Hr Hd. generalize (take (Z.to_nat (DataBytes item)) r) as d,
    (drop (Z.to_nat (DataBytes item)) r) as r'. intros d r' -> Hd.
  rewrite <-Hd. replace (zlen k' + zlen d) with (zlen (k' ++ d)) by zlia.
  rewrite (app_assoc k'). set (k2 := k' ++ d). case_if; [|done].
  destruct r' as [|z r']; [rewrite app_nil_r; case_if; [done|lia]|].
  zlen_pos. case_if; [zlia|]. rewrite index_app_0. cbn [mbind outcome_bind].
  replace (zlen k2 + 1) with (zlen (k2 ++ [z])) by zlia.
  replace (k2 ++ z :: r') with ((k2 ++ [z]) ++ r') by by rewrite <-app_assoc.
  by destruct z.
Qed.

Lemma parseReadItems_short k r idx count item items : zlen r < 4 →
  parseReadItems (k ++ r) (zlen k) idx count (item :: items)
  = text ("protocol: truncated read item " +:+ dec idx +:+ " header").
Proof.
  intros. cbn [parseReadItems]. unfold itemDataHeaderSize.
  by rewrite (proj2 (Z.ltb_lt _ _)) by zlia.
Qed.

Lemma parseReadItems_sound items : ∀ k r idx count rs, Forall valid_item items → bytes r →
  parseReadItems (k ++ r) (zlen k) idx count items = Ok rs → read_data count idx items rs r.
Proof.
  induction items as [|item items IH]; intros k r idx count rs Hv Hb H.
  { cbn [parseReadItems] in H. inv_if H. injection H as <-.
    replace r with (@nil Z); [constructor|]. symmetry. apply zlen_nil_inv. zlia. }
  apply Forall_cons in Hv as [Hi Hv].
  destruct (decide (zlen r < 4)); [by rewrite parseReadItems_short in H|].
  explode r 4%nat. rewrite parseReadItems_cons in H by done.
  rewrite !Forall_cons in Hb. destruct_and! Hb. destruct (negb (b =? 255)) eqn:Hrc.
  { inv_if H. apply bind_Ok_inv in H as (rs' & H & [= <-]).
    be_ranges. apply IH in H; [|done..].
    assert ([b1; b2] = [0; 0] ∨ [b1; b2] = [0; 4]) as Hl.
    { rewrite <-(be_split_combine2 b1 b2) by done.
      destruct (decide (be_combine [b1; b2] = 0)) as [->|]; [by left|].
      replace (be_combine [b1; b2]) with 4 by lia. by right. }
    replace b0 with 0 by lia. replace b1 with 0 by (destruct Hl; congruence).
    apply rd_failed; [lia|destruct Hl; naive_solver|done]. }
  inv_if H. assert (b = 255) by lia. subst b.
  replace b0 with (ResponseTransport item) by lia.
  change (b1 :: b2 :: r) with ([b1; b2] ++ r).
  rewrite <-(be_split_combine2 b1 b2) by done.
  replace (be_combine [b1; b2]) with (encoded_length item) by lia.
  pose proof (vi_bytes _ Hi).
  rewrite <-(take_drop (Z.to_nat (DataBytes item)) r).
  assert (bytes (drop (Z.to_nat (DataBytes item)) r)) as Hd by by apply Forall_drop.
  assert (zlen (take (Z.to_nat (DataBytes item)) r) = DataBytes item) as Hl
    by (rewrite zlen_take; lia).
  revert H Hd Hl. cbv zeta. destruct (padded idx count (DataBytes item)) eqn:Hp.
  - destruct (drop _ r) as [|[] r']; intros H Hd Hl; try discriminate H.
    apply bind_Ok_inv in H as (rs' & H & [= <-]). apply Forall_cons in Hd as [_ Hd].
    apply IH in H; [|done..].
    pose proof (rd_ok count idx item items _ rs' r' Hl H) as Hr. rewrite Hp in Hr. exact Hr.
  - intros H Hd Hl. apply bind_Ok_inv in H as (rs' & H & [= <-]).
    apply IH in H; [|done..].
    pose proof (rd_ok count idx item items _ rs' _ Hl H) as Hr. rewrite Hp in Hr. exact Hr.
Qed.

Lemma parseReadItems_complete items idx count rs r :
  read_data count idx items rs r → Forall valid_item items →
  ∀ k, parseReadItems (k ++ r) (zlen k) idx count items = Ok rs.
Proof.
  induction 1 as [idx|idx item items rc len rs d Hrc Hlen Hd IH|idx item items pl rs d Hpl Hd IH];
    intros Hv k.
  - cbn [parseReadItems]. by rewrite app_nil_r, Z.eqb_refl.
  - apply Forall_cons in Hv as [Hi Hv]. cbn [app]. rewrite parseReadItems_cons by done.
    rewrite (proj2 (Z.eqb_neq rc 255)) by done. cbn [negb Z.eqb].
    destruct Hlen as [-> | ->]; rewrite IH by done; done.
  - apply Forall_cons in Hv as [Hi Hv]. cbn [app be_split]. rewrite parseReadItems_cons by done.
    pose proof (vi_length _ Hi). pose proof (vi_bytes _ Hi).
    rewrite be_combine_split2, !Z.eqb_refl by bool_lia. cbn [negb orb].
    case_if; [zlia|]. cbv zeta.
    rewrite take_app_length', drop_app_length' by (unfold zlen in *; lia).
    destruct (padded _ _ _); cbn [app]; by rewrite IH.
Qed.

Lemma parseReadItems_returns items : ∀ k r idx count, Forall valid_item items →
  returns (parseReadItems (k ++ r) (zlen k) idx count items).
Proof.
  induction items as [|item items IH]; intros k r idx count Hv.
  { cbn [parseReadItems]. by case_if. }
  apply Forall_cons in Hv as [Hi Hv].
  destruct (decide (zlen r < 4)); [by rewrite parseReadItems_short|].
  explode r 4%nat. rewrite parseReadItems_cons by done. cbv zeta.
  repeat (case_if || case_match); try done; (apply bind_returns; [by apply IH|done]).
Qed.

(** ** The parsers accept exactly the documented responses *)

(** What a matching response says: a global error, or the payload of the job. *)
Definition ack_response (reference : Z) (payload : list Z)
    (content : list Z → list Z → Z → Prop) : Prop :=
  is_u16 reference ∧ reference ≠ 0 ∧
  ∃ p d g, payload = ack_pdu reference p d g ∧ zlen p ≤ MaxUint16 ∧ zlen d ≤ MaxUint16 ∧
           is_u16 g ∧ content p d g.

Definition read_content (expected : list Item) (results : list ItemResult) (global : Z)
    (p d : list Z) (g : Z) : Prop :=
  g = global ∧
  ((g ≠ 0 ∧ results = replicate (length expected) (mkItemResult 0 [])) ∨
   (g = 0 ∧ p = [functionReadVar; zlen expected] ∧
    read_data (zlen expected) 0 expected results d)).

Definition write_content (itemCount : Z) (codes : list Z) (global : Z)
    (p d : list Z) (g : Z) : Prop :=
  g = global ∧
  ((g ≠ 0 ∧ codes = make itemCount) ∨
   (g = 0 ∧ p = [functionWriteVar; itemCount] ∧ codes = d ∧ zlen d = itemCount)).

Definition setup_content (r : SetupResult) (p d : list Z) (g : Z) : Prop :=
  g = GlobalCode r ∧
  ((g ≠ 0 ∧ r = mkSetupResult 0 0 0 g) ∨
   (g = 0 ∧ d = [] ∧ is_u16 (MaxAmQCaller r) ∧ is_u16 (MaxAmQCallee r) ∧ is_u16 (PDU r) ∧
    p = [functionSetup; 0] ++ be_split 2 (MaxAmQCaller r) ++ be_split 2 (MaxAmQCallee r)
        ++ be_split 2 (PDU r))).

Lemma parseAckData_bind {A} payload reference (f : list Z * list Z * Z → result A) a :
  bytes payload →
  (parseAckData payload reference ≫= f) = Ok a ↔
  ack_response reference payload (λ p d g, f (p, d, g) = Ok a).
Proof.
  intros Hb. unfold ack_response. split.
  - intros ([[p d] g] & Hp & Hf)%bind_Ok_inv.
    apply parseAckData_Ok in Hp as (?&?&?&?&?&?); naive_solver.
  - intros (? & ? & p & d & g & Hpl & ? & ? & ? & Hf).
    assert (parseAckData payload reference = Ok (p, d, g)) as -> by (by apply parseAckData_Ok).
    exact Hf.
Qed.

Lemma ack_response_iff reference payload C C' : bytes payload →
  (∀ p d g, bytes p → bytes d → C p d g ↔ C' p d g) →
  ack_response reference payload C ↔ ack_response reference payload C'.
Proof.
  intros Hb HC. unfold ack_response.
  split; intros (? & ? & p & d & g & Hpl & ? & ? & ? & Hf);
    (do 2 (split; [done|]); exists p, d, g; split_and!; try done; apply HC; [| |done]);
    subst payload; unfold ack_pdu in Hb; rewrite !Forall_app in Hb; destruct_and! Hb; done.
Qed.

(** Parameters of a variable response, taken apart. *)
Lemma pair_parameters {A} (p : list Z) (f n : Z) (m1 m2 : string) (k : result A) a :
  (if negb (zlen p =? 2) then text m1
   else p0 ← index p 0; p1 ← index p 1;
        if negb (p0 =? f) || negb (p1 =? n) then text m2 else k) = Ok a
  ↔ p = [f; n] ∧ k = Ok a.
Proof.
  split.
  - intros H. destruct (zlen p =? 2) eqn:Hl; [|done]. cbn [negb] in H.
    explode p 2%nat. destruct p; [|exfalso; zlia].
    rewrite (index_Ok _ 0), (index_Ok _ 1) in H by zlia. revert H. eval_at.
    cbn [mbind outcome_bind]. intros H. inv_if H. split; [|done]. repeat f_equal; lia.
  - intros [-> ?]. change (zlen [f; n] =? 2) with true.
    change (index [f; n] 0) with (@Ok error _ f). change (index [f; n] 1) with (@Ok error _ n).
    cbn [negb mbind outcome_bind]. by rewrite !Z.eqb_refl.
Qed.

(** C: ParseReadResponse *)
Lemma ParseReadResponse_spec payload reference expected results global :
  bytes payload → Forall valid_item expected →
  ParseReadResponse payload reference expected = Ok (results, global) ↔
  ack_response reference payload (read_content expected results global).
Proof.
  intros Hb Hv. unfold ParseReadResponse. rewrite parseAckData_bind by done.
  apply ack_response_iff; [done|]. intros p d g Hp Hd. unfold read_content.
  destruct (g =? 0) eqn:Hg; cbn [negb].
  - rewrite pair_parameters. split.
    + intros (-> & (rs & Hr & [= <- <-])%bind_Ok_inv). split; [done|]. right.
      split_and!; [lia|done|]. by apply (parseReadItems_sound expected [] d).
    + intros (-> & [[? ?]|(_ & -> & Hr)]); [lia|]. split; [done|].
      pose proof (parseReadItems_complete _ _ _ _ _ Hr Hv []) as Hc.
      cbn [app] in Hc. rewrite zlen_nil in Hc. by rewrite Hc.
  - split; [intros [= <- <-]|intros (-> & [[_ ->]|(? & _)])]; [|done|lia].
    split; [done|left; split; [lia|done]].
Qed.

Lemma ParseWriteResponse_spec payload reference itemCount codes global :
  bytes payload → 1 ≤ itemCount ≤ 255 →
  ParseWriteResponse payload reference itemCount = Ok (codes, global) ↔
  ack_response reference payload (write_content itemCount codes global).
Proof.
  intros Hb Hn. unfold ParseWriteResponse, WireMaxItemsPerPDU. case_if; [lia|].
  rewrite parseAckData_bind by done.
  apply ack_response_iff; [done|]. intros p d g Hp Hd. unfold write_content.
  destruct (g =? 0) eqn:Hg; cbn [negb].
  - rewrite pair_parameters. destruct (zlen d =? itemCount) eqn:Hl; cbn [negb].
    + split; [intros [-> [= <- <-]]|intros (-> & [[? ?]|(_ & -> & -> & _)])]; [|lia|done].
      split; [done|right]. split_and!; done || lia.
    + split; [by intros [_ ?]|]. intros (_ & [[? ?]|(_ & _ & _ & ?)]); lia.
  - split; [intros [= <- <-]|intros (-> & [[_ ->]|(? & _)])]; [|done|lia].
    split; [done|left; split; [lia|done]].
Qed.

Lemma ParseSetupResponse_spec payload reference r :
  bytes payload →
  ParseSetupResponse payload reference = Ok r ↔
  ack_response reference payload (setup_content r).
Proof.
  intros Hb. unfold ParseSetupResponse. rewrite parseAckData_bind by done.
  apply ack_response_iff; [done|]. intros p d g Hp Hd. unfold setup_content.
  destruct (g =? 0) eqn:Hg; cbn [negb].
  - split.
    + intros H. inv_if H. explode p 8%nat. destruct p; [|exfalso; zlia].
      rewrite (index_Ok _ 0), (index_Ok _ 1), !get_uint16_Ok in H by zlia.
      revert H. eval_at. cbn [mbind outcome_bind]. intros H. inv_if H.
      injection H as <-. cbn [MaxAmQCaller MaxAmQCallee PDU GlobalCode].
      rewrite !Forall_cons in Hp. destruct_and! Hp. split; [done|right].
      rewrite !be_split_combine2 by done.
      split_and!; [lia|apply zlen_nil_inv; lia|by apply be_combine2_range..|].
      cbn [app]. unfold functionSetup in *. repeat f_equal; lia.
    + intros (-> & [[? ?]|(? & -> & ? & ? & ? & ->)]); [lia|].
      cbn [be_split app]. case_if; [exfalso; zlia|].
      rewrite (index_Ok _ 0), (index_Ok _ 1), !get_uint16_Ok by zlia. eval_at.
      cbn [mbind outcome_bind negb Z.eqb orb Pos.eqb functionSetup].
      rewrite !be_combine_split2 by done. by destruct r.
  - split; [intros [= <-]|intros (-> & [[_ ->]|(? & _)])]; [|done|lia].
    cbn [GlobalCode]. split; [done|left; split; [lia|done]].
Qed.

(** No input makes a parser panic, whatever the declared lengths. *)
Lemma parsers_never_panic payload reference expected itemCount :
  bytes payload → Forall valid_item expected →
  returns (ParseSetupResponse payload reference) ∧
  returns (ParseReadResponse payload reference expected) ∧
  returns (ParseWriteResponse payload reference itemCount).
Proof.
  intros Hb Hv.
  assert (∀ A (f : list Z * list Z * Z → result A), (∀ x, returns (f x)) →
            returns (parseAckData payload reference ≫= f)) as Hack.
  { intros A f Hf. apply bind_returns; [by apply parseAckData_returns|auto]. }
  split_and!.
  - apply Hack. intros [[p d] g]. repeat (case_if; [done|]).
    explode p 8%nat. destruct p; [|exfalso; zlia].
    rewrite (index_Ok _ 0), (index_Ok _ 1), !get_uint16_Ok by zlia.
    cbn [mbind outcome_bind]. by repeat case_if.
  - apply Hack. intros [[p d] g]. repeat (case_if; [done|]).
    rewrite !index_Ok by lia. cbn [mbind outcome_bind]. case_if; [done|].
    apply bind_returns; [|done]. by apply (parseReadItems_returns expected []).
  - unfold ParseWriteResponse. case_if; [done|]. apply Hack. intros [[p d] g].
    repeat (case_if; [done|]). rewrite !index_Ok by lia. cbn [mbind outcome_bind].
    by repeat case_if.
Qed.

(** ** The encoders send exactly the documented requests *)

(** When a ReadVar request can be built. *)
Definition sendable (reference : Z) (items : list Item) : Prop :=
  reference ≠ 0 ∧ 1 ≤ zlen items ≤ WireMaxItemsPerPDU ∧ Forall valid_item items.

Lemma validateItems_spec reference items : Forall typed_item items →
  (validateItems reference items = Ok tt ∧ sendable reference items)
  ∨ (∃ e, validateItems reference items = Err e ∧ ¬ sendable reference items).
Proof.
  intros Ht. unfold validateItems, sendable, WireMaxItemsPerPDU. zlen_pos.
  case_if; [right; eexists; split; [done|]; lia|].
  case_if; [right; eexists; split; [done|]; lia|].
  destruct (validateItemsFrom_spec items 0 Ht) as [[-> ?]|(e & -> & ?)].
  - left. split; [done|]. split_and!; [lia..|done].
  - right. eexists; split; [done|]. naive_solver.
Qed.

Lemma BuildReadRequest_spec reference items :
  is_u16 reference → Forall typed_item items →
  match BuildReadRequest reference items with
  | Ok pdu =>
      sendable reference items ∧
      pdu = job_pdu reference (variable_block functionReadVar items) [] ∧
      zlen pdu = ReadRequestSize (zlen items)
  | Err _ => ¬ sendable reference items
  | Panic => False
  end.
Proof.
  intros Hr Ht. unfold BuildReadRequest.
  destruct (validateItems_spec reference items Ht) as [[-> Hs]|(e & -> & Hs)]; [|done].
  cbn [mbind outcome_bind]. destruct Hs as (Hr0 & Hn & Hv). unfold WireMaxItemsPerPDU in Hn.
  rewrite variableParameters_block by lia. cbn [mbind outcome_bind].
  rewrite buildJob_pdu by (done || unfold MaxUint16; autorewrite with zlen; lia).
  split; [done|]. split; [done|]. unfold ReadRequestSize, jobHeaderSize, itemSpecSize. zlia.
Qed.

(** The data block of a WriteVar request. *)
Fixpoint write_data (idx count : Z) (items : list WriteItem) : list Z :=
  match items with
  | [] => []
  | item :: rest =>
      [0x00; ResponseTransport (WItem item)] ++ be_split 2 (encoded_length (WItem item))
      ++ WData item
      ++ (if padded idx count (zlen (WData item)) then [0x00] else [])
      ++ write_data (idx + 1) count rest
  end.

(** When a WriteVar request can be built. *)
Definition write_sendable (reference : Z) (items : list WriteItem) : Prop :=
  sendable reference (WItem <$> items) ∧
  Forall (λ i, zlen (WData i) = DataBytes (WItem i)) items ∧
  zlen (write_data 0 (zlen items) items) ≤ MaxUint16.

Lemma writeDescriptors_spec items : ∀ idx,
  (writeDescriptors idx items = Ok (WItem <$> items) ∧
   Forall (λ i, zlen (WData i) = DataBytes (WItem i)) items)
  ∨ (∃ e, writeDescriptors idx items = Err e ∧
   ¬ Forall (λ i, zlen (WData i) = DataBytes (WItem i)) items).
Proof.
  induction items as [|item items IH]; intros idx; [by left|]. cbn [writeDescriptors].
  case_if; [right; eexists; split; [done|]; rewrite Forall_cons; lia|].
  destruct (IH (idx + 1)) as [[-> ?]|(e & -> & ?)]; cbn [mbind outcome_bind].
  - left. split; [done|]. constructor; [lia|done].
  - right. eexists; split; [done|]. rewrite Forall_cons. naive_solver.
Qed.

Lemma writeDataFrom_spec items : ∀ data idx count, Forall valid_item (WItem <$> items) →
  writeDataFrom data idx count items = Ok (data ++ write_data idx count items).
Proof.
  induction items as [|item items IH]; intros data idx count Hv; [by rewrite app_nil_r|].
  rewrite fmap_cons, Forall_cons in Hv. destruct Hv as [Hi Hv].
  cbn [writeDataFrom write_data]. rewrite encodedLength_valid by done.
  cbn [mbind outcome_bind]. rewrite IH by done. f_equal.
  case_if; cbn [be_split app]; by rewrite <-!app_assoc.
Qed.

Lemma zlen_write_data items : ∀ idx count,
  zlen (write_data idx count items) = itemSizes idx count ((λ i, zlen (WData i)) <$> items).
Proof.
  induction items as [|item items IH]; intros; [done|].
  rewrite fmap_cons. cbn [write_data itemSizes]. unfold itemDataHeaderSize.
  rewrite !zlen_app, IH. case_if; zlia.
Qed.

Lemma BuildWriteRequest_spec reference items :
  is_u16 reference → Forall typed_item (WItem <$> items) →
  match BuildWriteRequest reference items with
  | Ok pdu =>
      write_sendable reference items ∧
      pdu = job_pdu reference (variable_block functionWriteVar (WItem <$> items))
              (write_data 0 (zlen items) items) ∧
      zlen pdu = WriteRequestSize items
  | Err _ => ¬ write_sendable reference items
  | Panic => False
  end.
Proof.
  intros Hr Ht. unfold BuildWriteRequest, write_sendable.
  case_if. { unfold sendable. rewrite zlen_map. intros [[_ [? _]] _]. zlen_pos. lia. }
  destruct (writeDescriptors_spec items 0) as [[-> Hd]|(e & -> & Hd)];
    cbn [mbind outcome_bind]; [|naive_solver].
  destruct (validateItems_spec reference _ Ht) as [[-> Hs]|(e & -> & Hs)];
    cbn [mbind outcome_bind]; [|naive_solver].
  pose proof Hs as (Hr0 & Hn & Hv). unfold WireMaxItemsPerPDU in Hn.
  rewrite variableParameters_block by lia. cbn [mbind outcome_bind].
  rewrite writeDataFrom_spec by done. cbn [mbind outcome_bind app].
  destruct (decide (zlen (write_data 0 (zlen items) items) ≤ MaxUint16)) as [Hl|Hl].
  - rewrite buildJob_pdu by (done || unfold MaxUint16; autorewrite with zlen in *; lia).
    split; [done|]. split; [done|].
    unfold WriteRequestSize, jobHeaderSize, itemSpecSize. rewrite <-zlen_write_data. zlia.
  - unfold buildJob. case_if; [naive_solver|]. bool_lia.
Qed.

Lemma BuildSetupRequest_spec reference caller callee pdu :
  is_u16 reference → is_u16 caller → is_u16 callee → is_u16 pdu →
  BuildSetupRequest reference caller callee pdu =
  if decide (reference ≠ 0 ∧ caller ≠ 0 ∧ callee ≠ 0 ∧ pdu ≠ 0)
  then Ok (job_pdu reference
         ([functionSetup; 0] ++ be_split 2 caller ++ be_split 2 callee ++ be_split 2 pdu) [])
  else text "protocol: setup fields must be non-zero".
Proof.
  intros. unfold BuildSetupRequest. case_decide.
  - case_if; [lia|]. change (make 8) with ([] ++ make 8 ++ []).
    cbn [make replicate Z.to_nat Pos.to_nat Pos.iter_op Nat.add]. unfold put_uint16.
    repeat store_step. rewrite app_nil_l, app_nil_r.
    by rewrite buildJob_pdu by (done || lia).
  - case_if; [done|lia].
Qed.

(** ** Sizes of responses *)

Lemma read_data_size count idx items rs d : read_data count idx items rs d →
  Forall valid_item items →
  zlen d ≤ itemSizes idx count (DataBytes <$> items) ∧
  (Forall (λ r, ReturnCode r = 0xff) rs → zlen d = itemSizes idx count (DataBytes <$> items)).
Proof.
  induction 1 as [idx|idx item items rc len rs d Hrc Hlen Hd IH|idx item items pl rs d Hpl Hd IH];
    intros Hv; [done|..]; apply Forall_cons in Hv as [Hi Hv]; pose proof (vi_bytes _ Hi);
    destruct (IH Hv) as [IH1 IH2]; rewrite fmap_cons; cbn [itemSizes];
    unfold itemDataHeaderSize; rewrite !zlen_app.
  - split; [case_if; zlia|]. intros [? _]%Forall_cons. done.
  - split; [case_if; zlia|]. intros [_ Hr]%Forall_cons. specialize (IH2 Hr). case_if; zlia.
Qed.

(** A response is never longer than ReadResponseSize, and as long when
    every item succeeded: the planner's budget is the real size. *)
Theorem ReadResponse_size payload reference expected results :
  bytes payload → Forall valid_item expected →
  ParseReadResponse payload reference expected = Ok (results, 0) →
  zlen payload ≤ ReadResponseSize expected ∧
  (Forall (λ r, ReturnCode r = 0xff) results → zlen payload = ReadResponseSize expected).
Proof.
  intros Hb Hv (_ & _ & p & d & g & -> & _ & _ & _ & -> & [[? _]|(_ & -> & Hd)])%ParseReadResponse_spec;
    [done|..|done|done]. 
  apply read_data_size in Hd as [? ?]; [|done]. rewrite zlen_ack_pdu.
  unfold ReadResponseSize, ackHeaderSize.
  change (zlen [functionReadVar; zlen expected]) with 2.
  split; [lia|]. intros Hr. specialize (H0 Hr). lia.
Qed.

(** ** Properties *)

(** A one-element read of two DB bytes, its response, and a write. *)
Definition sample_item : Item := mkItem 0x02 0x04 2 1 0x84 80 2 true.
Definition sample_read_response : list Z :=
  ack_pdu 7 [functionReadVar; 1] [0xff; 0x04; 0; 16; 0xab; 0xcd] 0.
Definition sample_write_response : list Z := ack_pdu 7 [functionWriteVar; 2] [0xff; 0x0a] 0.

Lemma sample_valid : valid_item sample_item.
Proof. constructor; concrete. Qed.

(** C30. A ReadVar response is accepted with given results and global code
    exactly if the payload is the acknowledgement of that reference with those
    contents, byte for byte; hostile payloads make no parser panic. *)
Theorem ParseReadResponse_exact payload reference expected results global :
  bytes payload → Forall valid_item expected →
  (ParseReadResponse payload reference expected = Ok (results, global) ↔
   ack_response reference payload (read_content expected results global)) ∧
  returns (ParseReadResponse payload reference expected).
Proof.
  intros Hb Hv. split; [by apply ParseReadResponse_spec|].
  by apply (parsers_never_panic payload reference expected 0 Hb Hv).
Qed.
Lemma ParseReadResponse_exact_witness :
  bytes sample_read_response ∧
  ack_response 7 sample_read_response
    (read_content [sample_item] [mkItemResult 0xff [0xab; 0xcd]] 0).
Proof.
  split; [concrete|].
  apply (ParseReadResponse_exact sample_read_response 7 [sample_item]);
    [concrete|by repeat constructor|reflexivity].
Defined.

(** C31. A WriteVar response is accepted exactly if it acknowledges that
    reference with one return code per item, or with a global error; no payload
    makes the parser panic. *)
Theorem ParseWriteResponse_exact payload reference itemCount codes global :
  bytes payload → 1 ≤ itemCount ≤ 255 →
  (ParseWriteResponse payload reference itemCount = Ok (codes, global) ↔
   ack_response reference payload (write_content itemCount codes global)) ∧
  returns (ParseWriteResponse payload reference itemCount).
Proof.
  intros Hb Hv. split; [by apply ParseWriteResponse_spec|].
  by apply (parsers_never_panic payload reference [] itemCount Hb).
Qed.
Lemma ParseWriteResponse_exact_witness :
  ack_response 7 sample_write_response (write_content 2 [0xff; 0x0a] 0).
Proof.
  apply (ParseWriteResponse_exact sample_write_response 7 2); [concrete|lia|reflexivity].
Defined.

(** C31. A setup response is accepted with given limits exactly if it is the
    acknowledgement with those limits, or a global error without any. *)
Theorem ParseSetupResponse_exact payload reference r :
  bytes payload →
  (ParseSetupResponse payload reference = Ok r ↔
   ack_response reference payload (setup_content r)) ∧
  returns (ParseSetupResponse payload reference).
Proof.
  intros Hb. split; [by apply ParseSetupResponse_spec|].
  by apply (parsers_never_panic payload reference [] 0 Hb).
Qed.
Lemma ParseSetupResponse_exact_witness :
  ack_response 1 (ack_pdu 1 [0xf0; 0; 0; 1; 0; 1; 1; 224] [] 0)
    (setup_content (mkSetupResult 1 1 480 0)).
Proof.
  apply (ParseSetupResponse_exact (ack_pdu 1 [0xf0; 0; 0; 1; 0; 1; 1; 224] [] 0) 1);
    [concrete|reflexivity].
Defined.

(** C32. A ReadVar request can be built exactly for a non-zero reference and 1
    to 255 valid descriptors, and then it is the job header followed by every
    descriptor, of the size the planner counts on. *)
Theorem BuildReadRequest_correct reference items :
  is_u16 reference → Forall typed_item items →
  match BuildReadRequest reference items with
  | Ok pdu =>
      sendable reference items ∧
      pdu = job_pdu reference (variable_block functionReadVar items) [] ∧
      zlen pdu = ReadRequestSize (zlen items)
  | Err _ => ¬ sendable reference items
  | Panic => False
  end.
Proof. apply BuildReadRequest_spec. Qed.
Lemma BuildReadRequest_correct_witness :
  is_u16 7 ∧ match BuildReadRequest 7 [sample_item] with
  | Ok pdu => sendable 7 [sample_item] ∧ zlen pdu = ReadRequestSize 1
  | _ => False
  end.
Proof.
  split; [concrete|].
  destruct (BuildReadRequest_correct 7 [sample_item]) as (H & _ & Hl);
    [concrete|by repeat constructor; apply sample_valid|].
  split; [exact H|exact Hl].
Defined.

(** C33. A WriteVar request can be built exactly for valid descriptors whose
    data has the announced length and fits a PDU; then it is the job header, the
    descriptors and the padded data items, of the size the planner counts on. *)
Theorem BuildWriteRequest_correct reference items :
  is_u16 reference → Forall typed_item (WItem <$> items) →
  match BuildWriteRequest reference items with
  | Ok pdu =>
      write_sendable reference items ∧
      pdu = job_pdu reference (variable_block functionWriteVar (WItem <$> items))
              (write_data 0 (zlen items) items) ∧
      zlen pdu = WriteRequestSize items
  | Err _ => ¬ write_sendable reference items
  | Panic => False
  end.
Proof. apply BuildWriteRequest_spec. Qed.
Lemma BuildWriteRequest_correct_witness :
  is_u16 7 ∧ match BuildWriteRequest 7 [mkWriteItem sample_item [1; 2]] with
  | Ok pdu => zlen pdu = WriteRequestSize [mkWriteItem sample_item [1; 2]]
  | _ => False
  end.
Proof.
  split; [concrete|].
  destruct (BuildWriteRequest_correct 7 [mkWriteItem sample_item [1; 2]]) as (_ & _ & Hl);
    [concrete|by repeat constructor; apply sample_valid|exact Hl].
Defined.

Lemma ReadResponse_size_witness :
  zlen sample_read_response ≤ ReadResponseSize [sample_item].
Proof.
  apply (ReadResponse_size sample_read_response 7 [sample_item] [mkItemResult 0xff [0xab; 0xcd]]);
    [concrete|by repeat constructor; apply sample_valid|reflexivity].
Defined.
