(* ===== verification/IsoTCP.v ===== *)
(** * IsoTCP: bounded TPKT and COTP framing (internal/isotcp/framing.go)

    The byte stream is a list of [arrival]s: what successive [Read] calls on
    the connection can return, cut wherever the network cuts it.  A writer is
    the list of what successive [Write] calls answer. *)

From S2P Require Import Errors.

Definition TPKTHeaderSize : Z := 4.
Definition DataTPDUHeaderSize : Z := 3.
Definition DataHeaderSize : Z := TPKTHeaderSize + DataTPDUHeaderSize.
Definition MinTPDUSize : Z := 128.
Definition MaxTPDUSize : Z := 8192.
Definition DefaultTPDUSize : Z := 1024.
Definition maxTPKTLength : Z := 65535.

(** ** Readers *)

(** One answer of the reader: some bytes (possibly none), or an error. An
    exhausted reader answers [io.EOF]. *)
Inductive arrival :=
| Chunk (bs : list Z)
| Fault (e : error).

(** [io.ReadFull(reader, buf)] with [len(buf) = want] and [got] already read:
    the bytes read, the error, and what the reader still has to deliver. *)
Fixpoint ReadFull (reader : list arrival) (want : Z) (got : list Z)
    : (list Z * option error) * list arrival :=
  if want <=? 0 then ((got, None), reader)
  else
    match reader with
    | [] => ((got, Some (EVar (if zlen got =? 0 then IoEOF else IoUnexpectedEOF))), [])
    | Fault e :: reader =>
        ((got, Some (if same_error e (EVar IoEOF) && negb (zlen got =? 0)
                     then EVar IoUnexpectedEOF else e)), reader)
    | Chunk bs :: reader =>
        if zlen bs <=? want then ReadFull reader (want - zlen bs) (got ++ bs)
        else ((got ++ take (Z.to_nat want) bs, None), Chunk (drop (Z.to_nat want) bs) :: reader)
    end.

Definition ReadFrame (reader : list arrival) (maxFrameBytes : Z)
    : result (list Z) * list arrival :=
  if (maxFrameBytes <? DataHeaderSize) || (maxFrameBytes >? maxTPKTLength)
  then (text ("isotcp: invalid frame limit " +:+ dec maxFrameBytes), reader)
  else
    match ReadFull reader TPKTHeaderSize [] with
    | (_, Some err, reader) => (Err (EWrap "isotcp: read TPKT header: " err), reader)
    | (header, None, reader) =>
        let parsed : result Z :=
          b0 ← index header 0; b1 ← index header 1;
          if negb (b0 =? 0x03) || negb (b1 =? 0x00)
          then text "isotcp: invalid TPKT version or reserved byte"
          else
            length ← get_uint16 header 2;
            if (length <? DataHeaderSize) || (length >? maxFrameBytes)
            then text ("isotcp: TPKT length " +:+ dec length +:+ " outside 7.."
                       +:+ dec maxFrameBytes)
            else Ok length in
        match parsed with
        | Ok length =>
            let frame := copy_at (make length) 0 header in
            match ReadFull reader (length - TPKTHeaderSize) [] with
            | (_, Some err, reader) => (Err (EWrap "isotcp: read TPKT body: " err), reader)
            | (body, None, reader) => (Ok (copy_at frame TPKTHeaderSize body), reader)
            end
        | Err e => (Err e, reader)
        | Panic => (Panic, reader)
        end
    end.

(** ** Writers *)

(** [WriteFull] against the answers [(n, err)] of successive [Write] calls;
    with no answer left the writer accepts what it is given.  Returns the
    bytes the writer was handed and accepted, the count and the error. *)
Fixpoint WriteFullFrom (answers : list (Z * option error)) (frame : list Z) (written : Z)
    (sent : list Z) : list Z * (Z * option error) :=
  if negb (written <? zlen frame) then (sent, (written, None))
  else
    match answers with
    | [] => (sent ++ drop (Z.to_nat written) frame, (zlen frame, None))
    | (n, err) :: answers =>
        if (n <? 0) || (n >? zlen frame - written)
        then (sent, (written, Some (EText ("isotcp: invalid write count " +:+ dec n))))
        else
          let sent := sent ++ sub frame written (written + n) in
          let written := written + n in
          match err with
          | Some e => (sent, (written, Some (EWrap "isotcp: write frame: " e)))
          | None =>
              if n =? 0 then (sent, (written, Some (EVar IoNoProgress)))
              else WriteFullFrom answers frame written sent
          end
    end.

Definition WriteFull (answers : list (Z * option error)) (frame : list Z)
    : list Z * (Z * option error) :=
  WriteFullFrom answers frame 0 [].

(** ** TPDU sizes *)

(** [for size := DefaultTPDUSize; size <= MaxTPDUSize; size *= 2]; the fuel is
    enough for every start above zero, see [TPDUSizeForS7PDU_spec]. *)
Fixpoint tpduSizeLoop (fuel : nat) (size required : Z) : result Z :=
  match fuel with
  | O => Panic
  | S fuel =>
      if size <=? MaxTPDUSize then
        if required <=? size then Ok size else tpduSizeLoop fuel (size * 2) required
      else text "isotcp: S7 PDU does not fit the maximum TPDU"
  end.

Definition TPDUSizeForS7PDU (pduBytes : Z) : result Z :=
  if (pduBytes <? 1) || (pduBytes >? MaxTPDUSize - DataTPDUHeaderSize)
  then text ("isotcp: S7 PDU size must be between 1 and "
             +:+ dec (MaxTPDUSize - DataTPDUHeaderSize))
  else tpduSizeLoop 16 DefaultTPDUSize (pduBytes + DataTPDUHeaderSize).

(** [for value := size; value > 1; value >>= 1 { code++ }] *)
Fixpoint tpduCodeLoop (fuel : nat) (value code : Z) : Z :=
  match fuel with
  | O => code
  | S fuel => if value >? 1 then tpduCodeLoop fuel (Z.shiftr value 1) (u8 (code + 1)) else code
  end.

Definition tpduSizeCode (size : Z) : result Z :=
  if (size <? MinTPDUSize) || (size >? MaxTPDUSize) || negb (Z.land size (size - 1) =? 0)
  then text "isotcp: TPDU size must be a power of two between 128 and 8192"
  else Ok (tpduCodeLoop 64 size 0).

Definition tpduSizeFromCode (code : Z) : result Z :=
  if (code <? 7) || (code >? 13)
  then text ("isotcp: unsupported TPDU-size code 0x" +:+ hex02 code)
  else Ok (Z.shiftl 1 code).

(** ** COTP connection request and confirm *)

Definition BuildConnectionRequest (localTSAP remoteTSAP tpduSize : Z) : result (list Z) :=
  tpduCode ← tpduSizeCode tpduSize;
  let frame :=
    [0x03; 0x00; 0x00; 0x16;
     0x11; 0xe0; 0x00; 0x00; 0x00; 0x01; 0x00;
     0xc0; 0x01; 0x00;
     0xc1; 0x02; 0x00; 0x00;
     0xc2; 0x02; 0x00; 0x00] in
  f ← store frame 13 tpduCode;
  f ← put_uint16 f 16 localTSAP;
  put_uint16 f 20 remoteTSAP.

Record ConnectionConfirm := mkConnectionConfirm { TPDUSize : Z }.

(** The variables of the parameter loop of ParseConnectionConfirm. *)
Record ccState := mkCC {
  ccTPDU : Z;
  ccSource : option Z;
  ccDestination : option Z;
}.

(** One parameter, given its code and value. *)
Definition ccParameter (st : ccState) (parameter : Z) (value : list Z) : result ccState :=
  if parameter =? 0xc0 then
    if negb (zlen value =? 1) then text "isotcp: invalid TPDU-size parameter"
    else
      v ← index value 0;
      peerTPDU ← tpduSizeFromCode v;
      Ok (mkCC (if peerTPDU <? ccTPDU st then peerTPDU else ccTPDU st)
               (ccSource st) (ccDestination st))
  else if parameter =? 0xc1 then
    if negb (zlen value =? 2) then text "isotcp: invalid source TSAP parameter"
    else got ← get_uint16 value 0; Ok (mkCC (ccTPDU st) (Some got) (ccDestination st))
  else if parameter =? 0xc2 then
    if negb (zlen value =? 2) then text "isotcp: invalid destination TSAP parameter"
    else got ← get_uint16 value 0; Ok (mkCC (ccTPDU st) (ccSource st) (Some got))
  else Ok st.

(** [for offset := 11; offset < len(frame);]: every turn consumes at least
    two bytes, so the length of the frame is enough fuel. *)
Fixpoint ccLoop (fuel : nat) (frame : list Z) (offset : Z) (st : ccState) : result ccState :=
  if negb (offset <? zlen frame) then Ok st
  else
    match fuel with
    | O => Panic
    | S fuel =>
        if zlen frame - offset <? 2 then text "isotcp: truncated COTP parameter"
        else
          parameter ← index frame offset;
          length ← index frame (offset + 1);
          let offset := offset + 2 in
          if length >? zlen frame - offset
          then text "isotcp: truncated COTP parameter value"
          else
            value ← slice frame offset (offset + length);
            st ← ccParameter st parameter value;
            ccLoop fuel frame (offset + length) st
    end.

(** The TSAP rule at the end of ParseConnectionConfirm. *)
Definition ccTSAPs (st : ccState) (localTSAP remoteTSAP : Z) : result unit :=
  match ccSource st, ccDestination st with
  | Some source, Some destination =>
      let standardOrder := (source =? remoteTSAP) && (destination =? localTSAP) in
      let echoOrder := (source =? localTSAP) && (destination =? remoteTSAP) in
      if negb standardOrder && negb echoOrder then text "isotcp: TSAP pair mismatch" else Ok tt
  | Some source, None =>
      if negb (source =? remoteTSAP) then text "isotcp: source TSAP mismatch" else Ok tt
  | None, Some destination =>
      if negb (destination =? localTSAP) then text "isotcp: destination TSAP mismatch" else Ok tt
  | None, None => Ok tt
  end.

Definition ParseConnectionConfirm (frame : list Z) (localTSAP remoteTSAP offeredTPDU : Z)
    : result ConnectionConfirm :=
  _ ← tpduSizeCode offeredTPDU;
  if zlen frame <? 11 then text "isotcp: short COTP connection confirm"
  else
    b0 ← index frame 0; b1 ← index frame 1; length ← get_uint16 frame 2;
    if negb (b0 =? 0x03) || negb (b1 =? 0) || negb (length =? zlen frame)
    then text "isotcp: invalid connection-confirm TPKT header"
    else
      headerLength ← index frame 4;
      if (headerLength <? 6) || negb (5 + headerLength =? zlen frame)
      then text "isotcp: invalid COTP connection-confirm length"
      else
        b5 ← index frame 5;
        if negb (b5 =? 0xd0) then text ("isotcp: expected COTP CC, got 0x" +:+ hex02 b5)
        else
          destination ← get_uint16 frame 6;
          if negb (destination =? 1)
          then text "isotcp: COTP destination reference mismatch"
          else
            b10 ← index frame 10;
            if negb (Z.land b10 0xf0 =? 0) then text "isotcp: unsupported COTP class"
            else
              st ← ccLoop (Datatypes.length frame) frame 11 (mkCC offeredTPDU None None);
              _ ← ccTSAPs st localTSAP remoteTSAP;
              Ok (mkConnectionConfirm (ccTPDU st)).

(** ** COTP data TPDUs *)

Definition WrapData (payload : list Z) : result (list Z) :=
  if zlen payload >? maxTPKTLength - DataHeaderSize
  then text "isotcp: payload exceeds TPKT length field"
  else
    let length := DataHeaderSize + zlen payload in
    f ← store (make length) 0 0x03;
    f ← put_uint16 f 2 (u16 length);
    f ← store f 4 0x02;
    f ← store f 5 0xf0;
    f ← store f 6 0x80;
    Ok (copy_at f DataHeaderSize payload).

Definition UnwrapData (frame : list Z) : result (list Z) :=
  if zlen frame <? DataHeaderSize then text "isotcp: short COTP data frame"
  else
    b0 ← index frame 0; b1 ← index frame 1;
    if negb (b0 =? 0x03) || negb (b1 =? 0) then text "isotcp: invalid TPKT header"
    else
      length ← get_uint16 frame 2;
      if negb (length =? zlen frame) then text "isotcp: TPKT frame length mismatch"
      else
        b4 ← index frame 4; b5 ← index frame 5;
        if negb (b4 =? 0x02) || negb (b5 =? 0xf0) then text "isotcp: invalid COTP DT header"
        else
          b6 ← index frame 6;
          if Z.land b6 0x80 =? 0 then Err (EVar ErrCOTPFragmented)
          else slice frame DataHeaderSize (zlen frame).

(** The golden exchange of framing_test.go. *)
Example connection_request_golden :
  BuildConnectionRequest 0x0100 0x0203 1024 =
  Ok [3; 0; 0; 22; 17; 224; 0; 0; 0; 1; 0; 192; 1; 10; 193; 2; 1; 0; 194; 2; 2; 3].
Proof. reflexivity. Qed.
Example connection_confirm_echo_order :
  ParseConnectionConfirm
    [3; 0; 0; 22; 17; 208; 0; 1; 0; 1; 0; 192; 1; 10; 193; 2; 1; 0; 194; 2; 1; 1]
    0x0100 0x0101 1024 = Ok (mkConnectionConfirm 1024).
Proof. reflexivity. Qed.

Ltac iso_lia :=
  unfold DataHeaderSize, TPKTHeaderSize, DataTPDUHeaderSize, maxTPKTLength, MinTPDUSize,
    MaxTPDUSize, DefaultTPDUSize in *; bool_lia.

(** ** Reading frames *)

(** The bytes a reader delivers before its first error. *)
Fixpoint pending (reader : list arrival) : list Z :=
  match reader with
  | Chunk bs :: reader => bs ++ pending reader
  | _ => []
  end.

(** ReadFull depends on the delivered bytes only, not on how they are cut. *)
Lemma ReadFull_pending reader : ∀ want got, 0 ≤ want →
  if decide (want ≤ zlen (pending reader)) then
    ∃ reader', ReadFull reader want got = ((got ++ take (Z.to_nat want) (pending reader), None), reader')
      ∧ pending reader' = drop (Z.to_nat want) (pending reader)
  else ∃ e reader', ReadFull reader want got = ((got ++ pending reader, Some e), reader').
Proof.
  induction reader as [|[bs|e] reader IH]; intros want got Hw; cbn [ReadFull pending];
    destruct (want <=? 0) eqn:Hz.
  1,3,5: replace want with 0 by lia; rewrite decide_True by (zlen_pos; zlia);
    eexists; split; [by rewrite take_0, app_nil_r|done].
  - rewrite decide_False by zlia. rewrite app_nil_r. eauto.
  - zlen_pos. destruct (zlen bs <=? want) eqn:Hb.
    + specialize (IH (want - zlen bs) (got ++ bs) ltac:(lia)). case_decide.
      * rewrite decide_True by zlia. destruct IH as (r' & -> & Hr).
        exists r'. split.
        { rewrite <-app_assoc. rewrite (take_app_ge bs) by (unfold zlen in *; lia).
          do 5 f_equal. unfold zlen in *; lia. }
        rewrite Hr, drop_app_ge by (unfold zlen in *; lia). f_equal. unfold zlen in *; lia.
      * rewrite decide_False by zlia. destruct IH as (e & r' & ->). rewrite <-app_assoc. eauto.
    + rewrite decide_True by zlia. eexists. split.
      { by rewrite take_app_le by (unfold zlen in *; lia). }
      cbn [pending]. by rewrite drop_app_le by (unfold zlen in *; lia).
  - rewrite decide_False by zlia. rewrite app_nil_r. eauto.
Qed.

(** [tpkt maxFrameBytes frame]: one complete TPKT frame within the limit. *)
Definition tpkt (maxFrameBytes : Z) (frame : list Z) : Prop :=
  DataHeaderSize ≤ zlen frame ≤ maxFrameBytes ∧
  ∃ body, frame = [0x03; 0x00] ++ be_split 2 (zlen frame) ++ body.

Lemma ReadFrame_spec reader maxFrameBytes :
  DataHeaderSize ≤ maxFrameBytes ≤ maxTPKTLength → bytes (pending reader) →
  match ReadFrame reader maxFrameBytes with
  | (Ok frame, reader') =>
      tpkt maxFrameBytes frame ∧ pending reader = frame ++ pending reader'
  | (Err _, _) =>
      ¬ ∃ frame rest, tpkt maxFrameBytes frame ∧ pending reader = frame ++ rest
  | (Panic, _) => False
  end.
Proof.
  unfold DataHeaderSize, maxTPKTLength, TPKTHeaderSize, DataTPDUHeaderSize.
  intros Hm Hb. unfold ReadFrame, DataHeaderSize, maxTPKTLength, TPKTHeaderSize, DataTPDUHeaderSize.
  case_if; [lia|].
  pose proof (ReadFull_pending reader 4 [] ltac:(lia)) as H. case_decide as Hlen.
  2: { destruct H as (e & r' & ->). intros (frame & rest & [Hf _] & Hp).
       rewrite Hp in Hlen. unfold DataHeaderSize, TPKTHeaderSize, DataTPDUHeaderSize in *. zlia. }
  destruct H as (r1 & -> & Hr1). revert Hr1. generalize dependent (pending reader).
  intros s Hb Hlen Hr1. explode s 4%nat. cbn [app].
  change (take (Z.to_nat 4) (b :: b0 :: b1 :: b2 :: s)) with [b; b0; b1; b2].
  change (drop (Z.to_nat 4) (b :: b0 :: b1 :: b2 :: s)) with s in Hr1. 
  rewrite (index_Ok _ 0), (index_Ok _ 1), get_uint16_Ok by zlia. eval_at.
  cbn [mbind outcome_bind]. rewrite !Forall_cons in Hb. destruct_and! Hb.
  destruct (negb (b =? 3) || negb (b0 =? 0)) eqn:H30.
  { intros (frame & rest & (_ & body & ->) & Hp). cbn [app] in Hp. by simplify_eq. }
  be_ranges. destruct ((be_combine [b1; b2] <? 4 + 3) || _) eqn:Hl.
  { intros (frame & rest & (Hf & body & Heq) & Hp). rewrite Heq in Hp. cbn [app be_split] in Hp.
    injection Hp as -> -> -> -> Hp. unfold DataHeaderSize, TPKTHeaderSize, DataTPDUHeaderSize in *.
    rewrite be_combine_split2 in Hl by bool_lia. lia. }
  pose proof (ReadFull_pending r1 (be_combine [b1; b2] - 4) [] ltac:(bool_lia)) as HB.
  rewrite Hr1 in HB. case_decide as Hn.
  - destruct HB as (r2 & -> & Hr2). cbn [app].
    assert (zlen (take (Z.to_nat (be_combine [b1; b2] - 4)) s) = be_combine [b1; b2] - 4) as Ht
      by (rewrite zlen_take; bool_lia).
    replace (make (be_combine [b1; b2])) with (make (4 + (be_combine [b1; b2] - 4)))
      by (f_equal; lia).
    rewrite make_app by lia. rewrite <-(app_nil_l (make 4 ++ _)).
    rewrite (copy_at_app [] (make 4)) by done. rewrite app_nil_l.
    rewrite <-(app_nil_r (make (be_combine [b1; b2] - 4))).
    rewrite copy_at_app by (rewrite ?Ht, ?zlen_make; [done|lia..]).
    rewrite app_nil_r, Hr2. replace b with 3 by lia. replace b0 with 0 by lia.
    split; [|cbn [app]; by rewrite take_drop]. unfold tpkt.
    rewrite zlen_app, Ht. change (zlen [3; 0; b1; b2]) with 4. split; [iso_lia|].
    eexists. cbn [app]. replace (4 + (be_combine [b1; b2] - 4)) with (be_combine [b1; b2]) by lia.
    rewrite be_split_combine2 by done. done.
  - destruct HB as (e & r' & ->).
    intros (frame & rest & (Hf & body & Heq) & Hp). rewrite Heq in Hp. cbn [app be_split] in Hp.
    injection Hp as -> -> -> -> Hp.
    rewrite be_combine_split2 in Hn by iso_lia.
    apply Hn. rewrite Hp. rewrite Heq at 1. zlia.
Qed.

(** An arrival carries bytes (Go's [[]byte] by construction). *)
Definition arrival_bytes (a : arrival) : Prop :=
  match a with Chunk bs => bytes bs | Fault _ => True end.

Lemma pending_bytes reader : Forall arrival_bytes reader → bytes (pending reader).
Proof.
  induction 1 as [|[bs|e] reader Ha _ IH]; cbn [pending]; [constructor| |constructor].
  by apply Forall_app.
Qed.

Lemma ReadFull_arrivals reader : ∀ want got, Forall arrival_bytes reader →
  Forall arrival_bytes (ReadFull reader want got).2.
Proof.
  induction reader as [|[bs|e] reader IH]; intros want got Hr; cbn [ReadFull];
    case_if; try done; apply Forall_cons in Hr as [Ha Hr]; try done.
  case_if; [by apply IH|]. cbn. constructor; [|done]. by apply Forall_drop.
Qed.

Lemma ReadFrame_arrivals reader maxFrameBytes : Forall arrival_bytes reader →
  Forall arrival_bytes (ReadFrame reader maxFrameBytes).2.
Proof.
  intros Hr. unfold ReadFrame. case_if; [done|].
  pose proof (ReadFull_arrivals reader TPKTHeaderSize [] Hr) as H1.
  destruct (ReadFull reader TPKTHeaderSize []) as [[header [err|]] r1]; [done|]. cbn [snd] in H1.
  match goal with |- context [match ?p with Ok _ => _ | Err _ => _ | Panic => _ end] => destruct p as [len| |] end;
    [|done..].
  pose proof (ReadFull_arrivals r1 (len - TPKTHeaderSize) [] H1) as H2.
  by destruct (ReadFull r1 _ []) as [[body [err|]] r2].
Qed.

(** Reading a frame from a well-typed stream: a frame of bytes within the
    limit or an error, and a well-typed rest. *)
Lemma ReadFrame_typed reader maxFrameBytes :
  DataHeaderSize ≤ maxFrameBytes ≤ maxTPKTLength → Forall arrival_bytes reader →
  match ReadFrame reader maxFrameBytes with
  | (Ok frame, reader') =>
      bytes frame ∧ DataHeaderSize ≤ zlen frame ≤ maxFrameBytes ∧ Forall arrival_bytes reader'
  | (Err _, reader') => Forall arrival_bytes reader'
  | (Panic, _) => False
  end.
Proof.
  intros Hm Hr. pose proof (ReadFrame_arrivals reader maxFrameBytes Hr) as Hr'.
  pose proof (pending_bytes _ Hr) as Hb.
  pose proof (ReadFrame_spec reader maxFrameBytes Hm Hb) as Hc.
  destruct (ReadFrame reader maxFrameBytes) as [[frame|e|] reader']; [|done..].
  destruct Hc as [[Hl _] Hp]. split; [|by split]. rewrite Hp in Hb. by apply Forall_app in Hb as [? _].
Qed.

(** ** Writing frames *)

Lemma WriteFullFrom_spec answers : ∀ frame written sent,
  0 ≤ written ≤ zlen frame → sent = take (Z.to_nat written) frame →
  let '(sent', (n, err)) := WriteFullFrom answers frame written sent in
  written ≤ n ≤ zlen frame ∧ sent' = take (Z.to_nat n) frame ∧ (err = None → n = zlen frame).
Proof.
  induction answers as [|[n err] answers IH]; intros frame written sent Hw ->;
    cbn [WriteFullFrom]; case_if.
  1,3: split_and!; lia || done.
  - rewrite take_drop. split_and!; [lia..| |done]. by rewrite take_ge by (unfold zlen; lia).
  - case_if; [split_and!; [lia..|done|done]|].
    assert (take (Z.to_nat written) frame ++ sub frame written (written + n)
            = take (Z.to_nat (written + n)) frame) as ->.
    { rewrite <-!sub_0. apply sub_append; lia. }
    destruct err; [split_and!; done || lia|]. case_if; [split_and!; done || lia|].
    specialize (IH frame (written + n) _ ltac:(lia) eq_refl).
    destruct (WriteFullFrom _ _ _ _) as [sent' [n' err']]. destruct IH as (? & ? & ?).
    split_and!; [lia..|done|done].
Qed.

(** The count WriteFull reports is the number of leading bytes of the frame
    the writer took, whatever the writer answers, and no error means all. *)
Lemma WriteFull_spec answers frame :
  let '(sent, (n, err)) := WriteFull answers frame in
  0 ≤ n ≤ zlen frame ∧ sent = take (Z.to_nat n) frame ∧ (err = None → sent = frame).
Proof.
  unfold WriteFull. zlen_pos.
  pose proof (WriteFullFrom_spec answers frame 0 [] ltac:(lia) ltac:(done)) as H0.
  destruct (WriteFullFrom _ _ _ _) as [sent [n err]]. destruct H0 as (? & -> & He).
  split_and!; [lia..|done|]. intros ->%He. apply take_ge. unfold zlen. lia.
Qed.

(** ** TPDU sizes *)

Lemma tpduSizeLoop_steps required :
  tpduSizeLoop 16 DefaultTPDUSize required =
  if required <=? 1024 then Ok 1024 else if required <=? 2048 then Ok 2048
  else if required <=? 4096 then Ok 4096 else if required <=? 8192 then Ok 8192
  else text "isotcp: S7 PDU does not fit the maximum TPDU".
Proof. reflexivity. Qed.

(** The smallest supported TPDU that holds the S7 PDU and the DT header. *)
Lemma TPDUSizeForS7PDU_spec pduBytes :
  match TPDUSizeForS7PDU pduBytes with
  | Ok size =>
      1 ≤ pduBytes ∧ size ∈ [1024; 2048; 4096; 8192] ∧
      pduBytes + DataTPDUHeaderSize ≤ size ∧
      ∀ s, s ∈ [1024; 2048; 4096; 8192] → pduBytes + DataTPDUHeaderSize ≤ s → size ≤ s
  | Err _ => pduBytes < 1 ∨ 8192 < pduBytes + DataTPDUHeaderSize
  | Panic => False
  end.
Proof.
  unfold TPDUSizeForS7PDU. case_if; [cbn; iso_lia|].
  set (required := pduBytes + DataTPDUHeaderSize).
  rewrite tpduSizeLoop_steps.
  assert (4 ≤ required ≤ 8192) by (subst required; iso_lia).
  assert (∀ s, s ∈ [1024; 2048; 4096; 8192] ↔ s = 1024 ∨ s = 2048 ∨ s = 4096 ∨ s = 8192) as Hs.
  { intros s. rewrite !elem_of_cons, elem_of_nil. tauto. }
  repeat (case_if; [rewrite Hs; split_and!; [iso_lia|lia|lia|]; intros s; rewrite Hs; lia|]).
  lia.
Qed.

(** Size and wire code of a TPDU are inverse to each other. *)
Definition tpdu_sizes : list Z := [128; 256; 512; 1024; 2048; 4096; 8192].

Lemma power_of_two_test size : 128 ≤ size ≤ 8192 →
  Z.land size (size - 1) = 0 → size ∈ tpdu_sizes.
Proof.
  intros Hs Hl.
  assert (forallb (λ k, negb (Z.land k (k - 1) =? 0) || existsb (Z.eqb k) tpdu_sizes)
            (seqZ 128 8065) = true) as Hall by (vm_compute; reflexivity).
  rewrite forallb_forall in Hall.
  specialize (Hall size). rewrite <-list_elem_of_In, Hl in Hall.
  specialize (Hall ltac:(apply elem_of_seqZ; lia)). cbn [negb Z.eqb orb] in Hall.
  apply existsb_exists in Hall as (x & Hx & ->%Z.eqb_eq). by apply list_elem_of_In.
Qed.

Lemma tpduSizeCode_Ok size code :
  tpduSizeCode size = Ok code → size ∈ tpdu_sizes ∧ tpduSizeFromCode code = Ok size.
Proof.
  unfold tpduSizeCode. intros H. inv_if H.
  assert (size ∈ tpdu_sizes) as Hs by (apply power_of_two_test; iso_lia).
  split; [done|]. unfold tpdu_sizes in Hs. rewrite !elem_of_cons, elem_of_nil in Hs.
  clear -H Hs. destruct_or! Hs; subst; vm_compute in H; injection H as <-; reflexivity.
Qed.

Lemma tpdu_code_spec size code :
  tpduSizeCode size = Ok code ↔ tpduSizeFromCode code = Ok size.
Proof.
  split; [by intros [_ ?]%tpduSizeCode_Ok|].
  unfold tpduSizeFromCode. intros H. inv_if H. injection H as <-.
  assert (code = 7 ∨ code = 8 ∨ code = 9 ∨ code = 10 ∨ code = 11 ∨ code = 12 ∨ code = 13)
    as Hc by lia. destruct_or! Hc; subst; reflexivity.
Qed.

(** ** Data TPDUs *)

(** The frame of an S7 PDU; [flags] is the byte with the EOT bit. *)
Definition data_frame (flags : Z) (payload : list Z) : list Z :=
  [0x03; 0x00] ++ be_split 2 (DataHeaderSize + zlen payload) ++ [0x02; 0xf0; flags] ++ payload.

Lemma WrapData_spec payload :
  WrapData payload =
  if decide (DataHeaderSize + zlen payload ≤ maxTPKTLength) then Ok (data_frame 0x80 payload)
  else text "isotcp: payload exceeds TPKT length field".
Proof.
  unfold WrapData. zlen_pos. case_decide; case_if; [iso_lia| |done|iso_lia].
  rewrite make_app by iso_lia.
  rewrite <-(app_nil_l (make _ ++ _)). change (make DataHeaderSize) with [0;0;0;0;0;0;0].
  unfold put_uint16. repeat store_step. rewrite app_nil_l.
  rewrite <-(app_nil_r (make (zlen payload))), copy_at_app by (done || zlia).
  rewrite u16_id by iso_lia. unfold data_frame. by rewrite app_nil_r.
Qed.

Lemma UnwrapData_spec frame payload :
  bytes frame →
  UnwrapData frame = Ok payload ↔
  ∃ flags, Z.land flags 0x80 ≠ 0 ∧ frame = data_frame flags payload ∧ zlen frame ≤ maxTPKTLength.
Proof.
  intros Hb. unfold UnwrapData. split.
  - intros H. destruct (zlen frame <? DataHeaderSize) eqn:Hl; [done|].
    unfold DataHeaderSize, TPKTHeaderSize, DataTPDUHeaderSize in *.
    explode frame 7%nat. rewrite !Forall_cons in Hb. destruct_and! Hb. zlen_pos.
    rewrite (index_Ok _ 0), (index_Ok _ 1), (index_Ok _ 4), (index_Ok _ 5), (index_Ok _ 6),
      get_uint16_Ok, slice_Ok in H by zlia.
    revert H. eval_at. cbn [mbind outcome_bind]. intros H. inv_if H.
    injection H as <-. be_ranges. rewrite sub_full by lia. cbn [Z.to_nat].
    exists b5. split; [lia|]. split; [|unfold maxTPKTLength, is_u16 in *; zlia]. unfold data_frame.
    change (drop _ _) with frame.
    replace (DataHeaderSize + zlen frame) with (be_combine [b1; b2])
      by (unfold DataHeaderSize, TPKTHeaderSize, DataTPDUHeaderSize; zlia).
    rewrite be_split_combine2 by done. cbn [app]. repeat f_equal; lia.
  - intros (flags & Hf & -> & Hl). unfold data_frame in *. cbn [be_split app] in *.
    zlen_pos. unfold DataHeaderSize, TPKTHeaderSize, DataTPDUHeaderSize, maxTPKTLength in *.
    rewrite (index_Ok _ 0), (index_Ok _ 1), (index_Ok _ 4), (index_Ok _ 5), (index_Ok _ 6),
      get_uint16_Ok, slice_Ok by zlia.
    eval_at. cbn [mbind outcome_bind].
    rewrite be_combine_split2 by (autorewrite with zlen in *; bool_lia).
    case_if; [zlia|]. cbn [negb orb Z.eqb Pos.eqb]. case_if; [zlia|]. case_if; [lia|].
    by rewrite sub_full by lia.
Qed.

(** ** Connection confirm *)

(** The parameter list of a CC: code, length and value of each parameter. *)
Definition cc_wire (ps : list (Z * list Z)) : list Z :=
  concat ((λ p, [p.1; zlen p.2] ++ p.2) <$> ps).

Fixpoint cc_fold (st : ccState) (ps : list (Z * list Z)) : result ccState :=
  match ps with
  | [] => Ok st
  | (code, value) :: ps => st ← ccParameter st code value; cc_fold st ps
  end.

(** A connection confirm with the destination reference of our request. *)
Definition cc_frame (b8 b9 options : Z) (ps : list (Z * list Z)) : list Z :=
  [0x03; 0x00] ++ be_split 2 (11 + zlen (cc_wire ps))
  ++ [6 + zlen (cc_wire ps); 0xd0; 0; 1; b8; b9; options] ++ cc_wire ps.

Lemma cc_wire_cons code value ps :
  cc_wire ((code, value) :: ps) = code :: zlen value :: value ++ cc_wire ps.
Proof. done. Qed.

Lemma ccParameter_returns st code value : returns (ccParameter st code value).
Proof.
  unfold ccParameter. repeat (case_if; [case_if; [done|]|]); [..|done].
  - rewrite index_Ok by lia. cbn [mbind outcome_bind]. unfold tpduSizeFromCode. by case_if.
  - by rewrite get_uint16_Ok by lia.
  - by rewrite get_uint16_Ok by lia.
Qed.

(** One turn of the loop, relative to the consumed prefix. *)
Lemma ccLoop_cons fuel k code len r st :
  ccLoop (S fuel) (k ++ code :: len :: r) (zlen k) st =
  if len >? zlen r then text "isotcp: truncated COTP parameter value"
  else if len <? 0 then Panic
  else
    st ← ccParameter st code (take (Z.to_nat len) r);
    ccLoop fuel ((k ++ code :: len :: take (Z.to_nat len) r) ++ drop (Z.to_nat len) r)
      (zlen (k ++ code :: len :: take (Z.to_nat len) r)) st.
Proof.
  zlen_pos. cbn [ccLoop]. rewrite (proj2 (Z.ltb_lt _ _)) by zlia. cbn [negb].
  case_if; [zlia|]. rewrite index_app_0, (index_app k _ 1), (index_Ok _ 1) by zlia.
  eval_at. cbn [mbind outcome_bind].
  replace (zlen (k ++ code :: len :: r) - (zlen k + 2)) with (zlen r) by zlia.
  case_if; [done|].
  replace (k ++ code :: len :: r) with ((k ++ [code; len]) ++ r) by by rewrite <-app_assoc.
  replace (zlen k + 2) with (zlen (k ++ [code; len])) by zlia.
  destruct (len <? 0) eqn:Hneg.
  - unfold slice. by case_if; [lia|].
  - rewrite slice_app_0 by lia. cbn [mbind outcome_bind].
    destruct (ccParameter st code _); cbn [mbind outcome_bind]; [|done..].
    rewrite <-(take_drop (Z.to_nat len) r) at 1.
    replace (k ++ code :: len :: take (Z.to_nat len) r)
      with ((k ++ [code; len]) ++ take (Z.to_nat len) r) by by rewrite <-app_assoc.
    f_equal; [by rewrite <-!app_assoc|].
    rewrite (zlen_app _ (take _ _)), zlen_take; lia.
Qed.

Lemma ccLoop_spec fuel : ∀ k r st, (length r ≤ fuel)%nat → bytes r →
  returns (ccLoop fuel (k ++ r) (zlen k) st) ∧
  ∀ st', ccLoop fuel (k ++ r) (zlen k) st = Ok st' ↔
         ∃ ps, r = cc_wire ps ∧ cc_fold st ps = Ok st'.
Proof.
  induction fuel as [|fuel IH]; intros k r st Hf Hb.
  { destruct r; [|cbn in Hf; lia]. rewrite app_nil_r. cbn [ccLoop].
    rewrite Z.ltb_irrefl. cbn [negb]. split; [done|]. intros st'. split.
    - intros [= ->]. by exists [].
    - intros ([|[c v] ps] & ? & H); [done|]. by rewrite cc_wire_cons in *. }
  destruct r as [|code [|len r]].
  - rewrite app_nil_r. cbn [ccLoop]. rewrite Z.ltb_irrefl. cbn [negb]. split; [done|].
    intros st'. split.
    + intros [= ->]. by exists [].
    + intros ([|[c v] ps] & ? & H); [done|]. by rewrite cc_wire_cons in *.
  - zlen_pos. cbn [ccLoop]. rewrite (proj2 (Z.ltb_lt _ _)) by zlia. cbn [negb].
    case_if; [|zlia]. split; [done|]. intros st'. split; [done|].
    intros ([|[c v] ps] & ? & Hx); [done|]. by rewrite cc_wire_cons in *.
  - rewrite ccLoop_cons. rewrite !Forall_cons in Hb. destruct Hb as (Hcode & Hlen & Hb).
    case_if.
    { split; [done|]. intros st'. split; [done|]. intros ([|[c v] ps] & Hr & Hx); [done|].
      rewrite cc_wire_cons in Hr. simplify_eq. zlia. }
    case_if; [unfold is_u8 in Hlen; lia|].
    assert (zlen (take (Z.to_nat len) r) = len) as Hl by (rewrite zlen_take; bool_lia).
    split.
    + apply bind_returns; [apply ccParameter_returns|]. intros st1 _.
      apply IH; [|by apply Forall_drop]. rewrite length_drop. cbn in Hf. lia.
    + intros st'. split.
      * intros (st1 & Hp & Hx)%bind_Ok_inv. apply IH in Hx as (ps & Hps & Hx);
          [|rewrite length_drop; cbn in Hf; lia|by apply Forall_drop].
        exists ((code, take (Z.to_nat len) r) :: ps). rewrite cc_wire_cons, Hl.
        split; [by rewrite <-Hps, take_drop|]. cbn [cc_fold]. by rewrite Hp.
      * intros ([|[c v] ps] & Hr & Hx); [done|]. rewrite cc_wire_cons in Hr.
        injection Hr as -> -> ->. cbn [cc_fold] in Hx.
        assert (Z.to_nat (zlen v) = length v) as Hv by (unfold zlen; lia).
        rewrite Hv, take_app_length, drop_app_length in *.
        apply bind_Ok_inv in Hx as (st1 & -> & Hx). cbn [mbind outcome_bind].
        apply IH; [cbn in Hf; rewrite length_app in Hf; lia| |by eauto].
        by apply Forall_app in Hb as [_ ?].
Qed.

(** The loop on a frame taken apart after its 11 header bytes. *)
Lemma ccLoop_frame a b c d e f g h i j k r st : bytes r →
  let frame := a :: b :: c :: d :: e :: f :: g :: h :: i :: j :: k :: r in
  returns (ccLoop (length frame) frame 11 st) ∧
  ∀ st', ccLoop (length frame) frame 11 st = Ok st' ↔
         ∃ ps, r = cc_wire ps ∧ cc_fold st ps = Ok st'.
Proof.
  intros Hb. apply (ccLoop_spec _ [a; b; c; d; e; f; g; h; i; j; k]); [cbn; lia|done].
Qed.

Lemma cc_fold_TPDU ps : ∀ st st', cc_fold st ps = Ok st' → ccTPDU st ∈ tpdu_sizes →
  ccTPDU st' ∈ tpdu_sizes ∧ ccTPDU st' ≤ ccTPDU st.
Proof.
  induction ps as [|[code value] ps IH]; intros st st' H Ht; cbn [cc_fold] in H.
  { injection H as <-. split; [done|lia]. }
  apply bind_Ok_inv in H as (st1 & Hp & H).
  assert (ccTPDU st1 ∈ tpdu_sizes ∧ ccTPDU st1 ≤ ccTPDU st) as [H1 H2].
  { unfold ccParameter in Hp. inv_if Hp.
    repeat (case_match; [inv_if Hp|]).
    all: try (injection Hp as <-; split; [done|lia]).
    - apply bind_Ok_inv in Hp as (v & _ & Hp). apply bind_Ok_inv in Hp as (peer & Hpeer & [= <-]).
      apply tpdu_code_spec, tpduSizeCode_Ok in Hpeer as [? _]. cbn [ccTPDU].
      case_if; split; done || lia.
    - apply bind_Ok_inv in Hp as (v & _ & [= <-]). split; [done|cbn; lia].
    - apply bind_Ok_inv in Hp as (v & _ & [= <-]). split; [done|cbn; lia]. }
  apply IH in H as [? ?]; [|done]. split; [done|lia].
Qed.

(** *** What the parameters say *)

(** A TPDU size parameter has a one-byte exponent, a TSAP parameter two bytes;
    other parameters are ignored. *)
Definition legal_parameter (p : Z * list Z) : Prop :=
  (p.1 = 0xc0 → ∃ e, 7 ≤ e ≤ 13 ∧ p.2 = [e]) ∧
  (p.1 = 0xc1 ∨ p.1 = 0xc2 → ∃ high low, p.2 = [high; low]).

(** The values of the parameters with a code, in order. *)
Definition values (code : Z) (ps : list (Z * list Z)) : list (list Z) := snd <$> filter (λ p, p.1 = code) ps.

(** The least of the offered size and the sizes the parameters name. *)
Definition least_size (offered : Z) (ps : list (Z * list Z)) (size : Z) : Prop :=
  let sizes := offered :: ((λ v, 2 ^ hd 0 v) <$> values 0xc0 ps) in
  size ∈ sizes ∧ ∀ s, s ∈ sizes → size ≤ s.

(** The TSAP a code names: the last parameter counts. *)
Definition named (code : Z) (ps : list (Z * list Z)) : option Z :=
  match last (values code ps) with
  | Some [high; low] => Some (high * 256 + low)
  | _ => None
  end.

(** The rule of docs/spec.md: the TSAPs of the request reversed, the peer's source
    our remote TSAP and its destination our local one, each where it is named. *)
Definition tsaps_reversed (localTSAP remoteTSAP : Z) (ps : list (Z * list Z)) : Prop :=
  (∀ source, named 0xc1 ps = Some source → source = remoteTSAP) ∧
  (∀ destination, named 0xc2 ps = Some destination → destination = localTSAP).

(** The pair that docs/spec.md does not allow and the code accepts as well: the
    request's own order. *)
Definition tsaps_echoed (localTSAP remoteTSAP : Z) (ps : list (Z * list Z)) : Prop :=
  named 0xc1 ps = Some localTSAP ∧ named 0xc2 ps = Some remoteTSAP.

(** One legal parameter. *)
Definition cc_step (st : ccState) (p : Z * list Z) : ccState :=
  if p.1 =? 0xc0 then mkCC (Z.min (ccTPDU st) (2 ^ hd 0 p.2)) (ccSource st) (ccDestination st)
  else
    let tsap := Some (hd 0 p.2 * 256 + hd 0 (tail p.2)) in
    if p.1 =? 0xc1 then mkCC (ccTPDU st) tsap (ccDestination st)
    else if p.1 =? 0xc2 then mkCC (ccTPDU st) (ccSource st) tsap
    else st.

Lemma two_bytes (value : list Z) : zlen value = 2 → ∃ high low, value = [high; low].
Proof. destruct value as [|high [|low [|? ?]]]; intros Hz; zlen_pos; try (exfalso; zlia). by exists high, low. Qed.

Lemma get_uint16_pair high low : is_u8 low → get_uint16 (E:=error) [high; low] 0 = Ok (high * 256 + low).
Proof.
  intros Hl. rewrite get_uint16_Ok by zlia. f_equal. change (sub [high; low] 0 (0 + 2)) with ([high] ++ [low]).
  by rewrite be_combine_snoc.
Qed.

Lemma ccParameter_exact st code value st' : bytes value →
  ccParameter st code value = Ok st' ↔ legal_parameter (code, value) ∧ st' = cc_step st (code, value).
Proof.
  intros Hb. unfold ccParameter, legal_parameter, cc_step. cbn [fst snd].
  destruct (code =? 0xc0) eqn:E0; [|destruct (code =? 0xc1) eqn:E1; [|destruct (code =? 0xc2) eqn:E2]].
  - assert (code = 0xc0) as -> by lia. destruct value as [|e [|? ?]]; cbn [hd].
    + split; [done|]. intros [[Hx _] _]. by destruct (Hx eq_refl) as (e & _ & [=]).
    + change (negb (zlen [e] =? 1)) with false. cbv iota. change (index (E:=error) [e] 0) with (Ok (E:=error) e).
      cbn [mbind outcome_bind]. unfold tpduSizeFromCode. case_if.
      * split; [done|]. intros [[Hx _] _]. destruct (Hx eq_refl) as (e' & He & [= <-]). lia.
      * cbn [mbind outcome_bind]. rewrite Z.shiftl_1_l.
        assert ((if 2 ^ e <? ccTPDU st then 2 ^ e else ccTPDU st) = Z.min (ccTPDU st) (2 ^ e)) as -> by (case_if; lia).
        split; [intros [= <-]|by intros [_ ->]]. split; [|done]. split; [intros _; exists e; split; [lia|done]|].
        intros [?|?]; lia.
    + case_if; [|zlen_pos; zlia]. split; [done|]. intros [[Hx _] _]. by destruct (Hx eq_refl) as (e' & _ & [=]).
  - assert (code = 0xc1) as -> by lia. destruct (zlen value =? 2) eqn:Hz; cbn [negb].
    + destruct (two_bytes value) as (h & l & ->); [lia|]. rewrite get_uint16_pair by (by rewrite !Forall_cons in Hb; destruct_and! Hb).
      cbn [mbind outcome_bind hd tail]. split; [intros [= <-]|by intros [_ ->]]. split; [|done].
      split; [done|]. intros _. by exists h, l.
    + split; [done|]. intros [[_ Hx] _]. destruct Hx as (h & l & ->); [by left|]. done.
  - assert (code = 0xc2) as -> by lia. destruct (zlen value =? 2) eqn:Hz; cbn [negb].
    + destruct (two_bytes value) as (h & l & ->); [lia|]. rewrite get_uint16_pair by (by rewrite !Forall_cons in Hb; destruct_and! Hb).
      cbn [mbind outcome_bind hd tail]. split; [intros [= <-]|by intros [_ ->]]. split; [|done].
      split; [done|]. intros _. by exists h, l.
    + split; [done|]. intros [[_ Hx] _]. destruct Hx as (h & l & ->); [by right|]. done.
  - split; [intros [= <-]|by intros [_ ->]]. split; [|done]. split; [lia|]. intros [?|?]; lia.
Qed.

Lemma cc_fold_exact ps : Forall (λ p, bytes p.2) ps → ∀ st st',
  cc_fold st ps = Ok st' ↔ Forall legal_parameter ps ∧ st' = foldl cc_step st ps.
Proof.
  induction 1 as [|[code value] ps Hb _ IH]; intros st st'; cbn [cc_fold foldl].
  { split; [intros [= <-]; by split|by intros [_ ->]]. }
  split.
  - intros (st1 & [Hl ->]%ccParameter_exact & [Hls ->]%IH)%bind_Ok_inv; [|done]. split; [by constructor|done].
  - intros [Hl%Forall_cons ->]. destruct Hl as [Hl Hls].
    rewrite (proj2 (ccParameter_exact st code value _ Hb) (conj Hl eq_refl)). cbn [mbind outcome_bind].
    by apply IH.
Qed.

Lemma values_cons code p ps :
  values code (p :: ps) = if decide (p.1 = code) then p.2 :: values code ps else values code ps.
Proof. unfold values. rewrite filter_cons. by case_decide. Qed.

Lemma cc_step_size ps : ∀ st, least_size (ccTPDU st) ps (ccTPDU (foldl cc_step st ps)).
Proof.
  induction ps as [|p ps IH]; intros st; cbn [foldl].
  { split; [by left|]. intros s. unfold values. cbn. rewrite list_elem_of_singleton. lia. }
  specialize (IH (cc_step st p)). unfold least_size in *. cbv zeta in *. rewrite values_cons.
  set (x := ccTPDU (foldl cc_step (cc_step st p) ps)) in *. clearbody x.
  assert (ccTPDU (cc_step st p) = if decide (p.1 = 0xc0) then Z.min (ccTPDU st) (2 ^ hd 0 p.2) else ccTPDU st) as E.
  { unfold cc_step. case_decide as Hp; [by rewrite Hp|]. destruct (p.1 =? 0xc0) eqn:?; [lia|]. by repeat case_if. }
  rewrite E in IH. destruct IH as [Hin Hle]. case_decide; [|by split].
  rewrite fmap_cons. setoid_rewrite elem_of_cons in Hin. setoid_rewrite elem_of_cons in Hle.
  setoid_rewrite elem_of_cons. setoid_rewrite elem_of_cons. split.
  - destruct Hin as [Hx|?]; [|by right; right]. destruct (Z.min_spec (ccTPDU st) (2 ^ hd 0 p.2)); [left|right; left]; lia.
  - specialize (Hle _ (or_introl eq_refl)) as Hm. intros s [->|[->|Hs]]; [lia|lia|]. apply Hle. by right.
Qed.

Lemma least_size_unique offered ps a b : least_size offered ps a → least_size offered ps b → a = b.
Proof. intros [Ha Hla] [Hb Hlb]. apply Hla in Hb. apply Hlb in Ha. lia. Qed.

Lemma tsap_values code ps v : code = 0xc1 ∨ code = 0xc2 → Forall legal_parameter ps →
  v ∈ values code ps → ∃ high low, v = [high; low].
Proof.
  intros Hc Hl [p [-> [Hp Hin]%list_elem_of_filter]]%list_elem_of_fmap.
  rewrite Forall_forall in Hl. destruct (Hl _ Hin) as [_ Ht]. apply Ht. by rewrite Hp.
Qed.

(** The next parameter of a code is what it names unless a later one is. *)
Lemma named_cons code p ps : code = 0xc1 ∨ code = 0xc2 → Forall legal_parameter (p :: ps) →
  named code (p :: ps) =
    if decide (p.1 = code) then Some (default (hd 0 p.2 * 256 + hd 0 (tail p.2)) (named code ps))
    else named code ps.
Proof.
  intros Hc [Hp Hl]%Forall_cons. unfold named. rewrite values_cons. case_decide as Hpc; [|done].
  destruct Hp as [_ Hp]. destruct (Hp ltac:(by rewrite Hpc)) as (h & l & ->). rewrite last_cons.
  destruct (last (values code ps)) as [v|] eqn:Hv; [|done].
  destruct (tsap_values code ps v Hc Hl) as (h' & l' & ->); [|done].
  apply last_Some in Hv as [vs ->]. apply elem_of_app. right. by left.
Qed.

(** The TSAPs the parameter loop ends with. *)
Lemma cc_step_tsaps ps : Forall legal_parameter ps → ∀ st,
  ccSource (foldl cc_step st ps) = union (named 0xc1 ps) (ccSource st) ∧
  ccDestination (foldl cc_step st ps) = union (named 0xc2 ps) (ccDestination st).
Proof.
  induction ps as [|p ps IH]; intros Hl st; cbn [foldl].
  { by destruct (ccSource st), (ccDestination st). }
  rewrite !named_cons by auto. apply Forall_cons in Hl as [_ Hl]. destruct (IH Hl (cc_step st p)) as [-> ->].
  unfold cc_step. case_decide as H1; case_decide as H2; [congruence|rewrite H1|rewrite H2|].
  - destruct (named 0xc1 ps), (named 0xc2 ps), (ccSource st), (ccDestination st); by split.
  - destruct (named 0xc1 ps), (named 0xc2 ps), (ccSource st), (ccDestination st); by split.
  - destruct (p.1 =? 0xc0); [done|]. by rewrite (proj2 (Z.eqb_neq _ _) H1), (proj2 (Z.eqb_neq _ _) H2).
Qed.

Lemma ccTSAPs_exact st localTSAP remoteTSAP ps :
  ccSource st = named 0xc1 ps → ccDestination st = named 0xc2 ps →
  ccTSAPs st localTSAP remoteTSAP = Ok tt ↔
  tsaps_reversed localTSAP remoteTSAP ps ∨ tsaps_echoed localTSAP remoteTSAP ps.
Proof.
  unfold ccTSAPs, tsaps_reversed, tsaps_echoed. intros -> ->.
  destruct (named 0xc1 ps) as [source|], (named 0xc2 ps) as [destination|]; cbv zeta.
  - case_if; (split; try done).
    + intros [[H1 H2]|[[= ->] [= ->]]]; [rewrite (H1 _ eq_refl), (H2 _ eq_refl) in *|]; bool_lia.
    + intros _. destruct (decide (source = remoteTSAP ∧ destination = localTSAP)) as [[-> ->]|Hn].
      * left. split; by intros ? [= <-].
      * right. split; f_equal; bool_lia.
  - case_if; (split; try done).
    + intros [[H1 _]|[_ ?]]; [rewrite (H1 _ eq_refl) in *; bool_lia|done].
    + intros _. left. split; [intros ? [= <-]; bool_lia|done].
  - case_if; (split; try done).
    + intros [[_ H2]|[? _]]; [rewrite (H2 _ eq_refl) in *; bool_lia|done].
    + intros _. left. split; [done|intros ? [= <-]; bool_lia].
  - split; [|done]. intros _. by left.
Qed.

Lemma bytes_cc_wire ps : bytes (cc_wire ps) → Forall (λ p, bytes p.2) ps.
Proof.
  induction ps as [|[code value] ps IH]; [constructor|]. rewrite cc_wire_cons, !Forall_cons, Forall_app.
  intros (_ & _ & Hv & Hp). constructor; auto.
Qed.

Lemma bytes_cc_frame b8 b9 options ps : bytes (cc_frame b8 b9 options ps) → Forall (λ p, bytes p.2) ps.
Proof. unfold cc_frame. intros Hb. apply bytes_cc_wire. rewrite !Forall_app in Hb. tauto. Qed.

(** What the loop and the TSAP rule accept, by the parameters alone. *)
Lemma cc_parameters_exact offered localTSAP remoteTSAP ps size :
  Forall (λ p, bytes p.2) ps →
  (∃ st, cc_fold (mkCC offered None None) ps = Ok st ∧ ccTSAPs st localTSAP remoteTSAP = Ok tt ∧ size = ccTPDU st) ↔
  Forall legal_parameter ps ∧ least_size offered ps size ∧
  (tsaps_reversed localTSAP remoteTSAP ps ∨ tsaps_echoed localTSAP remoteTSAP ps).
Proof.
  intros Hb. setoid_rewrite cc_fold_exact; [|done].
  pose proof (cc_step_size ps (mkCC offered None None)) as Hs. cbn [ccTPDU] in Hs.
  assert (Forall legal_parameter ps → ccTSAPs (foldl cc_step (mkCC offered None None) ps) localTSAP remoteTSAP = Ok tt
    ↔ tsaps_reversed localTSAP remoteTSAP ps ∨ tsaps_echoed localTSAP remoteTSAP ps) as Ht.
  { intros Hl. destruct (cc_step_tsaps ps Hl (mkCC offered None None)) as [H1 H2].
    cbn [ccSource ccDestination] in *. rewrite (right_id_L None union) in H1, H2. by apply ccTSAPs_exact. }
  split.
  - intros (st & [Hl ->] & Hok & ->). split; [done|]. split; [done|]. by apply Ht.
  - intros (Hl & Hsize & Hm). eexists. split; [done|]. split; [by apply Ht|].
    by eapply least_size_unique.
Qed.
(** ParseConnectionConfirm accepts exactly the CC frames of class 0 that
    answer destination reference 1, carry a well-formed parameter list and
    name TSAPs allowed by [ccTSAPs]. *)
Lemma ParseConnectionConfirm_spec frame localTSAP remoteTSAP offeredTPDU confirm :
  bytes frame →
  ParseConnectionConfirm frame localTSAP remoteTSAP offeredTPDU = Ok confirm ↔
  offeredTPDU ∈ tpdu_sizes ∧
  ∃ b8 b9 options ps st,
    frame = cc_frame b8 b9 options ps ∧ zlen frame ≤ 260 ∧
    Z.land options 0xf0 = 0 ∧
    cc_fold (mkCC offeredTPDU None None) ps = Ok st ∧
    ccTSAPs st localTSAP remoteTSAP = Ok tt ∧
    confirm = mkConnectionConfirm (ccTPDU st).
Proof.
  intros Hb. unfold ParseConnectionConfirm. split.
  - intros (code & Hcode & H)%bind_Ok_inv. apply tpduSizeCode_Ok in Hcode as [Hoff _].
    split; [done|]. destruct (zlen frame <? 11) eqn:Hl; [done|].
    pose proof Hb as Hb'. explode frame 11%nat. zlen_pos.
    rewrite (index_Ok _ 0), (index_Ok _ 1), (index_Ok _ 4), (index_Ok _ 5), (index_Ok _ 10),
      (get_uint16_Ok _ 2), (get_uint16_Ok _ 6) in H by zlia.
    revert H. eval_at. cbn [mbind outcome_bind]. intros H. inv_if H.
    rewrite !Forall_cons in Hb. destruct_and! Hb. be_ranges.
    apply bind_Ok_inv in H as (st & Hst & H).
    apply ccLoop_frame in Hst as (ps & -> & Hfold); [|done].
    apply bind_Ok_inv in H as ([] & Hts & [= <-]).
    exists b7, b8, b9, ps, st. split; [|split; [|split_and!; [lia|done..]]].
    2: { unfold is_u8 in *. zlia. }
    unfold cc_frame. replace (11 + zlen (cc_wire ps)) with (be_combine [b1; b2]) by zlia.
    rewrite be_split_combine2 by done.
    assert (be_split 2 (be_combine [b5; b6]) = [0; 1]) as H56.
    { by replace (be_combine [b5; b6]) with 1 by lia. }
    rewrite be_split_combine2 in H56 by done. injection H56 as -> ->.
    cbn [app]. repeat f_equal; zlia.
  - intros (Hoff & b8 & b9 & options & ps & st & -> & Hl & Ho & Hfold & Hts & ->).
    assert (∃ code, tpduSizeCode offeredTPDU = Ok code) as [code ->].
    { unfold tpdu_sizes in Hoff. rewrite !elem_of_cons, elem_of_nil in Hoff.
      destruct_or! Hoff; subst; eexists; reflexivity. }
    cbn [mbind outcome_bind]. unfold cc_frame in *. zlen_pos.
    cbn [be_split app] in *.
    rewrite (proj2 (Z.ltb_ge _ _)) by zlia.
    rewrite (index_Ok _ 0), (index_Ok _ 1), (index_Ok _ 4), (index_Ok _ 5), (index_Ok _ 10),
      (get_uint16_Ok _ 2), (get_uint16_Ok _ 6) by zlia.
    eval_at. cbn [mbind outcome_bind].
    rewrite be_combine_split2 by (unfold is_u16; zlia).
    case_if; [zlia|]. case_if; [zlia|]. cbn [negb Z.eqb Pos.eqb].
    change (be_combine [0; 1]) with 1. cbn [negb Z.eqb Pos.eqb].
    rewrite Ho. cbn [negb Z.eqb].
    rewrite (proj2 (proj2 (ccLoop_frame _ _ _ _ _ _ _ _ _ _ _ _ _
      ltac:(rewrite !Forall_cons in Hb; destruct_and! Hb; done)) st)) by eauto.
    cbn [mbind outcome_bind]. by rewrite Hts.
Qed.

(** The negotiated TPDU is a legal size no larger than the one offered. *)
Lemma ParseConnectionConfirm_TPDU frame localTSAP remoteTSAP offeredTPDU confirm :
  bytes frame →
  ParseConnectionConfirm frame localTSAP remoteTSAP offeredTPDU = Ok confirm →
  TPDUSize confirm ∈ tpdu_sizes ∧ TPDUSize confirm ≤ offeredTPDU.
Proof.
  intros Hb (Ho & ? & ? & ? & ps & st & _ & _ & _ & Hf & _ & ->)%ParseConnectionConfirm_spec;
    [|done]. by apply cc_fold_TPDU in Hf.
Qed.

(** No frame makes the COTP parsers panic or loop. *)
Lemma isotcp_parsers_never_panic frame localTSAP remoteTSAP offeredTPDU :
  bytes frame →
  returns (ParseConnectionConfirm frame localTSAP remoteTSAP offeredTPDU) ∧
  returns (UnwrapData frame).
Proof.
  intros Hb. split.
  - unfold ParseConnectionConfirm.
    apply bind_returns; [unfold tpduSizeCode; by case_if|]. intros _ _.
    case_if; [done|]. explode frame 11%nat. zlen_pos.
    rewrite (index_Ok _ 0), (index_Ok _ 1), (index_Ok _ 4), (index_Ok _ 5), (index_Ok _ 10),
      (get_uint16_Ok _ 2), (get_uint16_Ok _ 6) by zlia.
    eval_at. cbn [mbind outcome_bind]. repeat (case_if; [done|]).
    apply bind_returns.
    + apply ccLoop_frame. rewrite !Forall_cons in Hb. tauto.
    + intros st _. apply bind_returns; [|done]. unfold ccTSAPs. by repeat case_match.
  - unfold UnwrapData. case_if; [done|]. unfold DataHeaderSize, TPKTHeaderSize, DataTPDUHeaderSize in *.
    rewrite !index_Ok, get_uint16_Ok by lia. rewrite slice_Ok by lia.
    cbn [mbind outcome_bind]. by repeat case_if.
Qed.

(** ** The framing layer end to end *)

Lemma tpkt_unique max max' f f' r r' :
  max ≤ maxTPKTLength → max' ≤ maxTPKTLength → tpkt max f → tpkt max' f' →
  f ++ r = f' ++ r' → f = f' ∧ r = r'.
Proof.
  intros Hm Hm' (Hl & b & Hf) (Hl' & b' & Hf') Heq.
  assert (zlen f = zlen f') as Hz.
  { rewrite Hf, Hf' in Heq. cbn [be_split app] in Heq. injection Heq as H2 H3 _.
    rewrite <-(be_combine_split2 (zlen f)), <-(be_combine_split2 (zlen f')) by iso_lia.
    by rewrite H2, H3. }
  apply app_inj_1 in Heq; [done|]. unfold zlen in Hz. lia.
Qed.

(** A reader that delivers a packet first returns it and keeps the rest. *)
Lemma ReadFrame_tpkt reader frame rest maxFrameBytes :
  maxFrameBytes ≤ maxTPKTLength → tpkt maxFrameBytes frame → bytes frame → bytes rest →
  pending reader = frame ++ rest →
  ∃ reader', ReadFrame reader maxFrameBytes = (Ok frame, reader') ∧ pending reader' = rest.
Proof.
  intros Hm Ht Hbf Hbr Hp. pose proof Ht as [Hl _].
  pose proof (ReadFrame_spec reader maxFrameBytes ltac:(iso_lia)) as Hr.
  rewrite Hp in Hr. specialize (Hr ltac:(by apply Forall_app)).
  destruct (ReadFrame reader maxFrameBytes) as [[f|e|] reader']; [| |done].
  - destruct Hr as [Htf Hr].
    destruct (tpkt_unique _ _ _ _ _ _ Hm Hm Htf Ht (eq_sym Hr)) as [-> Hrr]. by exists reader'.
  - exfalso. apply Hr. eauto.
Qed.

Lemma bytes_data_frame payload : bytes payload → bytes (data_frame 0x80 payload).
Proof.
  intros Hb. unfold data_frame. repeat (apply Forall_app; split); auto with bytes; repeat constructor; done.
Qed.

Lemma zlen_data_frame flags payload : zlen (data_frame flags payload) = DataHeaderSize + zlen payload.
Proof. unfold data_frame. autorewrite with zlen. iso_lia. Qed.

Lemma tpkt_data_frame maxFrameBytes payload : DataHeaderSize + zlen payload ≤ maxFrameBytes →
  tpkt maxFrameBytes (data_frame 0x80 payload).
Proof.
  intros Hl. zlen_pos. split; [rewrite zlen_data_frame; lia|]. rewrite zlen_data_frame. by eexists.
Qed.

(** C35. A payload wrapped, written through short writes and read back through
    arbitrarily cut reads is the payload, and the rest of the stream is left. *)
Theorem framing_roundtrip payload frame answers sent n reader rest maxFrameBytes :
  bytes payload → bytes rest →
  WrapData payload = Ok frame →
  WriteFull answers frame = (sent, (n, None)) →
  pending reader = sent ++ rest →
  zlen frame ≤ maxFrameBytes ≤ maxTPKTLength →
  ∃ reader', ReadFrame reader maxFrameBytes = (Ok frame, reader') ∧
             pending reader' = rest ∧ UnwrapData frame = Ok payload.
Proof.
  intros Hb Hrest Hw Hwr Hp Hm. rewrite WrapData_spec in Hw. case_decide as Hl; [|done].
  injection Hw as <-. zlen_pos.
  pose proof (WriteFull_spec answers (data_frame 0x80 payload)) as Hs. rewrite Hwr in Hs.
  destruct Hs as (_ & _ & Hs). specialize (Hs eq_refl). subst sent.
  rewrite zlen_data_frame in Hm.
  destruct (ReadFrame_tpkt reader (data_frame 128 payload) rest maxFrameBytes) as (reader' & Hr & Hrest');
    [lia|apply tpkt_data_frame; lia|by apply bytes_data_frame|done|done|].
  exists reader'. split_and!; [done..|]. apply UnwrapData_spec; [by apply bytes_data_frame|].
  exists 128. split_and!; [done..|]. rewrite zlen_data_frame. lia.
Qed.

(** ** Properties *)

(** C34. ReadFrame returns the first TPKT packet of the stream, however its
    bytes are cut into reads, and leaves the rest; it fails only if the stream
    does not begin with a complete packet of an allowed size. *)
Theorem ReadFrame_correct reader maxFrameBytes :
  DataHeaderSize ≤ maxFrameBytes ≤ maxTPKTLength → bytes (pending reader) →
  match ReadFrame reader maxFrameBytes with
  | (Ok frame, reader') =>
      tpkt maxFrameBytes frame ∧ pending reader = frame ++ pending reader'
  | (Err _, _) =>
      ¬ ∃ frame rest, tpkt maxFrameBytes frame ∧ pending reader = frame ++ rest
  | (Panic, _) => False
  end.
Proof. apply ReadFrame_spec. Qed.
Lemma ReadFrame_correct_witness :
  let reader := [Chunk [3; 0; 0]; Chunk [8; 2; 0xf0; 0x80; 7; 9]] in
  match ReadFrame reader 100 with
  | (Ok frame, reader') => frame = [3; 0; 0; 8; 2; 0xf0; 0x80; 7] ∧ pending reader = frame ++ pending reader'
  | _ => False
  end.
Proof.
  cbv zeta.
  pose proof (ReadFrame_correct [Chunk [3; 0; 0]; Chunk [8; 2; 0xf0; 0x80; 7; 9]] 100
    ltac:(concrete) ltac:(concrete)) as H.
  revert H. vm_compute. intros [_ H]. exact (conj eq_refl H).
Defined.

(** The TPDU size offered for an S7 PDU is the smallest of the four
    negotiable sizes that holds it with its header; larger PDUs are refused. *)
Theorem TPDUSizeForS7PDU_correct pduBytes :
  match TPDUSizeForS7PDU pduBytes with
  | Ok size =>
      1 ≤ pduBytes ∧ size ∈ [1024; 2048; 4096; 8192] ∧
      pduBytes + DataTPDUHeaderSize ≤ size ∧
      ∀ s, s ∈ [1024; 2048; 4096; 8192] → pduBytes + DataTPDUHeaderSize ≤ s → size ≤ s
  | Err _ => pduBytes < 1 ∨ 8192 < pduBytes + DataTPDUHeaderSize
  | Panic => False
  end.
Proof. apply TPDUSizeForS7PDU_spec. Qed.

(** C36. A Connection Confirm is accepted exactly if it is a CC frame of at most
    260 bytes for our reference, of class 0, with well-formed parameters - TPDU
    sizes of one byte 7..13, TSAPs of two - whose TSAPs, the last of each code
    counting, are those of the request reversed, or both echoed in the request's
    order, which docs/spec.md does not allow. The size it gives is the least of
    the offered one and those the parameters name: a legal size never above the
    offer. No frame makes the parser panic. *)
Theorem ParseConnectionConfirm_exact frame localTSAP remoteTSAP offeredTPDU confirm :
  bytes frame →
  (ParseConnectionConfirm frame localTSAP remoteTSAP offeredTPDU = Ok confirm ↔
   offeredTPDU ∈ tpdu_sizes ∧
   ∃ b8 b9 options ps,
     frame = cc_frame b8 b9 options ps ∧ zlen frame ≤ 260 ∧
     Z.land options 0xf0 = 0 ∧ Forall legal_parameter ps ∧
     (tsaps_reversed localTSAP remoteTSAP ps ∨ tsaps_echoed localTSAP remoteTSAP ps) ∧
     least_size offeredTPDU ps (TPDUSize confirm)) ∧
  (ParseConnectionConfirm frame localTSAP remoteTSAP offeredTPDU = Ok confirm →
   TPDUSize confirm ∈ tpdu_sizes ∧ TPDUSize confirm ≤ offeredTPDU) ∧
  returns (ParseConnectionConfirm frame localTSAP remoteTSAP offeredTPDU).
Proof.
  intros Hb. split.
  { rewrite ParseConnectionConfirm_spec by done. split.
    - intros (Ho & b8 & b9 & options & ps & st & -> & Hl & Hc & Hst). split; [done|].
      exists b8, b9, options, ps.
      destruct (proj1 (cc_parameters_exact offeredTPDU localTSAP remoteTSAP ps (TPDUSize confirm)
        (bytes_cc_frame _ _ _ _ Hb))) as (? & ? & ?); [|done].
      destruct Hst as (Hst & Hts & ->). by exists st.
    - intros (Ho & b8 & b9 & options & ps & -> & Hl & Hc & Hp & Ht & Hs). split; [done|].
      destruct (proj2 (cc_parameters_exact offeredTPDU localTSAP remoteTSAP ps (TPDUSize confirm)
        (bytes_cc_frame _ _ _ _ Hb))) as (st & Hst & Hts & Hz); [done|].
      exists b8, b9, options, ps, st. split_and!; [done..|]. destruct confirm. by f_equal. }
  split; [by apply ParseConnectionConfirm_TPDU|].
  by apply isotcp_parsers_never_panic.
Qed.
Lemma ParseConnectionConfirm_exact_witness :
  let frame := [3; 0; 0; 22; 17; 0xd0; 0; 1; 0; 1; 0; 0xc0; 1; 10; 0xc1; 2; 1; 0; 0xc2; 2; 3; 2] in
  ParseConnectionConfirm frame 0x0302 0x0100 1024 = Ok (mkConnectionConfirm 1024) ∧
  1024 ∈ tpdu_sizes.
Proof.
  cbv zeta. split; [reflexivity|].
  refine (proj1 (proj1 (proj2 (ParseConnectionConfirm_exact
    [3; 0; 0; 22; 17; 0xd0; 0; 1; 0; 1; 0; 0xc0; 1; 10; 0xc1; 2; 1; 0; 0xc2; 2; 3; 2]
    0x0302 0x0100 1024 (mkConnectionConfirm 1024) _)) _)); [concrete|reflexivity].
Defined.

(** UnwrapData accepts exactly the unfragmented data frames of a payload
    that fit the length field, and returns that payload; nothing panics. *)
Theorem UnwrapData_exact frame payload :
  bytes frame →
  (UnwrapData frame = Ok payload ↔
   ∃ flags, Z.land flags 0x80 ≠ 0 ∧ frame = data_frame flags payload ∧ zlen frame ≤ maxTPKTLength) ∧
  returns (UnwrapData frame).
Proof.
  intros Hb. split; [by apply UnwrapData_spec|]. by apply (isotcp_parsers_never_panic frame 0 0 0).
Qed.
Lemma UnwrapData_exact_witness :
  ∃ flags, Z.land flags 0x80 ≠ 0 ∧ [3; 0; 0; 8; 2; 0xf0; 0x80; 7] = data_frame flags [7] ∧
    zlen [3; 0; 0; 8; 2; 0xf0; 0x80; 7] ≤ maxTPKTLength.
Proof. apply UnwrapData_exact; [concrete|reflexivity]. Defined.

Lemma framing_roundtrip_witness :
  ∃ reader', ReadFrame [Chunk [3; 0; 0; 8; 2]; Chunk [0xf0; 0x80; 7; 9]] 100
      = (Ok [3; 0; 0; 8; 2; 0xf0; 0x80; 7], reader') ∧
    pending reader' = [9] ∧ UnwrapData [3; 0; 0; 8; 2; 0xf0; 0x80; 7] = Ok [7].
Proof.
  apply (framing_roundtrip [7] [3; 0; 0; 8; 2; 0xf0; 0x80; 7] [(5, None)]
    [3; 0; 0; 8; 2; 0xf0; 0x80; 7] 8 [Chunk [3; 0; 0; 8; 2]; Chunk [0xf0; 0x80; 7; 9]] [9] 100);
    concrete.
Defined.
