(* ===== verification/Codec.v ===== *)
(** * Codec: Siemens value codecs (codec/scalar.go)

    Decoders take the raw bytes; [Put...] functions write into the caller's
    buffer and return its new contents.  A REAL or LREAL is its IEEE-754 bit
    pattern: [math.Float32frombits] and [math.Float32bits] are inverse
    reinterpretations and the package does no float arithmetic. *)

From S2P Require Import Errors.

(** [exact(data, length, name)] *)
Definition exact (data : list Z) (length : Z) (name : string) : result unit :=
  if negb (zlen data =? length)
  then text ("codec: " +:+ name +:+ " requires exactly " +:+ dec length +:+ " bytes, got "
             +:+ dec (zlen data))
  else Ok tt.

(** ** Booleans and bits *)

Definition Bool (data : list Z) : result bool :=
  _ ← exact data 1 "bool";
  b ← index data 0;
  if b =? 0 then Ok false
  else if b =? 1 then Ok true
  else text "codec: bool byte must be zero or one".

Definition PutBool (destination : list Z) (value : bool) : result (list Z) :=
  _ ← exact destination 1 "bool";
  d ← store destination 0 0;
  if value then store d 0 1 else Ok d.

Definition Bit (data : list Z) (bitOffset : Z) : result bool :=
  let byteOffset := bitOffset / 8 in
  if byteOffset >=? zlen data then text "codec: bit offset outside buffer"
  else
    let bit := bitOffset mod 8 in
    b ← index data byteOffset;
    Ok (negb (Z.land b (Z.shiftl 1 bit) =? 0)).

Definition SetBit (data : list Z) (bitOffset : Z) (value : bool) : result (list Z) :=
  let byteOffset := bitOffset / 8 in
  if byteOffset >=? zlen data then text "codec: bit offset outside buffer"
  else
    let mask := u8 (Z.shiftl 1 (bitOffset mod 8)) in
    b ← index data byteOffset;
    if value then store data byteOffset (Z.lor b mask)
    else store data byteOffset (Z.ldiff b mask).

(** ** Integers *)

Definition Uint8 (data : list Z) : result Z := _ ← exact data 1 "uint8"; index data 0.
Definition Int8 (data : list Z) : result Z :=
  _ ← exact data 1 "int8"; b ← index data 0; Ok (signed 8 b).

Definition PutUint8 (destination : list Z) (value : Z) : result (list Z) :=
  _ ← exact destination 1 "uint8"; store destination 0 value.
Definition PutInt8 (destination : list Z) (value : Z) : result (list Z) :=
  _ ← exact destination 1 "int8"; store destination 0 (u8 value).

(** [binary.BigEndian.PutUintN(destination, value)] on a buffer of exactly
    [N/8] bytes. *)
Definition put_be (n : nat) (destination : list Z) (value : Z) : result (list Z) :=
  if zlen destination <? Z.of_nat n then Panic
  else Ok (copy_at destination 0 (be_split n value)).
(** [binary.BigEndian.UintN(data)] *)
Definition get_be (n : nat) (data : list Z) : result Z :=
  b ← slice data 0 (Z.of_nat n); Ok (be_combine b).

Definition Uint16 (data : list Z) : result Z := _ ← exact data 2 "uint16"; get_be 2 data.
Definition Int16 (data : list Z) : result Z := value ← Uint16 data; Ok (signed 16 value).
Definition PutUint16 (destination : list Z) (value : Z) : result (list Z) :=
  _ ← exact destination 2 "uint16"; put_be 2 destination value.
Definition PutInt16 (destination : list Z) (value : Z) : result (list Z) :=
  PutUint16 destination (u16 value).

Definition Uint32 (data : list Z) : result Z := _ ← exact data 4 "uint32"; get_be 4 data.
Definition Int32 (data : list Z) : result Z := value ← Uint32 data; Ok (signed 32 value).
Definition PutUint32 (destination : list Z) (value : Z) : result (list Z) :=
  _ ← exact destination 4 "uint32"; put_be 4 destination value.
Definition PutInt32 (destination : list Z) (value : Z) : result (list Z) :=
  PutUint32 destination (u32 value).

Definition Uint64 (data : list Z) : result Z := _ ← exact data 8 "uint64"; get_be 8 data.
Definition Int64 (data : list Z) : result Z := value ← Uint64 data; Ok (signed 64 value).
Definition PutUint64 (destination : list Z) (value : Z) : result (list Z) :=
  _ ← exact destination 8 "uint64"; put_be 8 destination value.
Definition PutInt64 (destination : list Z) (value : Z) : result (list Z) :=
  PutUint64 destination (u64 value).

(** ** Floating point *)

Inductive float32 := Float32frombits (bits : Z).
Inductive float64 := Float64frombits (bits : Z).
Definition Float32bits (f : float32) : Z := match f with Float32frombits b => b end.
Definition Float64bits (f : float64) : Z := match f with Float64frombits b => b end.

Definition Float32 (data : list Z) : result float32 :=
  bits ← Uint32 data; Ok (Float32frombits bits).
Definition PutFloat32 (destination : list Z) (value : float32) : result (list Z) :=
  PutUint32 destination (Float32bits value).
Definition Float64 (data : list Z) : result float64 :=
  bits ← Uint64 data; Ok (Float64frombits bits).
Definition PutFloat64 (destination : list Z) (value : float64) : result (list Z) :=
  PutUint64 destination (Float64bits value).

(** ** Classic STRING *)

Definition DecodeClassicString (data : list Z) : result (list Z) :=
  if zlen data <? 2 then text "codec: classic STRING header requires two bytes"
  else
    capacity ← index data 0;
    length ← index data 1;
    if capacity >? 254 then text "codec: classic STRING capacity exceeds 254"
    else if negb (zlen data =? 2 + capacity)
    then text ("codec: classic STRING capacity requires " +:+ dec (2 + capacity)
               +:+ " bytes, got " +:+ dec (zlen data))
    else if length >? capacity then text "codec: classic STRING length exceeds capacity"
    else slice data 2 (2 + length).

(** [for index := from; index < len(destination); index++ { destination[index] = 0 }] *)
Fixpoint clearFrom (fuel : nat) (destination : list Z) (idx : Z) : result (list Z) :=
  if idx <? zlen destination then
    match fuel with
    | O => Panic
    | S fuel => d ← store destination idx 0; clearFrom fuel d (idx + 1)
    end
  else Ok destination.

Definition EncodeClassicString (destination : list Z) (capacity : Z) (value : list Z)
    (clearUnused : bool) : result (list Z) :=
  if capacity >? 254 then text "codec: classic STRING capacity exceeds 254"
  else if negb (zlen destination =? 2 + capacity)
  then text ("codec: classic STRING capacity requires " +:+ dec (2 + capacity)
             +:+ " bytes, got " +:+ dec (zlen destination))
  else if zlen value >? capacity then text "codec: classic STRING value exceeds capacity"
  else
    d ← store destination 0 capacity;
    d ← store d 1 (u8 (zlen value));
    let d := copy_at d 2 value in
    if clearUnused then clearFrom (length d) d (2 + zlen value) else Ok d.

(** ** Counter and S5TIME (BCD) *)

Definition bcdHundreds (raw : Z) : Z := Z.land (Z.shiftr raw 8) 0x0f.
Definition bcdTens (raw : Z) : Z := Z.land (Z.shiftr raw 4) 0x0f.
Definition bcdOnes (raw : Z) : Z := Z.land raw 0x0f.

Definition DecodeCounter (raw : Z) : result Z :=
  if negb (Z.land raw 0xf000 =? 0) then text "codec: counter reserved bits are non-zero"
  else if (bcdHundreds raw >? 9) || (bcdTens raw >? 9) || (bcdOnes raw >? 9)
  then text "codec: counter contains invalid BCD"
  else Ok (bcdHundreds raw * 100 + bcdTens raw * 10 + bcdOnes raw).

(** [uint16(v/100)<<8 | uint16((v/10)%10)<<4 | uint16(v%10)]; Go's division
    and remainder truncate toward zero. *)
Definition bcd (value : Z) : Z :=
  Z.lor (Z.lor (u16 (Z.shiftl (u16 (Z.quot value 100)) 8))
               (u16 (Z.shiftl (u16 (Z.rem (Z.quot value 10) 10)) 4)))
        (u16 (Z.rem value 10)).

Definition EncodeCounter (value : Z) : result Z :=
  if (value <? 0) || (value >? 999) then text "codec: counter value must be between 0 and 999"
  else Ok (bcd value).

(** [time.Duration]s in nanoseconds. *)
Definition Millisecond : Z := 1000000.
Definition Second : Z := 1000 * Millisecond.
(** The [bases] of DecodeS5Time, and those of EncodeS5Time. *)
Definition decodeBases : list Z := [10 * Millisecond; 100 * Millisecond; Second; 10 * Second].
Definition encodeBases : list Z := [10 * Millisecond; 100 * Millisecond; Second; 10 * Second].

Definition DecodeS5Time (raw : Z) : result Z :=
  if negb (Z.land raw 0xc000 =? 0) then text "codec: S5TIME reserved bits are non-zero"
  else if (bcdHundreds raw >? 9) || (bcdTens raw >? 9) || (bcdOnes raw >? 9)
  then text "codec: S5TIME contains invalid BCD"
  else
    let value := bcdHundreds raw * 100 + bcdTens raw * 10 + bcdOnes raw in
    base ← index decodeBases (Z.land (Z.shiftr raw 12) 0x03);
    Ok (value * base).

(** [for index, base := range bases] *)
Fixpoint encodeS5From (value index : Z) (bases : list Z) : result Z :=
  match bases with
  | [] => text "codec: S5TIME value is not exactly representable"
  | base :: bases =>
      if negb (Z.rem value base =? 0) then encodeS5From value (index + 1) bases
      else
        let count := Z.quot value base in
        if count >? 999 then encodeS5From value (index + 1) bases
        else Ok (Z.lor (u16 (Z.shiftl (u16 index) 12)) (bcd count))
  end.

Definition EncodeS5Time (value : Z) : result Z :=
  if value <? 0 then text "codec: S5TIME cannot be negative"
  else encodeS5From value 0 encodeBases.

Example s5_100ms : EncodeS5Time (100 * Millisecond) = Ok 0x0010.
Proof. reflexivity. Qed.
Example s5_9990s : EncodeS5Time (9990 * Second) = Ok 0x3999.
Proof. reflexivity. Qed.
Example counter_123 : EncodeCounter 123 = Ok 0x0123.
Proof. reflexivity. Qed.

(** ** Scalar round trips *)

(** What every exact-width scalar codec promises: encoding then decoding is
    the identity on the value type, decoding then encoding is the identity on
    byte strings of the right length, and any other length is an error. *)
Class RoundTrips {A} (width : Z) (dom : A → Prop) (get : list Z → result A)
    (put : list Z → A → result (list Z)) : Prop := {
  rt_put_get dest v : zlen dest = width → dom v →
    ∃ data, put dest v = Ok data ∧ zlen data = width ∧ bytes data ∧ get data = Ok v;
  rt_get_put dest data : zlen dest = width → zlen data = width → bytes data →
    ∃ v, get data = Ok v ∧ dom v ∧ put dest v = Ok data;
  rt_get_length data : zlen data ≠ width → ∃ e, get data = Err e;
  rt_put_length dest v : zlen dest ≠ width → ∃ e, put dest v = Err e;
}.

Definition unsigned_range (w x : Z) : Prop := 0 ≤ x < 2 ^ w.
Definition signed_range (w x : Z) : Prop := - 2 ^ (w - 1) ≤ x < 2 ^ (w - 1).

Lemma pow_split w : 0 < w → 2 ^ w = 2 * 2 ^ (w - 1).
Proof. intros. rewrite <-Z.pow_succ_r by lia. f_equal. lia. Qed.

Lemma signed_of_wrap w x : 0 < w → signed_range w x → signed w (x mod 2 ^ w) = x.
Proof.
  intros Hw Hx. unfold signed, signed_range in *. rewrite Z.mod_mod by lia.
  rewrite (pow_split w) in * by done.
  pose proof (Z.pow_pos_nonneg 2 (w - 1)). destruct (decide (0 ≤ x)).
  - rewrite Z.mod_small by lia. case_if; lia.
  - assert (x mod (2 * 2 ^ (w - 1)) = x + 2 * 2 ^ (w - 1)) as ->.
    { symmetry. apply (Z.mod_unique_pos _ _ (-1)); lia. }
    case_if; lia.
Qed.

Lemma wrap_of_signed w x : 0 < w → unsigned_range w x → signed w x mod 2 ^ w = x.
Proof.
  intros Hw Hx. unfold signed, unsigned_range in *. rewrite !(Z.mod_small x) by done. case_if.
  - by apply Z.mod_small.
  - symmetry. apply (Z.mod_unique_pos _ _ (-1)); lia.
Qed.

Lemma signed_in_range w x : 0 < w → unsigned_range w x → signed_range w (signed w x).
Proof.
  intros Hw Hx. unfold signed, unsigned_range, signed_range in *. rewrite !(Z.mod_small x) by done.
  pose proof (pow_split w Hw). case_if; lia.
Qed.

Lemma exact_spec data n name :
  exact data n name = Ok tt ∧ zlen data = n ∨ (∃ e, exact data n name = Err e) ∧ zlen data ≠ n.
Proof.
  unfold exact. destruct (zlen data =? n) eqn:Hn; cbn [negb].
  - left. split; [done|lia].
  - right. split; [by eexists|lia].
Qed.

Lemma be_round_trips (n : nat) name :
  RoundTrips (Z.of_nat n) (unsigned_range (8 * Z.of_nat n))
    (λ data, _ ← exact data (Z.of_nat n) name; get_be n data)
    (λ dest v, _ ← exact dest (Z.of_nat n) name; put_be n dest v).
Proof.
  assert (∀ dest v, zlen dest = Z.of_nat n → put_be n dest v = Ok (be_split n v)) as Hput.
  { intros dest v Hd. unfold put_be. case_if; [lia|]. f_equal.
    apply copy_at_full. by rewrite zlen_be_split. }
  assert (∀ data, zlen data = Z.of_nat n → get_be n data = Ok (be_combine data)) as Hget.
  { intros data Hd. unfold get_be. rewrite slice_Ok by lia. cbn [mbind outcome_bind].
    rewrite <-Hd, sub_full by lia. done. }
  split.
  - intros dest v Hd Hv. destruct (exact_spec dest (Z.of_nat n) name) as [[-> _]|[_ ?]]; [|done].
    cbn [mbind outcome_bind]. rewrite Hput by done. eexists. split; [done|].
    rewrite zlen_be_split. split; [done|]. split; [apply bytes_be_split|].
    destruct (exact_spec (be_split n v) (Z.of_nat n) name) as [[-> _]|[_ ?]];
      [|by rewrite zlen_be_split in *].
    cbn [mbind outcome_bind]. rewrite Hget by apply zlen_be_split.
    by rewrite be_combine_split, Z.mod_small.
  - intros dest data Hd Hl Hb.
    destruct (exact_spec dest (Z.of_nat n) name) as [[-> _]|[_ ?]]; [|done].
    destruct (exact_spec data (Z.of_nat n) name) as [[-> _]|[_ ?]]; [|done].
    cbn [mbind outcome_bind]. rewrite Hget by done. eexists. split; [done|].
    split; [unfold unsigned_range; rewrite <-Hl; by apply be_combine_range|].
    rewrite Hput by done. f_equal.
    replace n with (length data) by (unfold zlen in Hl; lia). by apply be_split_combine.
  - intros data Hl. destruct (exact_spec data (Z.of_nat n) name) as [[_ ?]|[[e ->] _]]; [done|].
    by exists e.
  - intros data v Hl. destruct (exact_spec data (Z.of_nat n) name) as [[_ ?]|[[e ->] _]]; [done|].
    by exists e.
Qed.

(** Codecs that reinterpret the value of another one. *)
Lemma map_round_trips {A B} width (dom : A → Prop) (dom' : B → Prop) get put
    (f : A → B) (g : B → A) :
  RoundTrips width dom get put →
  (∀ x, dom x → dom' (f x) ∧ g (f x) = x) → (∀ y, dom' y → dom (g y) ∧ f (g y) = y) →
  RoundTrips width dom' (λ data, v ← get data; Ok (f v)) (λ dest v, put dest (g v)).
Proof.
  intros [Hpg Hgp Hgl Hpl] Hf Hg. split; cbv beta.
  - intros dest v Hd Hv. destruct (Hg v Hv) as [Hgv Hfg].
    destruct (Hpg dest (g v) Hd Hgv) as (data & Hp & ? & ? & Hgd).
    exists data. split_and!; [done..|]. rewrite Hgd. cbn [mbind outcome_bind]. by rewrite Hfg.
  - intros dest data Hd Hl Hb. destruct (Hgp dest data Hd Hl Hb) as (v & Hgd & Hv & Hp).
    destruct (Hf v Hv) as [? Hgf]. exists (f v). rewrite Hgd, Hgf. done.
  - intros data Hl. destruct (Hgl data Hl) as [e ->]. by exists e.
  - intros dest v Hl. apply Hpl, Hl.
Qed.

Section scalar_instances.
Local Ltac unsigned n := apply (be_round_trips n).
Local Ltac reinterpret w inst :=
  apply (map_round_trips _ _ (signed_range w) _ _ (signed w) (λ v, v mod 2 ^ w) inst);
  intros x Hx; split;
  [ by apply signed_in_range | by apply wrap_of_signed
  | apply Z.mod_pos_bound; lia | by apply signed_of_wrap ].

#[export] Instance Uint16_rt : RoundTrips 2 (unsigned_range 16) Uint16 PutUint16.
Proof. unsigned 2%nat. Qed.
#[export] Instance Uint32_rt : RoundTrips 4 (unsigned_range 32) Uint32 PutUint32.
Proof. unsigned 4%nat. Qed.
#[export] Instance Uint64_rt : RoundTrips 8 (unsigned_range 64) Uint64 PutUint64.
Proof. unsigned 8%nat. Qed.
#[export] Instance Int16_rt : RoundTrips 2 (signed_range 16) Int16 PutInt16.
Proof. reinterpret 16 Uint16_rt. Qed.
#[export] Instance Int32_rt : RoundTrips 4 (signed_range 32) Int32 PutInt32.
Proof. reinterpret 32 Uint32_rt. Qed.
#[export] Instance Int64_rt : RoundTrips 8 (signed_range 64) Int64 PutInt64.
Proof. reinterpret 64 Uint64_rt. Qed.
#[export] Instance Uint8_rt : RoundTrips 1 (unsigned_range 8) Uint8 PutUint8.
Proof.
  split.
  - intros dest v Hd Hv. explode dest 1%nat. destruct dest; [|exfalso; zlia].
    exists [v]. split_and!; [done..| |done]. repeat constructor; apply Hv.
  - intros dest data Hd Hl Hb. explode dest 1%nat. destruct dest; [|exfalso; zlia].
    explode data 1%nat. destruct data; [|exfalso; zlia].
    rewrite Forall_cons in Hb. destruct Hb as [Hb _]. by eexists.
  - intros data Hl. unfold Uint8.
    destruct (exact_spec data 1 "uint8") as [[_ ?]|[[e ->] _]]; [done|by exists e].
  - intros data v Hl. unfold PutUint8.
    destruct (exact_spec data 1 "uint8") as [[_ ?]|[[e ->] _]]; [done|by exists e].
Qed.
#[export] Instance Int8_rt : RoundTrips 1 (signed_range 8) Int8 PutInt8.
Proof.
  split.
  - intros dest v Hd Hv. explode dest 1%nat. destruct dest; [|exfalso; zlia].
    exists [u8 v]. split_and!; [done..| |].
    + repeat constructor; apply u8_range.
    + change (Ok (E:=error) (signed 8 (v mod 2 ^ 8)) = Ok v). by rewrite signed_of_wrap.
  - intros dest data Hd Hl Hb. explode dest 1%nat. destruct dest; [|exfalso; zlia].
    explode data 1%nat. destruct data; [|exfalso; zlia].
    rewrite Forall_cons in Hb. destruct Hb as [Hb _]. exists (signed 8 b0).
    split_and!; [done|by apply signed_in_range|].
    change (Ok (E:=error) [signed 8 b0 mod 2 ^ 8] = Ok [b0]). by rewrite wrap_of_signed.
  - intros data Hl. unfold Int8.
    destruct (exact_spec data 1 "int8") as [[_ ?]|[[e ->] _]]; [done|by exists e].
  - intros data v Hl. unfold PutInt8.
    destruct (exact_spec data 1 "int8") as [[_ ?]|[[e ->] _]]; [done|by exists e].
Qed.
#[export] Instance Float32_rt :
  RoundTrips 4 (λ f, unsigned_range 32 (Float32bits f)) Float32 PutFloat32.
Proof.
  apply (map_round_trips _ _ (λ f, unsigned_range 32 (Float32bits f)) _ _
           Float32frombits Float32bits Uint32_rt); [done|by intros [b] ?].
Qed.
#[export] Instance Float64_rt :
  RoundTrips 8 (λ f, unsigned_range 64 (Float64bits f)) Float64 PutFloat64.
Proof.
  apply (map_round_trips _ _ (λ f, unsigned_range 64 (Float64bits f)) _ _
           Float64frombits Float64bits Uint64_rt); [done|by intros [b] ?].
Qed.
End scalar_instances.

(** C37. All ten exact-width scalar codecs round trip. *)
Theorem scalar_codecs_round_trip :
  RoundTrips 1 (unsigned_range 8) Uint8 PutUint8 ∧
  RoundTrips 1 (signed_range 8) Int8 PutInt8 ∧
  RoundTrips 2 (unsigned_range 16) Uint16 PutUint16 ∧
  RoundTrips 2 (signed_range 16) Int16 PutInt16 ∧
  RoundTrips 4 (unsigned_range 32) Uint32 PutUint32 ∧
  RoundTrips 4 (signed_range 32) Int32 PutInt32 ∧
  RoundTrips 8 (unsigned_range 64) Uint64 PutUint64 ∧
  RoundTrips 8 (signed_range 64) Int64 PutInt64 ∧
  RoundTrips 4 (λ f, unsigned_range 32 (Float32bits f)) Float32 PutFloat32 ∧
  RoundTrips 8 (λ f, unsigned_range 64 (Float64bits f)) Float64 PutFloat64.
Proof. split_and!; apply _. Qed.

(** ** Single bits *)

Lemma testbit_land b n : 0 ≤ n → negb (Z.land b (Z.shiftl 1 n) =? 0) = Z.testbit b n.
Proof.
  intros Hn. rewrite Z.shiftl_1_l. destruct (Z.testbit b n) eqn:Ht.
  - apply negb_true_iff, Z.eqb_neq. intros H0.
    assert (Z.testbit (Z.land b (2 ^ n)) n = false) as H1 by by rewrite H0, Z.bits_0.
    by rewrite Z.land_spec, Ht, Z.pow2_bits_true in H1 by lia.
  - apply negb_false_iff, Z.eqb_eq, Z.bits_inj'. intros m Hm.
    rewrite Z.land_spec, Z.bits_0. destruct (decide (m = n)) as [->|]; [by rewrite Ht|].
    by rewrite Z.pow2_bits_false, andb_false_r by lia.
Qed.

Lemma Bit_testbit data off : 0 ≤ off → off / 8 < zlen data →
  Bit data off = Ok (Z.testbit (byte_at data (off / 8)) (off mod 8)).
Proof.
  intros. unfold Bit. case_if; [lia|].
  pose proof (Z.div_pos off 8). pose proof (Z.mod_pos_bound off 8).
  rewrite index_Ok by lia. cbn [mbind outcome_bind]. by rewrite testbit_land by lia.
Qed.

Lemma bit_mask_range b k : is_u8 b → 0 ≤ k < 8 →
  is_u8 (Z.lor b (2 ^ k)) ∧ is_u8 (Z.ldiff b (2 ^ k)).
Proof.
  intros Hb Hk. unfold is_u8 in *.
  assert (forallb (λ b, forallb (λ k, (0 <=? Z.lor b (2 ^ k)) && (Z.lor b (2 ^ k) <? 256)
      && (0 <=? Z.ldiff b (2 ^ k)) && (Z.ldiff b (2 ^ k) <? 256)) (seqZ 0 8)) (seqZ 0 256) = true)
    as Hall by (vm_compute; reflexivity).
  rewrite forallb_forall in Hall.
  specialize (Hall b ltac:(apply list_elem_of_In, elem_of_seqZ; lia)).
  rewrite forallb_forall in Hall.
  specialize (Hall k ltac:(apply list_elem_of_In, elem_of_seqZ; lia)). lia.
Qed.

(** The byte SetBit writes. *)
Definition set_bit_byte (b k : Z) (value : bool) : Z :=
  if value then Z.lor b (2 ^ k) else Z.ldiff b (2 ^ k).

Lemma set_bit_byte_testbit b k value j : 0 ≤ k → 0 ≤ j →
  Z.testbit (set_bit_byte b k value) j = if decide (j = k) then value else Z.testbit b j.
Proof.
  intros. unfold set_bit_byte. destruct value; rewrite ?Z.lor_spec, ?Z.ldiff_spec, Z.pow2_bits_eqb by done;
    case_decide; subst; rewrite ?Z.eqb_refl, ?orb_true_r, ?andb_false_r; try done;
    rewrite (proj2 (Z.eqb_neq _ _)) by lia; by rewrite ?orb_false_r, ?andb_true_r.
Qed.

Lemma SetBit_value data off value : 0 ≤ off → off / 8 < zlen data →
  SetBit data off value =
  Ok (<[Z.to_nat (off / 8) := set_bit_byte (byte_at data (off / 8)) (off mod 8) value]> data).
Proof.
  intros Ho Hl. unfold SetBit. case_if; [lia|].
  pose proof (Z.div_pos off 8). pose proof (Z.mod_pos_bound off 8).
  rewrite index_Ok by lia. cbn [mbind outcome_bind].
  rewrite Z.shiftl_1_l, u8_id.
  - unfold set_bit_byte. destruct value; by rewrite store_Ok by lia.
  - unfold is_u8. split; [apply Z.pow_nonneg; lia|].
    change 256 with (2 ^ 8). apply Z.pow_lt_mono_r; lia.
Qed.

(** SetBit changes the addressed bit and no other one; it fails exactly
    when the bit is outside the buffer. *)
Theorem SetBit_correct data off value :
  is_u32 off → bytes data →
  match SetBit data off value with
  | Ok data' =>
      off / 8 < zlen data ∧ zlen data' = zlen data ∧ bytes data' ∧
      Bit data' off = Ok value ∧
      ∀ off', is_u32 off' → off' ≠ off → Bit data' off' = Bit data off'
  | Err _ => zlen data ≤ off / 8
  | Panic => False
  end.
Proof.
  intros Ho Hb. unfold is_u32 in *. pose proof (Z.div_pos off 8). pose proof (Z.mod_pos_bound off 8).
  destruct (decide (off / 8 < zlen data)) as [Hl|Hl].
  2: { unfold SetBit. case_if; [cbn; lia|lia]. }
  rewrite SetBit_value by lia. rewrite zlen_insert.
  assert (∀ o, 0 ≤ o → o / 8 < zlen data →
    Bit (<[Z.to_nat (off / 8):=set_bit_byte (byte_at data (off / 8)) (off mod 8) value]> data) o
    = Ok (if decide (o = off) then value else Z.testbit (byte_at data (o / 8)) (o mod 8))) as Hbit.
  { intros o Hpos Hlt. rewrite Bit_testbit by (rewrite ?zlen_insert; lia).
    pose proof (Z.div_pos o 8). pose proof (Z.mod_pos_bound o 8).
    rewrite byte_at_insert by lia. f_equal. destruct (decide (o / 8 = off / 8)) as [Heq|].
    - rewrite set_bit_byte_testbit by lia. rewrite Heq.
      destruct (decide (o mod 8 = off mod 8)); destruct (decide (o = off)); try done; exfalso;
        [pose proof (Z.div_mod o 8); pose proof (Z.div_mod off 8)|]; subst; lia.
    - rewrite decide_False; [done|]. intros ->. done. }
  split_and!; [done..| | |].
  - apply bytes_insert; [done|].
    destruct (bit_mask_range (byte_at data (off / 8)) (off mod 8)); [by apply byte_at_range|lia|].
    by destruct value.
  - rewrite Hbit by lia. by rewrite decide_True.
  - intros off' Ho' Hne. destruct (decide (off' / 8 < zlen data)).
    + rewrite Hbit, Bit_testbit by lia. by rewrite decide_False.
    + unfold Bit. rewrite zlen_insert. by case_if; [|lia].
Qed.

(** ** Classic STRING *)

Lemma clearFrom_value fuel l i : 0 ≤ i ≤ zlen l → zlen l - i ≤ Z.of_nat fuel →
  clearFrom fuel l i = Ok (take (Z.to_nat i) l ++ make (zlen l - i)).
Proof.
  revert l i. induction fuel as [|fuel IH]; intros l i Hi Hf; cbn [clearFrom].
  - case_if; [lia|]. replace i with (zlen l) by lia. unfold zlen at 1.
    by rewrite Nat2Z.id, firstn_all, Z.sub_diag, app_nil_r.
  - case_if.
    + rewrite store_Ok by lia. cbn [mbind outcome_bind]. rewrite IH by (rewrite zlen_insert; lia).
      f_equal. rewrite zlen_insert.
      replace (Z.to_nat (i + 1)) with (S (Z.to_nat i)) by lia.
      replace (zlen l - i) with (1 + (zlen l - (i + 1))) by lia.
      rewrite make_app by lia. rewrite app_assoc. f_equal.
      assert (Z.to_nat i < length l)%nat by (unfold zlen in *; lia).
      rewrite (take_S_r _ _ 0) by (apply list_lookup_insert_eq; lia).
      by rewrite take_insert_ge by lia.
    + replace i with (zlen l) by lia. unfold zlen at 1.
      by rewrite Nat2Z.id, firstn_all, Z.sub_diag, app_nil_r.
Qed.

(** What a successful [EncodeClassicString] leaves in the buffer: header,
    value, then either zeroes or the bytes that were there. *)
Definition classic_string (destination : list Z) (capacity : Z) (value : list Z)
    (clearUnused : bool) : list Z :=
  [capacity; zlen value] ++ value ++
  (if clearUnused then make (capacity - zlen value) else drop (2 + length value) destination).

Lemma EncodeClassicString_value dest capacity value clear :
  0 ≤ capacity ≤ 254 → zlen dest = 2 + capacity → zlen value ≤ capacity →
  EncodeClassicString dest capacity value clear = Ok (classic_string dest capacity value clear).
Proof.
  intros Hc Hd Hv. unfold EncodeClassicString. zlen_pos.
  do 3 (case_if; [lia|]). rewrite store_Ok by lia. cbn [mbind outcome_bind].
  rewrite store_Ok by (rewrite zlen_insert; lia). cbn [mbind outcome_bind].
  rewrite u8_id by (unfold is_u8; lia).
  explode dest 2%nat.
  rewrite !zlen_cons in Hd.
  rewrite <-(take_drop (length value) dest).
  set (l := take (length value) dest). set (m := drop (length value) dest).
  assert (zlen l = zlen value) as Hl by (unfold l, zlen in *; rewrite length_take; lia).
  change (<[Z.to_nat 1:=zlen value]> (<[Z.to_nat 0:=capacity]> (b :: b0 :: l ++ m)))
    with ([capacity; zlen value] ++ l ++ m).
  rewrite (copy_at_app [capacity; zlen value] l m value 2) by done.
  assert (zlen m = capacity - zlen value) as Hm.
  { unfold m, zlen in *. rewrite length_drop. lia. }
  unfold classic_string. destruct clear.
  - assert (zlen ([capacity; zlen value] ++ value ++ m) = 2 + capacity) as Hz.
    { rewrite !zlen_app, !zlen_cons, zlen_nil. lia. }
    rewrite clearFrom_value by (unfold zlen in *; lia).
    f_equal. rewrite !zlen_app, !zlen_cons, zlen_nil.
    replace (1 + (1 + 0) + (zlen value + zlen m) - (2 + zlen value)) with (capacity - zlen value)
      by lia.
    rewrite app_assoc, take_app_length'; [by rewrite <-app_assoc|].
    rewrite length_app. unfold zlen. cbn. lia.
  - do 3 f_equal. cbn [Nat.add drop]. unfold m, l. by rewrite take_drop.
Qed.

(** C38. EncodeClassicString succeeds exactly on a buffer of capacity + 2 bytes,
    a capacity of at most 254 and a value that fits; it then writes the whole
    buffer as specified, and decoding gives the value back without loss. *)
Theorem EncodeClassicString_correct dest capacity value clear :
  is_u8 capacity → bytes value →
  match EncodeClassicString dest capacity value clear with
  | Ok data =>
      capacity ≤ 254 ∧ zlen dest = 2 + capacity ∧ zlen value ≤ capacity ∧
      data = classic_string dest capacity value clear ∧ zlen data = zlen dest ∧
      DecodeClassicString data = Ok value
  | Err _ => 254 < capacity ∨ zlen dest ≠ 2 + capacity ∨ capacity < zlen value
  | Panic => False
  end.
Proof.
  intros Hc Hv. unfold is_u8 in Hc. zlen_pos.
  destruct (decide (capacity ≤ 254 ∧ zlen dest = 2 + capacity ∧ zlen value ≤ capacity)) as [(?&?&?)|Hn].
  - rewrite EncodeClassicString_value by lia. split_and!; [done..| |].
    + unfold classic_string. rewrite !zlen_app, !zlen_cons, zlen_nil. destruct clear.
      * rewrite zlen_make by lia. lia.
      * unfold zlen in *. rewrite length_drop. lia.
    + set (tail := if clear then make (capacity - zlen value) else drop (2 + length value) dest).
      assert (zlen tail = capacity - zlen value) as Ht.
      { unfold tail. destruct clear; [by rewrite zlen_make by lia|].
        unfold zlen in *. rewrite length_drop. lia. }
      change (classic_string dest capacity value clear) with ([capacity; zlen value] ++ value ++ tail).
      unfold DecodeClassicString. rewrite !zlen_app, !zlen_cons, zlen_nil.
      case_if; [lia|]. rewrite !index_Ok by (autorewrite with zlen; lia).
      cbn [mbind outcome_bind].
      change (byte_at _ 0) with capacity. change (byte_at _ 1) with (zlen value).
      do 3 (case_if; [lia|]). rewrite slice_Ok by (autorewrite with zlen; lia).
      by rewrite sub_app_mid.
  - unfold EncodeClassicString. do 3 (case_if; [cbn; lia|]). lia.
Qed.

(** DecodeClassicString accepts exactly the well-formed STRINGs, and
    returns the bytes between the header and the stated length. *)
Theorem DecodeClassicString_exact data :
  bytes data →
  match DecodeClassicString data with
  | Ok value =>
      ∃ capacity rest, data = [capacity; zlen value] ++ value ++ rest ∧
        capacity ≤ 254 ∧ zlen value + zlen rest = capacity
  | Err _ =>
      ∀ capacity value rest, data = [capacity; zlen value] ++ value ++ rest →
        capacity ≤ 254 → zlen value + zlen rest = capacity → False
  | Panic => False
  end.
Proof.
  intros Hb. unfold DecodeClassicString. zlen_pos. case_if.
  { intros c v r -> _ _. zlia. }
  explode data 2%nat. rewrite !index_Ok by zlia. cbn [mbind outcome_bind].
  change (byte_at _ 0) with b. change (byte_at _ 1) with b0.
  rewrite !zlen_cons in *. rewrite !Forall_cons in Hb. destruct Hb as (Hb & Hb0 & _).
  unfold is_u8 in *.
  do 3 (case_if; [intros c v r [= -> -> ->] ? ?; zlia|]).
  rewrite slice_Ok by (rewrite ?zlen_cons; lia).
  unfold sub. replace (2 + b0 - 2) with b0 by lia. change (drop _ _) with data.
  exists b, (drop (Z.to_nat b0) data). cbn [app].
  rewrite zlen_take by lia. rewrite zlen_drop by lia. rewrite Z2Nat.id by lia.
  rewrite take_drop. split_and!; [done|lia|lia].
Qed.

(** ** Counters and S5TIME *)

(** A boolean property checked on [k .. k + n - 1] holds there. *)
Fixpoint check_from (f : Z → bool) (k : Z) (n : nat) : bool :=
  match n with
  | O => true
  | S n => f k && check_from f (k + 1) n
  end.

Lemma check_below (f : Z → bool) n :
  check_from f 0 (Z.to_nat n) = true → ∀ x, 0 ≤ x < n → f x = true.
Proof.
  assert (∀ m k, check_from f k m = true → ∀ x, k ≤ x < k + Z.of_nat m → f x = true) as H.
  { induction m as [|m IH]; intros k Hf x Hx; [lia|]. cbn [check_from] in Hf.
    apply andb_true_iff in Hf as [Hk Hf]. destruct (decide (x = k)) as [->|]; [done|].
    apply (IH _ Hf). lia. }
  intros Hf x Hx. apply (H _ _ Hf). lia.
Qed.

Definition ok_eqb (r : result Z) (x : Z) : bool :=
  match r with Ok y => y =? x | _ => false end.
Lemma ok_eqb_true r x : ok_eqb r x = true → r = Ok x.
Proof. destruct r; cbn; [|done..]. intros ?%Z.eqb_eq. by subst. Qed.

Definition counter_encode_ok (v : Z) : bool :=
  match EncodeCounter v with
  | Ok raw => (0 <=? raw) && (raw <? 65536) && ok_eqb (DecodeCounter raw) v
  | _ => false
  end.
Definition counter_decode_ok (raw : Z) : bool :=
  match DecodeCounter raw with
  | Ok v => (0 <=? v) && (v <=? 999) && ok_eqb (EncodeCounter v) raw
  | Err _ => true
  | Panic => false
  end.

(** Counters: encoding is defined exactly on 0..999, and encoder and
    decoder are the two directions of one correspondence: [raw] encodes [v] iff
    [raw] decodes to [v], so every other word is rejected by the decoder. *)
Theorem counter_codec :
  (∀ v, (∃ raw, EncodeCounter v = Ok raw) ↔ 0 ≤ v ≤ 999) ∧
  (∀ v raw, is_u16 raw → EncodeCounter v = Ok raw ↔ DecodeCounter raw = Ok v) ∧
  (∀ v raw, EncodeCounter v = Ok raw → is_u16 raw) ∧
  (∀ raw, is_u16 raw → DecodeCounter raw ≠ Panic).
Proof.
  assert (∀ v, 0 ≤ v < 1000 → counter_encode_ok v = true) as Henc
    by (apply (check_below counter_encode_ok 1000); vm_compute; reflexivity).
  assert (∀ raw, 0 ≤ raw < 65536 → counter_decode_ok raw = true) as Hdec
    by (apply (check_below counter_decode_ok 65536); vm_compute; reflexivity).
  assert (∀ v, (∃ raw, EncodeCounter v = Ok raw) ↔ 0 ≤ v ≤ 999) as Hdom.
  { intros v. unfold EncodeCounter. split; [intros [raw H]; inv_if H; lia|].
    intros Hv. case_if; [lia|]. by eexists. }
  assert (∀ v raw, EncodeCounter v = Ok raw → is_u16 raw ∧ DecodeCounter raw = Ok v) as Hfw.
  { intros v raw H. assert (0 ≤ v ≤ 999) as Hv by (apply Hdom; by exists raw).
    specialize (Henc v ltac:(lia)). unfold counter_encode_ok in Henc. rewrite H in Henc.
    apply andb_true_iff in Henc as [Hr Hd]. apply ok_eqb_true in Hd.
    split; [unfold is_u16; lia|done]. }
  split_and!; [done| |by intros v raw H; apply (Hfw v raw H)|].
  - intros v raw Hraw. split; [intros H; apply (Hfw v raw H)|]. intros H. specialize (Hdec raw Hraw).
    unfold counter_decode_ok in Hdec. rewrite H in Hdec.
    apply andb_true_iff in Hdec as [_ Hd]. by apply ok_eqb_true.
  - intros raw Hraw H. specialize (Hdec raw Hraw). unfold counter_decode_ok in Hdec.
    by rewrite H in Hdec.
Qed.

(** The duration of base [i] of the S5TIME format. *)
Definition s5_base (i : Z) : Z := 10 * Millisecond * 10 ^ i.

Definition s5_word_ok (i c : Z) : bool :=
  let raw := Z.lor (u16 (Z.shiftl (u16 i) 12)) (bcd c) in
  (0 <=? raw) && (raw <? 65536) && (Z.shiftr raw 12 =? i) &&
  ok_eqb (DecodeS5Time raw) (c * s5_base i).
Definition s5_decode_ok (raw : Z) : bool :=
  match DecodeS5Time raw with
  | Ok v =>
      let i := Z.shiftr raw 12 in
      (0 <=? i) && (i <? 4) && (v mod s5_base i =? 0) && (0 <=? v) && (v / s5_base i <=? 999)
  | Err _ => true
  | Panic => false
  end.

Lemma s5_word i c : 0 ≤ i < 4 → 0 ≤ c ≤ 999 →
  let raw := Z.lor (u16 (Z.shiftl (u16 i) 12)) (bcd c) in
  is_u16 raw ∧ Z.shiftr raw 12 = i ∧ DecodeS5Time raw = Ok (c * s5_base i).
Proof.
  intros Hi Hc raw.
  assert (∀ i, 0 ≤ i < 4 → check_from (s5_word_ok i) 0 1000 = true) as H
    by (apply (check_below (λ i, check_from (s5_word_ok i) 0 1000) 4); vm_compute; reflexivity).
  pose proof (check_below _ 1000 (H i Hi) c ltac:(lia)) as Hw. unfold s5_word_ok in Hw.
  fold raw in Hw. apply andb_true_iff in Hw as [Hr Hd]. apply ok_eqb_true in Hd.
  unfold is_u16. split_and!; [lia..|done].
Qed.

Lemma s5_decode raw : is_u16 raw →
  DecodeS5Time raw ≠ Panic ∧
  ∀ v, DecodeS5Time raw = Ok v →
    0 ≤ Z.shiftr raw 12 < 4 ∧ 0 ≤ v ∧ v mod s5_base (Z.shiftr raw 12) = 0 ∧
    v / s5_base (Z.shiftr raw 12) ≤ 999.
Proof.
  intros Hraw. assert (∀ raw, 0 ≤ raw < 65536 → s5_decode_ok raw = true) as H
    by (apply (check_below s5_decode_ok 65536); vm_compute; reflexivity).
  specialize (H raw Hraw). unfold s5_decode_ok in H.
  destruct (DecodeS5Time raw) as [v'| |]; [|done..]. split; [done|].
  intros v [= ->]. lia.
Qed.

(** Base [i] fits the duration: it divides it and the count has 3 digits. *)
Definition s5_fits (v i : Z) : Prop := v mod s5_base i = 0 ∧ v / s5_base i ≤ 999.

Lemma s5_base_pos i : 0 ≤ i < 4 → 0 < s5_base i.
Proof.
  intros Hi. enough ((0 <? s5_base i) = true) by lia.
  revert i Hi. apply (check_below (λ i, 0 <? s5_base i) 4). reflexivity.
Qed.

Lemma encodeS5From_spec v k bases :
  0 ≤ v → (∀ j, 0 ≤ j < zlen bases → byte_at bases j = s5_base (k + j)) →
  0 ≤ k → k + zlen bases ≤ 4 →
  match encodeS5From v k bases with
  | Ok raw => ∃ i c, k ≤ i < k + zlen bases ∧ 0 ≤ c ≤ 999 ∧ v = c * s5_base i ∧
      raw = Z.lor (u16 (Z.shiftl (u16 i) 12)) (bcd c) ∧ ∀ j, k ≤ j < i → ¬ s5_fits v j
  | Err _ => ∀ j, k ≤ j < k + zlen bases → ¬ s5_fits v j
  | Panic => False
  end.
Proof.
  intros Hv. revert k. induction bases as [|base bases IH]; intros k Hb Hk Hl;
    cbn [encodeS5From]; [rewrite zlen_nil; cbn; intros; lia|].
  rewrite zlen_cons in *. zlen_pos.
  pose proof (Hb 0 ltac:(lia)) as Hbase. rewrite Z.add_0_r, byte_at_cons_0 in Hbase. subst base.
  assert (∀ j, 0 ≤ j < zlen bases → byte_at bases j = s5_base (k + 1 + j)) as Hb'.
  { intros j Hj. replace (k + 1 + j) with (k + (j + 1)) by lia. rewrite <-(Hb (j + 1)) by lia.
    rewrite byte_at_cons by lia. by replace (j + 1 - 1) with j by lia. }
  specialize (IH (k + 1) Hb' ltac:(lia) ltac:(lia)).
  pose proof (s5_base_pos k ltac:(lia)) as Hpos.
  rewrite Z.rem_mod_nonneg, Z.quot_div_nonneg by lia.
  assert (¬ s5_fits v k →
    match encodeS5From v (k + 1) bases with
    | Ok raw => ∃ i c, k ≤ i < k + (1 + zlen bases) ∧ 0 ≤ c ≤ 999 ∧ v = c * s5_base i ∧
        raw = Z.lor (u16 (Z.shiftl (u16 i) 12)) (bcd c) ∧ ∀ j, k ≤ j < i → ¬ s5_fits v j
    | Err _ => ∀ j, k ≤ j < k + (1 + zlen bases) → ¬ s5_fits v j
    | Panic => False
    end) as Hskip.
  { intros Hn. destruct (encodeS5From v (k + 1) bases) as [raw| |]; [| |done].
    - destruct IH as (i & c & ? & ? & ? & ? & Hj). exists i, c. split_and!; [lia..|done|done|].
      intros j ?. destruct (decide (j = k)) as [->|]; [done|]. apply Hj. lia.
    - intros j ?. destruct (decide (j = k)) as [->|]; [done|]. apply IH. lia. }
  case_if; [apply Hskip; unfold s5_fits; lia|].
  case_if; [apply Hskip; unfold s5_fits; lia|].
  exists k, (v / s5_base k). pose proof (Z.div_pos v (s5_base k)).
  split_and!; [lia..| |done|intros; lia].
  pose proof (Z.div_mod v (s5_base k)). lia.
Qed.

Lemma encode_base j : 0 ≤ j < zlen encodeBases → byte_at encodeBases j = s5_base (0 + j).
Proof.
  intros Hj. apply Z.eqb_eq. revert j Hj.
  apply (check_below (λ j, byte_at encodeBases j =? s5_base (0 + j)) 4). reflexivity.
Qed.

(** C39. EncodeS5Time returns a word that decodes to the duration, with the
    finest base of all such words, and fails exactly when no word does. *)
Theorem EncodeS5Time_correct value :
  match EncodeS5Time value with
  | Ok raw =>
      is_u16 raw ∧ DecodeS5Time raw = Ok value ∧
      ∀ raw', is_u16 raw' → DecodeS5Time raw' = Ok value → Z.shiftr raw 12 ≤ Z.shiftr raw' 12
  | Err _ => ∀ raw, is_u16 raw → DecodeS5Time raw ≠ Ok value
  | Panic => False
  end.
Proof.
  unfold EncodeS5Time. case_if.
  { intros raw Hraw H. destruct (s5_decode raw Hraw) as [_ Hd]. specialize (Hd _ H). lia. }
  pose proof (encodeS5From_spec value 0 encodeBases ltac:(lia)) as H.
  specialize (H encode_base ltac:(lia) ltac:(done)).
  destruct (encodeS5From value 0 encodeBases) as [raw| |]; [| |done].
  - destruct H as (i & c & Hi & Hc & Hv & -> & Hfin). change (zlen encodeBases) with 4 in Hi.
    destruct (s5_word i c ltac:(lia) Hc) as (? & Hsh & Hdec).
    split_and!; [done|by rewrite Hdec, Hv|].
    intros raw' Hraw' Hd. destruct (s5_decode raw' Hraw') as [_ Hs]. apply Hs in Hd.
    rewrite Hsh. destruct (decide (i ≤ Z.shiftr raw' 12)); [done|].
    exfalso. apply (Hfin (Z.shiftr raw' 12)); [lia|]. unfold s5_fits. lia.
  - intros raw Hraw Hd. destruct (s5_decode raw Hraw) as [_ Hs]. apply Hs in Hd.
    apply (H (Z.shiftr raw 12)); [change (zlen encodeBases) with 4; lia|]. unfold s5_fits. lia.
Qed.

(** ** Booleans *)

(** The one-byte boolean codec: [Bool] accepts exactly the bytes 0 and 1,
    [PutBool] produces them, and both insist on a one-byte buffer. *)
Theorem Bool_codec :
  (∀ data v, Bool data = Ok v ↔ data = [Z.b2z v]) ∧
  (∀ dest v data, PutBool dest v = Ok data ↔ zlen dest = 1 ∧ data = [Z.b2z v]) ∧
  (∀ data, returns (Bool data)) ∧ (∀ dest v, returns (PutBool dest v)).
Proof.
  assert (∀ l, zlen l = 1 → ∃ x : Z, l = [x]) as Hone.
  { intros l Hl. explode l 1%nat. destruct l; [by exists b|zlia]. }
  split_and!.
  - intros data v. unfold Bool. destruct (exact_spec data 1 "bool") as [[-> Hl]|[[e ->] Hl]].
    + destruct (Hone _ Hl) as [x ->]. rewrite index_Ok by done. cbn [mbind outcome_bind].
      change (byte_at [x] 0) with x.
      case_if; [assert (x = 0) as -> by lia; destruct v; naive_solver|].
      case_if; [assert (x = 1) as -> by lia; destruct v; naive_solver|].
      split; [done|]. intros [= ->]. by destruct v.
    + split; [done|]. intros ->. done.
  - intros dest v data. unfold PutBool.
    destruct (exact_spec dest 1 "bool") as [[-> Hl]|[[e ->] Hl]]; [|naive_solver].
    destruct (Hone _ Hl) as [x ->]. cbn [mbind outcome_bind]. rewrite store_Ok by done.
    cbn [mbind outcome_bind]. destruct v; cbn; split; [intros [= <-]| |intros [= <-]|]; naive_solver.
  - intros data. unfold Bool. destruct (exact_spec data 1 "bool") as [[-> Hl]|[[e ->] Hl]]; [|done].
    destruct (Hone _ Hl) as [x ->]. rewrite index_Ok by done. cbn [mbind outcome_bind].
    case_if; [done|]. by case_if.
  - intros dest v. unfold PutBool.
    destruct (exact_spec dest 1 "bool") as [[-> Hl]|[[e ->] Hl]]; [|done].
    destruct (Hone _ Hl) as [x ->]. by destruct v.
Qed.

(** ** Concrete instances of the properties *)

Lemma SetBit_correct_witness :
  SetBit [0; 0x10] 9 true = Ok [0; 0x12] ∧ Bit [0; 0x12] 9 = Ok true.
Proof.
  split; [reflexivity|].
  apply (SetBit_correct [0; 0x10] 9 true); concrete.
Defined.

Lemma EncodeClassicString_correct_witness :
  EncodeClassicString [9; 9; 9; 9; 9] 3 [65; 66] true = Ok [3; 2; 65; 66; 0] ∧
  DecodeClassicString [3; 2; 65; 66; 0] = Ok [65; 66].
Proof.
  split; [reflexivity|].
  apply (EncodeClassicString_correct [9; 9; 9; 9; 9] 3 [65; 66] true); concrete.
Defined.

Lemma DecodeClassicString_exact_witness :
  ∃ capacity rest, [3; 2; 65; 66; 0] = [capacity; 2] ++ [65; 66] ++ rest ∧
    capacity ≤ 254 ∧ 2 + zlen rest = capacity.
Proof. apply (DecodeClassicString_exact [3; 2; 65; 66; 0]). concrete. Defined.
