(* ===== verification/GoText.v ===== *)
(** * GoText: the string functions of the Go standard library the client uses

    A Go string is the list of its code points; a byte that is not part of a
    valid UTF-8 sequence [b] is represented by [0x110000 + b], so no two
    strings are confused.  All separators the client looks for are ASCII, so
    byte and code point positions select the same substrings. *)

From S2P Require Import Errors.

(** A Go string literal. *)
Fixpoint str (s : string) : list Z :=
  match s with
  | EmptyString => []
  | String c s => Z.of_N (N_of_ascii c) :: str s
  end.

(** A character literal. *)
Definition chr (s : string) : Z := byte_at (str s) 0.

#[export] Instance text_eq_dec : EqDecision (list Z) := _.

(** [unicode.IsSpace] *)
Definition IsSpace (r : Z) : bool :=
  existsb (Z.eqb r) [9; 10; 11; 12; 13; 32; 0x85; 0xA0; 0x1680; 0x2028; 0x2029; 0x202f; 0x205f; 0x3000]
  || (0x2000 <=? r) && (r <=? 0x200a).

Fixpoint drop_while (p : Z → bool) (s : list Z) : list Z :=
  match s with
  | [] => []
  | c :: rest => if p c then drop_while p rest else s
  end.
Definition trim_right (p : Z → bool) (s : list Z) : list Z := rev (drop_while p (rev s)).
(** [strings.TrimSpace] *)
Definition TrimSpace (s : list Z) : list Z := trim_right IsSpace (drop_while IsSpace s).

(** [unicode.ToUpper]: the only code points outside ASCII it maps into ASCII
    are U+0131 and U+017F.  The others are left as they are: nothing the
    client compares them with is outside ASCII. *)
Definition ToUpper_rune (r : Z) : Z :=
  if (97 <=? r) && (r <=? 122) then r - 32
  else if r =? 0x131 then 0x49
  else if r =? 0x17f then 0x53
  else r.
(** [strings.ToUpper] *)
Definition ToUpper (s : list Z) : list Z := ToUpper_rune <$> s.

(** [strings.IndexByte], [strings.LastIndexByte] ([-1] when absent) *)
Fixpoint index_from (i : Z) (c : Z) (s : list Z) : Z :=
  match s with
  | [] => -1
  | d :: rest => if d =? c then i else index_from (i + 1) c rest
  end.
Definition IndexByte (s : list Z) (c : Z) : Z := index_from 0 c s.
Definition LastIndexByte (s : list Z) (c : Z) : Z :=
  let i := index_from 0 c (rev s) in if i <? 0 then -1 else zlen s - 1 - i.
Definition Contains (s : list Z) (c : Z) : bool := existsb (Z.eqb c) s.
Definition ContainsAny (s chars : list Z) : bool := existsb (λ c, Contains chars c) s.

(** [strings.HasPrefix] and its relatives *)
Fixpoint HasPrefix (s prefix : list Z) : bool :=
  match prefix, s with
  | [], _ => true
  | c :: prefix, d :: s => (c =? d) && HasPrefix s prefix
  | _ :: _, [] => false
  end.
Definition HasSuffix (s suffix : list Z) : bool := HasPrefix (rev s) (rev suffix).
Definition TrimPrefix (s prefix : list Z) : list Z :=
  if HasPrefix s prefix then drop (length prefix) s else s.
Definition TrimSuffix (s suffix : list Z) : list Z :=
  if HasSuffix s suffix then take (length s - length suffix) s else s.

(** ** Decimal numbers *)

Definition is_digit (c : Z) : bool := (48 <=? c) && (c <=? 57).

(** The value of a digit string. *)
Definition digits_value (s : list Z) : Z := foldl (λ n c, n * 10 + (c - 48)) 0 s.

(** [strconv.ParseUint(s, 10, bits)]: digits only, and the value fits. *)
Definition ParseUint (s : list Z) (bits : Z) : option Z :=
  if (zlen s =? 0) || negb (forallb is_digit s) then None
  else if digits_value s <? 2 ^ bits then Some (digits_value s) else None.

(** [strconv.Itoa] and [fmt]'s [%d] on a non-negative number: [fuel] bounds
    the digits and is at least the number's bit length plus one. *)
Fixpoint itoa_fuel (fuel : nat) (n : Z) (acc : list Z) : list Z :=
  match fuel with
  | O => acc
  | S fuel =>
      let acc := 48 + n mod 10 :: acc in
      if n / 10 =? 0 then acc else itoa_fuel fuel (n / 10) acc
  end.
Definition Itoa (n : Z) : list Z := itoa_fuel (S (Z.to_nat (Z.log2 n))) n [].

(** ** Their properties *)

Lemma digits_value_snoc s c : digits_value (s ++ [c]) = digits_value s * 10 + (c - 48).
Proof. unfold digits_value. by rewrite foldl_app. Qed.

Lemma digits_value_acc s : ∀ n,
  foldl (λ n c, n * 10 + (c - 48)) n s = n * 10 ^ zlen s + digits_value s.
Proof.
  induction s as [|c s IH] using rev_ind; intros n; [change (n = n * 1 + 0); lia|].
  rewrite foldl_app. cbn [foldl]. rewrite IH, digits_value_snoc, zlen_app, zlen_cons, zlen_nil.
  pose proof (zlen_nonneg s).
  rewrite Z.pow_add_r by lia. change (10 ^ (1 + 0)) with 10. lia.
Qed.

Lemma digits_value_cons c s : digits_value (c :: s) = (c - 48) * 10 ^ zlen s + digits_value s.
Proof. unfold digits_value at 1. cbn [foldl]. apply digits_value_acc. Qed.

Lemma itoa_fuel_spec fuel : ∀ n acc, 0 ≤ n < 2 ^ Z.of_nat fuel → forallb is_digit acc = true →
  let s := itoa_fuel fuel n acc in
  forallb is_digit s = true ∧ digits_value s = n * 10 ^ zlen acc + digits_value acc ∧
  (fuel ≠ O → zlen acc < zlen s).
Proof.
  induction fuel as [|fuel IH]; intros n acc Hn Ha s.
  - change (2 ^ Z.of_nat 0) with 1 in Hn. subst s. cbn [itoa_fuel].
    split; [done|]. split; [|done]. replace n with 0 by lia. lia.
  - subst s. cbn [itoa_fuel]. rewrite Nat2Z.inj_succ, Z.pow_succ_r in Hn by lia.
    pose proof (Z.mod_pos_bound n 10 ltac:(lia)). pose proof (Z.div_mod n 10 ltac:(lia)).
    assert (forallb is_digit (48 + n mod 10 :: acc) = true) as Ha'.
    { cbn [forallb]. rewrite Ha. unfold is_digit. lia. }
    pose proof (zlen_nonneg acc).
    assert (10 ^ zlen (48 + n mod 10 :: acc) = 10 * 10 ^ zlen acc) as Hp.
    { rewrite zlen_cons, Z.pow_add_r by lia. lia. }
    destruct (n / 10 =? 0) eqn:Hz.
    + split; [done|]. split; [rewrite digits_value_cons; lia|]. rewrite zlen_cons. lia.
    + destruct (IH (n / 10) (48 + n mod 10 :: acc)) as (Hdig & H2 & H3).
      { split; [apply Z.div_pos; lia|]. lia. }
      { done. }
      split; [done|]. rewrite H2, Hp, digits_value_cons. split; [lia|].
      intros _. destruct fuel.
      * exfalso. change (2 * 2 ^ Z.of_nat 0) with 2 in Hn. lia.
      * specialize (H3 ltac:(done)). rewrite zlen_cons in H3. lia.
Qed.

(** Formatting then parsing a number gives it back. *)
Lemma Itoa_spec n : 0 ≤ n →
  forallb is_digit (Itoa n) = true ∧ digits_value (Itoa n) = n ∧ 0 < zlen (Itoa n).
Proof.
  intros Hn. unfold Itoa.
  destruct (itoa_fuel_spec (S (Z.to_nat (Z.log2 n))) n []) as (H1 & H2 & H3).
  - split; [done|]. rewrite Nat2Z.inj_succ, Z2Nat.id by apply Z.log2_nonneg.
    destruct (decide (n = 0)) as [->|]; [done|]. apply Z.log2_spec. lia.
  - done.
  - specialize (H3 ltac:(done)). rewrite zlen_nil in *. rewrite H2.
    split_and!; [done|cbn; lia|done].
Qed.

Lemma ParseUint_Itoa n bits : 0 ≤ n < 2 ^ bits → ParseUint (Itoa n) bits = Some n.
Proof.
  intros Hn. destruct (Itoa_spec n) as (H1 & H2 & H3); [lia|].
  unfold ParseUint. rewrite H1, H2. case_if; [lia|]. by case_if; [|lia].
Qed.

Example itoa_0 : Itoa 0 = str "0". Proof. reflexivity. Qed.
Example itoa_65535 : Itoa 65535 = str "65535". Proof. reflexivity. Qed.
Example trim_example : TrimSpace (str "  plc 1 ") = str "plc 1". Proof. reflexivity. Qed.

(** ** Searching and splitting *)

Lemma Contains_true s c : Contains s c = true ↔ c ∈ s.
Proof.
  unfold Contains. rewrite existsb_exists. split.
  - intros (d & Hd%list_elem_of_In & ->%Z.eqb_eq). done.
  - intros Hc%list_elem_of_In. exists c. split; [done|]. apply Z.eqb_refl.
Qed.

Lemma Contains_false s c : Contains s c = false ↔ c ∉ s.
Proof. rewrite <-Contains_true. by destruct (Contains s c). Qed.

Lemma ContainsAny_false s chars : ContainsAny s chars = false ↔ ∀ c, c ∈ chars → c ∉ s.
Proof.
  unfold ContainsAny. rewrite <-not_true_iff_false, existsb_exists. split.
  - intros Hn c Hc Hs. apply Hn. exists c. by rewrite <-list_elem_of_In, Contains_true.
  - intros Hs (c & Hc%list_elem_of_In & Hx%Contains_true). by apply (Hs c).
Qed.

(** The first [c] of a list, counted from [i]. *)
Lemma index_from_spec c s : ∀ i,
  (index_from i c s = -1 ∧ c ∉ s) ∨
  ∃ a z, s = a ++ c :: z ∧ (c ∉ a) ∧ index_from i c s = i + zlen a.
Proof.
  induction s as [|d s IH]; intros i; [left; split; [done|apply not_elem_of_nil]|]. cbn [index_from].
  case_if.
  - right. exists [], s. assert (d = c) as -> by lia. split; [done|]. split; [apply not_elem_of_nil|].
    rewrite zlen_nil. lia.
  - destruct (IH (i + 1)) as [[-> Hs]|(a & z & -> & Ha & ->)].
    + left. split; [done|]. apply not_elem_of_cons. split; [lia|done].
    + right. exists (d :: a), z. split; [done|]. split; [apply not_elem_of_cons; split; [lia|done]|].
      rewrite zlen_cons. lia.
Qed.

Lemma IndexByte_cases s c :
  (IndexByte s c = -1 ∧ c ∉ s) ∨ ∃ a z, s = a ++ c :: z ∧ (c ∉ a) ∧ IndexByte s c = zlen a.
Proof. apply (index_from_spec c s 0). Qed.

Lemma LastIndexByte_cases s c :
  (LastIndexByte s c = -1 ∧ c ∉ s) ∨ ∃ a z, s = a ++ c :: z ∧ (c ∉ z) ∧ LastIndexByte s c = zlen a.
Proof.
  unfold LastIndexByte. destruct (index_from_spec c (rev s) 0) as [[-> Hs]|(a & z & Hr & Ha & ->)].
  - left. split; [done|]. intros Hc. apply Hs. rewrite list_elem_of_In, <-in_rev, <-list_elem_of_In. done.
  - right. exists (rev z), (rev a).
    assert (s = rev z ++ c :: rev a) as ->.
    { rewrite <-(rev_involutive s), Hr, rev_app_distr. cbn [rev]. by rewrite <-app_assoc. }
    split; [done|]. split; [by rewrite list_elem_of_In, <-in_rev, <-list_elem_of_In|].
    pose proof (zlen_nonneg a). cbv zeta. case_if; [lia|]. unfold zlen. rewrite length_app, length_cons, !length_rev. lia.
Qed.

(** A list has one last [c], and one first. *)
Lemma last_split_unique (c : Z) a z a' z' :
  a ++ c :: z = a' ++ c :: z' → c ∉ z → c ∉ z' → a = a' ∧ z = z'.
Proof.
  revert a'. induction a as [|d a IH]; intros [|d' a'] Heq Hz Hz'; cbn in Heq; injection Heq.
  - by intros ->.
  - intros -> <-. destruct Hz. apply elem_of_app. right. by left.
  - intros <- ->. destruct Hz'. apply elem_of_app. right. by left.
  - intros H <-. destruct (IH a' H Hz Hz') as [-> ->]. done.
Qed.

Lemma first_split_unique (c : Z) a z a' z' :
  a ++ c :: z = a' ++ c :: z' → c ∉ a → c ∉ a' → a = a' ∧ z = z'.
Proof.
  revert a'. induction a as [|d a IH]; intros [|d' a'] Heq Ha Ha'; cbn in Heq; injection Heq.
  - by intros ->.
  - intros -> <-. destruct Ha'. by left.
  - intros <- ->. destruct Ha. by left.
  - intros H <-. apply not_elem_of_cons in Ha as [_ Ha]. apply not_elem_of_cons in Ha' as [_ Ha'].
    destruct (IH a' H Ha Ha') as [-> ->]. done.
Qed.

Lemma HasPrefix_one s c : HasPrefix s [c] = true ↔ ∃ r, s = c :: r.
Proof.
  destruct s as [|d s]; [split; [done|by intros []]|].
  change (HasPrefix (d :: s) [c]) with ((c =? d) && HasPrefix s []).
  replace (HasPrefix s []) with true by by destruct s.
  rewrite andb_true_r, Z.eqb_eq. split; [intros ->; by eexists|]. by intros (r & [= -> _]).
Qed.

Lemma HasSuffix_one s c : HasSuffix s [c] = true ↔ ∃ r, s = r ++ [c].
Proof.
  unfold HasSuffix. cbn [rev app]. rewrite HasPrefix_one. split.
  - intros (r & Hr). exists (rev r). rewrite <-(rev_involutive s), Hr. done.
  - intros (r & ->). exists (rev r). by rewrite rev_app_distr.
Qed.

Lemma IndexByte_app c a z : (c ∉ a) → IndexByte (a ++ c :: z) c = zlen a.
Proof.
  intros Ha. destruct (IndexByte_cases (a ++ c :: z) c) as [[_ Hn]|(a' & z' & Heq & Ha' & ->)].
  - destruct Hn. apply elem_of_app. right. by left.
  - by destruct (first_split_unique c a z a' z' Heq Ha Ha') as [-> _].
Qed.

Lemma LastIndexByte_app c a z : (c ∉ z) → LastIndexByte (a ++ c :: z) c = zlen a.
Proof.
  intros Hz. destruct (LastIndexByte_cases (a ++ c :: z) c) as [[_ Hn]|(a' & z' & Heq & Hz' & ->)].
  - destruct Hn. apply elem_of_app. right. by left.
  - by destruct (last_split_unique c a z a' z' Heq Hz Hz') as [-> _].
Qed.

Lemma LastIndexByte_none c s : (c ∉ s) → LastIndexByte s c = -1.
Proof.
  intros Hs. destruct (LastIndexByte_cases s c) as [[-> _]|(a & z & -> & _)]; [done|].
  destruct Hs. apply elem_of_app. right. by left.
Qed.

(** What stands before and after a separator. *)
Lemma sub_before (c : Z) a z : sub (a ++ c :: z) 0 (zlen a) = a.
Proof. rewrite sub_0. unfold zlen. rewrite Nat2Z.id. apply take_app_length. Qed.

Lemma sub_after (c : Z) a z : sub (a ++ c :: z) (zlen a + 1) (zlen (a ++ c :: z)) = z.
Proof.
  zlen_pos. rewrite sub_full by lia. replace (Z.to_nat (zlen a + 1)) with (length (a ++ [c])).
  - replace (a ++ c :: z) with ((a ++ [c]) ++ z) by by rewrite <-app_assoc. apply drop_app_length.
  - unfold zlen. rewrite length_app. cbn. lia.
Qed.
