(* ===== verification/Config.v ===== *)
(** * Config: connection settings, defaults and limits (config.go)

    With the parts of the standard library's [net] package the endpoint
    checks rely on: [SplitHostPort], [JoinHostPort] and [ParseIP].  Go's [int]
    and [time.Duration] are 64-bit.  The conditions of acceptance are stated by
    the form of the texts and the documented values ([accepted]), and the
    functions are shown to decide them. *)

From S2P Require Import Errors GoText.

(** ** [net]: host/port pairs and IP literals *)

(** [net.SplitHostPort], [None] for its errors. *)
Definition SplitHostPort (hostport : list Z) : option (list Z * list Z) :=
  let i := LastIndexByte hostport (chr ":") in
  if i <? 0 then None
  else
    let port := sub hostport (i + 1) (zlen hostport) in
    if HasPrefix hostport (str "[") then
      let end_ := IndexByte hostport (chr "]") in
      if end_ <? 0 then None
      else if negb (end_ + 1 =? i) then None
      else if Contains (drop 1 hostport) (chr "[") then None
      else if Contains (drop (Z.to_nat (end_ + 1)) hostport) (chr "]") then None
      else Some (sub hostport 1 end_, port)
    else
      let host := sub hostport 0 i in
      if Contains host (chr ":") then None
      else if Contains hostport (chr "[") then None
      else if Contains hostport (chr "]") then None
      else Some (host, port).

(** [net.JoinHostPort] *)
Definition JoinHostPort (host port : list Z) : list Z :=
  if Contains host (chr ":") then str "[" ++ host ++ str "]:" ++ port
  else host ++ str ":" ++ port.

(** The dotted-decimal fields of an IPv4 literal. *)
Fixpoint parseIPv4Fields (s : list Z) (prev : option Z) (val pos digLen : Z) (fields : list Z)
    : option (list Z) :=
  match s with
  | [] => if pos <? 3 then None else Some (fields ++ [val])
  | c :: rest =>
      if is_digit c then
        if (digLen =? 1) && (val =? 0) then None
        else
          let val := val * 10 + (c - 48) in
          if val >? 255 then None
          else parseIPv4Fields rest (Some c) val pos (digLen + 1) fields
      else if c =? chr "." then
        match prev, rest with
        | None, _ | _, [] => None
        | Some p, _ :: _ =>
            if p =? chr "." then None
            else if pos =? 3 then None
            else parseIPv4Fields rest (Some c) 0 (pos + 1) 0 (fields ++ [val])
        end
      else None
  end.

Definition hex_digit (c : Z) : option Z :=
  if is_digit c then Some (c - 48)
  else if (97 <=? c) && (c <=? 102) then Some (c - 87)
  else if (65 <=? c) && (c <=? 70) then Some (c - 55)
  else None.

(** One group of at most four hexadecimal digits: count, value, rest. *)
Fixpoint hex_group (s : list Z) (off acc : Z) : option (Z * Z * list Z) :=
  match s with
  | [] => Some (off, acc, [])
  | c :: rest =>
      match hex_digit c with
      | Some d => if off >? 3 then None else hex_group rest (off + 1) (acc * 16 + d)
      | None => Some (off, acc, s)
      end
  end.

(** The end of [parseIPv6]: trailing garbage, and the ellipsis expanded. *)
Definition expand_ellipsis (s ip : list Z) (ellipsis : option nat) : option (list Z) :=
  if negb (zlen s =? 0) then None
  else if zlen ip <? 16 then
    match ellipsis with
    | None => None
    | Some e => Some (take e ip ++ make (16 - zlen ip) ++ drop e ip)
    end
  else match ellipsis with None => Some ip | Some _ => None end.

Fixpoint parseIPv6Groups (fuel : nat) (s ip : list Z) (ellipsis : option nat)
    : option (list Z) :=
  match fuel with
  | O => None
  | S fuel =>
    if 16 <=? zlen ip then expand_ellipsis s ip ellipsis
    else
      '(off, acc, rest) ← hex_group s 0 0;
      if off =? 0 then None
      else if HasPrefix rest (str ".") then
        if negb (zlen ip =? 12) && bool_decide (ellipsis = None) then None
        else if zlen ip + 4 >? 16 then None
        else
          fields ← parseIPv4Fields s None 0 0 0 [];
          expand_ellipsis [] (ip ++ fields) ellipsis
      else
        let ip := ip ++ be_split 2 acc in
        match rest with
        | [] => expand_ellipsis [] ip ellipsis
        | c :: s =>
            if negb (c =? chr ":") then None
            else
              match s with
              | [] => None
              | d :: s' =>
                  if d =? chr ":" then
                    match ellipsis with
                    | Some _ => None
                    | None =>
                        match s' with
                        | [] => expand_ellipsis [] ip (Some (length ip))
                        | _ => parseIPv6Groups fuel s' ip (Some (length ip))
                        end
                    end
                  else parseIPv6Groups fuel s ip ellipsis
              end
        end
  end.

Definition parseIPv6 (s : list Z) : option (list Z) :=
  if Contains s (chr "%") then None
  else if HasPrefix s (str "::") then
    match drop 2 s with
    | [] => Some (make 16)
    | rest => parseIPv6Groups 9 rest [] (Some O)
    end
  else parseIPv6Groups 9 s [] None.

(** [net.ParseIP]: the 16-byte form; a zone is refused. *)
Fixpoint parse_ip_kind (s : list Z) : option Z :=
  match s with
  | [] => None
  | c :: rest =>
      if (c =? chr ".") || (c =? chr ":") || (c =? chr "%") then Some c else parse_ip_kind rest
  end.
Definition ParseIP (s : list Z) : option (list Z) :=
  match parse_ip_kind s with
  | None => None
  | Some c =>
      if c =? chr "." then
        fields ← parseIPv4Fields s None 0 0 0 [];
        Some (make 10 ++ [0xff; 0xff] ++ fields)
      else if c =? chr ":" then parseIPv6 s
      else None
  end.
(** [ip.To4() != nil] for a 16-byte IP. *)
Definition is_ipv4 (ip : list Z) : bool :=
  bool_decide (take 12 ip = make 10 ++ [0xff; 0xff]).

Example ip_v4 : ParseIP (str "192.168.0.1") = Some (make 10 ++ [255; 255; 192; 168; 0; 1]).
Proof. reflexivity. Qed.
Example ip_v6 : ParseIP (str "fe80::1") = Some ([254; 128] ++ make 13 ++ [1]).
Proof. reflexivity. Qed.
Example ip_bad : ParseIP (str "192.168.00.1") = None.
Proof. reflexivity. Qed.
Example ip_mapped : is_ipv4 <$> ParseIP (str "::ffff:1.2.3.4") = Some true.
Proof. reflexivity. Qed.

(** ** Endpoints *)

Definition DefaultPort : Z := 102.

(** The branch of [normalizeEndpoint] for an endpoint without a port. *)
Definition bare_endpoint (value : list Z) : outcome string (list Z) :=
  let zoneIndex := LastIndexByte value (chr "%") in
  if (0 <=? zoneIndex) && (zoneIndex =? zlen value - 1)
  then Err "IPv6 zone must not be empty"
  else
    let ipValue := if 0 <=? zoneIndex then sub value 0 zoneIndex else value in
    match ParseIP ipValue with
    | Some ip =>
        if Contains value (chr "%") && is_ipv4 ip
        then Err "IPv4 endpoint cannot include a zone"
        else Ok (JoinHostPort value (Itoa DefaultPort))
    | None =>
        if Contains value (chr ":")
        then Err "IPv6 endpoints with a port must use brackets"
        else Ok (JoinHostPort value (Itoa DefaultPort))
    end.

(** [normalizeEndpoint]; errors are the texts of its [errors.New]. *)
Definition normalizeEndpoint (input : list Z) : outcome string (list Z) :=
  let value := TrimSpace input in
  if zlen value =? 0 then Err "endpoint is required"
  else if ContainsAny value (str "/\" ++ [0]) then Err "endpoint host is malformed"
  else
    match SplitHostPort value with
    | Some (host, port) =>
        if zlen host =? 0 then Err "endpoint host is required"
        else
          match ParseUint port 16 with
          | Some portNumber =>
              if portNumber =? 0 then Err "endpoint port must be between 1 and 65535"
              else Ok (JoinHostPort host port)
          | None => Err "endpoint port must be between 1 and 65535"
          end
    | None =>
        let value :=
          if HasPrefix value (str "[") && HasSuffix value (str "]")
          then TrimSuffix (TrimPrefix value (str "[")) (str "]") else value in
        bare_endpoint value
    end.

(** [net.TCPAddr] *)
Record TCPAddr := mkTCPAddr { IP : list Z; Port : Z; Zone : list Z }.

Definition normalizeLocalAddress (input : list Z) (port : Z) : outcome string (option TCPAddr) :=
  let value := TrimSpace input in
  if zlen value =? 0 then
    if negb (port =? 0) then Err "local port requires a local IP address" else Ok None
  else
    let i := LastIndexByte value (chr "%") in
    let zone := if 0 <=? i then sub value (i + 1) (zlen value) else [] in
    let address := if 0 <=? i then sub value 0 i else value in
    if (0 <=? i) && (zlen zone =? 0) then Err "IPv6 zone must not be empty"
    else
      match ParseIP address with
      | None => Err "local address must be an IP literal"
      | Some ip =>
          if negb (zlen zone =? 0) && is_ipv4 ip
          then Err "IPv4 local address cannot include a zone"
          else Ok (Some (mkTCPAddr ip port zone))
      end.

Example endpoint_default : normalizeEndpoint (str " plc-1 ") = Ok (str "plc-1:102").
Proof. reflexivity. Qed.
Example endpoint_v6 : normalizeEndpoint (str "[fe80::1%eth0]:1102") = Ok (str "[fe80::1%eth0]:1102").
Proof. reflexivity. Qed.
Example endpoint_v6_bare : normalizeEndpoint (str "fe80::1") = Ok (str "[fe80::1]:102").
Proof. reflexivity. Qed.

(** ** Configuration *)

Definition DefaultRequestedPDU : Z := 480.
Definition DefaultMaxFrameBytes : Z := 4096.
Definition DefaultMaxItemsPerCall : Z := 4096.
Definition DefaultMaxFragmentsPerCall : Z := 65536.
Definition DefaultMaxItemBytes : Z := Z.shiftl 1 20.
Definition DefaultMaxBatchBytes : Z := Z.shiftl 32 20.
Definition Second : Z := 1000000000.
Definition DefaultConnectTimeout : Z := 10 * Second.
Definition DefaultExchangeTimeout : Z := 10 * Second.
Definition DefaultKeepAlive : Z := 30 * Second.
Definition minRequestedPDU : Z := 240.
Definition maxRequestedPDU : Z := 960.
Definition maxTPKTFrame : Z := 65535.

(** AddressingMode and ConnectionRole are [uint8] enumerations. *)
Definition AddressByRackSlot : Z := 1.
Definition AddressByTSAP : Z := 2.
Definition ConnectionPG : Z := 1.
Definition ConnectionOP : Z := 2.
Definition ConnectionBasic : Z := 3.

Record Addressing := mkAddressing {
  Mode : Z;         (**r uint8 *)
  Rack : Z;         (**r uint8 *)
  Slot : Z;         (**r uint8 *)
  Role : Z;         (**r uint8 *)
  LocalTSAP : Z;    (**r uint16 *)
  RemoteTSAP : Z;   (**r uint16 *)
}.

Record Config := mkConfig {
  Endpoint : list Z;
  AddressingOf : Addressing;
  LocalAddress : list Z;
  LocalPort : Z;             (**r uint16 *)
  RequestedPDU : Z;          (**r uint16 *)
  MaxFrameBytes : Z;
  MaxItemsPerCall : Z;
  MaxFragmentsPerCall : Z;
  MaxItemBytes : Z;
  MaxBatchBytes : Z;
  ConnectTimeout : Z;
  ExchangeTimeout : Z;
  KeepAlive : Z;
}.

Record normalizedConfig := mkNormalized {
  nConfig : Config;
  nEndpoint : list Z;
  nLocalAddr : option TCPAddr;
  nLocalTSAP : Z;
  nRemoteTSAP : Z;
}.

Definition validateAddressing (addressing : Addressing) : result (Z * Z) :=
  if Mode addressing =? AddressByRackSlot then
    if negb (LocalTSAP addressing =? 0) || negb (RemoteTSAP addressing =? 0)
    then fails (invalidError "config.addressing" "rack/slot mode cannot include explicit TSAP values")
    else if Rack addressing >? 7
    then fails (invalidError "config.addressing.rack" "rack must be between 0 and 7")
    else if Slot addressing >? 31
    then fails (invalidError "config.addressing.slot" "slot must be between 0 and 31")
    else if (Role addressing <? ConnectionPG) || (Role addressing >? ConnectionBasic)
    then fails (invalidError "config.addressing.role" "role must be PG, OP, or Basic")
    else
      let remote := Z.lor (Z.lor (u16 (Z.shiftl (Role addressing) 8))
                                 (u16 (Z.shiftl (Rack addressing) 5))) (Slot addressing) in
      Ok (0x0100, remote)
  else if Mode addressing =? AddressByTSAP then
    if negb (Rack addressing =? 0) || negb (Slot addressing =? 0) || negb (Role addressing =? 0)
    then fails (invalidError "config.addressing" "TSAP mode cannot include rack, slot, or role")
    else if (LocalTSAP addressing =? 0) || (RemoteTSAP addressing =? 0)
    then fails (invalidError "config.addressing" "local and remote TSAP must be non-zero")
    else Ok (LocalTSAP addressing, RemoteTSAP addressing)
  else fails (invalidError "config.addressing.mode" "addressing mode is required").

(** [if config.Field == 0 { config.Field = Default }] *)
Definition default_to (d x : Z) : Z := if x =? 0 then d else x.

Definition with_defaults (config : Config) : Config :=
  mkConfig (Endpoint config) (AddressingOf config) (LocalAddress config) (LocalPort config)
    (default_to DefaultRequestedPDU (RequestedPDU config))
    (default_to DefaultMaxFrameBytes (MaxFrameBytes config))
    (default_to DefaultMaxItemsPerCall (MaxItemsPerCall config))
    (default_to DefaultMaxFragmentsPerCall (MaxFragmentsPerCall config))
    (default_to DefaultMaxItemBytes (MaxItemBytes config))
    (default_to DefaultMaxBatchBytes (MaxBatchBytes config))
    (default_to DefaultConnectTimeout (ConnectTimeout config))
    (default_to DefaultExchangeTimeout (ExchangeTimeout config))
    (default_to DefaultKeepAlive (KeepAlive config)).

Definition normalizeConfig (input : Config) : result normalizedConfig :=
  endpoint ← invalid_text "config.endpoint" (normalizeEndpoint (Endpoint input));
  let config := with_defaults input in
  if (MaxFrameBytes config <? 32) || (MaxFrameBytes config >? maxTPKTFrame)
  then fails (invalidError "config.max_frame_bytes" "must be between 32 and 65535")
  else if (RequestedPDU config <? minRequestedPDU) || (RequestedPDU config >? maxRequestedPDU)
          || (RequestedPDU config + 7 >? MaxFrameBytes config)
  then fails (invalidError "config.requested_pdu"
                "must be between 240 and 960 and fit the configured frame limit")
  else if (MaxItemsPerCall config <? 1) || (MaxItemsPerCall config >? Z.shiftl 1 20)
  then fails (invalidError "config.max_items_per_call" "must be between 1 and 1048576")
  else if (MaxFragmentsPerCall config <? 1) || (MaxFragmentsPerCall config >? Z.shiftl 1 20)
  then fails (invalidError "config.max_fragments_per_call" "must be between 1 and 1048576")
  else if (MaxItemBytes config <? 1) || (MaxItemBytes config >? Z.shiftl 1 30)
  then fails (invalidError "config.max_item_bytes" "must be between 1 and 1073741824")
  else if (MaxBatchBytes config <? MaxItemBytes config)
          || (MaxBatchBytes config >? Z.shiftl 1 31 - 1)
  then fails (invalidError "config.max_batch_bytes"
                "must be at least max_item_bytes and no more than 2147483647")
  else if (ConnectTimeout config <? 0) || (ExchangeTimeout config <? 0) || (KeepAlive config <? 0)
  then fails (invalidError "config.timeout" "durations must not be negative")
  else
    '(localTSAP, remoteTSAP) ← validateAddressing (AddressingOf config);
    localAddr ← invalid_text "config.local_address"
                  (normalizeLocalAddress (LocalAddress config) (LocalPort config));
    Ok (mkNormalized config endpoint localAddr localTSAP remoteTSAP).

(** ** What an accepted configuration guarantees *)

(** The documented limits. *)
Record settings_ok (c : Config) : Prop := {
  so_frame : 32 ≤ MaxFrameBytes c ≤ 65535;
  so_pdu : 240 ≤ RequestedPDU c ≤ 960;
  so_pdu_frame : RequestedPDU c + 7 ≤ MaxFrameBytes c;
  so_items : 1 ≤ MaxItemsPerCall c ≤ 1048576;
  so_fragments : 1 ≤ MaxFragmentsPerCall c ≤ 1048576;
  so_item_bytes : 1 ≤ MaxItemBytes c ≤ 1073741824;
  so_batch_bytes : MaxItemBytes c ≤ MaxBatchBytes c ≤ 2147483647;
  so_connect : 0 ≤ ConnectTimeout c;
  so_exchange : 0 ≤ ExchangeTimeout c;
  so_keepalive : 0 ≤ KeepAlive c;
}.

(** The values the Go types of an [Addressing] can hold. *)
Record addressing_values (a : Addressing) : Prop := {
  ad_mode : is_u8 (Mode a);
  ad_rack : is_u8 (Rack a);
  ad_slot : is_u8 (Slot a);
  ad_role : is_u8 (Role a);
  ad_local : is_u16 (LocalTSAP a);
  ad_remote : is_u16 (RemoteTSAP a);
}.

(** The TSAP pair of a valid addressing: exactly one of the two schemes. *)
Inductive tsaps (a : Addressing) : Z → Z → Prop :=
| tsaps_rack_slot :
    Mode a = AddressByRackSlot → LocalTSAP a = 0 → RemoteTSAP a = 0 →
    Rack a ≤ 7 → Slot a ≤ 31 → ConnectionPG ≤ Role a ≤ ConnectionBasic →
    tsaps a 0x0100 (Role a * 256 + Rack a * 32 + Slot a)
| tsaps_explicit :
    Mode a = AddressByTSAP → Rack a = 0 → Slot a = 0 → Role a = 0 →
    LocalTSAP a ≠ 0 → RemoteTSAP a ≠ 0 →
    tsaps a (LocalTSAP a) (RemoteTSAP a).

(** The rack/slot TSAP packs its three fields without overlap. *)
Lemma rack_slot_tsap role rack slot : 0 ≤ role ≤ 3 → 0 ≤ rack ≤ 7 → 0 ≤ slot ≤ 31 →
  Z.lor (Z.lor (u16 (Z.shiftl role 8)) (u16 (Z.shiftl rack 5))) slot = role * 256 + rack * 32 + slot.
Proof.
  intros Hr Hk Hs.
  assert (forallb (λ role, forallb (λ rack, forallb (λ slot,
    Z.lor (Z.lor (u16 (Z.shiftl role 8)) (u16 (Z.shiftl rack 5))) slot =? role * 256 + rack * 32 + slot)
    (seqZ 0 32)) (seqZ 0 8)) (seqZ 0 4) = true) as H by (vm_compute; reflexivity).
  rewrite forallb_forall in H. specialize (H role ltac:(apply list_elem_of_In, elem_of_seqZ; lia)).
  rewrite forallb_forall in H. specialize (H rack ltac:(apply list_elem_of_In, elem_of_seqZ; lia)).
  rewrite forallb_forall in H. specialize (H slot ltac:(apply list_elem_of_In, elem_of_seqZ; lia)).
  by apply Z.eqb_eq.
Qed.

Lemma validateAddressing_spec a : addressing_values a →
  match validateAddressing a with
  | Ok (l, r) => tsaps a l r
  | Err e => invalid_argument e ∧ ∀ l r, ¬ tsaps a l r
  | Panic => False
  end.
Proof.
  intros [Hm Hra Hs Hro Hl Hr]. unfold validateAddressing, is_u8, is_u16 in *.
  unfold ConnectionPG, ConnectionBasic in *.
  repeat case_if; try (split; [done|]; intros l r [] ; unfold AddressByRackSlot, AddressByTSAP,
    ConnectionPG, ConnectionBasic in *; lia).
  - rewrite rack_slot_tsap by lia. apply tsaps_rack_slot; unfold ConnectionPG, ConnectionBasic; lia.
  - apply tsaps_explicit; lia.
Qed.

(** Two rack/slot settings with the same remote TSAP are the same settings. *)
Lemma tsaps_rack_slot_inj a b l r :
  addressing_values a → addressing_values b → Mode a = AddressByRackSlot → Mode b = AddressByRackSlot →
  tsaps a l r → tsaps b l r → Role a = Role b ∧ Rack a = Rack b ∧ Slot a = Slot b.
Proof.
  intros [] [] Ha Hb Hta Htb. unfold is_u8, AddressByRackSlot in *.
  inversion Hta; [|unfold AddressByTSAP in *; lia]. inversion Htb; [|unfold AddressByTSAP in *; lia].
  lia.
Qed.

(** ** normalizeConfig *)

Lemma default_to_idem d x : d ≠ 0 → default_to d (default_to d x) = default_to d x.
Proof. unfold default_to. intros. repeat case_if; lia. Qed.

Lemma with_defaults_idem c : with_defaults (with_defaults c) = with_defaults c.
Proof. unfold with_defaults. cbn. by rewrite !default_to_idem by done. Qed.

(** *** Endpoints and local addresses by their form *)

(** What [net.SplitHostPort] takes apart: the host in brackets where it has a colon. *)
Inductive host_port : list Z → list Z → list Z → Prop :=
| plain_host_port host port :
    (chr ":" ∉ host) → (chr ":" ∉ port) →
    (∀ c, c ∈ [chr "["; chr "]"] → c ∉ host ++ port) →
    host_port (host ++ str ":" ++ port) host port
| bracketed_host_port host port :
    (∀ c, c ∈ [chr "["; chr "]"] → c ∉ host ++ port) → (chr ":" ∉ port) →
    host_port (str "[" ++ host ++ str "]:" ++ port) host port.

(** Host and port as [net.Dial] takes them. *)
Inductive joined : list Z → list Z → list Z → Prop :=
| joined_plain host port : (chr ":" ∉ host) → joined host port (host ++ str ":" ++ port)
| joined_bracketed host port : chr ":" ∈ host → joined host port (str "[" ++ host ++ str "]:" ++ port).

(** A decimal port in range; leading zeros are kept. *)
Definition port_text (port : list Z) : Prop :=
  port ≠ [] ∧ Forall (λ c, 48 ≤ c ≤ 57) port ∧ 1 ≤ digits_value port ≤ 65535.

(** An IP address and a zone, which only an IPv6 address has and which is not
    empty. *)
Definition ip_address (address ip : list Z) : Prop := ParseIP address = Some ip.
Definition ipv4 (ip : list Z) : Prop := ∃ fields, ip = make 10 ++ [255; 255] ++ fields.
Inductive ip_literal : list Z → list Z → list Z → Prop :=
| ip_plain address ip : (chr "%" ∉ address) → ip_address address ip → ip_literal address ip []
| ip_zoned address zone ip :
    (chr "%" ∉ zone) → zone ≠ [] → ip_address address ip → ¬ ipv4 ip →
    ip_literal (address ++ str "%" ++ zone) ip zone.

(** A name, which only the resolver checks further: no colon, and not an IPv4
    address with a zone or a text with an empty zone. *)
Definition host_name (host : list Z) : Prop :=
  (chr ":" ∉ host) ∧
  ∀ address zone, host = address ++ str "%" ++ zone → (chr "%" ∉ zone) →
    zone ≠ [] ∧ ∀ ip, ip_address address ip → ¬ ipv4 ip.

(** What may stand in an endpoint without a port: an IP literal or a name. *)
Definition bare_host (host : list Z) : Prop :=
  host ≠ [] ∧ ((∃ ip zone, ip_literal host ip zone) ∨ host_name host).

(** The forms of an endpoint and what is dialled for them: a host with a port, or
    a host alone, also in brackets, with port 102. *)
Inductive endpoint_form (value : list Z) : list Z → Prop :=
| endpoint_with_port host port endpoint :
    host_port value host port → host ≠ [] → port_text port → joined host port endpoint →
    endpoint_form value endpoint
| endpoint_without_port host endpoint :
    (∀ h p, ¬ host_port value h p) →
    (value = str "[" ++ host ++ str "]" ∨
     value = host ∧ ∀ h, value ≠ str "[" ++ h ++ str "]") →
    bare_host host → joined host (str "102") endpoint →
    endpoint_form value endpoint.

(** The endpoints the code accepts: those and, though a host is required, empty
    brackets, for which the local host is dialled. *)
Definition endpoint_accepted (input endpoint : list Z) : Prop :=
  let value := TrimSpace input in
  (∀ c, c ∈ [chr "/"; chr "\"; 0] → c ∉ value) ∧
  (endpoint_form value endpoint ∨ value = str "[]" ∧ endpoint = str ":102").

(** A local address is an IP literal; without one there is no local port. *)
Inductive local_address (input : list Z) (port : Z) : option TCPAddr → Prop :=
| no_local_address : TrimSpace input = [] → port = 0 → local_address input port None
| local_literal ip zone :
    TrimSpace input ≠ [] → ip_literal (TrimSpace input) ip zone →
    local_address input port (Some (mkTCPAddr ip port zone)).

(** *** The settings with their documented defaults *)

Definition defaulted (default given taken : Z) : Prop :=
  (given = 0 → taken = default) ∧ (given ≠ 0 → taken = given).

Record filled (input c : Config) : Prop := {
  fi_endpoint : Endpoint c = Endpoint input;
  fi_addressing : AddressingOf c = AddressingOf input;
  fi_local : LocalAddress c = LocalAddress input;
  fi_local_port : LocalPort c = LocalPort input;
  fi_pdu : defaulted 480 (RequestedPDU input) (RequestedPDU c);
  fi_frame : defaulted 4096 (MaxFrameBytes input) (MaxFrameBytes c);
  fi_items : defaulted 4096 (MaxItemsPerCall input) (MaxItemsPerCall c);
  fi_fragments : defaulted 65536 (MaxFragmentsPerCall input) (MaxFragmentsPerCall c);
  fi_item_bytes : defaulted (1024 * 1024) (MaxItemBytes input) (MaxItemBytes c);
  fi_batch_bytes : defaulted (32 * 1024 * 1024) (MaxBatchBytes input) (MaxBatchBytes c);
  fi_connect : defaulted (10 * 1000000000) (ConnectTimeout input) (ConnectTimeout c);
  fi_exchange : defaulted (10 * 1000000000) (ExchangeTimeout input) (ExchangeTimeout c);
  fi_keepalive : defaulted (30 * 1000000000) (KeepAlive input) (KeepAlive c);
}.

(** The acceptance condition of a configuration. *)
Record accepted (input : Config) (n : normalizedConfig) : Prop := {
  ac_filled : filled input (nConfig n);
  ac_settings : settings_ok (nConfig n);
  ac_endpoint : endpoint_accepted (Endpoint input) (nEndpoint n);
  ac_tsaps : tsaps (AddressingOf input) (nLocalTSAP n) (nRemoteTSAP n);
  ac_local : local_address (LocalAddress input) (LocalPort input) (nLocalAddr n);
}.

(** *** The code's tests decide these forms *)

Lemma no_bracket host port : (chr "[" ∉ host) → (chr "]" ∉ host) → (chr "[" ∉ port) → (chr "]" ∉ port) →
  ∀ c, c ∈ [chr "["; chr "]"] → c ∉ host ++ port.
Proof.
  intros H1 H2 H3 H4 c Hc. apply not_elem_of_app.
  apply elem_of_cons in Hc as [->|Hc]; [done|]. by apply list_elem_of_singleton in Hc as ->.
Qed.

Lemma host_port_split value host port : host_port value host port → SplitHostPort value = Some (host, port).
Proof.
  intros [h p Hh Hp Hb|h p Hb Hp]; unfold SplitHostPort.
  - assert (∀ c, c ∈ [chr "["; chr "]"] → c ∉ h ++ chr ":" :: p) as Hb'.
    { intros c Hc. specialize (Hb c Hc). rewrite elem_of_app in *. rewrite elem_of_cons.
      intros [?|[->|?]]; [tauto| |tauto]. revert Hc. rewrite !elem_of_cons, elem_of_nil. by intros [?|[?|[]]]. }
    change (str ":" ++ p) with (chr ":" :: p). rewrite (LastIndexByte_app _ h p Hp), sub_before, sub_after.
    zlen_pos. case_if; [lia|]. cbv zeta.
    assert (Contains (h ++ chr ":" :: p) (chr "[") = false) as H1 by (apply Contains_false, Hb'; by left).
    assert (Contains (h ++ chr ":" :: p) (chr "]") = false) as H2 by (apply Contains_false, Hb'; right; by left).
    assert (HasPrefix (h ++ chr ":" :: p) (str "[") = false) as ->.
    { apply not_true_iff_false. change (str "[") with [chr "["]. rewrite HasPrefix_one. intros (r & Hr).
      apply Contains_false in H1. rewrite Hr in H1. apply H1. by left. }
    rewrite H1, H2. by rewrite (proj2 (Contains_false h (chr ":")) Hh).
  - assert (str "[" ++ h ++ str "]:" ++ p = (str "[" ++ h) ++ chr "]" :: chr ":" :: p) as Hv.
    { by rewrite <-app_assoc. }
    assert (str "[" ++ h ++ str "]:" ++ p = (str "[" ++ h ++ [chr "]"]) ++ chr ":" :: p) as Hv'.
    { by rewrite <-!app_assoc. }
    assert (chr "]" ∉ str "[" ++ h) as Hc.
    { rewrite elem_of_app. intros [Hx|Hx]; [by apply list_elem_of_singleton in Hx|].
      eapply (Hb (chr "]")); [right; by left|]. apply elem_of_app. by left. }
    assert (chr "[" ∉ h ++ chr "]" :: chr ":" :: p) as Ho.
    { rewrite elem_of_app, !elem_of_cons. intros [?|[?|[?|?]]]; try done; apply (Hb (chr "[")); try (by left); apply elem_of_app; tauto. }
    set (v := str "[" ++ h ++ str "]:" ++ p) in *.
    assert (LastIndexByte v (chr ":") = zlen h + 2) as HL.
    { rewrite Hv', (LastIndexByte_app _ _ p Hp). autorewrite with zlen. change (zlen (str "[")) with 1. lia. }
    assert (IndexByte v (chr "]") = zlen h + 1) as HI.
    { rewrite Hv, (IndexByte_app _ _ _ Hc). autorewrite with zlen. change (zlen (str "[")) with 1. lia. }
    assert (zlen v = zlen h + 3 + zlen p) as Hl.
    { unfold v. autorewrite with zlen. change (zlen (str "[")) with 1. change (zlen (str "]:")) with 2. lia. }
    assert (drop 1 v = h ++ chr "]" :: chr ":" :: p) as -> by done.
    assert (HasPrefix v (str "[") = true) as -> by (apply (HasPrefix_one _ (chr "[")); by eexists).
    assert (drop (Z.to_nat (zlen h + 1 + 1)) v = chr ":" :: p) as Hd.
    { rewrite Hv'. zlen_pos. rewrite drop_app_length'; [done|]. unfold zlen. rewrite !length_app. cbn. lia. }
    zlen_pos. rewrite HL, HI. case_if; [lia|]. case_if; [lia|]. case_if; [bool_lia|].
    rewrite Hd, (proj2 (Contains_false _ _) Ho).
    assert (Contains (chr ":" :: p) (chr "]") = false) as ->.
    { apply Contains_false. rewrite elem_of_cons. intros [?|?]; [done|].
      apply (Hb (chr "]")); [right; by left|]. apply elem_of_app. by right. }
    f_equal. f_equal.
    + unfold sub. change (Z.to_nat 1) with 1%nat. change (drop 1 v) with (h ++ chr "]" :: chr ":" :: p).
      rewrite take_app_length'; [done|]. unfold zlen. lia.
    + rewrite sub_full by lia. rewrite Hv'. rewrite (app_assoc _ [chr ":"] p : _ ++ chr ":" :: p = _).
      rewrite drop_app_length'; [done|]. unfold zlen. rewrite !length_app. cbn. lia.
Qed.

Lemma SplitHostPort_exact value host port : SplitHostPort value = Some (host, port) ↔ host_port value host port.
Proof.
  split; [|intros Hp; by apply host_port_split]. unfold SplitHostPort.
  destruct (LastIndexByte_cases value (chr ":")) as [[-> Hn]|(a & z & -> & Hz & ->)]; [done|].
  zlen_pos. cbv zeta. rewrite sub_after, sub_before. case_if; [lia|].
  destruct (HasPrefix _ (str "[")) eqn:Hpre.
  - apply (HasPrefix_one _ (chr "[")) in Hpre as (r & Hr).
    destruct (IndexByte_cases (a ++ chr ":" :: z) (chr "]")) as [[-> Hn]|(b & y & Heq & Hb & ->)]; [done|].
    zlen_pos. case_if; [lia|]. case_if; [done|].
    assert (a = b ++ [chr "]"] ∧ y = chr ":" :: z) as [-> ->].
    { replace (b ++ chr "]" :: y) with ((b ++ [chr "]"]) ++ y) in Heq by by rewrite <-app_assoc.
      apply app_inj_1 in Heq as [-> <-]; [done|]. unfold zlen in *. rewrite length_app. cbn. lia. }
    destruct b as [|c h]; [done|]. injection Hr as -> _.
    assert (drop (Z.to_nat (zlen (chr "[" :: h) + 1)) ((chr "[" :: h ++ [chr "]"]) ++ chr ":" :: z) = chr ":" :: z) as Hd.
    { rewrite drop_app_length'; [done|]. unfold zlen. cbn. rewrite length_app. cbn. lia. }
    cbn [app] in *. rewrite Hd, skipn_cons, drop_0.
    destruct (Contains _ (chr "[")) eqn:Ho; [done|]. destruct (Contains _ (chr "]")) eqn:Hc; [done|].
    apply Contains_false in Ho, Hc. intros [= <- <-].
    assert (sub (chr "[" :: (h ++ [chr "]"]) ++ chr ":" :: z) 1 (zlen (chr "[" :: h)) = h) as ->.
    { unfold sub. change (Z.to_nat 1) with 1%nat. rewrite skipn_cons, drop_0, <-app_assoc, take_app_length'; [done|].
      rewrite zlen_cons. unfold zlen. lia. }
    replace (chr "[" :: (h ++ [chr "]"]) ++ chr ":" :: z) with (str "[" ++ h ++ str "]:" ++ z) by by rewrite <-app_assoc.
    constructor; [|done]. apply not_elem_of_app in Ho as [Ho1 Ho2].
    apply not_elem_of_cons in Ho2 as [_ Ho2]. apply not_elem_of_cons in Hc as [_ Hc].
    apply not_elem_of_cons in Hb as [_ Hb]. apply not_elem_of_app in Ho1 as [Ho1 _]. by apply no_bracket.
  - destruct (Contains a (chr ":")) eqn:Ha; [done|]. destruct (Contains _ (chr "[")) eqn:Ho; [done|].
    destruct (Contains _ (chr "]")) eqn:Hc; [done|]. apply Contains_false in Ha, Ho, Hc. intros [= <- <-].
    change (chr ":" :: z) with (str ":" ++ z). constructor; [done..|].
    apply not_elem_of_app in Ho as [? Ho].
    apply not_elem_of_cons in Ho as [_ Ho]. apply not_elem_of_app in Hc as [? Hc].
    apply not_elem_of_cons in Hc as [_ Hc]. by apply no_bracket.
Qed.

Lemma joined_exact host port endpoint : JoinHostPort host port = endpoint ↔ joined host port endpoint.
Proof.
  unfold JoinHostPort. split.
  - intros <-. case_if; [apply joined_bracketed; by apply Contains_true|apply joined_plain; by apply Contains_false].
  - intros [h p Hc|h p Hc]; [by rewrite (proj2 (Contains_false _ _) Hc)|by rewrite (proj2 (Contains_true _ _) Hc)].
Qed.

Lemma forallb_digits s : forallb is_digit s = true ↔ Forall (λ c, 48 ≤ c ≤ 57) s.
Proof.
  rewrite forallb_forall, Forall_forall. setoid_rewrite list_elem_of_In. unfold is_digit.
  split; intros Hs c Hc; specialize (Hs c Hc); cbv beta in *; lia.
Qed.

Lemma port_text_exact port : port_text port ↔ ∃ n, ParseUint port 16 = Some n ∧ n ≠ 0.
Proof.
  unfold port_text, ParseUint. rewrite <-forallb_digits. change (2 ^ 16) with 65536. split.
  - intros (Hn & Hd & Hv). rewrite Hd. cbn [negb]. rewrite orb_false_r. case_if.
    { destruct Hn. apply zlen_nil_inv. lia. }
    case_if; [|lia]. eexists. split; [done|]. lia.
  - intros (n & Hn & Hz). destruct ((zlen port =? 0) || _) eqn:Hb; [done|].
    destruct (digits_value port <? 65536) eqn:Hv; [|done]. injection Hn as <-.
    apply orb_false_iff in Hb as [Hl Hd%negb_false_iff]. split; [intros ->; done|]. split; [done|].
    assert (0 ≤ digits_value port); [|lia]. apply forallb_digits in Hd. clear Hz Hv Hl.
    induction port as [|c port IH] using rev_ind; [done|]. rewrite digits_value_snoc.
    apply Forall_app in Hd as [Hd [Hc _]%Forall_cons]. specialize (IH Hd). lia.
Qed.

Lemma is_ipv4_exact ip : is_ipv4 ip = true ↔ ipv4 ip.
Proof.
  unfold is_ipv4, ipv4. rewrite bool_decide_eq_true. split.
  - intros Ht. exists (drop 12 ip). rewrite <-(take_drop 12 ip) at 1. by rewrite Ht, <-app_assoc.
  - by intros (fields & ->).
Qed.

Lemma is_ipv4_false ip : is_ipv4 ip = false ↔ ¬ ipv4 ip.
Proof. rewrite <-is_ipv4_exact. by destruct (is_ipv4 ip). Qed.

(** The only way to take a zone off. *)
Lemma zone_unique address zone address' zone' :
  address ++ str "%" ++ zone = address' ++ chr "%" :: zone' → (chr "%" ∉ zone) → (chr "%" ∉ zone') →
  address = address' ∧ zone = zone'.
Proof. apply last_split_unique. Qed.

Lemma zone_present address zone : chr "%" ∈ address ++ chr "%" :: zone.
Proof. apply elem_of_app. right. by left. Qed.

(** A text without a zone, and one with a zone. *)
Lemma ip_literal_plain text ip zone : (chr "%" ∉ text) →
  ip_literal text ip zone ↔ ParseIP text = Some ip ∧ zone = [].
Proof.
  intros Hn. split.
  - intros Hl. inversion Hl as [|a z i Hz Hne Hp H4]; subst; [done|]. destruct Hn. apply zone_present.
  - intros [Hp ->]. by constructor.
Qed.

Lemma ip_literal_zone address zone ip zone' : (chr "%" ∉ zone) →
  ip_literal (address ++ chr "%" :: zone) ip zone' ↔
  zone ≠ [] ∧ ParseIP address = Some ip ∧ is_ipv4 ip = false ∧ zone' = zone.
Proof.
  intros Hz. rewrite is_ipv4_false. split.
  - intros Hl. inversion Hl as [a i Hn Hp|a z i Hz' Hne Hp H4 Heq]; subst.
    + destruct Hn. apply zone_present.
    + by destruct (zone_unique _ _ _ _ Heq Hz' Hz) as [-> ->].
  - intros (Hne & Hp & H4 & ->). by constructor.
Qed.

Lemma host_name_plain text : (chr "%" ∉ text) → host_name text ↔ chr ":" ∉ text.
Proof.
  intros Hn. split; [by intros []|]. intros Hc. split; [done|]. intros a z ->. destruct Hn. apply zone_present.
Qed.

Lemma host_name_zone address zone : (chr "%" ∉ zone) →
  host_name (address ++ chr "%" :: zone) ↔
  (chr ":" ∉ address ++ chr "%" :: zone) ∧ zone ≠ [] ∧ ∀ ip, ParseIP address = Some ip → is_ipv4 ip = false.
Proof.
  intros Hz. unfold host_name. setoid_rewrite is_ipv4_false. split.
  - intros [Hc Ha]. by destruct (Ha address zone eq_refl Hz).
  - intros (Hc & Hne & Hi). split; [done|]. intros a z Heq Hz'.
    destruct (zone_unique _ _ _ _ (eq_sym Heq) Hz' Hz) as [-> ->]. done.
Qed.

Lemma bare_endpoint_exact value endpoint :
  bare_endpoint value = Ok endpoint ↔
  ((∃ ip zone, ip_literal value ip zone) ∨ host_name value) ∧ joined value (str "102") endpoint.
Proof.
  rewrite <-joined_exact. unfold bare_endpoint. change (Itoa DefaultPort) with (str "102").
  destruct (LastIndexByte_cases value (chr "%")) as [[-> Hn]|(a & z & -> & Hz & ->)]; cbv zeta.
  - cbn [Z.leb andb]. change (0 <=? -1) with false. cbv iota. cbn [andb].
    setoid_rewrite ip_literal_plain; [|done]. rewrite host_name_plain by done.
    rewrite (proj2 (Contains_false value (chr "%")) Hn). cbn [andb].
    destruct (ParseIP value) as [ip|].
    + split; [intros [= <-]|by intros [_ ->]]. split; [|done]. left. by exists ip, [].
    + destruct (Contains value (chr ":")) eqn:Hc; [apply Contains_true in Hc|apply Contains_false in Hc].
      * split; [done|]. by intros [[(? & ? & ? & _)|?] _].
      * split; [intros [= <-]|by intros [_ ->]]. split; [by right|done].
  - pose proof (zlen_nonneg a). pose proof (zlen_nonneg z).
    setoid_rewrite ip_literal_zone; [|done]. rewrite host_name_zone, sub_before by done.
    rewrite (proj2 (Contains_true _ (chr "%")) (zone_present a z)).
    rewrite (proj2 (Z.leb_le 0 (zlen a))) by lia. cbn [andb]. rewrite zlen_app, zlen_cons.
    destruct (zlen a =? _) eqn:Hl.
    { assert (z = []) as -> by (apply zlen_nil_inv; lia). split; [done|]. by intros [[(? & ? & ? & _)|(_ & ? & _)] _]. }
    assert (z ≠ []) as Hne by (intros ->; rewrite zlen_nil in Hl; lia).
    destruct (ParseIP a) as [ip|].
    + destruct (is_ipv4 ip) eqn:H4; [split; [done|]|].
      * intros [[(? & ? & _ & [= <-] & ? & _)|(_ & _ & Hi)] _]; [congruence|]. by rewrite (Hi ip eq_refl) in H4.
      * split; [intros [= <-]|by intros [_ ->]]. split; [|done]. left. by exists ip, z.
    + destruct (Contains _ (chr ":")) eqn:Hc; [apply Contains_true in Hc|apply Contains_false in Hc].
      * split; [done|]. by intros [[(? & ? & _ & ? & _)|(? & _)] _].
      * split; [intros [= <-]|by intros [_ ->]]. split; [by right|done].
Qed.

Lemma brackets_cases value :
  (∃ h, value = str "[" ++ h ++ str "]" ∧
        HasPrefix value (str "[") && HasSuffix value (str "]") = true ∧
        TrimSuffix (TrimPrefix value (str "[")) (str "]") = h) ∨
  (HasPrefix value (str "[") && HasSuffix value (str "]") = false ∧ ∀ h, value ≠ str "[" ++ h ++ str "]").
Proof.
  destruct (HasPrefix value (str "[") && _) eqn:Hb; [left|right].
  - apply andb_true_iff in Hb as [Hp Hs]. apply (HasPrefix_one _ (chr "[")) in Hp as Hr. destruct Hr as [r ->].
    apply (HasSuffix_one _ (chr "]")) in Hs as Hr. destruct Hr as [[|c h] Hr]; [done|]. injection Hr as <- ->.
    exists h. split; [done|]. split; [done|]. unfold TrimPrefix. rewrite Hp. cbn [length drop str].
    change (drop _ _) with (h ++ [chr "]"]). unfold TrimSuffix.
    rewrite (proj2 (HasSuffix_one _ (chr "]"))) by by eexists.
    rewrite length_app. cbn. rewrite Nat.add_sub. apply take_app_length.
  - split; [done|]. intros h ->. apply andb_false_iff in Hb as [Hb|Hb]; apply not_true_iff_false in Hb; apply Hb.
    + apply (HasPrefix_one _ (chr "[")). by eexists.
    + apply (HasSuffix_one _ (chr "]")). exists (str "[" ++ h). by rewrite <-app_assoc.
Qed.

Lemma normalizeEndpoint_exact input endpoint :
  normalizeEndpoint input = Ok endpoint ↔ endpoint_accepted input endpoint.
Proof.
  unfold normalizeEndpoint, endpoint_accepted. set (value := TrimSpace input). clearbody value. cbv zeta.
  destruct (zlen value =? 0) eqn:Hl.
  { assert (value = []) as -> by (apply zlen_nil_inv; lia). split; [done|].
    intros [_ [Hf|[? _]]]; [|done]. inversion Hf as [h p ? Hp|h ? _ [?|[<- _]] [Hne _] _]; [|done..].
    inversion Hp as [h' ? ? _ _ Heq|]. by destruct h'. }
  change (str "/\" ++ [0]) with [chr "/"; chr "\"; 0].
  destruct (ContainsAny value _) eqn:Hc.
  { split; [done|]. intros [Hs _]. apply (proj2 (ContainsAny_false _ _)) in Hs. by rewrite Hs in Hc. }
  pose proof (proj1 (ContainsAny_false _ _) Hc) as Hc'. clear Hc. rename Hc' into Hc.
  trans (endpoint_form value endpoint ∨ value = str "[]" ∧ endpoint = str ":102"); [|tauto]. clear Hc.
  destruct (SplitHostPort value) as [[host port]|] eqn:Hsp.
  - apply SplitHostPort_exact in Hsp as Hhp.
    trans (host ≠ [] ∧ port_text port ∧ joined host port endpoint).
    + rewrite port_text_exact, <-joined_exact. case_if.
      { split; [done|]. intros [Hne _]. destruct Hne. apply zlen_nil_inv. lia. }
      assert (host ≠ []) as Hne by (intros ->; done).
      destruct (ParseUint port 16) as [n|]; [|by split; [|intros (_ & (? & ? & _) & _)]].
      destruct (n =? 0) eqn:Hn; [split; [done|]; intros (_ & (n' & [= <-] & ?) & _); lia|].
      split; [intros [= <-]|by intros (_ & _ & ->)]. split; [done|]. split; [|done]. exists n. split; [done|lia].
    + split; [intros (? & ? & ?); left; by eapply endpoint_with_port|].
      intros [Hf|[-> _]]; [|done]. destruct Hf as [h p e Hhp' ? ? ?|h e Hno _ _ _]; [|by destruct (Hno host port)].
      apply SplitHostPort_exact in Hhp'. rewrite Hhp' in Hsp. by injection Hsp as -> ->.
  - assert (∀ h p, ¬ host_port value h p) as Hno.
    { intros h p Hp%SplitHostPort_exact. congruence. }
    assert (∀ h, (value = str "[" ++ h ++ str "]" ∨ value = h ∧ ∀ h', value ≠ str "[" ++ h' ++ str "]") →
      bare_endpoint h = Ok endpoint ↔ endpoint_form value endpoint ∨ value = str "[]" ∧ endpoint = str ":102") as Hbare.
    { intros h Hh. rewrite bare_endpoint_exact. split.
      - intros [Hform Hj]. destruct (decide (h = [])) as [->|Hne].
        + right. destruct Hh as [->|[-> _]]; [|done]. split; [done|]. by apply joined_exact in Hj as <-.
        + left. apply (endpoint_without_port value h); [done..|]. done.
      - intros [Hf|[-> ->]].
        + destruct Hf as [h' p e Hp|h' e _ Hh' [_ Hform] Hj]; [by destruct (Hno h' p)|].
          assert (h = h') as ->; [|done]. destruct Hh as [->|[-> Hn]], Hh' as [Heq|[Heq Hn']]; subst.
          * apply app_inv_head in Heq. by apply app_inv_tail in Heq.
          * by destruct (Hn' h).
          * by destruct (Hn h').
          * done.
        + assert (h = []) as ->; [|split; [right|by apply joined_exact]].
          * destruct Hh as [Hh|[_ Hn]]; [by destruct h as [|? [|? ?]]|by destruct (Hn [])].
          * apply host_name_plain; [apply not_elem_of_nil|apply not_elem_of_nil]. }
    destruct (brackets_cases value) as [(h & Heq & -> & Ht)|[-> Hn]]; apply Hbare; [left|by right].
    by rewrite Ht.
Qed.

Lemma normalizeLocalAddress_exact input port addr :
  normalizeLocalAddress input port = Ok addr ↔ local_address input port addr.
Proof.
  unfold normalizeLocalAddress. destruct (zlen (TrimSpace input) =? 0) eqn:Hl.
  { assert (TrimSpace input = []) as Hv by (apply zlen_nil_inv; lia). case_if.
    - split; [done|]. intros Ha. destruct Ha; [lia|done].
    - split; [intros [= <-]; constructor; [done|lia]|]. intros Ha. by destruct Ha. }
  assert (TrimSpace input ≠ []) as Hne by (intros Hv; by rewrite Hv in Hl).
  trans (∃ ip zone, ip_literal (TrimSpace input) ip zone ∧ addr = Some (mkTCPAddr ip port zone)).
  2: { split; [intros (ip & zone & ? & ->); by constructor|]. intros [|ip zone]; [done|]. by exists ip, zone. }
  clear Hl Hne. set (value := TrimSpace input). clearbody value. cbv zeta.
  destruct (LastIndexByte_cases value (chr "%")) as [[-> Hn]|(a & z & -> & Hz & ->)].
  - change (0 <=? -1) with false. cbn [andb]. setoid_rewrite ip_literal_plain; [|done].
    destruct (ParseIP value) as [ip|]; [|split; [done|]; by intros (? & ? & [? _] & _)].
    change (zlen [] =? 0) with true. cbn [negb andb]. split.
    + intros [= <-]. by exists ip, [].
    + by intros (? & ? & [[= <-] ->] & ->).
  - pose proof (zlen_nonneg a). rewrite sub_before, sub_after.
    rewrite (proj2 (Z.leb_le 0 (zlen a))) by lia. cbn [andb]. setoid_rewrite ip_literal_zone; [|done].
    destruct (zlen z =? 0) eqn:Hzl.
    { assert (z = []) as -> by (apply zlen_nil_inv; lia). split; [done|]. by intros (? & ? & [? _] & _). }
    assert (z ≠ []) as Hne by (intros ->; done). cbn [negb andb].
    destruct (ParseIP a) as [ip|]; [|split; [done|]; by intros (? & ? & (_ & ? & _) & _)].
    destruct (is_ipv4 ip) eqn:H4; (split; [try done|]).
    + intros (? & ? & (_ & [= <-] & ? & _) & _). congruence.
    + intros [= <-]. by exists ip, z.
    + by intros (? & ? & (_ & [= <-] & _ & ->) & ->).
Qed.

Lemma default_to_exact d x y : defaulted d x y ↔ y = default_to d x.
Proof. unfold defaulted, default_to. case_if; intuition lia. Qed.

Lemma with_defaults_exact input c : filled input c ↔ c = with_defaults input.
Proof.
  split.
  - intros []. unfold with_defaults. destruct c; cbn in *.
    repeat match goal with H : defaulted _ _ _ |- _ => apply default_to_exact in H; rewrite H end.
    by subst.
  - intros ->. constructor; try done; by apply default_to_exact.
Qed.

(** The conditions as the code tests them. *)
Definition tests_pass (input : Config) (n : normalizedConfig) : Prop :=
  nConfig n = with_defaults input ∧ settings_ok (with_defaults input) ∧
  normalizeEndpoint (Endpoint input) = Ok (nEndpoint n) ∧
  tsaps (AddressingOf input) (nLocalTSAP n) (nRemoteTSAP n) ∧
  normalizeLocalAddress (LocalAddress input) (LocalPort input) = Ok (nLocalAddr n).

Lemma accepted_exact input n : accepted input n ↔ tests_pass input n.
Proof.
  unfold tests_pass. rewrite normalizeEndpoint_exact, normalizeLocalAddress_exact. split.
  - intros [Hf Hs He Ht Hl]. apply with_defaults_exact in Hf. by rewrite <-Hf.
  - intros (Hf & Hs & He & Ht & Hl). rewrite <-Hf in Hs. constructor; [|done..]. by apply with_defaults_exact.
Qed.

Lemma normalizeEndpoint_returns v : returns (normalizeEndpoint v).
Proof.
  unfold normalizeEndpoint, bare_endpoint. repeat first [case_if | case_match | done].
Qed.
Lemma normalizeLocalAddress_returns v p : returns (normalizeLocalAddress v p).
Proof. unfold normalizeLocalAddress. repeat first [case_if | case_match | done]. Qed.

Lemma tsaps_functional a l r l' r' : tsaps a l r → tsaps a l' r' → l = l' ∧ r = r'.
Proof.
  intros H H'. destruct H; inversion H'; unfold AddressByRackSlot, AddressByTSAP in *; split; lia.
Qed.

Lemma normalizeConfig_tests input : addressing_values (AddressingOf input) →
  match normalizeConfig input with
  | Ok n => tests_pass input n
  | Err e => invalid_argument e ∧ ∀ n, ¬ tests_pass input n
  | Panic => False
  end.
Proof.
  intros Ha. unfold normalizeConfig, tests_pass.
  destruct (normalizeEndpoint (Endpoint input)) as [endpoint|why|] eqn:He.
  3: by destruct (normalizeEndpoint_returns (Endpoint input)).
  2: { cbn. split; [done|]. naive_solver. }
  cbn [invalid_text map_err mbind outcome_bind]. unfold maxTPKTFrame, minRequestedPDU, maxRequestedPDU.
  change (Z.shiftl 1 20) with 1048576. change (Z.shiftl 1 30) with 1073741824.
  change (Z.shiftl 1 31 - 1) with 2147483647.
  do 7 (case_if; [split; [done|]; intros n (_ & [] & _); lia|]).
  pose proof (validateAddressing_spec _ Ha) as Hv.
  change (AddressingOf (with_defaults input)) with (AddressingOf input).
  change (LocalAddress (with_defaults input)) with (LocalAddress input).
  change (LocalPort (with_defaults input)) with (LocalPort input).
  destruct (validateAddressing _) as [[l r]|e|]; cbn [mbind outcome_bind]; [| |done].
  2: { split; [apply Hv|]. intros n (_ & _ & _ & Ht & _). by apply Hv in Ht. }
  destruct (normalizeLocalAddress _ _) as [addr|why|] eqn:Hla; cbn [invalid_text map_err mbind outcome_bind].
  - split_and!; [done| |done|done|done]. constructor; lia.
  - split; [done|]. intros n (_ & _ & _ & _ & ?). done.
  - by destruct (normalizeLocalAddress_returns (LocalAddress input) (LocalPort input)).
Qed.

(** normalizeConfig fills in the defaults and accepts exactly the documented
    configurations; everything else is an invalid-argument error. *)
Lemma normalizeConfig_spec input : addressing_values (AddressingOf input) →
  match normalizeConfig input with
  | Ok n => accepted input n
  | Err e => invalid_argument e ∧ ∀ n, ¬ accepted input n
  | Panic => False
  end.
Proof.
  intros Ha%normalizeConfig_tests. destruct (normalizeConfig input) as [n|e|]; [by apply accepted_exact| |done].
  split; [apply Ha|]. intros n Hn%accepted_exact. by apply Ha in Hn.
Qed.

(** A normalised configuration normalises to itself: what [New] stores is a
    fixed point. *)
Theorem normalizeConfig_idempotent input n :
  normalizeConfig input = Ok n → normalizeConfig (nConfig n) = Ok n.
Proof.
  intros H. assert (nConfig n = with_defaults input) as ->.
  { unfold normalizeConfig in H. apply bind_Ok_inv in H as (endpoint & _ & H). inv_if H.
    apply bind_Ok_inv in H as ([l r] & _ & H). apply bind_Ok_inv in H as (addr & _ & H).
    by injection H as <-. }
  revert H. unfold normalizeConfig. rewrite with_defaults_idem. done.
Qed.

(** [normalizeEndpoint] lets an empty host through when it is written in
    brackets without a port: the result dials the local host, see
    [endpoint_accepted]. *)
Example endpoint_empty_brackets :
  normalizeEndpoint (str "[]") = Ok (str ":102") ∧
  normalizeEndpoint (str ":102") = Err "endpoint host is required"%string.
Proof. by split. Qed.

(** ** Properties *)

(** C40. normalizeConfig, which New calls, accepts exactly the configurations
    whose endpoint is a host with a port 1..65535 or a host alone, whose local
    address is an IP literal or absent, whose settings are in their ranges once
    a zero stands for the documented default, and whose addressing is one of the
    two schemes. It stores the filled settings, the endpoint to dial (port 102
    where none is given), the local address and the TSAPs; any other input is
    refused as an invalid argument. One endpoint without a host, empty brackets,
    is accepted as well. *)
Theorem normalizeConfig_exact input : addressing_values (AddressingOf input) →
  match normalizeConfig input with
  | Ok n => accepted input n
  | Err e => invalid_argument e ∧ ∀ n, ¬ accepted input n
  | Panic => False
  end.
Proof. apply normalizeConfig_spec. Qed.

(** A rack/slot configuration with the defaults. *)
Definition sample_config : Config :=
  mkConfig (str "plc-1") (mkAddressing AddressByRackSlot 0 2 ConnectionPG 0 0) [] 0 0 0 0 0 0 0 0 0 0.
Definition sample_normalized : normalizedConfig :=
  match normalizeConfig sample_config with
  | Ok n => n
  | _ => mkNormalized sample_config [] None 0 0
  end.

Lemma normalizeConfig_exact_witness : accepted sample_config sample_normalized.
Proof.
  refine (_ (normalizeConfig_exact sample_config _)); [|constructor; concrete].
  intros H. exact H.
Defined.
Lemma normalizeConfig_idempotent_witness :
  normalizeConfig (nConfig sample_normalized) = Ok sample_normalized.
Proof. apply (normalizeConfig_idempotent sample_config). reflexivity. Defined.
