(* ===== verification/Item.v ===== *)
(** * Item: logical items and their validation (item.go, and the mapping to
      wire descriptors of client.go)

    [Area], [TransportType] and [WriteOutcome] are [uint8] enumerations: any
    byte is a value of the type, so they are integers with named constants and
    the [default] branches are reachable. *)

From S2P Require Import Errors Protocol.

(** ** Areas *)

Definition AreaInput : Z := 1.
Definition AreaOutput : Z := 2.
Definition AreaMarker : Z := 3.
Definition AreaDB : Z := 4.
Definition AreaTimer : Z := 5.
Definition AreaCounter : Z := 6.

Definition Area_String (area : Z) : string :=
  if area =? AreaInput then "input"
  else if area =? AreaOutput then "output"
  else if area =? AreaMarker then "marker"
  else if area =? AreaDB then "db"
  else if area =? AreaTimer then "timer"
  else if area =? AreaCounter then "counter"
  else "area(" +:+ dec area +:+ ")".

(** ** Transports *)

Definition TransportBit : Z := 1.
Definition TransportByte : Z := 2.
Definition TransportWord : Z := 3.
Definition TransportDWord : Z := 4.
Definition TransportReal : Z := 5.
Definition TransportTimer : Z := 6.
Definition TransportCounter : Z := 7.

Definition TransportType_String (transport : Z) : string :=
  if transport =? TransportBit then "bit"
  else if transport =? TransportByte then "byte"
  else if transport =? TransportWord then "word"
  else if transport =? TransportDWord then "dword"
  else if transport =? TransportReal then "real"
  else if transport =? TransportTimer then "timer"
  else if transport =? TransportCounter then "counter"
  else "transport(" +:+ dec transport +:+ ")".

(** ** Items and results *)

(** [Address]: a byte offset for DB/I/Q/M, an element index for timers and counters. *)
Record Address := mkAddress {
  Area : Z;       (**r uint8 *)
  DBNumber : Z;   (**r uint16 *)
  Offset : Z;     (**r uint32 *)
  Bit : Z;        (**r uint8 *)
}.

Record ReadItem := mkReadItem { RAddress : Address; RTransport : Z; RCount : Z }.

Record WriteItem := mkWriteItem {
  WAddress : Address;
  WTransport : Z;
  WCount : Z;
  WData : list Z;
}.

Inductive WriteOutcome := WriteNotAttempted | WriteAcknowledged | WriteRejected | WriteUnknown.
Record WriteResult := mkWriteResult { Outcome : WriteOutcome; WErr : option error }.

(** A slice that may be re-sliced while others hold its array: the array from
    the slice's start, and how much of it the slice shows. *)
Record view := mkView { array : list Z; shown : Z }.
Definition view_of (l : list Z) : view := mkView l (zlen l).
Definition nil_view : view := mkView [] 0.
Definition visible (v : view) : list Z := sub (array v) 0 (shown v).

(** [ReadResult]: [Data] may share the caller's destination array. *)
Record ReadResult := mkReadResult { RData : view; RErr : option error }.

#[export] Instance Address_eq_dec : EqDecision Address.
Proof. solve_decision. Defined.
#[export] Instance ReadItem_eq_dec : EqDecision ReadItem.
Proof. solve_decision. Defined.
#[export] Instance WriteOutcome_eq_dec : EqDecision WriteOutcome.
Proof. solve_decision. Defined.

(** The values the Go types can hold. *)
Record address_values (a : Address) : Prop := {
  av_area : is_u8 (Area a);
  av_db : is_u16 (DBNumber a);
  av_offset : is_u32 (Offset a);
  av_bit : is_u8 (Bit a);
}.
Record read_item_values (i : ReadItem) : Prop := {
  rv_address : address_values (RAddress i);
  rv_transport : is_u8 (RTransport i);
  rv_count : is_u32 (RCount i);
}.
Record write_item_values (i : WriteItem) : Prop := {
  wv_read : read_item_values (mkReadItem (WAddress i) (WTransport i) (WCount i));
  wv_data : bytes (WData i);
}.

(** ** Wire layouts *)

Record itemLayout := mkLayout {
  wordLength : Z;
  responseTransport : Z;
  width : Z;
  lengthInBits : bool;
}.

Definition layoutFor (transport : Z) : option itemLayout :=
  if transport =? TransportBit then Some (mkLayout 0x01 0x03 1 false)
  else if transport =? TransportByte then Some (mkLayout 0x02 0x04 1 true)
  else if transport =? TransportWord then Some (mkLayout 0x04 0x04 2 true)
  else if transport =? TransportDWord then Some (mkLayout 0x06 0x04 4 true)
  else if transport =? TransportReal then Some (mkLayout 0x08 0x07 4 false)
  else if transport =? TransportTimer then Some (mkLayout 0x1d 0x09 2 false)
  else if transport =? TransportCounter then Some (mkLayout 0x1c 0x09 2 false)
  else None.

Definition wireArea (area : Z) : option Z :=
  if area =? AreaInput then Some 0x81
  else if area =? AreaOutput then Some 0x82
  else if area =? AreaMarker then Some 0x83
  else if area =? AreaDB then Some 0x84
  else if area =? AreaCounter then Some 0x1c
  else if area =? AreaTimer then Some 0x1d
  else None.

(** [area != AreaTimer && area != AreaCounter] *)
Definition byte_area (area : Z) : bool := negb (area =? AreaTimer) && negb (area =? AreaCounter).

(** ** Validation *)

Definition validateItemAddress (address : Address) (transport : Z) : result unit :=
  match layoutFor transport with
  | None => fails (invalidError "item.transport" "unsupported transport type")
  | Some _ =>
    _ ←
      (if Area address =? AreaDB then
         if DBNumber address =? 0
         then fails (invalidError "item.address.db_number" "DB area requires a non-zero DB number")
         else Ok tt
       else if (Area address =? AreaInput) || (Area address =? AreaOutput)
               || (Area address =? AreaMarker) then
         if negb (DBNumber address =? 0)
         then fails (invalidError "item.address.db_number" "non-DB area cannot include a DB number")
         else Ok tt
       else if Area address =? AreaTimer then
         if negb (DBNumber address =? 0) || negb (Bit address =? 0)
            || negb (transport =? TransportTimer)
         then fails (invalidError "item.address"
                     "timer area requires timer transport without DB or bit")
         else Ok tt
       else if Area address =? AreaCounter then
         if negb (DBNumber address =? 0) || negb (Bit address =? 0)
            || negb (transport =? TransportCounter)
         then fails (invalidError "item.address"
                     "counter area requires counter transport without DB or bit")
         else Ok tt
       else fails (invalidError "item.address.area" "unsupported area"));
    if byte_area (Area address) then
      if (transport =? TransportTimer) || (transport =? TransportCounter)
      then fails (invalidError "item.transport" "timer/counter transport requires its matching area")
      else
        _ ←
          (if transport =? TransportBit then
             if Bit address >? 7
             then fails (invalidError "item.address.bit" "bit must be between 0 and 7")
             else Ok tt
           else if negb (Bit address =? 0)
           then fails (invalidError "item.address.bit" "non-bit transport requires bit zero")
           else Ok tt);
        let bitAddress := u64 (u64 (Offset address * 8) + Bit address) in
        if bitAddress >? 0xFFFFFF
        then fails (limitError "item.address" "address exceeds the S7 24-bit field")
        else Ok tt
    else if Offset address >? 0xFFFFFF
    then fails (limitError "item.address" "timer/counter index exceeds the S7 24-bit field")
    else Ok tt
  end.

Definition itemDataLength (transport count : Z) : result Z :=
  match layoutFor transport with
  | None => fails (invalidError "item.transport" "unsupported transport type")
  | Some layout =>
      if count =? 0 then fails (invalidError "item.count" "count must be greater than zero")
      else if (transport =? TransportBit) && negb (count =? 1)
      then fails (invalidError "item.count" "v0.1 supports exactly one bit per bit item")
      else
        let bytes := u64 (count * width layout) in
        if bytes >? MaxInt then fails (limitError "item.count" "encoded data length overflows int")
        else Ok bytes
  end.

Definition validateReadItem (item : ReadItem) (maxItemBytes : Z) : result Z :=
  _ ← validateItemAddress (RAddress item) (RTransport item);
  length ← itemDataLength (RTransport item) (RCount item);
  if length >? maxItemBytes then fails (limitError "read.item" "item exceeds max_item_bytes")
  else if byte_area (Area (RAddress item)) then
    let end_ := if RTransport item =? TransportBit then Offset (RAddress item)
                else u64 (u64 (Offset (RAddress item) + length) - 1) in
    if u64 (end_ * 8) >? 0xFFFFFF
    then fails (limitError "read.item" "item span exceeds the S7 24-bit address field")
    else Ok length
  else
    let end_ := u64 (u64 (Offset (RAddress item) + RCount item) - 1) in
    if end_ >? 0xFFFFFF
    then fails (limitError "read.item" "timer/counter span exceeds the S7 24-bit address field")
    else Ok length.

Definition validateWriteItem (item : WriteItem) (maxItemBytes : Z) : result Z :=
  length ← validateReadItem (mkReadItem (WAddress item) (WTransport item) (WCount item))
             maxItemBytes;
  if WCount item >? MaxUint16
  then fails (limitError "write.item" "one WriteItem cannot exceed the S7 element-count field")
  else
    let layout := default (mkLayout 0 0 0 false) (layoutFor (WTransport item)) in
    let encodedLength := if lengthInBits layout then u64 (length * 8) else length in
    let encodedLength := if WTransport item =? TransportBit then WCount item else encodedLength in
    if encodedLength >? MaxUint16
    then fails (limitError "write.item" "encoded data length exceeds the S7 uint16 field")
    else if negb (zlen (WData item) =? length)
    then fails (invalidError "write.item.data" "data length does not match transport and count")
    else if WTransport item =? TransportBit then
      d0 ← index (WData item) 0;
      if d0 >? 1 then fails (invalidError "write.item.data" "bit data must be zero or one")
      else Ok length
    else Ok length.

(** ** Wire descriptors *)

Definition makeProtocolItem (address : Address) (transport count : Z) : result Protocol.Item :=
  if (count =? 0) || (count >? MaxUint16) then text "count exceeds one wire descriptor"
  else
    match layoutFor transport with
    | None => text "unsupported transport"
    | Some layout =>
        let dataBytes64 := u64 (count * width layout) in
        if dataBytes64 >? MaxInt then text "data length overflow"
        else
          match wireArea (Area address) with
          | None => text "unsupported area"
          | Some area =>
              let wireAddress :=
                if byte_area (Area address) then u32 (u32 (Offset address * 8) + Bit address)
                else Offset address in
              Ok (Protocol.mkItem (wordLength layout) (responseTransport layout) (u16 count)
                    (DBNumber address) area wireAddress dataBytes64 (lengthInBits layout))
          end
    end.

(** ** Which items are well formed *)

Definition width_of (transport : Z) : Z :=
  match layoutFor transport with Some l => width l | None => 0 end.
Definition in_bits (transport : Z) : bool :=
  match layoutFor transport with Some l => lengthInBits l | None => false end.

(** The area / DB number / transport / bit rules of an absolute address, and
    the 24-bit wire field. *)
Definition valid_address (a : Address) (transport : Z) : Prop :=
  1 ≤ transport ≤ 7 ∧
  (if byte_area (Area a) then
     AreaInput ≤ Area a ≤ AreaDB ∧ (Area a = AreaDB ↔ DBNumber a ≠ 0) ∧
     transport ≠ TransportTimer ∧ transport ≠ TransportCounter ∧
     Bit a ≤ (if transport =? TransportBit then 7 else 0) ∧
     Offset a * 8 + Bit a ≤ 0xFFFFFF
   else
     DBNumber a = 0 ∧ Bit a = 0 ∧ Offset a ≤ 0xFFFFFF ∧
     transport = (if Area a =? AreaTimer then TransportTimer else TransportCounter)).

(** The number of data bytes of an item. *)
Definition item_bytes (transport count : Z) : Z := count * width_of transport.

(** The wire address of the last byte or element of an item. *)
Definition last_address (i : ReadItem) : Z :=
  if byte_area (Area (RAddress i)) then
    (Offset (RAddress i) + item_bytes (RTransport i) (RCount i) - 1) * 8
  else Offset (RAddress i) + RCount i - 1.

Definition valid_read_item (i : ReadItem) (maxItemBytes : Z) : Prop :=
  valid_address (RAddress i) (RTransport i) ∧
  0 < RCount i ∧ (RTransport i = TransportBit → RCount i = 1) ∧
  item_bytes (RTransport i) (RCount i) ≤ maxItemBytes ∧
  last_address i ≤ 0xFFFFFF.

(** The length field an item announces on the wire. *)
Definition wire_length (transport count : Z) : Z :=
  if transport =? TransportBit then count
  else if in_bits transport then item_bytes transport count * 8 else item_bytes transport count.

Definition valid_write_item (i : WriteItem) (maxItemBytes : Z) : Prop :=
  valid_read_item (mkReadItem (WAddress i) (WTransport i) (WCount i)) maxItemBytes ∧
  WCount i ≤ MaxUint16 ∧ wire_length (WTransport i) (WCount i) ≤ MaxUint16 ∧
  zlen (WData i) = item_bytes (WTransport i) (WCount i) ∧
  (WTransport i = TransportBit → byte_at (WData i) 0 ≤ 1).

(** ** Layouts *)

(** The seven transports and their layouts. *)
Lemma layoutFor_Some t l : layoutFor t = Some l ↔
  (t, l) ∈ [(1, mkLayout 0x01 0x03 1 false); (2, mkLayout 0x02 0x04 1 true);
            (3, mkLayout 0x04 0x04 2 true); (4, mkLayout 0x06 0x04 4 true);
            (5, mkLayout 0x08 0x07 4 false); (6, mkLayout 0x1d 0x09 2 false);
            (7, mkLayout 0x1c 0x09 2 false)].
Proof.
  rewrite !elem_of_cons, elem_of_nil. split.
  - unfold layoutFor. repeat (case_if; [apply Z.eqb_eq in Heqb; intros [= <-]; subst; tauto|
      clear Heqb]). done.
  - intros H. repeat destruct H as [[= -> ->]|H]; done.
Qed.

Lemma layoutFor_None t : layoutFor t = None ↔ ¬ 1 ≤ t ≤ 7.
Proof.
  split.
  - intros H Ht. assert (t = 1 ∨ t = 2 ∨ t = 3 ∨ t = 4 ∨ t = 5 ∨ t = 6 ∨ t = 7) as Hc by lia.
    by destruct Hc as [->|[->|[->|[->|[->|[->| ->]]]]]].
  - intros Ht. destruct (layoutFor t) as [l|] eqn:H; [|done].
    apply layoutFor_Some in H. rewrite !elem_of_cons, elem_of_nil in H.
    repeat destruct H as [[= -> ->]|H]; done || lia.
Qed.

(** Case analysis on the transport of a goal that mentions its layout. *)
Ltac transport_cases t :=
  let H := fresh in let l := fresh "l" in
  destruct (layoutFor t) as [l|] eqn:H;
  [ apply layoutFor_Some in H; rewrite !elem_of_cons, elem_of_nil in H;
    repeat destruct H as [[= -> ->]|H]; [..|done]
  | apply layoutFor_None in H ].

Lemma width_of_range t : 1 ≤ t ≤ 7 → 1 ≤ width_of t ≤ 4.
Proof. intros Ht. unfold width_of. transport_cases t; cbn [width]; lia. Qed.

(** ** Validation accepts exactly the well-formed items *)

Lemma validateItemAddress_spec a t : address_values a →
  match validateItemAddress a t with
  | Ok _ => valid_address a t
  | Err _ => ¬ valid_address a t
  | Panic => False
  end.
Proof.
  intros [Ha Hd Ho Hb]. unfold validateItemAddress, valid_address, is_u8, is_u16, is_u32 in *.
  destruct (layoutFor t) eqn:Hl.
  2: { apply layoutFor_None in Hl. cbn. tauto. }
  assert (1 ≤ t ≤ 7) as Ht.
  { destruct (decide (1 ≤ t ≤ 7)); [done|]. by rewrite (proj2 (layoutFor_None t)) in Hl. }
  unfold u64. rewrite (Z.mod_small (Offset a * 8)), (Z.mod_small (Offset a * 8 + Bit a)) by lia.
  unfold byte_area, AreaInput, AreaOutput, AreaMarker, AreaDB, AreaTimer, AreaCounter,
    TransportBit, TransportTimer, TransportCounter in *.
  repeat (case_if; cbn [mbind outcome_bind negb andb]); cbn [mbind outcome_bind]; lia.
Qed.

Lemma itemDataLength_spec t c : is_u32 c → 1 ≤ t ≤ 7 →
  match itemDataLength t c with
  | Ok n => 0 < c ∧ (t = TransportBit → c = 1) ∧ n = item_bytes t c
  | Err _ => c = 0 ∨ t = TransportBit ∧ c ≠ 1
  | Panic => False
  end.
Proof.
  intros Hc Ht. pose proof (width_of_range t Ht) as Hw. unfold itemDataLength, item_bytes in *.
  unfold width_of in *. destruct (layoutFor t) as [l|]; [|lia].
  unfold is_u32, u64, MaxInt, TransportBit in *. rewrite Z.mod_small by nia.
  repeat case_if; try lia. nia.
Qed.

Lemma item_bytes_range t c : 1 ≤ t ≤ 7 → is_u32 c → 0 ≤ item_bytes t c < 2 ^ 34.
Proof. intros Ht Hc. pose proof (width_of_range t Ht). unfold item_bytes, is_u32 in *. nia. Qed.

(** ReadItem validation accepts exactly the well-formed items that fit the
    limit, and returns their data length. *)
Lemma validateReadItem_spec item maxItemBytes : read_item_values item →
  match validateReadItem item maxItemBytes with
  | Ok n => valid_read_item item maxItemBytes ∧ n = item_bytes (RTransport item) (RCount item)
  | Err _ => ¬ valid_read_item item maxItemBytes
  | Panic => False
  end.
Proof.
  intros [Ha Ht Hc]. unfold validateReadItem, valid_read_item.
  pose proof (validateItemAddress_spec (RAddress item) (RTransport item) Ha) as Hva.
  destruct (validateItemAddress _ _) as [[]| |]; cbn [mbind outcome_bind]; [|tauto|done].
  assert (1 ≤ RTransport item ≤ 7) as Ht7 by apply Hva.
  pose proof (itemDataLength_spec _ _ Hc Ht7) as Hl.
  pose proof (item_bytes_range _ _ Ht7 Hc).
  destruct (itemDataLength _ _) as [n| |]; cbn [mbind outcome_bind]; [|unfold TransportBit in *; lia|done].
  destruct Hl as (Hc0 & Hbit & ->). case_if; [lia|].
  destruct Ha as [_ _ Ho _]. unfold is_u32 in *. unfold last_address.
  assert (0 < item_bytes (RTransport item) (RCount item)).
  { pose proof (width_of_range _ Ht7). unfold item_bytes. lia. }
  destruct (byte_area _).
  - destruct (RTransport item =? TransportBit) eqn:Hb.
    + apply Z.eqb_eq in Hb. specialize (Hbit Hb). rewrite Hb, Hbit.
      change (item_bytes TransportBit 1) with 1. rewrite Hb, Hbit in *.
      unfold u64. rewrite Z.mod_small by lia. case_if; [lia|].
      change (item_bytes TransportBit 1) with 1 in *.
      split; [|done]. split; [done|]. split; [done|]. split; [done|]. lia.
    + unfold u64. rewrite (Z.mod_small (Offset _ + _)) by lia. rewrite (Z.mod_small (_ - 1)) by lia.
      rewrite Z.mod_small by lia. case_if; [lia|]. 
      split; [|done]. split; [done|]. split; [done|]. split; [done|]. lia.
  - unfold u64. rewrite (Z.mod_small (Offset _ + _)) by lia. rewrite (Z.mod_small (_ - 1)) by lia.
    case_if; [lia|]. 
      split; [|done]. split; [done|]. split; [done|]. split; [done|]. lia.
Qed.

(** WriteItem validation accepts exactly the well-formed items with the right
    amount of data. *)
Lemma validateWriteItem_spec item maxItemBytes : write_item_values item →
  match validateWriteItem item maxItemBytes with
  | Ok n => valid_write_item item maxItemBytes ∧ n = item_bytes (WTransport item) (WCount item)
  | Err _ => ¬ valid_write_item item maxItemBytes
  | Panic => False
  end.
Proof.
  intros [Hv _]. unfold validateWriteItem, valid_write_item.
  pose proof (validateReadItem_spec _ maxItemBytes Hv) as Hr. cbn [RTransport RCount] in Hr.
  destruct (validateReadItem _ _) as [n| |]; cbn [mbind outcome_bind]; [|tauto|done].
  destruct Hr as [Hr ->].
  assert (1 ≤ WTransport item ≤ 7) as Ht7 by apply Hr.
  pose proof (item_bytes_range _ _ Ht7 (rv_count _ Hv)). cbn [RCount] in *.
  assert (0 < item_bytes (WTransport item) (WCount item)).
  { pose proof (width_of_range _ Ht7). destruct Hr as (_ & ? & _). cbn in *. unfold item_bytes. lia. }
  unfold wire_length, in_bits. case_if; [lia|].
  assert (default (mkLayout 0 0 0 false) (layoutFor (WTransport item)) =
          default (mkLayout 0 0 0 false) (layoutFor (WTransport item)) ∧
          lengthInBits (default (mkLayout 0 0 0 false) (layoutFor (WTransport item))) =
          match layoutFor (WTransport item) with Some l => lengthInBits l | None => false end)
    as [_ ->] by by destruct (layoutFor _).
  unfold u64. rewrite Z.mod_small by lia.
  destruct (WTransport item =? TransportBit) eqn:Hb.
  - case_if; [intros (_&_&?&_); lia|]. case_if; [intros (_&_&_&?&_); lia|].
    rewrite index_Ok by lia. cbn [mbind outcome_bind].
    case_if; [intros (_&_&_&_&?); lia|].
    split; [split; [done|lia]|done].
  - case_if; [intros (_&_&?&_); lia|]. case_if; [intros (_&_&_&?&_); lia|].
    split; [split; [done|lia]|done].
Qed.

(** ** Wire descriptors of well-formed items *)

(** The wire code of an area and the wire address of an item. *)
Definition area_code (area : Z) : Z := default 0 (wireArea area).
Definition wire_address (a : Address) : Z :=
  if byte_area (Area a) then Offset a * 8 + Bit a else Offset a.

(** The descriptor of [count] elements of [transport] at [a]. *)
Definition descriptor (a : Address) (transport count : Z) : Protocol.Item :=
  let l := default (mkLayout 0 0 0 false) (layoutFor transport) in
  Protocol.mkItem (wordLength l) (responseTransport l) count (DBNumber a) (area_code (Area a))
    (wire_address a) (item_bytes transport count) (lengthInBits l).

Lemma valid_address_area a t : address_values a → valid_address a t → 1 ≤ Area a ≤ 6.
Proof.
  intros _ [_ H]. unfold byte_area, AreaInput, AreaDB, AreaTimer, AreaCounter in *.
  case_bool_decide || idtac. revert H. repeat case_if; cbn [andb negb]; lia.
Qed.

Lemma valid_address_wire a t : address_values a → valid_address a t →
  0 ≤ wire_address a ≤ 0xFFFFFF.
Proof.
  intros [Ha Hd Ho Hb] [_ H]. unfold wire_address, is_u8, is_u16, is_u32 in *.
  destruct (byte_area _); lia.
Qed.

(** The areas by number. *)
Lemma area_cases area : 1 ≤ area ≤ 6 → ∃ code, wireArea area = Some code ∧ is_u8 code ∧ code ≠ 0.
Proof.
  intros H. assert (area = 1 ∨ area = 2 ∨ area = 3 ∨ area = 4 ∨ area = 5 ∨ area = 6) as Hc by lia.
  destruct Hc as [->|[->|[->|[->|[->| ->]]]]]; by eexists; split; [|split].
Qed.

(** A well-formed address and a count that fits one descriptor always have a
    wire descriptor, and it is a valid one: no field is truncated or zero. *)
Lemma makeProtocolItem_valid a t count :
  address_values a → valid_address a t → 0 < count ≤ MaxUint16 → wire_length t count ≤ MaxUint16 →
  makeProtocolItem a t count = Ok (descriptor a t count) ∧
  Protocol.valid_item (descriptor a t count) ∧ Protocol.encoded_length (descriptor a t count) = wire_length t count.
Proof.
  intros Hv Ha Hc Hw. pose proof (valid_address_area a t Hv Ha) as Harea.
  pose proof (valid_address_wire a t Hv Ha) as Haddr.
  destruct (area_cases _ Harea) as (code & Hcode & Hc8 & Hc0).
  assert (1 ≤ t ≤ 7) as Ht by apply Ha. destruct Hv as [_ Hd Ho Hb].
  unfold MaxUint16 in *.
  assert (makeProtocolItem a t count = Ok (descriptor a t count)) as Hmake.
  { unfold makeProtocolItem, descriptor, area_code, item_bytes, width_of, wire_address, MaxUint16 in *.
    rewrite Hcode. case_if; [lia|]. destruct (layoutFor t) as [l|] eqn:Hl;
      [|apply layoutFor_None in Hl; lia].
    assert (1 ≤ width l ≤ 4) as Hwd.
    { pose proof (width_of_range t Ht). unfold width_of in *. by rewrite Hl in *. }
    unfold u64, MaxInt. rewrite (Z.mod_small (count * _)) by nia. case_if; [nia|].
    cbn [default]. rewrite u16_id by (unfold is_u16; lia). unfold is_u8, is_u32 in *.
    destruct (byte_area _); [|done].
    rewrite (u32_id (Offset a * 8)), u32_id by (unfold is_u32; lia). done. }
  split; [done|]. unfold wire_length, in_bits, item_bytes, width_of in Hw.
  unfold descriptor, area_code. rewrite Hcode. cbn [default].
  unfold wire_length, item_bytes, in_bits, width_of, TransportBit in *.
  transport_cases t; [..|done]; cbn [width lengthInBits wordLength responseTransport default] in *;
    (split; [constructor; unfold Protocol.encoded_length; cbn -[Z.mul Z.pow] in *; bool_lia | reflexivity]).
Qed.

(** C26. Nothing is lost on the wire: two well-formed items with the same
    descriptor are the same item. *)
Theorem makeProtocolItem_injective a t count a' t' count' w :
  address_values a → valid_address a t → wire_length t count ≤ MaxUint16 →
  address_values a' → valid_address a' t' → wire_length t' count' ≤ MaxUint16 →
  0 < count ≤ MaxUint16 → 0 < count' ≤ MaxUint16 →
  makeProtocolItem a t count = Ok w → makeProtocolItem a' t' count' = Ok w →
  a = a' ∧ t = t' ∧ count = count'.
Proof.
  intros Hv Ha Hl Hv' Ha' Hl' Hc Hc' Hm Hm'.
  destruct (makeProtocolItem_valid a t count) as [E _]; [done..|]. rewrite E in Hm.
  destruct (makeProtocolItem_valid a' t' count') as [E' _]; [done..|]. rewrite E' in Hm'.
  injection Hm as <-. injection Hm' as Hw Hr Hcnt Hdb Harea Haddr _ _.
  pose proof (valid_address_area _ _ Hv Ha) as H1. pose proof (valid_address_area _ _ Hv' Ha') as H2.
  assert (t = t') as ->.
  { assert (1 ≤ t ≤ 7) as Ht by apply Ha. assert (1 ≤ t' ≤ 7) as Ht' by apply Ha'.
    clear -Hw Ht Ht'. transport_cases t'; [..|lia]; transport_cases t; done || lia. }
  assert (Area a = Area a') as HA.
  { clear -Harea H1 H2. unfold area_code in *.
    assert (Area a = 1 ∨ Area a = 2 ∨ Area a = 3 ∨ Area a = 4 ∨ Area a = 5 ∨ Area a = 6) as Hc by lia.
    assert (Area a' = 1 ∨ Area a' = 2 ∨ Area a' = 3 ∨ Area a' = 4 ∨ Area a' = 5 ∨ Area a' = 6)
      as Hc' by lia.
    repeat destruct Hc as [Hc|Hc]; rewrite Hc in *; repeat destruct Hc' as [Hc'|Hc'];
      rewrite Hc' in *; done. }
  split; [|done]. destruct Ha as [_ Ha], Ha' as [_ Ha']. unfold wire_address in Haddr. rewrite HA in *.
  destruct Hv as [_ _ Ho Hb], Hv' as [_ _ Ho' Hb']. unfold is_u8, is_u32, TransportBit in *.
  assert (Offset a = Offset a' ∧ Bit a = Bit a') as [].
  { destruct (byte_area _); [|lia]. destruct (t' =? 1); lia. }
  destruct a, a'; cbn in *. congruence.
Qed.

(** ** Properties *)

(** C25. A write item is accepted exactly if it is well formed: an address its
    transport allows, inside the 24-bit wire field to its last byte, a count and
    an encoded length that fit one request, data of the exact length, and a bit
    of zero or one. The result is the data length; validation never panics. *)
Theorem validateWriteItem_exact item maxItemBytes : write_item_values item →
  match validateWriteItem item maxItemBytes with
  | Ok n => valid_write_item item maxItemBytes ∧ n = item_bytes (WTransport item) (WCount item)
  | Err _ => ¬ valid_write_item item maxItemBytes
  | Panic => False
  end.
Proof. apply validateWriteItem_spec. Qed.
Definition sample_write : WriteItem := mkWriteItem (mkAddress AreaDB 1 10 0) TransportWord 2 [1; 2; 3; 4].
Lemma sample_write_values : write_item_values sample_write.
Proof. repeat constructor; concrete. Qed.
Lemma sample_write_accepted : validateWriteItem sample_write 1024 = Ok 4.
Proof. vm_compute. reflexivity. Qed.

Lemma validateWriteItem_exact_witness : valid_write_item sample_write 1024.
Proof.
  pose proof (validateWriteItem_exact sample_write 1024 sample_write_values) as H.
  rewrite sample_write_accepted in H. exact (proj1 H).
Defined.

Lemma sample_address : address_values (mkAddress AreaDB 1 10 0) ∧
  valid_address (mkAddress AreaDB 1 10 0) TransportWord.
Proof.
  split; [constructor; concrete|]. split; [unfold TransportWord; lia|].
  change (byte_area (Area (mkAddress AreaDB 1 10 0))) with true. cbv iota. concrete.
Qed.

Lemma makeProtocolItem_injective_witness :
  mkAddress AreaDB 1 10 0 = mkAddress AreaDB 1 10 0 ∧ TransportWord = TransportWord ∧ 2 = 2.
Proof.
  apply (makeProtocolItem_injective (mkAddress AreaDB 1 10 0) TransportWord 2
    (mkAddress AreaDB 1 10 0) TransportWord 2 (descriptor (mkAddress AreaDB 1 10 0) TransportWord 2));
    (apply sample_address || concrete).
Defined.
