(* ===== verification/Address.v ===== *)
(** * Address: the textual form of addresses (address.go)

    The four regular expressions become matchers that follow the pattern from
    left to right: alternatives in their order with backtracking, and maximal
    digit runs (nothing that follows one in a pattern starts with a digit). *)

From S2P Require Import Errors GoText Item.

(** ** Matching *)

Fixpoint span_digits (s : list Z) : list Z * list Z :=
  match s with
  | c :: rest => if is_digit c then let '(ds, rest) := span_digits rest in (c :: ds, rest) else ([], s)
  | [] => ([], [])
  end.

(** [([0-9]+)]: the group and the rest of the text. *)
Definition digits (s : list Z) : option (list Z * list Z) :=
  match span_digits s with
  | ([], _) => None
  | (ds, rest) => Some (ds, rest)
  end.

(** [(a|b|...)] followed by [k]. *)
Fixpoint alternatives {A} (alts : list (list Z)) (k : list Z → list Z → option A) (s : list Z)
    : option A :=
  match alts with
  | [] => None
  | a :: alts =>
      match (if HasPrefix s a then k a (drop (length a) s) else None) with
      | Some r => Some r
      | None => alternatives alts k s
      end
  end.

(** [(?:\.([0-9]+))?$]: an unmatched group is the empty string. *)
Definition dot_digits (s : list Z) : option (list Z) :=
  match s with
  | [] => Some []
  | c :: s =>
      if c =? chr "." then
        match digits s with
        | Some (ds, []) => Some ds
        | _ => None
        end
      else None
  end.

(** [([0-9]+)$] *)
Definition digits_end (s : list Z) : option (list Z) :=
  match digits s with
  | Some (ds, []) => Some ds
  | _ => None
  end.

(** [([0-9]+)(?:\.([0-9]+))?$] *)
Definition offset_bit (s : list Z) : option (list Z * list Z) :=
  match digits s with
  | Some (os, s) => (λ bs, (os, bs)) <$> dot_digits s
  | None => None
  end.

Definition db_widths : list (list Z) := [str "DBX"; str "DBB"; str "DBW"; str "DBD"].

(** [^DB([0-9]+)\.(DBX|DBB|DBW|DBD)([0-9]+)(?:\.([0-9]+))?$] *)
Definition dbAddressPattern (value : list Z) : option (list Z * list Z * list Z * list Z) :=
  alternatives [str "DB"] (λ _ s,
    match digits s with
    | Some (db, s) =>
        alternatives [str "."] (λ _ s,
          alternatives db_widths (λ w s,
            (λ '(os, bs), (db, w, os, bs)) <$> offset_bit s) s) s
    | None => None
    end) value.

Definition memory_letters : list (list Z) := [str "I"; str "E"; str "Q"; str "A"; str "M"].
(** The last alternative is the group left out. *)
Definition memory_widths : list (list Z) := [str "X"; str "B"; str "W"; str "D"; []].

(** [^([IEQAM])(X|B|W|D)?([0-9]+)(?:\.([0-9]+))?$] *)
Definition memoryAddressPattern (value : list Z) : option (list Z * list Z * list Z * list Z) :=
  alternatives memory_letters (λ letter s,
    alternatives memory_widths (λ w s,
      (λ '(os, bs), (letter, w, os, bs)) <$> offset_bit s) s) value.

(** [^(?:T|TM)([0-9]+)$] *)
Definition timerAddressPattern (value : list Z) : option (list Z) :=
  alternatives [str "T"; str "TM"] (λ _, digits_end) value.

(** [^(?:C|CT|Z)([0-9]+)$] *)
Definition counterAddressPattern (value : list Z) : option (list Z) :=
  alternatives [str "C"; str "CT"; str "Z"] (λ _, digits_end) value.

(** ** Parsing *)

Definition parseUint (value : list Z) (max : Z) (label : string) : outcome string Z :=
  match ParseUint value 64 with
  | None => Err (label +:+ " is out of range")
  | Some parsed => if parsed >? max then Err (label +:+ " is out of range") else Ok parsed
  end.

(** [parseWidth(width, bitText, &address)]: the transport and the address. *)
Definition parseWidth (width bitText : list Z) (address : Address) : outcome string (Z * Address) :=
  if HasSuffix width (str "X") || bool_decide (width = str "X") then
    if bool_decide (bitText = []) then Err "bit address requires a .0 through .7 suffix"%string
    else
      bit ← parseUint bitText 7 "bit";
      Ok (TransportBit, mkAddress (Area address) (DBNumber address) (Offset address) (u8 bit))
  else if negb (bool_decide (bitText = [])) then Err "only bit addresses may include a bit suffix"%string
  else if HasSuffix width (str "B") then Ok (TransportByte, address)
  else if HasSuffix width (str "W") then Ok (TransportWord, address)
  else if HasSuffix width (str "D") then Ok (TransportDWord, address)
  else Err "address width is required"%string.

(** The offset and the width of a match, then the address check. *)
Definition parse_match (area db : Z) (width offset bit : list Z) : result (Address * Z) :=
  n ← invalid_text "address.parse" (parseUint offset MaxUint32 "offset");
  '(transport, address) ← invalid_text "address.parse"
    (parseWidth width bit (mkAddress area db (u32 n) 0));
  _ ← validateItemAddress address transport;
  Ok (address, transport).

Definition memory_area (letter : list Z) : Z :=
  if bool_decide (letter = str "I") || bool_decide (letter = str "E") then AreaInput
  else if bool_decide (letter = str "Q") || bool_decide (letter = str "A") then AreaOutput
  else AreaMarker.

(** A timer or counter of the given index. *)
Definition parse_index (area transport : Z) (index : list Z) (label : string) : result (Address * Z) :=
  n ← invalid_text "address.parse" (parseUint index 0xFFFFFF label);
  Ok (mkAddress area 0 (u32 n) 0, transport).

(** The text that is matched: no surrounding space, upper case, no leading [%]. *)
Definition address_text (input : list Z) : list Z :=
  TrimPrefix (ToUpper (TrimSpace input)) (str "%").

(** Empty, or with a space inside. *)
Definition blank (value : list Z) : bool :=
  bool_decide (value = []) || existsb (λ r, existsb (Z.eqb r) [32; 9; 13; 10]) value.

(** What the four patterns make of a text. *)
Definition parse_text (value : list Z) : result (Address * Z) :=
  match dbAddressPattern value with
  | Some (db, width, offset, bit) =>
      n ← invalid_text "address.parse" (parseUint db MaxUint16 "DB number");
      if n =? 0 then fails (invalidError "address.parse" "DB number must be non-zero")
      else parse_match AreaDB (u16 n) width offset bit
  | None =>
      match memoryAddressPattern value with
      | Some (letter, width, offset, bit) =>
          let width :=
            if bool_decide (width = []) && negb (bool_decide (bit = [])) then str "X" else width in
          parse_match (memory_area letter) 0 width offset bit
      | None =>
          match timerAddressPattern value with
          | Some index => parse_index AreaTimer TransportTimer index "timer index"
          | None =>
              match counterAddressPattern value with
              | Some index => parse_index AreaCounter TransportCounter index "counter index"
              | None => fails (invalidError "address.parse" "unsupported absolute-address syntax")
              end
          end
      end
  end.

Definition ParseAddress (input : list Z) : result (Address * Z) :=
  let value := address_text input in
  if blank value
  then fails (invalidError "address.parse" "address is empty or contains whitespace")
  else parse_text value.

(** ** Formatting *)

(** The text before the width letter of an address of a byte area. *)
Definition area_prefix (address : Address) : list Z :=
  if Area address =? AreaDB then str "DB" ++ Itoa (DBNumber address) ++ str ".DB"
  else if Area address =? AreaInput then str "I"
  else if Area address =? AreaOutput then str "Q"
  else if Area address =? AreaMarker then str "M"
  else [].

Definition FormatAddress (address : Address) (transport : Z) : result (list Z) :=
  _ ← validateItemAddress address transport;
  if Area address =? AreaTimer then Ok (str "T" ++ Itoa (Offset address))
  else if Area address =? AreaCounter then Ok (str "C" ++ Itoa (Offset address))
  else
    let prefix := area_prefix address in
    if transport =? TransportBit
    then Ok (prefix ++ str "X" ++ Itoa (Offset address) ++ str "." ++ Itoa (Bit address))
    else if transport =? TransportByte then Ok (prefix ++ str "B" ++ Itoa (Offset address))
    else if transport =? TransportWord then Ok (prefix ++ str "W" ++ Itoa (Offset address))
    else if (transport =? TransportDWord) || (transport =? TransportReal)
    then Ok (prefix ++ str "D" ++ Itoa (Offset address))
    else fails (invalidError "address.format" "transport has no byte-area text form").

(** The address corpus of the tests, and an input only Unicode case folding
    brings into the grammar. *)
Example parse_db_bit : ParseAddress (str " %db1.dbx0.7 ") = Ok (mkAddress AreaDB 1 0 7, TransportBit).
Proof. reflexivity. Qed.
Example parse_input : ParseAddress (str "%EX12.3") = Ok (mkAddress AreaInput 0 12 3, TransportBit).
Proof. reflexivity. Qed.
Example parse_bare_bit : ParseAddress (str "E0.0") = Ok (mkAddress AreaInput 0 0 0, TransportBit).
Proof. reflexivity. Qed.
Example parse_timer : ParseAddress (str "TM3") = Ok (mkAddress AreaTimer 0 3 0, TransportTimer).
Proof. reflexivity. Qed.
Example parse_dotless_i :
  ParseAddress (0x131 :: str "B4") = Ok (mkAddress AreaInput 0 4 0, TransportByte).
Proof. reflexivity. Qed.
Example parse_no_width : ParseAddress (str "M4") = fails (invalidError "address.parse" "address width is required").
Proof. reflexivity. Qed.

(** ** The grammar *)

Definition digits_ok (ds : list Z) : Prop := ds ≠ [] ∧ forallb is_digit ds = true.

(** A decimal numeral of a value up to [max]. *)
Definition numeral (ds : list Z) (n max : Z) : Prop :=
  digits_ok ds ∧ digits_value ds = n ∧ n ≤ max.

Definition bit_suffix (bs : list Z) : list Z :=
  match bs with [] => [] | _ => str "." ++ bs end.

(** [sized letter os bs offset bit transport]: a width letter with the texts of
    the offset and of the bit. *)
Inductive sized : list Z → list Z → list Z → Z → Z → Z → Prop :=
| sized_bit os bs offset bit :
    numeral os offset MaxUint32 → numeral bs bit 7 → sized (str "X") os bs offset bit TransportBit
| sized_byte os offset : numeral os offset MaxUint32 → sized (str "B") os [] offset 0 TransportByte
| sized_word os offset : numeral os offset MaxUint32 → sized (str "W") os [] offset 0 TransportWord
| sized_dword os offset : numeral os offset MaxUint32 → sized (str "D") os [] offset 0 TransportDWord.

(** The addresses a text spells, with the transport it hints at. *)
Inductive spelled : list Z → Address → Z → Prop :=
| spelled_db ds db letter os bs offset bit t :
    numeral ds db MaxUint16 → sized letter os bs offset bit t →
    spelled (str "DB" ++ ds ++ str ".DB" ++ letter ++ os ++ bit_suffix bs) (mkAddress AreaDB db offset bit) t
| spelled_memory m letter os bs offset bit t :
    m ∈ memory_letters → sized letter os bs offset bit t →
    spelled (m ++ letter ++ os ++ bit_suffix bs) (mkAddress (memory_area m) 0 offset bit) t
| spelled_bare_bit m os bs offset bit :
    m ∈ memory_letters → sized (str "X") os bs offset bit TransportBit →
    spelled (m ++ os ++ bit_suffix bs) (mkAddress (memory_area m) 0 offset bit) TransportBit
| spelled_timer p ds n : p ∈ [str "T"; str "TM"] → numeral ds n 0xFFFFFF →
    spelled (p ++ ds) (mkAddress AreaTimer 0 n 0) TransportTimer
| spelled_counter p ds n : p ∈ [str "C"; str "CT"; str "Z"] → numeral ds n 0xFFFFFF →
    spelled (p ++ ds) (mkAddress AreaCounter 0 n 0) TransportCounter.

(** ** Matchers *)

Definition no_digit (s : list Z) : Prop :=
  match s with [] => True | c :: _ => is_digit c = false end.

Lemma span_digits_spec s : ∃ ds rest, span_digits s = (ds, rest) ∧ s = ds ++ rest ∧
  forallb is_digit ds = true ∧ no_digit rest.
Proof.
  induction s as [|c s (ds & rest & E & -> & Hd & Hn)]; [by exists [], []|]. cbn [span_digits]. rewrite E.
  destruct (is_digit c) eqn:Hc; [exists (c :: ds), rest; cbn; by rewrite Hc|by exists [], (c :: ds ++ rest)].
Qed.

Lemma span_digits_app ds rest : forallb is_digit ds = true → no_digit rest →
  span_digits (ds ++ rest) = (ds, rest).
Proof.
  intros Hd Hn. induction ds as [|c ds IH].
  - destruct rest as [|c rest]; [done|]. cbn in *. by rewrite Hn.
  - cbn in *. apply andb_true_iff in Hd as [-> Hd]. by rewrite IH.
Qed.

Lemma digits_Some s ds rest : digits s = Some (ds, rest) ↔ digits_ok ds ∧ s = ds ++ rest ∧ no_digit rest.
Proof.
  unfold digits, digits_ok. split.
  - destruct (span_digits_spec s) as (ds' & rest' & -> & -> & ? & ?). destruct ds'; [done|]. by intros [= <- <-].
  - intros ([Hne Hd] & -> & Hn). rewrite span_digits_app by done. by destruct ds.
Qed.

Lemma dot_digits_Some s bs : dot_digits s = Some bs ↔ s = bit_suffix bs ∧ (bs = [] ∨ digits_ok bs).
Proof.
  destruct s as [|c s]; cbn [dot_digits].
  { split; [intros [= <-]; by split; [|left]|]. intros [H _]. by destruct bs. }
  split.
  - destruct (c =? chr ".") eqn:Hc; [|done]. apply Z.eqb_eq in Hc as ->.
    destruct (digits s) as [[ds [|]]|] eqn:Hd; try done. intros [= <-].
    apply digits_Some in Hd as (Hok & -> & _). rewrite app_nil_r. split; [|by right].
    by destruct ds; [destruct Hok|].
  - intros [H [->|Hok]]; [done|]. destruct bs as [|b bs]; [by destruct Hok|]. injection H as -> ->.
    change (46 =? chr ".") with true. rewrite (proj2 (digits_Some (b :: bs) (b :: bs) [])); [done|].
    by rewrite app_nil_r.
Qed.

Lemma offset_bit_Some s os bs : offset_bit s = Some (os, bs) ↔
  digits_ok os ∧ s = os ++ bit_suffix bs ∧ (bs = [] ∨ digits_ok bs).
Proof.
  unfold offset_bit. split.
  - destruct (digits s) as [[os' rest]|] eqn:Hd; [|done]. apply digits_Some in Hd as (Hok & -> & _).
    destruct (dot_digits rest) eqn:Hb; [|done]. intros [= <- <-]. by apply dot_digits_Some in Hb as [-> ?].
  - intros (Hok & -> & Hb). rewrite (proj2 (digits_Some _ os (bit_suffix bs))).
    + by rewrite (proj2 (dot_digits_Some _ bs)).
    + split_and!; [done|done|]. by destruct bs.
Qed.

Lemma digits_end_Some s ds : digits_end s = Some ds ↔ s = ds ∧ digits_ok ds.
Proof.
  unfold digits_end. split.
  - destruct (digits s) as [[ds' [|]]|] eqn:Hd; try done. intros [= <-].
    apply digits_Some in Hd as (? & -> & _). by rewrite app_nil_r.
  - intros [-> Hok]. rewrite (proj2 (digits_Some ds ds [])); [done|]. by rewrite app_nil_r.
Qed.

Lemma HasPrefix_app s p : HasPrefix s p = true ↔ ∃ s', s = p ++ s'.
Proof.
  revert s. induction p as [|c p IH]; intros s.
  - replace (HasPrefix s []) with true by (by destruct s). split; [intros _; by exists s|done].
  - destruct s as [|d s]; cbn; [split; [done|by intros [s' ?]]|]. rewrite andb_true_iff, IH, Z.eqb_eq.
    split; [intros [-> [s' ->]]; by exists s'|]. intros [s' [= -> ->]]. split; [done|by exists s'].
Qed.

Lemma alternatives_Some {A} alts (k : list Z → list Z → option A) s r : alternatives alts k s = Some r →
  ∃ a s', a ∈ alts ∧ s = a ++ s' ∧ k a s' = Some r.
Proof.
  induction alts as [|a alts IH]; [done|]. cbn [alternatives].
  assert (alternatives alts k s = Some r → ∃ b s', b ∈ a :: alts ∧ s = b ++ s' ∧ k b s' = Some r) as Hrest.
  { intros (b & s' & ? & ? & ?)%IH. exists b, s'. split; [by right|done]. }
  destruct (HasPrefix s a) eqn:Hp; [|done]. apply HasPrefix_app in Hp as [s' ->]. rewrite drop_app_length.
  destruct (k a s') eqn:Hk; [|done]. intros [= <-]. exists a, s'. split; [by left|done].
Qed.

Lemma alternatives_head {A} a alts (k : list Z → list Z → option A) s r :
  k a s = Some r → alternatives (a :: alts) k (a ++ s) = Some r.
Proof.
  intros Hk. cbn [alternatives]. rewrite (proj2 (HasPrefix_app (a ++ s) a)) by by exists s.
  by rewrite drop_app_length, Hk.
Qed.

Lemma alternatives_tail {A} a alts (k : list Z → list Z → option A) s :
  (∀ s', s = a ++ s' → k a s' = None) → alternatives (a :: alts) k s = alternatives alts k s.
Proof.
  intros Hk. cbn [alternatives]. destruct (HasPrefix s a) eqn:Hp; [|done].
  apply HasPrefix_app in Hp as [s' ->]. by rewrite drop_app_length, Hk.
Qed.

Lemma digits_ok_head ds rest c s : digits_ok ds → ds ++ rest = c :: s → is_digit c = true.
Proof. intros [Hne Hd]. destruct ds as [|d ds]; [done|]. cbn in *. intros [= <- _]. by apply andb_true_iff in Hd as [? _]. Qed.

Ltac skip_alternative :=
  rewrite alternatives_tail; [|intros ? Hskip; (by simplify_eq/=) || (by cbn in Hskip; eapply digits_ok_head in Hskip)].

Definition tail_ok (os bs : list Z) : Prop := digits_ok os ∧ (bs = [] ∨ digits_ok bs).

Lemma offset_bit_tail os bs : tail_ok os bs → offset_bit (os ++ bit_suffix bs) = Some (os, bs).
Proof. intros [? ?]. by apply offset_bit_Some. Qed.

Lemma dbAddressPattern_Some v db w os bs : dbAddressPattern v = Some (db, w, os, bs) ↔
  digits_ok db ∧ w ∈ db_widths ∧ tail_ok os bs ∧ v = str "DB" ++ db ++ str "." ++ w ++ os ++ bit_suffix bs.
Proof.
  unfold dbAddressPattern. split.
  - intros (p & s & Hp & -> & H)%alternatives_Some. apply list_elem_of_singleton in Hp as ->.
    destruct (digits s) as [[db' s1]|] eqn:Hd; [|done]. apply digits_Some in Hd as (Hok & -> & _).
    apply alternatives_Some in H as (p & s2 & Hp & -> & H). apply list_elem_of_singleton in Hp as ->.
    apply alternatives_Some in H as (w' & s3 & Hw & -> & H). destruct (offset_bit s3) as [[os' bs']|] eqn:Ho; [|done].
    apply offset_bit_Some in Ho as (? & -> & ?). injection H as <- <- <- <-. by split_and!.
  - intros (Hdb & Hw & Ht & ->). apply alternatives_head.
    rewrite (proj2 (digits_Some _ db (str "." ++ w ++ os ++ bit_suffix bs))) by by split_and!.
    apply alternatives_head. unfold db_widths in *. rewrite !elem_of_cons, elem_of_nil in Hw.
    destruct Hw as [->|[->|[->|[->|[]]]]]; repeat (skip_alternative || apply alternatives_head);
      by rewrite offset_bit_tail.
Qed.

Lemma memoryAddressPattern_Some v m w os bs : memoryAddressPattern v = Some (m, w, os, bs) ↔
  m ∈ memory_letters ∧ w ∈ memory_widths ∧ tail_ok os bs ∧ v = m ++ w ++ os ++ bit_suffix bs.
Proof.
  unfold memoryAddressPattern. split.
  - intros (m' & s & Hm & -> & H)%alternatives_Some. apply alternatives_Some in H as (w' & s3 & Hw & -> & H).
    destruct (offset_bit s3) as [[os' bs']|] eqn:Ho; [|done].
    apply offset_bit_Some in Ho as (? & -> & ?). injection H as <- <- <- <-. by split_and!.
  - intros (Hm & Hw & Ht & ->).
    assert (∀ m0 : list Z, alternatives memory_widths (λ w s, (λ '((os, bs) : list Z * list Z), (m0, w, os, bs)) <$> offset_bit s)
      (w ++ os ++ bit_suffix bs) = Some (m0, w, os, bs)) as Hin.
    { intros m0. destruct Ht as [Hos Hbs]. unfold memory_widths in *. rewrite !elem_of_cons, elem_of_nil in Hw.
      destruct Hw as [->|[->|[->|[->|[->|[]]]]]]; repeat (skip_alternative || apply alternatives_head);
        by rewrite offset_bit_tail. }
    unfold memory_letters in *. rewrite !elem_of_cons, elem_of_nil in Hm.
    destruct Hm as [->|[->|[->|[->|[->|[]]]]]]; repeat (skip_alternative || apply alternatives_head); apply Hin.
Qed.

Lemma index_pattern_Some alts v ds :
  alternatives alts (λ _, digits_end) v = Some ds → ∃ p, p ∈ alts ∧ digits_ok ds ∧ v = p ++ ds.
Proof. intros (p & s & Hp & -> & [-> Hok]%digits_end_Some)%alternatives_Some. by exists p. Qed.

Lemma timerAddressPattern_Some v ds : timerAddressPattern v = Some ds ↔
  ∃ p, p ∈ [str "T"; str "TM"] ∧ digits_ok ds ∧ v = p ++ ds.
Proof.
  split; [apply index_pattern_Some|]. intros (p & Hp & Hok & ->). rewrite !elem_of_cons, elem_of_nil in Hp.
  assert (digits_end ds = Some ds) by by apply digits_end_Some.
  unfold timerAddressPattern. destruct Hp as [->|[->|[]]]; repeat (skip_alternative || by apply alternatives_head).
Qed.

Lemma counterAddressPattern_Some v ds : counterAddressPattern v = Some ds ↔
  ∃ p, p ∈ [str "C"; str "CT"; str "Z"] ∧ digits_ok ds ∧ v = p ++ ds.
Proof.
  split; [apply index_pattern_Some|]. intros (p & Hp & Hok & ->). rewrite !elem_of_cons, elem_of_nil in Hp.
  assert (digits_end ds = Some ds) by by apply digits_end_Some.
  unfold counterAddressPattern. destruct Hp as [->|[->|[->|[]]]]; repeat (skip_alternative || by apply alternatives_head).
Qed.

(** ** Parsing *)

Lemma parseUint_Ok ds max label n : max < 2 ^ 64 → parseUint ds max label = Ok n ↔ numeral ds n max.
Proof.
  intros Hmax. unfold parseUint, ParseUint, numeral, digits_ok.
  assert (zlen ds = 0 ↔ ds = []) as Hz by (split; [apply zlen_nil_inv|by intros ->]).
  split.
  - case_if; [done|]. case_if; [|done]. case_if; [done|]. intros [= <-].
    apply orb_false_iff in Heqb as [H1 H2]. apply negb_false_iff in H2. split_and!; [|done|done|lia].
    intros ->. done.
  - intros [[Hne Hd] [<- Hle]]. rewrite Hd. destruct (zlen ds =? 0) eqn:E.
    { apply Z.eqb_eq, Hz in E. done. }
    cbn [orb negb]. case_if; [|lia]. by case_if; [lia|].
Qed.

Lemma parseUint_returns ds max label : returns (parseUint ds max label).
Proof. unfold parseUint. destruct (ParseUint ds 64); [case_if|]; done. Qed.

Lemma digits_value_nonneg ds : forallb is_digit ds = true → 0 ≤ digits_value ds.
Proof.
  induction ds as [|c ds IH] using rev_ind; [done|]. rewrite forallb_app, digits_value_snoc.
  intros [Hd Hc]%andb_true_iff. cbn in Hc. unfold is_digit in Hc. specialize (IH Hd). lia.
Qed.

Lemma numeral_range ds n max : numeral ds n max → 0 ≤ n ≤ max.
Proof. intros ([_ Hd] & <- & Hle). split; [by apply digits_value_nonneg|done]. Qed.

(** The width texts of the patterns and the letter they end in. *)
Inductive width_text : list Z → list Z → Prop :=
| width_short c : c ∈ [str "X"; str "B"; str "W"; str "D"] → width_text c c
| width_db c : c ∈ [str "X"; str "B"; str "W"; str "D"] → width_text (str "DB" ++ c) c.

Lemma parseWidth_Ok w letter bs area db offset t a : width_text w letter →
  parseWidth w bs (mkAddress area db offset 0) = Ok (t, a) ↔
  (letter = str "X" ∧ t = TransportBit ∧ ∃ bit, numeral bs bit 7 ∧ a = mkAddress area db offset bit) ∨
  (bs = [] ∧ a = mkAddress area db offset 0 ∧
   (letter = str "B" ∧ t = TransportByte ∨ letter = str "W" ∧ t = TransportWord ∨
    letter = str "D" ∧ t = TransportDWord)).
Proof.
  intros Hw. unfold parseWidth.
  assert (∃ b, letter = b ∧ b ∈ [str "X"; str "B"; str "W"; str "D"] ∧ HasSuffix w (str "X") = bool_decide (b = str "X") ∧
    HasSuffix w (str "B") = bool_decide (b = str "B") ∧ HasSuffix w (str "W") = bool_decide (b = str "W") ∧
    HasSuffix w (str "D") = bool_decide (b = str "D") ∧ (w = str "X" → b = str "X"))
    as (b & -> & Hb & -> & -> & -> & -> & Hx).
  { exists letter. destruct Hw as [c Hc|c Hc]; (split; [done|]); (split; [done|]);
      rewrite !elem_of_cons, elem_of_nil in Hc; by destruct Hc as [->|[->|[->|[->|[]]]]]. }
  replace (bool_decide (b = str "X") || bool_decide (w = str "X")) with (bool_decide (b = str "X")).
  2: { destruct (decide (w = str "X")) as [->|]; [by rewrite Hx|].
       by rewrite (bool_decide_eq_false_2 (w = _)), orb_false_r. }
  rewrite !elem_of_cons, elem_of_nil in Hb. destruct Hb as [->|Hb].
  - rewrite bool_decide_eq_true_2 by done. destruct (decide (bs = [])) as [->|Hne].
    { split; [done|]. intros [(_ & _ & bit & [[? _] _] & _)|(_ & _ & H)]; [done|naive_solver]. }
    rewrite bool_decide_eq_false_2 by done. split.
    + intros (bit & Hbit & [= <- <-])%bind_Ok_inv. apply parseUint_Ok in Hbit; [|lia]. left.
      split_and!; [done|done|]. exists bit. pose proof (numeral_range _ _ _ Hbit). split; [done|].
      by rewrite u8_id by (unfold is_u8; lia).
    + intros [(_ & -> & bit & Hbit & ->)|(-> & _)]; [|done]. pose proof (numeral_range _ _ _ Hbit).
      apply (parseUint_Ok bs 7 "bit") in Hbit as ->; [|lia]. cbn. by rewrite u8_id by (unfold is_u8; lia).
  - destruct Hb as [->|[->|[->|[]]]]; repeat (rewrite (bool_decide_eq_false_2 (str _ = str _)) by done);
    try (rewrite (bool_decide_eq_true_2 (str _ = str _)) by done);
    (destruct (decide (bs = [])) as [->|Hne];
     [rewrite bool_decide_eq_true_2 by done|rewrite bool_decide_eq_false_2 by done]); cbn; naive_solver.
Qed.

Lemma sized_iff letter os bs offset bit t : sized letter os bs offset bit t ↔
  numeral os offset MaxUint32 ∧
  (letter = str "X" ∧ t = TransportBit ∧ numeral bs bit 7 ∨
   bs = [] ∧ bit = 0 ∧ (letter = str "B" ∧ t = TransportByte ∨ letter = str "W" ∧ t = TransportWord ∨
     letter = str "D" ∧ t = TransportDWord)).
Proof.
  split; [destruct 1; naive_solver|].
  intros [Ho [(-> & -> & Hb)|(-> & -> & [[-> ->]|[[-> ->]|[-> ->]]])]]; by constructor.
Qed.

Lemma sized_tail letter os bs offset bit t : sized letter os bs offset bit t → tail_ok os bs.
Proof. rewrite sized_iff. intros [[? _] [(_ & _ & [? _])|[-> _]]]; split; [done|by right|done|by left]. Qed.

Lemma sized_values letter os bs area db offset bit t : is_u8 area → is_u16 db →
  sized letter os bs offset bit t → address_values (mkAddress area db offset bit).
Proof.
  rewrite sized_iff. intros Ha Hd [Ho%numeral_range Hb]. constructor; cbn; [done|done| |].
  - unfold MaxUint32, is_u32 in *. lia.
  - unfold is_u8. destruct Hb as [(_ & _ & Hb%numeral_range)|(_ & -> & _)]; lia.
Qed.

(** An address that was read is checked, and kept. *)
Lemma checked_Ok a t r : address_values a →
  (_ ← validateItemAddress a t; Ok (a, t)) = Ok r ↔ r = (a, t) ∧ valid_address a t.
Proof.
  intros Hv. pose proof (validateItemAddress_spec a t Hv) as Hs.
  destruct (validateItemAddress a t) as [[]|e|]; cbn; [|naive_solver..]. naive_solver.
Qed.

Lemma parseWidth_sized w letter os bs area db offset t a : width_text w letter → numeral os offset MaxUint32 →
  parseWidth w bs (mkAddress area db offset 0) = Ok (t, a) ↔
  ∃ bit, sized letter os bs offset bit t ∧ a = mkAddress area db offset bit.
Proof.
  intros Hw Ho. rewrite (parseWidth_Ok w letter) by done. setoid_rewrite sized_iff. split.
  - intros [(-> & -> & bit & Hb & ->)|(-> & -> & Ht)]; eexists; (split; [|done]); naive_solver.
  - intros (bit & [_ [(-> & -> & Hb)|(-> & -> & Ht)]] & ->); [left|right]; naive_solver.
Qed.

Lemma parse_match_Ok area db w letter os bs a t : is_u8 area → is_u16 db → width_text w letter →
  parse_match area db w os bs = Ok (a, t) ↔
  ∃ offset bit, sized letter os bs offset bit t ∧ a = mkAddress area db offset bit ∧ valid_address a t.
Proof.
  intros Ha Hdb Hw. unfold parse_match, invalid_text. split.
  - intros (n & Hn & H)%bind_Ok_inv. destruct (parseUint os MaxUint32 "offset") as [n'|e|] eqn:Ho; [|done..].
    injection Hn as ->. apply parseUint_Ok in Ho; [|done]. pose proof (numeral_range _ _ _ Ho) as Hr.
    rewrite u32_id in H by (unfold is_u32, MaxUint32 in *; lia). apply bind_Ok_inv in H as ([t' a'] & Hp & H).
    destruct (parseWidth w bs (mkAddress area db n 0)) as [[t1 a1]|e|] eqn:Hpw; [|done..]. injection Hp as -> ->.
    apply (parseWidth_sized w letter os) in Hpw as (bit & Hsz & ->); [|done..].
    apply checked_Ok in H as [[= -> ->] Hv]; [by exists n, bit|by eapply sized_values].
  - intros (n & bit & Hsz & -> & Hv). pose proof (proj1 (sized_iff _ _ _ _ _ _) Hsz) as [Hn _].
    pose proof (numeral_range _ _ _ Hn) as Hr. rewrite (proj2 (parseUint_Ok os MaxUint32 "offset" n eq_refl) Hn).
    cbn [map_err mbind outcome_bind]. rewrite u32_id by (unfold is_u32, MaxUint32 in *; lia).
    rewrite (proj2 (parseWidth_sized w letter os bs area db n t (mkAddress area db n bit) Hw Hn)) by by exists bit.
    cbn [map_err mbind outcome_bind]. apply checked_Ok; [by eapply sized_values|done].
Qed.

Lemma parse_index_Ok area transport ds label a t :
  parse_index area transport ds label = Ok (a, t) ↔
  ∃ n, numeral ds n 0xFFFFFF ∧ a = mkAddress area 0 n 0 ∧ t = transport.
Proof.
  unfold parse_index, invalid_text. split.
  - intros (n & Hn & [= <- <-])%bind_Ok_inv. destruct (parseUint ds 0xFFFFFF label) as [n'|e|] eqn:Ho; [|done..].
    injection Hn as ->. apply parseUint_Ok in Ho; [|done]. pose proof (numeral_range _ _ _ Ho).
    exists n. by rewrite u32_id by (unfold is_u32; lia).
  - intros (n & Hn & -> & ->). pose proof (numeral_range _ _ _ Hn).
    rewrite (proj2 (parseUint_Ok ds 0xFFFFFF label n eq_refl) Hn). cbn. by rewrite u32_id by (unfold is_u32; lia).
Qed.

(** Without a width there must be a bit. *)
Lemma parse_match_bare area os : ∀ r, parse_match area 0 [] os [] ≠ Ok r.
Proof.
  intros r. unfold parse_match, invalid_text. intros (n & _ & H)%bind_Ok_inv. done.
Qed.

(** The characters of a spelled address. *)
Definition plain (c : Z) : bool := is_digit c || (65 <=? c) && (c <=? 90) || (c =? 46).

Lemma plain_digits ds : digits_ok ds → forallb plain ds = true.
Proof.
  intros [_ Hd]. apply forallb_forall. intros c Hc. rewrite forallb_forall in Hd.
  unfold plain. by rewrite (Hd c Hc).
Qed.

Lemma plain_tail os bs : tail_ok os bs → forallb plain (os ++ bit_suffix bs) = true.
Proof.
  intros [Hos Hbs]. rewrite forallb_app, (plain_digits os Hos).
  destruct bs as [|b bs]; [done|]. destruct Hbs as [?|Hbs]; [done|]. unfold bit_suffix.
  by rewrite forallb_app, (plain_digits _ Hbs).
Qed.

Lemma spelled_plain v a t : spelled v a t → forallb plain v = true ∧ v ≠ [].
Proof.
  assert (∀ letter os bs offset bit t, sized letter os bs offset bit t →
    forallb plain (letter ++ os ++ bit_suffix bs) = true) as Hsz.
  { intros letter os bs offset bit t0 Hsz. rewrite forallb_app, plain_tail by by eapply sized_tail.
    apply sized_iff in Hsz as [_ Hl]. by destruct Hl as [(-> & _)|(_ & _ & [[-> _]|[[-> _]|[-> _]]])]. }
  destruct 1 as [ds db letter os bs offset bit t [Hd _] H|m letter os bs offset bit t Hm H|m os bs offset bit Hm H
                |p ds n Hp [Hd _]|p ds n Hp [Hd _]].
  - split; [|done]. specialize (Hsz _ _ _ _ _ _ H). rewrite !forallb_app in *.
    rewrite (plain_digits ds Hd). cbn [str forallb andb]. by rewrite Hsz.
  - specialize (Hsz _ _ _ _ _ _ H). unfold memory_letters in Hm. rewrite !elem_of_cons, elem_of_nil in Hm.
    rewrite (forallb_app _ m), Hsz. by destruct Hm as [->|[->|[->|[->|[->|[]]]]]].
  - rewrite (forallb_app _ m), plain_tail by by eapply sized_tail.
    unfold memory_letters in Hm. rewrite !elem_of_cons, elem_of_nil in Hm.
    by destruct Hm as [->|[->|[->|[->|[->|[]]]]]].
  - rewrite forallb_app, (plain_digits ds Hd). rewrite !elem_of_cons, elem_of_nil in Hp. by destruct Hp as [->|[->|[]]].
  - rewrite forallb_app, (plain_digits ds Hd). rewrite !elem_of_cons, elem_of_nil in Hp.
    by destruct Hp as [->|[->|[->|[]]]].
Qed.

Lemma plain_not_blank v : forallb plain v = true → v ≠ [] → blank v = false.
Proof.
  intros Hp Hne. unfold blank. rewrite bool_decide_eq_false_2 by done. cbn [orb].
  induction v as [|c v IH]; [done|]. cbn [existsb forallb] in *. apply andb_true_iff in Hp as [Hc Hp].
  destruct v as [|d v]; [|rewrite IH by done]; unfold plain, is_digit in Hc; cbn [existsb]; lia.
Qed.

Lemma memory_area_u8 m : is_u8 (memory_area m).
Proof. unfold memory_area. repeat case_if; done. Qed.

Lemma width_db_iff w : w ∈ db_widths → ∃ letter, width_text w letter ∧ w = str "DB" ++ letter.
Proof.
  unfold db_widths. rewrite !elem_of_cons, elem_of_nil. intros [->|[->|[->|[->|[]]]]].
  - exists (str "X"). split; [|done]. apply (width_db (str "X")). set_solver.
  - exists (str "B"). split; [|done]. apply (width_db (str "B")). set_solver.
  - exists (str "W"). split; [|done]. apply (width_db (str "W")). set_solver.
  - exists (str "D"). split; [|done]. apply (width_db (str "D")). set_solver.
Qed.

Lemma memory_width w : w ∈ memory_widths → w ≠ [] → width_text w w.
Proof. unfold memory_widths. rewrite !elem_of_cons, elem_of_nil. intros Hw Hne. constructor. set_solver. Qed.

Lemma parse_text_sound v a t : parse_text v = Ok (a, t) → spelled v a t ∧ valid_address a t.
Proof.
  unfold parse_text. destruct (dbAddressPattern v) as [[[[db w] os] bs]|] eqn:Hdb.
  { apply dbAddressPattern_Some in Hdb as (_ & Hw & _ & ->). intros (n & Hn & H)%bind_Ok_inv.
    destruct (parseUint db MaxUint16 "DB number") as [n'|e|] eqn:Hp; [|done..]. injection Hn as ->.
    apply parseUint_Ok in Hp; [|done]. pose proof (numeral_range _ _ _ Hp) as Hr.
    assert (is_u16 n) as Hu by (unfold MaxUint16, is_u16 in *; lia).
    destruct (n =? 0); [done|]. rewrite u16_id in H by done. destruct (width_db_iff w Hw) as (letter & Hl & ->).
    apply (parse_match_Ok _ _ _ letter) in H as (offset & bit & Hsz & -> & Hv); [|done..].
    split; [|done]. by apply (spelled_db db n letter). }
  destruct (memoryAddressPattern v) as [[[[m w] os] bs]|] eqn:Hmem.
  { apply memoryAddressPattern_Some in Hmem as (Hm & Hw & _ & ->). cbv zeta.
    destruct (decide (w = [])) as [->|Hne].
    - destruct (decide (bs = [])) as [->|Hb]; [by intros ?%parse_match_bare|].
      rewrite (bool_decide_eq_false_2 (bs = [])) by done. cbn [bool_decide decide andb negb].
      intros (offset & bit & Hsz & -> & Hv)%(parse_match_Ok _ _ _ (str "X")); [|apply memory_area_u8|done|constructor; set_solver].
      split; [|done]. assert (t = TransportBit) as ->.
      { apply sized_iff in Hsz as [_ [(_ & -> & _)|(? & _)]]; done. }
      by apply spelled_bare_bit.
    - rewrite bool_decide_eq_false_2 by done. cbn [andb].
      intros (offset & bit & Hsz & -> & Hv)%(parse_match_Ok _ _ _ w); [|apply memory_area_u8|done|by apply memory_width].
      split; [|done]. by apply spelled_memory. }
  destruct (timerAddressPattern v) as [ds|] eqn:Ht.
  { apply timerAddressPattern_Some in Ht as (p & Hp & _ & ->). intros (n & Hn & -> & ->)%parse_index_Ok.
    split; [by constructor|]. pose proof (numeral_range _ _ _ Hn). split; [done|]. cbn. lia. }
  destruct (counterAddressPattern v) as [ds|] eqn:Hc; [|done].
  apply counterAddressPattern_Some in Hc as (p & Hp & _ & ->). intros (n & Hn & -> & ->)%parse_index_Ok.
  split; [by constructor|]. pose proof (numeral_range _ _ _ Hn). split; [done|]. cbn. lia.
Qed.

Lemma no_dbAddressPattern c v : c ≠ 68 → dbAddressPattern (c :: v) = None.
Proof.
  intros Hc. destruct (dbAddressPattern (c :: v)) as [[[[db w] os] bs]|] eqn:E; [|done].
  apply dbAddressPattern_Some in E as (_ & _ & _ & [= -> _]). done.
Qed.

Lemma memory_not_db m v : m ∈ memory_letters → dbAddressPattern (m ++ v) = None.
Proof.
  unfold memory_letters. rewrite !elem_of_cons, elem_of_nil.
  intros [->|[->|[->|[->|[->|[]]]]]]; by apply no_dbAddressPattern.
Qed.

Lemma no_memoryAddressPattern c v : [c] ∉ memory_letters → memoryAddressPattern (c :: v) = None.
Proof.
  intros Hc. destruct (memoryAddressPattern (c :: v)) as [[[[m w] os] bs]|] eqn:E; [|done].
  apply memoryAddressPattern_Some in E as (Hm & _ & _ & Hv). destruct Hc.
  unfold memory_letters in *. rewrite !elem_of_cons, elem_of_nil in Hm.
  destruct Hm as [->|[->|[->|[->|[->|[]]]]]]; injection Hv as -> _; set_solver.
Qed.

Lemma no_timerAddressPattern c v : c ≠ 84 → timerAddressPattern (c :: v) = None.
Proof.
  intros Hc. destruct (timerAddressPattern (c :: v)) as [ds|] eqn:E; [|done].
  apply timerAddressPattern_Some in E as (p & Hp & _ & Hv). rewrite !elem_of_cons, elem_of_nil in Hp.
  by destruct Hp as [->|[->|[]]]; injection Hv as -> _.
Qed.

Lemma parse_text_complete v a t : spelled v a t → valid_address a t → parse_text v = Ok (a, t).
Proof.
  intros Hs Hv. unfold parse_text.
  destruct Hs as [ds db letter os bs offset bit t Hd H|m letter os bs offset bit t Hm H|m os bs offset bit Hm H
                 |p ds n Hp Hd|p ds n Hp Hd].
  - pose proof (numeral_range _ _ _ Hd) as Hr. assert (is_u16 db) as Hu by (unfold MaxUint16, is_u16 in *; lia).
    assert (str "DB" ++ letter ∈ db_widths ∧ width_text (str "DB" ++ letter) letter) as [Hw Hl].
    { apply sized_iff in H as [_ [(-> & _)|(_ & _ & [[-> _]|[[-> _]|[-> _]]])]];
        (split; [unfold db_widths; set_solver|apply width_db; set_solver]). }
    rewrite (proj2 (dbAddressPattern_Some _ ds (str "DB" ++ letter) os bs)).
    2: { split_and!; [apply Hd|done|by eapply sized_tail|done]. }
    unfold invalid_text. rewrite (proj2 (parseUint_Ok ds MaxUint16 "DB number" db eq_refl) Hd).
    cbn [map_err mbind outcome_bind]. destruct (db =? 0) eqn:Hz.
    { apply Z.eqb_eq in Hz as ->. destruct Hv as (_ & _ & [Hdb _] & _). by destruct Hdb. }
    rewrite u16_id by done. apply (parse_match_Ok _ _ _ letter); [done..|]. by exists offset, bit.
  - assert (letter ∈ memory_widths ∧ letter ≠ [] ∧ width_text letter letter) as (Hw & Hne & Hl).
    { apply sized_iff in H as [_ [(-> & _)|(_ & _ & [[-> _]|[[-> _]|[-> _]]])]];
        (split_and!; [unfold memory_widths; set_solver|done|constructor; set_solver]). }
    rewrite (proj2 (memoryAddressPattern_Some _ m letter os bs)) by (split_and!; [done|done|by eapply sized_tail|done]).
    rewrite memory_not_db by done.
    cbv zeta. rewrite bool_decide_eq_false_2 by done. cbn [andb].
    apply (parse_match_Ok _ _ _ letter); [apply memory_area_u8|done|done|]. by exists offset, bit.
  - rewrite (proj2 (memoryAddressPattern_Some _ m [] os bs)).
    2: { split_and!; [done|unfold memory_widths; set_solver|by eapply sized_tail|done]. }
    rewrite memory_not_db by done.
    cbv zeta. assert (bs ≠ []) as Hne.
    { apply sized_iff in H as [_ [(_ & _ & [[? _] _])|(_ & _ & Hl)]]; [done|]. naive_solver. }
    rewrite (bool_decide_eq_false_2 (bs = [])) by done. cbn [bool_decide decide andb negb].
    apply (parse_match_Ok _ _ _ (str "X")); [apply memory_area_u8|done|constructor; set_solver|]. by exists offset, bit.
  - rewrite (proj2 (timerAddressPattern_Some (p ++ ds) ds)) by (exists p; split_and!; [done|apply Hd|done]).
    rewrite !elem_of_cons, elem_of_nil in Hp.
    destruct Hp as [->|[->|[]]]; cbn [app str]; (rewrite no_dbAddressPattern by done);
      (rewrite no_memoryAddressPattern by (unfold memory_letters; set_solver)); apply parse_index_Ok; by exists n.
  - rewrite (proj2 (counterAddressPattern_Some (p ++ ds) ds)) by (exists p; split_and!; [done|apply Hd|done]).
    rewrite !elem_of_cons, elem_of_nil in Hp.
    destruct Hp as [->|[->|[->|[]]]]; cbn [app str]; (rewrite no_dbAddressPattern by done);
      (rewrite no_memoryAddressPattern by (unfold memory_letters; set_solver));
      (rewrite no_timerAddressPattern by done); apply parse_index_Ok; by exists n.
Qed.

(** Spelled text is left alone by trimming and folding. *)
Lemma address_text_plain v : forallb plain v = true → address_text v = v.
Proof.
  intros Hp. unfold address_text. assert (TrimSpace v = v) as ->.
  { assert (∀ u, forallb plain u = true → drop_while IsSpace u = u) as Hd.
    { intros [|c u]; [done|]. cbn. intros [Hc _]%andb_true_iff.
      replace (IsSpace c) with false; [done|]. unfold plain, is_digit in Hc. unfold IsSpace. cbn [existsb]. lia. }
    unfold TrimSpace, trim_right. rewrite (Hd v) by done. rewrite Hd, rev_involutive; [done|].
    rewrite forallb_forall in *. intros c Hc. apply Hp. by apply in_rev. }
  assert (ToUpper v = v) as ->.
  { unfold ToUpper. induction v as [|c v IH]; [done|]. cbn in *. apply andb_true_iff in Hp as [Hc Hp].
    f_equal; [|by apply IH]. unfold plain, is_digit in Hc. unfold ToUpper_rune. repeat case_if; lia. }
  unfold TrimPrefix. destruct (HasPrefix v (str "%")) eqn:E; [|done].
  apply HasPrefix_app in E as [s' ->]. done.
Qed.

Lemma ParseAddress_spelled v a t : spelled v a t → valid_address a t → ParseAddress v = Ok (a, t).
Proof.
  intros Hs Hv. destruct (spelled_plain v a t Hs) as [Hp Hne]. unfold ParseAddress.
  rewrite address_text_plain, plain_not_blank by done. by apply parse_text_complete.
Qed.

Lemma parse_text_values v a t : spelled v a t → address_values a.
Proof.
  destruct 1 as [ds db letter os bs offset bit t Hd H|m letter os bs offset bit t Hm H|m os bs offset bit Hm H
                |p ds n Hp Hd|p ds n Hp Hd].
  - eapply sized_values; [done| |done]. apply numeral_range in Hd. unfold MaxUint16, is_u16 in *. lia.
  - eapply sized_values; [apply memory_area_u8|done|done].
  - eapply sized_values; [apply memory_area_u8|done|done].
  - apply numeral_range in Hd. constructor; cbn; [done|done|unfold is_u32; lia|done].
  - apply numeral_range in Hd. constructor; cbn; [done|done|unfold is_u32; lia|done].
Qed.

(** ** Errors *)

(** An error that says the input is at fault and leaves the session alone. *)
Definition input_error (e : error) : Prop :=
  ∃ f, e = EGos7 f ∧ Impact f = SessionUnchanged ∧ (Kind f = ErrorInvalidArgument ∨ Kind f = ErrorLimit).

Lemma invalid_input op why : input_error (EGos7 (invalidError op why)).
Proof. eexists. by split_and!; [..|left]. Qed.
Lemma limit_input op why : input_error (EGos7 (limitError op why)).
Proof. eexists. by split_and!; [..|right]. Qed.

(** A computation that returns, with at most an input error. *)
Definition checks {A} (m : result A) : Prop :=
  match m with Ok _ => True | Err e => input_error e | Panic => False end.

Lemma bind_checks {A B} (m : result A) (f : A → result B) : checks m → (∀ a, checks (f a)) → checks (m ≫= f).
Proof. destruct m; cbn; [by intros _|done..]. Qed.

Lemma invalid_text_checks {A} op (m : outcome string A) : returns m → checks (invalid_text op m).
Proof. destruct m; cbn; [done| |done]. intros _. apply invalid_input. Qed.

Lemma validateItemAddress_checks a t : checks (validateItemAddress a t).
Proof.
  unfold validateItemAddress. destruct (layoutFor t); [|apply invalid_input].
  repeat (case_if || apply bind_checks || intros ? || apply invalid_input || apply limit_input || exact I).
Qed.

Lemma parse_match_checks area db w os bs : checks (parse_match area db w os bs).
Proof.
  unfold parse_match. apply bind_checks; [apply invalid_text_checks, parseUint_returns|]. intros n.
  apply bind_checks; [apply invalid_text_checks|].
  - unfold parseWidth. repeat (case_if; try done). apply bind_returns; [apply parseUint_returns|done].
  - intros [t a]. apply bind_checks; [apply validateItemAddress_checks|done].
Qed.

Lemma ParseAddress_checks input : checks (ParseAddress input).
Proof.
  assert (∀ area transport ds label, checks (parse_index area transport ds label)) as Hi.
  { intros. apply bind_checks; [apply invalid_text_checks, parseUint_returns|done]. }
  unfold ParseAddress. case_if; [apply invalid_input|]. unfold parse_text.
  destruct (dbAddressPattern _) as [[[[db w] os] bs]|].
  { apply bind_checks; [apply invalid_text_checks, parseUint_returns|]. intros n.
    case_if; [apply invalid_input|apply parse_match_checks]. }
  destruct (memoryAddressPattern _) as [[[[m w] os] bs]|]; [apply parse_match_checks|].
  destruct (timerAddressPattern _); [apply Hi|]. destruct (counterAddressPattern _); [apply Hi|apply invalid_input].
Qed.

(** ** Formatting *)

(** The transport a canonical text hints at: reals share the double word. *)
Definition hint (transport : Z) : Z :=
  if transport =? TransportReal then TransportDWord else transport.

Lemma numeral_Itoa n max : 0 ≤ n ≤ max → numeral (Itoa n) n max.
Proof.
  intros Hn. destruct (Itoa_spec n) as (Hd & Hv & Hl); [lia|]. split; [|split; [done|lia]].
  split; [|done]. intros E. by rewrite E in Hl.
Qed.

Lemma valid_hint a t : valid_address a t → valid_address a (hint t).
Proof.
  intros [Ht H]. unfold hint. destruct (t =? TransportReal) eqn:E; [|done].
  apply Z.eqb_eq in E as ->. split; [done|]. destruct (byte_area (Item.Area a)) eqn:Hb; [naive_solver|].
  destruct H as (_ & _ & _ & H). by destruct (Item.Area a =? AreaTimer).
Qed.

Lemma area_prefix_spelled area db letter os bs offset bit t :
  AreaInput ≤ area ≤ AreaDB → (area = AreaDB ↔ db ≠ 0) → is_u16 db → sized letter os bs offset bit t →
  spelled (area_prefix (mkAddress area db offset bit) ++ letter ++ os ++ bit_suffix bs)
    (mkAddress area db offset bit) t.
Proof.
  intros Harea Hd Hdb Hsz. unfold area_prefix. cbn [Item.Area Item.DBNumber].
  destruct (area =? AreaDB) eqn:HD.
  { apply Z.eqb_eq in HD as ->. rewrite <-!app_assoc. apply spelled_db; [|done].
    apply numeral_Itoa. unfold is_u16, MaxUint16 in *. lia. }
  assert (db = 0) as -> by lia. unfold AreaInput, AreaDB in *.
  assert (area = memory_area (str "I") ∨ area = memory_area (str "Q") ∨ area = memory_area (str "M"))
    as [-> | [-> | ->]] by (change (area = 1 ∨ area = 2 ∨ area = 3); lia).
  - apply (spelled_memory (str "I")); [unfold memory_letters; set_solver|done].
  - apply (spelled_memory (str "Q")); [unfold memory_letters; set_solver|done].
  - apply (spelled_memory (str "M")); [unfold memory_letters; set_solver|done].
Qed.

Lemma FormatAddress_spec a t : address_values a →
  match FormatAddress a t with
  | Ok s => valid_address a t ∧ spelled s a (hint t)
  | Err _ => ¬ valid_address a t
  | Panic => False
  end.
Proof.
  intros Hv. pose proof (validateItemAddress_spec a t Hv) as Hs. unfold FormatAddress.
  destruct (validateItemAddress a t) as [[]|e|]; cbn [mbind outcome_bind]; [|done..].
  destruct Hv as [_ Hdb Ho Hb]. destruct a as [area db offset bit]. cbn [Item.Area Item.DBNumber Item.Offset Item.Bit] in *.
  assert (numeral (Itoa offset) offset MaxUint32) as Hon by (apply numeral_Itoa; unfold is_u32, MaxUint32 in *; lia).
  pose proof Hs as [Ht Hs']. unfold byte_area in Hs'. cbn [Item.Area Item.DBNumber Item.Offset Item.Bit] in Hs'.
  destruct (area =? AreaTimer) eqn:HT.
  { cbn [negb andb] in Hs'. apply Z.eqb_eq in HT as ->. destruct Hs' as (-> & -> & Hoff & ->). split; [done|].
    apply (spelled_timer (str "T")); [set_solver|]. apply numeral_Itoa. unfold is_u32 in *. lia. }
  destruct (area =? AreaCounter) eqn:HC.
  { cbn [negb andb] in Hs'. apply Z.eqb_eq in HC as ->. destruct Hs' as (-> & -> & Hoff & ->). split; [done|].
    apply (spelled_counter (str "C")); [set_solver|]. apply numeral_Itoa. unfold is_u32 in *. lia. }
  cbn [negb andb] in Hs'. destruct Hs' as (Harea & Hd & HnT & HnC & Hbit & _).
  assert (∀ letter bs, sized letter (Itoa offset) bs offset bit (hint t) →
    spelled (area_prefix (mkAddress area db offset bit) ++ letter ++ Itoa offset ++ bit_suffix bs)
      (mkAddress area db offset bit) (hint t)) as Hspell by (intros; by apply area_prefix_spelled).
  assert (numeral (Itoa bit) bit 255) as Hbn by (apply numeral_Itoa; unfold is_u8 in *; lia).
  assert (t = 1 ∨ t = 2 ∨ t = 3 ∨ t = 4 ∨ t = 5) as Hcases
    by (unfold TransportTimer, TransportCounter in *; lia).
  destruct Hcases as [->|Hcases].
  - split; [done|]. cbn [Z.eqb Pos.eqb TransportBit]. replace (str "." ++ Itoa bit) with (bit_suffix (Itoa bit)).
    + apply (Hspell (str "X") (Itoa bit)). constructor; [done|]. destruct Hbn as [? [? _]]. by split_and!.
    + destruct Hbn as [[Hne _] _]. by destruct (Itoa bit).
  - assert (bit = 0) as -> by (revert Hbit; unfold TransportBit; clear -Hcases Hb; case_if; unfold is_u8 in *; lia).
    destruct Hcases as [->|[->|[->| ->]]]; (split; [done|]); cbn [Z.eqb Pos.eqb TransportBit TransportByte TransportWord
      TransportDWord TransportReal orb]; rewrite <-(app_nil_r (Itoa offset)); apply (Hspell _ []); by constructor.
Qed.

Lemma spelled_not_real v a t : spelled v a t → t ≠ TransportReal.
Proof. by destruct 1 as [????????? []|???????? []| | |]. Qed.

(** ** Properties *)

(** C27. ParseAddress accepts exactly the documented grammar: after trimming,
    upper-casing and one optional percent sign, a text that spells a valid
    address, whose address and transport it returns; anything else is an input
    error that leaves the session alone, never a panic. *)
Theorem ParseAddress_exact input a t :
  (ParseAddress input = Ok (a, t) ↔ spelled (address_text input) a t ∧ valid_address a t) ∧
  (∀ e, ParseAddress input = Err e → input_error e) ∧ returns (ParseAddress input).
Proof.
  pose proof (ParseAddress_checks input) as Hc. split_and!.
  - split.
    + unfold ParseAddress. case_if; [done|]. apply parse_text_sound.
    + intros [Hs Hv]. destruct (spelled_plain _ a t Hs) as [Hp Hne]. unfold ParseAddress.
      rewrite plain_not_blank by done. by apply parse_text_complete.
  - intros e E. by rewrite E in Hc.
  - intros E. by rewrite E in Hc.
Qed.

(** C28. FormatAddress gives a text exactly for the valid addresses, and parsing
    that text gives the address back, with the transport up to the one hint
    reals and double words share. *)
Theorem FormatAddress_round_trip a t : address_values a →
  match FormatAddress a t with
  | Ok s => valid_address a t ∧ ParseAddress s = Ok (a, hint t)
  | Err _ => ¬ valid_address a t
  | Panic => False
  end.
Proof.
  intros Hv. pose proof (FormatAddress_spec a t Hv) as Hs. destruct (FormatAddress a t); [|done..].
  destruct Hs as [Hva Hs]. split; [done|]. by apply ParseAddress_spelled, valid_hint.
Qed.
Lemma FormatAddress_round_trip_witness :
  FormatAddress (mkAddress AreaDB 7 12 3) TransportBit = Ok (str "DB7.DBX12.3") ∧
  ParseAddress (str "DB7.DBX12.3") = Ok (mkAddress AreaDB 7 12 3, TransportBit).
Proof.
  pose proof (FormatAddress_round_trip (mkAddress AreaDB 7 12 3) TransportBit ltac:(constructor; concrete)) as H.
  assert (FormatAddress (mkAddress AreaDB 7 12 3) TransportBit = Ok (str "DB7.DBX12.3")) as E
    by (vm_compute; reflexivity).
  rewrite E in H. split; [exact E|exact (proj2 H)].
Defined.

(** C29. Every accepted spelling has one canonical text: formatting what was
    parsed succeeds and parses to the same address and transport, and two inputs
    get the same canonical text only if they mean the same. *)
Theorem canonical_text input a t : ParseAddress input = Ok (a, t) →
  ∃ s, FormatAddress a t = Ok s ∧ ParseAddress s = Ok (a, t) ∧
    ∀ input' a' t', ParseAddress input' = Ok (a', t') → FormatAddress a' t' = Ok s → a' = a ∧ t' = t.
Proof.
  assert (∀ i a t, ParseAddress i = Ok (a, t) → ∃ s, FormatAddress a t = Ok s ∧ ParseAddress s = Ok (a, t)) as Hcanon.
  { intros i b u Hp. unfold ParseAddress in Hp. revert Hp. case_if; [done|]. intros [Hs Hv]%parse_text_sound.
    pose proof (FormatAddress_spec b u (parse_text_values _ _ _ Hs)) as Hf.
    destruct (FormatAddress b u) as [s|e|]; [|done..]. exists s. split; [done|].
    assert (hint u = u) as Hh.
    { unfold hint. apply spelled_not_real in Hs. by destruct (Z.eqb_spec u TransportReal). }
    rewrite Hh in Hf. destruct Hf. by apply ParseAddress_spelled. }
  intros Hp. destruct (Hcanon _ _ _ Hp) as (s & Hf & Hps). exists s. split_and!; [done|done|].
  intros i a' t' Hp' Hf'. destruct (Hcanon _ _ _ Hp') as (s' & Hf'' & Hps').
  assert (s' = s) as -> by congruence. by assert ((a', t') = (a, t)) as [= -> ->] by congruence.
Qed.
Lemma canonical_text_witness :
  ∃ s, FormatAddress (mkAddress AreaInput 0 12 3) TransportBit = Ok s ∧
    ParseAddress s = Ok (mkAddress AreaInput 0 12 3, TransportBit).
Proof.
  destruct (canonical_text (str "%ex12.3 ") (mkAddress AreaInput 0 12 3) TransportBit) as (s & Hf & Hp & _).
  - reflexivity.
  - exists s. split; [exact Hf|exact Hp].
Defined.
