(* ===== verification/Planner.v ===== *)
(** * Planner: splitting logical batches into PDUs (client.go)

    Validation of a whole batch, the streaming iterator that cuts items into
    fragments, and the batch builders that pack fragments and writes into PDUs
    of the negotiated size. *)

From S2P Require Import Errors Protocol Config Item.

(** ** Preparing a batch *)

(** The validation loops: [total] is the [uint64] sum so far. *)
Fixpoint prepareReadsFrom (config : Config) (index total : Z) (items : list ReadItem)
    : result (list Z) :=
  match items with
  | [] => Ok []
  | item :: rest =>
      length ← map_err (EWrap ("read item " +:+ dec index +:+ ": "))
                 (validateReadItem item (MaxItemBytes config));
      let total := u64 (total + length) in
      if total >? MaxBatchBytes config
      then fails (limitError "read" "batch exceeds max_batch_bytes")
      else lengths ← prepareReadsFrom config (index + 1) total rest; Ok (length :: lengths)
  end.

Definition prepareReads (config : Config) (input : list ReadItem)
    : result (list ReadItem * list Z) :=
  if zlen input =? 0 then fails (invalidError "read" "items must not be empty")
  else if zlen input >? MaxItemsPerCall config
  then fails (limitError "read" "item count exceeds max_items_per_call")
  else lengths ← prepareReadsFrom config 0 0 input; Ok (input, lengths).

Fixpoint prepareWritesFrom (config : Config) (index total : Z) (items : list WriteItem)
    : result unit :=
  match items with
  | [] => Ok tt
  | item :: rest =>
      length ← map_err (EWrap ("write item " +:+ dec index +:+ ": "))
                 (validateWriteItem item (MaxItemBytes config));
      let total := u64 (total + length) in
      if total >? MaxBatchBytes config
      then fails (limitError "write" "batch exceeds max_batch_bytes")
      else prepareWritesFrom config (index + 1) total rest
  end.

Definition prepareWrites (config : Config) (input : list WriteItem) : result (list WriteItem) :=
  if zlen input =? 0 then fails (invalidError "write" "items must not be empty")
  else if zlen input >? MaxItemsPerCall config
  then fails (limitError "write" "item count exceeds max_items_per_call")
  else _ ← prepareWritesFrom config 0 0 input; Ok input.

(** ** Fragments of a read *)

Definition smallerInt (left right : Z) : Z := if left <? right then left else right.

(** [[]protocol.Item{{DataBytes: 1}}] *)
Definition one_byte_item : Protocol.Item := Protocol.mkItem 0 0 0 0 0 0 1 false.

Definition maxReadFragmentData (transport pdu : Z) : result Z :=
  if (pdu <? ReadRequestSize 1) || (pdu <? ReadResponseSize [one_byte_item])
  then fails (limitError "read" "negotiated PDU is too small")
  else
    match layoutFor transport with
    | None => fails (invariantError "read.fragment" (EText "unsupported transport"))
    | Some layout =>
        let maxData := pdu - 18 in
        let maxData := if lengthInBits layout && (maxData >? Z.quot MaxUint16 8)
                       then Z.quot MaxUint16 8 else maxData in
        let maxData := if negb (lengthInBits layout) && (maxData >? MaxUint16)
                       then MaxUint16 else maxData in
        let maxData := maxData - Z.rem maxData (width layout) in
        if maxData <? width layout
        then fails (limitError "read" "negotiated PDU cannot carry an item element")
        else if transport =? TransportBit then Ok 1
        else Ok maxData
    end.

Fixpoint countReadFragmentsFrom (pdu : Z) (items : list ReadItem) (lengths : list Z) (total : Z)
    : result Z :=
  match items, lengths with
  | item :: items, length :: lengths =>
      maxData ← maxReadFragmentData (RTransport item) pdu;
      let total := u64 (total + u64 (Z.quot (length + maxData - 1) maxData)) in
      if total >? MaxInt
      then fails (limitError "read" "fragment count overflows int")
      else countReadFragmentsFrom pdu items lengths total
  | _, _ => Ok total
  end.

Definition countReadFragments (items : list ReadItem) (lengths : list Z) (pdu : Z) : result Z :=
  if negb (zlen items =? zlen lengths)
  then fails (invariantError "read.fragment" (EText "item and length counts differ"))
  else countReadFragmentsFrom pdu items lengths 0.

Record readFragment := mkFragment { original : Z; offset : Z; item : Protocol.Item }.

#[export] Instance readFragment_eq_dec : EqDecision readFragment.
Proof. solve_decision. Defined.

(** [readFragmentIterator]; [pending] and [hasPending] are one option. *)
Record readFragmentIterator := mkIterator {
  items : list ReadItem;
  lengths : list Z;
  itPdu : Z;
  itOriginal : Z;
  itOffset : Z;
  itPending : option readFragment;
}.

Definition new_iterator (items : list ReadItem) (lengths : list Z) (pdu : Z) :=
  mkIterator items lengths pdu 0 0 None.

Definition set_position (it : readFragmentIterator) (original offset : Z) :=
  mkIterator (items it) (lengths it) (itPdu it) original offset None.

(** The fragment of the current item at the current offset. *)
Definition cut_fragment (it : readFragmentIterator) : result (readFragment * readFragmentIterator) :=
  item ← elem (items it) (itOriginal it);
  itemLength ← elem (lengths it) (itOriginal it);
  match layoutFor (RTransport item) with
  | None => fails (invariantError "read.fragment" (EText "unsupported transport"))
  | Some layout =>
      maxData ← maxReadFragmentData (RTransport item) (itPdu it);
      let length := smallerInt maxData (itemLength - itOffset it) in
      let count := Z.quot (u32 length) (width layout) in
      let address := RAddress item in
      let fragmentAddress :=
        if (Area address =? AreaTimer) || (Area address =? AreaCounter)
        then mkAddress (Area address) (DBNumber address)
               (u32 (Offset address + Z.quot (u32 (itOffset it)) (width layout))) (Bit address)
        else if negb (RTransport item =? TransportBit)
        then mkAddress (Area address) (DBNumber address)
               (u32 (Offset address + u32 (itOffset it))) (Bit address)
        else address in
      wire ← map_err (λ err, EGos7 (invariantError "read.fragment" err))
               (makeProtocolItem fragmentAddress (RTransport item) count);
      Ok (mkFragment (itOriginal it) (itOffset it) wire,
          set_position it (itOriginal it) (itOffset it + length))
  end.

(** [next]: each turn of the loop finishes an item or returns, so
    [fuel = len(items) + 1] is enough. *)
Fixpoint next_fuel (fuel : nat) (it : readFragmentIterator)
    : result (option readFragment * readFragmentIterator) :=
  match fuel with
  | O => Panic
  | S fuel =>
      if itOriginal it <? zlen (items it) then
        itemLength ← elem (lengths it) (itOriginal it);
        if itOffset it >=? itemLength
        then next_fuel fuel (set_position it (itOriginal it + 1) 0)
        else '(fragment, it) ← cut_fragment it; Ok (Some fragment, it)
      else Ok (None, it)
  end.

Definition next (it : readFragmentIterator) : result (option readFragment * readFragmentIterator) :=
  match itPending it with
  | Some fragment => Ok (Some fragment, set_position it (itOriginal it) (itOffset it))
  | None => next_fuel (S (length (items it))) it
  end.

Definition putBack (it : readFragmentIterator) (fragment : readFragment) : readFragmentIterator :=
  mkIterator (items it) (lengths it) (itPdu it) (itOriginal it) (itOffset it) (Some fragment).

(** [nextReadBatch]: [failed i] says whether [results[i].Err != nil].  Every
    turn consumes a fragment, so the bytes left to read bound the turns. *)
Fixpoint nextReadBatchFrom (fuel : nat) (it : readFragmentIterator) (pdu : Z)
    (failed : Z → result bool) (current : list readFragment) (requestSize responseSize : Z)
    : result (list readFragment * bool * readFragmentIterator) :=
  match fuel with
  | O => Panic
  | S fuel =>
      '(fragment, it) ← next it;
      match fragment with
      | None => Ok (current, zlen current >? 0, it)
      | Some fragment =>
          skip ← failed (original fragment);
          if skip : bool then nextReadBatchFrom fuel it pdu failed current requestSize responseSize
          else
            let candidateRequest := requestSize + 12 in
            let candidateResponse := responseSize + 4 + DataBytes (item fragment) in
            let candidateResponse :=
              match last current with
              | Some f => if negb (Z.rem (DataBytes (item f)) 2 =? 0)
                          then candidateResponse + 1 else candidateResponse
              | None => candidateResponse
              end in
            if (zlen current =? CompatibilityMaxItemsPerPDU) || (candidateRequest >? pdu)
               || (candidateResponse >? pdu)
            then
              if zlen current =? 0
              then fails (limitError "read" "one fragment exceeds negotiated PDU")
              else Ok (current, true, putBack it fragment)
            else
              nextReadBatchFrom fuel it pdu failed (current ++ [fragment])
                candidateRequest candidateResponse
      end
  end.

(** An upper bound on the fragments an iterator still has to deliver. *)
Definition batch_fuel (it : readFragmentIterator) : nat :=
  (2 + length (items it) + Z.to_nat (foldr Z.add 0%Z (lengths it)))%nat.

Definition nextReadBatch (it : readFragmentIterator) (pdu : Z) (results : list ReadResult)
    : result (list readFragment * bool * readFragmentIterator) :=
  nextReadBatchFrom (batch_fuel it) it pdu
    (λ i, r ← elem results i; Ok (bool_decide (RErr r ≠ None))) [] 12 14.

(** ** Batches of writes *)

Record preparedWrite := mkPrepared { wOriginal : Z; wItem : Protocol.WriteItem }.

(** The loop of [nextWriteBatch], at index [end_]. *)
Fixpoint nextWriteBatchFrom (fuel : nat) (items : list preparedWrite) (start pdu : Z) (single : bool)
    (end_ requestSize responseSize : Z) : result Z :=
  match fuel with
  | O => Panic
  | S fuel =>
      if end_ <? zlen items then
        it ← elem items end_;
        let candidateRequest := requestSize + 12 + 4 + zlen (Protocol.WData (wItem it)) in
        candidateRequest ←
          (if end_ >? start then
             previous ← elem items (end_ - 1);
             Ok (if negb (Z.rem (zlen (Protocol.WData (wItem previous))) 2 =? 0)
                 then candidateRequest + 1 else candidateRequest)
           else Ok candidateRequest);
        let candidateResponse := responseSize + 1 in
        if (end_ - start =? CompatibilityMaxItemsPerPDU) || (candidateRequest >? pdu)
           || (candidateResponse >? pdu)
        then
          if end_ =? start then fails (limitError "write" "one item exceeds negotiated PDU")
          else Ok end_
        else if single then Ok (end_ + 1)
        else nextWriteBatchFrom fuel items start pdu single (end_ + 1) candidateRequest candidateResponse
      else Ok end_
  end.

Definition nextWriteBatch (items : list preparedWrite) (start pdu : Z) (single : bool)
    : result (list preparedWrite * Z) :=
  if (start <? 0) || (start >=? zlen items)
  then fails (invariantError "write.plan" (EText "batch start is outside item range"))
  else
    end_ ← nextWriteBatchFrom (S (length items)) items start pdu single start 12 14;
    batch ← slice items start end_;
    Ok (batch, end_).

Example read_one_fragment :
  let it := new_iterator [mkReadItem (mkAddress AreaDB 1 10 0) TransportByte 300] [300] 240 in
  match nextReadBatch it 240 [mkReadResult nil_view None] with
  | Ok (b, ok, _) =>
      map (λ f, (original f, offset f, DataBytes (item f), Protocol.Address (item f))) b
        = [(0, 0, 222, 80)] ∧ ok = true
  | _ => False
  end.
Proof. by split. Qed.

(** ** Capacity of a fragment *)

Definition capacity (transport pdu : Z) : Z :=
  Z.min (pdu - 18) (if in_bits transport then 8191 else 65535).
(** The data bytes of a full fragment. *)
Definition max_data (transport pdu : Z) : Z :=
  if transport =? TransportBit then 1
  else capacity transport pdu - capacity transport pdu mod width_of transport.

Lemma maxReadFragmentData_value t pdu : 1 ≤ t ≤ 7 → 32 ≤ pdu →
  maxReadFragmentData t pdu = Ok (max_data t pdu).
Proof.
  intros Ht Hp. unfold maxReadFragmentData, max_data, capacity, in_bits, width_of.
  change (ReadRequestSize 1) with 24. change (ReadResponseSize [one_byte_item]) with 19.
  change (Z.quot MaxUint16 8) with 8191. unfold MaxUint16, TransportBit. case_if; [lia|].
  transport_cases t; [..|lia]; cbn [lengthInBits width andb negb];
    rewrite ?Z.rem_1_r, ?Z.mod_1_r;
    repeat match goal with |- context [if (?a >? ?b) then ?b else ?a] =>
      replace (if a >? b then b else a) with (Z.min a b) by (case_if; lia) end;
    try (rewrite (Z.rem_mod_nonneg (Z.min _ _)) by lia);
    (match goal with |- (if ?c then _ else _) = _ => destruct c eqn:? end; [exfalso; mod_bounds; lia|done]).
Qed.

Lemma max_data_range t pdu : 1 ≤ t ≤ 7 → 32 ≤ pdu →
  width_of t ≤ max_data t pdu ≤ pdu - 18 ∧ max_data t pdu mod width_of t = 0 ∧
  max_data t pdu ≤ (if in_bits t then 8191 else 65535).
Proof.
  intros Ht Hp. unfold max_data, capacity, in_bits, width_of, TransportBit.
  transport_cases t; [..|lia]; cbn [lengthInBits width]; case_if; mod_bounds; try lia;
    (split; [lia|]; split; [|lia]; by rewrite Zminus_mod_idemp_r, Z.sub_diag).
Qed.

(** ** The fragments of an item *)

(** The address [off] bytes into an item: elements for timers and counters. *)
Definition advance (i : ReadItem) (off : Z) : Address :=
  let a := RAddress i in
  if byte_area (Area a)
  then mkAddress (Area a) (DBNumber a) (Offset a + off) (Bit a)
  else mkAddress (Area a) (DBNumber a) (Offset a + off / width_of (RTransport i)) (Bit a).

(** Fragments of item number [n] (data length [len]), at most [m] bytes each,
    from byte [off] on. *)
Section fragments.
Context (n : Z) (i : ReadItem) (len m : Z).

Definition fragment_size (off : Z) : Z := Z.min m (len - off).
Definition fragment_at (off : Z) : readFragment :=
  mkFragment n off
    (descriptor (advance i off) (RTransport i) (fragment_size off / width_of (RTransport i))).
Definition fragment_count (off : Z) : Z := (len - off + m - 1) / m.
Definition item_fragments (off : Z) : list readFragment :=
  (λ j, fragment_at (off + j * m)) <$> seqZ 0 (fragment_count off).

Context (Hm : 0 < m).

Lemma fragment_count_done off : len ≤ off → fragment_count off ≤ 0.
Proof. unfold fragment_count. intros. assert ((len - off + m - 1) / m < 1); [|lia].
  apply Z.div_lt_upper_bound; lia. Qed.
Lemma item_fragments_done off : len ≤ off → item_fragments off = [].
Proof. intros H%fragment_count_done. unfold item_fragments. by rewrite seqZ_nil by lia. Qed.

Lemma fragment_count_step off : off < len →
  fragment_count off = 1 + fragment_count (off + fragment_size off) ∧
  0 ≤ fragment_count (off + fragment_size off).
Proof.
  intros H. unfold fragment_count, fragment_size. destruct (decide (m ≤ len - off)).
  - rewrite Z.min_l by lia.
    replace (len - off + m - 1) with (1 * m + (len - (off + m) + m - 1)) by lia.
    rewrite Z.div_add_l by lia. split; [done|]. apply Z.div_pos; lia.
  - rewrite Z.min_r by lia.
    replace (len - (off + (len - off)) + m - 1) with (m - 1) by lia.
    rewrite (Z.div_small (m - 1)) by lia.
    replace (len - off + m - 1) with (1 * m + (len - off - 1)) by lia.
    rewrite Z.div_add_l, Z.div_small by lia. lia.
Qed.

Lemma item_fragments_cons off : 0 ≤ off < len →
  item_fragments off = fragment_at off :: item_fragments (off + fragment_size off).
Proof.
  intros H. destruct (fragment_count_step off) as [Hk Hk0]; [lia|].
  unfold item_fragments. rewrite Hk, seqZ_cons by lia. rewrite fmap_cons. f_equal.
  { f_equal. lia. }
  replace (Z.pred (1 + _)) with (fragment_count (off + fragment_size off)) by lia.
  change (Z.succ 0) with (1 + 0). rewrite <-(fmap_add_seqZ 1 0), <-list_fmap_compose.
  destruct (decide (m ≤ len - off)).
  - apply list_fmap_ext. intros j x _. cbn. f_equal. unfold fragment_size. rewrite Z.min_l by lia. lia.
  - rewrite (seqZ_nil 0); [done|]. apply fragment_count_done. unfold fragment_size. lia.
Qed.

Lemma item_fragments_length off : 0 ≤ off → zlen (item_fragments off) = Z.max 0 (fragment_count off).
Proof. intros. unfold item_fragments. rewrite zlen_map. unfold zlen. rewrite length_seqZ. lia. Qed.

Lemma fragment_count_le off : 0 ≤ off → Z.max 0 (fragment_count off) ≤ Z.max 0 (len - off).
Proof.
  intros. destruct (decide (len ≤ off)) as [Hd%fragment_count_done|]; [lia|].
  unfold fragment_count. enough ((len - off + m - 1) / m ≤ len - off) by lia.
  apply Z.div_le_upper_bound; nia.
Qed.
End fragments.

(** ** The fragments of a batch *)

(** A validated item with its data length. *)
Record planned (maxItemBytes : Z) (i : ReadItem) (len : Z) : Prop := {
  pl_values : read_item_values i;
  pl_valid : valid_read_item i maxItemBytes;
  pl_length : len = item_bytes (RTransport i) (RCount i);
}.

Fixpoint all_fragments (pdu n : Z) (items : list ReadItem) (lengths : list Z) : list readFragment :=
  match items, lengths with
  | i :: items, len :: lengths =>
      item_fragments n i len (max_data (RTransport i) pdu) 0
      ++ all_fragments pdu (n + 1) items lengths
  | _, _ => []
  end.

(** What an iterator still has to deliver. *)
Definition undelivered (it : readFragmentIterator) : list readFragment :=
  match drop (Z.to_nat (itOriginal it)) (items it), drop (Z.to_nat (itOriginal it)) (lengths it) with
  | i :: is', len :: lens =>
      item_fragments (itOriginal it) i len (max_data (RTransport i) (itPdu it)) (itOffset it)
      ++ all_fragments (itPdu it) (itOriginal it + 1) is' lens
  | _, _ => []
  end.
Definition remaining (it : readFragmentIterator) : list readFragment :=
  option_list (itPending it) ++ undelivered it.

Section planning.
Context (maxItemBytes : Z).

(** The states an iterator over validated items goes through. *)
Record good (it : readFragmentIterator) : Prop := {
  gd_items : Forall2 (planned maxItemBytes) (items it) (lengths it);
  gd_pdu : 32 ≤ itPdu it;
  gd_original : 0 ≤ itOriginal it;
  gd_offset : 0 ≤ itOffset it;
  gd_aligned : ∀ i, items it !! Z.to_nat (itOriginal it) = Some i →
    itOffset it mod width_of (RTransport i) = 0;
}.

Lemma planned_pos i len : planned maxItemBytes i len →
  1 ≤ RTransport i ≤ 7 ∧ 1 ≤ width_of (RTransport i) ≤ 4 ∧ 0 < len < 2 ^ 34 ∧
  len mod width_of (RTransport i) = 0.
Proof.
  intros [[_ _ Hc] (Ha & Hc0 & _) ->]. assert (1 ≤ RTransport i ≤ 7) as Ht by apply Ha.
  pose proof (width_of_range _ Ht). pose proof (item_bytes_range _ _ Ht Hc).
  split_and!; [lia..| |lia|].
  - unfold item_bytes. nia.
  - unfold item_bytes. apply Z_mod_mult.
Qed.

(** Every element of a planned item has a well-formed address. *)
Lemma advance_valid i len off :
  planned maxItemBytes i len → 0 ≤ off < len → off mod width_of (RTransport i) = 0 →
  address_values (advance i off) ∧ valid_address (advance i off) (RTransport i) ∧
  Offset (advance i off) ≤ 0xFFFFFF.
Proof.
  intros Hpl Hoff Hal. destruct (planned_pos _ _ Hpl) as (Ht & Hw & Hlen & _).
  destruct Hpl as [[[Ha Hd Ho Hb] _ Hc] (Hv & Hc0 & Hbit & _ & Hlast) Hl].
  destruct Hv as [_ Hv]. unfold last_address in Hlast. unfold advance, valid_address.
  unfold is_u8, is_u16, is_u32, AreaDB, AreaInput in *.
  destruct (byte_area (Area (RAddress i))) eqn:Hba; cbn [Area DBNumber Offset Bit]; rewrite Hba.
  - rewrite <-Hl in Hlast. destruct (RTransport i =? TransportBit) eqn:Hb'.
    + assert (off = 0) as ->.
      { apply Z.eqb_eq in Hb'. rewrite (Hbit Hb'), Hb' in Hl. change (item_bytes _ _) with 1 in Hl. lia. }
      rewrite Z.add_0_r. split; [split; unfold is_u8, is_u16, is_u32; cbn; lia|]. lia.
    + split; [split; unfold is_u8, is_u16, is_u32; cbn; lia|]. lia.
  - assert (0 ≤ off / width_of (RTransport i) ≤ RCount i - 1).
    { split; [apply Z.div_pos; lia|]. unfold item_bytes in Hl.
      enough (off / width_of (RTransport i) < RCount i) by lia.
      apply Z.div_lt_upper_bound; lia. }
    split; [split; unfold is_u8, is_u16, is_u32; cbn; lia|]. lia.
Qed.

(** The descriptor of a fragment of a planned item is valid, and it covers
    the bytes the fragment stands for. *)
Lemma fragment_valid i len pdu n off (m := max_data (RTransport i) pdu) :
  planned maxItemBytes i len → 32 ≤ pdu → 0 ≤ off < len → off mod width_of (RTransport i) = 0 →
  let size := fragment_size len m off in
  let count := size / width_of (RTransport i) in
  0 < size ≤ m ∧ size mod width_of (RTransport i) = 0 ∧
  makeProtocolItem (advance i off) (RTransport i) count
    = Ok (descriptor (advance i off) (RTransport i) count) ∧
  Protocol.valid_item (item (fragment_at n i len m off)) ∧
  DataBytes (item (fragment_at n i len m off)) = size.
Proof.
  intros Hpl Hp Hoff Hal size count.
  destruct (planned_pos _ _ Hpl) as (Ht & Hw & Hlen & Hlal).
  destruct (max_data_range _ pdu Ht Hp) as (Hm & Hmal & Hcap). fold m in Hm, Hmal, Hcap.
  assert (size mod width_of (RTransport i) = 0) as Hsal.
  { subst size. unfold fragment_size. destruct (decide (m ≤ len - off)); [by rewrite Z.min_l by lia|].
    rewrite Z.min_r by lia. by rewrite Zminus_mod, Hlal, Hal. }
  assert (0 < size ≤ m) as Hsize by (subst size; unfold fragment_size; lia).
  assert (item_bytes (RTransport i) count = size) as Hbytes.
  { unfold item_bytes. subst count. pose proof (Z.div_mod size (width_of (RTransport i))). lia. }
  assert (0 < count ≤ MaxUint16) as Hcount.
  { unfold item_bytes in Hbytes. unfold MaxUint16. destruct (in_bits _); nia. }
  destruct (advance_valid i len off Hpl Hoff Hal) as (Hav & Hva & _).
  destruct (makeProtocolItem_valid _ _ count Hav Hva Hcount) as (Hmk & Hvi & _).
  { unfold wire_length, MaxUint16 in *. case_if; [lia|]. destruct (in_bits _); lia. }
  split_and!; [lia..|done|done|done|done].
Qed.

Context (Hmax : maxItemBytes < 2 ^ 32).

Lemma planned_u32 i len : planned maxItemBytes i len → len < 2 ^ 32.
Proof. intros [_ (_ & _ & _ & ? & _) ->]. lia. Qed.

Lemma planned_bit i len : planned maxItemBytes i len → RTransport i = TransportBit → len = 1.
Proof.
  intros [_ (_ & _ & Hbit & _) ->] Hb. by rewrite (Hbit Hb), Hb.
Qed.

(** The iterator cuts exactly the next fragment of the plan. *)
Lemma cut_fragment_spec it i len :
  good it → items it !! Z.to_nat (itOriginal it) = Some i →
  lengths it !! Z.to_nat (itOriginal it) = Some len → itOffset it < len →
  let m := max_data (RTransport i) (itPdu it) in
  cut_fragment it = Ok (fragment_at (itOriginal it) i len m (itOffset it),
    set_position it (itOriginal it) (itOffset it + fragment_size len m (itOffset it))).
Proof.
  intros [Hit Hp Ho Hoff Hal] Hi Hl Hlt m. specialize (Hal i Hi).
  assert (planned maxItemBytes i len) as Hpl by (eapply Forall2_lookup_lr; eassumption).
  destruct (planned_pos _ _ Hpl) as (Ht & Hw & Hlen & _).
  pose proof (planned_u32 _ _ Hpl) as Hu32.
  destruct (advance_valid i len (itOffset it) Hpl ltac:(lia) Hal) as ([_ _ Hao _] & Hva & _).
  destruct (fragment_valid i len (itPdu it) (itOriginal it) (itOffset it) Hpl Hp
    ltac:(lia) Hal) as (Hsz & _ & Hmk & _). fold m in Hsz, Hmk.
  unfold cut_fragment. rewrite (elem_Some _ _ _ Ho Hi), (elem_Some _ _ _ Ho Hl).
  cbn [mbind outcome_bind].
  assert (width_of (RTransport i) = width (default (mkLayout 0 0 0 false) (layoutFor (RTransport i))))
    as Hwd. { unfold width_of. by destruct (layoutFor _). }
  destruct (layoutFor (RTransport i)) as [l|] eqn:Hlay; [|apply layoutFor_None in Hlay; lia].
  cbn [default from_option id] in Hwd. rewrite maxReadFragmentData_value by lia. cbn [mbind outcome_bind].
  fold m. replace (smallerInt m (len - itOffset it)) with (fragment_size len m (itOffset it))
    by (unfold smallerInt, fragment_size; case_if; lia).
  destruct (max_data_range _ (itPdu it) Ht Hp) as (_ & _ & Hcap). fold m in Hcap.
  assert (m ≤ 65535) by (destruct (in_bits (RTransport i)); lia).
  rewrite (u32_id (fragment_size _ _ _)) by (unfold is_u32; lia).
  rewrite (u32_id (itOffset it)) by (unfold is_u32; lia).
  rewrite <-Hwd, !Z.quot_div_nonneg by lia.
  match goal with |- (map_err _ (makeProtocolItem ?a _ _) ≫= _) = _ =>
    assert (a = advance i (itOffset it)) as -> end.
  { pose proof (planned_bit i len Hpl) as Hbit. revert Hao. unfold advance, byte_area in *.
    destruct (Area (RAddress i) =? AreaTimer) eqn:E1;
      [|destruct (Area (RAddress i) =? AreaCounter) eqn:E2]; cbn [orb andb negb Offset].
    - intros Hao. by rewrite u32_id by done.
    - intros Hao. by rewrite u32_id by done.
    - intros Hao. destruct (RTransport i =? TransportBit) eqn:Eb; cbn [negb].
      + apply Z.eqb_eq in Eb. specialize (Hbit Eb). replace (itOffset it) with 0 by lia.
        rewrite Z.add_0_r. by destruct (RAddress i).
      + by rewrite u32_id by done. }
  by rewrite Hmk.
Qed.

(** Two iterators over the same plan. *)
Definition same_plan (it it' : readFragmentIterator) : Prop :=
  items it' = items it ∧ lengths it' = lengths it ∧ itPdu it' = itPdu it.

Lemma undelivered_start it n :
  undelivered (set_position it n 0) =
  all_fragments (itPdu it) n (drop (Z.to_nat n) (items it)) (drop (Z.to_nat n) (lengths it)).
Proof.
  unfold undelivered. cbn [items lengths itPdu itOriginal itOffset set_position].
  by destruct (drop _ (items it)), (drop _ (lengths it)).
Qed.

Lemma undelivered_current it i len : 0 ≤ itOriginal it →
  items it !! Z.to_nat (itOriginal it) = Some i →
  lengths it !! Z.to_nat (itOriginal it) = Some len →
  undelivered it = item_fragments (itOriginal it) i len (max_data (RTransport i) (itPdu it)) (itOffset it)
    ++ undelivered (set_position it (itOriginal it + 1) 0).
Proof.
  intros Ho Hi Hl. rewrite undelivered_start. unfold undelivered.
  rewrite (drop_S _ _ _ Hi), (drop_S _ _ _ Hl).
  by replace (S (Z.to_nat (itOriginal it))) with (Z.to_nat (itOriginal it + 1)) by lia.
Qed.

(** [next] delivers the remaining fragments one by one, then nothing. *)
Lemma next_fuel_spec fuel it : good it → itPending it = None →
  (length (items it) - Z.to_nat (itOriginal it) < fuel)%nat →
  ∃ it', next_fuel fuel it = Ok (head (undelivered it), it') ∧
    undelivered it' = tail (undelivered it) ∧ good it' ∧ itPending it' = None ∧ same_plan it it'.
Proof.
  revert it. induction fuel as [|fuel IH]; intros it Hg Hnone Hf; cbn [next_fuel];
    destruct Hg as [Hit Hp Ho Hoff Hal]; pose proof (Forall2_length _ _ _ Hit) as Hlen.
  - exists it. exfalso. lia.
  - case_if.
    2: { exists it. unfold undelivered. rewrite drop_ge by (unfold zlen in *; lia).
         split_and!; done || by constructor. }
    destruct (lookup_lt_is_Some_2 (items it) (Z.to_nat (itOriginal it))) as [i Hi];
      [unfold zlen in *; lia|].
    destruct (lookup_lt_is_Some_2 (lengths it) (Z.to_nat (itOriginal it))) as [len Hl];
      [unfold zlen in *; lia|].
    assert (planned maxItemBytes i len) as Hpl by (eapply Forall2_lookup_lr; eassumption).
    destruct (planned_pos _ _ Hpl) as (Ht & Hw & Hlp & _).
    destruct (max_data_range _ (itPdu it) Ht Hp) as (Hm & _ & _).
    rewrite (elem_Some _ _ _ Ho Hl). cbn [mbind outcome_bind].
    rewrite (undelivered_current it i len Ho Hi Hl). case_if.
    + rewrite item_fragments_done by lia. cbn [app].
      apply (IH (set_position it (itOriginal it + 1) 0)); [|done|cbn; unfold zlen in *; lia].
      constructor; cbn; [done..|lia|lia|]. intros. apply Zmod_0_l.
    + pose proof (Hal i Hi) as Hali. rewrite (cut_fragment_spec it i len); [|by constructor|done..|lia].
      cbn [mbind outcome_bind]. rewrite item_fragments_cons by lia. cbn [app head tail].
      eexists. split; [done|].
      destruct (fragment_valid i len (itPdu it) (itOriginal it) (itOffset it) Hpl Hp
        ltac:(lia) Hali) as (Hsz & Hsal & _).
      rewrite (undelivered_current _ i len) by done. cbn [itOriginal itOffset set_position itPdu].
      split; [done|]. split; [|done]. constructor; cbn; [done..|lia|].
      intros i' Hi'. assert (i' = i) as -> by congruence.
      by rewrite Zplus_mod, Hali, Hsal.
Qed.

Lemma next_spec it : good it →
  ∃ it', next it = Ok (head (remaining it), it') ∧ remaining it' = tail (remaining it) ∧
    good it' ∧ itPending it' = None ∧ same_plan it it'.
Proof.
  intros Hg. unfold next, remaining. destruct (itPending it) as [f|] eqn:Hp.
  - eexists. split; [done|]. cbn. split; [done|]. split; [|done]. destruct Hg. by constructor.
  - destruct (next_fuel_spec (S (length (items it))) it Hg Hp) as (it' & -> & ? & ? & Hp' & ?); [lia|].
    exists it'. cbn [option_list app]. rewrite Hp'. done.
Qed.

(** Calling [next] until it reports the end. *)
Fixpoint drain (fuel : nat) (it : readFragmentIterator) : result (list readFragment) :=
  match fuel with
  | O => Panic
  | S fuel =>
      '(fragment, it) ← next it;
      match fragment with
      | None => Ok []
      | Some fragment => rest ← drain fuel it; Ok (fragment :: rest)
      end
  end.

Lemma drain_spec fuel : ∀ it, good it → (length (remaining it) < fuel)%nat → drain fuel it = Ok (remaining it).
Proof.
  induction fuel as [|fuel IH]; intros it Hg Hf; [lia|]. cbn [drain].
  destruct (next_spec it Hg) as (it' & -> & Hrem & Hg' & _). cbn [mbind outcome_bind].
  destruct (remaining it) as [|f fs] eqn:Hr; cbn [head]; [done|]. cbn in Hrem, Hf.
  rewrite IH; [|done|rewrite Hrem; lia]. by rewrite Hrem.
Qed.

(** Putting a fragment back restores it as the next one. *)
Lemma putBack_spec it f : good it → itPending it = None →
  remaining (putBack it f) = f :: remaining it ∧ good (putBack it f) ∧ same_plan it (putBack it f).
Proof.
  intros [] Hp. unfold remaining. rewrite Hp. split_and!; [done| |done..]. by constructor.
Qed.

(** ** Batches of fragments *)

(** What every delivered fragment satisfies: a valid descriptor that fits a
    PDU of its own. *)
Definition fragment_ok (pdu : Z) (f : readFragment) : Prop :=
  Protocol.valid_item (item f) ∧ 1 ≤ DataBytes (item f) ≤ pdu - 18.

(** A batch fits: at most 20 items, and request and response within the PDU. *)
Definition batch_fits (pdu : Z) (batch : list readFragment) : Prop :=
  zlen batch ≤ CompatibilityMaxItemsPerPDU ∧ ReadRequestSize (zlen batch) ≤ pdu ∧
  ReadResponseSize (item <$> batch) ≤ pdu.

(** The fragments of the items that have not failed. *)
Definition live (failed : Z → bool) (fs : list readFragment) : list readFragment :=
  filter (λ f, failed (original f) = false) fs.

Lemma live_cons_failed failed f fs : failed (original f) = true → live failed (f :: fs) = live failed fs.
Proof. intros H. unfold live. rewrite filter_cons_False; [done|]. by rewrite H. Qed.
Lemma live_cons_live failed f fs : failed (original f) = false →
  live failed (f :: fs) = f :: live failed fs.
Proof. intros H. unfold live. by rewrite filter_cons_True. Qed.

(** One turn of the batch loop adds exactly the new item's sizes. *)
Lemma itemSizes_snoc ds : ∀ idx count d, count = idx + zlen ds + 1 →
  itemSizes idx count (ds ++ [d]) =
  itemSizes idx (count - 1) ds + 4 + d
  + match last ds with Some p => if negb (Z.rem p 2 =? 0) then 1 else 0 | None => 0 end.
Proof.
  induction ds as [|d0 ds IH]; intros idx count d ->; cbn [app itemSizes].
  - unfold padded, itemDataHeaderSize. rewrite zlen_nil. cbn [last].
    replace (idx =? idx + 0 + 1 - 1) with true by lia. cbn [negb andb]. lia.
  - rewrite zlen_cons. rewrite IH by lia. zlen_pos. unfold padded.
    destruct ds as [|d1 ds].
    + rewrite zlen_nil. cbn [last itemSizes].
      replace (idx =? idx + (1 + 0) + 1 - 1) with false by lia.
      replace (idx =? idx + (1 + 0) + 1 - 1 - 1) with true by lia. cbn [negb andb]. lia.
    + rewrite zlen_cons in *. zlen_pos.
      change (last (d0 :: d1 :: ds)) with (last (d1 :: ds)).
      replace (idx =? idx + (1 + (1 + zlen ds)) + 1 - 1) with false by lia.
      replace (idx =? idx + (1 + (1 + zlen ds)) + 1 - 1 - 1) with false by lia. cbn [negb andb]. lia.
Qed.

Lemma ReadResponseSize_snoc items i :
  ReadResponseSize (items ++ [i]) = ReadResponseSize items + 4 + DataBytes i
  + match last items with
    | Some p => if negb (Z.rem (DataBytes p) 2 =? 0) then 1 else 0
    | None => 0
    end.
Proof.
  unfold ReadResponseSize. rewrite fmap_app. cbn [fmap list_fmap].
  assert (zlen (items ++ [i]) = zlen items + 1) as Hlen by zlia.
  rewrite itemSizes_snoc by (rewrite Hlen, zlen_map; lia).
  rewrite Hlen, fmap_last. replace (zlen items + 1 - 1) with (zlen items) by lia.
  destruct (last items); cbn; lia.
Qed.

Lemma ReadResponseSize_single i : ReadResponseSize [i] = 18 + DataBytes i.
Proof.
  unfold ReadResponseSize. cbn [fmap list_fmap itemSizes].
  change (padded 0 (zlen [i]) (DataBytes i)) with false.
  unfold ackHeaderSize, itemDataHeaderSize. lia.
Qed.

(** The sizes of a batch with one more fragment. *)
Lemma candidate_request (current : list readFragment) f :
  ReadRequestSize (zlen current) + 12 = ReadRequestSize (zlen (current ++ [f])).
Proof. unfold ReadRequestSize, jobHeaderSize, itemSpecSize. zlia. Qed.
Lemma candidate_response current f (size := ReadResponseSize (item <$> current) + 4 + DataBytes (item f)) :
  match last current with
  | Some p => if negb (Z.rem (DataBytes (item p)) 2 =? 0) then size + 1 else size
  | None => size
  end = ReadResponseSize (item <$> (current ++ [f])).
Proof.
  rewrite fmap_app. cbn [fmap list_fmap]. rewrite ReadResponseSize_snoc, fmap_last. unfold size.
  destruct (last current) as [p|]; cbn [fmap option_fmap option_map]; [|lia]. case_if; lia.
Qed.

(** The batch is full: [f] is put back. *)
Lemma batch_full failed it it1 f fs current : good it1 → itPending it1 = None → remaining it1 = fs →
  same_plan it it1 → remaining it = f :: fs → failed (original f) = false → batch_fits (itPdu it) current →
  current ≠ [] → ¬ batch_fits (itPdu it) (current ++ [f]) →
  let it' := putBack it1 f in
  good it' ∧ same_plan it it' ∧ (∃ skipped, remaining it = skipped ++ remaining it') ∧
  live failed (remaining it) = [] ++ live failed (remaining it') ∧
  batch_fits (itPdu it) (current ++ []) ∧
  (remaining it' = [] ∨ current ++ [] ≠ [] ∧
    ∃ f, head (remaining it') = Some f ∧ failed (original f) = false ∧
         ¬ batch_fits (itPdu it) (current ++ [] ++ [f])).
Proof.
  intros Hg1 Hnone Hrem (Hs1 & Hs2 & Hs3) Hr Hfail Hfit Hne Hnf. destruct (putBack_spec it1 f Hg1 Hnone) as (Hpb & Hgp & Hsp).
  cbn zeta. rewrite app_nil_r, Hpb, Hrem, Hr. split; [done|]. split; [by split_and!; cbn; congruence|].
  split; [by exists []|]. split; [done|]. split; [done|]. right. split; [done|]. by exists f.
Qed.

Lemma nextReadBatchFrom_spec fuel failed check : ∀ it current,
  good it → (length (remaining it) < fuel)%nat →
  Forall (fragment_ok (itPdu it)) (remaining it) →
  Forall (λ f, check (original f) = Ok (failed (original f))) (remaining it) →
  batch_fits (itPdu it) current →
  ∃ taken it',
    nextReadBatchFrom fuel it (itPdu it) check current (ReadRequestSize (zlen current))
      (ReadResponseSize (item <$> current))
    = Ok (current ++ taken, zlen (current ++ taken) >? 0, it') ∧
    good it' ∧ same_plan it it' ∧ (∃ skipped, remaining it = skipped ++ remaining it') ∧
    live failed (remaining it) = taken ++ live failed (remaining it') ∧
    batch_fits (itPdu it) (current ++ taken) ∧
    (remaining it' = [] ∨ current ++ taken ≠ [] ∧
      ∃ f, head (remaining it') = Some f ∧ failed (original f) = false ∧
           ¬ batch_fits (itPdu it) (current ++ taken ++ [f])).
Proof.
  induction fuel as [|fuel IH]; intros it current Hg Hf Hok Hch Hfit; [lia|].
  cbn [nextReadBatchFrom].
  destruct (next_spec it Hg) as (it1 & -> & Hrem & Hg1 & Hnone & Hsame). cbn [mbind outcome_bind].
  destruct (remaining it) as [|f fs] eqn:Hr; cbn [head tail] in *.
  { exists [], it1. rewrite app_nil_r. split_and!; try done.
    - exists []. by rewrite Hrem.
    - by rewrite Hrem.
    - by left. }
  apply Forall_cons in Hok as [[Hvf Hsz] Hok]. apply Forall_cons in Hch as [-> Hch].
  cbn [mbind outcome_bind]. destruct Hsame as (Hs1 & Hs2 & Hs3).
  destruct (failed (original f)) eqn:Hfail.
  { specialize (IH it1 current Hg1). rewrite Hs3, Hrem in IH.
    destruct IH as (taken & it' & Hrun & Hg' & Hsame' & [sk Hsk] & Hl & Hfit' & Hend);
      [cbn in *; lia|done..|].
    exists taken, it'. split_and!; [done|done|by split_and!; destruct Hsame' as (? & ? & ?); congruence| |by rewrite live_cons_failed|done|done].
    exists (f :: sk). cbn. by rewrite <-Hsk. }
  rewrite candidate_response, (candidate_request current f). case_if.
  - destruct (zlen current =? 0) eqn:Hz.
    { exfalso. assert (current = []) as -> by (apply zlen_nil_inv; lia). cbn [app fmap list_fmap] in Heqb.
      rewrite ReadResponseSize_single in Heqb. change (ReadRequestSize (zlen [f])) with 24 in Heqb.
      change (zlen [] =? CompatibilityMaxItemsPerPDU) with false in Heqb.
      pose proof (gd_pdu _ Hg). lia. }
    exists [], (putBack it1 f). zlen_pos. split.
    { rewrite app_nil_r. by replace (zlen current >? 0) with true by lia. }
    rewrite <-Hr. apply (batch_full failed it it1 f fs); try done; [by intros ->|].
    unfold batch_fits. destruct Hfit. zlia.
  - specialize (IH it1 (current ++ [f]) Hg1). rewrite Hs3, Hrem in IH.
    destruct IH as (taken & it' & Hrun & Hg' & Hsame' & [sk Hsk] & Hl & Hfit' & Hend);
      [cbn in *; lia|done..| |].
    { unfold batch_fits. destruct Hfit. zlia. }
    rewrite <-app_assoc in *. cbn [app] in *.
    exists (f :: taken), it'. split_and!; [done|done|by split_and!; destruct Hsame' as (? & ? & ?); congruence| | |done|].
    + exists (f :: sk). cbn. by rewrite <-Hsk.
    + rewrite live_cons_live by done. by rewrite Hl.
    + destruct Hend as [?|(Hne & g & ? & ? & Hnf)]; [by left|]. right. split; [done|].
      exists g. split_and!; [done..|]. by rewrite <-app_assoc in Hnf.
Qed.

(** ** The whole plan *)

Definition total (lengths : list Z) : Z := foldr Z.add 0%Z lengths.

Lemma planned_total its lens : Forall2 (planned maxItemBytes) its lens → 0 ≤ total lens.
Proof.
  induction 1 as [|i len its lens Hpl _ IH]; [done|]. destruct (planned_pos _ _ Hpl) as (_ & _ & ? & _).
  cbn. fold (total lens). lia.
Qed.

Lemma all_fragments_length pdu its lens : 32 ≤ pdu → Forall2 (planned maxItemBytes) its lens →
  ∀ n, zlen (all_fragments pdu n its lens) ≤ total lens.
Proof.
  intros Hp. induction 1 as [|i len its lens Hpl _ IH]; intros n; [done|].
  destruct (planned_pos _ _ Hpl) as (Ht & ? & ? & _). destruct (max_data_range _ pdu Ht Hp) as (? & _).
  cbn [all_fragments]. rewrite zlen_app, item_fragments_length by lia.
  pose proof (fragment_count_le len (max_data (RTransport i) pdu) ltac:(lia) 0 ltac:(lia)).
  specialize (IH (n + 1)). cbn. fold (total lens). lia.
Qed.

Lemma total_drop its lens k : Forall2 (planned maxItemBytes) its lens →
  total (drop k lens) ≤ total lens.
Proof.
  intros H. revert k. induction H as [|i len its lens Hpl Hall IH]; intros [|k]; cbn [drop]; try lia.
  destruct (planned_pos _ _ Hpl) as (_ & _ & ? & _). specialize (IH k).
  cbn [total foldr]. fold (total lens). lia.
Qed.

Lemma undelivered_length it : good it → zlen (undelivered it) ≤ total (lengths it).
Proof.
  intros [Hit Hp Ho Hoff _]. unfold undelivered.
  pose proof (total_drop _ _ (Z.to_nat (itOriginal it)) Hit) as Htot.
  pose proof (planned_total _ _ Hit). pose proof (Forall2_drop _ _ _ (Z.to_nat (itOriginal it)) Hit) as Hd.
  destruct Hd as [|i len its lens Hpl Hd]; [done|].
  destruct (planned_pos _ _ Hpl) as (Ht & ? & ? & _).
  destruct (max_data_range _ (itPdu it) Ht Hp) as (? & _).
  rewrite zlen_app, item_fragments_length by lia.
  pose proof (fragment_count_le len (max_data (RTransport i) (itPdu it)) ltac:(lia) (itOffset it) ltac:(lia)).
  pose proof (all_fragments_length _ _ _ Hp Hd (itOriginal it + 1)).
  cbn [total foldr] in Htot. fold (total lens) in Htot. lia.
Qed.

Lemma batch_fuel_enough it : good it → (length (remaining it) < batch_fuel it)%nat.
Proof.
  intros Hg. pose proof (undelivered_length it Hg) as Hu. pose proof (planned_total _ _ (gd_items _ Hg)).
  unfold remaining, batch_fuel. fold (total (lengths it)). rewrite length_app.
  unfold zlen in Hu. destruct (itPending it); simpl; lia.
Qed.

(** What holds of every fragment of a plan: it fits a PDU and belongs to an item. *)
Definition plan_ok (it : readFragmentIterator) (f : readFragment) : Prop :=
  fragment_ok (itPdu it) f ∧ 0 ≤ original f < zlen (items it).

(** The error slots of the results decide which items still count. *)
Definition has_failed (results : list ReadResult) (n : Z) : bool :=
  match results !! Z.to_nat n with
  | Some r => bool_decide (RErr r ≠ None)
  | None => false
  end.

(** The batch builder on a plan: it takes the longest run of fragments of
    unfailed items that fits, and leaves the rest; it never errs. *)
Lemma nextReadBatch_spec it results :
  good it → Forall (plan_ok it) (remaining it) → zlen results = zlen (items it) →
  ∃ batch it',
    nextReadBatch it (itPdu it) results = Ok (batch, zlen batch >? 0, it') ∧
    good it' ∧ same_plan it it' ∧ Forall (plan_ok it') (remaining it') ∧
    live (has_failed results) (remaining it) = batch ++ live (has_failed results) (remaining it') ∧
    batch_fits (itPdu it) batch ∧
    (remaining it' = [] ∨ batch ≠ [] ∧
      ∃ f, head (remaining it') = Some f ∧ has_failed results (original f) = false ∧
           ¬ batch_fits (itPdu it) (batch ++ [f])).
Proof.
  intros Hg Hok Hlen.
  destruct (nextReadBatchFrom_spec (batch_fuel it) (has_failed results)
    (λ i, r ← elem results i; Ok (bool_decide (RErr r ≠ None))) it [])
    as (taken & it' & Hrun & Hg' & Hsame & [sk Hsk] & Hl & Hfit & Hend).
  - done.
  - by apply batch_fuel_enough.
  - eapply Forall_impl; [exact Hok|]. by intros f [].
  - eapply Forall_impl; [exact Hok|]. intros f [_ Hn].
    destruct (lookup_lt_is_Some_2 results (Z.to_nat (original f))) as [r Hr]; [unfold zlen in *; lia|].
    cbn beta. rewrite (elem_Some _ _ _ (proj1 Hn) Hr). unfold has_failed. by rewrite Hr.
  - unfold batch_fits, CompatibilityMaxItemsPerPDU. pose proof (gd_pdu _ Hg).
    change (ReadRequestSize (zlen [])) with 12. change (ReadResponseSize (item <$> [])) with 14.
    change (zlen []) with 0. lia.
  - exists taken, it'. unfold nextReadBatch. split_and!; [exact Hrun|done|done| |done|done|done].
    rewrite Hsk in Hok. apply Forall_app in Hok as [_ Hok].
    eapply Forall_impl; [exact Hok|]. unfold plan_ok. by destruct Hsame as (-> & _ & ->).
Qed.

(** ** The fragments of a plan cover every item exactly *)

(** [covers n i len off fs]: the fragments [fs] read bytes [off .. len] of
    item [i], in order, without gap or overlap. *)
Inductive covers (n : Z) (i : ReadItem) (len : Z) : Z → list readFragment → Prop :=
| covers_done : covers n i len len []
| covers_step off f fs count :
    original f = n → offset f = off → 0 < DataBytes (item f) →
    item f = descriptor (advance i off) (RTransport i) count →
    Protocol.valid_item (item f) →
    covers n i len (off + DataBytes (item f)) fs →
    covers n i len off (f :: fs).

Lemma item_fragments_cover pdu n i len off : 32 ≤ pdu → planned maxItemBytes i len →
  0 ≤ off ≤ len → off mod width_of (RTransport i) = 0 →
  let fs := item_fragments n i len (max_data (RTransport i) pdu) off in
  covers n i len off fs ∧ Forall (λ f, fragment_ok pdu f ∧ original f = n) fs.
Proof.
  intros Hp Hpl Hoff Hal. destruct (planned_pos _ _ Hpl) as (Ht & ? & ? & _).
  destruct (max_data_range _ pdu Ht Hp) as (Hm & _).
  remember (Z.to_nat (len - off)) as k eqn:Hk. revert off Hoff Hal Hk.
  induction (lt_wf k) as [k _ IH]. intros off Hoff Hal -> fs. subst fs.
  destruct (decide (off = len)) as [->|].
  { rewrite item_fragments_done by lia. split; [constructor|done]. }
  rewrite item_fragments_cons by lia.
  destruct (fragment_valid i len pdu n off Hpl Hp ltac:(lia) Hal) as (Hsz & Hsal & _ & Hvi & Hdb).
  set (size := fragment_size len (max_data (RTransport i) pdu) off) in *.
  assert (size ≤ len - off) by (unfold size, fragment_size; lia).
  destruct (IH (Z.to_nat (len - (off + size))) ltac:(lia) (off + size)) as [Hc Hall];
    [lia|by rewrite Zplus_mod, Hal, Hsal|done|].
  split.
  - eapply covers_step; [done|done|lia|done|done|]. by rewrite Hdb.
  - constructor; [|done]. split; [|done]. split; [done|]. lia.
Qed.

(** The plan of a batch: for every item, in order, fragments that cover it. *)
Inductive plan (pdu : Z) : Z → list ReadItem → list Z → list readFragment → Prop :=
| plan_nil n : plan pdu n [] [] []
| plan_cons n i its len lens fs rest :
    covers n i len 0 fs → plan pdu (n + 1) its lens rest → plan pdu n (i :: its) (len :: lens) (fs ++ rest).

Lemma all_fragments_plan pdu its lens : 32 ≤ pdu → Forall2 (planned maxItemBytes) its lens →
  ∀ n, 0 ≤ n → plan pdu n its lens (all_fragments pdu n its lens) ∧
    Forall (λ f, fragment_ok pdu f ∧ n ≤ original f < n + zlen its) (all_fragments pdu n its lens).
Proof.
  intros Hp. induction 1 as [|i len its lens Hpl Hall IH]; intros n Hn; [by repeat constructor|].
  destruct (planned_pos _ _ Hpl) as (_ & ? & ? & _).
  destruct (item_fragments_cover pdu n i len 0 Hp Hpl) as [Hc Hok]; [lia|apply Zmod_0_l|].
  destruct (IH (n + 1) ltac:(lia)) as [Hpn Hok']. cbn [all_fragments]. rewrite zlen_cons. zlen_pos.
  split; [by constructor|]. apply Forall_app. split.
  - eapply Forall_impl; [exact Hok|]. intros f [? ->]. split; [done|lia].
  - eapply Forall_impl; [exact Hok'|]. intros f [? ?]. split; [done|lia].
Qed.

Lemma new_iterator_good pdu its lens : 32 ≤ pdu → Forall2 (planned maxItemBytes) its lens →
  good (new_iterator its lens pdu) ∧ remaining (new_iterator its lens pdu) = all_fragments pdu 0 its lens ∧
  Forall (plan_ok (new_iterator its lens pdu)) (remaining (new_iterator its lens pdu)).
Proof.
  intros Hp Hall.
  assert (remaining (new_iterator its lens pdu) = all_fragments pdu 0 its lens) as Hrem.
  { unfold remaining, undelivered. cbn. by destruct Hall. }
  split_and!; [|done|].
  - constructor; cbn; [done..|lia|lia|]. intros. apply Zmod_0_l.
  - rewrite Hrem. destruct (all_fragments_plan pdu its lens Hp Hall 0) as [_ Hok]; [lia|].
    eapply Forall_impl; [exact Hok|]. intros f [? ?]. split; [done|]. cbn. lia.
Qed.
End planning.

(** ** Counting, and preparing a batch *)

Lemma countReadFragmentsFrom_spec maxItemBytes pdu its lens : maxItemBytes < 2 ^ 32 → 32 ≤ pdu →
  Forall2 (planned maxItemBytes) its lens → ∀ n tot, 0 ≤ tot → tot + total lens ≤ MaxInt →
  countReadFragmentsFrom pdu its lens tot = Ok (tot + zlen (all_fragments pdu n its lens)).
Proof.
  intros Hmax Hp. induction 1 as [|i len its lens Hpl Hall IH]; intros n tot Ht0 Ht;
    cbn [countReadFragmentsFrom all_fragments]; [f_equal; rewrite zlen_nil; lia|].
  destruct (planned_pos _ _ _ Hpl) as (Ht7 & ? & ? & _). rewrite maxReadFragmentData_value by lia.
  cbn [mbind outcome_bind]. destruct (max_data_range _ pdu Ht7 Hp) as (Hm & _).
  set (m := max_data (RTransport i) pdu) in *.
  pose proof (fragment_count_le len m ltac:(lia) 0 ltac:(lia)) as Hle.
  assert (0 ≤ fragment_count len m 0) as Hfc by (apply Z.div_pos; lia).
  cbn [total foldr] in Ht. fold (total lens) in Ht. pose proof (planned_total _ _ _ Hall).
  assert (Z.quot (len + m - 1) m = fragment_count len m 0) as ->.
  { rewrite Z.quot_div_nonneg by lia. unfold fragment_count. f_equal. lia. }
  unfold MaxInt in *. unfold u64. rewrite (Z.mod_small (fragment_count len m 0)), Z.mod_small by lia.
  case_if; [lia|]. rewrite (IH (n + 1)) by lia. f_equal.
  rewrite zlen_app, item_fragments_length by lia. lia.
Qed.

(** The fragment count checked against the limit is the number of fragments
    of the plan. *)
Lemma countReadFragments_spec maxItemBytes pdu its lens :
  maxItemBytes < 2 ^ 32 → 32 ≤ pdu → Forall2 (planned maxItemBytes) its lens → total lens ≤ MaxInt →
  countReadFragments its lens pdu = Ok (zlen (all_fragments pdu 0 its lens)).
Proof.
  intros Hmax Hp Hall Ht. unfold countReadFragments.
  assert (zlen its = zlen lens) as -> by (unfold zlen; f_equal; by eapply Forall2_length).
  rewrite Z.eqb_refl. cbn [negb]. by eapply countReadFragmentsFrom_spec with (n := 0).
Qed.

(** The batches Read accepts. *)
Definition item_length (i : ReadItem) : Z := item_bytes (RTransport i) (RCount i).
Definition acceptable_reads (config : Config) (input : list ReadItem) : Prop :=
  1 ≤ zlen input ≤ MaxItemsPerCall config ∧
  Forall (λ i, valid_read_item i (MaxItemBytes config)) input ∧
  total (item_length <$> input) ≤ MaxBatchBytes config.

Lemma total_nonneg l : Forall (λ x, 0 < x) l → 0 ≤ total l.
Proof. induction 1; [done|]. cbn. fold (total l). lia. Qed.

Lemma item_length_pos i max : read_item_values i → valid_read_item i max → 0 < item_length i < 2 ^ 34.
Proof.
  intros Hv Hva. destruct (planned_pos max i (item_length i)) as (_ & _ & ? & _); [by constructor|lia].
Qed.

Lemma item_lengths_pos max its : Forall read_item_values its →
  Forall (λ i, valid_read_item i max) its → Forall (λ x, 0 < x) (item_length <$> its).
Proof.
  intros Hv Hva. apply Forall_fmap. rewrite Forall_forall in *. intros i Hi.
  by apply (item_length_pos i max); [apply Hv|apply Hva].
Qed.

Lemma planned_lengths max its : Forall read_item_values its →
  Forall (λ i, valid_read_item i max) its → Forall2 (planned max) its (item_length <$> its).
Proof.
  induction 1 as [|i its Hi Hv IH]; intros Hf; [constructor|].
  apply Forall_cons in Hf as [? Hf]. constructor; [by constructor|by apply IH].
Qed.

Lemma prepareReadsFrom_spec config its : settings_ok config → Forall read_item_values its →
  ∀ index tot, 0 ≤ tot ≤ MaxBatchBytes config →
  let ok := Forall (λ i, valid_read_item i (MaxItemBytes config)) its ∧
            tot + total (item_length <$> its) ≤ MaxBatchBytes config in
  match prepareReadsFrom config index tot its with
  | Ok lens => ok ∧ lens = item_length <$> its
  | Err _ => ¬ ok
  | Panic => False
  end.
Proof.
  intros Hs Hv. pose proof (so_batch_bytes _ Hs).
  induction Hv as [|i its Hi Hv IH]; intros index tot Ht; cbn [prepareReadsFrom fmap list_fmap total foldr].
  { split; [|done]. split; [done|]. lia. }
  fold (total (item_length <$> its)).
  pose proof (validateReadItem_spec i (MaxItemBytes config) Hi) as Hval.
  destruct (validateReadItem _ _) as [n| |]; cbn [map_err mbind outcome_bind]; [| |done].
  2: { intros [Hf _]. by apply Forall_cons in Hf as [? _]. }
  destruct Hval as [Hval ->]. pose proof (item_length_pos i _ Hi Hval) as Hl.
  fold (item_length i). unfold u64. rewrite Z.mod_small by lia. case_if.
  { intros [Hf Hle]. apply Forall_cons in Hf as [_ Hf].
    pose proof (total_nonneg _ (item_lengths_pos _ _ Hv Hf)). lia. }
  specialize (IH (index + 1) (tot + item_length i) ltac:(lia)).
  destruct (prepareReadsFrom _ _ _ _) as [lens| |]; cbn [mbind outcome_bind]; [| |done].
  - destruct IH as [[Hf Hle] ->]. split; [|done]. split; [by constructor|]. lia.
  - intros [Hf Hle]. apply Forall_cons in Hf as [_ Hf]. apply IH. split; [done|]. lia.
Qed.

(** prepareReads accepts exactly the acceptable batches, before any I/O, and
    returns them with their data lengths. *)
Lemma prepareReads_spec config input : settings_ok config → Forall read_item_values input →
  match prepareReads config input with
  | Ok (its, lens) =>
      acceptable_reads config input ∧ its = input ∧ lens = item_length <$> input ∧
      Forall2 (planned (MaxItemBytes config)) its lens
  | Err _ => ¬ acceptable_reads config input
  | Panic => False
  end.
Proof.
  intros Hs Hv. unfold prepareReads, acceptable_reads. zlen_pos.
  case_if; [lia|]. case_if; [lia|].
  pose proof (prepareReadsFrom_spec config input Hs Hv 0 0) as H0. pose proof (so_batch_bytes _ Hs).
  pose proof (so_item_bytes _ Hs). specialize (H0 ltac:(lia)). cbn zeta in H0.
  destruct (prepareReadsFrom _ _ _ _) as [lens| |]; cbn [mbind outcome_bind]; [|tauto|done].
  destruct H0 as [[Hf Hle] ->]. split_and!; [lia|lia|done|lia|done|done|].
  by apply planned_lengths.
Qed.

(** The batches Write accepts. *)
Definition write_length (i : WriteItem) : Z := item_bytes (WTransport i) (WCount i).
Definition acceptable_writes (config : Config) (input : list WriteItem) : Prop :=
  1 ≤ zlen input ≤ MaxItemsPerCall config ∧
  Forall (λ i, valid_write_item i (MaxItemBytes config)) input ∧
  total (write_length <$> input) ≤ MaxBatchBytes config.

Definition read_of (i : WriteItem) : ReadItem := mkReadItem (WAddress i) (WTransport i) (WCount i).

Lemma write_length_pos i max : write_item_values i → valid_write_item i max → 0 < write_length i < 2 ^ 34.
Proof. intros [Hv _] [Hr _]. exact (item_length_pos (read_of i) max Hv Hr). Qed.

Lemma write_lengths_pos max its : Forall write_item_values its →
  Forall (λ i, valid_write_item i max) its → Forall (λ x, 0 < x) (write_length <$> its).
Proof.
  intros Hv Hva. apply Forall_fmap. rewrite Forall_forall in *. intros i Hi.
  by apply (write_length_pos i max); [apply Hv|apply Hva].
Qed.

Lemma prepareWritesFrom_spec config its : settings_ok config → Forall write_item_values its →
  ∀ index tot, 0 ≤ tot ≤ MaxBatchBytes config →
  let ok := Forall (λ i, valid_write_item i (MaxItemBytes config)) its ∧
            tot + total (write_length <$> its) ≤ MaxBatchBytes config in
  match prepareWritesFrom config index tot its with
  | Ok _ => ok
  | Err _ => ¬ ok
  | Panic => False
  end.
Proof.
  intros Hs Hv. pose proof (so_batch_bytes _ Hs).
  induction Hv as [|i its Hi Hv IH]; intros index tot Ht; cbn [prepareWritesFrom fmap list_fmap total foldr].
  { split; [done|]. lia. }
  fold (total (write_length <$> its)).
  pose proof (validateWriteItem_spec i (MaxItemBytes config) Hi) as Hval.
  destruct (validateWriteItem _ _) as [n| |]; cbn [map_err mbind outcome_bind]; [| |done].
  2: { intros [Hf _]. by apply Forall_cons in Hf as [? _]. }
  destruct Hval as [Hval ->]. pose proof (write_length_pos i _ Hi Hval) as Hl.
  fold (write_length i). unfold u64. rewrite Z.mod_small by lia. case_if.
  { intros [Hf Hle]. apply Forall_cons in Hf as [_ Hf].
    pose proof (total_nonneg _ (write_lengths_pos _ _ Hv Hf)). lia. }
  specialize (IH (index + 1) (tot + write_length i) ltac:(lia)).
  destruct (prepareWritesFrom _ _ _ _) as [u| |]; [| |done].
  - destruct IH as [Hf Hle]. split; [by constructor|]. lia.
  - intros [Hf Hle]. apply Forall_cons in Hf as [_ Hf]. apply IH. split; [done|]. lia.
Qed.

(** prepareWrites accepts exactly the acceptable batches, before any I/O. *)
Lemma prepareWrites_spec config input : settings_ok config → Forall write_item_values input →
  match prepareWrites config input with
  | Ok its => acceptable_writes config input ∧ its = input
  | Err _ => ¬ acceptable_writes config input
  | Panic => False
  end.
Proof.
  intros Hs Hv. unfold prepareWrites, acceptable_writes. zlen_pos.
  case_if; [lia|]. case_if; [lia|].
  pose proof (prepareWritesFrom_spec config input Hs Hv 0 0) as H0. pose proof (so_batch_bytes _ Hs).
  pose proof (so_item_bytes _ Hs). specialize (H0 ltac:(lia)). cbn zeta in H0.
  destruct (prepareWritesFrom _ _ _ _) as [u| |]; cbn [mbind outcome_bind]; [|tauto|done].
  destruct H0 as [Hf Hle]. split_and!; [lia|lia|done|lia|done].
Qed.

(** ** Batches of writes *)

Definition write_batch_fits (pdu : Z) (batch : list preparedWrite) : Prop :=
  zlen batch ≤ CompatibilityMaxItemsPerPDU ∧ WriteRequestSize (wItem <$> batch) ≤ pdu ∧
  WriteResponseSize (zlen batch) ≤ pdu.

Lemma WriteRequestSize_snoc its i :
  WriteRequestSize (its ++ [i]) = WriteRequestSize its + 12 + 4 + zlen (Protocol.WData i)
  + match last its with
    | Some p => if negb (Z.rem (zlen (Protocol.WData p)) 2 =? 0) then 1 else 0
    | None => 0
    end.
Proof.
  unfold WriteRequestSize. rewrite fmap_app. cbn [fmap list_fmap].
  assert (zlen (its ++ [i]) = zlen its + 1) as Hlen by zlia.
  rewrite itemSizes_snoc by (rewrite Hlen, zlen_map; lia).
  rewrite Hlen, fmap_last. replace (zlen its + 1 - 1) with (zlen its) by lia.
  unfold jobHeaderSize, itemSpecSize. destruct (last its); cbn [fmap option_fmap option_map]; lia.
Qed.

Lemma sub_snoc {A} (l : list A) a b x : 0 ≤ a ≤ b → l !! Z.to_nat b = Some x →
  sub l a (b + 1) = sub l a b ++ [x].
Proof.
  intros H Hx. rewrite <-(sub_append l a b (b + 1)) by lia. f_equal.
  unfold sub. rewrite (drop_S _ _ _ Hx). by replace (Z.to_nat (b + 1 - b)) with 1%nat by lia.
Qed.

Lemma last_sub {A} (l : list A) a b x : 0 ≤ a < b → l !! Z.to_nat (b - 1) = Some x →
  last (sub l a b) = Some x.
Proof.
  intros H Hx. replace b with (b - 1 + 1) at 1 by lia. rewrite (sub_snoc l a (b - 1) x) by (lia || done).
  by rewrite last_snoc.
Qed.

(** One more item makes the candidate sizes of the loop. *)
Lemma write_sizes_step its start end_ it req resp : 0 ≤ start ≤ end_ →
  its !! Z.to_nat end_ = Some it →
  req = WriteRequestSize (wItem <$> sub its start end_) → resp = WriteResponseSize (end_ - start) →
  (if end_ >? start then
     previous ← elem its (end_ - 1);
     Ok (if negb (Z.rem (zlen (Protocol.WData (wItem previous))) 2 =? 0)
         then req + 12 + 4 + zlen (Protocol.WData (wItem it)) + 1
         else req + 12 + 4 + zlen (Protocol.WData (wItem it)))
   else Ok (req + 12 + 4 + zlen (Protocol.WData (wItem it))))
  = Ok (E:=error) (WriteRequestSize (wItem <$> sub its start (end_ + 1))) ∧
  resp + 1 = WriteResponseSize (end_ + 1 - start).
Proof.
  intros Hse Hit -> ->. split; [|unfold WriteResponseSize; lia].
  rewrite (sub_snoc _ _ _ _ Hse Hit), fmap_app. cbn [fmap list_fmap].
  rewrite WriteRequestSize_snoc, fmap_last. case_if.
  - destruct (lookup_lt_is_Some_2 its (Z.to_nat (end_ - 1))) as [p Hp].
    { pose proof (lookup_lt_Some _ _ _ Hit). lia. }
    rewrite (elem_Some its (end_ - 1) p ltac:(lia) Hp). cbn [mbind outcome_bind].
    rewrite (last_sub its start end_ p) by (lia || done). cbn [fmap option_fmap option_map].
    f_equal. case_if; lia.
  - replace end_ with start by lia.
    assert (sub its start start = []) as -> by (unfold sub; by rewrite Z.sub_diag).
    change (last []) with (@None preparedWrite). cbn [fmap option_fmap option_map]. f_equal. lia.
Qed.

Lemma nextWriteBatchFrom_spec fuel its start pdu single : ∀ end_,
  0 ≤ start ≤ end_ → end_ ≤ zlen its → start < zlen its → zlen its - end_ < Z.of_nat fuel →
  32 ≤ pdu → (single = true → end_ = start) →
  Forall (λ w, WriteRequestSize [wItem w] ≤ pdu) its →
  write_batch_fits pdu (sub its start end_) →
  ∃ stop, nextWriteBatchFrom fuel its start pdu single end_
      (WriteRequestSize (wItem <$> sub its start end_)) (WriteResponseSize (end_ - start)) = Ok stop ∧
    end_ ≤ stop ≤ zlen its ∧ start < stop ∧ write_batch_fits pdu (sub its start stop) ∧
    (single = true → stop = start + 1) ∧
    (single = false → stop = zlen its ∨ ¬ write_batch_fits pdu (sub its start (stop + 1))).
Proof.
  induction fuel as [|fuel IH]; intros end_ Hse Hel Hsl Hf Hp Hsingle Hall Hfit; [lia|].
  cbn [nextWriteBatchFrom]. case_if.
  2: { exists end_. split_and!; [done|lia..|done|intros ?; specialize (Hsingle ltac:(done)); lia|]. left. lia. }
  destruct (lookup_lt_is_Some_2 its (Z.to_nat end_)) as [it Hit]; [unfold zlen in *; lia|].
  rewrite (elem_Some its end_ it ltac:(lia) Hit). cbn [mbind outcome_bind].
  destruct (write_sizes_step its start end_ it _ _ Hse Hit eq_refl eq_refl) as [Hreq Hresp].
  rewrite Hreq, Hresp. cbn [mbind outcome_bind].
  assert (zlen (sub its start (end_ + 1)) = end_ + 1 - start) as Hz by (apply zlen_sub; lia).
  assert (zlen (sub its start end_) = end_ - start) as Hz0 by (apply zlen_sub; lia).
  case_if.
  - destruct (end_ =? start) eqn:Heq.
    + exfalso. assert (end_ = start) as -> by lia.
      rewrite (sub_snoc _ _ _ _ Hse Hit) in Heqb0. unfold sub in Heqb0. rewrite Z.sub_diag in Heqb0.
      change (take (Z.to_nat 0) _) with (@nil preparedWrite) in Heqb0.
      rewrite Forall_lookup in Hall. specialize (Hall _ _ Hit). cbn [app fmap list_fmap] in Hall, Heqb0.
      replace (start + 1 - start) with 1 in Heqb0 by lia. change (WriteResponseSize 1) with 15 in Heqb0.
      unfold CompatibilityMaxItemsPerPDU in Heqb0. lia.
    + exists end_. split_and!; [done|lia..|done|intros ?; specialize (Hsingle ltac:(done)); lia|].
      intros _. right. unfold write_batch_fits. rewrite Hz. destruct Hfit as [? _]. lia.
  - assert (write_batch_fits pdu (sub its start (end_ + 1))) as Hfit'.
    { unfold write_batch_fits. rewrite Hz. destruct Hfit as [? _]. lia. }
    destruct single.
    + exists (end_ + 1). specialize (Hsingle ltac:(done)). split_and!; [done|lia..|done|lia|done].
    + destruct (IH (end_ + 1)) as (stop & Hrun & ? & ? & ? & ? & ?); [lia..|done|done|done|].
      exists stop. split_and!; [done|lia..|done|done|done].
Qed.

(** The batch builder for writes takes the longest run of items that fits the
    PDU (one item when [single]); it never errs on preflighted items. *)
Lemma nextWriteBatch_spec its start pdu single :
  0 ≤ start < zlen its → 32 ≤ pdu → Forall (λ w, WriteRequestSize [wItem w] ≤ pdu) its →
  ∃ stop, nextWriteBatch its start pdu single = Ok (sub its start stop, stop) ∧
    start < stop ≤ zlen its ∧ write_batch_fits pdu (sub its start stop) ∧
    (single = true → stop = start + 1) ∧
    (single = false → stop = zlen its ∨ ¬ write_batch_fits pdu (sub its start (stop + 1))).
Proof.
  intros Hs Hp Hall. unfold nextWriteBatch. case_if; [lia|].
  assert (sub its start start = []) as Hnil by (unfold sub; by rewrite Z.sub_diag).
  destruct (nextWriteBatchFrom_spec (S (length its)) its start pdu single start)
    as (stop & Hrun & ? & ? & ? & ? & ?); [lia..|unfold zlen; lia|lia|done|done| |].
  { rewrite Hnil. unfold write_batch_fits, CompatibilityMaxItemsPerPDU.
    change (WriteRequestSize (wItem <$> [])) with 12. change (WriteResponseSize (zlen [])) with 14.
    change (zlen []) with 0. lia. }
  rewrite Hnil, Z.sub_diag in Hrun. change (WriteRequestSize (wItem <$> [])) with 12 in Hrun.
  change (WriteResponseSize 0) with 14 in Hrun. rewrite Hrun. cbn [mbind outcome_bind].
  rewrite slice_Ok by lia. exists stop. split_and!; [done|lia..|done|done|done].
Qed.

(** ** Properties *)

(** C22. Read preparation accepts exactly the batches within the configured item
    count, item size and total size whose items are all well formed, and keeps
    items and data lengths in order; it never panics. *)
Theorem prepareReads_exact config input : settings_ok config → Forall read_item_values input →
  match prepareReads config input with
  | Ok (its, lens) => acceptable_reads config input ∧ its = input ∧ lens = item_length <$> input
  | Err _ => ¬ acceptable_reads config input
  | Panic => False
  end.
Proof.
  intros Hc Hv. pose proof (prepareReads_spec config input Hc Hv) as H.
  by destruct (prepareReads config input) as [[its lens]|e|]; [destruct H as (? & ? & ? & _)|..].
Qed.

(** C24. Write preparation accepts exactly the batches within the configured
    limits whose items are all well formed; it never panics. *)
Theorem prepareWrites_exact config input : settings_ok config → Forall write_item_values input →
  match prepareWrites config input with
  | Ok its => acceptable_writes config input ∧ its = input
  | Err _ => ¬ acceptable_writes config input
  | Panic => False
  end.
Proof. apply prepareWrites_spec. Qed.

(** C20. Calling the iterator's [next] again and again, from its start until it
    reports the end, never fails or panics and ends after as many fragments as
    were counted for the limit check; the fragments it delivers cover every item
    exactly once, in order and without overlap, each with the wire descriptor of
    its bytes and small enough for a PDU of its own. *)
Theorem read_plan_correct maxItemBytes pdu its lens :
  maxItemBytes < 2 ^ 32 → 32 ≤ pdu → Forall2 (planned maxItemBytes) its lens → total lens ≤ MaxInt →
  ∃ fragments, countReadFragments its lens pdu = Ok (zlen fragments) ∧
    (∀ fuel, (length fragments < fuel)%nat → drain fuel (new_iterator its lens pdu) = Ok fragments) ∧
    plan pdu 0 its lens fragments ∧ Forall (fragment_ok pdu) fragments.
Proof.
  intros Hm Hp Hall Ht. destruct (new_iterator_good maxItemBytes pdu its lens Hp Hall) as (Hg & Hrem & _).
  destruct (all_fragments_plan maxItemBytes pdu its lens Hp Hall 0 ltac:(lia)) as [Hplan Hok].
  exists (all_fragments pdu 0 its lens). split; [by eapply countReadFragments_spec|]. split; [|split; [done|]].
  - intros fuel Hf. rewrite <-Hrem in *. by apply (drain_spec maxItemBytes).
  - eapply Forall_impl; [exact Hok|]. by intros f [? _].
Qed.

(** C22. The streaming iterator refines the list of fragments it still has to
    deliver: [next] takes the head off that list, or reports its end, and
    [putBack] undoes a [next]; neither fails or panics. *)
Theorem iterator_refines_plan maxItemBytes it : maxItemBytes < 2 ^ 32 → good maxItemBytes it →
  ∃ it', next it = Ok (head (remaining it), it') ∧ remaining it' = tail (remaining it) ∧
    good maxItemBytes it' ∧ same_plan it it' ∧
    ∀ f, head (remaining it) = Some f →
      remaining (putBack it' f) = remaining it ∧ good maxItemBytes (putBack it' f).
Proof.
  intros Hm Hg. destruct (next_spec maxItemBytes Hm it Hg) as (it' & Hn & Ht & Hg' & Hp & Hs).
  exists it'. do 4 (split; [done|]). intros f Hf.
  destruct (putBack_spec maxItemBytes it' f Hg' Hp) as (-> & ? & _). split; [|done].
  rewrite Ht. destruct (remaining it); [done|]. cbn in *. by injection Hf as ->.
Qed.

(** C21. The read batch builder takes, in order, the longest run of fragments of
    unfailed items whose request and response fit the PDU and the item limit,
    and leaves the rest of the plan; it stops with an empty batch only at the
    end of the plan, and never fails or panics. *)
Theorem nextReadBatch_correct maxItemBytes it results : maxItemBytes < 2 ^ 32 →
  good maxItemBytes it → Forall (plan_ok it) (remaining it) → zlen results = zlen (items it) →
  ∃ batch it',
    nextReadBatch it (itPdu it) results = Ok (batch, zlen batch >? 0, it') ∧
    good maxItemBytes it' ∧ same_plan it it' ∧ Forall (plan_ok it') (remaining it') ∧
    live (has_failed results) (remaining it) = batch ++ live (has_failed results) (remaining it') ∧
    batch_fits (itPdu it) batch ∧
    (remaining it' = [] ∨ batch ≠ [] ∧
      ∃ f, head (remaining it') = Some f ∧ has_failed results (original f) = false ∧
           ¬ batch_fits (itPdu it) (batch ++ [f])).
Proof. intros Hm. by apply nextReadBatch_spec. Qed.

(** C23. The write batch builder takes the longest run of items whose request
    and response fit the PDU and the item limit, or a single item on demand; on
    items that fit a PDU of their own it never fails or panics. *)
Theorem nextWriteBatch_correct its start pdu single :
  0 ≤ start < zlen its → 32 ≤ pdu → Forall (λ w, WriteRequestSize [wItem w] ≤ pdu) its →
  ∃ stop, nextWriteBatch its start pdu single = Ok (sub its start stop, stop) ∧
    start < stop ≤ zlen its ∧ write_batch_fits pdu (sub its start stop) ∧
    (single = true → stop = start + 1) ∧
    (single = false → stop = zlen its ∨ ¬ write_batch_fits pdu (sub its start (stop + 1))).
Proof. apply nextWriteBatch_spec. Qed.

(** *** Concrete instances *)

Definition sample_read : ReadItem := mkReadItem (mkAddress AreaDB 1 10 0) TransportByte 300.
Lemma sample_read_values : read_item_values sample_read.
Proof. repeat constructor; concrete. Qed.
Lemma sample_planned : Forall2 (planned 1024) [sample_read] [300].
Proof.
  constructor; [|constructor]. constructor; [apply sample_read_values| |reflexivity].
  pose proof (validateReadItem_spec sample_read 1024 sample_read_values) as H.
  assert (validateReadItem sample_read 1024 = Ok 300) as E by (vm_compute; reflexivity).
  rewrite E in H. apply H.
Qed.
Lemma sample_settings : settings_ok (nConfig sample_normalized).
Proof. constructor; vm_compute; intuition congruence. Qed.

Lemma prepareReads_exact_witness : acceptable_reads (nConfig sample_normalized) [sample_read].
Proof.
  pose proof (prepareReads_exact (nConfig sample_normalized) [sample_read] sample_settings
    ltac:(by repeat constructor; apply sample_read_values)) as H.
  assert (prepareReads (nConfig sample_normalized) [sample_read] = Ok ([sample_read], [300])) as E
    by (vm_compute; reflexivity).
  rewrite E in H. exact (proj1 H).
Defined.

Lemma prepareWrites_exact_witness : acceptable_writes (nConfig sample_normalized) [sample_write].
Proof.
  pose proof (prepareWrites_exact (nConfig sample_normalized) [sample_write] sample_settings
    ltac:(by repeat constructor; apply sample_write_values)) as H.
  assert (prepareWrites (nConfig sample_normalized) [sample_write] = Ok [sample_write]) as E
    by (vm_compute; reflexivity).
  rewrite E in H. exact (proj1 H).
Defined.

Lemma read_plan_correct_witness :
  ∃ fragments, zlen fragments = 2 ∧ drain 3 (new_iterator [sample_read] [300] 240) = Ok fragments ∧
    plan 240 0 [sample_read] [300] fragments.
Proof.
  destruct (read_plan_correct 1024 240 [sample_read] [300]) as (fs & Hc & Hd & Hp & _);
    [lia|lia|apply sample_planned|vm_compute; discriminate|].
  assert (countReadFragments [sample_read] [300] 240 = Ok 2) as Hc2 by (vm_compute; reflexivity).
  rewrite Hc2 in Hc. injection Hc as Hc. exists fs. split; [symmetry; exact Hc|]. split; [|exact Hp].
  apply Hd. unfold zlen in Hc. lia.
Defined.

Lemma iterator_refines_plan_witness :
  ∃ it', next (new_iterator [sample_read] [300] 240)
    = Ok (head (remaining (new_iterator [sample_read] [300] 240)), it').
Proof.
  destruct (iterator_refines_plan 1024 (new_iterator [sample_read] [300] 240)) as (it' & H & _);
    [lia|apply (new_iterator_good 1024 240 [sample_read] [300]); [lia|apply sample_planned]|].
  exists it'. exact H.
Defined.

Lemma nextReadBatch_correct_witness :
  ∃ batch it', nextReadBatch (new_iterator [sample_read] [300] 240) 240 [mkReadResult nil_view None]
    = Ok (batch, zlen batch >? 0, it') ∧ batch_fits 240 batch.
Proof.
  destruct (new_iterator_good 1024 240 [sample_read] [300] ltac:(lia) sample_planned) as (Hg & _ & Hok).
  destruct (nextReadBatch_correct 1024 (new_iterator [sample_read] [300] 240)
    [mkReadResult nil_view None]) as (b & it' & H & _ & _ & _ & _ & Hf & _);
    [lia|exact Hg|exact Hok|reflexivity|].
  exists b, it'. exact (conj H Hf).
Defined.

Lemma nextWriteBatch_correct_witness :
  let p := mkPrepared 0 (Protocol.mkWriteItem Protocol.sample_item [1; 2]) in
  ∃ stop, nextWriteBatch [p; p] 0 240 false = Ok (sub [p; p] 0 stop, stop) ∧ 0 < stop ≤ 2.
Proof.
  cbv zeta.
  destruct (nextWriteBatch_correct
    (replicate 2 (mkPrepared 0 (Protocol.mkWriteItem Protocol.sample_item [1; 2]))) 0 240 false)
    as (stop & H & Hs & _); [concrete|lia|repeat constructor; vm_compute; discriminate|].
  exists stop. exact (conj H Hs).
Defined.
