(* ===== verification/Session.v ===== *)
(** * Session: one physical S7 session (client.go, diagnostics.go)

    The state machine of a [Client]: connect, exchange, failure handling,
    close.  Go code runs in a state monad over a [World]: the client's fields
    and its environment.

    Interference.  Every atomic step of the client (a critical section of
    [client.mu], a look at a context, a call on a connection) is preceded by a
    [tick], which runs the next entry of a schedule: any number of context
    expirations and of steps of a concurrent [Close].  Theorems hold for every
    schedule.  Complete operations are serialised by [client.gate], so one
    operation at a time is in progress next to [Close].

    A peer is an instance of [Peer]: what it answers to the bytes it gets.
    [c_wire] records, for every connection, the bytes that were written and the
    frames that were read, in order. *)

From S2P Require Import Errors Protocol IsoTCP Config.

(** ** The client *)

Inductive State :=
| StateNew
| StateConnecting
| StateReady
| StateBroken
| StateDisconnected
| StateClosing
| StateClosed.

#[export] Instance State_eq_dec : EqDecision State.
Proof. solve_decision. Defined.

Definition State_String (state : State) : string :=
  match state with
  | StateNew => "new"
  | StateConnecting => "connecting"
  | StateReady => "ready"
  | StateBroken => "broken"
  | StateDisconnected => "disconnected"
  | StateClosing => "closing"
  | StateClosed => "closed"
  end.

Record SessionLimits := mkLimits {
  LRequestedPDU : Z;
  NegotiatedPDU : Z;
  NegotiatedTPDU : Z;
  NegotiatedMaxAmQCaller : Z;
  NegotiatedMaxAmQCallee : Z;
}.
Definition no_limits : SessionLimits := mkLimits 0 0 0 0 0.

(** The fields of [Client].  [conn] names a connection of the environment,
    [gate] says whether an operation holds the gate and [lifeCanceled] whether
    [lifeCtx] is cancelled; [lastActivity] is in ticks, and no failure kind is
    the empty string.  [closeOnce] is the environment's [closer]. *)
Record Client := mkClient {
  config : normalizedConfig;
  state : State;
  conn : option nat;
  reference : Z;
  sessionGeneration : Z;
  limits : SessionLimits;
  limitsValid : bool;
  localAddress : list Z;
  remoteAddress : list Z;
  lastActivity : Z;
  lastSessionFailureKind : option ErrorKind;
  lifeCanceled : bool;
  gate : bool;
}.

Definition maxAmQCaller : Z := 1.
Definition maxAmQCallee : Z := 1.

(** [New]: a client for a normalised configuration, or the error. *)
Definition New (input : Config) : result Client :=
  normalized ← normalizeConfig input;
  Ok (mkClient normalized StateNew None 0 0 no_limits false [] [] 0 None false false).

(** Updates of single fields. *)
Definition set_state (s : State) (c : Client) : Client :=
  mkClient (config c) s (conn c) (reference c) (sessionGeneration c) (limits c) (limitsValid c)
    (localAddress c) (remoteAddress c) (lastActivity c) (lastSessionFailureKind c)
    (lifeCanceled c) (gate c).
Definition set_conn (n : option nat) (c : Client) : Client :=
  mkClient (config c) (state c) n (reference c) (sessionGeneration c) (limits c) (limitsValid c)
    (localAddress c) (remoteAddress c) (lastActivity c) (lastSessionFailureKind c)
    (lifeCanceled c) (gate c).
Definition set_reference (r : Z) (c : Client) : Client :=
  mkClient (config c) (state c) (conn c) r (sessionGeneration c) (limits c) (limitsValid c)
    (localAddress c) (remoteAddress c) (lastActivity c) (lastSessionFailureKind c)
    (lifeCanceled c) (gate c).
Definition set_limitsValid (b : bool) (c : Client) : Client :=
  mkClient (config c) (state c) (conn c) (reference c) (sessionGeneration c) (limits c) b
    (localAddress c) (remoteAddress c) (lastActivity c) (lastSessionFailureKind c)
    (lifeCanceled c) (gate c).
Definition set_lastActivity (t : Z) (c : Client) : Client :=
  mkClient (config c) (state c) (conn c) (reference c) (sessionGeneration c) (limits c)
    (limitsValid c) (localAddress c) (remoteAddress c) t (lastSessionFailureKind c)
    (lifeCanceled c) (gate c).
Definition set_failure (k : option ErrorKind) (c : Client) : Client :=
  mkClient (config c) (state c) (conn c) (reference c) (sessionGeneration c) (limits c)
    (limitsValid c) (localAddress c) (remoteAddress c) (lastActivity c) k
    (lifeCanceled c) (gate c).
Definition set_lifeCanceled (c : Client) : Client :=
  mkClient (config c) (state c) (conn c) (reference c) (sessionGeneration c) (limits c)
    (limitsValid c) (localAddress c) (remoteAddress c) (lastActivity c)
    (lastSessionFailureKind c) true (gate c).
Definition set_gate (b : bool) (c : Client) : Client :=
  mkClient (config c) (state c) (conn c) (reference c) (sessionGeneration c) (limits c)
    (limitsValid c) (localAddress c) (remoteAddress c) (lastActivity c)
    (lastSessionFailureKind c) (lifeCanceled c) b.

(** ** The environment *)

(** The contexts an operation looks at, outermost first. *)
Inductive level := Caller | Operation | Exchange.

#[export] Instance level_eq_dec : EqDecision level.
Proof. solve_decision. Defined.

Inductive event :=
| ContextDone (l : level) (timeout : bool)   (**r a deadline passes, or a cancel *)
| CloseStep.                                 (**r [Close] makes its next step *)

(** The cases of the [select] of [acquire]. *)
Inductive acquire_case := CaseContext | CaseClosed | CaseGate.

#[export] Instance acquire_case_eq_dec : EqDecision acquire_case.
Proof. solve_decision. Defined.

(** A peer: its state changes with the bytes it is sent, and it answers. *)
Class Peer (P : Type) := {
  answer : P → list Z → P * list arrival;
  answer_bytes p bs : Forall arrival_bytes (answer p bs).2;
}.

(** What a connection has carried: bytes to the peer, and frames that a
    [ReadFrame] took from it. *)
Inductive transfer :=
| Sent (b : Z)
| Received (frame : list Z).

Definition received (r : result (list Z)) : list transfer :=
  match r with Ok frame => [Received frame] | _ => [] end.

Section world.
Context {P : Type} `{Peer P}.

(** A TCP connection: what successive calls on it will answer, and what it has
    carried, which no code looks at. *)
Record Conn := mkConn {
  c_closed : bool;
  c_rx : list arrival;                        (**r bytes on their way to the client *)
  c_writes : list (list (Z * option error));  (**r per [WriteFull]: the [Write] answers *)
  c_deadlines : list (option error);          (**r the [SetDeadline] answers *)
  c_peer : P;
  c_local : list Z;
  c_remote : list Z;
  c_wire : list transfer;
}.

(** What [DialContext] and the socket options answer. *)
Inductive dial :=
| DialFails (e : error)
| Dialled (c : Conn) (tcp : bool) (noDelay keepAlive keepAlivePeriod : option error).

Record Env := mkEnv {
  conns : list Conn;
  dials : list dial;
  schedule : list (list event);
  selects : list nat;               (**r which ready case a [select] takes *)
  ctxDone : level → option errvar;
  closer : nat;                     (**r the steps [Close] has made, 4 in all *)
  closerConn : option nat;          (**r the connection [Close] took away *)
  clock : Z;
}.

Record World := mkWorld { client : Client; env : Env }.

Definition on_client (f : Client → Client) (w : World) : World := mkWorld (f (client w)) (env w).
Definition set_conns (cs : list Conn) (e : Env) : Env :=
  mkEnv cs (dials e) (schedule e) (selects e) (ctxDone e) (closer e) (closerConn e) (clock e).
Definition set_ctx (l : level) (v : option errvar) (e : Env) : Env :=
  mkEnv (conns e) (dials e) (schedule e) (selects e)
    (λ l', if decide (l' = l) then v else ctxDone e l') (closer e) (closerConn e) (clock e).
Definition set_closer (n : nat) (c : option nat) (e : Env) : Env :=
  mkEnv (conns e) (dials e) (schedule e) (selects e) (ctxDone e) n c (clock e).
Definition on_env (f : Env → Env) (w : World) : World := mkWorld (client w) (f (env w)).

Definition close_conn (c : Conn) : Conn :=
  mkConn true (c_rx c) (c_writes c) (c_deadlines c) (c_peer c) (c_local c) (c_remote c) (c_wire c).
Definition close_id (id : nat) (w : World) : World :=
  on_env (λ e, set_conns (alter close_conn id (conns e)) e) w.

(** ** Close *)

(** The steps of the function [Close] runs once: leave the session, cancel
    [lifeCtx], close the connection, become closed. *)
Definition close_step (w : World) : World :=
  match closer (env w) with
  | 0%nat =>
      on_env (set_closer 1 (conn (client w)))
        (on_client (λ c, set_limitsValid false (set_conn None (set_state StateClosing c))) w)
  | 1%nat => on_env (set_closer 2 (closerConn (env w))) (on_client set_lifeCanceled w)
  | 2%nat =>
      on_env (set_closer 3 None)
        (match closerConn (env w) with Some id => close_id id w | None => w end)
  | 3%nat => on_env (set_closer 4 None) (on_client (set_state StateClosed) w)
  | _ => w
  end.

Definition ctx_errvar (timeout : bool) : errvar :=
  if timeout then ContextDeadlineExceeded else ContextCanceled.

(** [ctx.Err()] of the context at a level: its own error or its parent's. *)
Definition ctx_err (w : World) (l : level) : option errvar :=
  let own := ctxDone (env w) in
  let first a b := match a with Some v => Some v | None => b end in
  match l with
  | Caller => own Caller
  | Operation => first (own Operation) (own Caller)
  | Exchange => first (own Exchange) (first (own Operation) (own Caller))
  end.

(** A context that is done, itself or through a parent, keeps its first error. *)
Definition run_event (w : World) (ev : event) : World :=
  match ev with
  | ContextDone l timeout =>
      on_env (λ e, set_ctx l (Some (default (ctx_errvar timeout) (ctx_err w l))) e) w
  | CloseStep => close_step w
  end.

Definition pop_schedule (e : Env) : Env :=
  mkEnv (conns e) (dials e) (tail (schedule e)) (selects e) (ctxDone e) (closer e) (closerConn e)
    (clock e + 1).

(** What happens before the client's next atomic step. *)
Definition interfere (w : World) : World :=
  foldl run_event (on_env pop_schedule w) (default [] (head (schedule (env w)))).

(** ** The monad of client code *)

Definition M (A : Type) : Type := World → outcome error A * World.
#[export] Instance M_ret : MRet M := λ A a w, (Ok a, w).
#[export] Instance M_bind : MBind M := λ A B f m w,
  match m w with
  | (Ok a, w) => f a w
  | (Err e, w) => (Err e, w)
  | (Panic, w) => (Panic, w)
  end.

Definition fail {A} (e : Error) : M A := λ w, (Err (EGos7 e), w).
Definition lift {A} (m : result A) : M A := λ w, (m, w).
(** [defer cleanup()] *)
Definition deferred {A} (cleanup : World → World) (m : M A) : M A := λ w,
  let '(r, w) := m w in (r, cleanup w).
(** One atomic step: interference, then [f]. *)
Definition atomically {A} (f : World → A * World) : M A := λ w,
  let '(a, w) := f (interfere w) in (Ok a, w).
Definition modify (f : Client → Client) : M unit := atomically (λ w, (tt, on_client f w)).
Definition get {A} (f : Client → A) : M A := atomically (λ w, (f (client w), w)).

Definition ctxErr (l : level) : M (option errvar) := atomically (λ w, (ctx_err w l, w)).
(** A fresh context derived from the level above. *)
Definition derive (l : level) : M unit := λ w, (Ok tt, on_env (set_ctx l None) w).

(** ** Connections *)

Definition ErrNetClosed : error := ENet false "use of closed network connection".

Definition get_conn (w : World) (id : nat) : option Conn := conns (env w) !! id.
Definition put_conn (id : nat) (c : Conn) (w : World) : World :=
  on_env (λ e, set_conns (<[id := c]> (conns e)) e) w.

(** [connection.Close()] *)
Definition closeConnection (id : nat) : M unit := atomically (λ w, (tt, close_id id w)).

(** [connection.SetDeadline(deadline)] *)
Definition setDeadline (id : nat) : M (option error) := atomically (λ w,
  match get_conn w id with
  | None => (Some ErrNetClosed, w)
  | Some c =>
      if c_closed c then (Some ErrNetClosed, w)
      else
        (default None (head (c_deadlines c)),
         put_conn id (mkConn false (c_rx c) (c_writes c) (tail (c_deadlines c)) (c_peer c)
                        (c_local c) (c_remote c) (c_wire c)) w)
  end).

(** [armConnection(ctx, connection)]: the watcher it starts only shortens
    the deadline, which shows as a [Fault] among the arrivals. *)
Definition armConnection (id : nat) : M (option error) := setDeadline id.

(** [isotcp.WriteFull(connection, frame)]: the count and the error. *)
Definition writeFull (id : nat) (frame : list Z) : M (Z * option error) := atomically (λ w,
  match get_conn w id with
  | None => ((WriteFull [(0, Some ErrNetClosed)] frame).2, w)
  | Some c =>
      if c_closed c then ((WriteFull [(0, Some ErrNetClosed)] frame).2, w)
      else
        let '(sent, r) := WriteFull (default [] (head (c_writes c))) frame in
        let '(peer, arrivals) := answer (c_peer c) sent in
        (r, put_conn id (mkConn false (c_rx c ++ arrivals) (tail (c_writes c)) (c_deadlines c)
                           peer (c_local c) (c_remote c) (c_wire c ++ (Sent <$> sent))) w)
  end).

(** [isotcp.ReadFrame(connection, maxFrameBytes)] *)
Definition readFrame (id : nat) (maxFrameBytes : Z) : M (result (list Z)) := atomically (λ w,
  match get_conn w id with
  | None => ((ReadFrame [Fault ErrNetClosed] maxFrameBytes).1, w)
  | Some c =>
      if c_closed c then ((ReadFrame [Fault ErrNetClosed] maxFrameBytes).1, w)
      else
        let '(r, rx) := ReadFrame (c_rx c) maxFrameBytes in
        (r, put_conn id (mkConn false rx (c_writes c) (c_deadlines c) (c_peer c)
                           (c_local c) (c_remote c) (c_wire c ++ received r)) w)
  end).

(** [dialer.DialContext]: the next answer of the environment; a dialled
    connection enters the table and gets the next name. *)
Definition pop_dial (e : Env) : Env :=
  mkEnv (conns e) (tail (dials e)) (schedule e) (selects e) (ctxDone e) (closer e) (closerConn e)
    (clock e).
Definition open_conn (c : Conn) : Conn :=
  mkConn false (c_rx c) (c_writes c) (c_deadlines c) (c_peer c) (c_local c) (c_remote c) [].
Definition dialContext : M (error + nat * bool * (option error * option error * option error)) :=
  atomically (λ w,
    match head (dials (env w)) with
    | None => (inl (ENet false "connection refused"), w)
    | Some (DialFails e) => (inl e, on_env pop_dial w)
    | Some (Dialled c tcp noDelay keepAlive period) =>
        (inr (length (conns (env w)), tcp, (noDelay, keepAlive, period)),
         on_env (λ e, set_conns (conns e ++ [open_conn c]) (pop_dial e)) w)
    end).

(** ** Errors *)

(** [errors.As(cause, &networkError)] and its [Timeout()]. *)
Fixpoint network_timeout (cause : error) : bool :=
  match cause with
  | ENet timeout _ => timeout
  | EVar ContextDeadlineExceeded => true
  | EWrap _ inner => network_timeout inner
  | EGos7 e => match Cause e with Some inner => network_timeout inner | None => false end
  | _ => false
  end.

(** [errors.Is(ctx.Err(), v)] *)
Definition ctx_is (e : option errvar) (v : errvar) : bool := bool_decide (e = Some v).

Definition temporaryError (operation : string) (kind : ErrorKind) (impact : SessionImpact)
    (cause : error) : Error := mkError operation kind 0 0 true impact (Some cause).

Definition classifyContextError (operation : string) (ctx : level) (impact : SessionImpact)
    (cause : error) : M Error :=
  closed ← get (λ c, bool_decide (state c = StateClosed));
  canceled ← get lifeCanceled;
  if closed || canceled then mret (newError operation ErrorClosed impact (Some cause))
  else
    e ← ctxErr ctx;
    if ctx_is e ContextDeadlineExceeded || errors_Is cause (EVar ContextDeadlineExceeded)
    then mret (temporaryError operation ErrorTimeout impact cause)
    else
      e ← ctxErr ctx;
      if ctx_is e ContextCanceled || errors_Is cause (EVar ContextCanceled)
      then mret (newError operation ErrorCanceled impact (Some cause))
      else if network_timeout cause
      then mret (temporaryError operation ErrorTimeout impact cause)
      else mret (temporaryError operation ErrorTransport impact cause).

Definition stateError (operation : string) (state : State) : Error :=
  if bool_decide (state = StateClosed) || bool_decide (state = StateClosing)
  then newError operation ErrorClosed SessionUnchanged None
  else newError operation ErrorNotConnected SessionUnchanged None.

Definition is_closing (s : State) : bool :=
  bool_decide (s = StateClosed) || bool_decide (s = StateClosing).

(** The critical section of [failConnect] and [breakSession]. *)
Definition leave_session (s : State) (kind : ErrorKind) (c : Client) : Client :=
  let c := set_limitsValid false (set_conn None c) in
  if negb (is_closing (state c)) then set_state s (set_failure (Some kind) c) else c.

Definition end_session (s : State) (kind : ErrorKind) : M unit :=
  connection ← atomically (λ w, (conn (client w), on_client (leave_session s kind) w));
  match connection with
  | Some id => closeConnection id
  | None => mret tt
  end.
Definition failConnect : ErrorKind → M unit := end_session StateDisconnected.
Definition breakSession : ErrorKind → M unit := end_session StateBroken.

(** [failConnect(kind); return failure], and the same after classifying. *)
Definition fail_connect {A} (kind : ErrorKind) (failure : Error) : M A :=
  _ ← failConnect kind; fail failure.
Definition fail_classified {A} (operation : string) (cause : error) : M A :=
  failure ← classifyContextError operation Operation SessionUnchanged cause;
  fail_connect (Kind failure) failure.

(** ** The gate *)

(** [acquire]: one of the ready cases of the [select], as the environment
    picks.  With no case ready the caller would wait: that is [Panic] here,
    and does not happen to the one operation in progress. *)
Definition ready_cases (w : World) : list acquire_case :=
  (if bool_decide (ctx_err w Caller = None) then [] else [CaseContext])
  ++ (if lifeCanceled (client w) then [CaseClosed] else [])
  ++ (if gate (client w) then [] else [CaseGate]).

Definition pop_select (e : Env) : Env :=
  mkEnv (conns e) (dials e) (schedule e) (tail (selects e)) (ctxDone e) (closer e) (closerConn e)
    (clock e).

Definition select_case (w : World) : option acquire_case :=
  let cases := ready_cases w in
  cases !! (default O (head (selects (env w))) mod (length cases))%nat.

Definition release_gate (w : World) : World := on_client (set_gate false) (interfere w).

Definition fail_released (e : Error) : M unit := λ w, fail e (release_gate w).

Definition acquire : M unit :=
  case ← atomically (λ w,
    let case := select_case w in
    (case, on_env pop_select
             (if bool_decide (case = Some CaseGate) then on_client (set_gate true) w else w)));
  match case with
  | None => lift Panic
  | Some CaseContext =>
      e ← ctxErr Caller;
      failure ← classifyContextError "session.queue" Caller SessionUnchanged
                  (EVar (default ContextCanceled e));
      fail failure
  | Some CaseClosed => fail (newError "session.queue" ErrorClosed SessionUnchanged None)
  | Some CaseGate =>
      canceled ← get lifeCanceled;
      if canceled : bool
      then fail_released (newError "session.queue" ErrorClosed SessionUnchanged None)
      else mret tt
  end.

(** ** Connect *)

(** The socket options set on a TCP connection. *)
Definition socket_option (id : nat) (answer : option error) (operation : string) : M unit :=
  match answer with
  | None => mret tt
  | Some e =>
      _ ← closeConnection id;
      fail_connect ErrorTransport (newError operation ErrorTransport SessionUnchanged (Some e))
  end.

(** From the dial to the connection being the client's. *)
Definition connect_dial : M nat :=
  dialled ← dialContext;
  match dialled with
  | inl err => fail_classified "connect.tcp" err
  | inr (id, tcp, (noDelay, keepAlive, period)) =>
      _ ← (if tcp : bool then
             _ ← socket_option id noDelay "connect.tcp_no_delay";
             keep ← get (λ c, KeepAlive (nConfig (config c)) >? 0);
             if keep : bool then
               _ ← socket_option id keepAlive "connect.keepalive";
               socket_option id period "connect.keepalive_period"
             else mret tt
           else mret tt);
      taken ← atomically (λ w,
        if is_closing (state (client w)) then (false, w)
        else (true, on_client (set_conn (Some id)) w));
      if taken : bool then
        armed ← armConnection id;
        match armed with
        | Some err =>
            fail_connect ErrorTransport
              (newError "connect.deadline" ErrorTransport SessionUnchanged (Some err))
        | None => mret id
        end
      else
        _ ← closeConnection id;
        fail (newError "connect" ErrorClosed SessionUnchanged None)
  end.

(** An error of code that only computes. *)
Definition or_fail_connect {A} (m : result A) (kind : ErrorKind) (failure : error → Error) : M A :=
  match m with
  | Ok a => mret a
  | Err e => fail_connect kind (failure e)
  | Panic => lift Panic
  end.

(** Write a request and read the frame that answers it. *)
Definition connect_exchange (id : nat) (frame : list Z) (writing reading : string) : M (list Z) :=
  '(_, err) ← writeFull id frame;
  match err with
  | Some err => fail_classified writing err
  | None =>
      cfg ← get config;
      answer ← readFrame id (MaxFrameBytes (nConfig cfg));
      match answer with
      | Ok frame => mret frame
      | Err err => fail_classified reading err
      | Panic => lift Panic
      end
  end.

(** The COTP exchange: the negotiated TPDU size. *)
Definition connect_cotp (id : nat) : M Z :=
  cfg ← get config;
  offeredTPDU ← or_fail_connect (TPDUSizeForS7PDU (RequestedPDU (nConfig cfg))) ErrorProtocol
                  (invariantError "connect.cotp_limits");
  connectionRequest ← or_fail_connect
    (BuildConnectionRequest (nLocalTSAP cfg) (nRemoteTSAP cfg) offeredTPDU) ErrorProtocol
    (invariantError "connect.cotp_encode");
  connectionConfirm ← connect_exchange id connectionRequest "connect.cotp_write" "connect.cotp_read";
  confirmResult ← or_fail_connect
    (ParseConnectionConfirm connectionConfirm (nLocalTSAP cfg) (nRemoteTSAP cfg) offeredTPDU)
    ErrorProtocol (protocolError "connect.cotp_confirm");
  if TPDUSize confirmResult - DataTPDUHeaderSize <? minRequestedPDU
  then fail_connect ErrorProtocol (protocolError "connect.cotp_limits"
         (EText "negotiated TPDU cannot carry the minimum S7 PDU"))
  else mret (TPDUSize confirmResult).

Definition setupReference : Z := 1.

(** [smallerInt(int(client.config.RequestedPDU), tpduPayloadLimit)] *)
Definition session_pdu (cfg : normalizedConfig) (tpdu : Z) : Z :=
  let limit := tpdu - DataTPDUHeaderSize in
  if RequestedPDU (nConfig cfg) <? limit then RequestedPDU (nConfig cfg) else limit.

(** The Setup Communication exchange. *)
Definition connect_setup (id : nat) (tpdu : Z) : M SetupResult :=
  cfg ← get config;
  let sessionRequestedPDU := session_pdu cfg tpdu in
  setup ← or_fail_connect
    (BuildSetupRequest setupReference maxAmQCaller maxAmQCallee (u16 sessionRequestedPDU))
    ErrorProtocol (invariantError "connect.setup_encode");
  setupFrame ← or_fail_connect (WrapData setup) ErrorProtocol
                 (invariantError "connect.setup_frame");
  if zlen setupFrame - TPKTHeaderSize >? tpdu
  then fail_connect ErrorProtocol (invariantError "connect.setup_frame"
         (EText "setup request exceeds negotiated TPDU"))
  else
    responseFrame ← connect_exchange id setupFrame "connect.setup_write" "connect.setup_read";
    if zlen responseFrame - TPKTHeaderSize >? tpdu
    then fail_connect ErrorProtocol (protocolError "connect.setup_frame"
           (EText "setup response exceeds negotiated TPDU"))
    else
      responsePayload ← or_fail_connect (UnwrapData responseFrame) ErrorProtocol
                          (protocolError "connect.setup_cotp");
      if zlen responsePayload >? sessionRequestedPDU
      then fail_connect ErrorProtocol (protocolError "connect.setup_frame"
             (EText "setup response exceeds requested S7 PDU"))
      else
        setupResult ← or_fail_connect (ParseSetupResponse responsePayload setupReference)
                        ErrorProtocol (protocolError "connect.setup_decode");
        if negb (GlobalCode setupResult =? 0)
        then fail_connect ErrorPLC (plcError "connect.setup" (GlobalCode setupResult))
        else mret setupResult.

(** The limits check of the setup response. *)
Definition bad_limits (cfg : normalizedConfig) (tpdu : Z) (r : SetupResult) : bool :=
  (MaxAmQCaller r =? 0) || (MaxAmQCallee r =? 0) || (PDU r =? 0)
  || (PDU r <? minRequestedPDU)
  || (MaxAmQCaller r >? maxAmQCaller) || (MaxAmQCallee r >? maxAmQCallee)
  || (PDU r >? session_pdu cfg tpdu)
  || (PDU r + DataTPDUHeaderSize >? tpdu)
  || (PDU r + DataHeaderSize >? MaxFrameBytes (nConfig cfg)).

(** The client a successful handshake leaves behind. *)
Definition enter_ready (cfg : normalizedConfig) (tpdu : Z) (r : SetupResult)
    (localAddr remoteAddr : list Z) (now : Z) (c : Client) : Client :=
  mkClient (config c) StateReady (conn c) setupReference (u64 (sessionGeneration c + 1))
    (mkLimits (u16 (session_pdu cfg tpdu)) (PDU r) (u16 tpdu) (MaxAmQCaller r) (MaxAmQCallee r))
    true localAddr remoteAddr now None (lifeCanceled c) (gate c).

Definition connect_finish (id : nat) (tpdu : Z) (r : SetupResult) : M unit :=
  err ← ctxErr Operation;
  match err with
  | Some err => fail_classified "connect" (EVar err)
  | None =>
      cfg ← get config;
      if bad_limits cfg tpdu r
      then fail_connect ErrorProtocol (protocolError "connect.setup_limits"
             (EText "invalid negotiated limits"))
      else
        '(localAddr, remoteAddr, now) ← atomically (λ w,
          ((default [] (c_local <$> get_conn w id), default [] (c_remote <$> get_conn w id),
            clock (env w)), w));
        entered ← atomically (λ w,
          if is_closing (state (client w)) then (false, w)
          else (true, on_client (enter_ready cfg tpdu r localAddr remoteAddr now) w));
        if entered : bool then mret tt
        else
          _ ← closeConnection id;
          fail (newError "connect" ErrorClosed SessionUnchanged None)
  end.

Definition Connect : M unit :=
  _ ← acquire;
  deferred release_gate (
    state ← get state;
    if is_closing state then fail (newError "connect" ErrorClosed SessionUnchanged None)
    else if bool_decide (state = StateReady) then mret tt
    else
      _ ← derive Operation;
      err ← ctxErr Operation;
      match err with
      | Some err =>
          failure ← classifyContextError "connect" Operation SessionUnchanged (EVar err);
          fail failure
      | None =>
          started ← atomically (λ w,
            if is_closing (Session.state (client w)) then (false, w)
            else (true, on_client (set_state StateConnecting) w));
          if started : bool then
            id ← connect_dial;
            tpdu ← connect_cotp id;
            r ← connect_setup id tpdu;
            connect_finish id tpdu r
          else fail (newError "connect" ErrorClosed SessionUnchanged None)
      end).

(** ** Close *)

(** [Close()]: the first call runs the steps, a later one waits for them. *)
Definition Close : M unit := λ w, (Ok tt, close_step (close_step (close_step (close_step w)))).

(** [Dial]: [New], then [Connect] in the environment [e]; a client that
    cannot connect is closed and not returned, its world is the second
    component. *)
Definition Dial (input : Config) (e : Env) : result World * option World :=
  match New input with
  | Panic => (Panic, None)
  | Err err => (Err err, None)
  | Ok c =>
      match Connect (mkWorld c e) with
      | (Ok _, w) => (Ok w, Some w)
      | (Err err, w) => (Err err, Some (Close w).2)
      | (Panic, w) => (Panic, Some w)
      end
  end.

(** ** Queries: local snapshots, no I/O *)

(** [State()] of a client that is not nil. *)
Definition StateOf (w : World) : State := state (client w).

Definition Limits (w : World) : SessionLimits * bool :=
  let c := client w in
  if negb (bool_decide (state c = StateReady)) || negb (limitsValid c) then (no_limits, false)
  else (limits c, true).

Record Diagnostics := mkDiagnostics {
  DState : State;
  DSessionGeneration : Z;
  DLimits : SessionLimits;
  DLimitsValid : bool;
  DLocalAddress : list Z;
  DRemoteAddress : list Z;
  DLastActivity : Z;
  DLastSessionFailureKind : option ErrorKind;
}.
Definition DiagnosticsOf (w : World) : Diagnostics :=
  let c := client w in
  mkDiagnostics (state c) (sessionGeneration c) (limits c)
    (bool_decide (state c = StateReady) && limitsValid c) (localAddress c) (remoteAddress c)
    (lastActivity c) (lastSessionFailureKind c).

(** ** Exchange *)

Definition readyPDU (operation : string) : M Z :=
  r ← get (λ c,
    if negb (bool_decide (state c = StateReady)) || bool_decide (conn c = None)
       || negb (limitsValid c)
    then inl (stateError operation (state c)) else inr (NegotiatedPDU (limits c)));
  match r with
  | inl e => fail e
  | inr pdu => mret pdu
  end.

Definition nextReference : M Z := atomically (λ w,
  let r := u16 (reference (client w) + 1) in
  let r := if r =? 0 then 1 else r in
  (r, on_client (set_reference r) w)).

(** What an exchange returns: were bytes sent, and the payload or error. *)
Definition exchanged : Type := bool * result (list Z).
Definition broken (sent : bool) (kind : ErrorKind) (failure : Error) : M exchanged :=
  _ ← breakSession kind; mret (sent, fails failure).

Definition exchange_level (cfg : normalizedConfig) : level :=
  if ExchangeTimeout (nConfig cfg) >? 0 then Exchange else Operation.

(** After the request is written: read, unwrap and check the response. *)
Definition exchange_response (id : nat) (cfg : normalizedConfig) (lim : SessionLimits)
    (operation : string) : M exchanged :=
  answer ← readFrame id (MaxFrameBytes (nConfig cfg));
  match answer with
  | Panic => lift Panic
  | Err err =>
      failure ← classifyContextError (operation +:+ ".read") (exchange_level cfg) SessionBroken err;
      broken true (Kind failure) failure
  | Ok responseFrame =>
      if zlen responseFrame - TPKTHeaderSize >? NegotiatedTPDU lim
      then broken true ErrorProtocol (protocolError (operation +:+ ".frame")
             (EText "response exceeds negotiated TPDU"))
      else
        match UnwrapData responseFrame with
        | Panic => lift Panic
        | Err err => broken true ErrorProtocol (protocolError (operation +:+ ".cotp") err)
        | Ok payload =>
            if zlen payload >? NegotiatedPDU lim
            then broken true ErrorProtocol (protocolError (operation +:+ ".pdu")
                   (EText "response exceeds negotiated S7 PDU"))
            else
              _ ← atomically (λ w, (tt, on_client (set_lastActivity (clock (env w))) w));
              mret (true, Ok payload)
        end
  end.

Definition exchange (operation : string) (request : list Z) : M exchanged :=
  err ← ctxErr Operation;
  match err with
  | Some err =>
      failure ← classifyContextError operation Operation SessionUnchanged (EVar err);
      mret (false, fails failure)
  | None =>
      _ ← derive Exchange;
      '(cfg, connection, st, lim, valid) ← get (λ c,
        (config c, conn c, state c, limits c, limitsValid c));
      match connection with
      | Some id =>
          if negb (bool_decide (st = StateReady)) || negb valid
          then mret (false, fails (stateError operation st))
          else if zlen request >? NegotiatedPDU lim
          then mret (false, fails (invariantError (operation +:+ ".pdu")
                 (EText "request exceeds negotiated S7 PDU")))
          else
            match WrapData request with
            | Panic => lift Panic
            | Err err => mret (false, fails (invariantError (operation +:+ ".frame") err))
            | Ok frame =>
                if zlen frame - TPKTHeaderSize >? NegotiatedTPDU lim
                then mret (false, fails (invariantError (operation +:+ ".frame")
                       (EText "request exceeds negotiated TPDU")))
                else
                  armed ← armConnection id;
                  match armed with
                  | Some err =>
                      broken false ErrorTransport
                        (newError (operation +:+ ".deadline") ErrorTransport SessionBroken (Some err))
                  | None =>
                      '(written, err) ← writeFull id frame;
                      match err with
                      | Some err =>
                          failure ← classifyContextError (operation +:+ ".write")
                                      (exchange_level cfg) SessionBroken err;
                          broken (written >? 0) (Kind failure) failure
                      | None => exchange_response id cfg lim operation
                      end
                  end
            end
      | None => mret (false, fails (stateError operation st))
      end
  end.
End world.
