(* ===== verification/SessionProofs.v ===== *)
(** * SessionProofs: the lifecycle invariant of a session

    What holds of a [World] between any two atomic steps, under every
    interference of context expirations and a concurrent [Close], and what
    Connect, Close and an exchange establish: on the client, and on the wire
    log, where an exchange appends its transfers and a handshake is found with
    the limits it negotiated. At the end, the [attempt]s of an operation and
    the log after them. *)

From S2P Require Import Errors Protocol IsoTCP Config Session.

Section proofs.
Context {P : Type} `{Peer P}.
Local Abbreviation World := (@World P).
Local Abbreviation M := (@M P).
Local Abbreviation close_conn := (@close_conn P).
Implicit Type w : World.

(** ** The invariant *)

Definition open_at (w : World) (id : nat) : Prop :=
  ∃ c, get_conn w id = Some c ∧ c_closed c = false.

(** What every connection has carried so far. *)
Definition wire_log (w : World) : list (list transfer) := c_wire <$> conns (env w).

(** The limits of a live session are consistent with the configuration. *)
Record limits_ok (cfg : normalizedConfig) (l : SessionLimits) : Prop := {
  lo_pdu : 240 ≤ NegotiatedPDU l ≤ LRequestedPDU l;
  lo_requested : LRequestedPDU l ≤ RequestedPDU (nConfig cfg) ≤ 960;
  lo_tpdu : NegotiatedPDU l + DataTPDUHeaderSize ≤ NegotiatedTPDU l ≤ MaxTPDUSize;
  lo_frame : NegotiatedPDU l + DataHeaderSize ≤ MaxFrameBytes (nConfig cfg) ≤ maxTPKTLength;
  lo_caller : NegotiatedMaxAmQCaller l = 1;
  lo_callee : NegotiatedMaxAmQCallee l = 1;
}.

(** A configuration as [normalizeConfig] returns it. *)
Record config_ok (cfg : normalizedConfig) : Prop := {
  co_settings : settings_ok (nConfig cfg);
  co_local : is_u16 (nLocalTSAP cfg);
  co_remote : is_u16 (nRemoteTSAP cfg);
}.

(** How far [Close] has come decides the state from its first step on. *)
Definition phase_ok (n : nat) (c : Client) : Prop :=
  match n with
  | 0%nat => is_closing (state c) = false ∧ lifeCanceled c = false
  | 1%nat => state c = StateClosing ∧ lifeCanceled c = false
  | 2%nat | 3%nat => state c = StateClosing ∧ lifeCanceled c = true
  | _ => state c = StateClosed ∧ lifeCanceled c = true
  end.

(** The connections the environment offers carry bytes. *)
Definition dial_typed (d : @dial P) : Prop :=
  match d with DialFails _ => True | Dialled c _ _ _ _ => Forall arrival_bytes (c_rx c) end.

(** [own] is the connection the operation in progress holds outside of
    [client.conn]: every open connection has an owner who will close it. *)
Record inv (own : option nat) (w : World) : Prop := {
  i_config : config_ok (config (client w));
  i_phase : phase_ok (closer (env w)) (client w);
  i_closed : closer (env w) ≠ O → conn (client w) = None;
  i_closer : closer (env w) ≠ 1%nat → closer (env w) ≠ 2%nat → closerConn (env w) = None;
  i_ready : state (client w) = StateReady →
    conn (client w) ≠ None ∧ limitsValid (client w) = true ∧
    limits_ok (config (client w)) (limits (client w));
  i_valid : limitsValid (client w) = true → state (client w) = StateReady;
  i_conn : ∀ id, conn (client w) = Some id →
    open_at w id ∧ (state (client w) = StateReady ∨ state (client w) = StateConnecting);
  i_owned : ∀ id, open_at w id →
    conn (client w) = Some id ∨ closerConn (env w) = Some id ∨ own = Some id;
  i_reference : is_u16 (reference (client w));
  i_known : ∀ id, closerConn (env w) = Some id → (id < length (conns (env w)))%nat;
  i_rx : Forall (λ c, Forall arrival_bytes (c_rx c)) (conns (env w));
  i_dials : Forall dial_typed (dials (env w));
}.

(** Between operations: nothing is being connected and the gate is free. *)
Definition idle (w : World) : Prop :=
  inv None w ∧ state (client w) ≠ StateConnecting ∧ gate (client w) = false.

(** ** Interference preserves it *)

Lemma get_conn_close w id id' :
  get_conn (close_id id w) id' =
    if decide (id' = id) then close_conn <$> get_conn w id' else get_conn w id'.
Proof.
  unfold get_conn, close_id, on_env, set_conns. cbn. case_decide; subst.
  - by rewrite list_lookup_alter_eq.
  - by rewrite list_lookup_alter_ne.
Qed.

Lemma open_close w id id' : open_at (close_id id w) id' ↔ open_at w id' ∧ id' ≠ id.
Proof.
  unfold open_at. setoid_rewrite get_conn_close. case_decide; subst.
  - split; [|naive_solver]. intros (c & Hc & Hcl). exfalso.
    destruct (get_conn w id); cbn in Hc; [|done]. by injection Hc as <-.
  - naive_solver.
Qed.

Lemma wire_log_close w id : wire_log (close_id id w) = wire_log w.
Proof.
  unfold wire_log, close_id, on_env, set_conns. cbn.
  apply list_eq. intros i. rewrite !list_lookup_fmap. destruct (decide (i = id)) as [->|].
  - rewrite list_lookup_alter_eq. by destruct (conns (env w) !! id).
  - by rewrite list_lookup_alter_ne.
Qed.

Lemma rx_close cs id : Forall (λ c : @Conn P, Forall arrival_bytes (c_rx c)) cs →
  Forall (λ c, Forall arrival_bytes (c_rx c)) (alter close_conn id cs).
Proof.
  intros Hf. apply Forall_lookup. intros i c Hc. rewrite Forall_lookup in Hf.
  destruct (decide (i = id)) as [->|].
  - rewrite list_lookup_alter_eq in Hc. destruct (cs !! id) as [c0|] eqn:Hc0; [|done].
    injection Hc as <-. exact (Hf id c0 Hc0).
  - rewrite list_lookup_alter_ne in Hc by done. exact (Hf i c Hc).
Qed.

Lemma inv_close own w id : inv own w → conn (client w) ≠ Some id →
  inv (if decide (own = Some id) then None else own) (close_id id w).
Proof.
  intros [] Hc. constructor; try done; cbn [client env close_id on_env closer closerConn set_conns].
  - intros id' Hid'. destruct (i_conn0 id' Hid') as [Ho ?]. split; [|done].
    apply open_close. split; [done|]. congruence.
  - intros id' [Ho Hne]%open_close. destruct (i_owned0 id' Ho) as [?|[?|?]]; [by left|by right; left|].
    right. right. rewrite decide_False by congruence. done.
  - cbn. rewrite length_alter. apply i_known0.
  - by apply rx_close.
Qed.

(** What interference leaves alone. *)
Record later (w w' : World) : Prop := {
  la_closer : (closer (env w) ≤ closer (env w'))%nat;
  la_wire : wire_log w' = wire_log w;
  la_quiet : closer (env w') = O → client w' = client w ∧ conns (env w') = conns (env w);
  la_config : config (client w') = config (client w);
  la_gate : gate (client w') = gate (client w);
  la_reference : reference (client w') = reference (client w);
  la_limits : limits (client w') = limits (client w);
  la_dials : dials (env w') = dials (env w);
  la_selects : selects (env w') = selects (env w);
  la_closed : ∀ id c, get_conn w id = Some c →
    ∃ c', get_conn w' id = Some c' ∧ (c_closed c = true → c_closed c' = true);
}.

Lemma later_refl w : later w w.
Proof. by constructor; eauto. Qed.
Lemma later_trans w1 w2 w3 : later w1 w2 → later w2 w3 → later w1 w3.
Proof.
  intros [] []. constructor; try congruence.
  - lia.
  - intros Hz. specialize (la_quiet1 Hz). specialize (la_quiet0 ltac:(lia)).
    naive_solver congruence.
  - intros id c Hc. destruct (la_closed0 id c Hc) as (c1 & Hc1 & ?).
    destruct (la_closed1 id c1 Hc1) as (c2 & ? & ?). eauto.
Qed.

Lemma close_step_later w : later w (close_step w).
Proof.
  unfold close_step. destruct (closer (env w)) as [|[|[|[|n]]]] eqn:Hn.
  - constructor; cbn; try done; eauto. lia.
  - constructor; cbn; try done; eauto. lia.
  - destruct (closerConn (env w)) as [id|].
    + constructor; cbn; try done; [lia|apply wire_log_close|].
      intros id' c Hc. exists (if decide (id' = id) then close_conn c else c).
      change (get_conn (close_id id w) id' = Some (if decide (id' = id) then close_conn c else c) ∧
        (c_closed c = true → c_closed (if decide (id' = id) then close_conn c else c) = true)).
      rewrite get_conn_close. case_decide; [|done]. by rewrite Hc.
    + constructor; cbn; try done; eauto. lia.
  - constructor; cbn; try done; eauto. lia.
  - apply later_refl.
Qed.

Lemma run_event_later w ev : later w (run_event w ev).
Proof. destruct ev; [constructor; cbn; eauto|apply close_step_later]. Qed.

Lemma interfere_later w : later w (interfere w).
Proof.
  unfold interfere. apply later_trans with (on_env pop_schedule w); [by constructor; cbn; eauto|].
  generalize (on_env pop_schedule w) (default [] (head (schedule (env w)))).
  intros w0 evs. revert w0. induction evs as [|ev evs IH]; intros w0; cbn [foldl];
    [apply later_refl|]. eapply later_trans; [apply run_event_later|apply IH].
Qed.

Lemma inv_close_step own w : inv own w → inv own (close_step w).
Proof.
  intros Hi. pose proof Hi as []. unfold close_step.
  destruct (closer (env w)) as [|[|[|[|n]]]] eqn:Hn; cbn in i_phase0.
  - constructor; cbn; try done; [naive_solver| |].
    + intros id Ho. destruct (i_owned0 id Ho) as [?|[Hc|?]]; [by right; left| |by right; right].
      by rewrite i_closer0 in Hc by lia.
    + intros id Hc. destruct (i_conn0 id Hc) as [(cn & Hcn & _) _]. by eapply lookup_lt_Some.
  - constructor; cbn; try done; naive_solver.
  - assert (conn (client w) = None) as Hcn by (apply i_closed0; lia).
    destruct (closerConn (env w)) as [id|] eqn:Hcl.
    + constructor; cbn; try done; [naive_solver| |by apply rx_close].
      intros id' [Ho Hne]%(open_close w id id'). destruct (i_owned0 id' Ho) as [?|[?|?]]; naive_solver.
    + constructor; cbn; try done; naive_solver.
  - assert (conn (client w) = None) as Hcn by (apply i_closed0; lia).
    assert (closerConn (env w) = None) as Hcc by (apply i_closer0; lia).
    destruct i_phase0 as [Hst Hlife].
    constructor; cbn; try done.
    + intros Hv. specialize (i_valid0 Hv). congruence.
    + intros id. by rewrite Hcn.
    + intros id Ho. destruct (i_owned0 id Ho) as [?|[?|?]]; [by left|congruence|by right; right].
  - done.
Qed.

Lemma inv_interfere own w : inv own w → inv own (interfere w).
Proof.
  intros Hi. unfold interfere. assert (inv own (on_env pop_schedule w)) as H0 by by destruct Hi.
  revert H0. generalize (on_env pop_schedule w) (default [] (head (schedule (env w)))).
  intros w0 evs. revert w0. induction evs as [|ev evs IH]; intros w0 H0; cbn [foldl]; [done|].
  apply IH. destruct ev; [by destruct H0|by apply inv_close_step].
Qed.

Lemma later_interfere_inv own w : inv own w → inv own (interfere w) ∧ later w (interfere w).
Proof. split; [by apply inv_interfere|apply interfere_later]. Qed.

(** ** Triples

    [triple Pre m Post Err]: from a world in [Pre], [m] returns a value in
    [Post] or an error in [Err]; it never panics. *)

Definition triple {A} (Pre : World → Prop) (m : M A) (Post : A → World → Prop)
    (Error : error → World → Prop) : Prop :=
  ∀ w, Pre w → match m w with
               | (Ok a, w') => Post a w'
               | (Err e, w') => Error e w'
               | (Panic, _) => False
               end.

Lemma triple_bind {A B} Pre (m : M A) Mid (f : A → M B) Post Er :
  triple Pre m Mid Er → (∀ a, triple (Mid a) (f a) Post Er) → triple Pre (m ≫= f) Post Er.
Proof.
  intros Hm Hf w Hw. specialize (Hm w Hw). unfold mbind, M_bind.
  destruct (m w) as [[a|e|] w']; [|done|done]. by apply (Hf a).
Qed.

Lemma triple_ret {A} (a : A) (Pre : World → Prop) Post Er :
  (∀ w, Pre w → Post a w) → triple Pre (mret a) Post Er.
Proof. intros Hp w Hw. by apply Hp. Qed.

Lemma triple_fail {A} e (Pre : World → Prop) (Post : A → World → Prop) (Er : error → World → Prop) :
  (∀ w, Pre w → Er (EGos7 e) w) → triple Pre (fail e) Post Er.
Proof. intros Hp w Hw. by apply Hp. Qed.

Lemma triple_conseq {A} (Pre Pre' : World → Prop) (m : M A) (Post Post' : A → World → Prop) Er Er' :
  triple Pre' m Post' Er' → (∀ w, Pre w → Pre' w) → (∀ a w, Post' a w → Post a w) →
  (∀ e w, Er' e w → Er e w) → triple Pre m Post Er.
Proof.
  intros Hm Hp Hq He w Hw. specialize (Hm w (Hp w Hw)).
  destruct (m w) as [[a|e|] w']; auto.
Qed.

Lemma triple_pre {A} (Pre Pre' : World → Prop) (m : M A) Post Er :
  triple Pre' m Post Er → (∀ w, Pre w → Pre' w) → triple Pre m Post Er.
Proof. intros Hm Hp w Hw. by apply Hm, Hp. Qed.

Lemma triple_pure {A} (φ : Prop) (Pre : World → Prop) (m : M A) Post Er :
  (φ → triple Pre m Post Er) → triple (λ w, φ ∧ Pre w) m Post Er.
Proof. intros Hm w [Hφ Hw]. by apply Hm. Qed.

Lemma triple_world {A} (Pre : World → Prop) (m : M A) Post Er :
  (∀ w, Pre w → triple (eq w) m Post Er) → triple Pre m Post Er.
Proof. intros Hm w Hw. by apply (Hm w Hw w). Qed.

(** An assertion that interference cannot falsify. *)
Class Stable (Pre : World → Prop) : Prop := stable w : Pre w → Pre (interfere w).

Lemma triple_atomically {A} (Pre : World → Prop) (f : World → A * World) Post Er :
  Stable Pre → (∀ w, Pre w → Post (f w).1 (f w).2) → triple Pre (atomically f) Post Er.
Proof.
  intros Hs Hf w Hw. unfold atomically. specialize (Hf _ (stable w Hw)).
  by destruct (f (interfere w)).
Qed.

#[export] Instance inv_stable own : Stable (inv own).
Proof. intros w. apply inv_interfere. Qed.
#[export] Instance and_stable Pre Pre' : Stable Pre → Stable Pre' → Stable (λ w, Pre w ∧ Pre' w).
Proof. intros Hs Hs' w []. split; by apply stable. Qed.
#[export] Instance pure_stable (φ : Prop) : Stable (λ _, φ).
Proof. by intros w ?. Qed.
#[export] Instance wire_stable L : Stable (λ w, wire_log w = L).
Proof. intros w <-. apply interfere_later. Qed.
#[export] Instance config_stable cfg : Stable (λ w, config (client w) = cfg).
Proof. intros w <-. apply interfere_later. Qed.
#[export] Instance gate_stable b : Stable (λ w, gate (client w) = b).
Proof. intros w <-. apply interfere_later. Qed.
#[export] Instance closing_stable : Stable (λ w, closer (env w) ≠ O).
Proof. intros w Hw. pose proof (la_closer _ _ (interfere_later w)). lia. Qed.
(** What holds of the client while no [Close] has begun. *)
#[export] Instance unless_closing_stable (φ : Client → Prop) :
  Stable (λ w, closer (env w) = O → φ (client w)).
Proof.
  intros w Hw Hz. pose proof (interfere_later w) as [Hc _ Hq _ _ _ _ _ _ _].
  destruct (Hq Hz) as [-> _]. apply Hw. lia.
Qed.
(** Interference can only take a non-connecting state to a closing one. *)
Lemma state_interfere own w : inv own w → state (client (interfere w)) = state (client w) ∨
  closer (env (interfere w)) ≠ O.
Proof.
  intros Hi. destruct (decide (closer (env (interfere w)) = O)) as [Hz|]; [|by right].
  left. destruct (la_quiet _ _ (interfere_later w) Hz) as [-> _]. done.
Qed.
Lemma closing_state own w : inv own w → closer (env w) ≠ O → is_closing (state (client w)) = true.
Proof.
  intros [_ Hp _ _ _ _ _ _ _ _ _ _] Hn. destruct (closer (env w)) as [|[|[|[|n]]]]; [done|..]; cbn in Hp;
    by destruct Hp as [-> _].
Qed.
Lemma open_state own w : inv own w → closer (env w) = O → is_closing (state (client w)) = false.
Proof. intros [_ Hp _ _ _ _ _ _ _ _ _ _] Hn. rewrite Hn in Hp. apply Hp. Qed.
Lemma is_closing_closer own w : inv own w → is_closing (state (client w)) = false → closer (env w) = O.
Proof.
  intros Hi Hs. destruct (decide (closer (env w) = O)); [done|].
  by rewrite (closing_state own w) in Hs.
Qed.

(** Between operations, except for the gate. *)
Definition settled (w : World) : Prop := inv None w ∧ state (client w) ≠ StateConnecting.

#[export] Instance settled_stable : Stable settled.
Proof.
  intros w [Hi Hs]. pose proof (inv_interfere _ _ Hi) as Hi'. split; [done|].
  destruct (state_interfere _ _ Hi) as [->|Hn]; [done|].
  pose proof (closing_state _ _ Hi' Hn) as Hcl. intros Hc. by rewrite Hc in Hcl.
Qed.
#[export] Instance idle_stable : Stable idle.
Proof.
  intros w (Hi & Hs & Hg). destruct (settled_stable w (conj Hi Hs)) as [? ?].
  split; [done|]. split; [done|]. by rewrite (la_gate _ _ (interfere_later w)).
Qed.

(** ** Leaving a session *)

Lemma leave_session_eq s kind c : leave_session s kind c =
  if is_closing (state c) then set_limitsValid false (set_conn None c)
  else set_state s (set_failure (Some kind) (set_limitsValid false (set_conn None c))).
Proof. unfold leave_session. cbn. by destruct (is_closing (state c)). Qed.

Lemma inv_leave own s kind w (id := conn (client w)) :
  inv own w → s = StateDisconnected ∨ s = StateBroken → own = None ∨ id = None →
  inv (match id with Some _ => id | None => own end) (on_client (leave_session s kind) w) ∧
  state (client (on_client (leave_session s kind) w)) ≠ StateConnecting ∧
  state (client (on_client (leave_session s kind) w)) ≠ StateReady ∧
  conn (client (on_client (leave_session s kind) w)) = None.
Proof.
  intros Hi Hs Ho. pose proof Hi as [Hcfg Hph Hcl Hcc Hrd Hv Hc Hown Href Hkn Hrx Hdl].
  assert (∀ id', open_at w id' → closerConn (env w) = Some id' ∨
    match id with Some _ => id | None => own end = Some id') as Hown'.
  { intros id' Hopen. destruct (Hown id' Hopen) as [Hid|[?|Hid]]; [right|by left|right].
    - fold id in Hid. by rewrite Hid.
    - destruct Ho as [Ho|Ho]; [congruence|]. by rewrite Ho. }
  unfold on_client. cbn [client]. rewrite leave_session_eq.
  destruct (is_closing (state (client w))) eqn:Hclosing.
  - cbn [on_client client state set_limitsValid set_conn]. split.
    + constructor; cbn; try done.
      * intros Hr. by rewrite Hr in Hclosing.
      * intros id' Hopen. destruct (Hown' id' Hopen); auto.
    + split_and!; [by intros E; rewrite E in Hclosing..|done].
  - assert (closer (env w) = O) as Hz by by eapply is_closing_closer.
    assert (is_closing s = false ∧ s ≠ StateReady ∧ s ≠ StateConnecting) as (Hsc & Hsr & Hsn)
      by by destruct Hs as [-> | ->].
    cbn [on_client client state set_limitsValid set_conn set_state set_failure]. split; [|done].
    rewrite Hz in Hph. constructor; cbn; try done.
    + rewrite Hz. split; [done|apply Hph].
    + intros id' Hopen. destruct (Hown' id' Hopen); auto.
Qed.

(** Leaving the session closes its connection, whatever else happens. *)
Lemma end_session_triple s kind L Er :
  s = StateDisconnected ∨ s = StateBroken →
  triple (λ w, inv None w ∧ wire_log w = L) (end_session s kind)
    (λ _ w, (settled w ∧ state (client w) ≠ StateReady) ∧ wire_log w = L) Er.
Proof.
  intros Hs. unfold end_session.
  apply (triple_bind _ _ (λ connection w, (inv connection w ∧
    (state (client w) ≠ StateConnecting ∧ state (client w) ≠ StateReady ∧ conn (client w) = None))
    ∧ wire_log w = L)).
  - apply triple_atomically; [apply _|]. intros w [Hi HL]. cbn [fst snd].
    destruct (inv_leave None s kind w Hi Hs ltac:(by left)) as (H1 & H2 & H3 & H4).
    split; [|done]. split; [by destruct (conn (client w))|done].
  - intros [id|].
    + intros w [[Hi (Hsc & Hsr & Hcn)] HL]. unfold closeConnection, atomically. cbn -[close_id interfere wire_log].
      pose proof (inv_interfere _ _ Hi) as Hi'. pose proof (interfere_later w) as Hla.
      assert (conn (client (interfere w)) = None ∧ state (client (interfere w)) ≠ StateConnecting ∧
        state (client (interfere w)) ≠ StateReady) as (Hcn' & Hsc' & Hsr').
      { destruct (decide (closer (env (interfere w)) = O)) as [Hz|Hz].
        - by destruct (la_quiet _ _ Hla Hz) as [-> _].
        - split; [by apply (i_closed _ _ Hi')|]. pose proof (closing_state _ _ Hi' Hz) as Hc.
          split; intros E; by rewrite E in Hc. }
      pose proof (inv_close _ _ id Hi' ltac:(by rewrite Hcn')) as Hi''.
      rewrite decide_True in Hi'' by done.
      split; [split; [split|]; done|]. by rewrite wire_log_close, (la_wire _ _ Hla).
    + apply triple_ret. intros w [[Hi (Hsc & Hsr & Hcn)] HL]. done.
Qed.

(** ** Looking without touching *)

Lemma get_triple {A} (I : World → Prop) (f : Client → A) Er : Stable I →
  triple I (get f) (λ a w, I w ∧ a = f (client w)) Er.
Proof. intros Hs. apply triple_atomically; [done|]. done. Qed.

Lemma ctxErr_triple (I : World → Prop) l Er : Stable I → triple I (ctxErr l) (λ _ w, I w) Er.
Proof. intros Hs. apply triple_atomically; [done|]. done. Qed.

(** What every classified failure says. *)
Definition classified (operation : string) (impact : SessionImpact) (cause : error) (e : Error) : Prop :=
  Op e = operation ∧ Impact e = impact ∧ Cause e = Some cause ∧
  Kind e ∈ [ErrorClosed; ErrorTimeout; ErrorCanceled; ErrorTransport] ∧
  (Temporary e = true ↔ Kind e = ErrorTimeout ∨ Kind e = ErrorTransport).

Lemma classified_new operation impact cause kind : kind = ErrorClosed ∨ kind = ErrorCanceled →
  classified operation impact cause (newError operation kind impact (Some cause)).
Proof.
  intros Hk. unfold classified. cbn. rewrite !elem_of_cons. split_and!; [done..|naive_solver|].
  split; [done|]. destruct Hk as [-> | ->]; intros [|]; done.
Qed.
Lemma classified_temporary operation impact cause kind : kind = ErrorTimeout ∨ kind = ErrorTransport →
  classified operation impact cause (temporaryError operation kind impact cause).
Proof.
  intros Hk. unfold classified. cbn. rewrite !elem_of_cons. split_and!; [done..|naive_solver|].
  by split.
Qed.

Lemma classify_triple (I : World → Prop) operation l impact cause Er : Stable I →
  triple I (classifyContextError operation l impact cause)
    (λ e w, I w ∧ classified operation impact cause e) Er.
Proof.
  intros Hs. unfold classifyContextError.
  eapply triple_bind; [by apply get_triple|]. intros closed. cbn beta.
  apply triple_pre with I; [|by intros w [? _]].
  eapply triple_bind; [by apply get_triple|]. intros canceled. cbn beta.
  apply triple_pre with I; [|by intros w [? _]].
  case_if; [apply triple_ret; intros w Hw; split; [done|by apply classified_new; left]|].
  eapply triple_bind; [by apply ctxErr_triple|]. intros e. cbn beta.
  case_if; [apply triple_ret; intros w Hw; split; [done|by apply classified_temporary; left]|].
  eapply triple_bind; [by apply ctxErr_triple|]. intros e'. cbn beta.
  case_if; [apply triple_ret; intros w Hw; split; [done|by apply classified_new; right]|].
  case_if; apply triple_ret; intros w Hw; (split; [done|]); apply classified_temporary; auto.
Qed.

(** ** The failure paths of Connect *)

(** A failed Connect leaves a settled session that is not ready. *)
Definition failed (_ : error) (w : World) : Prop := settled w ∧ state (client w) ≠ StateReady.

Lemma fail_connect_triple {A} kind failure (Post : A → World → Prop) :
  triple (inv None) (fail_connect kind failure) Post failed.
Proof.
  unfold fail_connect. apply triple_world. intros w0 Hi. apply triple_pre with (λ w, inv None w ∧ wire_log w = wire_log w0);
    [|by intros w <-].
  eapply triple_bind.
  - exact (end_session_triple StateDisconnected kind (wire_log w0) _ (or_introl eq_refl)).
  - intros []. apply triple_fail. by intros w [? _].
Qed.

Lemma fail_classified_triple {A} operation cause (Post : A → World → Prop) :
  triple (inv None) (fail_classified operation cause) Post failed.
Proof.
  unfold fail_classified. eapply triple_bind; [apply classify_triple; apply _|].
  intros failure. cbn beta. apply triple_pre with (inv None); [|by intros w [? _]].
  apply fail_connect_triple.
Qed.

Lemma or_fail_connect_triple {A} (Pre : World → Prop) (m : result A) kind failure (Post : A → World → Prop) :
  (∀ w, Pre w → inv None w) → returns m → (∀ a w, m = Ok a → Pre w → Post a w) →
  triple Pre (or_fail_connect m kind failure) Post failed.
Proof.
  intros Hp Hr Ha. unfold or_fail_connect. destruct m as [a|e|]; [|apply (triple_pre _ (inv None))|done].
  - apply triple_ret. auto.
  - apply fail_connect_triple.
  - done.
Qed.

(** ** The gate *)

Lemma inv_set_gate own b w : inv own w → inv own (on_client (set_gate b) w).
Proof. by intros []. Qed.
Lemma inv_pop_select own w : inv own w → inv own (on_env pop_select w).
Proof. by intros []. Qed.

Lemma release_gate_idle w : settled w → idle (release_gate w) ∧ wire_log (release_gate w) = wire_log w ∧
  later w (interfere w).
Proof.
  intros Hs. pose proof (settled_stable w Hs) as [Hi Hsc]. pose proof (interfere_later w) as Hla.
  split; [split; [by apply inv_set_gate|done]|]. split; [apply Hla|done].
Qed.

Lemma deferred_triple {A} (Pre : World → Prop) (m : M A) Post Er Post' Er' :
  triple Pre m Post Er → (∀ a w, Post a w → Post' a (release_gate w)) →
  (∀ e w, Er e w → Er' e (release_gate w)) → triple Pre (deferred release_gate m) Post' Er'.
Proof.
  intros Hm Hp He w Hw. specialize (Hm w Hw). unfold deferred.
  destruct (m w) as [[a|e|] w']; auto.
Qed.

(** With the gate free, some case of the select is ready. *)
Lemma select_case_ready (w : World) : gate (client w) = false → ∃ case, select_case w = Some case.
Proof.
  intros Hg. unfold select_case. apply lookup_lt_is_Some_2, Nat.mod_upper_bound.
  unfold ready_cases. rewrite Hg, !length_app. cbn. lia.
Qed.

(** An assertion that is not about the gate or the contexts. *)
Class Ungated (F : World → Prop) : Prop := {
  ug_stable :: Stable F;
  ug_gate b w : F w → F (on_client (set_gate b) w);
  ug_select w : F w → F (on_env pop_select w);
  ug_context l v w : F w → F (on_env (set_ctx l v) w);
}.

Lemma release_ungated F w : Ungated F → F w → F (release_gate w).
Proof. intros HF Hw. by apply ug_gate, stable. Qed.

#[export] Instance wire_ungated L : Ungated (λ w, wire_log w = L).
Proof. by constructor; [apply _|..]. Qed.
#[export] Instance and_ungated F G : Ungated F → Ungated G → Ungated (λ w, F w ∧ G w).
Proof. intros HF HG. constructor; [apply _|..]; intros; by destruct_and!; split; (apply ug_gate || apply ug_select || apply ug_context). Qed.

(** A failure to get the gate leaves the session alone. *)
Definition unchanged_error (e : error) : Prop :=
  ∃ failure, e = EGos7 failure ∧ Impact failure = SessionUnchanged.

Lemma acquire_triple F : Ungated F →
  triple (λ w, idle w ∧ F w) acquire (λ _ w, settled w ∧ F w)
    (λ e w, (idle w ∧ F w) ∧ unchanged_error e).
Proof.
  intros HF. unfold acquire.
  apply (triple_bind _ _ (λ case w, (if decide (case = Some CaseGate) then settled w else idle w ∧ case ≠ None)
    ∧ F w)).
  - apply triple_atomically; [apply _|]. intros w [(Hi & Hs & Hg) HL]. cbn [fst snd].
    destruct (select_case_ready w Hg) as [case ->]. destruct (decide (Some case = Some CaseGate)) as [->|Hne].
    + rewrite bool_decide_eq_true_2 by done. split; [|by apply ug_select, ug_gate].
      split; [by apply inv_pop_select, inv_set_gate|done].
    + rewrite bool_decide_eq_false_2 by done. split; [|by apply ug_select]. split; [|done].
      split; [by apply inv_pop_select|done].
  - intros [case|].
    2: { intros w [[Hc ?] ?]. done. }
    destruct case; cbn [decide].
    + apply triple_pre with (λ w, idle w ∧ F w); [|by intros w [[? _] ?]].
      eapply triple_bind; [apply (ctxErr_triple (λ w, idle w ∧ F w)); apply _|].
      intros e. cbn beta. eapply triple_bind; [apply classify_triple; apply _|].
      intros failure. apply triple_fail. intros w [? (_ & Himp & _)]. split; [done|]. by exists failure.
    + apply triple_fail. intros w [[? _] ?]. split; [done|]. by eexists.
    + apply triple_pre with (λ w, settled w ∧ F w); [|by intros w [? ?]].
      eapply triple_bind; [apply get_triple; apply _|].
      intros [|]; cbn beta.
      * intros w [[Hs HL] _]. unfold fail_released, fail.
        destruct (release_gate_idle w Hs) as (? & _). split; [|by eexists]. split; [done|by apply release_ungated].
      * apply triple_ret. by intros w [? _].
Qed.

(** ** Connections of the operation in progress *)

Lemma stable_events (I : World → Prop) :
  (∀ w, I w → I (on_env pop_schedule w)) →
  (∀ w l timeout, I w → I (run_event w (ContextDone l timeout))) →
  (∀ w, I w → I (close_step w)) → Stable I.
Proof.
  intros Hpop Hctx Hclose w Hw. unfold interfere. apply Hpop in Hw. revert Hw.
  generalize (on_env pop_schedule w) (default [] (head (schedule (env w)))).
  intros w0 evs. revert w0. induction evs as [|ev evs IH]; intros w0 Hw; cbn [foldl]; [done|].
  apply IH. destruct ev; [by apply Hctx|by apply Hclose].
Qed.

(** Dialled but not yet the client's: only this operation can close it. *)
Definition holding (id : nat) (w : World) : Prop :=
  inv (Some id) w ∧ conn (client w) = None ∧ open_at w id ∧ closerConn (env w) ≠ Some id ∧
  (closer (env w) = O → state (client w) = StateConnecting).

#[export] Instance holding_stable id : Stable (holding id).
Proof.
  apply stable_events.
  - intros w (Hi & ?). split; [by destruct Hi|done].
  - intros w l t (Hi & ?). split; [by destruct Hi|done].
  - intros w (Hi & Hc & Ho & Hcc & Hst).
    split; [by apply inv_close_step|]. unfold close_step.
    destruct (closer (env w)) as [|[|[|[|n]]]] eqn:Hn; cbn; [|done..| |done|].
    + split_and!; [done|done|by rewrite Hc|done].
    + destruct (closerConn (env w)) as [id'|] eqn:Hcl; cbn; [|done].
      split_and!; [done| |done|done]. apply (open_close w id'). split; [done|congruence].
    + split_and!; try done. by rewrite Hn.
Qed.

(** Connecting, over [c] once it is the client's connection. *)
Definition connecting (c : option nat) (w : World) : Prop :=
  inv None w ∧ (closer (env w) = O → state (client w) = StateConnecting ∧ conn (client w) = c).

#[export] Instance connecting_stable c : Stable (connecting c).
Proof.
  apply and_stable; [apply _|].
  exact (unless_closing_stable (λ cl, state cl = StateConnecting ∧ conn cl = c)).
Qed.

Lemma connecting_inv c w : connecting c w → inv None w.
Proof. by intros []. Qed.

Lemma get_put_conn w id c id' : get_conn w id ≠ None →
  get_conn (put_conn id c w) id' = if decide (id' = id) then Some c else get_conn w id'.
Proof.
  intros Hc. unfold get_conn, put_conn, on_env, set_conns in *. cbn. case_decide; subst.
  - apply list_lookup_insert_eq. by apply lookup_lt_is_Some, not_eq_None_Some.
  - by rewrite list_lookup_insert_ne.
Qed.

Lemma inv_put_conn own w id c c' : get_conn w id = Some c → c_closed c = false → c_closed c' = false →
  Forall arrival_bytes (c_rx c') → inv own w → inv own (put_conn id c' w).
Proof.
  intros Hc Hcl Hcl' Hrx' [].
  assert (∀ id', open_at (put_conn id c' w) id' ↔ open_at w id') as Hopen.
  { intros id'. unfold open_at. rewrite get_put_conn by congruence. case_decide; subst; [|done].
    split; intros (c0 & ? & ?); [by exists c|by exists c']. }
  constructor; try done; cbn [put_conn on_env client env set_conns closer closerConn].
  - intros id'. rewrite Hopen. apply i_conn0.
  - intros id'. rewrite Hopen. apply i_owned0.
  - cbn. rewrite length_insert. apply i_known0.
  - by apply Forall_insert.
Qed.

Lemma inv_rx own w id c : inv own w → get_conn w id = Some c → Forall arrival_bytes (c_rx c).
Proof. intros Hi Hc. pose proof (i_rx _ _ Hi) as Hf. rewrite Forall_lookup in Hf. exact (Hf id c Hc). Qed.

(** More on the wire of connection [id]. *)
Definition log_append (id : nat) (evs : list transfer) (L : list (list transfer)) : list (list transfer) :=
  alter (λ l, l ++ evs) id L.

Lemma wire_log_put w id c c' evs : get_conn w id = Some c → c_wire c' = c_wire c ++ evs →
  wire_log (put_conn id c' w) = log_append id evs (wire_log w).
Proof.
  intros Hc Hs. unfold wire_log, put_conn, log_append, on_env, set_conns. cbn.
  apply list_eq. intros i. rewrite list_lookup_fmap. destruct (decide (i = id)) as [->|].
  - rewrite list_lookup_insert_eq by (by eapply lookup_lt_Some).
    rewrite list_lookup_alter_eq, list_lookup_fmap. unfold get_conn in Hc. rewrite Hc. cbn. by rewrite Hs.
  - rewrite list_lookup_insert_ne, list_lookup_alter_ne by done. by rewrite list_lookup_fmap.
Qed.

Lemma log_append_nil id L : log_append id [] L = L.
Proof.
  unfold log_append. apply list_eq. intros i. destruct (decide (i = id)) as [->|].
  - rewrite list_lookup_alter_eq. destruct (L !! id); cbn; [by rewrite app_nil_r|done].
  - by rewrite list_lookup_alter_ne.
Qed.

Lemma log_append_app id a b L : log_append id (a ++ b) L = log_append id b (log_append id a L).
Proof.
  unfold log_append. apply list_eq. intros i. destruct (decide (i = id)) as [->|].
  - rewrite !list_lookup_alter_eq. destruct (L !! id); cbn; [by rewrite app_assoc|done].
  - by rewrite !list_lookup_alter_ne.
Qed.

Lemma log_append_new a b L : log_append (length L) b (L ++ [a]) = L ++ [a ++ b].
Proof. unfold log_append. by rewrite alter_app_r_alt, Nat.sub_diag by lia. Qed.

(** Nothing new on the wire. *)
Lemma wire_log_same w id c c' : get_conn w id = Some c → c_wire c' = c_wire c →
  wire_log (put_conn id c' w) = wire_log w.
Proof.
  intros Hc Hs. rewrite (wire_log_put w id c c' []) by (done || by rewrite app_nil_r). apply log_append_nil.
Qed.

(** Assertions about the client alone survive calls on a connection. *)
Lemma setDeadline_triple (I : World → Prop) id Er :
  Stable I → (∀ w, I w → inv None w) →
  (∀ w c c', I w → get_conn w id = Some c → c_closed c = false → c_closed c' = false →
     c_rx c' = c_rx c → c_wire c' = c_wire c → I (put_conn id c' w)) →
  triple I (setDeadline id) (λ _ w, I w) Er.
Proof.
  intros Hs Hi Hput. apply triple_atomically; [done|]. intros w Hw.
  destruct (get_conn w id) as [c|] eqn:Hc; [|done].
  destruct (c_closed c) eqn:Hcl; [done|]. cbn. by apply (Hput w c).
Qed.

(** A read delivers one frame, which is the next thing on the wire, or fails. *)
Lemma readFrame_triple (I : World → Prop) id maxFrameBytes L Er :
  DataHeaderSize ≤ maxFrameBytes ≤ maxTPKTLength →
  Stable I → (∀ w, I w → inv None w) →
  (∀ w c c', I w → get_conn w id = Some c → c_closed c = false → c_closed c' = false →
     Forall arrival_bytes (c_rx c') → I (put_conn id c' w)) →
  triple (λ w, I w ∧ wire_log w = L) (readFrame id maxFrameBytes)
    (λ r w, I w ∧ returns r ∧ wire_log w = log_append id (received r) L ∧ ∀ frame, r = Ok frame →
       bytes frame ∧ DataHeaderSize ≤ zlen frame ≤ maxFrameBytes) Er.
Proof.
  intros Hm Hs Hi Hput. apply triple_atomically; [apply _|]. intros w [Hw <-].
  assert (∃ e, (ReadFrame [Fault ErrNetClosed] maxFrameBytes).1 = Err e) as [e He].
  { unfold ReadFrame. assert ((maxFrameBytes <? DataHeaderSize) || (maxFrameBytes >? maxTPKTLength) = false) as -> by lia.
    by eexists. }
  assert (I w ∧ returns (Err (A:=list Z) e) ∧ wire_log w = log_append id (received (Err e)) (wire_log w) ∧
    ∀ frame, Err e = Ok frame → bytes frame ∧ DataHeaderSize ≤ zlen frame ≤ maxFrameBytes) as Hfail
    by (cbn; by rewrite log_append_nil).
  destruct (get_conn w id) as [c|] eqn:Hc; [|by rewrite He].
  destruct (c_closed c) eqn:Hcl; [by rewrite He|]. clear Hfail He.
  pose proof (ReadFrame_typed (c_rx c) maxFrameBytes Hm (inv_rx _ _ _ _ (Hi w Hw) Hc)) as Ht.
  destruct (ReadFrame (c_rx c) maxFrameBytes) as [[f|e0|] r'] eqn:Hr; [| |done]; cbn [fst snd].
  - destruct Ht as (? & ? & ?). split; [by apply (Hput w c)|]. split; [done|].
    split; [by apply (wire_log_put w id c)|]. intros frame [= <-]. done.
  - split; [by apply (Hput w c)|]. split; [done|]. split; [by apply (wire_log_put w id c)|done].
Qed.

(** A write puts a prefix of the frame on the wire, of the reported length;
    without an error the prefix is the whole frame. *)
Lemma writeFull_triple (I : World → Prop) id frame L Er :
  Stable I → (∀ w, I w → inv None w) →
  (∀ w c c', I w → get_conn w id = Some c → c_closed c = false → c_closed c' = false →
     Forall arrival_bytes (c_rx c') → I (put_conn id c' w)) →
  triple (λ w, I w ∧ wire_log w = L) (writeFull id frame)
    (λ r w, I w ∧ 0 ≤ r.1 ≤ zlen frame ∧ (r.2 = None → r.1 = zlen frame) ∧
       wire_log w = log_append id (Sent <$> take (Z.to_nat r.1) frame) L) Er.
Proof.
  intros Hs Hi Hput. apply triple_atomically; [apply _|]. intros w [Hw HL].
  assert (∀ r, r = (WriteFull [(0, Some ErrNetClosed)] frame).2 → 0 ≤ r.1 ≤ zlen frame ∧
    (r.2 = None → r.1 = zlen frame) ∧ wire_log w = log_append id (Sent <$> take (Z.to_nat r.1) frame) L) as Hclosed.
  { intros r ->. unfold WriteFull. cbn [WriteFullFrom]. zlen_pos.
    destruct (0 <? zlen frame) eqn:Hz; cbn [negb].
    - change ((0 <? 0) || (0 >? zlen frame - 0)) with (0 >? zlen frame - 0).
      case_if; [lia|]. cbn. split_and!; [lia..|done|]. by rewrite log_append_nil.
    - cbn. split_and!; [lia..|lia|]. by rewrite log_append_nil. }
  destruct (get_conn w id) as [c|] eqn:Hc; [|split; [done|by apply Hclosed]].
  destruct (c_closed c) eqn:Hcl; [split; [done|by apply Hclosed]|].
  pose proof (WriteFull_spec (default [] (head (c_writes c))) frame) as Hw'. revert Hw'.
  destruct (WriteFull (default [] (head (c_writes c))) frame) as [sent [n err]] eqn:Hwf.
  cbv beta iota. intros (Hn & -> & He).
  pose proof (answer_bytes (c_peer c) (take (Z.to_nat n) frame)) as Hab.
  destruct (answer (c_peer c) _) as [peer arrivals] eqn:Ha. cbn [fst snd] in *.
  split_and!.
  - apply (Hput w c); try done. cbn. apply Forall_app. split; [|done]. exact (inv_rx _ _ _ _ (Hi w Hw) Hc).
  - lia.
  - lia.
  - intros Hnone. specialize (He Hnone). apply (f_equal zlen) in He. rewrite zlen_take in He by lia. lia.
  - rewrite (wire_log_put w id c _ (Sent <$> take (Z.to_nat n) frame)) by done. by rewrite HL.
Qed.

(** ** Connect *)

Lemma connecting_put c w id cn cn' : connecting c w → get_conn w id = Some cn →
  c_closed cn = false → c_closed cn' = false → Forall arrival_bytes (c_rx cn') →
  connecting c (put_conn id cn' w).
Proof. intros [Hi Hst] ????. split; [by eapply inv_put_conn|done]. Qed.

Lemma get_config_triple (I : World → Prop) Er : Stable I → (∀ w, I w → inv None w) →
  triple I (get config) (λ cfg w, config_ok cfg ∧ I w ∧ config (client w) = cfg) Er.
Proof.
  intros Hs Hi. apply triple_atomically; [done|]. intros w Hw. split_and!; [|done|done].
  apply (i_config _ _ (Hi w Hw)).
Qed.

Lemma config_frame cfg : config_ok cfg → DataHeaderSize ≤ MaxFrameBytes (nConfig cfg) ≤ maxTPKTLength.
Proof. intros [[] _ _]. unfold DataHeaderSize, TPKTHeaderSize, DataTPDUHeaderSize, maxTPKTLength. lia. Qed.

(** Connecting over connection [id], with the configuration [cfg]. *)
Definition attempting (cfg : normalizedConfig) (id : nat) (w : World) : Prop :=
  connecting (Some id) w ∧ config (client w) = cfg.

#[export] Instance attempting_stable cfg id : Stable (attempting cfg id).
Proof. apply and_stable; apply _. Qed.
Lemma attempting_inv cfg id w : attempting cfg id w → inv None w.
Proof. intros [Hc _]. by apply connecting_inv in Hc. Qed.
Lemma attempting_config cfg id w : attempting cfg id w → config_ok cfg.
Proof. intros [[Hi _] <-]. apply (i_config _ _ Hi). Qed.
Lemma attempting_put cfg w id cn cn' : attempting cfg id w → get_conn w id = Some cn →
  c_closed cn = false → c_closed cn' = false → Forall arrival_bytes (c_rx cn') →
  attempting cfg id (put_conn id cn' w).
Proof. intros [Hc ?] ????. split; [by eapply connecting_put|done]. Qed.

(** ... and with [L] on the wires. *)
Definition attempting_at (cfg : normalizedConfig) (id : nat) (L : list (list transfer)) (w : World) : Prop :=
  attempting cfg id w ∧ wire_log w = L.

#[export] Instance attempting_at_stable cfg id L : Stable (attempting_at cfg id L).
Proof. apply and_stable; apply _. Qed.
Lemma attempting_at_inv cfg id L w : attempting_at cfg id L w → inv None w.
Proof. intros [Ha _]. by eapply attempting_inv. Qed.

Lemma attempting_fail_triple {A} cfg id L kind failure (Post : A → World → Prop) :
  triple (attempting_at cfg id L) (fail_connect kind failure) Post failed.
Proof. apply triple_pre with (inv None); [apply fail_connect_triple|apply attempting_at_inv]. Qed.

(** Getting the configuration, which never changes. *)
Lemma with_config_triple {B} cfg id L (f : normalizedConfig → M B) Post Er :
  (config_ok cfg → triple (attempting_at cfg id L) (f cfg) Post Er) →
  triple (attempting_at cfg id L) (get config ≫= f) Post Er.
Proof.
  intros Hf. apply (triple_bind _ _ (λ a w, (a = cfg ∧ config_ok cfg) ∧ attempting_at cfg id L w)).
  - apply triple_atomically; [apply _|]. intros w [Ha HL]. split; [|done].
    split; [apply Ha|by eapply attempting_config].
  - intros a. apply triple_pure. intros [-> Hcfg]. by apply Hf.
Qed.

(** One exchange: the request and the frame that answers it are on the wire. *)
Lemma connect_exchange_triple cfg id frame writing reading L :
  triple (attempting_at cfg id L) (connect_exchange id frame writing reading)
    (λ r w, bytes r ∧ attempting_at cfg id (log_append id ((Sent <$> frame) ++ [Received r]) L) w) failed.
Proof.
  unfold connect_exchange. eapply triple_bind.
  - apply (writeFull_triple (attempting cfg id) id frame L); [apply _|apply attempting_inv|].
    intros. by eapply attempting_put.
  - intros [n [err|]]; cbn [fst snd].
    { apply triple_pre with (inv None); [apply fail_classified_triple|]. intros w [Ha _]. by eapply attempting_inv. }
    apply triple_pre with (attempting_at cfg id (log_append id (Sent <$> frame) L)).
    2: { intros w (Ha & _ & Hn & HL). split; [done|]. specialize (Hn eq_refl). subst n.
         unfold zlen in HL. by rewrite Nat2Z.id, firstn_all in HL. }
    apply with_config_triple. intros Hcfg. eapply triple_bind.
    { apply (readFrame_triple (attempting cfg id)); [by apply config_frame|apply _|apply attempting_inv|].
      intros. by eapply attempting_put. }
    intros [f|err|]; cbn beta.
    + apply triple_ret. intros w (Ha & _ & HL & Hf). split; [by apply (Hf f)|]. split; [done|].
      by rewrite log_append_app.
    + apply triple_pre with (inv None); [apply fail_classified_triple|]. intros w [Ha _]. by eapply attempting_inv.
    + intros w (_ & Hr & _). by apply Hr.
Qed.

Lemma TPDUSizeForS7PDU_config cfg : config_ok cfg →
  ∃ size, TPDUSizeForS7PDU (RequestedPDU (nConfig cfg)) = Ok size ∧ size ∈ tpdu_sizes.
Proof.
  intros [[] _ _]. pose proof (TPDUSizeForS7PDU_spec (RequestedPDU (nConfig cfg))) as Ht.
  destruct (TPDUSizeForS7PDU _) as [size| |]; [|unfold DataTPDUHeaderSize in Ht; lia|done].
  exists size. split; [done|]. destruct Ht as (_ & Hin & _). unfold tpdu_sizes.
  rewrite !elem_of_cons, elem_of_nil in *. tauto.
Qed.

Lemma BuildConnectionRequest_returns l r size : returns (BuildConnectionRequest l r size).
Proof.
  unfold BuildConnectionRequest. apply bind_returns; [unfold tpduSizeCode; by case_if|].
  intros code _. cbn [put_uint16]. unfold put_uint16.
  rewrite store_Ok by zlia. cbn [mbind outcome_bind].
  rewrite store_Ok by zlia. cbn [mbind outcome_bind].
  rewrite store_Ok by zlia. cbn [mbind outcome_bind].
  rewrite store_Ok by zlia. cbn [mbind outcome_bind].
  by rewrite store_Ok by zlia.
Qed.

(** A computation whose error ends the connection attempt. *)
Lemma or_fail_bind_triple {A B} (Pre : World → Prop) (m : result A) kind failure (f : A → M B) Post :
  (∀ w, Pre w → inv None w) → returns m →
  (∀ a, m = Ok a → triple Pre (f a) Post failed) →
  triple Pre (or_fail_connect m kind failure ≫= f) Post failed.
Proof.
  intros Hp Hr Hf. destruct m as [a|e|]; [by apply (Hf a)| |done].
  apply (triple_bind _ _ (λ _ _, False)); [|by intros a w ?].
  apply triple_pre with (inv None); [apply fail_connect_triple|done].
Qed.

(** ** The handshake on the wire *)

(** The COTP exchange: the peer confirmed the TPDU size [tpdu]. *)
Definition cotp_handshake (cfg : normalizedConfig) (tpdu : Z) (wire : list transfer) : Prop :=
  ∃ offered request confirm,
    TPDUSizeForS7PDU (RequestedPDU (nConfig cfg)) = Ok offered ∧
    BuildConnectionRequest (nLocalTSAP cfg) (nRemoteTSAP cfg) offered = Ok request ∧
    ParseConnectionConfirm confirm (nLocalTSAP cfg) (nRemoteTSAP cfg) offered = Ok (mkConnectionConfirm tpdu) ∧
    wire = (Sent <$> request) ++ [Received confirm].

(** The setup exchange: the peer answered with [r]. *)
Definition setup_handshake (cfg : normalizedConfig) (tpdu : Z) (r : SetupResult) (wire : list transfer) : Prop :=
  ∃ setup response payload,
    BuildSetupRequest setupReference maxAmQCaller maxAmQCallee (session_pdu cfg tpdu) = Ok setup ∧
    UnwrapData response = Ok payload ∧ ParseSetupResponse payload setupReference = Ok r ∧
    GlobalCode r = 0 ∧ wire = (Sent <$> data_frame 0x80 setup) ++ [Received response].

(** The limits [l] are what the two exchanges on [wire] say. *)
Definition negotiated (cfg : normalizedConfig) (wire : list transfer) (l : SessionLimits) : Prop :=
  ∃ tpdu r cotp setup, cotp_handshake cfg tpdu cotp ∧ setup_handshake cfg tpdu r setup ∧ wire = cotp ++ setup ∧
    l = mkLimits (session_pdu cfg tpdu) (PDU r) tpdu (MaxAmQCaller r) (MaxAmQCallee r).

Lemma connect_cotp_triple cfg id L :
  triple (attempting_at cfg id L) (connect_cotp id)
    (λ tpdu w, (tpdu ∈ tpdu_sizes ∧ 243 ≤ tpdu) ∧
       ∃ wire, cotp_handshake cfg tpdu wire ∧ attempting_at cfg id (log_append id wire L) w) failed.
Proof.
  unfold connect_cotp. apply with_config_triple. intros Hcfg.
  destruct (TPDUSizeForS7PDU_config cfg Hcfg) as (offered & Hoff & Hin).
  apply or_fail_bind_triple; [apply attempting_at_inv|by rewrite Hoff|]. intros a Ha. rewrite Hoff in Ha. injection Ha as <-.
  apply or_fail_bind_triple; [apply attempting_at_inv|apply BuildConnectionRequest_returns|]. intros request Hreq.
  eapply triple_bind; [apply connect_exchange_triple|]. intros confirm. cbn beta.
  apply triple_pure. intros Hb.
  apply or_fail_bind_triple; [apply attempting_at_inv|by apply isotcp_parsers_never_panic|].
  intros [tpdu] Hr. pose proof Hr as [Hs _]%ParseConnectionConfirm_TPDU; [|done]. cbn [TPDUSize] in *.
  case_if; [apply attempting_fail_triple|]. apply triple_ret. intros w Hw. split.
  - split; [done|]. unfold DataTPDUHeaderSize, minRequestedPDU in *. lia.
  - eexists. split; [|exact Hw]. by exists offered, request, confirm.
Qed.

Lemma session_pdu_range cfg tpdu : config_ok cfg → 243 ≤ tpdu →
  240 ≤ session_pdu cfg tpdu ≤ 960 ∧ session_pdu cfg tpdu ≤ RequestedPDU (nConfig cfg) ∧
  session_pdu cfg tpdu + 3 ≤ tpdu.
Proof.
  intros [[] _ _] Ht. unfold session_pdu, DataTPDUHeaderSize. case_if; lia.
Qed.

Lemma setup_typed payload r : bytes payload → ParseSetupResponse payload setupReference = Ok r →
  is_u16 (MaxAmQCaller r) ∧ is_u16 (MaxAmQCallee r) ∧ is_u16 (PDU r).
Proof.
  intros Hb Hr. apply ParseSetupResponse_spec in Hr; [|done].
  destruct Hr as (_ & _ & p & d & g & _ & _ & _ & _ & _ & [[_ ->]|(_ & _ & ? & ? & ? & _)]); [|done].
  unfold is_u16. cbn. lia.
Qed.

Lemma connect_setup_triple cfg id tpdu L : 243 ≤ tpdu →
  triple (attempting_at cfg id L) (connect_setup id tpdu)
    (λ r w, (is_u16 (MaxAmQCaller r) ∧ is_u16 (MaxAmQCallee r) ∧ is_u16 (PDU r)) ∧
       ∃ wire, setup_handshake cfg tpdu r wire ∧ attempting_at cfg id (log_append id wire L) w) failed.
Proof.
  intros Ht. unfold connect_setup. apply with_config_triple. intros Hcfg.
  destruct (session_pdu_range cfg tpdu Hcfg Ht) as (Hr & _ & _).
  rewrite (u16_id (session_pdu cfg tpdu)) by (unfold is_u16; lia).
  apply or_fail_bind_triple; [apply attempting_at_inv| |].
  { rewrite BuildSetupRequest_spec by (first [by vm_compute|unfold is_u16; lia]). by case_decide. }
  intros setup Hsetup. apply or_fail_bind_triple; [apply attempting_at_inv| |].
  { rewrite WrapData_spec. by case_decide. }
  intros setupFrame Hframe. rewrite WrapData_spec in Hframe. case_decide; [|done]. injection Hframe as <-.
  case_if; [apply attempting_fail_triple|].
  eapply triple_bind; [apply connect_exchange_triple|]. intros response. cbn beta.
  apply triple_pure. intros Hb. case_if; [apply attempting_fail_triple|].
  destruct (isotcp_parsers_never_panic response 0 0 0 Hb) as [_ Hun].
  apply or_fail_bind_triple; [apply attempting_at_inv|done|]. intros payload Hp.
  assert (bytes payload) as Hpb.
  { pose proof Hp as (fl & _ & -> & _)%UnwrapData_spec; [|done]. unfold data_frame in Hb.
    rewrite !Forall_app in Hb. tauto. }
  case_if; [apply attempting_fail_triple|].
  apply or_fail_bind_triple; [apply attempting_at_inv| |].
  { apply (parsers_never_panic payload setupReference [] 0 Hpb). constructor. }
  intros r Hrr. destruct (negb (GlobalCode r =? 0)) eqn:Hg; [apply attempting_fail_triple|].
  apply triple_ret. intros w Hw. split; [by eapply setup_typed|]. eexists. split; [|exact Hw].
  exists setup, response, payload. split_and!; try done. lia.
Qed.

Lemma inv_pop_dial own w : inv own w → inv own (on_env pop_dial w).
Proof. intros []. constructor; try done. cbn. by apply Forall_tail. Qed.

(** A dialled connection is open, new, and owned by the operation. *)
Lemma holding_dialled w cn : connecting None w → Forall arrival_bytes (c_rx cn) →
  holding (length (conns (env w))) (on_env (λ e, set_conns (conns e ++ [open_conn cn]) (pop_dial e)) w).
Proof.
  intros [Hi Hst] Hrx. pose proof (inv_pop_dial _ _ Hi) as [].
  set (w' := on_env _ w). set (id := length (conns (env w))).
  assert (∀ id', open_at w' id' ↔ open_at w id' ∨ id' = id) as Hopen.
  { intros id'. unfold open_at, get_conn, w', on_env, set_conns. cbn. split.
    - intros (c & [Hc|[Hge Hc]]%lookup_app_Some & Hcl); [left; by exists c|right].
      destruct (id' - length (conns (env w)))%nat eqn:E; [unfold id; lia|done].
    - intros [(c & Hc & Hcl)| ->].
      + exists c. split; [|done]. by apply lookup_app_l_Some.
      + exists (open_conn cn). split; [|done]. unfold id. by rewrite lookup_app_r, Nat.sub_diag by lia. }
  assert (∀ id', open_at w id' → id' ≠ id) as Hne.
  { intros id' (c & Hc & _) ->. apply lookup_lt_Some in Hc. unfold id in Hc. lia. }
  assert (conn (client w) = None) as Hcn.
  { destruct (decide (closer (env w) = O)) as [Hz|Hz]; [by apply Hst|by apply i_closed0]. }
  split_and!.
  - constructor; try done; cbn [w' on_env client env].
    + intros id'. by rewrite Hcn.
    + intros id' [Ho| ->]%Hopen; [|by right; right]. right. left.
      destruct (i_owned0 id' Ho) as [Hc|[?|?]]; [cbn in Hc; congruence|done|done].
    + cbn. intros id' Hc%i_known0. rewrite length_app. cbn in *. lia.
    + cbn. apply Forall_app. split; [done|]. by repeat constructor.
  - done.
  - apply Hopen. by right.
  - cbn. intros Hcc%i_known0. cbn in Hcc. unfold id in Hcc. lia.
  - intros Hz. by apply Hst.
Qed.

Lemma holding_closing id w : holding id w → is_closing (state (client w)) = true → closer (env w) ≠ O.
Proof. intros (Hi & _) Hc Hz. by rewrite (open_state _ _ Hi Hz) in Hc. Qed.

(** Closing a dialled connection that never became the client's. *)
Lemma close_holding_triple id Er :
  triple (holding id) (closeConnection id)
    (λ _ w, inv None w) Er.
Proof.
  apply triple_atomically; [apply _|]. intros w (Hi & Hc & Ho & Hcc & Hst). cbn [fst snd].
  pose proof (inv_close _ _ id Hi ltac:(by rewrite Hc)) as Hi'. by rewrite decide_True in Hi' by done.
Qed.

Lemma socket_option_triple id answer operation F :
  triple (λ w, holding id w ∧ F w) (socket_option id answer operation) (λ _ w, holding id w ∧ F w) failed.
Proof.
  unfold socket_option. destruct answer as [e|]; [|by apply triple_ret].
  eapply triple_bind; [eapply triple_pre; [apply close_holding_triple|by intros w [? _]]|].
  intros []. apply fail_connect_triple.
Qed.

(** The dialled connection becomes the client's, unless Close has begun. *)
Lemma holding_taken id w : holding id w → is_closing (state (client w)) = false →
  connecting (Some id) (on_client (set_conn (Some id)) w).
Proof.
  intros (Hi & Hc & Ho & Hcc & Hst) Hcl. pose proof (is_closing_closer _ _ Hi Hcl) as Hz.
  specialize (Hst Hz). pose proof Hi as []. split; [|done]. constructor; cbn; try done.
  - intros Hr. congruence.
  - intros id' [= <-]. split; [done|]. by right.
  - intros id' Ho'. destruct (i_owned0 id' Ho') as [?|[?|[= ->]]]; [congruence|by right; left|by left].
Qed.

(** The socket options of a TCP connection, in turn. *)
Lemma socket_options_triple id (tcp : bool) o1 o2 o3 F : Stable F →
  triple (λ w, holding id w ∧ F w)
    (if tcp then
       _ ← socket_option id o1 "connect.tcp_no_delay";
       keep ← get (λ c, KeepAlive (nConfig (config c)) >? 0);
       if keep : bool then
         _ ← socket_option id o2 "connect.keepalive"; socket_option id o3 "connect.keepalive_period"
       else mret tt
     else mret tt)
    (λ _ w, holding id w ∧ F w) failed.
Proof.
  intros HF. destruct tcp; [|by apply triple_ret].
  eapply triple_bind; [apply socket_option_triple|]. intros [].
  eapply triple_bind; [apply (get_triple (λ w, holding id w ∧ F w)); apply _|]. intros keep. cbn beta.
  apply triple_pre with (λ w, holding id w ∧ F w); [|by intros w [? _]].
  destruct keep; [|by apply triple_ret].
  eapply triple_bind; [apply socket_option_triple|]. intros []. apply socket_option_triple.
Qed.

(** Closing a dialled connection after Close has begun. *)
Lemma close_refused_triple {A} id operation (Post : A → World → Prop) :
  triple (λ w, holding id w ∧ closer (env w) ≠ O)
    (_ ← closeConnection id; fail (newError operation ErrorClosed SessionUnchanged None)) Post failed.
Proof.
  apply (triple_bind _ _ (λ _ w, inv None w ∧ closer (env w) ≠ O)).
  { apply triple_atomically; [apply _|]. intros w [(Hi & Hc & _) Hn]. cbn [fst snd].
    pose proof (inv_close _ _ id Hi ltac:(by rewrite Hc)) as Hi'. by rewrite decide_True in Hi' by done. }
  intros []. apply triple_fail. intros w [Hi Hn].
  pose proof (closing_state _ _ Hi Hn) as Hc. split; [split; [done|]|]; intros E; by rewrite E in Hc.
Qed.

(** The dialled connection is new: nothing has been on its wire. *)
Lemma connect_dial_triple cfg L :
  triple (λ w, connecting None w ∧ config (client w) = cfg ∧ wire_log w = L) connect_dial
    (λ id w, id = length L ∧ attempting_at cfg id (L ++ [[]]) w) failed.
Proof.
  unfold connect_dial. set (F w := config (client w) = cfg ∧ wire_log w = L ++ [[]]).
  assert (Stable F) as HF by (apply and_stable; apply _).
  eapply triple_bind.
  - apply (triple_atomically _ _
      (λ r w, match r with inl _ => inv None w | inr (id, _, _) => id = length L ∧ holding id w ∧ F w end)); [apply _|].
    intros w (Hw & Hcfg & HL). pose proof (connecting_inv _ _ Hw) as Hi.
    destruct (dials (env w)) as [|d ds] eqn:Hd; cbn [head]; [done|].
    destruct d as [e|cn tcp o1 o2 o3]; [by apply inv_pop_dial|].
    assert (length (conns (env w)) = length L) as Hlen by (rewrite <-HL; unfold wire_log; by rewrite length_fmap).
    split; [done|]. split; [|split; [done|]].
    + apply holding_dialled; [done|]. pose proof (i_dials _ _ Hi) as Hds. rewrite Hd in Hds.
      by apply Forall_cons in Hds as [? _].
    + rewrite <-HL. unfold wire_log. cbn. by rewrite fmap_app.
  - intros [e|[[id tcp] [[o1 o2] o3]]]; [apply fail_classified_triple|]. apply triple_pure. intros ->.
    set (id := length L). eapply triple_bind; [by apply (socket_options_triple id tcp o1 o2 o3 F)|]. intros [].
    apply (triple_bind _ _ (λ taken w, if taken : bool then attempting_at cfg id (L ++ [[]]) w
      else holding id w ∧ closer (env w) ≠ O)).
    { apply triple_atomically; [apply _|]. intros w [Hw [Hcfg HL]].
      destruct (is_closing (state (client w))) eqn:Hcl; cbn [fst snd].
      - split; [done|by eapply holding_closing].
      - split; [|done]. split; [by apply holding_taken|done]. }
    intros [|]; [|apply close_refused_triple].
    eapply triple_bind; [apply (setDeadline_triple (attempting_at cfg id (L ++ [[]]))); [apply _|apply attempting_at_inv|]|].
    { intros w c c' [Ha HL] Hc Hcl Hcl' Hrx Hwi. split; [|by rewrite (wire_log_same w id c c')].
      eapply attempting_put; [done..|]. rewrite Hrx. eapply inv_rx; [|done]. by eapply attempting_inv. }
    intros [e|]; [apply attempting_fail_triple|by apply triple_ret].
Qed.

(** ** The end of Connect *)

(** A successful Connect: ready, unless Close has begun meanwhile. *)
Definition connected (w : World) : Prop :=
  settled w ∧ (closer (env w) = O → state (client w) = StateReady).

#[export] Instance connected_stable : Stable connected.
Proof.
  apply and_stable; [apply _|]. exact (unless_closing_stable (λ cl, state cl = StateReady)).
Qed.

(** A new connection was opened, and the limits are those of its handshake. *)
Definition opened (L : list (list transfer)) (cfg : normalizedConfig) (w : World) : Prop :=
  ∃ wire, wire_log w = L ++ [wire] ∧
    (closer (env w) = O → conn (client w) = Some (length L) ∧ negotiated cfg wire (limits (client w))).

#[export] Instance opened_stable L cfg : Stable (opened L cfg).
Proof.
  intros w (wire & HL & Hn). exists wire. split; [by apply (stable (Pre := λ w, wire_log w = L ++ [wire]))|].
  exact (unless_closing_stable (λ c, conn c = Some (length L) ∧ negotiated cfg wire (limits c)) w Hn).
Qed.

Lemma tpdu_size_range tpdu : tpdu ∈ tpdu_sizes → 128 ≤ tpdu ≤ 8192.
Proof. unfold tpdu_sizes. rewrite !elem_of_cons, elem_of_nil. intros Hs. destruct_or! Hs; lia. Qed.

(** What the limits check lets through is consistent. *)
Lemma good_limits cfg tpdu r : config_ok cfg → tpdu ∈ tpdu_sizes → 243 ≤ tpdu →
  is_u16 (MaxAmQCaller r) → is_u16 (MaxAmQCallee r) → bad_limits cfg tpdu r = false →
  limits_ok cfg (mkLimits (u16 (session_pdu cfg tpdu)) (PDU r) (u16 tpdu) (MaxAmQCaller r) (MaxAmQCallee r)).
Proof.
  intros Hcfg Hin Ht Hcr Hce Hb. destruct (session_pdu_range cfg tpdu Hcfg Ht) as (Hr & Hr' & _).
  apply tpdu_size_range in Hin. pose proof (config_frame cfg Hcfg) as Hf.
  pose proof (so_pdu _ (co_settings _ Hcfg)) as Hp.
  unfold bad_limits, minRequestedPDU, maxAmQCaller, maxAmQCallee in Hb. unfold is_u16 in *.
  rewrite !u16_id by (unfold is_u16; lia).
  constructor; cbn; unfold MaxTPDUSize, DataHeaderSize, TPKTHeaderSize, DataTPDUHeaderSize, maxTPKTLength in *; lia.
Qed.

Lemma enter_ready_connected cfg tpdu r la ra now id w :
  connecting (Some id) w → config (client w) = cfg → tpdu ∈ tpdu_sizes → 243 ≤ tpdu →
  is_u16 (MaxAmQCaller r) → is_u16 (MaxAmQCallee r) → bad_limits cfg tpdu r = false →
  is_closing (state (client w)) = false →
  connected (on_client (enter_ready cfg tpdu r la ra now) w).
Proof.
  intros [Hi Hst] Hcfg Hin Ht Hcr Hce Hb Hcl. pose proof (is_closing_closer _ _ Hi Hcl) as Hz.
  destruct (Hst Hz) as [Hs Hc]. pose proof Hi as [].
  assert (config_ok cfg) as Hok by by rewrite <-Hcfg.
  split; [|done]. split; [|done]. constructor; cbn; try done.
  - rewrite Hz. split; [done|]. rewrite Hz in i_phase0. apply i_phase0.
  - intros _. rewrite Hc, Hcfg. split; [done|]. split; [done|]. by apply good_limits.
  - intros id' Hid'. split; [by apply i_conn0|]. by left.
Qed.

(** Closing the connection when Close has begun in the meantime. *)
Lemma close_too_late_triple {A} id operation (Post : A → World → Prop) :
  triple (λ w, inv None w ∧ closer (env w) ≠ O)
    (_ ← closeConnection id; fail (newError operation ErrorClosed SessionUnchanged None)) Post failed.
Proof.
  apply (triple_bind _ _ (λ _ w, inv None w ∧ closer (env w) ≠ O)).
  { apply triple_atomically; [apply _|]. intros w [Hi Hn]. cbn [fst snd].
    pose proof (inv_close _ _ id Hi ltac:(by rewrite (i_closed _ _ Hi Hn))) as Hi'.
    by rewrite decide_False in Hi' by done. }
  intros []. apply triple_fail. intros w [Hi Hn].
  pose proof (closing_state _ _ Hi Hn) as Hc. split; [split; [done|]|]; intros E; by rewrite E in Hc.
Qed.

Lemma connect_finish_triple cfg tpdu r L cotp setup : tpdu ∈ tpdu_sizes → 243 ≤ tpdu →
  is_u16 (MaxAmQCaller r) → is_u16 (MaxAmQCallee r) →
  cotp_handshake cfg tpdu cotp → setup_handshake cfg tpdu r setup →
  triple (attempting_at cfg (length L) (L ++ [cotp ++ setup])) (connect_finish (length L) tpdu r)
    (λ _ w, connected w ∧ opened L cfg w) failed.
Proof.
  intros Hin Ht Hcr Hce Hcotp Hsetup. unfold connect_finish.
  set (I := attempting_at cfg (length L) (L ++ [cotp ++ setup])).
  eapply triple_bind; [apply (ctxErr_triple I); apply _|]. intros [v|]; cbn beta.
  { apply triple_pre with (inv None); [apply fail_classified_triple|apply attempting_at_inv]. }
  apply with_config_triple. intros Hcfg.
  destruct (bad_limits cfg tpdu r) eqn:Hb; [apply attempting_fail_triple|].
  apply (triple_bind _ _ (λ _, I)); [apply triple_atomically; [apply _|done]|].
  intros [[la ra] now].
  apply (triple_bind _ _ (λ entered w, if entered : bool then connected w ∧ opened L cfg w
    else inv None w ∧ closer (env w) ≠ O)).
  { apply triple_atomically; [apply _|]. intros w [[Hc Hcf] HL].
    destruct (is_closing (state (client w))) eqn:Hcl; cbn [fst snd].
    - destruct Hc as [Hi _]. split; [done|]. intros Hz. by rewrite (open_state _ _ Hi Hz) in Hcl.
    - split; [by eapply enter_ready_connected|]. exists (cotp ++ setup). split; [done|]. intros Hz.
      split; [by destruct Hc as [_ Hc]; destruct (Hc Hz)|]. exists tpdu, r, cotp, setup.
      split; [done|]. split; [done|]. split; [done|]. cbn [on_client client limits enter_ready].
      destruct (session_pdu_range cfg tpdu Hcfg Ht) as (Hr & _ & _). apply tpdu_size_range in Hin.
      by rewrite !u16_id by (unfold is_u16; lia). }
  intros [|]; [by apply triple_ret|apply close_too_late_triple].
Qed.

(** From the dial to a ready session. *)
Lemma connect_open_triple cfg L :
  triple (λ w, connecting None w ∧ config (client w) = cfg ∧ wire_log w = L)
    (id ← connect_dial; tpdu ← connect_cotp id; r ← connect_setup id tpdu; connect_finish id tpdu r)
    (λ _ w, connected w ∧ opened L cfg w) failed.
Proof.
  eapply triple_bind; [apply connect_dial_triple|]. intros id. cbn beta. apply triple_pure. intros ->.
  eapply triple_bind; [apply connect_cotp_triple|]. intros tpdu. cbn beta. apply triple_pure. intros [Hin Ht].
  intros w (cotp & Hcotp & Hw). rewrite log_append_new in Hw. revert w Hw.
  eapply triple_bind; [by apply connect_setup_triple|]. intros r. cbn beta. apply triple_pure. intros (Hcr & Hce & _).
  intros w (setup & Hsetup & Hw). rewrite log_append_new in Hw. revert w Hw. by apply connect_finish_triple.
Qed.

Definition away (w : World) : Prop := settled w ∧ state (client w) ≠ StateReady.

#[export] Instance away_stable : Stable away.
Proof.
  intros w [Hs Hr]. split; [by apply stable|]. destruct Hs as [Hi _].
  destruct (state_interfere _ _ Hi) as [->|Hn]; [done|].
  pose proof (closing_state _ _ (inv_interfere _ _ Hi) Hn) as Hcl. intros E. by rewrite E in Hcl.
Qed.

Lemma inv_derive own l v w : inv own w → inv own (on_env (set_ctx l v) w).
Proof. by intros []. Qed.

(** Starting a connection attempt from a settled session that is not ready. *)
Lemma away_connecting w : away w → is_closing (state (client w)) = false →
  connecting None (on_client (set_state StateConnecting) w).
Proof.
  intros [[Hi Hs] Hr] Hcl. pose proof (is_closing_closer _ _ Hi Hcl) as Hz. pose proof Hi as [].
  assert (conn (client w) = None) as Hcn.
  { destruct (conn (client w)) as [id|] eqn:Hc; [|done]. destruct (i_conn0 id eq_refl) as [_ [?|?]]; done. }
  split; [|done]. constructor; cbn; try done.
  - rewrite Hz in *. split; [done|apply i_phase0].
  - intros Hv. by apply i_valid0 in Hv.
  - intros id. by rewrite Hcn.
Qed.

Lemma connected_release w : connected w → connected (release_gate w) ∧ idle (release_gate w).
Proof.
  intros Hc. pose proof (release_gate_idle w (proj1 Hc)) as (Hidle & _ & _). split; [|done].
  destruct (stable w Hc) as [Hs Hr]. by split; [split; apply Hidle|].
Qed.

(** While no [Close] has begun, the session is in state [st]. *)
Definition in_state (st : State) (w : World) : Prop :=
  closer (env w) = O → state (client w) = st.

#[export] Instance in_state_stable st : Stable (in_state st).
Proof. apply (unless_closing_stable (λ c, state c = st)). Qed.
#[export] Instance in_state_ungated st : Ungated (in_state st).
Proof. by constructor; [apply _|..]. Qed.

(** The limits stay what they were. *)
#[export] Instance limits_stable l : Stable (λ w, limits (client w) = l).
Proof. intros w <-. apply interfere_later. Qed.
#[export] Instance limits_ungated l : Ungated (λ w, limits (client w) = l).
Proof. by constructor; [apply _|..]. Qed.
#[export] Instance config_ungated cfg : Ungated (λ w, config (client w) = cfg).
Proof. by constructor; [apply _|..]. Qed.

(** What Connect may find: the session as it was before. *)
Definition as_before (st : State) (l : SessionLimits) (cfg : normalizedConfig) (L : list (list transfer))
    (w : World) : Prop :=
  in_state st w ∧ limits (client w) = l ∧ config (client w) = cfg ∧ wire_log w = L.

#[export] Instance as_before_ungated st l cfg L : Ungated (as_before st l cfg L).
Proof. apply and_ungated; [apply _|]. apply and_ungated; [apply _|]. apply and_ungated; apply _. Qed.

Lemma idle_before w : idle w →
  idle w ∧ as_before (state (client w)) (limits (client w)) (config (client w)) (wire_log w) w.
Proof. intros Hi. split; [done|]. split; [by intros _|done]. Qed.

(** What a successful Connect leaves: the session that was ready already, or a
    new one. *)
Definition ready_session (st : State) (l : SessionLimits) (cfg : normalizedConfig) (L : list (list transfer))
    (w : World) : Prop :=
  st = StateReady ∧ limits (client w) = l ∧ wire_log w = L ∨ opened L cfg w.

Lemma ready_session_release st l cfg L w : ready_session st l cfg L w → ready_session st l cfg L (release_gate w).
Proof.
  intros [(? & Hl & HL)|Ho]; [left|right].
  - split; [done|]. split; [by apply (release_ungated (λ w, limits (client w) = l)); [apply _|]|].
    by apply (release_ungated (λ w, wire_log w = L)); [apply _|].
  - apply stable in Ho. destruct Ho as (wire & ? & ?). by exists wire.
Qed.

(** The part of Connect that opens a session, once it is known that there is none. *)
Lemma connect_new_triple st l cfg L :
  triple (λ w, away w ∧ as_before st l cfg L w)
    (_ ← derive Operation;
     err ← ctxErr Operation;
     match err with
     | Some err =>
         failure ← classifyContextError "connect" Operation SessionUnchanged (EVar err);
         fail failure
     | None =>
         started ← atomically (λ w,
           if is_closing (Session.state (client w)) then (false, w)
           else (true, on_client (set_state StateConnecting) w));
         if started : bool then
           id ← connect_dial;
           tpdu ← connect_cotp id;
           r ← connect_setup id tpdu;
           connect_finish id tpdu r
         else fail (newError "connect" ErrorClosed SessionUnchanged None)
     end)
    (λ _ w, connected w ∧ ready_session st l cfg L w) (λ _ w, settled w).
Proof.
  set (I w := away w ∧ as_before st l cfg L w). assert (Stable I) as HI by apply _.
  apply (triple_bind _ _ (λ _, I)).
  { intros w [[[Hi Hs] Hr] Hb]. split; [|done]. split; [|done]. split; [by apply inv_derive|done]. }
  intros []. eapply triple_bind; [apply (ctxErr_triple I); apply _|]. intros [v|]; cbn beta.
  { eapply triple_bind; [apply (classify_triple I); apply _|]. intros failure. cbn beta.
    apply triple_fail. by intros w [[[? _] _] _]. }
  apply (triple_bind _ _ (λ started w, if started : bool
    then connecting None w ∧ config (client w) = cfg ∧ wire_log w = L else settled w)).
  { apply triple_atomically; [apply _|]. intros w [Hw (_ & _ & Hcfg & HL)].
    destruct (is_closing (state (client w))) eqn:Hcl; cbn [fst snd]; [apply Hw|]. split; [by apply away_connecting|done]. }
  intros [|]; [|by apply triple_fail].
  eapply triple_conseq; [apply (connect_open_triple cfg L)|done| |by intros e w [? _]].
  intros [] w [Hc Ho]. split; [done|by right].
Qed.

(** Connect keeps the invariant on every path; on success the session is
    ready, unless a concurrent Close has begun, and what a session needs was
    negotiated on the wire. *)
Lemma Connect_triple st l cfg L :
  triple (λ w, idle w ∧ as_before st l cfg L w) Connect
    (λ _ w, (idle w ∧ (closer (env w) = O → state (client w) = StateReady)) ∧ ready_session st l cfg L w)
    (λ _ w, idle w).
Proof.
  unfold Connect. eapply triple_bind.
  { eapply triple_conseq; [by apply (acquire_triple (as_before st l cfg L)); apply _|done|by intros a w Hw; exact Hw|].
    by intros e w [[? _] _]. }
  intros []. apply (deferred_triple _ _ (λ _ w, connected w ∧ ready_session st l cfg L w) (λ _ w, settled w)).
  2: { intros [] w [Hc%connected_release Hr]. destruct Hc as [[_ Hc] Hi]. split; [done|by apply ready_session_release]. }
  2: { intros e w Hs. apply (release_gate_idle w Hs). }
  eapply triple_bind; [apply (get_triple (λ w, settled w ∧ as_before st l cfg L w)); apply _|]. intros st'. cbn beta.
  case_if; [apply triple_fail; by intros w [[? _] _]|].
  case_if.
  { apply triple_ret. intros w [[Hs (Hst & Hl & _ & HL)] ->]. apply bool_decide_eq_true in Heqb0.
    split; [split; [done|by intros _]|]. left. split; [|done].
    rewrite <-Hst; [done|]. eapply is_closing_closer; [apply Hs|done]. }
  eapply triple_pre; [apply connect_new_triple|].
  intros w [[Hs Hb] ->]. split; [|done]. split; [done|]. by apply bool_decide_eq_false in Heqb0.
Qed.

(** ** Close *)

Lemma close_steps_closed w : inv None w →
  let w' := close_step (close_step (close_step (close_step w))) in
  inv None w' ∧ later w w' ∧ state (client w') = StateClosed ∧ conn (client w') = None ∧
  (∀ id, ¬ open_at w' id).
Proof.
  intros Hi w'.
  assert (inv None w') as Hi' by (subst w'; by repeat apply inv_close_step).
  assert (later w w') as Hla.
  { subst w'. do 3 (eapply later_trans; [|apply close_step_later]). apply close_step_later. }
  assert (∀ v : World, closer (env (close_step v)) = Nat.max (closer (env v)) (Nat.min 4 (S (closer (env v))))) as Hst.
  { intros v. unfold close_step. destruct (closer (env v)) as [|[|[|[|n]]]] eqn:Hn; cbn; try done.
    all: rewrite Hn; lia. }
  assert (4 ≤ closer (env w'))%nat as H4 by (subst w'; rewrite !Hst; lia).
  pose proof Hi' as []. split_and!; [done|done| | |].
  - destruct (closer (env w')) as [|[|[|[|n]]]]; [lia..|]. apply i_phase0.
  - apply i_closed0. lia.
  - intros id Ho. destruct (i_owned0 id Ho) as [Hc|[Hc|Hc]]; [|rewrite i_closer0 in Hc by lia|]; try done.
    rewrite i_closed0 in Hc by lia. done.
Qed.

(** ** Exchanges *)

Lemma settled_inv w : settled w → inv None w.
Proof. by intros []. Qed.
Lemma settled_put w id cn cn' : settled w → get_conn w id = Some cn → c_closed cn = false →
  c_closed cn' = false → Forall arrival_bytes (c_rx cn') → settled (put_conn id cn' w).
Proof. intros [Hi Hst] ????. split; [by eapply inv_put_conn|done]. Qed.

(** An error tells what became of the session: a broken one is not ready any
    more, otherwise the session is as it was. *)
Definition honest (st : State) (failure : Error) (w : World) : Prop :=
  match Impact failure with
  | SessionBroken => state (client w) ≠ StateReady
  | SessionUnchanged => in_state st w
  end.

(** What one exchange of [request] may put on a wire: a part of its frame, and
    a frame that answers it only after all of it. *)
Definition transferred (request sent : list Z) (answer : option (list Z)) : Prop :=
  sent ≠ [] ∧ sent `prefix_of` data_frame 0x80 request ∧
  match answer with
  | None => True
  | Some frame => bytes frame ∧ sent = data_frame 0x80 request
  end.
Definition transfers (sent : list Z) (answer : option (list Z)) : list transfer :=
  (Sent <$> sent) ++ (Received <$> option_list answer).

(** The payload of an answer, unless it is longer than the PDU size [pdu]. *)
Definition payload_of (pdu : Z) (answer : option (list Z)) : option (list Z) :=
  match answer with
  | None => None
  | Some frame =>
      match UnwrapData frame with
      | Ok payload => if zlen payload >? pdu then None else Some payload
      | _ => None
      end
  end.

Lemma transferred_whole request answer : match answer with None => True | Some frame => bytes frame end →
  transferred request (data_frame 0x80 request) answer.
Proof. intros Ha. destruct answer; by repeat split. Qed.

Lemma payload_bytes pdu request sent answer payload : transferred request sent answer →
  payload_of pdu answer = Some payload → bytes payload.
Proof.
  unfold payload_of. destruct answer as [frame|]; [|done]. intros (_ & _ & Hb & _).
  destruct (UnwrapData frame) as [p|e|] eqn:Hp; [|done..]. case_if; [done|]. intros [= ->].
  apply UnwrapData_spec in Hp as (fl & _ & -> & _); [|done]. unfold data_frame in Hb. rewrite !Forall_app in Hb. tauto.
Qed.

(** The outcome of an exchange that began in state [st] with the limits [l] and
    [L] on the wires, and returned [r]: the payload of the frame that came back,
    which was one within the PDU size, or an error after which the session is
    broken if anything was sent. *)
Definition exchange_outcome (request : list Z) (l : SessionLimits) (L : list (list transfer)) (st : State)
    (r : exchanged) (w : World) : Prop :=
  settled w ∧
  match r with
  | (true, result) => ∃ id sent answer,
      transferred request sent answer ∧ wire_log w = log_append id (transfers sent answer) L ∧
      match result with
      | Ok payload => payload_of (NegotiatedPDU l) answer = Some payload ∧ bytes payload ∧
          in_state st w ∧ limits (client w) = l
      | Err e => payload_of (NegotiatedPDU l) answer = None ∧
          ∃ failure, e = EGos7 failure ∧ honest st failure w ∧ Impact failure = SessionBroken
      | Panic => False
      end
  | (false, Err e) => wire_log w = L ∧ ∃ failure, e = EGos7 failure ∧ honest st failure w
  | (false, _) => False
  end.

(** An exchange that sent something and got no payload. *)
Definition broke_after (request : list Z) (l : SessionLimits) (sent : list Z) (answer : option (list Z)) : Prop :=
  transferred request sent answer ∧ payload_of (NegotiatedPDU l) answer = None.

Lemma broken_triple kind failure request l id sent answer L st Er :
  broke_after request l sent answer → Impact failure = SessionBroken →
  triple (λ w, inv None w ∧ wire_log w = log_append id (transfers sent answer) L) (broken true kind failure)
    (exchange_outcome request l L st) Er.
Proof.
  intros [Ht Hn] Himp. unfold broken. eapply triple_bind; [apply end_session_triple; by right|].
  intros []. apply triple_ret. intros w [[Hs Hr] HL]. split; [done|]. exists id, sent, answer.
  split; [done|]. split; [done|]. split; [done|]. exists failure. unfold honest. by rewrite Himp.
Qed.

Lemma broken_unsent_triple kind failure request l L st Er : Impact failure = SessionBroken →
  triple (λ w, inv None w ∧ wire_log w = L) (broken false kind failure)
    (exchange_outcome request l L st) Er.
Proof.
  intros Himp. unfold broken. eapply triple_bind; [apply end_session_triple; by right|].
  intros []. apply triple_ret. intros w [[Hs Hr] HL]. split; [done|]. split; [done|].
  exists failure. unfold honest. by rewrite Himp.
Qed.

(** Classify a failure of the connection, then end the session. *)
Lemma classify_broken_triple sent operation l cause (Post : exchanged → World → Prop) L Er :
  (∀ failure, Impact failure = SessionBroken →
     triple (λ w, inv None w ∧ wire_log w = L) (broken sent (Kind failure) failure) Post Er) →
  triple (λ w, inv None w ∧ wire_log w = L)
    (failure ← classifyContextError operation l SessionBroken cause; broken sent (Kind failure) failure)
    Post Er.
Proof.
  intros Hb. eapply triple_bind; [apply (classify_triple (λ w, inv None w ∧ wire_log w = L)); apply _|].
  intros failure w [Hi (_ & Himp & _)]. by apply (Hb failure).
Qed.

(** A frame the TPDU size refuses is one the PDU size refuses. *)
Lemma long_frame frame l : bytes frame → NegotiatedPDU l + DataTPDUHeaderSize ≤ NegotiatedTPDU l →
  zlen frame - TPKTHeaderSize > NegotiatedTPDU l → payload_of (NegotiatedPDU l) (Some frame) = None.
Proof.
  intros Hb Hl Hz. unfold payload_of. destruct (UnwrapData frame) as [payload|e|] eqn:Hp; [|done..].
  assert (zlen frame = 7 + zlen payload) as Hf.
  { apply UnwrapData_spec in Hp as (fl & _ & -> & _); [|done]. unfold data_frame. zlia. }
  unfold TPKTHeaderSize, DataTPDUHeaderSize in *. case_if; [done|lia].
Qed.

(** A session of state [st] with the limits [l] and [L] on the wires. *)
Definition session_at (st : State) (l : SessionLimits) (L : list (list transfer)) (w : World) : Prop :=
  ((settled w ∧ in_state st w) ∧ limits (client w) = l) ∧ wire_log w = L.

#[export] Instance session_at_stable st l L : Stable (session_at st l L).
Proof. apply and_stable; apply _. Qed.
Lemma session_at_inv st l L w : session_at st l L w → inv None w ∧ wire_log w = L.
Proof. by intros [[[[? _] _] _] ?]. Qed.
Lemma session_put st l w id cn cn' : (settled w ∧ in_state st w) ∧ limits (client w) = l →
  get_conn w id = Some cn → c_closed cn = false → c_closed cn' = false → Forall arrival_bytes (c_rx cn') →
  (settled (put_conn id cn' w) ∧ in_state st (put_conn id cn' w)) ∧ limits (client (put_conn id cn' w)) = l.
Proof. intros [[Hs Hst] Hl] ????. split; [|done]. split; [by eapply settled_put|done]. Qed.

(** The checks of an answer, and what they return. *)
Lemma exchange_response_triple id cfg operation request l L st Er : config_ok cfg →
  NegotiatedPDU l + DataTPDUHeaderSize ≤ NegotiatedTPDU l →
  triple (session_at st l (log_append id (Sent <$> data_frame 0x80 request) L))
    (exchange_response id cfg l operation) (exchange_outcome request l L st) Er.
Proof.
  intros Hcfg Hlim. set (frame := data_frame 0x80 request).
  assert (frame ≠ []) as Hne by done.
  assert (∀ answer, log_append id (received answer) (log_append id (Sent <$> frame) L)
    = log_append id (transfers frame (match answer with Ok f => Some f | _ => None end)) L) as Hlog.
  { intros [f|e|]; by rewrite <-log_append_app. }
  pose proof (transferred_whole request) as Htr. fold frame in Htr.
  unfold exchange_response. eapply triple_bind.
  { apply (readFrame_triple (λ w, (settled w ∧ in_state st w) ∧ limits (client w) = l));
      [by apply config_frame|apply _|by intros w [[[? _] _] _]|]. intros. by eapply session_put. }
  intros [response|err|]; cbn beta; [| |by intros w (_ & Hr & _); apply Hr].
  - apply triple_pre with (λ w, bytes response ∧ session_at st l (log_append id (transfers frame (Some response)) L) w).
    2: { intros w (Hw & _ & HL & Hf). rewrite Hlog in HL. by destruct (Hf response eq_refl) as [Hb _]. }
    apply triple_pure. intros Hb.
    assert (payload_of (NegotiatedPDU l) (Some response) = None → ∀ kind op cause,
      triple (session_at st l (log_append id (transfers frame (Some response)) L))
        (broken true kind (protocolError op cause)) (exchange_outcome request l L st) Er) as Hbroken.
    { intros Hp kind op cause. eapply triple_pre; [|apply session_at_inv]. apply broken_triple; [|done].
      split; [exact (Htr (Some response) Hb)|done]. }
    destruct (zlen response - TPKTHeaderSize >? NegotiatedTPDU l) eqn:Hlong; [apply Hbroken, long_frame; [done..|lia]|].
    unfold payload_of in Hbroken. destruct (UnwrapData response) as [payload|err|] eqn:Hp; [|by apply Hbroken|].
    2: by destruct (proj2 (isotcp_parsers_never_panic response 0 0 0 Hb)).
    destruct (zlen payload >? NegotiatedPDU l) eqn:Hz; [by apply Hbroken|].
    apply (triple_bind _ _ (λ _, session_at st l (log_append id (transfers frame (Some response)) L))).
    { apply triple_atomically; [apply _|]. intros w [[[[Hi Hs] Hst] Hl] HL]. split; [|done]. split; [|done].
      split; [|done]. split; [by destruct Hi|done]. }
    intros []. apply triple_ret. intros w [[[Hs Hst] Hl] HL]. split; [done|]. exists id, frame, (Some response).
    assert (payload_of (NegotiatedPDU l) (Some response) = Some payload) as Hpl by (unfold payload_of; by rewrite Hp, Hz).
    split; [by apply Htr|]. split; [done|]. split; [done|]. split; [|done].
    eapply payload_bytes; [by apply (Htr (Some response))|done].
  - apply triple_pre with (λ w, inv None w ∧ wire_log w = log_append id (transfers frame None) L).
    2: { intros w (Hw & _ & HL & _). rewrite Hlog in HL. split; [by destruct Hw as [[[? _] _] _]|done]. }
    apply classify_broken_triple. intros failure Himp. apply broken_triple; [|done]. split; [by apply Htr|done].
Qed.

(** The request goes out, at least in part, and the answer comes in. *)
Lemma exchange_send_triple id cfg operation request l L st Er : config_ok cfg →
  NegotiatedPDU l + DataTPDUHeaderSize ≤ NegotiatedTPDU l →
  triple (session_at st l L)
    ('(written, err) ← writeFull id (data_frame 0x80 request);
     match err with
     | Some err =>
         failure ← classifyContextError (operation +:+ ".write") (exchange_level cfg) SessionBroken err;
         broken (written >? 0) (Kind failure) failure
     | None => exchange_response id cfg l operation
     end) (exchange_outcome request l L st) Er.
Proof.
  intros Hcfg Hlim. eapply triple_bind.
  { apply (writeFull_triple (λ w, (settled w ∧ in_state st w) ∧ limits (client w) = l) id _ L);
      [apply _|by intros w [[[? _] _] _]|]. intros. by eapply session_put. }
  intros [n [err|]]; cbn [fst snd].
  - intros w ([[[Hi _] _] _] & Hn & _ & HL).
    destruct (n >? 0) eqn:Hz.
    + assert (log_append id (Sent <$> take (Z.to_nat n) (data_frame 0x80 request)) L
        = log_append id (transfers (take (Z.to_nat n) (data_frame 0x80 request)) None) L) as HL'
        by (unfold transfers; cbn [option_list fmap list_fmap]; by rewrite app_nil_r).
      rewrite HL' in HL. apply (classify_broken_triple true _ _ err (exchange_outcome request l L st)
        (log_append id (transfers (take (Z.to_nat n) (data_frame 0x80 request)) None) L) Er); [|by split].
      intros failure Himp. apply broken_triple; [|done]. split; [|done]. split; [|split; [apply prefix_take|done]].
      intros Ht. apply (f_equal length) in Ht. rewrite length_take in Ht. unfold zlen in Hn. cbn in Ht, Hn. lia.
    + assert (n = 0) as -> by lia. rewrite log_append_nil in HL.
      apply (classify_broken_triple false _ _ err (exchange_outcome request l L st) L Er); [|by split].
      intros failure Himp. by apply broken_unsent_triple.
  - intros w (Hs & Hn & He & HL). specialize (He eq_refl). rewrite He in HL.
    unfold zlen in HL. rewrite Nat2Z.id, firstn_all in HL. by apply exchange_response_triple.
Qed.

(** What an exchange finds when it looks at the client. *)
Lemma exchange_client_triple st l L Er :
  triple (session_at st l L) (get (λ c, (config c, conn c, state c, limits c, limitsValid c)))
    (λ r w, (config_ok r.1.1.1.1 ∧ r.1.2 = l ∧
             (r.1.1.2 = StateReady → NegotiatedPDU l + DataTPDUHeaderSize ≤ NegotiatedTPDU l)) ∧
            session_at st l L w) Er.
Proof.
  apply triple_atomically; [apply _|]. intros w Hw. cbn [fst snd]. pose proof Hw as [[[[Hi _] _] Hl] _].
  split; [|done]. split; [apply (i_config _ _ Hi)|]. split; [done|]. intros Hr.
  destruct (i_ready _ _ Hi Hr) as (_ & _ & Hok). rewrite Hl in Hok. apply Hok.
Qed.

Lemma exchange_triple operation request l L st Er :
  triple (session_at st l L) (exchange operation request) (exchange_outcome request l L st) Er.
Proof.
  assert (∀ (e : Error) w, Impact e = SessionUnchanged → session_at st l L w →
    exchange_outcome request l L st (false, fails e) w) as Hunchanged.
  { intros e w He [[[Hs Hst] Hl] HL]. split; [done|]. split; [done|]. exists e. unfold honest. by rewrite He. }
  assert (∀ e : Error, Impact e = SessionUnchanged →
    triple (session_at st l L) (mret (false, fails e)) (exchange_outcome request l L st) Er) as Hnot.
  { intros e He. apply triple_ret. intros w Hw. by apply Hunchanged. }
  unfold exchange. eapply triple_bind; [apply (ctxErr_triple (session_at st l L)); apply _|]. intros [v|]; cbn beta.
  { eapply triple_bind; [apply (classify_triple (session_at st l L)); apply _|]. intros failure. cbn beta.
    apply triple_ret. intros w [Hw (_ & Himp & _)]. by apply Hunchanged. }
  apply (triple_bind _ _ (λ _, session_at st l L)).
  { intros w [[[[Hi Hs] Hst] Hl] HL]. split; [|done]. split; [|done]. split; [|done]. split; [by apply inv_derive|done]. }
  intros []. eapply triple_bind; [apply exchange_client_triple|].
  intros [[[[cfg connection] st'] lim] valid]. cbn [fst snd]. apply triple_pure. intros (Hcfg & -> & Hlim).
  assert (Impact (stateError operation st') = SessionUnchanged) as Hse
    by (unfold stateError; by case_if).
  destruct connection as [id|]; [|by apply Hnot].
  destruct (negb (bool_decide (st' = StateReady)) || negb valid) eqn:Hready; [by apply Hnot|].
  apply orb_false_iff in Hready as [Hready%negb_false_iff%bool_decide_eq_true _]. specialize (Hlim Hready).
  case_if; [by apply Hnot|]. rewrite WrapData_spec.
  destruct (decide (DataHeaderSize + zlen request ≤ maxTPKTLength)) as [Hlen|]; [|by apply Hnot].
  case_if; [by apply Hnot|]. eapply triple_bind.
  { apply (setDeadline_triple (session_at st l L)); [apply _|by intros w Hw; apply session_at_inv in Hw as []|].
    intros w c c' [Hs HL] Hc Hcl Hcl' Hrx Hwi. split; [|by rewrite (wire_log_same w id c c')].
    eapply session_put; [done..|]. rewrite Hrx. by eapply inv_rx; [apply Hs|]. }
  intros [err|].
  - eapply triple_pre; [by apply broken_unsent_triple|apply session_at_inv].
  - by apply exchange_send_triple.
Qed.
End proofs.

(** ** The requests of an operation *)

(** One request of an operation, as the wire shows it: the part of the
    operation it is for, its reference, the PDU size of the session, what was
    sent on a connection, and the frame that came back. *)
Record attempt {B : Type} := mkAttempt {
  a_batch : list B;
  a_reference : Z;
  a_pdu : Z;
  a_conn : nat;
  a_sent : list Z;
  a_answer : option (list Z);
}.
Arguments attempt : clear implicits.

Section attempts.
Context {B : Type}.
Implicit Type trace : list (attempt B).

(** What is on the wires after a sequence of requests. *)
Definition wire_after trace (L : list (list transfer)) : list (list transfer) :=
  foldl (λ L a, log_append (a_conn a) (transfers (a_sent a) (a_answer a)) L) L trace.

Lemma wire_after_snoc trace a L :
  wire_after (trace ++ [a]) L = log_append (a_conn a) (transfers (a_sent a) (a_answer a)) (wire_after trace L).
Proof. unfold wire_after. by rewrite foldl_app. Qed.

Lemma wire_after_app t1 t2 L : wire_after (t1 ++ t2) L = wire_after t2 (wire_after t1 L).
Proof. unfold wire_after. by rewrite foldl_app. Qed.

(** They were all sent on a session with the limits [l]. *)
Definition in_limits (l : SessionLimits) trace : Prop := Forall (λ a, a_pdu a = NegotiatedPDU l) trace.

Lemma in_limits_snoc l trace a : in_limits l trace → a_pdu a = NegotiatedPDU l → in_limits l (trace ++ [a]).
Proof. intros. apply Forall_app. split; [done|]. by constructor. Qed.
End attempts.
