(* ===== verification/DataPlane.v ===== *)
(** * DataPlane: Read, Write, ReadArea and WriteArea (client.go)

    The logical operations over one session.  Results are lists in input
    order.  The [Data] of a read result may share the caller's destination
    array, see [Item.view].  Nil clients and nil contexts are refused by the
    first lines of every operation; in the model both are always present. *)

From S2P Require Import Errors Protocol IsoTCP Config Item Planner Session.

(** ** Marking results *)

Definition makeReadFailureResults (count : nat) (err : error) : list ReadResult :=
  replicate count (mkReadResult nil_view (Some err)).

(** [results[i].Data[:n]] *)
Definition reslice {E} (v : view) (n : Z) : outcome E view :=
  if (0 <=? n) && (n <=? zlen (array v)) then Ok (mkView (array v) n) else Panic.

(** [copy(v[off:], src)] *)
Definition copy_view {E} (v : view) (off : Z) (src : list Z) : outcome E view :=
  if (0 <=? off) && (off <=? shown v)
  then Ok (mkView (copy_at (visible v) off src ++ drop (Z.to_nat (shown v)) (array v)) (shown v))
  else Panic.

Definition set_read_error (err : error) (r : ReadResult) : ReadResult :=
  match RErr r with
  | None => mkReadResult (RData r) (Some err)
  | Some _ => r
  end.

(** [markReadIncomplete]; the progress of an item is a sum of lengths, so
    never negative. *)
Fixpoint markReadIncomplete (results : list ReadResult) (progress lengths : list Z) (err : error)
    : list ReadResult :=
  match results with
  | [] => []
  | r :: results =>
      let r :=
        match head progress, head lengths with
        | Some p, Some l => if p <? l then set_read_error err r else r
        | _, _ => r
        end in
      let r :=
        match head progress with
        | Some p => if p <=? shown (RData r)
                    then mkReadResult (mkView (array (RData r)) p) (RErr r) else r
        | None => r
        end in
      r :: markReadIncomplete results (tail progress) (tail lengths) err
  end.

Definition makeWriteFailureResults (count : nat) (err : error) : list WriteResult :=
  replicate count (mkWriteResult WriteNotAttempted (Some err)).

Definition markUnattemptedWrites (results : list WriteResult) (err : error) : list WriteResult :=
  (λ r, if bool_decide (Outcome r = WriteNotAttempted) && bool_decide (WErr r = None)
        then mkWriteResult (Outcome r) (Some err) else r) <$> results.

(** [for index := range results { results[index].Err = err }] *)
Definition fail_all_writes (results : list WriteResult) (err : error) : list WriteResult :=
  (λ r, mkWriteResult (Outcome r) (Some err)) <$> results.

Fixpoint firstWriteError (results : list WriteResult) : error :=
  match results with
  | [] => EGos7 (newError "write_area" ErrorPLC SessionUnchanged None)
  | r :: results => match WErr r with Some e => e | None => firstWriteError results end
  end.

(** [results[i] = r] *)
Definition set_result {E A} (results : list A) (i : Z) (r : A) : outcome E (list A) :=
  if in_bounds results i then Ok (<[Z.to_nat i := r]> results) else Panic.

(** ** The bookkeeping of a read *)

(** The loop that gives every result its buffer. *)
Fixpoint assignData (index : Z) (lengths : list Z) (destinations : option (list (list Z)))
    (results : list ReadResult) : result (list ReadResult * option error) :=
  match lengths, results with
  | length :: lengths, r :: results =>
      match destinations with
      | None =>
          '(rest, err) ← assignData (index + 1) lengths None results;
          Ok (mkReadResult (view_of (make length)) (RErr r) :: rest, err)
      | Some [] => Panic
      | Some (d :: ds) =>
          if negb (zlen d =? length)
          then Ok (r :: results, Some (EGos7 (invariantError "read.destination"
                 (EText ("destination " +:+ dec index +:+ " length mismatch")))))
          else
            '(rest, err) ← assignData (index + 1) lengths (Some ds) results;
            Ok (mkReadResult (view_of d) (RErr r) :: rest, err)
      end
  | _, results => Ok (results, None)
  end.

(** One wire result of a batch. *)
Definition applyReadResult (fragment : readFragment) (wireResult : Protocol.ItemResult)
    (results : list ReadResult) (progress : list Z) : result (list ReadResult * list Z) :=
  r ← elem results (original fragment);
  if negb (Protocol.ReturnCode wireResult =? 0xff) then
    results ← set_result results (original fragment)
      (set_read_error (EGos7 (plcItemError "read.item" (Protocol.ReturnCode wireResult))) r);
    Ok (results, progress)
  else
    p ← elem progress (original fragment);
    if bool_decide (RErr r ≠ None) || negb (offset fragment =? p) then Ok (results, progress)
    else
      data ← copy_view (RData r) (offset fragment) (Protocol.Data wireResult);
      results ← set_result results (original fragment) (mkReadResult data (RErr r));
      progress ← set_result progress (original fragment) (p + zlen (Protocol.Data wireResult));
      Ok (results, progress).

Fixpoint applyReadResults (batch : list readFragment) (wireResults : list Protocol.ItemResult)
    (results : list ReadResult) (progress : list Z) : result (list ReadResult * list Z) :=
  match wireResults, batch with
  | [], _ => Ok (results, progress)
  | _ :: _, [] => Panic
  | wireResult :: wireResults, fragment :: batch =>
      '(results, progress) ← applyReadResult fragment wireResult results progress;
      applyReadResults batch wireResults results progress
  end.

(** [for _, fragment := range batch { if results[...].Err == nil { ... } }] *)
Fixpoint failBatch (batch : list readFragment) (err : error) (results : list ReadResult)
    : result (list ReadResult) :=
  match batch with
  | [] => Ok results
  | fragment :: batch =>
      r ← elem results (original fragment);
      results ← set_result results (original fragment) (set_read_error err r);
      failBatch batch err results
  end.

(** The final loop: incomplete items get an error and their confirmed prefix. *)
Fixpoint finishRead (results : list ReadResult) (progress lengths : list Z)
    (incompleteErr : option error) : result (list ReadResult * option error) :=
  match results with
  | [] => Ok ([], incompleteErr)
  | r :: results =>
      p ← elem progress 0;
      l ← elem lengths 0;
      if bool_decide (RErr r ≠ None) || negb (p =? l) then
        let incompleteErr :=
          match RErr r, incompleteErr with
          | None, None => Some (EGos7 (invariantError "read" (EText "incomplete logical item")))
          | _, _ => incompleteErr
          end in
        let err := match RErr r with None => incompleteErr | Some e => Some e end in
        data ← reslice (RData r) p;
        '(rest, final) ← finishRead results (tail progress) (tail lengths) incompleteErr;
        Ok (mkReadResult data err :: rest, final)
      else
        '(rest, final) ← finishRead results (tail progress) (tail lengths) incompleteErr;
        Ok (r :: rest, final)
  end.

Section dataplane.
Context {P : Type} `{Peer P}.
Local Abbreviation World := (@World P).
Local Abbreviation M := (@M P).

(** [value, err := call()]: the error is a value to the caller. *)
Definition try {A} (m : M A) : M (result A) := λ w,
  match m w with
  | (Panic, w) => (Panic, w)
  | (r, w) => (Ok r, w)
  end.

(** ** Read *)

Definition readOutcome : Type := list ReadResult * list Z * option error.

(** [markReadIncomplete(...); return results, progress, err] *)
Definition read_failure (results : list ReadResult) (progress lengths : list Z) (err : error)
    : M readOutcome :=
  mret (markReadIncomplete results progress lengths err, progress, Some err).

(** The batch loop of [readLocked].  Every turn but the last takes a
    fragment off the plan, so the fragment count plus one is enough fuel. *)
Fixpoint readLoop (fuel : nat) (pdu : Z) (lengths : list Z) (it : readFragmentIterator)
    (results : list ReadResult) (progress : list Z) : M readOutcome :=
  match fuel with
  | O => lift Panic
  | S fuel =>
    match nextReadBatch it pdu results with
    | Panic => lift Panic
    | Err batchErr => read_failure results progress lengths batchErr
    | Ok (batch, ok, it) =>
      if negb ok then
        match finishRead results progress lengths None with
        | Ok (results, err) => mret (results, progress, err)
        | _ => lift Panic
        end
      else
        err ← ctxErr Operation;
        match err with
        | Some err =>
            failure ← classifyContextError "read" Operation SessionUnchanged (EVar err);
            read_failure results progress lengths (EGos7 failure)
        | None =>
            let wireItems := item <$> batch in
            reference ← nextReference;
            match BuildReadRequest reference wireItems with
            | Panic => lift Panic
            | Err err =>
                read_failure results progress lengths (EGos7 (invariantError "read.encode" err))
            | Ok request =>
                '(_, answer) ← exchange "read" request;
                match answer with
                | Panic => lift Panic
                | Err err => read_failure results progress lengths err
                | Ok payload =>
                    match ParseReadResponse payload reference wireItems with
                    | Panic => lift Panic
                    | Err err =>
                        _ ← breakSession ErrorProtocol;
                        read_failure results progress lengths
                          (EGos7 (protocolError "read.decode" err))
                    | Ok (wireResults, globalCode) =>
                        if negb (globalCode =? 0) then
                          let failure := EGos7 (plcError "read" globalCode) in
                          match failBatch batch failure results with
                          | Ok results => read_failure results progress lengths failure
                          | _ => lift Panic
                          end
                        else
                          match applyReadResults batch wireResults results progress with
                          | Ok (results, progress) =>
                              readLoop fuel pdu lengths it results progress
                          | _ => lift Panic
                          end
                    end
                end
            end
        end
    end
  end.

Definition readLocked (items : list ReadItem) (lengths : list Z)
    (destinations : option (list (list Z))) : M readOutcome :=
  let results := replicate (length items) (mkReadResult nil_view None) in
  let progress := replicate (length items) 0 in
  let failed := read_failure results progress lengths in
  ready ← try (readyPDU "read");
  match ready with
  | Panic => lift Panic
  | Err err => failed err
  | Ok pdu =>
    match countReadFragments items lengths pdu with
    | Panic => lift Panic
    | Err err => failed err
    | Ok fragmentCount =>
      cfg ← get config;
      if fragmentCount >? MaxFragmentsPerCall (nConfig cfg)
      then failed (EGos7 (limitError "read" "fragment count exceeds max_fragments_per_call"))
      else
        err ← ctxErr Operation;
        match err with
        | Some err =>
            failure ← classifyContextError "read" Operation SessionUnchanged (EVar err);
            failed (EGos7 failure)
        | None =>
            if match destinations with
               | Some ds => negb (zlen ds =? zlen items)
               | None => false
               end
            then failed (EGos7 (invariantError "read.destination"
                   (EText "destination count does not match item count")))
            else
              match assignData 0 lengths destinations results with
              | Ok (results, Some err) => read_failure results progress lengths err
              | Ok (results, None) =>
                  readLoop (S (Z.to_nat fragmentCount)) pdu lengths
                    (new_iterator items lengths pdu) results progress
              | _ => lift Panic
              end
        end
    end
  end.

Definition Read (input : list ReadItem) : M (list ReadResult * option error) :=
  err ← ctxErr Caller;
  match err with
  | Some err =>
      failure ← classifyContextError "read" Caller SessionUnchanged (EVar err);
      mret ([], Some (EGos7 failure))
  | None =>
      cfg ← get config;
      match prepareReads (nConfig cfg) input with
      | Panic => lift Panic
      | Err err =>
          if zlen input >? MaxItemsPerCall (nConfig cfg) then mret ([], Some err)
          else mret (makeReadFailureResults (length input) err, Some err)
      | Ok (items, lengths) =>
          acquired ← try acquire;
          match acquired with
          | Panic => lift Panic
          | Err err => mret (makeReadFailureResults (length items) err, Some err)
          | Ok _ =>
              deferred release_gate (
                _ ← derive Operation;
                '(results, _, err) ← readLocked items lengths None;
                mret (results, err))
          end
      end
  end.

(** What the caller's buffer holds after a read into it: the result shares
    its array, unless the read ended before the buffer was handed over. *)
Definition written_through (dst : list Z) (r : ReadResult) : list Z :=
  if zlen (array (RData r)) =? 0 then dst else array (RData r).

(** The count, the error and the buffer afterwards. *)
Definition ReadArea (area dbNumber start : Z) (dst : list Z) : M (Z * option error * list Z) :=
  err ← ctxErr Caller;
  match err with
  | Some err =>
      failure ← classifyContextError "read_area" Caller SessionUnchanged (EVar err);
      mret (0, Some (EGos7 failure), dst)
  | None =>
      cfg ← get config;
      if zlen dst =? 0
      then mret (0, Some (EGos7 (invalidError "read_area" "destination must not be empty")), dst)
      else if (zlen dst >? MaxItemBytes (nConfig cfg)) || (zlen dst >? MaxBatchBytes (nConfig cfg))
              || (zlen dst >? MaxUint32)
      then mret (0, Some (EGos7 (limitError "read_area"
                    "destination exceeds configured or wire limits")), dst)
      else
        let item := mkReadItem (mkAddress area dbNumber start 0) TransportByte (u32 (zlen dst)) in
        match prepareReads (nConfig cfg) [item] with
        | Panic => lift Panic
        | Err err => mret (0, Some err, dst)
        | Ok (items, lengths) =>
            acquired ← try acquire;
            match acquired with
            | Panic => lift Panic
            | Err err => mret (0, Some err, dst)
            | Ok _ =>
                deferred release_gate (
                  _ ← derive Operation;
                  '(results, progress, err) ← readLocked items lengths (Some [dst]);
                  r ← lift (elem results 0);
                  p ← lift (elem progress 0);
                  let err := match err with None => RErr r | Some e => Some e end in
                  mret (p, err, written_through dst r))
            end
        end
  end.

(** ** Write *)

(** [for index, item := range items { makeProtocolItem ... }] *)
Fixpoint prepareWireWrites (index : Z) (items : list WriteItem) : result (list preparedWrite) :=
  match items with
  | [] => Ok []
  | it :: items =>
      wire ← map_err (λ err, EGos7 (invariantError "write.item" err))
               (makeProtocolItem (WAddress it) (WTransport it) (WCount it));
      rest ← prepareWireWrites (index + 1) items;
      Ok (mkPrepared index (Protocol.mkWriteItem wire (WData it)) :: rest)
  end.

(** Does some item not fit a PDU of its own? *)
Definition oversized (pdu : Z) (prepared : list preparedWrite) : bool :=
  existsb (λ it, (WriteRequestSize [wItem it] >? pdu) || (WriteResponseSize 1 >? pdu)) prepared.

(** [for _, item := range batch { results[item.original] = r }] *)
Fixpoint set_batch (batch : list preparedWrite) (r : WriteResult → WriteResult)
    (results : list WriteResult) : result (list WriteResult) :=
  match batch with
  | [] => Ok results
  | it :: batch =>
      old ← elem results (wOriginal it);
      results ← set_result results (wOriginal it) (r old);
      set_batch batch r results
  end.

(** The return codes of a batch, and whether one is a rejection. *)
Fixpoint applyReturnCodes (batch : list preparedWrite) (returnCodes : list Z)
    (results : list WriteResult) : result (list WriteResult * bool) :=
  match returnCodes, batch with
  | [], _ => Ok (results, false)
  | _ :: _, [] => Panic
  | code :: codes, it :: batch =>
      if code =? 0xff then
        results ← set_result results (wOriginal it) (mkWriteResult WriteAcknowledged None);
        applyReturnCodes batch codes results
      else
        results ← set_result results (wOriginal it)
          (mkWriteResult WriteRejected (Some (EGos7 (plcItemError "write.item" code))));
        '(results, _) ← applyReturnCodes batch codes results;
        Ok (results, true)
  end.

Definition writeOutcome : Type := list WriteResult * option error.

(** Set the results of the batch, mark the rest, return the failure. *)
Definition write_failure (results : result (list WriteResult)) (failure : error) : M writeOutcome :=
  match results with
  | Ok results => mret (markUnattemptedWrites results failure, Some failure)
  | _ => lift Panic
  end.

(** The batch loop of [writeLocked]: every turn takes at least one item. *)
Fixpoint writeLoop (fuel : nat) (pdu : Z) (stopAfterFailure : bool) (prepared : list preparedWrite)
    (next : Z) (results : list WriteResult) : M writeOutcome :=
  if negb (next <? zlen prepared) then mret (results, None)
  else
    match fuel with
    | O => lift Panic
    | S fuel =>
      match nextWriteBatch prepared next pdu stopAfterFailure with
      | Panic => lift Panic
      | Err batchErr =>
          mret ((λ r, match WErr r with
                      | None => mkWriteResult (Outcome r) (Some batchErr)
                      | Some _ => r
                      end) <$> results, Some batchErr)
      | Ok (batch, following) =>
        err ← ctxErr Operation;
        match err with
        | Some err =>
            failure ← classifyContextError "write" Operation SessionUnchanged (EVar err);
            write_failure (Ok results) (EGos7 failure)
        | None =>
            reference ← nextReference;
            match BuildWriteRequest reference (wItem <$> batch) with
            | Panic => lift Panic
            | Err err =>
                let failure := EGos7 (invariantError "write.encode" err) in
                write_failure
                  (set_batch batch (λ r, mkWriteResult (Outcome r) (Some failure)) results) failure
            | Ok request =>
                '(sent, answer) ← exchange "write" request;
                match answer with
                | Panic => lift Panic
                | Err err =>
                    write_failure
                      (set_batch batch (λ _, mkWriteResult
                         (if sent : bool then WriteUnknown else WriteNotAttempted) (Some err)) results)
                      err
                | Ok payload =>
                    match ParseWriteResponse payload reference (zlen batch) with
                    | Panic => lift Panic
                    | Err err =>
                        _ ← breakSession ErrorProtocol;
                        let failure := EGos7 (protocolError "write.decode" err) in
                        write_failure
                          (set_batch batch (λ _, mkWriteResult WriteUnknown (Some failure)) results)
                          failure
                    | Ok (returnCodes, globalCode) =>
                        if negb (globalCode =? 0) then
                          let failure := EGos7 (plcError "write" globalCode) in
                          write_failure
                            (set_batch batch (λ _, mkWriteResult WriteRejected (Some failure)) results)
                            failure
                        else
                          match applyReturnCodes batch returnCodes results with
                          | Ok (results, batchFailed) =>
                              if stopAfterFailure && batchFailed then
                                write_failure (Ok results) (firstWriteError results)
                              else writeLoop fuel pdu stopAfterFailure prepared following results
                          | _ => lift Panic
                          end
                    end
                end
            end
        end
      end
    end.

Definition writeLocked (items : list WriteItem) (stopAfterFailure : bool) : M writeOutcome :=
  let results := replicate (length items) (mkWriteResult WriteNotAttempted None) in
  let failed err := mret (fail_all_writes results err, Some err) in
  ready ← try (readyPDU "write");
  match ready with
  | Panic => lift Panic
  | Err err => failed err
  | Ok pdu =>
    err ← ctxErr Operation;
    match err with
    | Some err =>
        failure ← classifyContextError "write" Operation SessionUnchanged (EVar err);
        failed (EGos7 failure)
    | None =>
        match prepareWireWrites 0 items with
        | Panic => lift Panic
        | Err failure => failed failure
        | Ok prepared =>
            if oversized pdu prepared
            then failed (EGos7 (limitError "write" "one item exceeds negotiated PDU"))
            else writeLoop (length prepared) pdu stopAfterFailure prepared 0 results
        end
    end
  end.

Definition Write (input : list WriteItem) : M writeOutcome :=
  err ← ctxErr Caller;
  match err with
  | Some err =>
      failure ← classifyContextError "write" Caller SessionUnchanged (EVar err);
      mret ([], Some (EGos7 failure))
  | None =>
      cfg ← get config;
      match prepareWrites (nConfig cfg) input with
      | Panic => lift Panic
      | Err err =>
          if zlen input >? MaxItemsPerCall (nConfig cfg) then mret ([], Some err)
          else mret (makeWriteFailureResults (length input) err, Some err)
      | Ok items =>
          acquired ← try acquire;
          match acquired with
          | Panic => lift Panic
          | Err err => mret (makeWriteFailureResults (length items) err, Some err)
          | Ok _ => deferred release_gate (_ ← derive Operation; writeLocked items false)
          end
      end
  end.

(** The largest chunk of a WriteArea. *)
Definition area_chunk (cfg : Config) (pdu : Z) : Z :=
  let maxChunk := pdu - 28 in
  let maxChunk := if maxChunk >? Z.quot MaxUint16 8 then Z.quot MaxUint16 8 else maxChunk in
  if maxChunk >? MaxItemBytes cfg then MaxItemBytes cfg else maxChunk.

(** The chunk loop of [WriteArea], from [offset]; every chunk takes at least
    one byte and the chunk count was checked, so it is the fuel. *)
Fixpoint writeAreaLoop (fuel : nat) (cfg : Config) (area dbNumber start maxChunk : Z)
    (src : list Z) (offset confirmed : Z) : M (Z * option error) :=
  if negb (offset <? zlen src) then mret (confirmed, None)
  else
    match fuel with
    | O => lift Panic
    | S fuel =>
      let length := smallerInt maxChunk (zlen src - offset) in
      data ← lift (slice src offset (offset + length));
      match prepareWrites cfg [mkWriteItem (mkAddress area dbNumber (u32 (start + u32 offset)) 0)
                                 TransportByte (u32 length) data] with
      | Panic => lift Panic
      | Err err => mret (confirmed, Some err)
      | Ok prepared =>
          '(results, fatalErr) ← writeLocked prepared true;
          match results with
          | [r] =>
              if negb (bool_decide (Outcome r = WriteAcknowledged)) then
                mret (confirmed,
                  match fatalErr, WErr r with
                  | Some e, _ => Some e
                  | None, Some e => Some e
                  | None, None => Some (EGos7 (invariantError "write_area"
                                    (EText "single chunk was not acknowledged")))
                  end)
              else
                match fatalErr with
                | Some e => mret (confirmed, Some e)
                | None =>
                    writeAreaLoop fuel cfg area dbNumber start maxChunk src (offset + length)
                      (confirmed + length)
                end
          | _ => mret (confirmed, Some (EGos7 (invariantError "write_area"
                   (EText "single chunk returned an invalid result count"))))
          end
      end
    end.

Definition WriteArea (area dbNumber start : Z) (src : list Z) : M (Z * option error) :=
  err ← ctxErr Caller;
  match err with
  | Some err =>
      failure ← classifyContextError "write_area" Caller SessionUnchanged (EVar err);
      mret (0, Some (EGos7 failure))
  | None =>
      cfg ← get config;
      if zlen src =? 0
      then mret (0, Some (EGos7 (invalidError "write_area" "source must not be empty")))
      else if zlen src >? MaxBatchBytes (nConfig cfg)
      then mret (0, Some (EGos7 (limitError "write_area" "source exceeds max_batch_bytes")))
      else if zlen src >? MaxUint32
      then mret (0, Some (EGos7 (limitError "write_area" "source exceeds the public count field")))
      else
        match validateReadItem (mkReadItem (mkAddress area dbNumber start 0) TransportByte
                (u32 (zlen src))) (MaxBatchBytes (nConfig cfg)) with
        | Panic => lift Panic
        | Err err => mret (0, Some err)
        | Ok _ =>
            acquired ← try acquire;
            match acquired with
            | Panic => lift Panic
            | Err err => mret (0, Some err)
            | Ok _ =>
                deferred release_gate (
                  _ ← derive Operation;
                  ready ← try (readyPDU "write_area");
                  match ready with
                  | Panic => lift Panic
                  | Err err => mret (0, Some err)
                  | Ok pdu =>
                      let maxChunk := area_chunk (nConfig cfg) pdu in
                      if maxChunk <? 1
                      then mret (0, Some (EGos7 (limitError "write_area"
                             "negotiated PDU cannot carry a byte item")))
                      else
                        let itemCount := Z.quot (zlen src + maxChunk - 1) maxChunk in
                        if itemCount >? MaxFragmentsPerCall (nConfig cfg)
                        then mret (0, Some (EGos7 (limitError "write_area"
                               "chunk count exceeds max_fragments_per_call")))
                        else writeAreaLoop (Z.to_nat itemCount) (nConfig cfg) area dbNumber start
                               maxChunk src 0 0
                  end)
            end
        end
  end.
End dataplane.
