(* ===== verification/ReadProofs.v ===== *)
(** * ReadProofs: what a read leaves in the caller's results

    The bookkeeping of [readLocked] against the fragments of the plan: every
    result holds, at any time, the confirmed prefix of its item, assembled
    from the payloads of consecutive fragments.  For a session, a payload is
    what a frame of the wire log holds for the fragment that was asked for in
    the request it answers ([delivered]); the requests follow the plan
    ([follows_plan]). *)

From S2P Require Import Errors Protocol IsoTCP Config Item Planner Session SessionProofs DataPlane.

(** ** Assembled data *)

Section bookkeeping.
(** [Served f x]: the peer answered fragment [f] with the bytes [x]. *)
Context (Served : readFragment → list Z → Prop).
(** The errors an item may have so far. *)
Context (Failure : Z → error → Prop).

(** [assembled n x]: [x] is the concatenation of the answers to consecutive
    fragments of item [n], from its first byte on. *)
Inductive assembled (n : Z) : list Z → Prop :=
| as_nil : assembled n []
| as_snoc x f y :
    assembled n x → original f = n → offset f = zlen x → Served f y →
    zlen y = DataBytes (item f) → assembled n (x ++ y).

(** Result [r] of item [n] with [p] confirmed bytes; [buf] is what its buffer
    held at first. *)
Record slot (buf : list Z) (len n : Z) (r : ReadResult) (p : Z) : Prop := {
  sl_data : ∃ x, assembled n x ∧ zlen x = p ∧ array (RData r) = x ++ drop (length x) buf;
  sl_bound : p ≤ len ∧ p ≤ zlen buf;
  sl_shown : shown (RData r) = zlen buf;
  sl_error : ∀ e, RErr r = Some e → Failure n e;
}.

(** The same when the read is over: the caller sees the confirmed bytes, and
    an item without an error is complete. *)
Record item_read (buf : list Z) (len n : Z) (r : ReadResult) (p : Z) : Prop := {
  ir_data : ∃ x, assembled n x ∧ zlen x = p ∧ array (RData r) = x ++ drop (length x) buf;
  ir_bound : p ≤ len ∧ p ≤ zlen buf;
  ir_shown : shown (RData r) = p;
  ir_complete : RErr r = None → p = len;
  ir_error : ∀ e, RErr r = Some e → Failure n e;
}.

(** A property of every item, its index, its result and its progress. *)
Inductive each (Q : list Z → Z → Z → ReadResult → Z → Prop) :
    Z → list (list Z) → list Z → list ReadResult → list Z → Prop :=
| each_nil n : each Q n [] [] [] []
| each_cons n buf bufs len lens r rs p ps :
    Q buf len n r p → each Q (n + 1) bufs lens rs ps →
    each Q n (buf :: bufs) (len :: lens) (r :: rs) (p :: ps).

Lemma each_lengths Q n bufs lens rs ps : each Q n bufs lens rs ps →
  zlen rs = zlen lens ∧ zlen ps = zlen lens ∧ zlen bufs = zlen lens.
Proof. induction 1; zlia. Qed.

Lemma each_impl (Q Q' : list Z → Z → Z → ReadResult → Z → Prop) n bufs lens rs ps :
  (∀ buf len n r p, Q buf len n r p → Q' buf len n r p) →
  each Q n bufs lens rs ps → each Q' n bufs lens rs ps.
Proof. intros Hq. induction 1; constructor; auto. Qed.

Lemma each_lookup Q n bufs lens rs ps : each Q n bufs lens rs ps → ∀ k buf len r p,
  bufs !! k = Some buf → lens !! k = Some len → rs !! k = Some r → ps !! k = Some p →
  Q buf len (n + Z.of_nat k) r p.
Proof.
  induction 1 as [|n b bs l ls r0 rs0 p0 ps0 Hq _ IH]; intros [|k] buf len r p; try done; cbn.
  - intros [= ->] [= ->] [= ->] [= ->]. by rewrite Z.add_0_r.
  - intros ????. replace (n + Z.of_nat (S k)) with (n + 1 + Z.of_nat k) by lia. by eapply IH.
Qed.

(** Changing one result and its progress. *)
Lemma each_update Q n bufs lens rs ps : each Q n bufs lens rs ps → ∀ k r p r' p',
  rs !! k = Some r → ps !! k = Some p →
  (∀ buf len, bufs !! k = Some buf → lens !! k = Some len →
     Q buf len (n + Z.of_nat k) r p → Q buf len (n + Z.of_nat k) r' p') →
  each Q n bufs lens (<[k := r']> rs) (<[k := p']> ps).
Proof.
  induction 1 as [|n b bs l ls r0 rs0 p0 ps0 Hq He IH]; intros [|k] r p r' p'; try done; cbn.
  - intros [= ->] [= ->] Hf. constructor; [|done]. rewrite Z.add_0_r in Hf. auto.
  - intros Hr Hp Hf. constructor; [done|]. eapply IH; [done..|].
    replace (n + 1 + Z.of_nat k) with (n + Z.of_nat (S k)) by lia. done.
Qed.

(** ** The marking functions *)

Lemma markReadIncomplete_ok n bufs lens rs ps err : (∀ n, Failure n err) → each slot n bufs lens rs ps →
  each item_read n bufs lens (markReadIncomplete rs ps lens err) ps.
Proof.
  intros Hf. induction 1 as [|n b bs l ls r rs p ps Hs _ IH]; [constructor|].
  cbn [markReadIncomplete head tail]. constructor; [|done].
  destruct Hs as [Hd [Hl Hb] Hsh Hfail].
  assert ((p <=? shown (RData (if p <? l then set_read_error err r else r))) = true) as ->.
  { unfold set_read_error. case_if; [destruct (RErr r)|]; cbn; lia. }
  constructor; cbn [RData RErr array shown]; [|done|done| |].
  - unfold set_read_error. by destruct (p <? l), (RErr r).
  - unfold set_read_error. destruct (p <? l) eqn:?; [destruct (RErr r) eqn:Hr; cbn; congruence|lia].
  - unfold set_read_error. destruct (p <? l), (RErr r) eqn:Hr; cbn; rewrite ?Hr; naive_solver.
Qed.

Lemma set_read_error_slot buf len n r p err : Failure n err → slot buf len n r p →
  slot buf len n (set_read_error err r) p.
Proof.
  intros Hf [? ? ? He]. unfold set_read_error. destruct (RErr r) eqn:Hr.
  - constructor; try done. by rewrite Hr.
  - constructor; try done. by intros e [= <-].
Qed.

(** ** Tracking the plan *)

Definition of_item (n : Z) (fs : list readFragment) : list readFragment :=
  filter (λ f, original f = n) fs.

(** The loop state against the fragments [fs] still ahead: the fragments of
    an item without an error continue exactly where its progress ends. *)
Record tracking (its : list ReadItem) (bufs : list (list Z)) (lens : list Z)
    (rs : list ReadResult) (ps : list Z) (fs : list readFragment) : Prop := {
  tr_each : each slot 0 bufs lens rs ps;
  tr_ahead : ∀ k i len r p, its !! k = Some i → lens !! k = Some len → rs !! k = Some r →
    ps !! k = Some p → RErr r = None → covers (Z.of_nat k) i len p (of_item (Z.of_nat k) fs);
}.

(** Failed items do not count. *)
Lemma of_item_live n failed fs : failed n = false → of_item n (live failed fs) = of_item n fs.
Proof.
  intros Hn. unfold of_item, live. rewrite list_filter_filter_l; [done|].
  intros f ->. done.
Qed.

Lemma tracking_live its bufs lens rs ps fs :
  tracking its bufs lens rs ps fs → tracking its bufs lens rs ps (live (has_failed rs) fs).
Proof.
  intros [He Ha]. constructor; [done|]. intros k i len r p Hi Hl Hr Hp Herr.
  rewrite of_item_live; [by eapply Ha|]. unfold has_failed. by rewrite Nat2Z.id, Hr, Herr.
Qed.

Lemma tracking_unlive its bufs lens rs ps fs rs0 :
  (∀ n, has_failed rs0 n = true → has_failed rs n = true) →
  tracking its bufs lens rs ps (live (has_failed rs0) fs) → tracking its bufs lens rs ps fs.
Proof.
  intros Hmono [He Ha]. constructor; [done|]. intros k i len r p Hi Hl Hr Hp Herr.
  specialize (Ha k i len r p Hi Hl Hr Hp Herr). rewrite of_item_live in Ha; [done|].
  destruct (has_failed rs0 (Z.of_nat k)) eqn:Hf; [|done].
  apply Hmono in Hf. unfold has_failed in Hf. by rewrite Nat2Z.id, Hr, Herr in Hf.
Qed.

Lemma tracking_fail its bufs lens rs ps f fs r err : Failure (original f) err → 0 ≤ original f →
  rs !! Z.to_nat (original f) = Some r → tracking its bufs lens rs ps (f :: fs) →
  tracking its bufs lens (<[Z.to_nat (original f) := set_read_error err r]> rs) ps fs.
Proof.
  intros Herror Hf Hr [He Ha]. pose proof (each_lengths _ _ _ _ _ _ He) as (Hlr & Hlp & _).
  constructor.
  - destruct (lookup_lt_is_Some_2 ps (Z.to_nat (original f))) as [p Hp].
    { apply lookup_lt_Some in Hr. unfold zlen in *. lia. }
    rewrite <-(list_insert_id ps _ p Hp). eapply each_update; [done..|].
    intros buf len _ _. apply set_read_error_slot. by replace (0 + Z.of_nat (Z.to_nat (original f))) with (original f) by lia.
  - intros k i len r' p Hi Hl Hr' Hp Herr. destruct (decide (k = Z.to_nat (original f))) as [->|Hne].
    + rewrite list_lookup_insert_eq in Hr' by (by eapply lookup_lt_Some).
      injection Hr' as <-. unfold set_read_error in Herr. by destruct (RErr r) eqn:E; cbn in Herr; rewrite ?E in Herr.
    + rewrite list_lookup_insert_ne in Hr' by done. specialize (Ha k i len r' p Hi Hl Hr' Hp Herr).
      unfold of_item in *. rewrite filter_cons_False in Ha; [done|]. lia.
Qed.

(** A fragment of an item that already failed. *)
Lemma tracking_skip its bufs lens rs ps f fs r :
  rs !! Z.to_nat (original f) = Some r → RErr r ≠ None →
  tracking its bufs lens rs ps (f :: fs) → tracking its bufs lens rs ps fs.
Proof.
  intros Hr Herr [He Ha]. constructor; [done|]. intros k i len r' p Hi Hl Hr' Hp Herr'.
  specialize (Ha k i len r' p Hi Hl Hr' Hp Herr'). unfold of_item in *.
  rewrite filter_cons_False in Ha; [done|]. intros Hk. rewrite Hk, Nat2Z.id in Hr. congruence.
Qed.

(** What the buffer of a slot holds after its next fragment. *)
Lemma slot_copy buf len n r p f y :
  slot buf len n r p → original f = n → offset f = p → Served f y → zlen y = DataBytes (item f) →
  p + zlen y ≤ len → len = zlen buf →
  ∃ v, copy_view (E:=error) (RData r) (offset f) y = Ok v ∧
       slot buf len n (mkReadResult v (RErr r)) (p + zlen y).
Proof.
  intros [(x & Hx & Hxp & Ha) Hb Hsh Herr] Hn Ho Hy Hyl Hle Hlen. subst p.
  unfold copy_view. rewrite Ho. pose proof (zlen_nonneg x). pose proof (zlen_nonneg y).
  assert ((0 <=? zlen x) && (zlen x <=? shown (RData r)) = true) as -> by lia.
  eexists. split; [done|]. constructor; cbn [RData RErr array shown]; [|lia|done|done].
  exists (x ++ y). split; [eapply as_snoc; [done..|by rewrite Ho|done|done]|]. split; [zlia|].
  unfold visible. rewrite sub_0, Ha, Hsh.
  assert (take (Z.to_nat (zlen buf)) (x ++ drop (length x) buf) = x ++ drop (length x) buf) as ->.
  { apply take_ge. rewrite length_app, length_drop. unfold zlen in *. lia. }
  rewrite (drop_ge (x ++ _)) by (rewrite length_app, length_drop; unfold zlen in *; lia).
  rewrite app_nil_r. unfold copy_at.
  assert (zlen (x ++ drop (length x) buf) = zlen buf) as ->.
  { unfold zlen in *. rewrite length_app, length_drop. lia. }
  rewrite Z.min_l by lia.
  assert (Z.to_nat (zlen x) = length x) as -> by (unfold zlen; lia).
  assert (Z.to_nat (zlen y) = length y) as -> by (unfold zlen; lia).
  rewrite take_app_length, firstn_all, <-app_assoc. do 2 f_equal.
  rewrite drop_app_ge by lia. rewrite drop_drop, length_app. f_equal. lia.
Qed.

Definition fails_more (rs rs' : list ReadResult) : Prop :=
  ∀ n, has_failed rs n = true → has_failed rs' n = true.

Lemma fails_more_insert rs k r r' : rs !! k = Some r → (RErr r' = None → RErr r = None) →
  fails_more rs (<[k := r']> rs).
Proof.
  intros Hr Herr n. unfold has_failed. destruct (decide (k = Z.to_nat n)) as [->|].
  - rewrite Hr, list_lookup_insert_eq by (by eapply lookup_lt_Some).
    rewrite !bool_decide_eq_true. tauto.
  - by rewrite list_lookup_insert_ne.
Qed.

(** The return codes with which the peer may refuse an item. *)
Context (Refused : readFragment → Z → Prop).

(** What the decoder guarantees of an accepted result for a fragment. *)
Definition wire_ok (f : readFragment) (x : Protocol.ItemResult) : Prop :=
  if ReturnCode x =? 0xff then zlen (Protocol.Data x) = DataBytes (item f) ∧ Served f (Protocol.Data x)
  else Refused f (ReturnCode x).

Lemma set_result_Ok {E A} (l : list A) i x : 0 ≤ i < zlen l →
  set_result (E:=E) l i x = Ok (<[Z.to_nat i := x]> l).
Proof. intros Hi. unfold set_result. by rewrite (proj2 (in_bounds_true l i) Hi). Qed.

(** The slots of an item exist. *)
Lemma tracking_lookup its bufs lens rs ps fs n : zlen lens = zlen its → 0 ≤ n < zlen its →
  tracking its bufs lens rs ps fs →
  ∃ i len buf r p, its !! Z.to_nat n = Some i ∧ lens !! Z.to_nat n = Some len ∧
    bufs !! Z.to_nat n = Some buf ∧ rs !! Z.to_nat n = Some r ∧ ps !! Z.to_nat n = Some p ∧
    slot buf len n r p.
Proof.
  intros Hl Hn [He _]. pose proof (each_lengths _ _ _ _ _ _ He) as (Hlr & Hlp & Hlb).
  unfold zlen in *.
  destruct (lookup_lt_is_Some_2 its (Z.to_nat n)) as [i Hi]; [lia|].
  destruct (lookup_lt_is_Some_2 lens (Z.to_nat n)) as [len Hle]; [lia|].
  destruct (lookup_lt_is_Some_2 bufs (Z.to_nat n)) as [buf Hb]; [lia|].
  destruct (lookup_lt_is_Some_2 rs (Z.to_nat n)) as [r Hr]; [lia|].
  destruct (lookup_lt_is_Some_2 ps (Z.to_nat n)) as [p Hp]; [lia|].
  exists i, len, buf, r, p. split_and!; [done..|].
  pose proof (each_lookup _ _ _ _ _ _ He _ _ _ _ _ Hb Hle Hr Hp) as Hs.
  by replace (0 + Z.of_nat (Z.to_nat n)) with n in Hs by lia.
Qed.

Context (plc_failure : ∀ f code, code ≠ 0xff → Refused f code →
  Failure (original f) (EGos7 (plcItemError "read.item" code))).

Lemma applyReadResult_ok its bufs lens rs ps f fs x :
  zlen lens = zlen its → Forall2 (λ buf len, len = zlen buf) bufs lens →
  0 ≤ original f < zlen its → wire_ok f x → tracking its bufs lens rs ps (f :: fs) →
  ∃ rs' ps', applyReadResult f x rs ps = Ok (rs', ps') ∧ tracking its bufs lens rs' ps' fs ∧
    fails_more rs rs'.
Proof.
  intros Hl Hbufs Hf Hx Ht.
  destruct (tracking_lookup _ _ _ _ _ _ (original f) Hl Hf Ht)
    as (i & len & buf & r & p & Hi & Hlen & Hbuf & Hr & Hp & Hslot).
  pose proof Ht as [He Ha]. pose proof (each_lengths _ _ _ _ _ _ He) as (Hlr & Hlp & _).
  unfold applyReadResult. rewrite (elem_Some rs _ r) by (done || lia). cbn [mbind outcome_bind].
  unfold wire_ok in Hx. destruct (ReturnCode x =? 0xff) eqn:Hcode; cbn [negb].
  2: { rewrite set_result_Ok by lia. cbn [mbind outcome_bind]. do 2 eexists. split; [done|].
       split; [apply tracking_fail; [apply plc_failure; [lia|done]|lia|done..]|].
       eapply fails_more_insert; [done|]. unfold set_read_error. destruct (RErr r) eqn:E; cbn; congruence. }
  rewrite (elem_Some ps _ p) by (done || lia). cbn [mbind outcome_bind].
  destruct (RErr r) as [e|] eqn:Herr.
  { cbn [bool_decide negb orb]. rewrite bool_decide_true by done. cbn [orb].
    do 2 eexists. split; [done|]. split; [|by intros n]. eapply tracking_skip; [done| |done]. congruence. }
  rewrite bool_decide_false by (by intros []). cbn [orb].
  pose proof (Ha _ _ _ _ _ Hi Hlen Hr Hp Herr) as Hc. unfold of_item in Hc.
  rewrite filter_cons_True in Hc by lia. inversion_clear Hc as [|? ? ? ? Hn Ho Hpos Hit Hvi Hrest].
  rewrite Ho, Z.eqb_refl. cbn [negb].
  destruct Hx as [Hxl Hxs].
  assert (p + zlen (Protocol.Data x) ≤ len) as Hle.
  { rewrite Hxl. clear -Hrest. remember (p + DataBytes (item f)) as q. clear Heqq.
    induction Hrest; lia. }
  assert (len = zlen buf) as Hlb.
  { rewrite Forall2_lookup in Hbufs. specialize (Hbufs (Z.to_nat (original f))).
    rewrite Hbuf, Hlen in Hbufs. by inversion Hbufs. }
  destruct (slot_copy buf len (original f) r p f (Protocol.Data x)) as (v & Hv & Hslot'); [done..|].
  rewrite Ho in Hv. rewrite Hv. cbn [mbind outcome_bind].
  rewrite set_result_Ok by lia. cbn [mbind outcome_bind].
  rewrite set_result_Ok by lia. cbn [mbind outcome_bind].
  do 2 eexists. split; [done|]. split.
  - constructor.
    + eapply each_update; [done..|]. intros buf' len' Hb' Hl' _.
      replace (0 + Z.of_nat (Z.to_nat (original f))) with (original f) by lia.
      rewrite Hbuf in Hb'. rewrite Hlen in Hl'. simplify_eq. by rewrite <-Herr.
    + intros k i' len' r' p' Hi' Hl' Hr' Hp' Herr'. destruct (decide (k = Z.to_nat (original f))) as [->|Hne].
      * rewrite list_lookup_insert_eq in Hr' by (by eapply lookup_lt_Some).
        rewrite list_lookup_insert_eq in Hp' by (by eapply lookup_lt_Some).
        rewrite Hi in Hi'. rewrite Hlen in Hl'. injection Hi' as <-. injection Hl' as <-.
        injection Hp' as <-. rewrite Hxl. exact Hrest.
      * rewrite list_lookup_insert_ne in Hr' by done. rewrite list_lookup_insert_ne in Hp' by done.
        specialize (Ha k i' len' r' p' Hi' Hl' Hr' Hp' Herr'). unfold of_item in *.
        rewrite filter_cons_False in Ha; [done|]. lia.
  - eapply fails_more_insert; [done|]. done.
Qed.

Lemma applyReadResults_ok its bufs lens fs : zlen lens = zlen its →
  Forall2 (λ buf len, len = zlen buf) bufs lens → ∀ batch xs rs ps,
  Forall2 wire_ok batch xs → Forall (λ f, 0 ≤ original f < zlen its) batch →
  tracking its bufs lens rs ps (batch ++ fs) →
  ∃ rs' ps', applyReadResults batch xs rs ps = Ok (rs', ps') ∧ tracking its bufs lens rs' ps' fs ∧
    fails_more rs rs'.
Proof.
  intros Hl Hbufs batch xs rs ps Hx. revert rs ps.
  induction Hx as [|f x batch xs Hfx _ IH]; intros rs ps Hb Ht; cbn [applyReadResults app] in *.
  { exists rs, ps. split; [done|]. split; [done|by intros n]. }
  inversion_clear Hb as [|? ? Hf Hb'].
  destruct (applyReadResult_ok its bufs lens rs ps f (batch ++ fs) x) as (rs1 & ps1 & -> & Ht1 & Hm1); [done..|].
  cbn [mbind outcome_bind]. destruct (IH rs1 ps1 Hb' Ht1) as (rs2 & ps2 & -> & Ht2 & Hm2).
  exists rs2, ps2. split; [done|]. split; [done|]. intros n Hn. by apply Hm2, Hm1.
Qed.

Lemma failBatch_ok bufs lens ps err batch : (∀ n, Failure n err) → ∀ rs, each slot 0 bufs lens rs ps →
  Forall (λ f, 0 ≤ original f < zlen lens) batch →
  ∃ rs', failBatch batch err rs = Ok rs' ∧ each slot 0 bufs lens rs' ps.
Proof.
  intros Herror. induction batch as [|f batch IH]; intros rs He Hb; cbn [failBatch]; [by exists rs|].
  inversion_clear Hb as [|? ? Hf Hb']. pose proof (each_lengths _ _ _ _ _ _ He) as (Hlr & Hlp & _).
  unfold zlen in *.
  destruct (lookup_lt_is_Some_2 rs (Z.to_nat (original f))) as [r Hr]; [lia|].
  destruct (lookup_lt_is_Some_2 ps (Z.to_nat (original f))) as [p Hp]; [lia|].
  rewrite (elem_Some rs _ r) by (done || lia). cbn [mbind outcome_bind].
  rewrite set_result_Ok by (unfold zlen; lia). cbn [mbind outcome_bind].
  apply IH; [|done]. rewrite <-(list_insert_id ps _ p Hp). eapply each_update; [done..|].
  intros buf len _ _. by apply set_read_error_slot.
Qed.

Lemma finishRead_ok n bufs lens rs ps :
  each (λ buf len n r p, slot buf len n r p ∧ (RErr r = None → p = len ∧ p = zlen buf)) n bufs lens rs ps →
  ∃ rs', finishRead rs ps lens None = Ok (rs', None) ∧ each item_read n bufs lens rs' ps.
Proof.
  induction 1 as [|n b bs l ls r rs p ps [Hs Herr] _ (rs' & Hrs' & IH)]; [by eexists; split; [|constructor]|].
  cbn [finishRead]. rewrite (elem_Some (p :: ps) 0 p) by done. rewrite (elem_Some (l :: ls) 0 l) by done.
  cbn [mbind outcome_bind tail]. destruct Hs as [Hd [Hl Hb] Hsh Hfail].
  destruct (RErr r) as [e|] eqn:Hr; [|destruct (Herr eq_refl) as [-> Hlb]].
  - rewrite bool_decide_true by done. cbn [orb]. 
    assert (∃ data, reslice (E:=error) (RData r) p = Ok data ∧ array data = array (RData r) ∧ shown data = p)
      as (data & -> & Ha & Hs).
    { destruct Hd as (x & _ & Hx & Ha). unfold reslice. rewrite Ha.
      assert ((0 <=? p) && (p <=? zlen (x ++ drop (length x) b)) = true) as ->.
      { clear Herr. unfold zlen in *. rewrite length_app, length_drop, andb_true_iff, !Z.leb_le. lia. }
      eexists. split; [done|]. done. }
    cbn [mbind outcome_bind]. rewrite Hrs'. cbn [mbind outcome_bind].
    eexists. split; [done|]. constructor; [|done].
    constructor; cbn; [by rewrite Ha|done|done|done|]. intros e' [= <-]. by apply Hfail.
  - rewrite bool_decide_false by (by intros []). rewrite Z.eqb_refl. cbn [orb negb].
    rewrite Hrs'. cbn [mbind outcome_bind]. eexists. split; [done|]. constructor; [|done].
    constructor; [done|done|lia|done|by rewrite Hr].
Qed.

(** ** The state before the first batch *)

Definition nothing_read : ReadResult := mkReadResult nil_view None.

Lemma nothing_read_slots lens n : Forall (λ len, 0 ≤ len) lens →
  each slot n (replicate (length lens) []) lens (replicate (length lens) nothing_read)
    (replicate (length lens) 0).
Proof.
  intros Hl. revert n. induction Hl as [|len lens Hl _ IH]; intros n; cbn; constructor; [|done].
  constructor; cbn; [|by split|done|done]. exists []. split; [constructor|done].
Qed.

Definition fresh_results (bufs : list (list Z)) : list ReadResult :=
  (λ b, mkReadResult (view_of b) None) <$> bufs.

Lemma fresh_slots bufs lens : Forall2 (λ buf len, len = zlen buf) bufs lens →
  ∀ n, each slot n bufs lens (fresh_results bufs) (replicate (length lens) 0).
Proof.
  induction 1 as [|b len bufs lens -> _ IH]; intros n; cbn; constructor; [|done].
  pose proof (zlen_nonneg b). constructor; cbn; [|lia|done|done]. exists []. split; [constructor|done].
Qed.

Lemma assignData_ok bufs lens destinations :
  Forall2 (λ buf len, len = zlen buf) bufs lens →
  match destinations with
  | None => bufs = make <$> lens
  | Some ds => bufs = ds
  end → ∀ n,
  assignData n lens destinations (replicate (length lens) nothing_read)
  = Ok (fresh_results bufs, None).
Proof.
  intros Hb. revert destinations. induction Hb as [|b len bufs lens Hlen _ IH]; intros ds Hd n; [done|].
  cbn [assignData replicate length]. destruct ds as [ds|].
  - subst ds. rewrite <-Hlen, Z.eqb_refl. cbn [negb]. rewrite (IH (Some bufs)) by done. done.
  - cbn in Hd. injection Hd as -> ->. by rewrite (IH None).
Qed.

Lemma covers_original n i len off fs : covers n i len off fs → Forall (λ f, original f = n) fs.
Proof. induction 1; by constructor. Qed.
Lemma plan_original pdu n its lens fs : plan pdu n its lens fs →
  Forall (λ f, n ≤ original f) fs.
Proof.
  induction 1 as [|n i its len lens fs rest Hc _ IH]; [constructor|]. apply Forall_app. split.
  - apply covers_original in Hc. eapply Forall_impl; [done|]. cbn. lia.
  - eapply Forall_impl; [done|]. cbn. lia.
Qed.

Lemma plan_covers pdu n its lens fs : plan pdu n its lens fs → ∀ k i len,
  its !! k = Some i → lens !! k = Some len →
  covers (n + Z.of_nat k) i len 0 (of_item (n + Z.of_nat k) fs).
Proof.
  assert (∀ fs m, Forall (λ f, original f ≠ m) fs → of_item m fs = []) as Hnone.
  { intros gs m Hg. unfold of_item. induction Hg as [|g gs Hg _ IH]; [done|]. by rewrite filter_cons_False. }
  assert (∀ fs m, Forall (λ f, original f = m) fs → of_item m fs = fs) as Hall.
  { intros gs m Hg. unfold of_item. induction Hg as [|g gs Hg _ IH]; [done|].
    rewrite filter_cons_True by done. by rewrite IH. }
  assert (∀ m fs gs, of_item m (fs ++ gs) = of_item m fs ++ of_item m gs) as Happ
    by (intros; apply filter_app).
  induction 1 as [|n i0 its len0 lens fs rest Hc Hp IH]; [done|].
  intros [|k] i len; cbn [lookup list_lookup].
  - intros [= ->] [= ->]. rewrite Z.add_0_r, Happ. rewrite (Hall fs) by by eapply covers_original.
    rewrite (Hnone rest), app_nil_r; [done|]. apply plan_original in Hp.
    eapply Forall_impl; [done|]. cbn. lia.
  - intros Hi Hl. specialize (IH k i len Hi Hl).
    replace (n + Z.of_nat (S k)) with (n + 1 + Z.of_nat k) by lia. rewrite Happ, (Hnone fs); [done|].
    apply covers_original in Hc. eapply Forall_impl; [done|]. cbn. lia.
Qed.

Lemma tracking_start maxItemBytes pdu its bufs lens : 32 ≤ pdu → Forall2 (planned maxItemBytes) its lens →
  Forall2 (λ buf len, len = zlen buf) bufs lens →
  tracking its bufs lens (fresh_results bufs) (replicate (length lens) 0)
    (all_fragments pdu 0 its lens).
Proof.
  intros Hpdu Hp Hb. constructor; [by apply fresh_slots|]. intros k i len r p Hi Hl _ Hpr _.
  apply lookup_replicate in Hpr as [-> _].
  destruct (all_fragments_plan maxItemBytes pdu its lens Hpdu Hp 0 ltac:(lia)) as [Hplan _].
  exact (plan_covers _ _ _ _ _ Hplan k i len Hi Hl).
Qed.
End bookkeeping.

(** More answers do not make what was assembled wrong. *)
Section monotone.
Context (Served Served' : readFragment → list Z → Prop) (Failure Failure' : Z → error → Prop).
Context (Hserved : ∀ f x, Served f x → Served' f x) (Hfailure : ∀ n e, Failure n e → Failure' n e).

Lemma assembled_mono n x : assembled Served n x → assembled Served' n x.
Proof. induction 1; [constructor|]. eapply as_snoc; eauto. Qed.
Lemma slot_mono buf len n r p : slot Served Failure buf len n r p → slot Served' Failure' buf len n r p.
Proof. intros [(x & Hx & ?) ? ? ?]. constructor; eauto using assembled_mono. Qed.
Lemma tracking_mono its bufs lens rs ps fs : tracking Served Failure its bufs lens rs ps fs →
  tracking Served' Failure' its bufs lens rs ps fs.
Proof. intros [He Ha]. constructor; [|done]. eapply each_impl; [|exact He]. intros. by apply slot_mono. Qed.
End monotone.

(** An item is refused with the return code of one of its fragments. *)
Definition item_error (Refused : readFragment → Z → Prop) (n : Z) (e : error) : Prop :=
  ∃ f code, original f = n ∧ code ≠ 0xff ∧ Refused f code ∧ e = EGos7 (plcItemError "read.item" code).

(** The errors of the items of a read: refused, or not read because the whole
    operation failed with [err]. *)
Definition read_error (Refused : readFragment → Z → Prop) (err : option error) (n : Z) (e : error) : Prop :=
  item_error Refused n e ∨ err = Some e.

(** ** The requests of a read *)

Abbreviation reading := (attempt readFragment).

(** It asked for its fragments, and was answered at most by one frame. *)
Definition reading_ok (a : reading) : Prop :=
  ∃ request, BuildReadRequest (a_reference a) (item <$> a_batch a) = Ok request ∧
    transferred request (a_sent a) (a_answer a).

(** The requests of a read ask for fragments of the plan, in its order. *)
Definition follows_plan (pdu : Z) (its : list ReadItem) (lens : list Z) (trace : list reading) : Prop :=
  Forall reading_ok trace ∧ concat (a_batch <$> trace) `sublist_of` all_fragments pdu 0 its lens.

Lemma follows_nil pdu its lens : follows_plan pdu its lens [].
Proof. split; [done|apply sublist_nil_l]. Qed.

(** What the frame that came back says of every fragment. *)
Definition reading_results (a : reading) : list Protocol.ItemResult :=
  match payload_of (a_pdu a) (a_answer a) with
  | None => []
  | Some payload =>
      match ParseReadResponse payload (a_reference a) (item <$> a_batch a) with
      | Ok (results, globalCode) => if globalCode =? 0 then results else []
      | _ => []
      end
  end.

(** A frame that came back holds the bytes [x] for the fragment [f], or refuses
    it with a return code. *)
Definition delivered (trace : list reading) (f : readFragment) (x : list Z) : Prop :=
  ∃ a, a ∈ trace ∧ (f, mkItemResult 0xff x) ∈ zip (a_batch a) (reading_results a).
Definition refused (trace : list reading) (f : readFragment) (code : Z) : Prop :=
  ∃ a r, a ∈ trace ∧ (f, r) ∈ zip (a_batch a) (reading_results a) ∧ ReturnCode r = code.

Lemma delivered_snoc trace a f x : delivered trace f x → delivered (trace ++ [a]) f x.
Proof. intros (b & Hb & ?). exists b. rewrite elem_of_app. by split; [left|]. Qed.
Lemma refused_snoc trace a f code : refused trace f code → refused (trace ++ [a]) f code.
Proof. intros (b & r & Hb & ?). exists b, r. rewrite elem_of_app. by split; [left|]. Qed.

(** ** The batch loop over a session *)

Section read_wire.
Context {P : Type} `{Peer P}.
Local Abbreviation World := (@World P).
Local Abbreviation M := (@M P).
Implicit Type w : World.

Definition never : error → World → Prop := λ _ _, False.

Definition reading_for (batch : list readFragment) (a : reading) : Prop := a_batch a = batch ∧ reading_ok a.

(** What a read of [its] asks of the session it runs on, which has the PDU size
    [pdu].  [J tr] holds between two exchanges, after the requests [tr], and
    [Bad tr e] once the operation has failed with [e]; [Served tr f x] holds of
    the bytes [x] a fragment was answered with, [Refused tr f code] of the code
    it was refused with. *)
Class ReadWire (its : list ReadItem) (lens : list Z) (pdu : Z) (Start : World → Prop)
    (J : list reading → World → Prop) (Served : list reading → readFragment → list Z → Prop)
    (Refused : list reading → readFragment → Z → Prop) (Bad : list reading → error → World → Prop)
    (Interrupted Malformed : list reading → World → Prop) : Prop := {
  rw_ready : triple Start (try (readyPDU "read"))
    (λ r w, match r with
            | Ok n => (n = pdu ∧ 32 ≤ pdu) ∧ J [] w | Err e => Bad [] e w | Panic => False
            end) never;
  rw_stable tr : Stable (J tr);
  rw_config tr w : J tr w → config_ok (config (client w));
  rw_too_many tr w msg : J tr w →
    zlen (all_fragments pdu 0 its lens) > MaxFragmentsPerCall (nConfig (config (client w))) →
    Bad tr (EGos7 (limitError "read" msg)) w;
  rw_reference tr w r : is_u16 r → J tr w → J tr (on_client (set_reference r) w);
  rw_context tr : triple (J tr) (ctxErr Operation)
    (λ v w, match v with None => J tr w | Some _ => Interrupted tr w end) never;
  rw_interrupted tr v :
    triple (Interrupted tr) (classifyContextError "read" Operation SessionUnchanged (EVar v))
      (λ f w, Bad tr (EGos7 f) w) never;
  rw_exchange tr batch reference request :
    1 ≤ reference ≤ MaxUint16 → batch ≠ [] → Forall (fragment_ok pdu) batch → batch_fits pdu batch →
    Forall (λ f, f ∈ all_fragments pdu 0 its lens) batch →
    BuildReadRequest reference (item <$> batch) = Ok request →
    triple (J tr) (exchange "read" request) (λ r w,
      match r.2 with
      | Panic => False
      | Err e => if r.1 then ∃ a, reading_for batch a ∧ Bad (tr ++ [a]) e w else Bad tr e w
      | Ok payload => bytes payload ∧
          match ParseReadResponse payload reference (item <$> batch) with
          | Panic => True
          | Err _ => ∃ a, reading_for batch a ∧ Malformed (tr ++ [a]) w
          | Ok (xs, global) => ∃ a, reading_for batch a ∧ J (tr ++ [a]) w ∧
              (global ≠ 0 → Bad (tr ++ [a]) (EGos7 (plcError "read" global)) w) ∧
              (global = 0 → Forall2 (wire_ok (Served (tr ++ [a])) (Refused (tr ++ [a]))) batch xs)
          end
      end) never;
  rw_malformed tr e :
    triple (Malformed tr) (breakSession ErrorProtocol)
      (λ _ w, Bad tr (EGos7 (protocolError "read.decode" e)) w) never;
  rw_served tr a f x : Served tr f x → Served (tr ++ [a]) f x;
  rw_refused tr a f code : Refused tr f code → Refused (tr ++ [a]) f code;
}.

Lemma nextReference_triple (I : World → Prop) Er : Stable I →
  (∀ w r, is_u16 r → I w → I (on_client (set_reference r) w)) →
  triple I nextReference (λ r w, 1 ≤ r ≤ MaxUint16 ∧ I w) Er.
Proof.
  intros Hs Hr. apply triple_atomically; [done|]. intros w Hw. cbn [fst snd].
  pose proof (u16_range (reference (client w) + 1)) as Hu.
  set (r := u16 (reference (client w) + 1)) in *.
  assert (1 ≤ (if r =? 0 then 1 else r) ≤ MaxUint16) as Hrange
    by (case_if; unfold MaxUint16, is_u16 in *; lia).
  split; [done|]. apply Hr; [|done]. unfold MaxUint16, is_u16 in *. lia.
Qed.

Lemma Forall_sublist_of {A} (Q : A → Prop) l k : l `sublist_of` k → Forall Q k → Forall Q l.
Proof.
  induction 1 as [|x l k _ IH|x l k _ IH]; intros Hk; [done|..]; apply Forall_cons in Hk as [? ?]; auto.
Qed.

Lemma live_fails_more rs rs' fs : fails_more rs rs' →
  live (has_failed rs') fs `sublist_of` live (has_failed rs) fs.
Proof.
  intros Hm. induction fs as [|f fs IH]; [constructor|].
  destruct (has_failed rs' (original f)) eqn:Hf'.
  - rewrite (live_cons_failed (has_failed rs')) by done.
    destruct (has_failed rs (original f)) eqn:Hf.
    + by rewrite (live_cons_failed (has_failed rs)).
    + rewrite (live_cons_live (has_failed rs)) by done. by constructor.
  - destruct (has_failed rs (original f)) eqn:Hf.
    { by rewrite (Hm _ Hf) in Hf'. }
    rewrite !live_cons_live by done. by constructor.
Qed.

Lemma planned_nonneg maxItemBytes its lens : Forall2 (planned maxItemBytes) its lens →
  Forall (λ len, 0 ≤ len) lens.
Proof.
  induction 1 as [|i len its lens Hp]; constructor; [|done]. destruct (planned_pos _ _ _ Hp) as (_ & _ & ? & _). lia.
Qed.

(** Only unfinished items have fragments ahead. *)
Lemma tracking_done Served Failure its bufs lens rs ps :
  zlen lens = zlen its → Forall2 (λ buf len, len = zlen buf) bufs lens →
  tracking Served Failure its bufs lens rs ps [] →
  each (λ buf len n r p, slot Served Failure buf len n r p ∧ (RErr r = None → p = len ∧ p = zlen buf)) 0 bufs lens rs ps.
Proof.
  intros Hl Hb [He Ha].
  assert (∀ k len r p, lens !! k = Some len → rs !! k = Some r → ps !! k = Some p → RErr r = None →
    p = len) as Hdone.
  { intros k len r p Hlen Hr Hp Herr. destruct (lookup_lt_is_Some_2 its k) as [i Hi].
    { apply lookup_lt_Some in Hlen. unfold zlen in *. lia. }
    specialize (Ha k i len r p Hi Hlen Hr Hp Herr). by inversion Ha. }
  clear Ha. revert Hdone Hb. clear Hl. generalize 0%Z He. clear He. intros n He.
  induction He as [|n b bufs l lens r rs p ps Hs _ IH]; intros Hdone Hb; [constructor|].
  inversion Hb; subst. constructor.
  - split; [done|]. intros Herr. pose proof (Hdone O _ _ _ eq_refl eq_refl eq_refl Herr). by subst p.
  - apply IH; [|done]. intros k. exact (Hdone (S k)).
Qed.

Context {its : list ReadItem} {lens : list Z} {pdu : Z} {Start : World → Prop}
  {J : list reading → World → Prop} {Served : list reading → readFragment → list Z → Prop}
  {Refused : list reading → readFragment → Z → Prop} {Bad : list reading → error → World → Prop}
  {Interrupted Malformed : list reading → World → Prop}
  `{Hwire : !ReadWire its lens pdu Start J Served Refused Bad Interrupted Malformed}.

Local Abbreviation follows_plan := (follows_plan pdu its lens).

(** The result of a read: every item assembled from the answers to [trace],
    and the session in the state the error tells. *)
Definition read_result (bufs : list (list Z)) (out : readOutcome) (w : World) : Prop :=
  let '(rs, ps, err) := out in
  ∃ trace, follows_plan trace ∧
  each (item_read (Served trace) (read_error (Refused trace) err)) 0 bufs lens rs ps ∧
  match err with None => J trace w | Some e => Bad trace e w end.

Local Abbreviation tracked tr := (tracking (Served tr) (item_error (Refused tr)) its).

Lemma tracked_snoc tr a bufs rs ps fs : tracked tr bufs lens rs ps fs → tracked (tr ++ [a]) bufs lens rs ps fs.
Proof.
  apply tracking_mono; [apply rw_served|]. intros n e (f & code & ? & ? & ? & ?). exists f, code.
  do 2 (split; [done|]). split; [by apply rw_refused|done].
Qed.

(** The fragments still ahead follow those that were asked for. *)
Definition plan_ahead (tr : list reading) (fs : list readFragment) : Prop :=
  Forall reading_ok tr ∧ concat (a_batch <$> tr) ++ fs `sublist_of` all_fragments pdu 0 its lens.

Lemma plan_ahead_follows tr fs : plan_ahead tr fs → follows_plan tr.
Proof. intros [? Hs]. split; [done|]. etrans; [|exact Hs]. by apply sublist_inserts_r. Qed.
Lemma plan_ahead_in tr batch fs : plan_ahead tr (batch ++ fs) →
  Forall (λ f, f ∈ all_fragments pdu 0 its lens) batch.
Proof.
  intros [_ Hs]. apply Forall_forall. intros f Hf. eapply elem_of_submseteq; [|by apply sublist_submseteq].
  rewrite !elem_of_app. by right; left.
Qed.
Lemma plan_ahead_next tr a batch fs : reading_for batch a → plan_ahead tr (batch ++ fs) → plan_ahead (tr ++ [a]) fs.
Proof.
  intros [Hb Ha] [Hok Hs]. split; [apply Forall_app; split; [done|by constructor]|].
  rewrite fmap_app, concat_app. cbn [fmap list_fmap concat]. by rewrite Hb, app_nil_r, <-app_assoc.
Qed.
Lemma plan_ahead_fewer tr fs fs' : fs' `sublist_of` fs → plan_ahead tr fs → plan_ahead tr fs'.
Proof. intros Hf [? Hs]. split; [done|]. etrans; [|exact Hs]. by apply sublist_app. Qed.

Lemma read_failure_triple trace bufs rs ps err (Pre : World → Prop) Er : follows_plan trace →
  each (slot (Served trace) (read_error (Refused trace) (Some err))) 0 bufs lens rs ps →
  (∀ w, Pre w → Bad trace err w) →
  triple Pre (read_failure rs ps lens err) (read_result bufs) Er.
Proof.
  intros Hp He Hb. apply triple_ret. intros w Hw. exists trace. split; [done|]. split; [|by apply Hb].
  apply markReadIncomplete_ok; [by right|done].
Qed.
Lemma tracked_failure_triple trace bufs rs ps fs err (Pre : World → Prop) Er : follows_plan trace →
  tracked trace bufs lens rs ps fs → (∀ w, Pre w → Bad trace err w) →
  triple Pre (read_failure rs ps lens err) (read_result bufs) Er.
Proof.
  intros Hp [He _]. apply read_failure_triple; [done|]. eapply each_impl; [|exact He].
  intros. eapply slot_mono; [done| |done]. by left.
Qed.

(** Nothing is left to read. *)
Lemma read_done_triple trace bufs rs ps : follows_plan trace → zlen lens = zlen its →
  Forall2 (λ buf len, len = zlen buf) bufs lens → tracked trace bufs lens rs ps [] →
  triple (J trace)
    (match finishRead rs ps lens None with Ok (rs, err) => mret (rs, ps, err) | _ => lift Panic end)
    (read_result bufs) never.
Proof.
  intros Hp Hl Hb Ht.
  destruct (finishRead_ok (Served trace) (item_error (Refused trace)) 0 bufs lens rs ps) as (rs' & -> & He');
    [by eapply tracking_done|].
  apply triple_ret. intros w Hw. exists trace. split; [done|]. split; [|done]. eapply each_impl; [|exact He'].
  intros ????? []. constructor; try done. intros e Herr. left. auto.
Qed.

(** The PLC refused the batch as a whole. *)
Lemma read_refused_triple trace bufs rs ps fs failure batch (Pre : World → Prop) Er : follows_plan trace →
  tracked trace bufs lens rs ps fs → Forall (λ f, 0 ≤ original f < zlen lens) batch →
  (∀ w, Pre w → Bad trace failure w) →
  triple Pre (match failBatch batch failure rs with
              | Ok rs => read_failure rs ps lens failure | _ => lift Panic end) (read_result bufs) Er.
Proof.
  intros Hp [He _] Hfb Hb.
  assert (each (slot (Served trace) (read_error (Refused trace) (Some failure))) 0 bufs lens rs ps) as He1.
  { eapply each_impl; [|exact He]. intros. eapply slot_mono; [done| |done]. by left. }
  destruct (failBatch_ok (Served trace) (read_error (Refused trace) (Some failure)) bufs lens ps failure batch
    ltac:(by right) rs He1) as (rs' & -> & He'); [done|]. by apply (read_failure_triple trace).
Qed.

(** A batch of the plan is encoded. *)
Lemma read_batch_request batch reference : Forall (fragment_ok pdu) batch → batch_fits pdu batch →
  batch ≠ [] → 1 ≤ reference ≤ MaxUint16 →
  Forall Protocol.valid_item (item <$> batch) ∧ ∃ request, BuildReadRequest reference (item <$> batch) = Ok request.
Proof.
  intros Hfo (Hf20 & _) Hne Href. assert (is_u16 reference) as Hr16 by (unfold MaxUint16, is_u16 in *; lia).
  assert (Forall Protocol.valid_item (item <$> batch)) as Hvalid.
  { apply Forall_fmap. eapply Forall_impl; [exact Hfo|]. by intros f []. }
  split; [done|]. pose proof (BuildReadRequest_spec reference (item <$> batch) Hr16
    (Forall_impl _ _ _ Hvalid valid_typed)) as Hb.
  destruct (BuildReadRequest reference (item <$> batch)) as [request|e|]; [by eexists|exfalso|done].
  apply Hb. split; [lia|]. split; [|done]. rewrite zlen_map.
  unfold WireMaxItemsPerPDU, CompatibilityMaxItemsPerPDU in *. destruct batch; [done|]. zlia.
Qed.

(** What the iterator promises of the fragments of a batch. *)
Lemma planned_batch it rs batch later : Forall (plan_ok it) (remaining it) →
  live (has_failed rs) (remaining it) = batch ++ later →
  Forall (fragment_ok (itPdu it)) batch ∧ Forall (λ f, 0 ≤ original f < zlen (items it)) batch.
Proof.
  intros Hok Hlive. assert (Forall (plan_ok it) (live (has_failed rs) (remaining it))) as Hall.
  { apply Forall_forall. intros f [_ Hf0]%list_elem_of_filter. rewrite Forall_forall in Hok. by apply Hok. }
  rewrite Hlive, Forall_app in Hall. destruct Hall as [Hall _].
  split; eapply Forall_impl; [exact Hall| |exact Hall|]; by intros f [].
Qed.

(** The answer to a batch, after the requests [tr] before it. *)
Lemma answered_batch_triple tr a bufs rs ps batch fs xs global (go : list ReadResult → list Z → M readOutcome) w :
  zlen lens = zlen its → Forall2 (λ buf len, len = zlen buf) bufs lens →
  Forall (λ f, 0 ≤ original f < zlen its) batch →
  tracked tr bufs lens rs ps (batch ++ fs) → plan_ahead tr (batch ++ fs) → reading_for batch a →
  J (tr ++ [a]) w → (global ≠ 0 → Bad (tr ++ [a]) (EGos7 (plcError "read" global)) w) →
  (global = 0 → Forall2 (wire_ok (Served (tr ++ [a])) (Refused (tr ++ [a]))) batch xs) →
  (∀ rs' ps', fails_more rs rs' → tracked (tr ++ [a]) bufs lens rs' ps' fs → plan_ahead (tr ++ [a]) fs →
     triple (J (tr ++ [a])) (go rs' ps') (read_result bufs) never) →
  triple (eq w)
    (if negb (global =? 0) then
       let failure := EGos7 (plcError "read" global) in
       match failBatch batch failure rs with
       | Ok results => read_failure results ps lens failure
       | _ => lift Panic
       end
     else
       match applyReadResults batch xs rs ps with
       | Ok (results, progress) => go results progress
       | _ => lift Panic
       end) (read_result bufs) never.
Proof.
  intros Hlz Hbufs Hfb Ht Hplan Ha Hj Hg0 Hxs Hgo. apply (tracked_snoc tr a) in Ht.
  apply (plan_ahead_next tr a batch fs Ha) in Hplan.
  destruct (decide (global = 0)) as [->|Hgl].
  - specialize (Hxs eq_refl). change (negb (0 =? 0)) with false. cbv iota.
    destruct (applyReadResults_ok (Served (tr ++ [a])) (item_error (Refused (tr ++ [a]))) (Refused (tr ++ [a]))
      ltac:(intros f code ? ?; by exists f, code) its bufs lens fs Hlz Hbufs batch xs rs ps Hxs Hfb Ht)
      as (rs' & ps' & -> & Ht2 & Hmore).
    eapply triple_pre; [by apply Hgo|]. by intros w' <-.
  - assert (negb (global =? 0) = true) as -> by lia.
    eapply read_refused_triple; [by eapply plan_ahead_follows|done|by rewrite Hlz|]. intros w' <-. by apply Hg0.
Qed.

Lemma readLoop_triple maxItemBytes bufs : maxItemBytes < 2 ^ 32 → 32 ≤ pdu →
  Forall2 (planned maxItemBytes) its lens → Forall2 (λ buf len, len = zlen buf) bufs lens →
  ∀ fuel tr it rs ps,
  good maxItemBytes it → Forall (plan_ok it) (remaining it) →
  items it = its → lengths it = lens → itPdu it = pdu →
  (length (live (has_failed rs) (remaining it)) < fuel)%nat →
  tracked tr bufs lens rs ps (remaining it) → plan_ahead tr (live (has_failed rs) (remaining it)) →
  triple (J tr) (readLoop fuel pdu lens it rs ps) (read_result bufs) never.
Proof.
  intros Hmax Hpdu Hpl Hbufs fuel. induction fuel as [|fuel IH];
    intros tr it rs ps Hg Hok Hi Hle Hp Hf Ht Hplan; [lia|].
  pose proof (Forall2_length _ _ _ Hpl) as Hlen. assert (zlen lens = zlen its) as Hlz by (unfold zlen; lia).
  pose proof Ht as [He _]. pose proof (each_lengths _ _ _ _ _ _ He) as (Hlr & _). cbn [readLoop].
  destruct (nextReadBatch_spec maxItemBytes Hmax it rs Hg Hok)
    as (batch & it' & Hnext & Hg' & (Hi' & Hle' & Hp') & Hok' & Hlive & Hfits & Hrest); [rewrite Hi; lia|].
  rewrite Hp in *. rewrite Hnext. pose proof (plan_ahead_follows _ _ Hplan) as Hfollows.
  pose proof (rw_stable tr) as HsJ. destruct (decide (batch = [])) as [->|Hne].
  { change (negb (zlen [] >? 0)) with true. cbv iota. apply read_done_triple; [done..|].
    apply tracking_live in Ht. by destruct Hrest as [Hr0|[? _]]; [rewrite Hlive, Hr0 in Ht|]. }
  assert (negb (zlen batch >? 0) = false) as -> by (destruct batch; [done|zlia]).
  destruct (planned_batch it rs batch _ Hok Hlive) as [Hfo Hfb]. rewrite Hi in Hfb. rewrite Hp in Hfo.
  eapply triple_bind; [apply rw_context|]. intros [v|]; cbn beta.
  { eapply triple_bind; [apply rw_interrupted|]. intros failure. by eapply tracked_failure_triple. }
  eapply triple_bind; [apply nextReference_triple; [done|intros; by apply rw_reference]|].
  intros reference. cbn beta. apply triple_pure. intros Href.
  destruct (read_batch_request batch reference Hfo Hfits Hne Href) as [Hvalid [request Hreq]]. rewrite Hreq.
  apply tracking_live in Ht. rewrite Hlive in Ht, Hplan. pose proof (plan_ahead_in _ _ _ Hplan) as Hin.
  assert (∀ a, reading_for batch a → ∀ e (Pre : World → Prop), (∀ w, Pre w → Bad (tr ++ [a]) e w) →
    triple Pre (read_failure rs ps lens e) (read_result bufs) never) as Hfail.
  { intros a Ha e Pre Hb. eapply tracked_failure_triple; [|by apply tracked_snoc|done].
    eapply plan_ahead_follows. by eapply plan_ahead_next. }
  eapply triple_bind; [by apply rw_exchange|]. intros [sent [payload|e|]]; cbn [fst snd]; [| |by intros w []].
  2: { destruct sent; [|by eapply tracked_failure_triple]. intros w (a & Ha & Hb). by apply (Hfail a Ha e (Bad (tr ++ [a]) e)). }
  apply triple_world. intros w [Hbytes Hw].
  pose proof (parsers_never_panic payload reference (item <$> batch) 0 Hbytes Hvalid) as (_ & Hpanic & _).
  destruct (ParseReadResponse payload reference (item <$> batch)) as [[xs global]|e|] eqn:Hparse; [| |done].
  2: { destruct Hw as (a & Ha & Hw). eapply triple_pre; [|by intros w' <-; exact Hw].
       eapply triple_bind; [apply (rw_malformed (tr ++ [a]) e)|]. intros []. by apply (Hfail a). }
  destruct Hw as (a & Ha & Hj & Hg0 & Hxs).
  eapply (answered_batch_triple tr a bufs rs ps batch (live (has_failed rs) (remaining it')) xs global
    (readLoop fuel pdu lens it')); try done.
  intros rs' ps' Hmore Ht2 Hplan2. apply IH; try done; [congruence..| | |].
  - pose proof (sublist_length _ _ (live_fails_more rs rs' (remaining it') Hmore)). rewrite Hlive, length_app in Hf.
    destruct batch; [done|]. cbn in Hf. lia.
  - by eapply tracking_unlive.
  - by eapply plan_ahead_fewer; [apply (live_fails_more rs rs')|].
Qed.

(** The buffers of a read: the caller's, or one made for every item. *)
Definition buffers_of (lens : list Z) (destinations : option (list (list Z))) : list (list Z) :=
  match destinations with None => make <$> lens | Some ds => ds end.

(** Either the buffers were handed over or no byte was read. *)
Definition locked_result (destinations : option (list (list Z)))
    (out : readOutcome) (w : World) : Prop :=
  ∃ bufs, (bufs = buffers_of lens destinations ∨ bufs = replicate (length lens) []) ∧
    read_result bufs out w.

Lemma locked_failure_triple destinations err (Pre : World → Prop) Er :
  Forall (λ len, 0 ≤ len) lens → (∀ w, Pre w → Bad [] err w) →
  triple Pre (read_failure (replicate (length lens) nothing_read) (replicate (length lens) 0) lens err)
    (locked_result destinations) Er.
Proof.
  intros Hl Hb. eapply triple_conseq; [apply (read_failure_triple [] (replicate (length lens) []) _ _ err Pre)|done| |done].
  - apply follows_nil.
  - by apply nothing_read_slots.
  - exact Hb.
  - intros out w Ho. exists (replicate (length lens) []). split; [by right|done].
Qed.

Lemma readLocked_triple maxItemBytes destinations : maxItemBytes < 2 ^ 32 →
  Forall2 (planned maxItemBytes) its lens → total lens ≤ MaxInt →
  Forall2 (λ buf len, len = zlen buf) (buffers_of lens destinations) lens →
  triple Start (readLocked its lens destinations) (locked_result destinations) never.
Proof.
  intros Hmax Hpl Htot Hbufs. pose proof (Forall2_length _ _ _ Hpl) as Hlen.
  pose proof (planned_nonneg _ _ _ Hpl) as Hnn.
  unfold readLocked. rewrite Hlen. change (mkReadResult nil_view None) with nothing_read.
  eapply triple_bind; [apply rw_ready|]. intros [n|e|]; cbn beta.
  2: by apply locked_failure_triple.
  2: by intros w [].
  apply triple_pure. intros [-> Hpdu]. pose proof (rw_stable []) as Hst.
  rewrite (countReadFragments_spec maxItemBytes pdu its lens Hmax Hpdu Hpl Htot).
  eapply triple_bind; [by apply (get_triple (J []) config)|]. intros cfg. cbn beta.
  destruct (zlen (all_fragments pdu 0 its lens) >? MaxFragmentsPerCall (nConfig cfg)) eqn:Hmany.
  { apply locked_failure_triple; [done|]. intros w [Hw Hc]. subst cfg. apply (rw_too_many [] w); [done|lia]. }
  eapply triple_bind; [eapply triple_pre; [apply rw_context|]; by intros w [? _]|].
  intros [v|]; cbn beta.
  { eapply triple_bind; [apply rw_interrupted|]. intros failure. cbn beta. by apply locked_failure_triple. }
  assert (match destinations with Some ds => negb (zlen ds =? zlen its) | None => false end = false) as ->.
  { destruct destinations as [ds|]; [|done]. apply Forall2_length in Hbufs. cbn in Hbufs.
    unfold zlen. rewrite Hbufs, Hlen. lia. }
  rewrite (assignData_ok (buffers_of lens destinations)); [|done|by destruct destinations].
  destruct (new_iterator_good maxItemBytes pdu its lens Hpdu Hpl) as (Hg & Hrem & Hok).
  eapply triple_conseq; [|done| |done].
  - apply (readLoop_triple maxItemBytes (buffers_of lens destinations)); try done.
    + unfold live. rewrite Hrem. eapply Nat.le_lt_trans; [apply length_filter|]. unfold zlen. lia.
    + rewrite Hrem. by eapply tracking_start.
    + split; [done|]. rewrite Hrem. apply sublist_filter.
  - intros out w Ho. exists (buffers_of lens destinations). split; [by left|done].
Qed.
End read_wire.

(** ** Reads over any peer *)

Lemma read_data_wire_ok (Q : readFragment → list Z → Prop) (R : readFragment → Z → Prop) count batch : ∀ idx xs d,
  read_data count idx (item <$> batch) xs d →
  (∀ f x, (f, mkItemResult 0xff x) ∈ zip batch xs → Q f x) →
  (∀ f r, (f, r) ∈ zip batch xs → R f (ReturnCode r)) → Forall2 (wire_ok Q R) batch xs.
Proof.
  induction batch as [|f batch IH]; intros idx xs d Hd Hq Hr; cbn in Hd; inversion Hd; subst; [constructor|..].
  all: constructor; [|eapply IH; [done|intros g x Hin; apply Hq; by right|intros g x Hin; apply Hr; by right]].
  - unfold wire_ok. cbn. case_if; [lia|]. apply (Hr f (mkItemResult rc [])). by left.
  - split; [done|]. apply Hq. by left.
Qed.

(** What the client decodes is what the frame that came back says. *)
Lemma accepted_wire_ok trace a payload xs : payload_of (a_pdu a) (a_answer a) = Some payload → bytes payload →
  Forall Protocol.valid_item (item <$> a_batch a) →
  ParseReadResponse payload (a_reference a) (item <$> a_batch a) = Ok (xs, 0) →
  Forall2 (wire_ok (delivered (trace ++ [a])) (refused (trace ++ [a]))) (a_batch a) xs.
Proof.
  intros Hpl Hb Hv Hp. assert (reading_results a = xs) as Hres by (unfold reading_results; by rewrite Hpl, Hp).
  assert (a ∈ trace ++ [a]) as Ha by (rewrite elem_of_app, list_elem_of_singleton; by right).
  apply ParseReadResponse_spec in Hp as (_ & _ & p & d & g & _ & _ & _ & _ & -> & [[? _]|(_ & _ & Hd)]);
    [done| |done..]. eapply read_data_wire_ok; [done|..].
  - intros f x Hin. exists a. by rewrite Hres.
  - intros f r Hin. exists a, r. by rewrite Hres.
Qed.

Section any_peer.
Context {P : Type} `{Peer P}.
Local Abbreviation World := (@World P).
Local Abbreviation M := (@M P).
Implicit Type w : World.

(** An operation on a session that was in state [st]. *)
Definition at_state (st : State) (w : World) : Prop := settled w ∧ in_state st w.
Definition ready_from (st : State) (w : World) : Prop := at_state st w ∧ in_state StateReady w.
(** It failed with [e], which says what became of the session. *)
Definition failed_from (st : State) (e : error) (w : World) : Prop :=
  settled w ∧ ∃ failure, e = EGos7 failure ∧ honest st failure w.

Lemma at_state_set_reference st w r : is_u16 r → at_state st w → at_state st (on_client (set_reference r) w).
Proof. intros Hr [[[] Hs] Hst]. split; [|done]. split; [by constructor|done]. Qed.

Lemma stateError_unchanged operation st : Impact (stateError operation st) = SessionUnchanged.
Proof. unfold stateError. by case_if. Qed.

Lemma readyPDU_triple st l operation F : Stable F →
  triple (λ w, at_state st w ∧ limits (client w) = l ∧ F w) (readyPDU operation)
    (λ pdu w, (240 ≤ pdu ≤ 960 ∧ pdu = NegotiatedPDU l) ∧ ready_from st w ∧ limits (client w) = l ∧ F w)
    (λ e w, failed_from st e w ∧ F w).
Proof.
  intros HF. unfold readyPDU. set (f := λ c, _).
  eapply triple_bind; [apply (get_triple (λ w, at_state st w ∧ limits (client w) = l ∧ F w)); apply _|].
  intros [e|pdu]; cbn beta.
  - apply triple_fail. intros w [([Hs Hst] & Hl & HFw) Hf]. split; [|done]. split; [done|]. exists e. split; [done|].
    unfold f in Hf. revert Hf. case_if; [|done]. intros [= ->]. unfold honest. by rewrite stateError_unchanged.
  - apply triple_ret. intros w [([[Hi Hs] Hst] & Hl & HFw) Hf]. unfold f in Hf. revert Hf. case_if; [done|]. intros [= ->].
    apply orb_false_iff in Heqb as [[Hr _]%orb_false_iff _].
    apply negb_false_iff, bool_decide_eq_true in Hr.
    destruct (i_ready _ _ Hi Hr) as (_ & _ & []). split; [split; [lia|by rewrite Hl]|]. split; [|done].
    split; [done|]. by intros _.
Qed.

Lemma try_triple {A} (Pre : World → Prop) (m : M A) Post Error Er :
  triple Pre m Post Error →
  triple Pre (try m) (λ r w, match r with Ok a => Post a w | Err e => Error e w | Panic => False end) Er.
Proof. intros Hm w Hw. specialize (Hm w Hw). unfold try. by destruct (m w) as [[a|e|] w']. Qed.

Lemma interrupted_triple st operation l v F (Pre : World → Prop) Er : Stable F →
  (∀ w, Pre w → at_state st w ∧ F w) →
  triple Pre (classifyContextError operation l SessionUnchanged (EVar v))
    (λ f w, failed_from st (EGos7 f) w ∧ F w) Er.
Proof.
  intros HF Hpre.
  eapply triple_conseq; [apply (classify_triple (λ w, at_state st w ∧ F w)); apply _|done| |done].
  intros f w [[[Hs Hst] HFw] (_ & Himp & _)]. split; [|done]. split; [done|]. exists f. split; [done|].
  unfold honest. by rewrite Himp.
Qed.

(** The requests [tr] went over the wires, on a session with the limits [l]. *)
Definition wired {B} (l : SessionLimits) (L : list (list transfer)) (tr : list (attempt B)) (w : World) : Prop :=
  in_limits l tr ∧ wire_log w = wire_after tr L.

#[export] Instance wired_stable {B} l L (tr : list (attempt B)) : Stable (wired l L tr).
Proof. apply and_stable; apply _. Qed.

Lemma break_triple {B} st kind failure l L (tr : list (attempt B)) Er : Impact failure = SessionBroken →
  triple (λ w, at_state st w ∧ wired l L tr w) (breakSession kind)
    (λ _ w, failed_from st (EGos7 failure) w ∧ wired l L tr w) Er.
Proof.
  intros Himp. apply triple_pre with (λ w, in_limits l tr ∧ inv None w ∧ wire_log w = wire_after tr L);
    [|by intros w [[[? _] _] []]].
  apply triple_pure. intros Hin.
  eapply triple_conseq; [apply (end_session_triple StateBroken kind (wire_after tr L) Er); by right|done| |done].
  intros [] w [[Hs Hr] HL]. split; [|done]. split; [done|]. exists failure. split; [done|].
  unfold honest. by rewrite Himp.
Qed.

Lemma unchanged_failure st (e : Error) w : Impact e = SessionUnchanged → at_state st w →
  failed_from st (EGos7 e) w.
Proof. intros He [Hs Hst]. split; [done|]. exists e. split; [done|]. unfold honest. by rewrite He. Qed.

(** A session that can be used: ready, with the limits [l]. *)
Definition usable (st : State) (l : SessionLimits) (w : World) : Prop :=
  ready_from st w ∧ limits (client w) = l.

(** An exchange is one more request. *)
Lemma exchange_attempt_triple {B} st l L operation request (tr : list (attempt B)) batch reference :
  triple (λ w, usable st l w ∧ wired l L tr w) (exchange operation request)
    (λ r w, match r with
            | (true, result) => ∃ a, a_batch a = batch ∧ a_reference a = reference ∧
                transferred request (a_sent a) (a_answer a) ∧ wired l L (tr ++ [a]) w ∧
                match result with
                | Ok payload => payload_of (a_pdu a) (a_answer a) = Some payload ∧ bytes payload ∧ usable st l w
                | Err e => payload_of (a_pdu a) (a_answer a) = None ∧ failed_from st e w
                | Panic => False
                end
            | (false, Err e) => failed_from st e w ∧ wired l L tr w
            | (false, _) => False
            end) never.
Proof.
  intros w0 [[[[Hs0 Hst0] Hready0] Hl0] [Hin HL0]].
  pose proof (exchange_triple operation request l _ st (never (P:=P)) w0 (conj (conj (conj Hs0 Hst0) Hl0) HL0)) as Hst.
  pose proof (exchange_triple operation request l _ StateReady (never (P:=P)) w0
    (conj (conj (conj Hs0 Hready0) Hl0) HL0)) as Hrd.
  destruct (exchange operation request w0) as [[[sent r]|e|] w1]; [|done|done].
  destruct Hst as (Hse & Hst), Hrd as (_ & Hrd). destruct sent.
  - destruct Hst as (id & sent & answer & Htr & HL & Hres).
    exists (mkAttempt _ batch reference (NegotiatedPDU l) id sent answer). cbn [a_pdu a_sent a_answer].
    split; [done|]. split; [done|]. split; [done|].
    split; [split; [by apply in_limits_snoc|by rewrite wire_after_snoc]|].
    destruct r as [payload|e|]; [| |done].
    + destruct Hres as (Hp & Hb & Hst & Hl), Hrd as (? & ? & ? & _ & _ & _ & _ & Hrd & _).
      split; [done|]. split; [done|]. split; [|done]. split; [by split|done].
    + destruct Hres as (Hp & failure & -> & Hh & _). split; [done|]. split; [done|]. by exists failure.
  - destruct r as [payload|e|]; [done| |done]. destruct Hst as (HL & failure & -> & Hh).
    split; [split; [done|by exists failure]|by split].
Qed.

#[export] Instance any_peer_wire its lens st l L :
  ReadWire its lens (NegotiatedPDU l) (λ w, at_state st w ∧ limits (client w) = l ∧ wire_log w = L)
    (λ tr w, usable st l w ∧ wired l L tr w) delivered refused
    (λ tr e w, failed_from st e w ∧ wired l L tr w)
    (λ tr w, at_state st w ∧ wired l L tr w) (λ tr w, at_state st w ∧ wired l L tr w).
Proof.
  constructor.
  - eapply triple_conseq; [apply try_triple, (readyPDU_triple st l _ (λ w, wire_log w = L)); apply _|done| |done].
    assert (∀ w, wire_log w = L → wired (B:=readFragment) l L [] w) as Hnone by (intros w Hw; by split; [constructor|]).
    intros [n|e|] w; cbn beta; [|by intros [? ?]; split; [|apply Hnone]|done].
    intros ([? ->] & ? & ? & ?). split; [lia|]. split; [by split|by apply Hnone].
  - intros tr. apply and_stable; [|apply _]. apply and_stable; apply _.
  - intros tr w [[[[[Hi _] _] _] _] _]. apply (i_config _ _ Hi).
  - intros tr w msg [[[Hw _] _] ?] _. split; [by apply unchanged_failure|done].
  - intros tr w r Hr [[[Hw ?] ?] ?]. split; [|done]. split; [|done]. split; [by apply at_state_set_reference|done].
  - intros tr. eapply triple_conseq; [apply (ctxErr_triple (λ w, usable st l w ∧ wired l L tr w))|done| |done].
    + apply and_stable; [|apply _]. apply and_stable; apply _.
    + by intros [v|] w; [intros [[[? _] _] ?]|].
  - intros tr v. apply interrupted_triple; [apply _|done].
  - intros tr batch reference request Hr Hne Hok Hfit _ Hreq.
    assert (Forall Protocol.valid_item (item <$> batch)) as Hvalid.
    { apply Forall_fmap. eapply Forall_impl; [exact Hok|]. by intros f []. }
    eapply triple_conseq; [apply (exchange_attempt_triple st l L "read" request tr batch reference)|done| |done].
    intros [[|] [payload|e|]] w; cbn [fst snd]; [| |by intros (? & _ & _ & _ & _ & [])|done..].
    + intros (a & <- & <- & Htr & Hw & Hpl & Hb & Hu). split; [done|].
      assert (reading_for (a_batch a) a) as Ha by (split; [done|by exists request]).
      destruct (ParseReadResponse _ _ _) as [[xs g]|e|] eqn:Hp; [| |done]; exists a; (split; [done|]).
      * split; [done|]. split; [|intros ->; by eapply accepted_wire_ok].
        intros _. split; [apply unchanged_failure; [done|apply Hu]|done].
      * split; [apply Hu|done].
    + intros (a & <- & <- & Htr & Hw & _ & Hf). exists a. split; [split; [done|by exists request]|done].
  - intros tr e. by apply break_triple.
  - apply delivered_snoc.
  - apply refused_snoc.
Qed.

(** ** Read and ReadArea *)

Definition broken_error (e : error) : Prop := ∃ f, e = EGos7 f ∧ Impact f = SessionBroken.

(** What the error of an operation tells about the session: it succeeded on
    a ready session, or it failed and the session is broken exactly if the
    error says so. *)
Definition told (st : State) (err : option error) (w : World) : Prop :=
  match err with
  | None => in_state StateReady w ∧ in_state st w
  | Some e => (broken_error e → state (client w) ≠ StateReady) ∧ (¬ broken_error e → in_state st w)
  end.

Lemma told_unbroken st e w : ¬ broken_error e → in_state st w → told st (Some e) w.
Proof. intros He Hw. by split. Qed.
Lemma unchanged_unbroken e : unchanged_error e → ¬ broken_error e.
Proof. intros (f & -> & Hf) (g & [= <-] & Hg). congruence. Qed.
Lemma unchanged_EGos7 (f : Error) : Impact f = SessionUnchanged → unchanged_error (EGos7 f).
Proof. intros Hf. by exists f. Qed.

Lemma failed_told st e w : failed_from st e w → settled w ∧ told st (Some e) w.
Proof.
  intros [Hs (f & -> & Hh)]. split; [done|]. unfold honest in Hh. split.
  - intros (g & [= <-] & Hg). by rewrite Hg in Hh.
  - intros Hn. destruct (Impact f) eqn:Hf; [done|]. destruct Hn. by exists f.
Qed.

Lemma told_release st err w : settled w → told st err w → told st err (release_gate w).
Proof.
  intros Hs. destruct err as [e|].
  - intros [Hb Hu]. split; [|intros Hn; apply (release_ungated (in_state st)); [apply _|auto]]. intros He.
    assert (away w) as Ha by (split; [done|auto]). apply stable in Ha. apply Ha.
  - intros [? ?]. split; by apply (release_ungated (in_state _)); [apply _|].
Qed.

(** What a result holds for item number [n] of length [len]: bytes of the item
    assembled from what the peer sent in answer to [trace], all of them unless
    there is an error. *)
Definition item_answer (trace : list reading) (err : option error) (n len : Z) (r : ReadResult) : Prop :=
  assembled (delivered trace) n (visible (RData r)) ∧ zlen (visible (RData r)) ≤ len ∧
  match RErr r with
  | None => zlen (visible (RData r)) = len
  | Some e => read_error (refused trace) err n e
  end.

Lemma item_read_answer trace err buf len n r p :
  item_read (delivered trace) (read_error (refused trace) err) buf len n r p → item_answer trace err n len r.
Proof.
  intros [(x & Hx & Hp & Ha) [Hl _] Hs Hc He]. assert (visible (RData r) = x) as Hv.
  { unfold visible. rewrite sub_0, Hs, Ha, <-Hp. unfold zlen. by rewrite Nat2Z.id, take_app_length. }
  unfold item_answer. rewrite Hv, Hp. destruct (RErr r); auto.
Qed.

Lemma failure_answer trace n len err : 0 ≤ len →
  item_answer trace (Some err) n len (mkReadResult nil_view (Some err)).
Proof. intros Hl. split; [constructor|]. split; [done|]. by right. Qed.

(** The requests on the wires are those of [trace], for fragments of the plan of
    a read of [its] in a session with the limits [l]. *)
Definition read_trace (l : SessionLimits) (L : list (list transfer)) (its : list ReadItem) (lens : list Z)
    (trace : list reading) (w : World) : Prop :=
  wired l L trace w ∧ follows_plan (NegotiatedPDU l) its lens trace.

Lemma read_trace_nil l L its lens w : wire_log w = L → read_trace l L its lens [] w.
Proof. intros HL. split; [by split; [constructor|]|apply follows_nil]. Qed.

Definition read_post (st : State) (l : SessionLimits) (L : list (list transfer)) (input : list ReadItem)
    (out : list ReadResult * option error) (w : World) : Prop :=
  idle w ∧ told st out.2 w ∧
  ∃ trace, read_trace l L input (item_length <$> input) trace w ∧
    (out.1 = [] ∧ out.2 ≠ None ∧ trace = [] ∨
     zlen out.1 = zlen input ∧
     ∀ k i r, input !! k = Some i → out.1 !! k = Some r →
       item_answer trace out.2 (Z.of_nat k) (item_length i) r).

Lemma prepareReads_unbroken config input e : prepareReads config input = Err e → ¬ broken_error e.
Proof.
  unfold prepareReads. case_if; [by intros [= <-] (f & [= <-] & ?)|].
  case_if; [by intros [= <-] (f & [= <-] & ?)|].
  intros [Hp|(lens & _ & [=])]%bind_Err_inv. clear -Hp. revert Hp. generalize 0 at 1. generalize 0.
  induction input as [|i input IH]; intros tot n; cbn [prepareReadsFrom]; [done|].
  intros [Hv|(len & _ & Hl)]%bind_Err_inv.
  - destruct (validateReadItem i (MaxItemBytes config)); try done. injection Hv as <-. by intros (f & [=] & _).
  - revert Hl. case_if; [by intros [= <-] (f & [= <-] & ?)|].
    intros [Hp|(lens & _ & [=])]%bind_Err_inv. exact (IH _ _ Hp).
Qed.

(** The session an operation starts from. *)
Definition start_at (st : State) (l : SessionLimits) (L : list (list transfer)) (w : World) : Prop :=
  in_state st w ∧ limits (client w) = l ∧ wire_log w = L.

#[export] Instance start_at_ungated st l L : Ungated (start_at st l L).
Proof. apply and_ungated; [apply _|]. apply and_ungated; apply _. Qed.
Lemma wired_release {B} l L (tr : list (attempt B)) w : settled w → wired l L tr w → wired l L tr (release_gate w).
Proof. intros Hs [? Hw]. split; [done|]. by destruct (release_gate_idle w Hs) as (_ & -> & _). Qed.

Lemma idle_settled w : idle w → settled w.
Proof. by intros (? & ? & _). Qed.
Lemma settled_derive st l v w : at_state st w → at_state st (on_env (set_ctx l v) w).
Proof. intros [[Hi ?] ?]. split; [|done]. split; [by apply inv_derive|done]. Qed.
Lemma release_idle w : settled w → idle (release_gate w).
Proof. intros Hs. apply (release_gate_idle w Hs). Qed.

(** The parts every operation starts with: look at the caller's context, ... *)
Lemma check_caller_triple {B} (I : World → Prop) operation (failed : Error → M B) (go : M B) Post :
  Stable I → (∀ f, unchanged_error (EGos7 f) → triple I (failed f) Post never) → triple I go Post never →
  triple I
    (err ← ctxErr Caller;
     match err with
     | Some err => failure ← classifyContextError operation Caller SessionUnchanged (EVar err); failed failure
     | None => go
     end) Post never.
Proof.
  intros HI Hf Hg. eapply triple_bind; [by apply (ctxErr_triple I)|]. intros [v|]; cbn beta; [|done].
  eapply triple_bind; [by apply (classify_triple I)|]. intros f w [Hw (_ & Himp & _)].
  apply (Hf f); [|done]. by exists f.
Qed.

(** ... then wait for the gate. *)
Lemma acquired_triple {B} F (failed : error → M B) (go : M B) Post : Ungated F →
  (∀ e, unchanged_error e → triple (λ w, idle w ∧ F w) (failed e) Post never) →
  triple (λ w, settled w ∧ F w) go (λ b w, settled w ∧ Post b (release_gate w)) never →
  triple (λ w, idle w ∧ F w)
    (acquired ← try acquire;
     match acquired with
     | Panic => lift Panic
     | Err err => failed err
     | Ok _ => deferred release_gate (_ ← derive Operation; go)
     end) Post never.
Proof.
  intros HF Hf Hg.
  eapply triple_bind; [by apply try_triple, (acquire_triple F)|]. intros [[]|e|]; cbn beta.
  - apply (deferred_triple _ _ (λ b w, settled w ∧ Post b (release_gate w)) never);
      [|by intros b w [Hs Hp]|by intros e w []].
    apply (triple_bind _ _ (λ _ w, settled w ∧ F w)); [|by intros []].
    intros w [[Hi Hs] HFw]. split; [split; [by apply inv_derive|done]|by apply ug_context].
  - intros w [Hw He]. by apply (Hf e He).
  - by intros w [].
Qed.

Lemma item_length_nonneg i : is_u32 (RCount i) → 0 ≤ item_length i.
Proof.
  intros [Hc _]. assert (0 ≤ width_of (RTransport i)) as Hw.
  { unfold width_of. destruct (layoutFor (RTransport i)) as [l|] eqn:Hl; [|done].
    apply layoutFor_Some in Hl. rewrite !elem_of_cons, elem_of_nil in Hl.
    by repeat destruct Hl as [[= _ ->]|Hl]. }
  by apply Z.mul_nonneg_nonneg.
Qed.

(** The failures of a read before it has the session. *)
Lemma read_unsent_triple st l L input rs e : ¬ broken_error e →
  (rs = [] ∨ rs = makeReadFailureResults (length input) e) → Forall read_item_values input →
  triple (λ w, idle w ∧ start_at st l L w) (mret (rs, Some e)) (read_post st l L input) never.
Proof.
  intros He Hrs Hvals. apply triple_ret. intros w (Hi & Hst & _ & HL). split; [done|].
  split; [by apply told_unbroken|]. exists []. split; [by apply read_trace_nil|].
  destruct Hrs as [->| ->]; [by left|right]. unfold makeReadFailureResults. cbn [fst snd]. split; [by rewrite zlen_replicate|].
  intros k i r Hik [-> _]%lookup_replicate. apply failure_answer.
  rewrite Forall_lookup in Hvals. destruct (Hvals k i Hik) as [_ _ Hc]. by apply item_length_nonneg.
Qed.

(** What [readLocked] leaves, after the gate is released. *)
Lemma read_locked_post st l L input bufs rs ps err w (lens := item_length <$> input) :
  read_result (J := λ tr w, usable st l w ∧ wired l L tr w) (Served := delivered) (Refused := refused)
    (Bad := λ tr e w, failed_from st e w ∧ wired l L tr w) (pdu := NegotiatedPDU l) (its := input) (lens := lens)
    bufs (rs, ps, err) w →
  settled w ∧ told st err w ∧ ∃ trace, read_trace l L input lens trace w ∧
    each (item_read (delivered trace) (read_error (refused trace) err)) 0 bufs lens rs ps.
Proof.
  intros (trace & Hp & He & Hw).
  assert ((settled w ∧ told st err w) ∧ wired l L trace w) as ([Hs Ht] & Hwi).
  { destruct err as [e|]; destruct Hw as [Hw Hwi]; (split; [|done]); [by apply failed_told|].
    destruct Hw as [[[? ?] ?] _]. by repeat (split; [done|]). }
  split; [done|]. split; [done|]. by exists trace.
Qed.

Lemma Read_triple st l L input : Forall read_item_values input →
  triple (λ w, idle w ∧ start_at st l L w) (Read input) (read_post st l L input) never.
Proof.
  intros Hvals. unfold Read.
  apply check_caller_triple; [apply _|intros f Hf; apply read_unsent_triple; [by apply unchanged_unbroken|by left|done]|].
  eapply triple_bind; [apply (get_config_triple (λ w, idle w ∧ start_at st l L w)); [apply _|by intros w [[? _] _]]|].
  intros cfg. cbn beta. apply triple_pure. intros [Hcfg _ _].
  apply triple_pre with (λ w, idle w ∧ start_at st l L w); [|by intros w [? _]].
  pose proof (prepareReads_spec (nConfig cfg) input Hcfg Hvals) as Hprep.
  destruct (prepareReads (nConfig cfg) input) as [[its lens]|e|] eqn:Hp; [| |done].
  2: { apply prepareReads_unbroken in Hp. case_if; apply read_unsent_triple; [done|by left|done|done|by right|done]. }
  destruct Hprep as ((Hcount & Hvalid & Htotal) & -> & -> & Hpl).
  apply (acquired_triple (start_at st l L)); [apply _|..].
  { intros e He. apply read_unsent_triple; [by apply unchanged_unbroken|by right|done]. }
  eapply triple_bind.
  { eapply triple_pre; [apply (readLocked_triple (pdu := NegotiatedPDU l) (Served := delivered) (Refused := refused)
      (J := λ tr w, usable st l w ∧ wired l L tr w) (Bad := λ tr e w, failed_from st e w ∧ wired l L tr w)
      (Start := λ w, at_state st w ∧ limits (client w) = l ∧ wire_log w = L) (MaxItemBytes (nConfig cfg)) None);
      [destruct Hcfg; lia|done| |]|by intros w (? & ? & ? & ?)].
    - destruct Hcfg. unfold MaxInt. lia.
    - cbn. pose proof (planned_nonneg _ _ _ Hpl) as Hnn. clear -Hnn.
      induction Hnn; constructor; [by rewrite zlen_make|done]. }
  intros [[rs ps] err]. cbn beta. apply triple_ret. intros w (bufs & _ & Hres). cbn [fst snd].
  apply read_locked_post in Hres as (Hs & Ht & trace & [Hwi Hf] & He).
  split; [done|]. split; [by apply release_idle|]. split; [by apply told_release|].
  exists trace. split; [split; [by apply wired_release|done]|]. right.
  pose proof (each_lengths _ _ _ _ _ _ He) as (Hlr & Hlp & Hlb). rewrite zlen_map in *. split; [done|].
  intros k i r Hi Hr.
  assert (∃ buf p, bufs !! k = Some buf ∧ ps !! k = Some p) as (buf & p & Hbuf & Hpk).
  { pose proof (lookup_lt_Some _ _ _ Hi). unfold zlen in *.
    destruct (lookup_lt_is_Some_2 bufs k) as [buf ?]; [lia|].
    destruct (lookup_lt_is_Some_2 ps k) as [p ?]; [lia|]. by exists buf, p. }
  eapply item_read_answer. change (Z.of_nat k) with (0 + Z.of_nat k). eapply each_lookup; [exact He|done| |done..].
  by rewrite list_lookup_fmap, Hi.
Qed.

(** [ReadArea]: the count is the length of the confirmed prefix that the buffer
    holds of the area, the rest of the buffer is as it was. *)
Definition read_area_post (st : State) (l : SessionLimits) (L : list (list transfer))
    (area dbNumber start : Z) (dst : list Z) (out : Z * option error * list Z) (w : World) : Prop :=
  let '(n, err, dst') := out in
  idle w ∧ told st err w ∧
  ∃ trace x,
    read_trace l L [mkReadItem (mkAddress area dbNumber start 0) TransportByte (zlen dst)] [zlen dst] trace w ∧
    assembled (delivered trace) 0 x ∧ zlen x = n ∧ n ≤ zlen dst ∧ dst' = x ++ drop (length x) dst ∧
    (err = None → n = zlen dst).

Lemma written_through_spec Served err dst buf len r p : dst ≠ [] → buf = dst ∨ buf = [] → len = zlen dst →
  item_read Served err buf len 0 r p →
  ∃ x, assembled Served 0 x ∧ zlen x = p ∧ p ≤ zlen dst ∧
    written_through dst r = x ++ drop (length x) dst ∧ (RErr r = None → p = zlen dst).
Proof.
  intros Hne Hbuf -> [(x & Hx & Hp & Ha) [Hl Hb] Hs Hc _]. exists x. split; [done|]. split; [done|].
  split; [done|]. split; [|done]. unfold written_through. rewrite Ha. destruct Hbuf as [->| ->].
  - destruct (zlen (x ++ drop (length x) dst) =? 0) eqn:Hz; [|done].
    apply Z.eqb_eq, zlen_nil_inv in Hz. apply app_eq_nil in Hz as [-> Hd]. done.
  - assert (x = []) as -> by (apply zlen_nil_inv; pose proof (zlen_nonneg x); change (zlen []) with 0 in Hb; lia).
    done.
Qed.

Lemma ReadArea_triple st l L area dbNumber start dst :
  is_u8 area → is_u16 dbNumber → is_u32 start →
  triple (λ w, idle w ∧ start_at st l L w) (ReadArea area dbNumber start dst)
    (read_area_post st l L area dbNumber start dst) never.
Proof.
  intros Ha Hdb Hst.
  assert (∀ e, ¬ broken_error e → triple (λ w, idle w ∧ start_at st l L w) (mret (0, Some e, dst))
      (read_area_post st l L area dbNumber start dst) never) as Hfail.
  { intros e He. apply triple_ret. intros w (Hi & Hw & _ & HL). split; [done|]. split; [by apply told_unbroken|].
    exists [], []. split; [by apply read_trace_nil|]. split; [constructor|]. split; [done|]. split; [apply zlen_nonneg|done]. }
  assert (∀ f : Error, Impact f = SessionUnchanged → ¬ broken_error (EGos7 f)) as Hun
    by (intros f Hf; by apply unchanged_unbroken, unchanged_EGos7).
  unfold ReadArea. apply check_caller_triple; [apply _|intros f Hf; by apply Hfail, unchanged_unbroken|].
  eapply triple_bind; [apply (get_config_triple (λ w, idle w ∧ start_at st l L w)); [apply _|by intros w [[? _] _]]|].
  intros cfg. cbn beta. apply triple_pure. intros [Hcfg _ _].
  apply triple_pre with (λ w, idle w ∧ start_at st l L w); [|by intros w [? _]].
  destruct (zlen dst =? 0) eqn:Hz; [by apply Hfail, Hun|].
  destruct ((zlen dst >? MaxItemBytes (nConfig cfg)) || (zlen dst >? MaxBatchBytes (nConfig cfg))
    || (zlen dst >? MaxUint32)) eqn:Hlim; [by apply Hfail, Hun|].
  apply orb_false_iff in Hlim as [_ Hmax]. pose proof (zlen_nonneg dst) as Hnn.
  assert (is_u32 (zlen dst)) as Hu by (unfold MaxUint32, is_u32 in *; lia).
  rewrite (u32_id _ Hu). set (i := mkReadItem (mkAddress area dbNumber start 0) TransportByte (zlen dst)).
  assert (item_length i = zlen dst) as Hlen by (unfold item_length, item_bytes; cbn; lia).
  assert (read_item_values i) as Hv by (constructor; [by constructor|done|done]).
  pose proof (prepareReads_spec (nConfig cfg) [i] Hcfg ltac:(by constructor)) as Hprep.
  destruct (prepareReads (nConfig cfg) [i]) as [[its lens]|e|] eqn:Hp; [| |done].
  2: { apply prepareReads_unbroken in Hp. by apply Hfail. }
  destruct Hprep as ((Hcount & Hvalid & Htotal) & -> & -> & Hpl). apply (acquired_triple (start_at st l L)); [apply _|..].
  { intros e He. by apply Hfail, unchanged_unbroken. }
  eapply triple_bind.
  { eapply triple_pre; [apply (readLocked_triple (pdu := NegotiatedPDU l) (Served := delivered) (Refused := refused)
      (J := λ tr w, usable st l w ∧ wired l L tr w) (Bad := λ tr e w, failed_from st e w ∧ wired l L tr w)
      (Start := λ w, at_state st w ∧ limits (client w) = l ∧ wire_log w = L) (MaxItemBytes (nConfig cfg)) (Some [dst]));
      [destruct Hcfg; lia|done| |]|by intros w (? & ? & ? & ?)].
    - destruct Hcfg. unfold MaxInt. lia.
    - cbn. rewrite Hlen. by repeat constructor. }
  intros [[rs ps] err]. cbn beta. intros w (bufs & Hbufs & Hres).
  apply read_locked_post in Hres as (Hs & Ht & trace & [Hwi Hf] & He). cbn [fmap list_fmap] in *. rewrite Hlen in *.
  inversion He as [|n buf bufs' len lens r rs' p ps' Hr Hrest]; subst. inversion Hrest; subst. cbn [lift].
  change (elem [r] 0) with (Ok (E:=error) r). change (elem [p] 0) with (Ok (E:=error) p).
  change (settled w ∧ read_area_post st l L area dbNumber start dst
    (p, match err with None => RErr r | Some e => Some e end, written_through dst r) (release_gate w)).
  split; [done|]. split; [by apply release_idle|].
  destruct (written_through_spec (delivered trace) (read_error (refused trace) err) dst buf (zlen dst) r p)
    as (x & Hx & Hxp & Hpl' & Hwt & Hok); [by intros ->|..|done|done|].
  { destruct Hbufs as [Hb|Hb]; injection Hb as ->; [by left|by right]. }
  split.
  - destruct err as [e|]; [by apply told_release|]. destruct (RErr r) as [e|] eqn:Herr; [|by apply told_release].
    destruct Ht as [_ Hst']. destruct (ir_error _ _ _ _ _ _ _ Hr e Herr) as [(f & code & _ & _ & _ & ->)|?]; [|done].
    apply told_unbroken; [by apply Hun|by apply (release_ungated (in_state st)); [apply _|]].
  - exists trace, x. split; [split; [by apply wired_release|done]|]. split_and!; try done. destruct err as [e|]; [done|]. exact Hok.
Qed.
End any_peer.
