(* ===== verification/WriteProofs.v ===== *)
(** * WriteProofs: what a write leaves on the wire and in its results

    A write is a sequence of attempts, one per batch.  Every item is in at most
    one attempt; its outcome is computed from the frame that answered it
    ([a_reply]), or says exactly what is known without one. *)

From S2P Require Import Errors Protocol IsoTCP Config Item Planner Session SessionProofs DataPlane ReadProofs.

(** ** Attempts *)

Abbreviation write_attempt := (attempt preparedWrite).

(** It asked to write its batch, and was answered at most by one frame. *)
Definition attempt_ok (a : write_attempt) : Prop :=
  ∃ request, BuildWriteRequest (a_reference a) (wItem <$> a_batch a) = Ok request ∧
    transferred request (a_sent a) (a_answer a).

(** The return codes and the global code of the frame that came back, if it is
    an answer. *)
Definition a_reply (a : write_attempt) : option (list Z * Z) :=
  match payload_of (a_pdu a) (a_answer a) with
  | None => None
  | Some payload =>
      match ParseWriteResponse payload (a_reference a) (zlen (a_batch a)) with
      | Ok reply => Some reply
      | _ => None
      end
  end.

Definition replied (a : write_attempt) : Prop := a_reply a ≠ None.

(** The outcome of every item of an attempt. *)
Definition outcomes (a : write_attempt) : list WriteOutcome :=
  match a_reply a with
  | None => replicate (length (a_batch a)) WriteUnknown
  | Some (codes, global) =>
      if global =? 0 then (λ c, if c =? 0xff then WriteAcknowledged else WriteRejected) <$> codes
      else replicate (length (a_batch a)) WriteRejected
  end.

(** An item the PLC refused in one of the attempts. *)
Definition rejected_in (trace : list write_attempt) (e : error) : Prop :=
  ∃ a codes code, a ∈ trace ∧ a_reply a = Some (codes, 0) ∧ code ∈ codes ∧ code ≠ 0xff ∧
    e = EGos7 (plcItemError "write.item" code).

Lemma rejected_in_snoc trace a e : rejected_in trace e → rejected_in (trace ++ [a]) e.
Proof. intros (b & cs & c & Hb & ?). exists b, cs, c. split; [|done]. rewrite elem_of_app. by left. Qed.

(** ** Results of a batch *)

Fixpoint numbered (n : Z) (batch : list preparedWrite) : Prop :=
  match batch with
  | [] => True
  | it :: batch => wOriginal it = n ∧ numbered (n + 1) batch
  end.

Lemma numbered_app n a b : numbered n (a ++ b) ↔ numbered n a ∧ numbered (n + zlen a) b.
Proof.
  revert n. induction a as [|it a IH]; intros n; cbn; [by rewrite Z.add_0_r; tauto|].
  rewrite IH. replace (n + 1 + zlen a) with (n + zlen (it :: a)) by zlia. tauto.
Qed.

Lemma numbered_sub items a b : 0 ≤ a ≤ b → numbered 0 items → b ≤ zlen items → numbered a (sub items a b).
Proof.
  intros Hab Hn Hb. 
  assert (items = sub items 0 a ++ sub items a b ++ sub items b (zlen items)) as He.
  { rewrite sub_append by lia. rewrite sub_append by lia. by rewrite sub_full by lia. }
  rewrite He, !numbered_app in Hn. destruct Hn as (_ & Hn & _).
  rewrite zlen_sub in Hn by lia. by replace (0 + (a - 0)) with a in Hn by lia.
Qed.

Lemma set_batch_Ok f l3 batch : ∀ l1 l2, numbered (zlen l1) batch → length l2 = length batch →
  set_batch batch f (l1 ++ l2 ++ l3) = Ok (l1 ++ (f <$> l2) ++ l3).
Proof.
  induction batch as [|it batch IH]; intros l1 [|r l2] Hn Hl; try done.
  cbn [set_batch]. destruct Hn as [-> Hn]. cbn [app].
  rewrite (elem_Some _ _ r); [|apply zlen_nonneg|].
  2: { unfold zlen. rewrite Nat2Z.id, lookup_app_r, Nat.sub_diag by lia. done. }
  cbn [mbind outcome_bind]. rewrite set_result_Ok by zlia. cbn [mbind outcome_bind].
  unfold zlen at 1. rewrite Nat2Z.id. rewrite insert_app_r_alt, Nat.sub_diag by lia. cbn [list_insert insert].
  rewrite fmap_cons. cbn [app]. 
  specialize (IH (l1 ++ [f r]) l2). rewrite <-!app_assoc in IH. cbn [app] in IH.
  rewrite IH; [done| |cbn in Hl; lia]. rewrite zlen_app. by replace (zlen l1 + zlen [f r]) with (zlen l1 + 1) by zlia.
Qed.

(** The result of one return code. *)
Definition code_result (code : Z) : WriteResult :=
  if code =? 0xff then mkWriteResult WriteAcknowledged None
  else mkWriteResult WriteRejected (Some (EGos7 (plcItemError "write.item" code))).

Lemma applyReturnCodes_Ok l3 batch : ∀ codes l1 l2, numbered (zlen l1) batch →
  length l2 = length batch → length codes = length batch →
  applyReturnCodes batch codes (l1 ++ l2 ++ l3)
  = Ok (l1 ++ (code_result <$> codes) ++ l3, existsb (λ c, negb (c =? 0xff)) codes).
Proof.
  induction batch as [|it batch IH]; intros [|c codes] l1 [|r l2] Hn Hl Hc; try done.
  cbn [applyReturnCodes]. destruct Hn as [-> Hn]. cbn [app existsb fmap list_fmap].
  specialize (IH codes (l1 ++ [code_result c]) l2). rewrite <-!app_assoc in IH. cbn [app] in IH.
  assert (zlen (l1 ++ [code_result c]) = zlen l1 + 1) as Hz by zlia. rewrite Hz in IH.
  assert (∀ r', set_result (E:=error) (l1 ++ r :: l2 ++ l3) (zlen l1) r' = Ok (l1 ++ r' :: l2 ++ l3)) as Hset.
  { intros r'. rewrite set_result_Ok by zlia. unfold zlen at 1.
    rewrite Nat2Z.id. by rewrite insert_app_r_alt, Nat.sub_diag by lia. }
  assert (code_result c = if c =? 0xff then mkWriteResult WriteAcknowledged None
    else mkWriteResult WriteRejected (Some (EGos7 (plcItemError "write.item" c)))) as Hcr by done.
  destruct (c =? 0xff); rewrite Hset, <-Hcr; cbn [mbind outcome_bind negb orb];
    (rewrite IH; [|done|cbn in Hl; lia|cbn in Hc; lia]); done.
Qed.

(** ** Results of a write *)

(** The error of a result: none for an acknowledged item; otherwise the item
    was refused, or the whole operation failed with [err]. *)
Definition result_ok (trace : list write_attempt) (err : option error) (r : WriteResult) : Prop :=
  match WErr r with
  | None => Outcome r = WriteAcknowledged
  | Some e => Outcome r ≠ WriteAcknowledged ∧ (rejected_in trace e ∨ err = Some e)
  end.

(** [results] after the attempts [trace] and the failure [err] (if any): the
    attempts are those of an initial part of [prepared], in order; all but the
    last one were answered. *)
Record write_report (prepared : list preparedWrite) (trace : list write_attempt)
    (results : list WriteResult) (err : option error) : Prop := {
  wp_attempts : Forall attempt_ok trace;
  wp_replied : Forall replied (removelast trace);
  wp_outcomes : ∃ rest, prepared = concat (a_batch <$> trace) ++ rest ∧
    Outcome <$> results = concat (outcomes <$> trace) ++ replicate (length rest) WriteNotAttempted ∧
    (err = None → rest = []);
  wp_errors : Forall (result_ok trace err) results;
  wp_complete : err = None → Forall replied trace;
  wp_failed : err ≠ None → Exists (λ r, WErr r ≠ None) results;
}.

(** Between two batches, before item [next]. *)
Record written (prepared : list preparedWrite) (trace : list write_attempt) (next : Z)
    (results : list WriteResult) : Prop := {
  wr_attempts : Forall attempt_ok trace;
  wr_replied : Forall replied trace;
  wr_batches : concat (a_batch <$> trace) = sub prepared 0 next;
  wr_results : ∃ front,
    results = front ++ replicate (length prepared - Z.to_nat next) (mkWriteResult WriteNotAttempted None) ∧
    zlen front = next ∧ Outcome <$> front = concat (outcomes <$> trace) ∧
    Forall (result_ok trace None) front;
}.

Lemma result_ok_mono trace a err r : result_ok trace None r → result_ok (trace ++ [a]) err r.
Proof.
  unfold result_ok. destruct (WErr r) as [e|]; [|done]. intros [? [He|[=]]]. split; [done|].
  left. by apply rejected_in_snoc.
Qed.

Lemma markUnattempted_report trace front n failure results :
  results = front ++ replicate n (mkWriteResult WriteNotAttempted None) ∨
  results = front ++ replicate n (mkWriteResult WriteNotAttempted (Some failure)) →
  Forall (result_ok trace (Some failure)) front →
  markUnattemptedWrites results failure
  = front ++ replicate n (mkWriteResult WriteNotAttempted (Some failure)).
Proof.
  intros Hr Hf. unfold markUnattemptedWrites.
  assert (∀ k f, (λ r, f r) <$> (front ++ k) = (f <$> front) ++ (f <$> k) :> list WriteResult) as Happ
    by (intros; apply fmap_app).
  destruct Hr as [-> | ->]; rewrite fmap_app; f_equal.
  2,4: rewrite fmap_replicate; done.
  all: clear Happ; induction Hf as [|r front Hr _ IH]; [done|]; rewrite fmap_cons, IH; f_equal;
    unfold result_ok in Hr; destruct r as [o [e|]]; cbn in *; [by rewrite andb_false_r|by subst o].
Qed.

Lemma removelast_snoc {A} (l : list A) x : removelast (l ++ [x]) = l.
Proof. apply removelast_last. Qed.

(** The report after a failure: some attempts, then items never attempted. *)
Lemma failed_report prepared trace front rest failure results :
  Forall attempt_ok trace → Forall replied (removelast trace) →
  prepared = concat (a_batch <$> trace) ++ rest →
  Outcome <$> front = concat (outcomes <$> trace) → Forall (result_ok trace (Some failure)) front →
  results = front ++ replicate (length rest) (mkWriteResult WriteNotAttempted None) ∨
  results = front ++ replicate (length rest) (mkWriteResult WriteNotAttempted (Some failure)) →
  rest ≠ [] ∨ Exists (λ r, WErr r ≠ None) front →
  write_report prepared trace (markUnattemptedWrites results failure) (Some failure).
Proof.
  intros Hok Hrep Hp Ho Hf Hr He. rewrite (markUnattempted_report trace front _ _ _ Hr Hf).
  constructor; [done|done| | |done|].
  - exists rest. split; [done|]. split; [|done]. by rewrite fmap_app, Ho, fmap_replicate.
  - apply Forall_app. split; [done|]. apply Forall_replicate. split; [done|]. by right.
  - intros _. apply Exists_app. destruct He as [Hne|He]; [right|by left].
    destruct rest; [done|]. by left.
Qed.

(** ** The batch loop over a session *)

Section write_wire.
Context {P : Type} `{Peer P}.
Local Abbreviation World := (@World P).
Local Abbreviation M := (@M P).
Implicit Type w : World.

(** An attempt for a batch, with a reply or without. *)
Definition attempt_for (batch : list preparedWrite) (reply : option (list Z * Z)) (a : write_attempt) : Prop :=
  a_batch a = batch ∧ a_reply a = reply ∧ attempt_ok a.

(** What the write loop asks of the session it runs on: [J pdu trace] holds
    between exchanges, after the attempts [trace]; [Bad trace e] once the
    operation has failed with [e]. *)
Class WriteWire (prepared : list preparedWrite) (Start : World → Prop)
    (J : Z → list write_attempt → World → Prop) (Bad : list write_attempt → error → World → Prop)
    (Interrupted Malformed : list write_attempt → World → Prop) : Prop := {
  ww_ready : triple Start (try (readyPDU "write"))
    (λ r w, match r with
            | Ok pdu => 32 ≤ pdu ≤ MaxUint16 ∧ J pdu [] w | Err e => Bad [] e w | Panic => False
            end) never;
  ww_stable pdu tr : Stable (J pdu tr);
  ww_too_large pdu tr msg w : J pdu tr w → oversized pdu prepared = true →
    Bad tr (EGos7 (limitError "write" msg)) w;
  ww_reference pdu tr w r : is_u16 r → J pdu tr w → J pdu tr (on_client (set_reference r) w);
  ww_context pdu tr : triple (J pdu tr) (ctxErr Operation)
    (λ v w, match v with None => J pdu tr w | Some _ => Interrupted tr w end) never;
  ww_interrupted tr v :
    triple (Interrupted tr) (classifyContextError "write" Operation SessionUnchanged (EVar v))
      (λ f w, Bad tr (EGos7 f) w) never;
  ww_exchange pdu tr batch reference request :
    1 ≤ reference ≤ MaxUint16 → batch ≠ [] → write_batch_fits pdu batch →
    (∃ before after, prepared = before ++ batch ++ after) →
    BuildWriteRequest reference (wItem <$> batch) = Ok request →
    triple (J pdu tr) (exchange "write" request) (λ out w,
      match out.2 with
      | Panic => False
      | Err e =>
          if out.1 then ∃ a, attempt_for batch None a ∧ Bad (tr ++ [a]) e w else Bad tr e w
      | Ok payload => bytes payload ∧
          match ParseWriteResponse payload reference (zlen batch) with
          | Panic => True
          | Err _ => ∃ a, attempt_for batch None a ∧ Malformed (tr ++ [a]) w
          | Ok (codes, global) => ∃ a, attempt_for batch (Some (codes, global)) a ∧
              J pdu (tr ++ [a]) w ∧
              (global ≠ 0 → Bad (tr ++ [a]) (EGos7 (plcError "write" global)) w)
          end
      end) never;
  ww_malformed tr e :
    triple (Malformed tr) (breakSession ErrorProtocol)
      (λ _ w, Bad tr (EGos7 (protocolError "write.decode" e)) w) never;
  ww_rejected pdu tr e w : J pdu tr w → rejected_in tr e → Bad tr e w;
}.

Context {prepared : list preparedWrite} {Start : World → Prop} {J : Z → list write_attempt → World → Prop}
  {Bad : list write_attempt → error → World → Prop} {Interrupted Malformed : list write_attempt → World → Prop}
  `{Hwire : !WriteWire prepared Start J Bad Interrupted Malformed}.

Definition write_result (out : writeOutcome) (w : World) : Prop :=
  ∃ trace, write_report prepared trace out.1 out.2 ∧
    match out.2 with
    | None => ∃ pdu, J pdu trace w
    | Some e => Bad trace e w
    end.

(** A failure of the loop, after the attempts [trace]. *)
Lemma write_failure_triple trace front rest failure results (Pre : World → Prop) Er :
  Forall attempt_ok trace → Forall replied (removelast trace) →
  prepared = concat (a_batch <$> trace) ++ rest →
  Outcome <$> front = concat (outcomes <$> trace) → Forall (result_ok trace (Some failure)) front →
  results = front ++ replicate (length rest) (mkWriteResult WriteNotAttempted None) ∨
  results = front ++ replicate (length rest) (mkWriteResult WriteNotAttempted (Some failure)) →
  rest ≠ [] ∨ Exists (λ r, WErr r ≠ None) front →
  (∀ w, Pre w → Bad trace failure w) →
  triple Pre (write_failure (Ok results) failure) write_result Er.
Proof.
  intros ??????? Hb. unfold write_failure. apply triple_ret. intros w Hw. exists trace.
  split; [by eapply failed_report|by apply Hb].
Qed.

(** Batches of prepared items are well formed on the wire. *)
Definition wire_items : Prop :=
  numbered 0 prepared ∧
  Forall (λ it, Protocol.valid_item (Protocol.WItem (wItem it)) ∧
                zlen (Protocol.WData (wItem it)) = DataBytes (Protocol.WItem (wItem it))) prepared.

Lemma batch_request pdu batch reference :
  wire_items → (∃ before after, prepared = before ++ batch ++ after) → batch ≠ [] →
  write_batch_fits pdu batch → pdu ≤ MaxUint16 → 1 ≤ reference ≤ MaxUint16 →
  ∃ request, BuildWriteRequest reference (wItem <$> batch) = Ok request.
Proof.
  intros [_ Hall] (before & after & Hp) Hne (Hn & Hsize & _) Hpdu Hr.
  rewrite Hp, !Forall_app in Hall. destruct Hall as (_ & Hall & _).
  assert (Forall Protocol.valid_item (Protocol.WItem <$> (wItem <$> batch))) as Hv.
  { rewrite <-list_fmap_compose. apply Forall_fmap. eapply Forall_impl; [exact Hall|]. by intros it [? _]. }
  pose proof (BuildWriteRequest_spec reference (wItem <$> batch)) as Hb.
  destruct (BuildWriteRequest reference (wItem <$> batch)) as [request|e|]; [by exists request|exfalso..].
  - apply Hb; [unfold MaxUint16, is_u16 in *; lia|by eapply Forall_impl; [exact Hv|apply valid_typed]|].
    split; [|split].
    + split; [lia|]. split; [|done]. rewrite !zlen_map. unfold WireMaxItemsPerPDU, CompatibilityMaxItemsPerPDU in *.
      destruct batch; [done|]. zlia.
    + apply Forall_fmap. eapply Forall_impl; [exact Hall|]. by intros it [_ ?].
    + rewrite zlen_write_data. unfold WriteRequestSize in Hsize.
      unfold jobHeaderSize, itemSpecSize in Hsize. zlia.
  - apply Hb; [unfold MaxUint16, is_u16 in *; lia|by eapply Forall_impl; [exact Hv|apply valid_typed]].
Qed.

Local Abbreviation not_attempted := (mkWriteResult WriteNotAttempted None).

(** The state before the batch [next, stop): the results of the batch and of
    what follows it are untouched. *)
Lemma written_batch trace next stop results : written prepared trace next results →
  0 ≤ next → next < stop ≤ zlen prepared →
  ∃ front rest, results = front ++ replicate (length (sub prepared next stop)) not_attempted
                          ++ replicate (length rest) not_attempted ∧
    zlen front = next ∧ Outcome <$> front = concat (outcomes <$> trace) ∧
    Forall (result_ok trace None) front ∧ rest = sub prepared stop (zlen prepared) ∧
    prepared = concat (a_batch <$> trace) ++ sub prepared next stop ++ rest.
Proof.
  intros [_ _ Hb (front & -> & Hl & Ho & Hf)] Hn Hs. exists front, (sub prepared stop (zlen prepared)).
  assert (zlen (sub prepared next stop) = stop - next) as H1 by (apply zlen_sub; lia).
  assert (zlen (sub prepared stop (zlen prepared)) = zlen prepared - stop) as H2 by (apply zlen_sub; lia).
  split; [|split_and!; try done].
  - rewrite <-replicate_add. do 2 f_equal. unfold zlen in *. lia.
  - rewrite Hb, sub_append by lia. rewrite sub_append by lia. rewrite sub_full by lia. done.
Qed.

(** A failure after the attempt [a] at the batch [next, stop). *)
Lemma attempt_failure_triple trace a reply batch front rest mids failure (Pre : World → Prop) Er :
  Forall attempt_ok trace → Forall replied trace → attempt_for batch reply a →
  prepared = concat (a_batch <$> trace) ++ batch ++ rest →
  Outcome <$> front = concat (outcomes <$> trace) → Forall (result_ok trace None) front →
  Outcome <$> mids = outcomes a → Forall (result_ok (trace ++ [a]) (Some failure)) mids →
  Exists (λ r, WErr r ≠ None) mids → (∀ w, Pre w → Bad (trace ++ [a]) failure w) →
  triple Pre (write_failure (Ok (front ++ mids ++ replicate (length rest) not_attempted)) failure)
    write_result Er.
Proof.
  intros Hok Hrep (Ha & _ & Hao) Hp Ho Hf Hmo Hm Hex Hb.
  apply (write_failure_triple (trace ++ [a]) (front ++ mids) rest); [| | | | | |right; apply Exists_app; by right|done].
  - apply Forall_app. split; [done|]. by constructor.
  - by rewrite removelast_snoc.
  - rewrite fmap_app, concat_app. cbn [fmap list_fmap concat]. rewrite Ha, app_nil_r, <-app_assoc. done.
  - rewrite !fmap_app, concat_app, Ho, Hmo. cbn [fmap list_fmap concat]. by rewrite app_nil_r.
  - apply Forall_app. split; [|done]. eapply Forall_impl; [exact Hf|]. intros r. apply result_ok_mono.
  - left. by rewrite <-app_assoc.
Qed.

(** A failure before anything of the batch was sent. *)
Lemma unsent_failure_triple trace batch front rest mids failure (Pre : World → Prop) Er :
  Forall attempt_ok trace → Forall replied trace → batch ≠ [] →
  prepared = concat (a_batch <$> trace) ++ batch ++ rest →
  Outcome <$> front = concat (outcomes <$> trace) → Forall (result_ok trace None) front →
  mids = replicate (length batch) not_attempted ∨
  mids = replicate (length batch) (mkWriteResult WriteNotAttempted (Some failure)) →
  (∀ w, Pre w → Bad trace failure w) →
  triple Pre (write_failure (Ok (front ++ mids ++ replicate (length rest) not_attempted)) failure)
    write_result Er.
Proof.
  intros Hok Hrep Hne Hp Ho Hf Hm Hb. unfold write_failure. apply triple_ret. intros w Hw. exists trace.
  split; [|by apply Hb]. cbn [fst snd].
  assert (Forall (result_ok trace (Some failure)) front) as Hf'.
  { eapply Forall_impl; [exact Hf|]. intros r. unfold result_ok. destruct (WErr r); [|done].
    intros [? [?|[=]]]. split; [done|by left]. }
  replace (markUnattemptedWrites (front ++ mids ++ replicate (length rest) not_attempted) failure)
    with (markUnattemptedWrites (front ++ replicate (length (batch ++ rest)) not_attempted) failure).
  - apply (failed_report prepared trace front (batch ++ rest)); try done; [|by left|left; by destruct batch].
    clear -Hrep. induction trace as [|x [|y tr] IH]; [done..|]. inversion_clear Hrep. constructor; [done|by apply IH].
  - unfold markUnattemptedWrites. rewrite length_app, replicate_add, !fmap_app.
    do 2 f_equal. destruct Hm as [->| ->]; [done|]. by rewrite !fmap_replicate.
Qed.

(** *** The results of an answered batch *)

Lemma attempt_codes batch codes a : 1 ≤ zlen batch ≤ 255 → attempt_for batch (Some (codes, 0)) a →
  length codes = length batch.
Proof.
  intros Hn (<- & Hr & request & _ & Htr). unfold a_reply in Hr.
  destruct (payload_of _ _) as [payload|] eqn:Hp; [|done]. apply (payload_bytes _ request (a_sent a)) in Hp as Hb; [|done].
  destruct (ParseWriteResponse _ _ _) as [reply|e|] eqn:Hparse; [|done..]. injection Hr as ->.
  apply ParseWriteResponse_spec in Hparse as (_ & _ & p & d & g & _ & _ & _ & _ & -> & [[? _]|(_ & _ & -> & Hd)]);
    [done| |done..]. unfold zlen in *. lia.
Qed.

Lemma code_results_ok trace batch codes a err : attempt_for batch (Some (codes, 0)) a →
  Outcome <$> (code_result <$> codes) = outcomes a ∧
  Forall (result_ok (trace ++ [a]) err) (code_result <$> codes).
Proof.
  intros (_ & Hr & _). unfold outcomes. rewrite Hr. change (0 =? 0) with true. cbv iota. split.
  - rewrite <-list_fmap_compose. apply list_fmap_ext. intros i c _. cbn. unfold code_result. by case_if.
  - apply Forall_fmap, Forall_forall. intros c Hc. cbn. unfold code_result, result_ok.
    destruct (c =? 0xff) eqn:Hcode; cbn; [done|]. split; [done|]. left. exists a, codes, c.
    rewrite elem_of_app, list_elem_of_singleton. split; [by right|]. split_and!; try done. lia.
Qed.

Lemma firstWriteError_rejected tr l k : Forall (result_ok tr None) l → Exists (λ r, WErr r ≠ None) l →
  rejected_in tr (firstWriteError (l ++ k)).
Proof.
  intros Hl He. induction Hl as [|r l Hr _ IH]; [by inversion He|]. cbn [firstWriteError app].
  unfold result_ok in Hr. destruct (WErr r) as [e|] eqn:Herr; [by destruct Hr as [_ [?|[=]]]|].
  apply IH. by inversion He.
Qed.

Lemma rejected_exists codes : existsb (λ c, negb (c =? 0xff)) codes = true →
  Exists (λ r, WErr r ≠ None) (code_result <$> codes).
Proof.
  induction codes as [|c codes IH]; cbn [existsb]; [done|]. rewrite fmap_cons. unfold code_result at 1.
  destruct (c =? 0xff) eqn:Hc; cbn [negb orb]; intros Hx.
  - right. by apply IH.
  - by left.
Qed.

Lemma written_all trace results : written prepared trace (zlen prepared) results →
  write_report prepared trace results None.
Proof.
  intros [Hok Hrep Hb (front & -> & Hl & Ho & Hf)].
  assert (length prepared - Z.to_nat (zlen prepared) = 0)%nat as -> by (unfold zlen; lia).
  rewrite app_nil_r. constructor; [done| | |done|done|done].
  - clear -Hrep. induction trace as [|x [|y tr] IH]; [done..|].
    inversion_clear Hrep. constructor; [done|by apply IH].
  - exists []. rewrite Hb, sub_full by lia. cbn. by rewrite !app_nil_r.
Qed.

(** The state after an answered batch. *)
Lemma written_next trace a codes front stop next :
  let batch := sub prepared next stop in
  0 ≤ next → next < stop ≤ zlen prepared → 1 ≤ zlen batch ≤ 255 →
  Forall attempt_ok trace → Forall replied trace → concat (a_batch <$> trace) = sub prepared 0 next →
  zlen front = next → Outcome <$> front = concat (outcomes <$> trace) →
  Forall (result_ok trace None) front → attempt_for batch (Some (codes, 0)) a →
  written prepared (trace ++ [a]) stop
    (front ++ (code_result <$> codes) ++
     replicate (length (sub prepared stop (zlen prepared))) not_attempted).
Proof.
  intros batch Hn Hs Hb Hok Hrep Hbs Hl Ho Hf Ha. pose proof (attempt_codes _ _ _ Hb Ha) as Hc.
  destruct (code_results_ok trace batch codes a None Ha) as [Hco Hcf].
  assert (zlen batch = stop - next) as Hbl by (apply zlen_sub; lia).
  pose proof Ha as (Hab & Hr & Hao). constructor.
  - apply Forall_app. split; [done|]. by constructor.
  - apply Forall_app. split; [done|]. constructor; [|done]. unfold replied. by rewrite Hr.
  - rewrite fmap_app, concat_app. cbn [fmap list_fmap concat]. rewrite Hab, app_nil_r, Hbs.
    apply sub_append; lia.
  - exists (front ++ (code_result <$> codes)). split; [|split; [|split]].
    + rewrite <-app_assoc. do 3 f_equal.
      assert (zlen (sub prepared stop (zlen prepared)) = zlen prepared - stop) by (apply zlen_sub; lia).
      unfold zlen in *. lia.
    + rewrite zlen_app, zlen_map. unfold zlen in *. lia.
    + rewrite !fmap_app, concat_app, Ho, Hco. cbn [fmap list_fmap concat]. by rewrite app_nil_r.
    + apply Forall_app. split; [|done]. eapply Forall_impl; [exact Hf|]. intros r. apply result_ok_mono.
Qed.

Lemma failed_exists {A} (l : list A) o e : l ≠ [] →
  Exists (λ r, WErr r ≠ None) (replicate (length l) (mkWriteResult o (Some e))).
Proof. intros Hl. destruct l; [done|]. by left. Qed.

(** *** One turn of the loop *)

(** The turn for the batch [batch], after the attempts [trace] with the results
    [front]; [rest] follows. *)
Record turn (trace : list write_attempt) (front : list WriteResult) (batch rest : list preparedWrite) : Prop := {
  t_attempts : Forall attempt_ok trace;
  t_replied : Forall replied trace;
  t_prepared : prepared = concat (a_batch <$> trace) ++ batch ++ rest;
  t_outcomes : Outcome <$> front = concat (outcomes <$> trace);
  t_front : Forall (result_ok trace None) front;
  t_numbered : numbered (zlen front) batch;
  t_size : 1 ≤ zlen batch ≤ 255;
}.

(** The results before the turn, with [mids] for the batch. *)
Definition with_batch (front mids : list WriteResult) (rest : list preparedWrite) : list WriteResult :=
  front ++ mids ++ replicate (length rest) not_attempted.
Local Abbreviation untouched front batch rest :=
  (with_batch front (replicate (length batch) not_attempted) rest).

Lemma turn_nonempty trace front batch rest : turn trace front batch rest → batch ≠ [].
Proof. intros [_ _ _ _ _ _ Hn] ->. change (zlen []) with 0 in Hn. lia. Qed.

Lemma written_turn trace next stop pdu results (batch := sub prepared next stop) :
  wire_items → written prepared trace next results → 0 ≤ next → next < stop ≤ zlen prepared →
  write_batch_fits pdu batch →
  ∃ front, results = untouched front batch (sub prepared stop (zlen prepared)) ∧ zlen front = next ∧
    turn trace front batch (sub prepared stop (zlen prepared)).
Proof.
  intros [Hnum _] Hw Hn Hs Hfits.
  destruct (written_batch trace next stop results Hw Hn Hs) as (front & rest & Hr & Hl & Ho & Hf & -> & Hp).
  exists front. split; [exact Hr|]. split; [done|]. pose proof Hw as [Hok Hrep _ _].
  assert (zlen batch = stop - next) as Hbl by (apply zlen_sub; lia).
  constructor; [done..| |].
  - rewrite Hl. apply numbered_sub; [lia|done|lia].
  - destruct Hfits as (? & _). unfold CompatibilityMaxItemsPerPDU in *. lia.
Qed.

Lemma turn_set_batch trace front batch rest f : turn trace front batch rest →
  set_batch batch f (untouched front batch rest) = Ok (with_batch front (replicate (length batch) (f not_attempted)) rest).
Proof.
  intros Ht. unfold with_batch. rewrite set_batch_Ok by (apply Ht || by rewrite length_replicate).
  by rewrite fmap_replicate.
Qed.

(** Nothing of the batch was sent. *)
Lemma turn_unsent trace front batch rest mids failure (Pre : World → Prop) Er : turn trace front batch rest →
  mids = replicate (length batch) not_attempted ∨
  mids = replicate (length batch) (mkWriteResult WriteNotAttempted (Some failure)) →
  (∀ w, Pre w → Bad trace failure w) →
  triple Pre (write_failure (Ok (with_batch front mids rest)) failure) write_result Er.
Proof.
  intros Ht Hm Hb. pose proof (turn_nonempty _ _ _ _ Ht) as Hne. destruct Ht as [Hok Hrep Hp Ho Hf _ _].
  by eapply unsent_failure_triple.
Qed.

(** The batch failed as a whole. *)
Lemma turn_failed trace front batch rest a reply o failure (Pre : World → Prop) Er : turn trace front batch rest →
  attempt_for batch reply a → outcomes a = replicate (length batch) o → o ≠ WriteAcknowledged →
  (∀ w, Pre w → Bad (trace ++ [a]) failure w) →
  triple Pre (write_failure (set_batch batch (λ _, mkWriteResult o (Some failure)) (untouched front batch rest)) failure)
    write_result Er.
Proof.
  intros Ht Ha Ho Hne Hb. rewrite (turn_set_batch _ _ _ _ _ Ht). pose proof (turn_nonempty _ _ _ _ Ht).
  destruct Ht as [? ? ? ? ? _ _]. eapply attempt_failure_triple; try done.
  - by rewrite Ho, fmap_replicate.
  - apply Forall_replicate. split; [done|]. by right.
  - by apply failed_exists.
Qed.
Lemma unanswered batch a : attempt_for batch None a → outcomes a = replicate (length batch) WriteUnknown.
Proof. intros (<- & Hr & _). unfold outcomes. by rewrite Hr. Qed.
Lemma refused_batch batch codes global a : global ≠ 0 → attempt_for batch (Some (codes, global)) a →
  outcomes a = replicate (length batch) WriteRejected.
Proof. intros Hg (<- & Hr & _). unfold outcomes. rewrite Hr. by assert ((global =? 0) = false) as -> by lia. Qed.

(** Some item of the batch was refused, and the loop stops there. *)
Lemma turn_stopped trace front batch rest a codes (results := with_batch front (code_result <$> codes) rest) :
  turn trace front batch rest → attempt_for batch (Some (codes, 0)) a →
  existsb (λ c, negb (c =? 0xff)) codes = true → ∀ pdu w, J pdu (trace ++ [a]) w →
  triple (λ w', w = w') (write_failure (Ok results) (firstWriteError results)) write_result never.
Proof.
  intros [Hok Hrep Hp Ho Hf Hnum Hn] Ha Hex pdu w Hj. destruct (code_results_ok trace batch codes a None Ha) as [Hco Hcf].
  assert (rejected_in (trace ++ [a]) (firstWriteError results)) as Hrej.
  { unfold results, with_batch. rewrite app_assoc. apply firstWriteError_rejected.
    - apply Forall_app. split; [|done]. eapply Forall_impl; [exact Hf|]. intros r. apply result_ok_mono.
    - apply Exists_app. right. by apply rejected_exists. }
  eapply attempt_failure_triple; try done.
  - eapply Forall_impl; [exact Hcf|]. intros r. unfold result_ok. destruct (WErr r); [|done].
    intros [? [?|[=]]]. split; [done|by left].
  - by apply rejected_exists.
  - intros w' <-. by eapply ww_rejected.
Qed.

Lemma small_items pdu : oversized pdu prepared = false →
  Forall (λ it, WriteRequestSize [wItem it] ≤ pdu) prepared.
Proof.
  intros Hover. apply Forall_forall. intros it Hit. destruct (decide (WriteRequestSize [wItem it] ≤ pdu)); [done|].
  assert (oversized pdu prepared = true); [|congruence]. apply existsb_exists. exists it.
  rewrite <-list_elem_of_In. split; [done|]. lia.
Qed.

(** The loop when nothing is left. *)
Lemma writeLoop_done trace pdu results : written prepared trace (zlen prepared) results →
  triple (J pdu trace) (mret (results, None)) write_result never.
Proof.
  intros Hw. apply triple_ret. intros w Hj. exists trace. split; [by apply written_all|by exists pdu].
Qed.

(** The loop, one exchange per turn. *)
Lemma writeLoop_triple pdu stopAfterFailure : wire_items → 32 ≤ pdu ≤ MaxUint16 →
  oversized pdu prepared = false → ∀ fuel trace next results,
  0 ≤ next ≤ zlen prepared → zlen prepared - next ≤ Z.of_nat fuel →
  written prepared trace next results →
  triple (J pdu trace) (writeLoop fuel pdu stopAfterFailure prepared next results) write_result never.
Proof.
  intros Hitems Hpdu Hover%small_items fuel. induction fuel as [|fuel IH]; intros trace next results Hnext Hfuel Hw;
    cbn [writeLoop]; destruct (next <? zlen prepared) eqn:Hlt; cbn [negb]; [lia| | |].
  1,3: (assert (next = zlen prepared) as -> by lia; by apply writeLoop_done).
  pose proof (ww_stable pdu trace) as HsJ.
  destruct (nextWriteBatch_spec prepared next pdu stopAfterFailure) as (stop & -> & Hstop & Hfits & _ & _);
    [lia..|done|].
  destruct (written_turn trace next stop pdu results Hitems Hw ltac:(lia) ltac:(lia) Hfits) as (front & -> & Hl & Ht).
  set (batch := sub prepared next stop) in *. pose proof (turn_nonempty _ _ _ _ Ht) as Hne.
  assert (∃ before after, prepared = before ++ batch ++ after) as Hbatch by (do 2 eexists; apply (t_prepared _ _ _ _ Ht)).
  eapply triple_bind; [apply ww_context|]. intros [v|]; cbn beta.
  { eapply triple_bind; [apply ww_interrupted|]. intros failure. by eapply turn_unsent; [|left|]. }
  eapply triple_bind; [apply nextReference_triple; [done|intros; by apply ww_reference]|].
  intros reference. cbn beta. apply triple_pure. intros Href.
  destruct (batch_request pdu batch reference) as [request Hreq]; [done..|lia|lia|].
  rewrite Hreq. eapply triple_bind; [by apply (ww_exchange pdu trace batch reference request)|].
  intros [sent [payload|e|]]; cbn [fst snd]; [| |by intros w []].
  - apply triple_world. intros w [Hbytes Hp].
    destruct (ParseWriteResponse payload reference (zlen batch)) as [[codes global]|e|] eqn:Hparse;
      [| |by destruct (parsers_never_panic payload reference [] (zlen batch) Hbytes ltac:(done))
            as (_ & _ & Hret); destruct (Hret Hparse)].
    + destruct Hp as (a & Ha & Hj & Hg). destruct (decide (global = 0)) as [->|Hgl].
      * change (negb (0 =? 0)) with false. cbv iota. unfold with_batch at 1.
        rewrite applyReturnCodes_Ok by (apply Ht || (by rewrite length_replicate) || (eapply attempt_codes; [apply Ht|done])).
        destruct (stopAfterFailure && existsb _ codes) eqn:Hstopf.
        { apply andb_true_iff in Hstopf as [_ Hex]. by apply (turn_stopped _ _ _ _ a codes Ht Ha Hex pdu). }
        eapply triple_pre; [|by intros w' <-; exact Hj]. apply IH; [lia|lia|].
        destruct Ht as [? ? _ ? ? _ ?], Hw as [_ _ ? _]. eapply (written_next trace a codes front stop next); [lia|done..].
      * assert (negb (global =? 0) = true) as -> by lia.
        eapply turn_failed; [done|done|by eapply refused_batch|done|]. intros w' <-. by apply Hg.
    + destruct Hp as (a & Ha & Hm). eapply triple_pre; [|by intros w' <-; exact Hm].
      eapply triple_bind; [apply (ww_malformed (trace ++ [a]) e)|]. intros []. cbn beta zeta.
      eapply turn_failed; [done|done|by apply unanswered|done|done].
  - destruct sent.
    + intros w (a & Ha & Hbad). revert w Hbad. eapply turn_failed; [done|done|by apply unanswered|done|done].
    + rewrite (turn_set_batch _ _ _ _ _ Ht). by eapply turn_unsent; [|right|].
Qed.

(** *** writeLocked *)

Lemma writeLocked_triple items stopAfterFailure : wire_items →
  prepareWireWrites 0 items = Ok prepared → items ≠ [] →
  triple Start (writeLocked items stopAfterFailure) write_result never.
Proof.
  intros Hitems Hprep Hne.
  assert (length items = length prepared) as Hlen.
  { clear -Hprep. revert Hprep. generalize 0 prepared. induction items as [|it items IH]; intros n pr; cbn.
    - by intros [= <-].
    - intros (wire & _ & (rest & Hr & [= <-])%bind_Ok_inv)%bind_Ok_inv. cbn. f_equal. by eapply IH. }
  set (results := replicate (length items) (mkWriteResult WriteNotAttempted None)).
  assert (∀ err (Pre : World → Prop), (∀ w, Pre w → Bad [] err w) →
    triple Pre (mret (fail_all_writes results err, Some err)) write_result never) as Hfail.
  { intros err Pre Hb. apply triple_ret. intros w Hw. exists []. split; [|by apply Hb]. cbn [fst snd].
    unfold fail_all_writes, results. rewrite fmap_replicate.
    constructor; [done|done| | |done|intros _; by apply failed_exists].
    - exists prepared. split; [done|]. rewrite fmap_replicate, Hlen. by split.
    - apply Forall_replicate. split; [done|]. by right. }
  unfold writeLocked. fold results.
  eapply triple_bind; [apply ww_ready|]. intros [pdu|e|]; cbn beta zeta; [|by apply Hfail|by intros w []].
  apply triple_pure. intros Hpdu. pose proof (ww_stable pdu []) as Hst.
  eapply triple_bind; [apply ww_context|]. intros [v|]; cbn beta.
  { eapply triple_bind; [apply ww_interrupted|]. intros failure. cbn beta. by apply Hfail. }
  rewrite Hprep. destruct (oversized pdu prepared) eqn:Hover.
  { apply Hfail. intros w Hw. by eapply ww_too_large. }
  eapply triple_pre; [apply (writeLoop_triple pdu stopAfterFailure Hitems Hpdu Hover (length prepared) [])|done].
  - unfold zlen. lia.
  - unfold zlen. lia.
  - constructor; [done|done|done|]. exists []. split; [|done]. unfold results. rewrite Hlen. cbn. f_equal. lia.
Qed.
End write_wire.

(** ** Prepared items *)

Fixpoint prepared_of (n : Z) (items : list WriteItem) : list preparedWrite :=
  match items with
  | [] => []
  | it :: items =>
      mkPrepared n (Protocol.mkWriteItem (descriptor (WAddress it) (WTransport it) (WCount it)) (WData it))
      :: prepared_of (n + 1) items
  end.

Lemma prepareWireWrites_Ok maxItemBytes items : ∀ n,
  Forall write_item_values items → Forall (λ it, valid_write_item it maxItemBytes) items →
  prepareWireWrites n items = Ok (prepared_of n items) ∧ numbered n (prepared_of n items) ∧
  Forall (λ it, Protocol.valid_item (Protocol.WItem (wItem it)) ∧
                zlen (Protocol.WData (wItem it)) = DataBytes (Protocol.WItem (wItem it))) (prepared_of n items).
Proof.
  induction items as [|it items IH]; intros n Hv Hok; [done|].
  inversion_clear Hv as [|? ? [[Ha _ Hc] _] Hv']. inversion_clear Hok as [|? ? Hi Hok'].
  destruct Hi as ((Hva & Hc0 & _) & Hcount & Hwire & Hdata & _). cbn in *.
  destruct (makeProtocolItem_valid (WAddress it) (WTransport it) (WCount it)) as (Hm & Hvi & _); [done..|lia|done|].
  destruct (IH (n + 1) Hv' Hok') as (-> & Hn & Hf). rewrite Hm. cbn [map_err mbind outcome_bind].
  split; [done|]. split; [by split|]. constructor; [|done]. cbn. split; [done|].
  rewrite Hdata. unfold descriptor. by destruct (layoutFor (WTransport it)).
Qed.

(** ** Writes over any peer *)

Section any_peer.
Context {P : Type} `{Peer P}.
Local Abbreviation World := (@World P).
Local Abbreviation M := (@M P).
Implicit Type w : World.

#[export] Instance any_peer_write_wire prepared st l L :
  WriteWire prepared (λ w, at_state st w ∧ limits (client w) = l ∧ wire_log w = L)
    (λ _ tr w, usable st l w ∧ wired l L tr w) (λ tr e w, failed_from st e w ∧ wired l L tr w)
    (λ (tr : list write_attempt) w, at_state st w ∧ wired l L tr w)
    (λ (tr : list write_attempt) w, at_state st w ∧ wired l L tr w).
Proof.
  constructor.
  - eapply triple_conseq; [apply try_triple, (readyPDU_triple st l _ (λ w, wire_log w = L)); apply _|done| |done].
    assert (∀ w, wire_log w = L → wired (B:=preparedWrite) l L [] w) as Hnone by (intros w Hw; by split; [constructor|]).
    intros [n|e|] w; cbn beta; [|by intros [? ?]; split; [|apply Hnone]|done].
    intros ([? ->] & ? & ? & ?). split; [unfold MaxUint16; lia|]. split; [by split|by apply Hnone].
  - intros _ tr. apply and_stable; [|apply _]. apply and_stable; apply _.
  - intros _ tr msg w [[[Hw _] _] ?] _. split; [by apply unchanged_failure|done].
  - intros _ tr w r Hr [[[Hw ?] ?] ?]. split; [|done]. split; [|done]. split; [by apply at_state_set_reference|done].
  - intros _ tr. eapply triple_conseq; [apply (ctxErr_triple (λ w, usable st l w ∧ wired l L tr w))|done| |done].
    + apply and_stable; [|apply _]. apply and_stable; apply _.
    + by intros [v|] w; [intros [[[? _] _] ?]|].
  - intros tr v. apply interrupted_triple; [apply _|done].
  - intros pdu tr batch reference request Hr Hne Hfit Hbatch Hreq.
    eapply triple_conseq; [apply (exchange_attempt_triple st l L "write" request tr batch reference)|done| |done].
    intros [[|] [payload|e|]] w; cbn [fst snd]; [| |by intros (? & _ & _ & _ & _ & [])|done..].
    + intros (a & <- & <- & Htr & Hw & Hpl & Hb & Hu). split; [done|].
      assert (attempt_ok a) as Ha by (by exists request).
      destruct (ParseWriteResponse _ _ _) as [[codes g]|e|] eqn:Hp; [| |done]; exists a.
      * split; [split; [done|split; [|done]]; unfold a_reply; by rewrite Hpl, Hp|]. split; [done|].
        intros _. split; [apply unchanged_failure; [done|apply Hu]|done].
      * split; [split; [done|split; [|done]]; unfold a_reply; by rewrite Hpl, Hp|]. split; [apply Hu|done].
    + intros (a & <- & <- & Htr & Hw & Hpl & Hf). exists a. split; [|done].
      split; [done|]. split; [unfold a_reply; by rewrite Hpl|by exists request].
  - intros tr e. by apply break_triple.
  - intros _ tr e w [[[Hw _] _] ?] (a & cs & c & _ & _ & _ & _ & ->). split; [by apply unchanged_failure|done].
Qed.

(** ** Write *)

Definition write_post (st : State) (l : SessionLimits) (L : list (list transfer)) (input : list WriteItem)
    (out : writeOutcome) (w : World) : Prop :=
  idle w ∧ told st out.2 w ∧
  (out.1 = [] ∧ out.2 ≠ None ∧ wire_log w = L ∨
   ∃ trace, write_report (prepared_of 0 input) trace out.1 out.2 ∧ wired l L trace w).

Lemma prepareWrites_unbroken config input e : prepareWrites config input = Err e → ¬ broken_error e.
Proof.
  unfold prepareWrites. case_if; [by intros [= <-] (f & [= <-] & ?)|].
  case_if; [by intros [= <-] (f & [= <-] & ?)|].
  intros [Hp|([] & _ & [=])]%bind_Err_inv. clear -Hp. revert Hp. generalize 0 at 1. generalize 0.
  induction input as [|i input IH]; intros tot n; cbn [prepareWritesFrom]; [done|].
  intros [Hv|(len & _ & Hl)]%bind_Err_inv.
  - destruct (validateWriteItem i (MaxItemBytes config)); try done. injection Hv as <-. by intros (f & [=] & _).
  - revert Hl. case_if; [by intros [= <-] (f & [= <-] & ?)|]. exact (IH _ _).
Qed.

Lemma length_prepared_of items : ∀ n, length (prepared_of n items) = length items.
Proof. induction items as [|it items IH]; intros n; cbn; [done|by rewrite IH]. Qed.

(** The report of a write none of whose items was attempted. *)
Lemma unattempted_report input err : input ≠ [] →
  write_report (prepared_of 0 input) [] (makeWriteFailureResults (length input) err) (Some err).
Proof.
  intros Hne. unfold makeWriteFailureResults. constructor; [done|done| | |done|].
  - exists (prepared_of 0 input). rewrite fmap_replicate, length_prepared_of. by split.
  - apply Forall_replicate. split; [done|]. by right.
  - intros _. by apply failed_exists.
Qed.

Lemma write_told st l L (trace : list write_attempt) out w :
  match out with
  | None => ∃ pdu : Z, usable st l w ∧ wired l L trace w
  | Some e => failed_from st e w ∧ wired l L trace w
  end → settled w ∧ told st out w ∧ wired l L trace w.
Proof.
  destruct out as [e|].
  - intros [Hf Hl]. apply failed_told in Hf as [? ?]. by split.
  - intros (_ & [[[? ?] ?] _] & ?). split; [done|]. by split; [split|].
Qed.

(** The failures of a write before it has the session. *)
Lemma write_unsent_triple st l L input rs e : ¬ broken_error e →
  (rs = [] ∨ rs = makeWriteFailureResults (length input) e ∧ input ≠ []) →
  triple (λ w, idle w ∧ start_at st l L w) (mret (rs, Some e)) (write_post st l L input) never.
Proof.
  intros He Hrs. apply triple_ret. intros w (Hi & Hst & _ & HL). split; [done|].
  split; [by apply told_unbroken|]. destruct Hrs as [->|[-> Hne]]; [by left|right].
  exists []. split; [by apply unattempted_report|by split; [constructor|]].
Qed.

Lemma Write_triple st l L input : Forall write_item_values input →
  triple (λ w, idle w ∧ start_at st l L w) (Write input) (write_post st l L input) never.
Proof.
  intros Hvals. unfold Write.
  apply check_caller_triple; [apply _|intros f Hf; apply write_unsent_triple; [by apply unchanged_unbroken|by left]|].
  eapply triple_bind; [apply (get_config_triple (λ w, idle w ∧ start_at st l L w)); [apply _|by intros w [[? _] _]]|].
  intros cfg. cbn beta. apply triple_pure. intros [Hcfg _ _].
  apply triple_pre with (λ w, idle w ∧ start_at st l L w); [|by intros w [? _]].
  pose proof (prepareWrites_spec (nConfig cfg) input Hcfg Hvals) as Hprep.
  destruct (prepareWrites (nConfig cfg) input) as [its|e|] eqn:Hp; [| |done].
  2: { destruct input as [|i input'].
       { cbn in Hp. injection Hp as <-. case_if; apply write_unsent_triple; [|by left| |by left];
           by apply unchanged_unbroken, unchanged_EGos7. }
       apply prepareWrites_unbroken in Hp. case_if; apply write_unsent_triple; [done|by left|done|by right]. }
  destruct Hprep as ((Hcount & Hvalid & Htotal) & ->).
  assert (input ≠ []) as Hne by (intros ->; change (zlen (@nil WriteItem)) with 0 in Hcount; lia).
  destruct (prepareWireWrites_Ok _ input 0 Hvals Hvalid) as (Hpw & Hn & Hf).
  apply (acquired_triple (start_at st l L)); [apply _|..].
  { intros e He. apply write_unsent_triple; [by apply unchanged_unbroken|by right]. }
  eapply triple_conseq; [apply (writeLocked_triple (prepared := prepared_of 0 input)
    (Start := λ w, at_state st w ∧ limits (client w) = l ∧ wire_log w = L)
    (J := λ _ tr w, usable st l w ∧ wired l L tr w) (Bad := λ tr e w, failed_from st e w ∧ wired l L tr w) input false); done|..].
  - by intros w (? & ? & ? & ?).
  - intros [rs err] w (trace & Hrep & Hw). cbn [fst snd] in *. apply write_told in Hw as (Hs & Ht & Hl).
    split; [done|]. split; [by apply release_idle|]. split; [by apply told_release|]. right.
    exists trace. split; [done|by apply wired_release].
  - done.
Qed.

(** ** WriteArea *)

Section area.
Context (area dbNumber start : Z) (src : list Z).

(** The chunk of [len] bytes from [off] on. *)
Definition chunk_item (off len : Z) : WriteItem :=
  mkWriteItem (mkAddress area dbNumber (start + off) 0) TransportByte len (sub src off (off + len)).
Definition chunk (off len : Z) : list preparedWrite := prepared_of 0 [chunk_item off len].

(** Attempts for consecutive chunks from the first byte up to byte [n],
    every one acknowledged. *)
Inductive acknowledged_chunks : list write_attempt → Z → Prop :=
| ac_nil : acknowledged_chunks [] 0
| ac_snoc acked n a len :
    acknowledged_chunks acked n → 0 < len → n + len ≤ zlen src →
    a_batch a = chunk n len → outcomes a = [WriteAcknowledged] →
    acknowledged_chunks (acked ++ [a]) (n + len).

(** [n] bytes are confirmed: they were acknowledged in order, and at most
    one more chunk, the next one, went out without being acknowledged. *)
Definition area_written (l : SessionLimits) (L : list (list transfer)) (n : Z) (err : option error)
    (w : World) : Prop :=
  ∃ acked failed,
    wired l L (acked ++ option_list failed) w ∧
    Forall attempt_ok (acked ++ option_list failed) ∧
    acknowledged_chunks acked n ∧ 0 ≤ n ≤ zlen src ∧
    (err = None → n = zlen src ∧ failed = None) ∧
    (∀ a, failed = Some a → ∃ len, 0 < len ∧ n + len ≤ zlen src ∧ a_batch a = chunk n len ∧
       outcomes a ≠ [WriteAcknowledged]).

Lemma confirmed_written l L acked n err w : wired l L acked w → Forall attempt_ok acked →
  acknowledged_chunks acked n → 0 ≤ n ≤ zlen src → (err = None → n = zlen src) →
  area_written l L n err w.
Proof.
  intros Hl Hok Hack Hn He. exists acked, None. cbn [option_list]. rewrite app_nil_r.
  do 4 (split; [done|]). split; [|done]. intros E. by split; [apply He|].
Qed.

Lemma attempt_nonempty a : attempt_ok a → a_batch a ≠ [].
Proof.
  intros (request & Hr & _) Hb. rewrite Hb in Hr. cbn in Hr. done.
Qed.

(** One item written on its own. *)
Lemma single_report p trace results err : write_report [p] trace results err →
  (∃ r e, results = [r] ∧ trace = [] ∧ Outcome r = WriteNotAttempted ∧ WErr r = Some e ∧ err = Some e) ∨
  (∃ r a, results = [r] ∧ trace = [a] ∧ attempt_ok a ∧ a_batch a = [p] ∧ outcomes a = [Outcome r] ∧
     (Outcome r = WriteAcknowledged → err = None) ∧
     (Outcome r ≠ WriteAcknowledged → ∃ e, WErr r = Some e ∧ (unchanged_error e ∨ err = Some e))).
Proof.
  intros [Hok _ (rest & Hp & Ho & Hnone) He _ Hfail].
  destruct trace as [|a trace].
  - left. cbn in Hp, Ho. subst rest. destruct results as [|r [|? ?]]; [done| |done]. cbn in Ho.
    injection Ho as Hor. inversion_clear He as [|? ? Hr _]. unfold result_ok in Hr.
    destruct (WErr r) as [e|] eqn:Herr; [|congruence].
    destruct Hr as [_ [(a & _ & _ & Ha & _)|Hr]]; [by apply elem_of_nil in Ha|]. by exists r, e.
  - right. inversion_clear Hok as [|? ? Ha Htr]. pose proof (attempt_nonempty a Ha) as Hne.
    cbn [fmap list_fmap concat] in Hp. destruct (a_batch a) as [|q b] eqn:Hb; [done|].
    cbn in Hp. injection Hp as <- Hp. symmetry in Hp. apply app_eq_nil in Hp as [Hp ->].
    apply app_eq_nil in Hp as [-> Hp].
    assert (trace = []) as ->.
    { destruct trace as [|a' trace]; [done|]. inversion_clear Htr as [|? ? Ha' _].
      cbn in Hp. apply app_eq_nil in Hp as [Hp _]. by apply attempt_nonempty in Ha'. }
    cbn in Ho. rewrite !app_nil_r in Ho.
    assert (length (outcomes a) = 1)%nat as Hlen.
    { unfold outcomes. destruct (a_reply a) as [[codes g]|] eqn:Hrep; [|by rewrite Hb].
      destruct (g =? 0) eqn:Hg; [|by rewrite Hb]. assert (g = 0) as -> by lia.
      rewrite length_fmap. rewrite (attempt_codes [p] codes a); [done|by cbn|by split_and!]. }
    destruct results as [|r [|? ?]]; cbn in Ho; rewrite <-Ho in Hlen; [done| |done].
    exists r, a. split_and!; try done. all: inversion_clear He as [|? ? Hr _]; unfold result_ok in Hr.
    + intros Hack. destruct err as [e|]; [|done]. specialize (Hfail ltac:(done)).
      inversion_clear Hfail as [? ? Hf|? ? Hf]; [|by inversion Hf].
      destruct (WErr r); [by destruct Hr|done].
    + intros Hack. destruct (WErr r) as [e|]; [|done]. exists e. split; [done|].
      destruct Hr as [_ [(b & cs & c & _ & _ & _ & _ & ->)|?]]; [left; by eexists|by right].
Qed.

Context (cfg : normalizedConfig) (Hcfg : settings_ok (nConfig cfg)).
Context (Harea : is_u8 area) (Hdb : is_u16 dbNumber) (Hstart : is_u32 start).
(** What [WriteArea] checks before it takes the gate. *)
Context (Hvalid : valid_read_item (mkReadItem (mkAddress area dbNumber start 0) TransportByte (zlen src))
  (MaxBatchBytes (nConfig cfg))).
Context (Hbytes : bytes src) (Hsize : is_u32 (zlen src)).

Lemma chunk_acceptable off len : 0 ≤ off → 0 < len → off + len ≤ zlen src → len ≤ 8191 →
  len ≤ MaxItemBytes (nConfig cfg) →
  write_item_values (chunk_item off len) ∧ acceptable_writes (nConfig cfg) [chunk_item off len].
Proof.
  intros Ho Hl Hs Hmax Hitem. destruct Hvalid as (Hva & _ & _ & Hb & Hlast).
  change (zlen src * 1 ≤ MaxBatchBytes (nConfig cfg)) in Hb. unfold last_address in Hlast.
  cbn [RAddress RTransport RCount] in *.
  change (item_bytes TransportByte (zlen src)) with (zlen src * 1) in Hlast. cbn [Area Offset] in Hlast.
  assert (byte_area area = true) as Hba.
  { destruct Hva as [_ Hva]. cbn [Area] in Hva. destruct (byte_area area); [done|].
    destruct Hva as (_ & _ & _ & Ht). by destruct (area =? AreaTimer). }
  rewrite Hba in Hlast. unfold is_u32 in *.
  split.
  - constructor; [|by apply bytes_sub]. constructor; [|done|unfold is_u32; cbn; lia].
    constructor; [done|done|unfold is_u32; cbn; lia|done].
  - assert (valid_write_item (chunk_item off len) (MaxItemBytes (nConfig cfg))) as Hv.
    { split; [|split; [|split; [|split]]]; cbn [WAddress WTransport WCount WData chunk_item].
      - split; [|split; [|split; [|split]]].
        + destruct Hva as [Ht Hva]. split; [done|]. cbn [RAddress RTransport Area Bit DBNumber Offset] in *.
          rewrite Hba in *. destruct Hva as (? & ? & ? & ? & ? & _). do 5 (split; [done|]). lia.
        + done.
        + done.
        + change (len * 1 ≤ MaxItemBytes (nConfig cfg)). lia.
        + unfold last_address. cbn [RAddress RTransport RCount Area Offset].
          change (item_bytes TransportByte len) with (len * 1). rewrite Hba. lia.
      - unfold MaxUint16. lia.
      - change (wire_length TransportByte len) with (len * 1 * 8). unfold MaxUint16. lia.
      - change (item_bytes TransportByte len) with (len * 1). rewrite zlen_sub by lia. lia.
      - done. }
    destruct Hcfg. split; [change (zlen [chunk_item off len]) with 1; lia|]. split; [by constructor|].
    cbn. change (write_length (chunk_item off len)) with (len * 1). lia.
Qed.

(** The wire fields of a chunk do not wrap around. *)
Lemma chunk_fields off len : 0 ≤ off → 0 < len → off + len ≤ zlen src → len ≤ 8191 →
  len ≤ MaxItemBytes (nConfig cfg) → u32 (start + u32 off) = start + off ∧ u32 len = len.
Proof.
  intros. destruct (chunk_acceptable off len) as [[[[_ _ Ho _] _ Hl] _] _]; [done..|].
  cbn in Ho, Hl. unfold is_u32 in *. rewrite (u32_id off), !u32_id by (unfold is_u32; lia). done.
Qed.

(** The requests of a chunk come after those of the chunks before it. *)
Lemma wired_app l L (acked trace : list write_attempt) w : in_limits l acked →
  wired l (wire_after acked L) trace w → wired l L (acked ++ trace) w.
Proof. intros Ha [Ht Hw]. split; [by apply Forall_app|by rewrite wire_after_app]. Qed.

(** A chunk that went out and was not acknowledged ends the loop. *)
Lemma failed_written l L acked off len a e w : Forall attempt_ok acked → acknowledged_chunks acked off →
  0 ≤ off ≤ zlen src → 0 < len → off + len ≤ zlen src → attempt_ok a → a_batch a = chunk off len →
  outcomes a ≠ [WriteAcknowledged] → wired l L (acked ++ [a]) w →
  area_written l L off (Some e) w.
Proof.
  intros Hok Hack Hoff Hlen Hend Ha Hb Ho Hl. exists acked, (Some a). cbn [option_list].
  split; [done|].
  split; [apply Forall_app; split; [done|by constructor]|]. split; [done|]. split; [lia|]. split; [done|].
  intros a' [= <-]. by exists len.
Qed.

(** The loop so far: the chunks up to [off] are acknowledged. *)
Definition area_so_far (st : State) (l : SessionLimits) (L : list (list transfer)) (acked : list write_attempt)
    (w : World) : Prop := usable st l w ∧ wired l L acked w.
Definition area_result (st : State) (l : SessionLimits) (L : list (list transfer)) (out : Z * option error)
    (w : World) : Prop := settled w ∧ told st out.2 w ∧ area_written l L out.1 out.2 w.

Lemma area_done st l L acked w : Forall attempt_ok acked → acknowledged_chunks acked (zlen src) →
  area_so_far st l L acked w → area_result st l L (zlen src, None) w.
Proof.
  intros Hok Hack ([[[Hs ?] ?] _] & Hl). unfold area_result. cbn [fst snd]. split; [done|]. split; [done|]. pose proof (zlen_nonneg src).
  apply (confirmed_written l L acked); [done..|lia|done].
Qed.

(** One chunk, with the results the loop looks at. *)
Lemma area_chunk_triple st l L acked off len : 0 ≤ off → 0 < len → off + len ≤ zlen src → len ≤ 8191 →
  len ≤ MaxItemBytes (nConfig cfg) → Forall attempt_ok acked → acknowledged_chunks acked off →
  triple (area_so_far st l L acked) (writeLocked [chunk_item off len] true)
    (λ out w, ∃ r, out.1 = [r] ∧
       if decide (Outcome r = WriteAcknowledged) then out.2 = None ∧ ∃ a, Forall attempt_ok (acked ++ [a]) ∧
         acknowledged_chunks (acked ++ [a]) (off + len) ∧ area_so_far st l L (acked ++ [a]) w
       else ∃ e, WErr r = Some e ∧ settled w ∧ told st (Some (default e out.2)) w ∧
         ∀ e', area_written l L off (Some e') w) never.
Proof.
  intros Ho Hl Hend Hm Hi Hok Hack. destruct (chunk_acceptable off len) as [Hv (_ & Hvalid' & _)]; [done..|].
  destruct (prepareWireWrites_Ok _ [chunk_item off len] 0 ltac:(by constructor) Hvalid') as (Hpw & Hn & Hf).
  intros w0 ([[Hw0 Hready0] Hl0] & Hin & HL).
  pose proof (writeLocked_triple (prepared := chunk off len)
    (Start := λ w, at_state st w ∧ limits (client w) = l ∧ wire_log w = wire_after acked L)
    (J := λ _ tr w, usable st l w ∧ wired l (wire_after acked L) tr w)
    (Bad := λ tr e w, failed_from st e w ∧ wired l (wire_after acked L) tr w)
    [chunk_item off len] true ltac:(done) Hpw ltac:(done) w0 (conj Hw0 (conj Hl0 HL))) as Ht.
  destruct (writeLocked _ _ w0) as [[[results err]|e|] w]; [|done..].
  destruct Ht as (trace & Hrep & Hw). cbn [fst snd] in *.
  pose proof (write_told st l (wire_after acked L) trace err w Hw) as (Hs & Htold & Hwi).
  apply wired_app in Hwi; [|done].
  destruct (single_report _ _ _ _ Hrep) as [(r & e & -> & -> & Hor & Her & ->)|(r & a & -> & -> & Ha & Hab & Hout & Hgood & Hbad)];
    exists r; (split; [done|]).
  - rewrite decide_False by congruence. exists e. split; [done|]. split; [done|]. split; [done|]. intros e'.
    rewrite app_nil_r in Hwi. pose proof (zlen_nonneg src). apply (confirmed_written l L acked); [done..|lia|done].
  - case_decide as Hor.
    + rewrite (Hgood Hor) in *. split; [done|]. exists a. destruct Hw as (_ & Hu & _).
      split; [apply Forall_app; split; [done|by constructor]|]. split; [|by split].
      eapply ac_snoc; [done..|]. by rewrite Hout, Hor.
    + destruct (Hbad Hor) as (e & Her & He). exists e. split; [done|]. split; [done|]. split.
      * destruct err as [e'|]; [done|]. cbn. destruct He as [He|[=]].
        apply told_unbroken; [by apply unchanged_unbroken|apply Htold].
      * intros e'. apply (failed_written l L acked off len a); (done || lia || (rewrite Hout; congruence)).
Qed.

Lemma writeAreaLoop_triple st l L maxChunk : 1 ≤ maxChunk ≤ 8191 → maxChunk ≤ MaxItemBytes (nConfig cfg) →
  ∀ fuel acked off,
  0 ≤ off ≤ zlen src → zlen src - off ≤ Z.of_nat fuel * maxChunk →
  acknowledged_chunks acked off → Forall attempt_ok acked →
  triple (area_so_far st l L acked) (writeAreaLoop fuel (nConfig cfg) area dbNumber start maxChunk src off off)
    (area_result st l L) never.
Proof.
  intros Hmc Hmi fuel. induction fuel as [|fuel IH]; intros acked off Hoff Hfuel Hack Hok;
    cbn [writeAreaLoop]; destruct (off <? zlen src) eqn:Hlt; cbn [negb]; [lia| | |].
  1,3: (assert (off = zlen src) as -> by lia; apply triple_ret; intros w; by apply area_done).
  set (len := smallerInt maxChunk (zlen src - off)).
  assert (0 < len ≤ maxChunk ∧ off + len ≤ zlen src ∧ (len = maxChunk ∨ off + len = zlen src)) as Hlen.
  { unfold len, smallerInt. case_if; lia. }
  rewrite slice_Ok by lia. change (lift (Ok ?a) ≫= ?f) with (f a). cbn beta.
  destruct (chunk_fields off len) as [-> ->]; [lia..|]. destruct (chunk_acceptable off len) as [Hv Hacc]; [lia..|].
  change (mkWriteItem (mkAddress area dbNumber (start + off) 0) TransportByte len (sub src off (off + len)))
    with (chunk_item off len).
  pose proof (prepareWrites_spec (nConfig cfg) [chunk_item off len] Hcfg ltac:(by constructor)) as Hprep.
  destruct (prepareWrites (nConfig cfg) [chunk_item off len]) as [its|e|]; [|done|done].
  destruct Hprep as [_ ->].
  eapply triple_bind; [apply (area_chunk_triple st l L acked off len); try done; lia|].
  intros [results err]. cbn beta. cbn [fst snd]. intros w (r & -> & Hr). case_decide as Hor.
  - destruct Hr as (-> & a & Hok' & Hack' & Hw). rewrite bool_decide_true by done. cbn [negb].
    apply (IH (acked ++ [a]) (off + len)); [lia| |done..].
    destruct Hlen as (? & ? & [->|Hend]); [lia|]. rewrite Hend. nia.
  - destruct Hr as (e & Her & Hs & Htold & Hwr). rewrite bool_decide_false by done. cbn [negb]. rewrite Her.
    split; [done|]. destruct err as [e'|]; split; [done|apply Hwr|done|apply Hwr].
Qed.

Lemma WriteArea_locked_triple st l L :
  triple (λ w, at_state st w ∧ limits (client w) = l ∧ wire_log w = L)
    (ready ← try (readyPDU "write_area");
     match ready with
     | Panic => lift Panic
     | Err err => mret (0, Some err)
     | Ok pdu =>
         let maxChunk := area_chunk (nConfig cfg) pdu in
         if maxChunk <? 1
         then mret (0, Some (EGos7 (limitError "write_area" "negotiated PDU cannot carry a byte item")))
         else
           let itemCount := Z.quot (zlen src + maxChunk - 1) maxChunk in
           if itemCount >? MaxFragmentsPerCall (nConfig cfg)
           then mret (0, Some (EGos7 (limitError "write_area" "chunk count exceeds max_fragments_per_call")))
           else writeAreaLoop (Z.to_nat itemCount) (nConfig cfg) area dbNumber start maxChunk src 0 0
     end)
    (area_result st l L) never.
Proof.
  pose proof (zlen_nonneg src) as Hnn.
  assert (∀ e w, failed_from st e w ∧ wire_log w = L → area_result st l L (0, Some e) w) as Hfail.
  { intros e w [[Hs Ht]%failed_told Hl]. split; [done|]. split; [done|].
    apply (confirmed_written l L []); [by split; [constructor|]|done|constructor|cbn; lia|done]. }
  eapply triple_bind; [apply try_triple, (readyPDU_triple st l _ (λ w, wire_log w = L)); apply _|].
  intros [pdu|e|]; cbn beta; [|apply triple_ret; intros w Hw; by apply Hfail|by intros w []].
  apply triple_pure. intros [Hpdu _].
  assert (∀ msg, triple (λ w, ready_from st w ∧ limits (client w) = l ∧ wire_log w = L)
    (mret (0, Some (EGos7 (limitError "write_area" msg)))) (area_result st l L) never) as Hlimit.
  { intros msg. apply triple_ret. intros w ([Hw _] & _ & Hl). apply Hfail. split; [by apply unchanged_failure|done]. }
  set (m := area_chunk (nConfig cfg) pdu). assert (m ≤ 8191 ∧ m ≤ MaxItemBytes (nConfig cfg)) as [Hm1 Hm2].
  { unfold m, area_chunk. change (Z.quot MaxUint16 8) with 8191. cbn zeta. destruct (pdu - 28 >? 8191) eqn:?; case_if; lia. }
  cbn zeta. destruct (m <? 1) eqn:Hm; [apply Hlimit|].
  destruct (Z.quot (zlen src + m - 1) m >? MaxFragmentsPerCall (nConfig cfg)); [apply Hlimit|].
  eapply triple_pre; [apply (writeAreaLoop_triple st l L m ltac:(lia) Hm2 _ [] 0); [lia| |constructor|done]|].
  - rewrite Z.quot_div_nonneg by lia.
    pose proof (Z.div_mod (zlen src + m - 1) m ltac:(lia)). pose proof (Z.mod_pos_bound (zlen src + m - 1) m ltac:(lia)).
    rewrite Z2Nat.id by (apply Z.div_pos; lia). lia.
  - intros w (? & ? & ?). split; [by split|]. by split; [constructor|].
Qed.
End area.

(** Validation errors leave the session alone. *)
Lemma validateItemAddress_unbroken a t e : validateItemAddress a t = Err e → ¬ broken_error e.
Proof.
  unfold validateItemAddress. destruct (layoutFor t); [|by intros [= <-] (f & [= <-] & ?)].
  intros He. apply bind_Err_inv in He as [He|([] & _ & He)].
  - revert He. repeat case_if; by intros [= <-] (f & [= <-] & ?).
  - revert He. case_if; [case_if; [by intros [= <-] (f & [= <-] & ?)|]|].
    + intros He. apply bind_Err_inv in He as [He|([] & _ & He)]; revert He;
        repeat case_if; by intros [= <-] (f & [= <-] & ?).
    + case_if; by intros [= <-] (f & [= <-] & ?).
Qed.

Lemma validateReadItem_unbroken i max e : validateReadItem i max = Err e → ¬ broken_error e.
Proof.
  unfold validateReadItem. intros [He|(a & _ & He)]%bind_Err_inv; [by eapply validateItemAddress_unbroken|].
  apply bind_Err_inv in He as [He|(n & _ & He)]; revert He; unfold itemDataLength;
    [destruct (layoutFor _)|]; repeat case_if; by intros [= <-] (f & [= <-] & ?).
Qed.

Definition write_area_post (st : State) (l : SessionLimits) (L : list (list transfer))
    (area dbNumber start : Z) (src : list Z) (out : Z * option error) (w : World) : Prop :=
  idle w ∧ told st out.2 w ∧ area_written area dbNumber start src l L out.1 out.2 w.

Lemma WriteArea_triple st l L area dbNumber start src :
  is_u8 area → is_u16 dbNumber → is_u32 start → bytes src →
  triple (λ w, idle w ∧ start_at st l L w) (WriteArea area dbNumber start src)
    (write_area_post st l L area dbNumber start src) never.
Proof.
  intros Ha Hdb Hst Hb. pose proof (zlen_nonneg src) as Hnn.
  assert (∀ e, ¬ broken_error e →
    triple (λ w, idle w ∧ start_at st l L w) (mret (0, Some e))
      (write_area_post st l L area dbNumber start src) never) as Hfail.
  { intros e He. apply triple_ret. intros w (Hi & Hw & _ & HL). split; [done|]. split; [by apply told_unbroken|].
    apply (confirmed_written area dbNumber start src l L []); [by split; [constructor|]|done|constructor|cbn; lia|done]. }
  assert (∀ f : Error, Impact f = SessionUnchanged → ¬ broken_error (EGos7 f)) as Hun
    by (intros f Hf; by apply unchanged_unbroken, unchanged_EGos7).
  unfold WriteArea. apply check_caller_triple; [apply _|intros f Hf; by apply Hfail, unchanged_unbroken|].
  eapply triple_bind; [apply (get_config_triple (λ w, idle w ∧ start_at st l L w)); [apply _|by intros w [[? _] _]]|].
  intros cfg. cbn beta. apply triple_pure. intros [Hcfg _ _].
  apply triple_pre with (λ w, idle w ∧ start_at st l L w); [|by intros w [? _]].
  destruct (zlen src =? 0); [by apply Hfail, Hun|].
  destruct (zlen src >? MaxBatchBytes (nConfig cfg)); [by apply Hfail, Hun|].
  destruct (zlen src >? MaxUint32) eqn:Hmax; [by apply Hfail, Hun|].
  assert (is_u32 (zlen src)) as Hu by (unfold MaxUint32, is_u32 in *; lia).
  rewrite (u32_id _ Hu).
  set (i := mkReadItem (mkAddress area dbNumber start 0) TransportByte (zlen src)).
  assert (read_item_values i) as Hv by (constructor; [by constructor|done|done]).
  pose proof (validateReadItem_spec i (MaxBatchBytes (nConfig cfg)) Hv) as Hval.
  destruct (validateReadItem i (MaxBatchBytes (nConfig cfg))) as [n|e|] eqn:He; [| |done].
  2: { apply Hfail. by apply (validateReadItem_unbroken i (MaxBatchBytes (nConfig cfg))). }
  destruct Hval as [Hval _]. apply (acquired_triple (start_at st l L)); [apply _|..].
  { intros e He'. by apply Hfail, unchanged_unbroken. }
  eapply triple_conseq; [by apply (WriteArea_locked_triple area dbNumber start src cfg Hcfg Ha Hdb Hst Hval Hb Hu st l L)|..].
  - by intros w (? & ? & ? & ?).
  - intros [n' err] w (Hs & Ht & Hw). cbn [fst snd] in *. split; [done|]. split; [by apply release_idle|].
    split; [by apply told_release|]. destruct Hw as (ac & fl & Hl & Hrest). exists ac, fl.
    split; [by apply wired_release|done].
  - done.
Qed.
End any_peer.
