(* ===== verification/ClientProofs.v ===== *)
(** * ClientProofs: what the public operations of a client guarantee

    The properties of New, Dial, Connect, Close, Read, Write, ReadArea and
    WriteArea over every peer and every schedule of interference, and the
    invariant of every world the public operations can reach. *)

From S2P Require Import Errors Protocol IsoTCP Config Item Planner Session SessionProofs DataPlane ReadProofs WriteProofs.

Section client.
Context {P : Type} `{Peer P}.
Local Abbreviation World := (@World P).
Local Abbreviation Env := (@Env P).
Local Abbreviation M := (@M P).
Implicit Type w : World.

(** ** New *)

(** An environment in which nothing has happened yet. *)
Record fresh (e : Env) : Prop := {
  fr_conns : conns e = [];
  fr_closer : closer e = O;
  fr_closerConn : closerConn e = None;
  fr_dials : Forall dial_typed (dials e);
}.

Lemma accepted_config input n : addressing_values (AddressingOf input) → accepted input n → config_ok n.
Proof.
  intros Hv [_ Hs _ Ht _]. constructor; [done| |].
  all: destruct Hv as [_ Hra Hsl Hro Hl Hr]; unfold is_u8, is_u16 in *; destruct Ht;
    unfold ConnectionPG, ConnectionBasic in *; lia.
Qed.

Lemma New_idle input c e : addressing_values (AddressingOf input) → New input = Ok c → fresh e →
  idle (mkWorld c e).
Proof.
  intros Hv Hn [Hc Hcl Hcc Hd]. unfold New in Hn. apply bind_Ok_inv in Hn as (n & Hnorm & [= <-]).
  pose proof (normalizeConfig_spec input Hv) as Hspec. rewrite Hnorm in Hspec.
  split; [|by split]. constructor; cbn.
  - by eapply accepted_config.
  - by rewrite Hcl.
  - done.
  - done.
  - done.
  - done.
  - done.
  - intros id (cn & Hcn & _). unfold get_conn in Hcn. cbn in Hcn. rewrite Hc in Hcn. done.
  - done.
  - by rewrite Hcc.
  - rewrite Hc. constructor.
  - done.
Qed.

(** ** Operations as steps *)

Lemma idle_close w : idle w → idle (close_step w).
Proof.
  intros (Hi & Hs & Hg). split; [by apply inv_close_step|]. unfold close_step.
  destruct (closer (env w)) as [|[|[|[|n]]]]; try done. by destruct (closerConn (env w)).
Qed.

Lemma idle_context w l v : idle w → idle (on_env (set_ctx l v) w).
Proof. intros (Hi & Hs & Hg). split; [by apply inv_derive|done]. Qed.

(** One call of the public interface, with arguments of their Go types, or
    something that happens between two calls. *)
Inductive client_step : World → World → Prop :=
| step_connect w : client_step w (Connect w).2
| step_close w : client_step w (Close w).2
| step_read w input : Forall read_item_values input → client_step w (Read input w).2
| step_write w input : Forall write_item_values input → client_step w (Write input w).2
| step_read_area w area dbNumber start dst :
    is_u8 area → is_u16 dbNumber → is_u32 start →
    client_step w (ReadArea area dbNumber start dst w).2
| step_write_area w area dbNumber start src :
    is_u8 area → is_u16 dbNumber → is_u32 start → bytes src →
    client_step w (WriteArea area dbNumber start src w).2
| step_pause w : client_step w (interfere w)               (**r a concurrent Close, a deadline *)
| step_context w v : client_step w (on_env (set_ctx Caller v) w).  (**r the context of the next call *)

Lemma idle_start w : idle w → idle w ∧ start_at (state (client w)) (limits (client w)) (wire_log w) w.
Proof. intros Hi. split; [done|]. split; [by intros _|done]. Qed.

Lemma client_step_idle w w' : client_step w w' → idle w → idle w'.
Proof.
  intros Hs Hi. destruct Hs.
  - pose proof (Connect_triple _ _ _ _ w (idle_before w Hi)) as Ht. by destruct (Connect w) as [[[]|e|] w']; [apply Ht|..].
  - unfold Close. cbn. by repeat apply idle_close.
  - pose proof (Read_triple _ _ _ input H0 w (idle_start w Hi)) as Ht.
    by destruct (Read input w) as [[[rs err]|e|] w']; [apply Ht|..].
  - pose proof (Write_triple _ _ _ input H0 w (idle_start w Hi)) as Ht.
    by destruct (Write input w) as [[[rs err]|e|] w']; [apply Ht|..].
  - pose proof (ReadArea_triple _ _ _ area dbNumber start dst H0 H1 H2 w (idle_start w Hi)) as Ht.
    by destruct (ReadArea area dbNumber start dst w) as [[[[n err] dst']|e|] w']; [apply Ht|..].
  - pose proof (WriteArea_triple _ _ _ area dbNumber start src H0 H1 H2 H3 w (idle_start w Hi)) as Ht.
    by destruct (WriteArea area dbNumber start src w) as [[[n err]|e|] w']; [apply Ht|..].
  - by apply stable.
  - by apply idle_context.
Qed.

(** What an idle world promises: no leaked connection, and limits that are
    published exactly while the session is ready and then consistent. *)
Record healthy w : Prop := {
  he_idle : idle w;
  he_leak id : open_at w id → conn (client w) = Some id ∨ closerConn (env w) = Some id;
  he_limits l : Limits w = (l, true) ↔ state (client w) = StateReady ∧ l = limits (client w);
  he_consistent : state (client w) = StateReady →
    conn (client w) ≠ None ∧ limits_ok (config (client w)) (limits (client w));
  he_closed : state (client w) = StateClosed → ∀ id, ¬ open_at w id;
}.

Lemma idle_healthy w : idle w → healthy w.
Proof.
  intros Hw. pose proof Hw as (Hi & Hs & Hg). constructor; [done| | | |].
  - intros id Ho. destruct (i_owned _ _ Hi id Ho) as [?|[?|[=]]]; [by left|by right].
  - intros l. unfold Limits. case_bool_decide as Hr; cbn [negb orb].
    + destruct (i_ready _ _ Hi Hr) as (_ & -> & _). cbn [negb]. split; [by intros [= <-]|by intros [_ ->]].
    + split; [done|]. by intros [? _].
  - intros Hr. by destruct (i_ready _ _ Hi Hr) as (? & _ & ?).
  - intros Hc id Ho. pose proof (i_phase _ _ Hi) as Hp.
    assert (closer (env w) ≠ 0%nat ∧ closer (env w) ≠ 1%nat ∧ closer (env w) ≠ 2%nat) as (H0' & H1' & H2').
    { destruct (closer (env w)) as [|[|[|n]]]; cbn in Hp; rewrite Hc in Hp; [naive_solver..|lia]. }
    destruct (i_owned _ _ Hi id Ho) as [E|[E|[=]]].
    + by rewrite (i_closed _ _ Hi H0') in E.
    + by rewrite (i_closer _ _ Hi H1' H2') in E.
Qed.

(** C5. Every world a client can reach by calls of its public interface, from
    New on, under every peer and every interleaving with a concurrent Close and
    with expiring contexts: no connection is open but the session's (or the one
    Close is about to close), limits are published exactly while the session is
    ready, a ready session has a connection and limits within the configuration,
    and a closed client has no open connection. *)
Theorem reachable_healthy input c e w : addressing_values (AddressingOf input) →
  New input = Ok c → fresh e → rtc client_step (mkWorld c e) w → healthy w.
Proof.
  intros Hv Hn Hf Hr. apply idle_healthy. pose proof (New_idle input c e Hv Hn Hf) as Hi. revert Hi.
  induction Hr as [|w1 w2 w3 Hs _ IH]; [done|]. intros Hi. by apply IH, (client_step_idle w1).
Qed.

(** C6. Connect never panics and leaves the client idle, without a leaked
    connection, on every path. If it succeeds and no Close has begun, the
    session is ready, within the configuration, and its limits are those of the
    handshake: either it was ready before and nothing was sent and no limit
    changed, or the client's connection is a new one, whose wire carried the
    COTP request, a Connection Confirm the parser accepts, the setup request and
    a setup response, and the limits are what these two answers say. *)
Theorem Connect_correct w : idle w →
  match Connect w with
  | (Ok _, w') => healthy w' ∧ (closer (env w') = O →
      state (client w') = StateReady ∧ limits_ok (config (client w')) (limits (client w')) ∧
      (state (client w) = StateReady ∧ limits (client w') = limits (client w) ∧ wire_log w' = wire_log w ∨
       ∃ wire, wire_log w' = wire_log w ++ [wire] ∧ conn (client w') = Some (length (wire_log w)) ∧
         negotiated (config (client w)) wire (limits (client w'))))
  | (Err _, w') => healthy w'
  | (Panic, _) => False
  end.
Proof.
  intros Hi. pose proof (Connect_triple _ _ _ _ w (idle_before w Hi)) as Ht.
  destruct (Connect w) as [[[]|e|] w']; [|by apply idle_healthy|done].
  destruct Ht as [[Hw Hr] Hs]. split; [by apply idle_healthy|]. intros Hz. specialize (Hr Hz). split; [done|].
  split; [by apply (he_consistent _ (idle_healthy _ Hw))|].
  destruct Hs as [?|(wire & HL & Hn)]; [by left|right]. exists wire. split; [done|by apply Hn].
Qed.





End client.

(** ** A concrete run *)

(** A peer that answers every write with the next of a list of answers. *)
Definition Script : Type := list (list Z).
#[export] Program Instance scripted : Peer Script := {
  answer p bs := (tail p, [Chunk (u8 <$> default [] (head p))]);
}.
Next Obligation.
  intros p bs. constructor; [|constructor]. apply Forall_fmap, Forall_true. intros z. apply u8_range.
Qed.

(** The Connection Confirm, the setup response and one more response. *)
Definition sample_confirm : list Z :=
  [3; 0; 0; 22; 17; 0xd0; 0; 1; 0; 1; 0; 0xc0; 1; 10; 0xc1; 2; 1; 2; 0xc2; 2; 1; 0].
Definition sample_setup : list Z := data_frame 0x80 (ack_pdu 1 [0xf0; 0; 0; 1; 0; 1; 1; 224] [] 0).
Definition sample_env (answers : list (list Z)) : @Env Script :=
  mkEnv [] [Dialled (mkConn false [] [] [] (sample_confirm :: sample_setup :: answers) [] [] []) true None None None]
    [] [] (λ _, None) 0 None 0.
Definition sample_client : Client :=
  match New sample_config with
  | Ok c => c
  | _ => mkClient sample_normalized StateNew None 0 0 no_limits false [] [] 0 None false false
  end.
Definition sample_world (answers : list (list Z)) : @World Script := mkWorld sample_client (sample_env answers).
Definition sample_ready (answers : list (list Z)) : @World Script := (Connect (sample_world answers)).2.
Definition read_two : ReadItem := mkReadItem (mkAddress AreaDB 1 10 0) TransportByte 2.
Definition read_answer : list Z := data_frame 0x80 (ack_pdu 2 [4; 1] [0xff; 4; 0; 16; 0xab; 0xcd] 0).
Definition write_answer : list Z := data_frame 0x80 (ack_pdu 2 [5; 1] [0xff] 0).

Lemma sample_fresh answers : fresh (sample_env answers).
Proof. constructor; [done..|]. by repeat constructor. Qed.
Lemma sample_values : addressing_values (AddressingOf sample_config).
Proof. by constructor. Qed.
Lemma sample_New : New sample_config = Ok sample_client.
Proof. by vm_compute. Qed.
Lemma sample_idle answers : idle (sample_world answers).
Proof. apply (New_idle sample_config); [apply sample_values|apply sample_New|apply sample_fresh]. Qed.
Lemma sample_connects answers : (Connect (sample_world answers)).1 = Ok ().
Proof. by vm_compute. Qed.
Lemma sample_ready_idle answers : idle (sample_ready answers).
Proof.
  unfold sample_ready. generalize (sample_world answers) (sample_idle answers). intros w Hw.
  exact (client_step_idle w _ (step_connect w) Hw).
Qed.
Lemma sample_ready_step answers : client_step (sample_world answers) (sample_ready answers).
Proof. unfold sample_ready. generalize (sample_world answers). apply step_connect. Qed.
Lemma read_two_values : Forall read_item_values [read_two].
Proof. by repeat constructor. Qed.
Lemma write_two_values : Forall write_item_values [sample_write].
Proof. constructor; [apply sample_write_values|constructor]. Qed.

Lemma reachable_healthy_witness : healthy (Read [read_two] (sample_ready [read_answer])).2.
Proof.
  apply (reachable_healthy sample_config sample_client (sample_env [read_answer])).
  - apply sample_values.
  - apply sample_New.
  - apply sample_fresh.
  - eapply rtc_l; [apply sample_ready_step|]. apply rtc_once. generalize (sample_ready [read_answer]). intros w.
    apply step_read, read_two_values.
Defined.
Lemma Connect_correct_witness :
  let w' := (Connect (sample_world [])).2 in
  (Connect (sample_world [])).1 = Ok () ∧ healthy w' ∧
  ∃ wire, wire_log w' = [wire] ∧ negotiated sample_normalized wire (limits (client w')).
Proof.
  cbv zeta. pose proof (Connect_correct (sample_world []) (sample_idle [])) as H. pose proof (sample_connects []) as E.
  assert (closer (env (Connect (sample_world [])).2) = O) as Ec by (vm_compute; reflexivity).
  destruct (Connect (sample_world [])) as [r w']. cbn [fst snd] in *. subst r. split; [reflexivity|].
  destruct H as [Hh H]. split; [exact Hh|]. destruct (H Ec) as (_ & _ & [(Hn & _)|(wire & Hw & _ & Hn)]).
  - exfalso. vm_compute in Hn. discriminate.
  - exists wire. split; [exact Hw|exact Hn].
Defined.
