(* ===== verification/ClosedProofs.v ===== *)
(** * ClosedProofs: a closed client is closed for good

    Once the steps of Close are done, no call brings the session back: every
    call fails, and nothing is dialled or sent any more. *)

From S2P Require Import Errors Protocol IsoTCP Config Item Planner Session SessionProofs DataPlane ReadProofs WriteProofs ClientProofs.

Section closed.
Context {P : Type} `{Peer P}.
Local Abbreviation World := (@World P).
Local Abbreviation M := (@M P).
Implicit Type w : World.

(** The steps of Close are done; [L] is on the wire and [D] is what dialling
    would answer. *)
Record quiet (L : list (list transfer)) (D : list (@dial P)) w : Prop := {
  qu_closer : (4 ≤ closer (env w))%nat;
  qu_wire : wire_log w = L;
  qu_dials : dials (env w) = D;
}.

Lemma close_step_quiet L D w : quiet L D w → quiet L D (close_step w).
Proof.
  intros []. assert (close_step w = w) as ->; [|done]. unfold close_step.
  destruct (closer (env w)) as [|[|[|[|n]]]]; by try lia.
Qed.

#[export] Instance quiet_stable L D : Stable (quiet L D).
Proof. apply stable_events; [by intros w []|by intros w l t []|intros w; apply close_step_quiet]. Qed.
#[export] Instance quiet_ungated L D : Ungated (quiet L D).
Proof. constructor; [apply _|by intros b w []|by intros w []|by intros l v w []]. Qed.

Definition gone L D w : Prop := inv None w ∧ quiet L D w.
(** Between operations on a closed client. *)
Definition over L D w : Prop := idle w ∧ quiet L D w.

#[export] Instance gone_stable L D : Stable (gone L D).
Proof. apply and_stable; apply _. Qed.

Lemma gone_closed L D w : gone L D w → state (client w) = StateClosed ∧ lifeCanceled (client w) = true.
Proof.
  intros [Hi [Hc _ _]]. pose proof (i_phase _ _ Hi) as Hp.
  by destruct (closer (env w)) as [|[|[|[|n]]]]; try lia.
Qed.

Lemma over_closed L D w : over L D w → state (client w) = StateClosed ∧ ∀ id, ¬ open_at w id.
Proof.
  intros [Hi Hq]. destruct (gone_closed L D w) as [Hs _]; [by split; [apply Hi|]|].
  split; [done|]. by apply (he_closed _ (idle_healthy w Hi)).
Qed.

Definition is_closed_error (e : error) : Prop := ∃ f, e = EGos7 f ∧ Kind f = ErrorClosed.

Lemma classify_over L D operation l impact cause Er :
  triple (over L D) (classifyContextError operation l impact cause)
    (λ f w, over L D w ∧ Kind f = ErrorClosed) Er.
Proof.
  assert (Stable (over L D)) by (apply and_stable; apply _).
  unfold classifyContextError. eapply triple_bind; [by apply get_triple|]. intros closed. cbn beta.
  apply triple_pre with (λ w, closed = true ∧ over L D w).
  2: { intros w [[Hi Hq] ->]. destruct (gone_closed L D w) as [-> _]; [by split; [apply Hi|]|]. done. }
  apply triple_pure. intros ->. eapply triple_bind; [by apply get_triple|]. intros canceled. cbn.
  apply triple_ret. by intros w [? _].
Qed.

(** Waiting for the gate fails. *)
Lemma acquire_over L D :
  triple (over L D) acquire (λ _ _, False) (λ e w, over L D w ∧ is_closed_error e).
Proof.
  unfold acquire. apply (triple_bind _ _ (λ case w, (if decide (case = Some CaseGate) then settled w
    else idle w ∧ case ≠ None) ∧ quiet L D w)).
  { apply triple_atomically; [apply and_stable; apply _|]. intros w [(Hi & Hs & Hg) HL]. cbn [fst snd].
    destruct (select_case_ready w Hg) as [case ->]. destruct (decide (Some case = Some CaseGate)) as [->|Hne].
    - rewrite bool_decide_eq_true_2 by done. split; [|by apply ug_select, ug_gate].
      split; [by apply inv_pop_select, inv_set_gate|done].
    - rewrite bool_decide_eq_false_2 by done. split; [|by apply ug_select]. split; [|done].
      split; [by apply inv_pop_select|done]. }
  intros [case|]; [|by intros w [[] _]]. destruct case; cbn [decide].
  - apply triple_pre with (over L D); [|by intros w [[? _] ?]].
    eapply triple_bind; [apply (ctxErr_triple (over L D)); apply and_stable; apply _|].
    intros e. cbn beta. eapply triple_bind; [apply classify_over|].
    intros failure. apply triple_fail. intros w [? ?]. split; [done|]. by exists failure.
  - apply triple_fail. intros w [[? _] ?]. split; [done|]. by eexists.
  - apply triple_pre with (λ w, settled w ∧ quiet L D w); [|done].
    eapply triple_bind; [apply get_triple; apply and_stable; apply _|]. intros canceled. cbn beta.
    intros w [[Hs Hq] ->]. destruct (gone_closed L D w) as [_ ->]; [by split; [apply Hs|]|].
    unfold fail_released, fail. destruct (release_gate_idle w Hs) as (? & _).
    split; [split; [done|by apply (release_ungated (quiet L D)); [apply _|]]|by eexists].
Qed.

(** An operation that fails, whatever it was called with. *)
Definition refused {A} L D (failure : A → Prop) (m : M A) : Prop :=
  triple (over L D) m (λ a w, over L D w ∧ failure a) never.

Lemma ret_refused {A} L D (failure : A → Prop) a : failure a → refused L D failure (mret a).
Proof. intros Ha. by apply triple_ret. Qed.

Lemma checked_refused {A} L D (failure : A → Prop) operation (failed : Error → M A) (go : M A) :
  (∀ e, refused L D failure (failed e)) → refused L D failure go →
  refused L D failure
    (err ← ctxErr Caller;
     match err with
     | Some err => f ← classifyContextError operation Caller SessionUnchanged (EVar err); failed f
     | None => go
     end).
Proof. intros Hf Hg. apply check_caller_triple; [apply and_stable; apply _|by intros f _; apply Hf|done]. Qed.

Lemma acquired_refused {A} L D (failure : A → Prop) (failed : error → M A) (go : M A) :
  (∀ e, refused L D failure (failed e)) →
  refused L D failure
    (acquired ← try acquire;
     match acquired with
     | Panic => lift Panic
     | Err err => failed err
     | Ok _ => deferred release_gate go
     end).
Proof.
  intros Hf. eapply triple_bind; [by apply try_triple, acquire_over|]. intros [[]|e|]; cbn beta.
  - by intros w [].
  - intros w [Hw _]. by apply Hf.
  - by intros w [].
Qed.

Lemma configured_refused {A} L D (failure : A → Prop) (go : normalizedConfig → M A) :
  (∀ cfg, config_ok cfg → refused L D failure (go cfg)) → refused L D failure (cfg ← get config; go cfg).
Proof.
  intros Hg. eapply triple_bind.
  { apply (get_config_triple (over L D)); [apply and_stable; apply _|by intros w [[? _] _]]. }
  intros cfg. cbn beta. apply triple_pure. intros Hcfg. eapply triple_pre; [by apply Hg|]. by intros w [? _].
Qed.

Definition has_error {A} (out : A * option error) : Prop := out.2 ≠ None.

Lemma Read_refused L D input : Forall read_item_values input → refused L D has_error (Read input).
Proof.
  intros Hv. apply checked_refused; [intros e; by apply ret_refused|]. apply configured_refused. intros cfg [Hcfg _ _].
  pose proof (prepareReads_spec (nConfig cfg) input Hcfg Hv) as Hp.
  destruct (prepareReads (nConfig cfg) input) as [[its lens]|e|]; [| |done].
  - apply acquired_refused. intros e. by apply ret_refused.
  - case_if; by apply ret_refused.
Qed.

Lemma Write_refused L D input : Forall write_item_values input → refused L D has_error (Write input).
Proof.
  intros Hv. apply checked_refused; [intros e; by apply ret_refused|]. apply configured_refused. intros cfg [Hcfg _ _].
  pose proof (prepareWrites_spec (nConfig cfg) input Hcfg Hv) as Hp.
  destruct (prepareWrites (nConfig cfg) input) as [its|e|]; [| |done].
  - apply acquired_refused. intros e. by apply ret_refused.
  - case_if; by apply ret_refused.
Qed.

Lemma ReadArea_refused L D area dbNumber start dst : is_u8 area → is_u16 dbNumber → is_u32 start →
  refused L D (λ out, out.1.2 ≠ None) (ReadArea area dbNumber start dst).
Proof.
  intros Ha Hd Hs. apply checked_refused; [intros e; by apply ret_refused|]. apply configured_refused. intros cfg [Hcfg _ _].
  case_if; [by apply ret_refused|].
  destruct ((zlen dst >? MaxItemBytes (nConfig cfg)) || (zlen dst >? MaxBatchBytes (nConfig cfg))
    || (zlen dst >? MaxUint32)) eqn:Hlim; [by apply ret_refused|].
  apply orb_false_iff in Hlim as [_ Hmax]. pose proof (zlen_nonneg dst).
  assert (is_u32 (zlen dst)) as Hu by (unfold MaxUint32, is_u32 in *; lia). rewrite (u32_id _ Hu). cbv zeta.
  set (i := mkReadItem (mkAddress area dbNumber start 0) TransportByte (zlen dst)).
  assert (read_item_values i) as Hv by (constructor; [by constructor|done|done]).
  pose proof (prepareReads_spec (nConfig cfg) [i] Hcfg ltac:(by constructor)) as Hp.
  destruct (prepareReads (nConfig cfg) [i]) as [[its lens]|e|]; [|by apply ret_refused|done].
  apply acquired_refused. intros e. by apply ret_refused.
Qed.

Lemma WriteArea_refused L D area dbNumber start src : is_u8 area → is_u16 dbNumber → is_u32 start →
  refused L D has_error (WriteArea area dbNumber start src).
Proof.
  intros Ha Hd Hs. apply checked_refused; [intros e; by apply ret_refused|]. apply configured_refused. intros cfg [Hcfg _ _].
  case_if; [by apply ret_refused|]. case_if; [by apply ret_refused|]. 
  destruct (zlen src >? MaxUint32) eqn:Hmax; [by apply ret_refused|].
  pose proof (zlen_nonneg src).
  assert (is_u32 (zlen src)) as Hu by (unfold MaxUint32, is_u32 in *; lia). rewrite (u32_id _ Hu).
  set (i := mkReadItem (mkAddress area dbNumber start 0) TransportByte (zlen src)).
  assert (read_item_values i) as Hv by (constructor; [by constructor|done|done]).
  pose proof (validateReadItem_spec i (MaxBatchBytes (nConfig cfg)) Hv) as Hp.
  destruct (validateReadItem i (MaxBatchBytes (nConfig cfg))) as [its|e|]; [|by apply ret_refused|done].
  apply acquired_refused. intros e. by apply ret_refused.
Qed.

Lemma Connect_refused L D :
  triple (over L D) Connect (λ _ _, False) (λ e w, over L D w ∧ is_closed_error e).
Proof.
  unfold Connect. eapply triple_bind; [apply acquire_over|]. by intros [] w [].
Qed.

Lemma client_step_over L D w w' : client_step w w' → over L D w → over L D w'.
Proof.
  intros Hs Ho. destruct Hs.
  - pose proof (Connect_refused L D w Ho) as Ht. by destruct (Connect w) as [[[]|e|] w']; [|apply Ht|].
  - unfold Close. cbn. destruct Ho as [Hi Hq]. by split; [repeat apply idle_close|repeat apply close_step_quiet].
  - pose proof (Read_refused L D input H0 w Ho) as Ht.
    by destruct (Read input w) as [[?|e|] w']; [apply Ht|..].
  - pose proof (Write_refused L D input H0 w Ho) as Ht.
    by destruct (Write input w) as [[?|e|] w']; [apply Ht|..].
  - pose proof (ReadArea_refused L D area dbNumber start dst H0 H1 H2 w Ho) as Ht.
    by destruct (ReadArea area dbNumber start dst w) as [[?|e|] w']; [apply Ht|..].
  - pose proof (WriteArea_refused L D area dbNumber start src H0 H1 H2 w Ho) as Ht.
    by destruct (WriteArea area dbNumber start src w) as [[?|e|] w']; [apply Ht|..].
  - destruct Ho. by split; apply stable.
  - destruct Ho as [Hi []]. split; [by apply idle_context|done].
Qed.

(** Every call on a closed client fails. *)
Record every_call_fails w : Prop := {
  cf_connect : ∃ e w', Connect w = (Err e, w') ∧ is_closed_error e;
  cf_read input : Forall read_item_values input →
    ∃ out w', Read input w = (Ok out, w') ∧ has_error out;
  cf_write input : Forall write_item_values input →
    ∃ out w', Write input w = (Ok out, w') ∧ has_error out;
  cf_read_area area dbNumber start dst : is_u8 area → is_u16 dbNumber → is_u32 start →
    ∃ out w', ReadArea area dbNumber start dst w = (Ok out, w') ∧ out.1.2 ≠ None;
  cf_write_area area dbNumber start src : is_u8 area → is_u16 dbNumber → is_u32 start →
    ∃ out w', WriteArea area dbNumber start src w = (Ok out, w') ∧ has_error out;
}.

Lemma refused_run {A} L D (failure : A → Prop) (m : M A) w : refused L D failure m → over L D w →
  ∃ out w', m w = (Ok out, w') ∧ failure out.
Proof.
  intros Hm Ho. specialize (Hm w Ho). destruct (m w) as [[a|e|] w']; [|by destruct Hm..].
  destruct Hm. by exists a, w'.
Qed.

Lemma over_calls L D w : over L D w → every_call_fails w.
Proof.
  intros Ho. constructor.
  - pose proof (Connect_refused L D w Ho) as Ht. destruct (Connect w) as [[[]|e|] w']; [done| |done].
    exists e, w'. by destruct Ht.
  - intros input Hv. by eapply refused_run; [apply Read_refused|].
  - intros input Hv. by eapply refused_run; [apply Write_refused|].
  - intros area dbNumber start dst ???. by eapply refused_run; [apply ReadArea_refused|].
  - intros area dbNumber start src ???. by eapply refused_run; [apply WriteArea_refused|].
Qed.

(** C7. Close is final: whatever is called afterwards, in whatever order, the
    client stays closed without an open connection, every call fails, and
    nothing is dialled, sent or received any more. *)
Theorem Close_terminal w w' : idle w → rtc client_step (Close w).2 w' →
  state (client w') = StateClosed ∧ (∀ id, ¬ open_at w' id) ∧ every_call_fails w' ∧
  wire_log w' = wire_log w ∧ dials (env w') = dials (env w).
Proof.
  intros Hi Hr. unfold Close in Hr. cbn [snd] in Hr.
  destruct (close_steps_closed w (proj1 Hi)) as (Hi' & Hla & Hst & _ & _). cbn zeta in *.
  set (w0 := close_step (close_step (close_step (close_step w)))) in *.
  assert (over (wire_log w) (dials (env w)) w0) as Ho.
  { split; [by subst w0; repeat apply idle_close|]. constructor; [|apply Hla|apply Hla].
    pose proof (i_phase _ _ Hi') as Hp.
    destruct (closer (env w0)) as [|[|[|[|n]]]]; cbn in Hp; rewrite Hst in Hp; first [lia|naive_solver]. }
  assert (over (wire_log w) (dials (env w)) w') as Ho'.
  { clear -Ho Hr. induction Hr as [|w1 w2 w3 Hs _ IH]; [done|]. by apply IH, (client_step_over _ _ w1). }
  split_and!; [|by apply (over_closed _ _ _ Ho')..|by eapply over_calls|apply Ho'|apply Ho'].
  by apply (over_closed _ _ _ Ho').
Qed.
End closed.

Lemma Close_terminal_witness :
  let w' := (Connect (Close (sample_ready [])).2).2 in
  state (client w') = StateClosed ∧ every_call_fails w'.
Proof.
  destruct (Close_terminal (sample_ready []) (Connect (Close (sample_ready [])).2).2) as (Hs & _ & Hf & _).
  - apply sample_ready_idle.
  - apply rtc_once. generalize (Close (sample_ready [])).2. apply step_connect.
  - split; [exact Hs|exact Hf].
Defined.
