(* ===== verification/TestPLC.v ===== *)
(** * TestPLC: the scripted S7 server (internal/testplc/server.go)

    An in-memory PLC: the other side of the wire.  The server's fields are a
    record, its memory a finite map from byte keys; methods and the handler
    of a connection run in a state monad with errors.  [handleConnection] is
    the Go function over the bytes that arrive on a connection.  [PLC] is the
    same handler suspended while it waits for bytes, an instance of the
    interface [Peer] that a client session runs against.

    One connection at a time: the accept loop, [Close] and the passing of the
    delay are not modelled. *)

From stdpp Require Import gmap.
From S2P Require Import Errors IsoTCP Session.

(** ** Data *)

(** [memoryKey]: area, data block, byte offset. *)
Abbreviation memoryKey := (Z * Z * Z)%type.
Abbreviation Memory := (gmap memoryKey Z).

Record Request := mkRequest { RFunction : Z; RItemCount : Z; RPDUBytes : Z }.

Record Server := mkServer {
  pdu : Z;
  memory : Memory;
  requests : list Request;
  dropNextWriteResponse : bool;
  delayNextResponse : Z;
  rejectNextItem : Z;
  rejectAfterRequests : Z;
  firstError : option error;
}.

Record variableItem := mkVariable {
  wordLength : Z;
  amount : Z;
  vdb : Z;
  varea : Z;
  address : Z;
  dataBytes : Z;
  transport : Z;
  vlength : Z;
}.

(** [v := m[key]]: zero for a key that is not there. *)
Definition memory_at (m : Memory) (key : memoryKey) : Z := default 0 (m !! key).

Definition with_memory (m : Memory) (s : Server) : Server :=
  mkServer (pdu s) m (requests s) (dropNextWriteResponse s) (delayNextResponse s) (rejectNextItem s)
    (rejectAfterRequests s) (firstError s).
Definition with_requests (r : list Request) (s : Server) : Server :=
  mkServer (pdu s) (memory s) r (dropNextWriteResponse s) (delayNextResponse s) (rejectNextItem s)
    (rejectAfterRequests s) (firstError s).
Definition with_drop (b : bool) (s : Server) : Server :=
  mkServer (pdu s) (memory s) (requests s) b (delayNextResponse s) (rejectNextItem s)
    (rejectAfterRequests s) (firstError s).
Definition with_delay (d : Z) (s : Server) : Server :=
  mkServer (pdu s) (memory s) (requests s) (dropNextWriteResponse s) d (rejectNextItem s)
    (rejectAfterRequests s) (firstError s).
Definition with_reject (code after : Z) (s : Server) : Server :=
  mkServer (pdu s) (memory s) (requests s) (dropNextWriteResponse s) (delayNextResponse s) code after
    (firstError s).
Definition with_error (e : option error) (s : Server) : Server :=
  mkServer (pdu s) (memory s) (requests s) (dropNextWriteResponse s) (delayNextResponse s)
    (rejectNextItem s) (rejectAfterRequests s) e.

(** ** Methods *)

(** [Start]: [listening] is what [net.Listen] answers. *)
Definition Start (serverPDU : Z) (listening : option error) : result Server :=
  if serverPDU <? 64 then text "testplc: PDU must be at least 64"
  else
    match listening with
    | Some err => Err err
    | None => Ok (mkServer serverPDU ∅ [] false 0 0 0 None)
    end.

Definition ServerErr (s : Server) : option error := firstError s.

(** [for index, current := range value { memory[{area, db, offset + uint32(index)}] = current }] *)
Fixpoint storeBytes (m : Memory) (area db offset index : Z) (value : list Z) : Memory :=
  match value with
  | [] => m
  | current :: value =>
      storeBytes (<[(area, db, u32 (offset + u32 index)) := current]> m) area db offset (index + 1) value
  end.
(** [for index := range value { value[index] = memory[{area, db, offset + uint32(index)}] }]
    over [n] bytes. *)
Fixpoint loadBytes (m : Memory) (area db offset index : Z) (n : nat) : list Z :=
  match n with
  | O => []
  | S n => memory_at m (area, db, u32 (offset + u32 index)) :: loadBytes m area db offset (index + 1) n
  end.

Definition SetBytes (area db offset : Z) (value : list Z) (s : Server) : Server :=
  with_memory (storeBytes (memory s) area db offset 0 value) s.
(** A negative [length] panics in [make]. *)
Definition Bytes (area db offset length : Z) (s : Server) : result (list Z) :=
  if length <? 0 then Panic else Ok (loadBytes (memory s) area db offset 0 (Z.to_nat length)).
Definition Requests (s : Server) : list Request := requests s.

Definition DropNextWriteResponse (s : Server) : Server := with_drop true s.
Definition DelayNextResponse (delay : Z) (s : Server) : Server := with_delay delay s.
Definition RejectNextItem (returnCode : Z) (s : Server) : Server := with_reject returnCode 0 s.
Definition RejectItemAfter (skipRequests returnCode : Z) (s : Server) : Server :=
  with_reject returnCode skipRequests s.

(** ** The monad of server code *)

Definition Srv (S A : Type) : Type := S → result A * S.
#[export] Instance Srv_ret S : MRet (Srv S) := λ A a s, (Ok a, s).
#[export] Instance Srv_bind S : MBind (Srv S) := λ A B f m s,
  match m s with
  | (Ok a, s) => f a s
  | (Err e, s) => (Err e, s)
  | (Panic, s) => (Panic, s)
  end.
Definition pure {S A} (m : result A) : Srv S A := λ s, (m, s).
Definition complain {S A} (msg : string) : Srv S A := pure (text msg).
(** A critical section of [server.mu]. *)
Definition locked {A} (f : Server → A * Server) : Srv Server A := λ s,
  let '(a, s) := f s in (Ok a, s).

Definition recordRequest (request : Request) : Srv Server unit :=
  locked (λ s, (tt, with_requests (requests s ++ [request]) s)).
Definition recordError (err : error) (s : Server) : Server :=
  match firstError s with None => with_error (Some err) s | Some _ => s end.

Definition consumeRejectItem (fallback : Z) : Srv Server Z := locked (λ s,
  if rejectNextItem s =? 0 then (fallback, s)
  else if rejectAfterRequests s >? 0
  then (fallback, with_reject (rejectNextItem s) (rejectAfterRequests s - 1) s)
  else (rejectNextItem s, with_reject 0 (rejectAfterRequests s) s)).
Definition consumeDropWriteResponse : Srv Server bool := locked (λ s,
  (dropNextWriteResponse s, with_drop false s)).
(** The delay is spent; time does not pass in the model. *)
Definition delayResponse : Srv Server unit := locked (λ s, (tt, with_delay 0 s)).

(** [io.EOF], or a closed connection. *)
Fixpoint is_net_closed (err : error) : bool :=
  match err with
  | ENet false msg => bool_decide (msg = "use of closed network connection")
  | EWrap _ inner => is_net_closed inner
  | _ => false
  end.
Definition isExpectedClose (err : error) : bool := errors_Is err (EVar IoEOF) || is_net_closed err.

(** ** Requests *)

Definition parseJob (payload : list Z) : result (Z * list Z * list Z) :=
  if zlen payload <? 10 then text "testplc: malformed S7 job header"
  else
    p0 ← index payload 0; p1 ← index payload 1; p2 ← index payload 2; p3 ← index payload 3;
    if negb (p0 =? 0x32) || negb (p1 =? 0x01) || negb (p2 =? 0) || negb (p3 =? 0)
    then text "testplc: malformed S7 job header"
    else
      reference ← get_uint16 payload 4;
      parameterLength ← get_uint16 payload 6;
      dataLength ← get_uint16 payload 8;
      if (reference =? 0) || (parameterLength >? zlen payload - 10)
         || negb (dataLength =? zlen payload - 10 - parameterLength)
      then text "testplc: S7 job length mismatch"
      else
        parameters ← slice payload 10 (10 + parameterLength);
        data ← slice payload (10 + parameterLength) (zlen payload);
        Ok (reference, parameters, data).

(** [switch item.wordLength]: the width, the transport and the length set there. *)
Definition word_kind (wordLength amount : Z) : result (Z * Z * Z) :=
  if wordLength =? 0x01 then
    if negb (amount =? 1) then text "testplc: only one bit is supported" else Ok (1, 0x03, 1)
  else if wordLength =? 0x02 then Ok (1, 0x04, 0)
  else if wordLength =? 0x04 then Ok (2, 0x04, 0)
  else if wordLength =? 0x06 then Ok (4, 0x04, 0)
  else if wordLength =? 0x08 then Ok (4, 0x07, 0)
  else if (wordLength =? 0x1c) || (wordLength =? 0x1d) then Ok (2, 0x09, 0)
  else text "testplc: unsupported word length".

(** One turn of the loop of [parseVariableItems]. *)
Definition parseVariable (spec : list Z) : result variableItem :=
  s0 ← index spec 0; s1 ← index spec 1; s2 ← index spec 2;
  if negb (s0 =? 0x12) || negb (s1 =? 0x0a) || negb (s2 =? 0x10)
  then text "testplc: invalid variable specification"
  else
    wordLength ← index spec 3;
    amount ← get_uint16 spec 4;
    db ← get_uint16 spec 6;
    area ← index spec 8;
    a9 ← index spec 9; a10 ← index spec 10; a11 ← index spec 11;
    let address := Z.lor (Z.lor (Z.shiftl a9 16) (Z.shiftl a10 8)) a11 in
    '(width, transport, length) ← word_kind wordLength amount;
    let dataBytes := amount * width in
    if negb (wordLength =? 0x01) then
      let length := if transport =? 0x04 then dataBytes * 8 else dataBytes in
      if length >? 65535 then text "testplc: item data length overflow"
      else Ok (mkVariable wordLength amount db area address dataBytes transport (u16 length))
    else Ok (mkVariable wordLength amount db area address dataBytes transport length).

(** The loop, [n] turns from [index] on. *)
Fixpoint parseVariablesFrom (parameters : list Z) (index : Z) (n : nat) : result (list variableItem) :=
  match n with
  | O => Ok []
  | S n =>
      spec ← slice parameters (2 + 12 * index) (2 + 12 * (index + 1));
      item ← parseVariable spec;
      items ← parseVariablesFrom parameters (index + 1) n;
      Ok (item :: items)
  end.

Definition parseVariableItems (parameters : list Z) : result (list variableItem) :=
  if zlen parameters <? 2 then text "testplc: short variable parameters"
  else
    count ← index parameters 1;
    if (count =? 0) || negb (zlen parameters =? 2 + 12 * count)
    then text "testplc: variable parameter length mismatch"
    else parseVariablesFrom parameters 0 (Z.to_nat count).

(** ** Memory access *)

(** [start]: the first byte of a word-addressed or bit-addressed item. *)
Definition byte_start (item : variableItem) : Z :=
  if (wordLength item =? 0x1c) || (wordLength item =? 0x1d) then u32 (address item * 2)
  else address item / 8.

(** What the memory holds for an item. *)
Definition load (m : Memory) (item : variableItem) : list Z :=
  if wordLength item =? 0x01 then
    let byteOffset := address item / 8 in
    let bit := address item mod 8 in
    let value := memory_at m (varea item, vdb item, byteOffset) in
    if negb (Z.land value (u8 (Z.shiftl 1 bit)) =? 0) then [1] else [0]
  else loadBytes m (varea item) (vdb item) (byte_start item) 0 (Z.to_nat (dataBytes item)).

Definition readItem (item : variableItem) (s : Server) : list Z := load (memory s) item.

Definition writeItem (item : variableItem) (value : list Z) : Srv Server unit :=
  if wordLength item =? 0x01 then
    λ s,
      let key := (varea item, vdb item, address item / 8) in
      let current := memory_at (memory s) key in
      let mask := u8 (Z.shiftl 1 (address item mod 8)) in
      (v ← pure (index value 0);
       locked (λ s,
         (tt, with_memory (<[key := if v =? 1 then Z.lor current mask else Z.ldiff current mask]>
                             (memory s)) s))) s
  else
    locked (λ s, (tt, with_memory (storeBytes (memory s) (varea item) (vdb item) (byte_start item) 0 value) s)).

(** ** ReadVar and WriteVar *)

Fixpoint readItems (index count : Z) (items : list variableItem) (response : list Z)
    : Srv Server (list Z) :=
  match items with
  | [] => mret response
  | item :: items =>
      returnCode ← (if index =? 0 then consumeRejectItem 0xff else mret 0xff);
      if negb (returnCode =? 0xff)
      then readItems (index + 1) count items (response ++ [returnCode; 0; 0; 4])
      else
        value ← locked (λ s, (readItem item s, s));
        let response := response ++ [0xff; transport item; u8 (Z.shiftr (vlength item) 8); u8 (vlength item)] in
        let response := response ++ value in
        readItems (index + 1) count items
          (if negb (index =? count - 1) && negb (Z.rem (zlen value) 2 =? 0) then response ++ [0] else response)
  end.

Definition handleRead (parameters requestData : list Z) : Srv Server (list Z * list Z) :=
  if negb (zlen requestData =? 0) then complain "testplc: ReadVar request contains data"
  else
    items ← pure (parseVariableItems parameters);
    response ← readItems 0 (zlen items) items [];
    mret ([0x04; u8 (zlen items)], response).

(** One item of a write: its data and the offset behind it. *)
Definition writeValue (item : variableItem) (requestData : list Z) (offset : Z) : result (list Z * Z) :=
  if zlen requestData - offset <? 4 then text "testplc: short write data header"
  else
    d0 ← index requestData offset;
    d1 ← index requestData (offset + 1);
    length ← get_uint16 requestData (offset + 2);
    if negb (d0 =? 0) || negb (d1 =? transport item) || negb (length =? vlength item)
    then text "testplc: write transport or length mismatch"
    else
      let offset := offset + 4 in
      if dataBytes item >? zlen requestData - offset then text "testplc: short write data"
      else
        value ← slice requestData offset (offset + dataBytes item);
        Ok (value, offset + dataBytes item).

Fixpoint writeItems (index count : Z) (items : list variableItem) (requestData : list Z) (offset : Z)
    (returnCodes : list Z) : Srv Server (Z * list Z) :=
  match items with
  | [] => mret (offset, returnCodes)
  | item :: items =>
      '(value, offset) ← pure (writeValue item requestData offset);
      returnCode ← (if index =? 0 then consumeRejectItem 0xff else mret 0xff);
      returnCodes ← pure (store returnCodes index returnCode);
      _ ← (if returnCode =? 0xff then writeItem item value else mret tt);
      if negb (index =? count - 1) && negb (Z.rem (dataBytes item) 2 =? 0) then
        if offset >=? zlen requestData then complain "testplc: missing write padding"
        else
          padding ← pure (Prelude.index requestData offset);
          if negb (padding =? 0) then complain "testplc: missing write padding"
          else writeItems (index + 1) count items requestData (offset + 1) returnCodes
      else writeItems (index + 1) count items requestData offset returnCodes
  end.

Definition handleWrite (parameters requestData : list Z) : Srv Server (list Z * list Z) :=
  items ← pure (parseVariableItems parameters);
  '(offset, returnCodes) ← writeItems 0 (zlen items) items requestData 0 (make (zlen items));
  if negb (offset =? zlen requestData) then complain "testplc: trailing write data"
  else mret ([0x05; u8 (zlen items)], returnCodes).

(** ** A connection *)

(** The server, the bytes arriving at it, what successive writes on the
    connection will answer, and the bytes it has sent. *)
Record Handler := mkHandler {
  server : Server;
  inbound : list arrival;
  writable : list (list (Z * option error));
  outbound : list Z;
}.

Definition on_server {A} (m : Srv Server A) : Srv Handler A := λ h,
  let '(r, s) := m (server h) in (r, mkHandler s (inbound h) (writable h) (outbound h)).

(** [isotcp.ReadFrame(connection, 65535)] *)
Definition receive : Srv Handler (list Z) := λ h,
  let '(r, rest) := ReadFrame (inbound h) 65535 in
  (r, mkHandler (server h) rest (writable h) (outbound h)).

(** [isotcp.WriteFull(connection, frame)] *)
Definition send (frame : list Z) : Srv Handler unit := λ h,
  let '(sent, (_, err)) := WriteFull (default [] (head (writable h))) frame in
  (match err with Some e => Err e | None => Ok tt end,
   mkHandler (server h) (inbound h) (tail (writable h)) (outbound h ++ sent)).

Definition ack_payload (reference : Z) (parameters data : list Z) (globalCode : Z) : result (list Z) :=
  p ← store (make (12 + zlen parameters + zlen data)) 0 0x32;
  p ← store p 1 0x03;
  p ← put_uint16 p 4 reference;
  p ← put_uint16 p 6 (u16 (zlen parameters));
  p ← put_uint16 p 8 (u16 (zlen data));
  p ← store p 10 (u8 (Z.shiftr globalCode 8));
  p ← store p 11 (u8 globalCode);
  Ok (copy_at (copy_at p 12 parameters) (12 + zlen parameters) data).

Definition writeAck (reference : Z) (parameters data : list Z) (globalCode : Z) : Srv Handler unit :=
  payload ← pure (ack_payload reference parameters data globalCode);
  frame ← pure (WrapData payload);
  send frame.

Definition buildConnectionConfirm (localTSAP remoteTSAP tpduCode : Z) : result (list Z) :=
  let frame :=
    [0x03; 0x00; 0x00; 0x16;
     0x11; 0xd0; 0x00; 0x01; 0x00; 0x01; 0x00;
     0xc0; 0x01; tpduCode;
     0xc1; 0x02; 0x00; 0x00;
     0xc2; 0x02; 0x00; 0x00] in
  f ← put_uint16 frame 16 remoteTSAP;
  put_uint16 f 20 localTSAP.

(** The three parts of [handleConnection], each from a frame on. *)
Definition serve_connect (request : list Z) : Srv Handler unit :=
  if negb (zlen request =? 22) then complain "testplc: malformed COTP connection request"
  else
    b5 ← pure (index request 5); b14 ← pure (index request 14); b18 ← pure (index request 18);
    if negb (b5 =? 0xe0) || negb (b14 =? 0xc1) || negb (b18 =? 0xc2)
    then complain "testplc: malformed COTP connection request"
    else
      localTSAP ← pure (get_uint16 request 16);
      remoteTSAP ← pure (get_uint16 request 20);
      tpduCode ← pure (index request 13);
      confirm ← pure (buildConnectionConfirm localTSAP remoteTSAP tpduCode);
      send confirm.

Definition serve_setup (setupFrame : list Z) : Srv Handler unit :=
  setupPayload ← pure (UnwrapData setupFrame);
  '(reference, parameters, data) ← pure (parseJob setupPayload);
  if negb (zlen parameters =? 8) || negb (zlen data =? 0)
  then complain "testplc: malformed setup request"
  else
    p0 ← pure (index parameters 0);
    if negb (p0 =? 0xf0) then complain "testplc: malformed setup request"
    else
      requestedPDU ← pure (get_uint16 parameters 6);
      serverPDU ← on_server (locked (λ s, (pdu s, s)));
      let negotiated := if serverPDU <? requestedPDU then serverPDU else requestedPDU in
      writeAck reference
        [0xf0; 0x00; 0x00; 0x01; 0x00; 0x01; u8 (Z.shiftr negotiated 8); u8 negotiated] [] 0.

(** [switch function]; [false]: the connection is to be closed without an answer. *)
Definition dispatch (function reference : Z) (parameters data : list Z) : Srv Handler bool :=
  if function =? 0x04 then
    '(responseParameters, responseData) ← on_server (handleRead parameters data);
    _ ← on_server delayResponse;
    _ ← writeAck reference responseParameters responseData 0;
    mret true
  else if function =? 0x05 then
    '(responseParameters, responseData) ← on_server (handleWrite parameters data);
    _ ← on_server delayResponse;
    drop ← on_server consumeDropWriteResponse;
    if drop : bool then mret false
    else
      _ ← writeAck reference responseParameters responseData 0;
      mret true
  else complain ("testplc: unsupported function 0x" +:+ hex02 function).

(** One turn of the request loop, from a frame on. *)
Definition serve_request (frame : list Z) : Srv Handler bool :=
  payload ← pure (UnwrapData frame);
  '(reference, parameters, data) ← pure (parseJob payload);
  if zlen parameters <? 2 then complain "testplc: short variable parameters"
  else
    function ← pure (index parameters 0);
    itemCount ← pure (index parameters 1);
    _ ← on_server (recordRequest (mkRequest function itemCount (zlen payload)));
    dispatch function reference parameters data.

(** The request loop; every turn consumes a frame, so the number of bytes
    that arrive is enough fuel. *)
Fixpoint serveLoop (fuel : nat) : Srv Handler unit :=
  match fuel with
  | O => pure Panic
  | S fuel =>
      frame ← receive;
      more ← serve_request frame;
      if more : bool then serveLoop fuel else mret tt
  end.

Definition handleConnection (fuel : nat) : Srv Handler unit :=
  request ← receive;
  _ ← serve_connect request;
  setupFrame ← receive;
  _ ← serve_setup setupFrame;
  serveLoop fuel.

(** The goroutine of an accepted connection: the handler, then its error. *)
Definition serveConnection (fuel : nat) (h : Handler) : Handler :=
  match handleConnection fuel h with
  | (Err err, h) =>
      if isExpectedClose err then h
      else mkHandler (recordError err (server h)) (inbound h) (writable h) (outbound h)
  | (_, h) => h
  end.

(** ** The handler waiting for bytes *)

Inductive phase := AwaitConnect | AwaitSetup | AwaitRequest | Gone.

Record PLC := mkPLC { plc_server : Server; plc_phase : phase; plc_unread : list Z }.

Definition listening (s : Server) : PLC := mkPLC s AwaitConnect [].

(** What the handler does with a frame, and what it waits for then. *)
Definition serve (ph : phase) (frame : list Z) : Srv Handler phase :=
  match ph with
  | AwaitConnect => _ ← serve_connect frame; mret AwaitSetup
  | AwaitSetup => _ ← serve_setup frame; mret AwaitRequest
  | AwaitRequest => more ← serve_request frame; mret (if more : bool then AwaitRequest else Gone)
  | Gone => mret Gone
  end.

(** The stream ends here for now: the handler keeps waiting. *)
Definition starved (err : error) : bool :=
  errors_Is err (EVar IoEOF) || errors_Is err (EVar IoUnexpectedEOF).

Definition hang_up (err : error) (s : Server) (out : list Z) : PLC * list Z :=
  (mkPLC (if isExpectedClose err then s else recordError err s) Gone [], out).

(** Serve the complete frames among the unread bytes; a frame has at least
    seven bytes, so their number is enough fuel. *)
Fixpoint feed (fuel : nat) (p : PLC) (out : list Z) : PLC * list Z :=
  match fuel, plc_phase p with
  | O, _ => (p, out)
  | _, Gone => (p, out)
  | S fuel, ph =>
      match ReadFrame [Chunk (plc_unread p)] 65535 with
      | (Ok frame, rest) =>
          match serve ph frame (mkHandler (plc_server p) [] [] []) with
          | (Ok ph, h) => feed fuel (mkPLC (server h) ph (pending rest)) (out ++ outbound h)
          | (Err err, h) => hang_up err (server h) (out ++ outbound h)
          | (Panic, h) => (mkPLC (server h) Gone [], out ++ outbound h)
          end
      | (Err err, _) => if starved err then (p, out) else hang_up err (plc_server p) out
      | (Panic, _) => (mkPLC (plc_server p) Gone [], out)
      end
  end.

(** New bytes arrive: the answer is what the handler sends, and the end of
    the stream if it closes the connection. *)
Definition plc_answer (p : PLC) (bs : list Z) : PLC * list arrival :=
  let p := mkPLC (plc_server p) (plc_phase p) (plc_unread p ++ bs) in
  let '(p, out) := feed (S (length (plc_unread p))) p [] in
  (p, Chunk (u8 <$> out) :: match plc_phase p with Gone => [Fault (EVar IoEOF)] | _ => [] end).

#[export] Program Instance PLC_peer : Peer PLC := { answer := plc_answer }.
Next Obligation.
  intros p bs. unfold plc_answer. destruct (feed _ _ _) as [p' out]. constructor.
  - apply Forall_fmap, Forall_true. intros z. apply u8_range.
  - by destruct (plc_phase p'); repeat constructor.
Qed.
