(* ===== verification/PLCProofs.v ===== *)
(** * PLCProofs: the scripted PLC serves the protocol of the client

    The server's parsers read back what the client's encoders write, its
    answers are responses the client's decoders accept, and they hold the
    contents of the server's memory. *)

From stdpp Require Import gmap.
From S2P Require Import Errors Protocol IsoTCP Item Session TestPLC.

(** ** Jobs *)

Lemma parseJob_pdu reference parameters data :
  is_u16 reference → reference ≠ 0 → zlen parameters ≤ MaxUint16 → zlen data ≤ MaxUint16 →
  parseJob (job_pdu reference parameters data) = Ok (reference, parameters, data).
Proof.
  intros Hr Hr0 Hp Hd. zlen_pos. unfold parseJob. rewrite zlen_job_pdu.
  destruct (_ <? 10) eqn:E; [lia|]. clear E. unfold job_pdu. cbn [be_split app].
  rewrite (index_Ok _ 0), (index_Ok _ 1), (index_Ok _ 2), (index_Ok _ 3), !get_uint16_Ok by zlia.
  eval_at. cbn [mbind outcome_bind negb orb Z.eqb Pos.eqb].
  rewrite !be_combine_split2 by (unfold is_u16, MaxUint16 in *; lia).
  replace (10 + zlen parameters + zlen data - 10) with (zlen parameters + zlen data) by lia.
  rewrite (proj2 (Z.eqb_neq _ _) Hr0). destruct (zlen parameters >? _) eqn:E; [lia|]. clear E.
  destruct (zlen data =? _) eqn:E; [|lia]. cbn [orb negb].
  rewrite !slice_Ok by zlia. cbn [mbind outcome_bind].
  match goal with |- context [sub (?a :: ?b :: ?c :: ?d :: ?e :: ?f :: ?g :: ?h :: ?i :: ?j :: ?l)] =>
    set (k := [a; b; c; d; e; f; g; h; i; j]); change (a :: b :: c :: d :: e :: f :: g :: h :: i :: j :: l) with (k ++ l)
  end.
  do 2 f_equal; [f_equal|].
  - by apply sub_app_mid.
  - pose proof (sub_app_mid (k ++ parameters) data [] (10 + zlen parameters)
      (10 + zlen parameters + zlen data)) as Hs. rewrite app_nil_r, <-app_assoc in Hs. apply Hs; subst k; zlia.
Qed.

(** ** Variable descriptors *)

(** A wire item the server serves: one the client derives from a transport. *)
Definition plc_item (i : Protocol.Item) : Prop :=
  Protocol.valid_item i ∧ ∃ t l, layoutFor t = Some l ∧ WordLength i = Item.wordLength l ∧
    ResponseTransport i = responseTransport l ∧ LengthInBits i = lengthInBits l ∧
    DataBytes i = Amount i * width l ∧ (t = TransportBit → Amount i = 1).

Definition variable_of (i : Protocol.Item) : variableItem :=
  mkVariable (WordLength i) (Amount i) (Protocol.DBNumber i) (Protocol.Area i) (Protocol.Address i)
    (DataBytes i) (ResponseTransport i) (encoded_length i).

Lemma descriptor_plc a t c : Protocol.valid_item (descriptor a t c) → 1 ≤ t ≤ 7 →
  (t = TransportBit → c = 1) → plc_item (descriptor a t c).
Proof.
  intros Hv Ht Hb. split; [done|].
  destruct (layoutFor t) as [l|] eqn:Hl; [|apply layoutFor_None in Hl; lia].
  exists t, l. unfold descriptor, item_bytes, width_of. rewrite Hl. by split_and!.
Qed.

Lemma be_combine3 a b c : be_combine [a; b; c] = Z.lor (Z.lor (Z.shiftl a 16) (Z.shiftl b 8)) c.
Proof.
  unfold be_combine. cbn [foldl]. rewrite Z.shiftl_0_l, Z.lor_0_l, Z.shiftl_lor, Z.shiftl_shiftl by lia. done.
Qed.

Lemma parseVariable_spec i : plc_item i → parseVariable (item_spec i) = Ok (variable_of i).
Proof.
  intros [Hv (t & l & Hl & Hw & Ht & Hb & Hd & H1)]. destruct Hv as [_ _ Ha Hdb _ Hadr _ Hlen].
  unfold parseVariable, item_spec. cbn [be_split app].
  rewrite !index_Ok, !get_uint16_Ok by zlia. eval_at.
  cbn [mbind outcome_bind negb orb Z.eqb Pos.eqb]. rewrite <-be_combine3.
  change [u8 (Z.shiftr (Z.shiftr (Protocol.Address i) 8) 8); u8 (Z.shiftr (Protocol.Address i) 8); u8 (Protocol.Address i)]
    with (be_split 3 (Protocol.Address i)).
  rewrite be_combine_split, (Z.mod_small (Protocol.Address i)), !be_combine_split2 by bool_lia.
  unfold variable_of. unfold encoded_length in *. rewrite Hw, Ht, Hb, Hd in *. unfold word_kind.
  apply layoutFor_Some in Hl. rewrite !elem_of_cons, elem_of_nil in Hl.
  repeat destruct Hl as [[= -> ->]|Hl]; [..|done];
    cbn [Item.wordLength responseTransport width lengthInBits] in *;
    cbn [Z.eqb Pos.eqb negb orb mbind outcome_bind] in *.
  { by rewrite (H1 eq_refl). }
  all: (match goal with |- context [?x >? 65535] => destruct (x >? 65535) eqn:E end; [unfold MaxUint16 in *; lia|]);
    by rewrite u16_id by (unfold is_u16, MaxUint16 in *; lia).
Qed.

Lemma parseVariablesFrom_spec items : ∀ k idx m, Forall plc_item items → zlen k = 2 + 12 * idx →
  0 ≤ idx → parseVariablesFrom (k ++ concat (item_spec <$> items) ++ m) idx (length items)
  = Ok (variable_of <$> items).
Proof.
  induction items as [|i items IH]; intros k idx m Hv Hk Hi; [done|].
  apply Forall_cons in Hv as [Hv Hvs]. cbn [length parseVariablesFrom].
  rewrite fmap_cons. cbn [concat]. rewrite <-app_assoc.
  rewrite slice_Ok by zlia. cbn [mbind outcome_bind].
  rewrite (sub_app_mid k (item_spec i)) by zlia. rewrite parseVariable_spec by done. cbn [mbind outcome_bind].
  rewrite app_assoc, IH by zlia || done. done.
Qed.

Lemma parseVariableItems_spec function items : Forall plc_item items → 1 ≤ zlen items ≤ 255 →
  parseVariableItems (variable_block function items) = Ok (variable_of <$> items).
Proof.
  intros Hv Hn. unfold parseVariableItems. rewrite zlen_variable_block.
  destruct (_ <? 2) eqn:E; [lia|]. clear E. unfold variable_block. cbn [app].
  rewrite index_Ok by zlia. cbn [mbind outcome_bind].
  change (byte_at (function :: zlen items :: concat (item_spec <$> items)) 1) with (zlen items).
  destruct (zlen items =? 0) eqn:E; [lia|]. clear E. rewrite Z.eqb_refl. cbn [orb negb].
  replace (Z.to_nat (zlen items)) with (length items) by (unfold zlen; lia).
  pose proof (parseVariablesFrom_spec items [function; zlen items] 0 [] Hv) as H.
  rewrite app_nil_r in H. by apply H.
Qed.

(** ** Memory *)

(** Memory holds bytes. *)
Definition byte_memory (m : Memory) : Prop := ∀ key v, m !! key = Some v → is_u8 v.
Definition memory_typed (s : Server) : Prop := byte_memory (memory s).

Lemma memory_at_u8 m key : byte_memory m → is_u8 (memory_at m key).
Proof.
  intros Hm. unfold memory_at. destruct (m !! key) as [v|] eqn:E; [by eapply Hm|done].
Qed.

(** The bytes an item stands for. *)
Definition contents (m : Memory) (i : Protocol.Item) : list Z := load m (variable_of i).

Lemma length_loadBytes m area db offset index n : length (loadBytes m area db offset index n) = n.
Proof. revert index. induction n as [|n IH]; intros index; [done|]. cbn [loadBytes length]. by rewrite IH. Qed.

Lemma plc_item_bit i : plc_item i → (WordLength i =? 1) = true →
  DataBytes i = 1 ∧ Amount i = 1 ∧ ResponseTransport i = 3 ∧ encoded_length i = 1.
Proof.
  intros [Hv (t & l & Hl & Hw & Ht & Hb & Hd & H1)] Hbit. unfold encoded_length. rewrite Hbit.
  apply layoutFor_Some in Hl. rewrite !elem_of_cons, elem_of_nil in Hl.
  repeat destruct Hl as [[= -> ->]|Hl]; [..|done];
    cbn [Item.wordLength responseTransport width lengthInBits] in *; rewrite Hw in Hbit; try done.
  rewrite Hd, (H1 eq_refl). done.
Qed.

Lemma zlen_contents m i : plc_item i → zlen (contents m i) = DataBytes i.
Proof.
  intros Hi. unfold contents, load. cbn [wordLength variable_of].
  destruct (WordLength i =? 1) eqn:Hb.
  - destruct (plc_item_bit i Hi Hb) as (-> & _). by case_if.
  - destruct Hi as [[_ _ _ _ _ _ Hd _] _]. unfold zlen. rewrite length_loadBytes. cbn [dataBytes variable_of]. lia.
Qed.

Lemma bytes_loadBytes s area db offset index n : memory_typed s →
  bytes (loadBytes (memory s) area db offset index n).
Proof.
  intros Hm. revert index. induction n as [|n IH]; intros index; constructor; [by apply memory_at_u8|done].
Qed.

Lemma bytes_contents s i : memory_typed s → bytes (contents (memory s) i).
Proof.
  intros Hm. unfold contents, load. case_if; [case_if; by repeat constructor|]. by apply bytes_loadBytes.
Qed.

(** The key of byte [index] of a run of bytes. *)
Definition byte_key (area db offset index : Z) : memoryKey := (area, db, u32 (offset + u32 index)).

(** What an item writes. *)
Definition written (i : Protocol.Item) (data : list Z) (m : Memory) : Memory :=
  let v := variable_of i in
  if WordLength i =? 0x01 then
    let key := (varea v, vdb v, address v / 8) in
    let mask := u8 (Z.shiftl 1 (address v mod 8)) in
    <[key := if byte_at data 0 =? 1 then Z.lor (memory_at m key) mask
             else Z.ldiff (memory_at m key) mask]> m
  else storeBytes m (varea v) (vdb v) (byte_start v) 0 data.

Lemma writeItem_spec i data s : plc_item i → zlen data = DataBytes i →
  writeItem (variable_of i) data s = (Ok tt, with_memory (written i data (memory s)) s).
Proof.
  intros Hi Hd. unfold writeItem, written. cbn [wordLength variable_of].
  destruct (WordLength i =? 1) eqn:Hb; [|done]. destruct (plc_item_bit i Hi Hb) as (H1 & _).
  cbv zeta. rewrite index_Ok by lia. done.
Qed.

(** *** Rejections *)

(** The return code the next first item gets, and the server after it. *)
Definition first_code (s : Server) : Z :=
  if (rejectNextItem s =? 0) || (rejectAfterRequests s >? 0) then 0xff else rejectNextItem s.
Definition after_reject (s : Server) : Server :=
  if rejectNextItem s =? 0 then s
  else if rejectAfterRequests s >? 0 then with_reject (rejectNextItem s) (rejectAfterRequests s - 1) s
  else with_reject 0 (rejectAfterRequests s) s.

Lemma consumeRejectItem_spec s : consumeRejectItem 0xff s = (Ok (first_code s), after_reject s).
Proof.
  unfold consumeRejectItem, locked, first_code, after_reject. destruct (_ =? 0); [done|]. by destruct (_ >? 0).
Qed.
Lemma memory_after_reject s : memory (after_reject s) = memory s.
Proof. unfold after_reject. by repeat case_if. Qed.

(** ** ReadVar *)

Definition read_result_of (s : Server) (i : Protocol.Item) : Protocol.ItemResult :=
  Protocol.mkItemResult 0xff (contents (memory s) i).
(** The results of a read: the first item may be rejected. *)
Definition read_results (s : Server) (items : list Protocol.Item) : list Protocol.ItemResult :=
  match items with
  | [] => []
  | i :: rest =>
      (if first_code s =? 0xff then read_result_of s i else Protocol.mkItemResult (first_code s) [])
      :: (read_result_of s <$> rest)
  end.

Lemma readItems_served s items : ∀ idx count response, Forall plc_item items → 0 < idx →
  ∃ d, readItems idx count (variable_of <$> items) response s = (Ok (response ++ d), s) ∧
    read_data count idx items (read_result_of s <$> items) d.
Proof.
  induction items as [|i items IH]; intros idx count response Hv Hi.
  { exists []. rewrite app_nil_r. split; [done|constructor]. }
  apply Forall_cons in Hv as [Hv Hvs]. rewrite !fmap_cons. cbn [readItems].
  destruct (idx =? 0) eqn:E; [lia|]. clear E. unfold mbind, Srv_bind, mret, Srv_ret, locked.
  cbn [negb Z.eqb Pos.eqb transport variable_of vlength].
  match goal with |- context [readItems _ _ _ ?r _] =>
    destruct (IH (idx + 1) count r Hvs ltac:(lia)) as (d & -> & Hd) end.
  eexists. split; [|apply (rd_ok count idx i items (contents (memory s) i) _ d); [by apply zlen_contents|done]].
  change (readItem (variable_of i) s) with (contents (memory s) i). rewrite (zlen_contents (memory s) i Hv). unfold padded. f_equal. f_equal.
  cbn [be_split app]. case_if; cbn [app]; by rewrite <-?app_assoc.
Qed.

Lemma read_first s i items count : Forall plc_item items → plc_item i →
  ∃ d, readItems 0 count (variable_of <$> i :: items) [] s = (Ok d, after_reject s) ∧
    read_data count 0 (i :: items) (read_results s (i :: items)) d.
Proof.
  intros Hvs Hv. rewrite fmap_cons. cbn [readItems read_results].
  change (0 =? 0) with true. cbv iota. unfold mbind, Srv_bind. rewrite consumeRejectItem_spec.
  assert ((read_result_of (after_reject s) <$> items) = (read_result_of s <$> items)) as Hrs.
  { apply list_fmap_ext. intros k j _. unfold read_result_of. by rewrite memory_after_reject. }
  rewrite <-Hrs. destruct (first_code s =? 255) eqn:Hf; cbn [negb].
  - unfold locked. cbn [transport variable_of vlength].
    change (readItem (variable_of i) (after_reject s)) with (contents (memory (after_reject s)) i).
    rewrite memory_after_reject.
    match goal with |- context [readItems _ _ _ ?r _] =>
      destruct (readItems_served (after_reject s) items (0 + 1) count r Hvs ltac:(lia)) as (d & -> & Hd) end.
    eexists. split; [|apply (rd_ok count 0 i items (contents (memory s) i) _ d); [by apply zlen_contents|done]].
    rewrite (zlen_contents (memory s) i Hv). unfold padded. f_equal. f_equal.
    cbn [be_split app]. case_if; cbn [app]; by rewrite <-?app_assoc.
  - match goal with |- context [readItems _ _ _ ?r _] =>
      destruct (readItems_served (after_reject s) items (0 + 1) count r Hvs ltac:(lia)) as (d & -> & Hd) end.
    eexists. split; [done|]. apply rd_failed; [lia|by right|done].
Qed.

Lemma handleRead_spec s items : Forall plc_item items → 1 ≤ zlen items ≤ 255 →
  ∃ d, handleRead (variable_block functionReadVar items) [] s
       = (Ok ([functionReadVar; zlen items], d), after_reject s) ∧
    read_data (zlen items) 0 items (read_results s items) d.
Proof.
  intros Hv Hn. unfold handleRead. change (negb (zlen [] =? 0)) with false. cbv iota.
  unfold mbind, Srv_bind, pure. rewrite parseVariableItems_spec by done. rewrite zlen_map.
  destruct items as [|i items]; [change (zlen []) with 0 in Hn; lia|]. apply Forall_cons in Hv as [Hi Hvs].
  destruct (read_first s i items (zlen (i :: items)) Hvs Hi) as (d & -> & Hd).
  exists d. by rewrite u8_id by (unfold is_u8; lia).
Qed.

(** ** WriteVar *)

(** The memory after the items are written, one after the other. *)
Definition written_all (items : list Protocol.WriteItem) (m : Memory) : Memory :=
  foldl (λ m w, written (Protocol.WItem w) (Protocol.WData w) m) m items.
(** The server after a write: the first item may be rejected. *)
Definition write_effect (s : Server) (items : list Protocol.WriteItem) : Server :=
  let accepted := if first_code s =? 0xff then items else tail items in
  with_memory (written_all accepted (memory s)) (after_reject s).

(** The data of one item, behind the consumed prefix [k]. *)
Lemma writeValue_spec k w m : plc_item (Protocol.WItem w) →
  zlen (Protocol.WData w) = DataBytes (Protocol.WItem w) →
  writeValue (variable_of (Protocol.WItem w))
    (k ++ ([0; ResponseTransport (Protocol.WItem w)] ++ be_split 2 (encoded_length (Protocol.WItem w))
           ++ Protocol.WData w) ++ m) (zlen k)
  = Ok (Protocol.WData w, zlen k + 4 + DataBytes (Protocol.WItem w)).
Proof.
  intros [Hv _] Hd. destruct Hv as [_ _ _ _ _ _ Hb Hl]. unfold writeValue. zlen_pos.
  rewrite <-!app_assoc. cbn [be_split app transport vlength dataBytes variable_of].
  destruct (_ <? 4) eqn:E; [zlia|]. clear E.
  rewrite index_app_0, (index_app k _ 1), (get_uint16_app k _ 2) by lia. cbn [mbind outcome_bind].
  rewrite (index_Ok _ 1), (get_uint16_Ok _ 2) by zlia. cbn [mbind outcome_bind]. eval_at.
  rewrite be_combine_split2 by bool_lia. rewrite !Z.eqb_refl. cbn [negb orb].
  match goal with |- context [k ++ ?a :: ?b :: ?c :: ?d :: ?l] =>
    replace (k ++ a :: b :: c :: d :: l) with ((k ++ [a; b; c; d]) ++ l) by by rewrite <-app_assoc end.
  destruct (_ >? _) eqn:E; [zlia|]. clear E.
  replace (zlen k + 4) with (zlen (k ++ [0; ResponseTransport (Protocol.WItem w);
    u8 (Z.shiftr (encoded_length (Protocol.WItem w)) 8); u8 (encoded_length (Protocol.WItem w))])) by zlia.
  rewrite slice_app_0 by zlia. cbn [mbind outcome_bind]. rewrite <-Hd.
  by rewrite take_app_length' by (unfold zlen; lia).
Qed.

(** The next return code of a write. *)
Lemma store_code k n c m : zlen k = n → 0 ≤ m →
  store (E:=error) (k ++ make (1 + m)) n c = Ok ((k ++ [c]) ++ make m).
Proof.
  intros Hk Hm. rewrite make_app by lia. rewrite (store_mid k (make 1) _ n 0) by (rewrite ?zlen_make; lia).
  change (make 1) with [0]. by rewrite <-app_assoc.
Qed.

(** The bytes of one item of a write request. *)
Definition write_part (idx count : Z) (w : Protocol.WriteItem) : list Z :=
  ([0; ResponseTransport (Protocol.WItem w)] ++ be_split 2 (encoded_length (Protocol.WItem w))
   ++ Protocol.WData w) ++ (if padded idx count (zlen (Protocol.WData w)) then [0] else []).

Lemma write_data_cons idx count w items :
  write_data idx count (w :: items) = write_part idx count w ++ write_data (idx + 1) count items.
Proof. cbn [write_data]. unfold write_part. by rewrite <-!app_assoc. Qed.

(** One turn of the loop of [handleWrite], the return code being known. *)
Lemma writeItems_step idx count w vs k rest codes m s code s1 :
  plc_item (Protocol.WItem w) → zlen (Protocol.WData w) = DataBytes (Protocol.WItem w) →
  zlen codes = idx → 0 ≤ m →
  (if idx =? 0 then consumeRejectItem 0xff else mret 0xff) s = (Ok code, s1) →
  writeItems idx count (variable_of (Protocol.WItem w) :: vs) (k ++ write_part idx count w ++ rest)
    (zlen k) (codes ++ make (1 + m)) s
  = writeItems (idx + 1) count vs ((k ++ write_part idx count w) ++ rest)
      (zlen (k ++ write_part idx count w)) ((codes ++ [code]) ++ make m)
      (if code =? 0xff then with_memory (written (Protocol.WItem w) (Protocol.WData w) (memory s1)) s1 else s1).
Proof.
  intros Hi Hd Hc Hm Hcode. unfold write_part, padded. rewrite Hd.
  set (pad := if negb (idx =? count - 1) && negb (Z.rem (DataBytes (Protocol.WItem w)) 2 =? 0) then [0] else []).
  set (body := [0; _] ++ _ ++ _). assert (zlen body = 4 + DataBytes (Protocol.WItem w)) as Hbody.
  { unfold body. zlia. }
  cbn [writeItems]. unfold mbind at 1, Srv_bind at 1, pure at 1. rewrite <-(app_assoc body).
  unfold body at 1. rewrite writeValue_spec by done. unfold mbind at 1, Srv_bind at 1. rewrite Hcode.
  unfold mbind at 1, Srv_bind at 1, pure at 1. rewrite store_code by done.
  unfold mbind at 1, Srv_bind at 1.
  assert ((if code =? 255 then writeItem (variable_of (Protocol.WItem w)) (Protocol.WData w) else mret ()) s1
    = (Ok (), if code =? 255 then with_memory (written (Protocol.WItem w) (Protocol.WData w) (memory s1)) s1 else s1))
    as ->. { destruct (code =? 255); [by apply writeItem_spec|done]. }
  cbn [dataBytes variable_of].
  replace (zlen k + 4 + DataBytes (Protocol.WItem w)) with (zlen (k ++ body)) by zlia.
  rewrite (app_assoc k body).
  destruct (negb (idx =? count - 1) && negb (Z.rem (DataBytes (Protocol.WItem w)) 2 =? 0)) in pad |- *; subst pad.
  - destruct (_ >=? _) eqn:E; [zlia|]. clear E. unfold mbind at 1, Srv_bind at 1, pure at 1.
    cbn [app]. rewrite index_app_0. change (negb (0 =? 0)) with false. cbv iota.
    replace (zlen (k ++ body) + 1) with (zlen ((k ++ body) ++ [0])) by zlia.
    by rewrite <-!app_assoc.
  - by rewrite !app_nil_r.
Qed.

Lemma writeItems_served items : ∀ s k codes idx count,
  Forall plc_item (Protocol.WItem <$> items) →
  Forall (λ w, zlen (Protocol.WData w) = DataBytes (Protocol.WItem w)) items →
  0 < idx → zlen codes = idx →
  writeItems idx count (variable_of <$> (Protocol.WItem <$> items))
    (k ++ write_data idx count items) (zlen k) (codes ++ make (zlen items)) s
  = (Ok (zlen (k ++ write_data idx count items), codes ++ replicate (length items) 0xff),
     with_memory (written_all items (memory s)) s).
Proof.
  induction items as [|w items IH]; intros s k codes idx count Hv Hd Hi Hc.
  { cbn. rewrite !app_nil_r. by destruct s. }
  rewrite !fmap_cons. apply Forall_cons in Hv as [Hv Hvs]. apply Forall_cons in Hd as [Hw Hd].
  assert ((if idx =? 0 then consumeRejectItem 0xff else mret 0xff) s = (Ok 0xff, s)) as Hcode.
  { destruct (idx =? 0) eqn:E; [lia|done]. }
  rewrite write_data_cons, zlen_cons, (writeItems_step _ _ _ _ _ _ _ _ _ 255 s) by (done || apply zlen_nonneg).
  rewrite IH; [|done|done|lia|zlia].
  by rewrite <-!app_assoc.
Qed.

Lemma handleWrite_spec s items : Forall plc_item (Protocol.WItem <$> items) →
  Forall (λ w, zlen (Protocol.WData w) = DataBytes (Protocol.WItem w)) items → 1 ≤ zlen items ≤ 255 →
  handleWrite (variable_block functionWriteVar (Protocol.WItem <$> items)) (write_data 0 (zlen items) items) s
  = (Ok ([functionWriteVar; zlen items], first_code s :: replicate (length items - 1) 0xff),
     write_effect s items).
Proof.
  intros Hv Hd Hn. unfold handleWrite, mbind, Srv_bind, pure.
  rewrite parseVariableItems_spec by (rewrite ?zlen_map; done). rewrite !zlen_map.
  rewrite u8_id by (unfold is_u8; lia). set (count := zlen items).
  destruct items as [|w items]; [change (zlen []) with 0 in Hn; lia|]. rewrite !fmap_cons, write_data_cons.
  apply Forall_cons in Hv as [Hv Hvs]. apply Forall_cons in Hd as [Hw Hd].
  change (make count) with ([] ++ make (zlen (w :: items))). rewrite zlen_cons.
  change (writeItems 0 count ?vs (write_part 0 count w ++ ?r)) with
    (writeItems 0 count vs ([] ++ write_part 0 count w ++ r)). change 0 with (zlen (@nil Z)) at 2.
  rewrite (writeItems_step 0 count w _ [] _ [] _ s (first_code s) (after_reject s)) by
    (done || apply zlen_nonneg || apply consumeRejectItem_spec).
  rewrite writeItems_served; [|done|done|lia|done].
  replace (length (w :: items) - 1)%nat with (length items) by (cbn; lia).
  rewrite app_nil_l, Z.eqb_refl. cbn [negb app]. unfold mret, Srv_ret. f_equal.
  unfold write_effect. rewrite <-(memory_after_reject s).
  destruct (first_code s =? 255); cbn [tail written_all foldl]; [|done]. by destruct (after_reject s).
Qed.

(** ** Answers *)

(** Linear arithmetic over the sizes of frames. *)
Ltac frame_lia := autorewrite with zlen in *; zlen_pos; unfold MaxUint16 in *; iso_lia.

Lemma ack_payload_pdu reference p d g : zlen p ≤ MaxUint16 → zlen d ≤ MaxUint16 →
  ack_payload reference p d g = Ok (ack_pdu reference p d g).
Proof.
  intros Hp Hd. zlen_pos. unfold ack_payload. rewrite !make_app by lia.
  change (make 12) with (replicate 12 0). cbn [replicate].
  rewrite <-app_assoc, <-(app_nil_l (_ :: _)), <-app_assoc. unfold put_uint16.
  repeat store_step. rewrite !u16_id by (unfold is_u16, MaxUint16 in *; lia).
  rewrite app_nil_l, (copy_at_app _ (make (zlen p)) (make (zlen d))) by zlia.
  rewrite app_assoc, <-(app_nil_r (make (zlen d))), copy_at_app by zlia.
  by rewrite <-!app_assoc, app_nil_r.
Qed.

(** The handler after it sent some bytes. *)
Definition sent (bs : list Z) (h : Handler) : Handler :=
  mkHandler (server h) (inbound h) (writable h) (outbound h ++ bs).
Definition with_server (s : Server) (h : Handler) : Handler :=
  mkHandler s (inbound h) (writable h) (outbound h).

(** Nothing keeps the handler from writing. *)
Lemma send_spec frame h : frame ≠ [] → writable h = [] → send frame h = (Ok tt, sent frame h).
Proof.
  intros Hf Hw. unfold send, sent. rewrite Hw. cbn [head default]. unfold WriteFull. cbn [WriteFullFrom].
  destruct frame as [|b frame]; [done|]. destruct (0 <? zlen (b :: frame)) eqn:E; [|zlia]. done.
Qed.

Lemma writeAck_spec reference p d g h : writable h = [] →
  12 + zlen p + zlen d ≤ maxTPKTLength - DataHeaderSize →
  writeAck reference p d g h = (Ok tt, sent (data_frame 0x80 (ack_pdu reference p d g)) h).
Proof.
  intros Hw Hl. unfold writeAck, mbind, Srv_bind, pure. zlen_pos.
  rewrite ack_payload_pdu by frame_lia.
  rewrite WrapData_spec. rewrite decide_True by frame_lia. by apply send_spec.
Qed.

Lemma on_server_spec {A} (m : Srv Server A) h a s : m (server h) = (Ok a, s) →
  on_server m h = (Ok a, with_server s h).
Proof. intros Hm. unfold on_server. by rewrite Hm. Qed.

(** ** The three parts of the handler *)

Definition confirm_frame (localTSAP remoteTSAP code : Z) : list Z :=
  [3; 0; 0; 22; 17; 0xd0; 0; 1; 0; 1; 0; 0xc0; 1; code; 0xc1; 2] ++ be_split 2 remoteTSAP
  ++ [0xc2; 2] ++ be_split 2 localTSAP.
Definition request_frame (localTSAP remoteTSAP code : Z) : list Z :=
  [3; 0; 0; 22; 17; 0xe0; 0; 0; 0; 1; 0; 0xc0; 1; code; 0xc1; 2] ++ be_split 2 localTSAP
  ++ [0xc2; 2] ++ be_split 2 remoteTSAP.

Lemma buildConnectionConfirm_frame localTSAP remoteTSAP code :
  buildConnectionConfirm localTSAP remoteTSAP code = Ok (confirm_frame localTSAP remoteTSAP code).
Proof. reflexivity. Qed.

Lemma serve_connect_spec localTSAP remoteTSAP code h :
  is_u16 localTSAP → is_u16 remoteTSAP → writable h = [] →
  serve_connect (request_frame localTSAP remoteTSAP code) h
  = (Ok tt, sent (confirm_frame localTSAP remoteTSAP code) h).
Proof.
  intros Hl Hr Hw. unfold serve_connect, request_frame. cbn [be_split app].
  match goal with |- context [zlen ?l =? 22] => change (zlen l =? 22) with true end. cbn [negb orb].
  unfold mbind, Srv_bind, pure. rewrite !index_Ok, !get_uint16_Ok by zlia. eval_at.
  cbn [negb orb Z.eqb Pos.eqb]. rewrite !be_combine_split2 by done.
  rewrite buildConnectionConfirm_frame. by apply send_spec.
Qed.

(** The response to the setup request, with the smaller PDU size. *)
Definition setup_answer (s : Server) (reference requested : Z) : list Z :=
  ack_pdu reference ([0xf0; 0; 0; 1; 0; 1] ++ be_split 2 (Z.min (pdu s) requested)) [] 0.

Lemma UnwrapData_frame payload : bytes payload → DataHeaderSize + zlen payload ≤ maxTPKTLength →
  UnwrapData (data_frame 0x80 payload) = Ok payload.
Proof.
  intros Hb Hl. apply UnwrapData_spec; [by apply bytes_data_frame|]. exists 0x80.
  split_and!; [done|done|]. by rewrite zlen_data_frame.
Qed.

Lemma serve_setup_spec reference caller callee requested h :
  is_u16 reference → reference ≠ 0 → is_u16 requested → is_u16 (pdu (server h)) → writable h = [] →
  serve_setup (data_frame 0x80 (job_pdu reference
    ([functionSetup; 0] ++ be_split 2 caller ++ be_split 2 callee ++ be_split 2 requested) [])) h
  = (Ok tt, sent (data_frame 0x80 (setup_answer (server h) reference requested)) h).
Proof.
  intros Hr Hr0 Hq Hs Hw. destruct h as [s i w o]. cbn [server writable] in *.
  unfold serve_setup, mbind, Srv_bind, pure.
  rewrite UnwrapData_frame; [|unfold job_pdu; solve_bytes|frame_lia].
  rewrite parseJob_pdu by (done || unfold MaxUint16; zlia). cbn [be_split app].
  change (zlen [functionSetup; 0; _; _; _; _; _; _]) with 8. cbn [negb orb Z.eqb Pos.eqb].
  rewrite index_Ok, get_uint16_Ok by zlia. eval_at. rewrite be_combine_split2 by done.
  change (negb (zlen [] =? 0)) with false. change (negb (functionSetup =? 240)) with false. cbv iota beta.
  unfold on_server, locked. cbn [server inbound writable outbound].
  rewrite writeAck_spec; [|done|frame_lia]. unfold setup_answer. cbn [be_split app].
  cbn [server]. by replace (if pdu s <? requested then pdu s else requested)
    with (Z.min (pdu s) requested) by (case_if; lia).
Qed.

(** The server with one more request on record. *)
Definition logged (function count size : Z) (s : Server) : Server :=
  with_requests (requests s ++ [mkRequest function count size]) s.

Lemma first_code_logged f c z s : first_code (logged f c z s) = first_code s.
Proof. done. Qed.

(** The server after it answered a read. *)
Definition after_read (items : list Protocol.Item) (s : Server) : Server :=
  with_delay 0 (after_reject (logged functionReadVar (zlen items) (ReadRequestSize (zlen items)) s)).

Lemma bytes_variable_block f items : is_u8 f → zlen items ≤ 255 → Forall Protocol.valid_item items →
  bytes (variable_block f items).
Proof.
  intros Hf Hn Hv. unfold variable_block. apply Forall_app. split.
  - zlen_pos. repeat constructor; unfold is_u8 in *; lia.
  - apply Forall_concat, Forall_fmap. eapply Forall_impl; [exact Hv|]. intros i [[? _] _ _ _ [? _] _ _ _].
    cbn. unfold item_spec. solve_bytes.
Qed.

Lemma bytes_read_data count idx items rs d : read_data count idx items rs d →
  Forall Protocol.valid_item items → Forall (λ r, is_u8 (ReturnCode r) ∧ bytes (Protocol.Data r)) rs → bytes d.
Proof.
  induction 1 as [idx|idx item items rc len rs d Hrc Hlen Hd IH|idx item items pl rs d Hpl Hd IH];
    intros Hv Hr; [constructor|..]; apply Forall_cons in Hv as [[_ [? _] _ _ _ _ _ _] Hv];
    apply Forall_cons in Hr as [[Hc Hb] Hr]; specialize (IH Hv Hr); cbn in Hc, Hb.
  - apply Forall_app. split; [|done]. repeat constructor; unfold is_u8 in *; lia.
  - rewrite !Forall_app. split_and!; try done.
    + repeat constructor; unfold is_u8 in *; lia.
    + apply bytes_be_split.
    + case_if; by repeat constructor.
Qed.

Lemma read_results_bytes s items : memory_typed s → is_u8 (first_code s) →
  Forall (λ r, is_u8 (ReturnCode r) ∧ bytes (Protocol.Data r)) (read_results s items).
Proof.
  intros Hm Hf.
  assert (∀ i, is_u8 (ReturnCode (read_result_of s i)) ∧ bytes (Protocol.Data (read_result_of s i))) as Hi.
  { intros i. split; [done|]. by apply bytes_contents. }
  destruct items as [|i items]; [constructor|]. cbn [read_results]. constructor.
  - case_if; [apply Hi|]. split; [done|constructor].
  - apply Forall_fmap, Forall_true. intros j. apply Hi.
Qed.

(** Every request is unwrapped, parsed and recorded first. *)
Lemma serve_request_job function items reference data h :
  let payload := job_pdu reference (variable_block function items) data in
  is_u8 function → Forall Protocol.valid_item items → zlen items ≤ 255 → bytes data →
  is_u16 reference → reference ≠ 0 → zlen payload ≤ maxTPKTLength - DataHeaderSize →
  serve_request (data_frame 0x80 payload) h
  = dispatch function reference (variable_block function items) data
      (with_server (logged function (zlen items) (zlen payload) (server h)) h).
Proof.
  intros payload Hf Hv Hn Hbd Hr Hr0 Hl. pose proof (bytes_variable_block function items Hf Hn Hv).
  assert (zlen payload = 12 + 12 * zlen items + zlen data) as Hz by (unfold payload; zlia).
  unfold serve_request, mbind, Srv_bind, pure.
  rewrite UnwrapData_frame; [|unfold payload, job_pdu; solve_bytes|iso_lia].
  unfold payload at 1. rewrite parseJob_pdu by (done || frame_lia). zlen_pos.
  destruct (_ <? 2) eqn:E; [frame_lia|]. clear E. unfold variable_block at 1 2. cbn [app].
  rewrite !index_Ok by zlia. eval_at. done.
Qed.

Lemma plc_valid items : Forall plc_item items → Forall Protocol.valid_item items.
Proof. intros Hv. eapply Forall_impl; [exact Hv|]. by intros i [? _]. Qed.

Lemma serve_request_read reference items h :
  is_u16 reference → reference ≠ 0 → Forall plc_item items → 1 ≤ zlen items ≤ 255 →
  ReadResponseSize items ≤ maxTPKTLength - DataHeaderSize → writable h = [] →
  ∃ d, serve_request (data_frame 0x80 (job_pdu reference (variable_block functionReadVar items) [])) h
       = (Ok true, sent (data_frame 0x80 (ack_pdu reference [functionReadVar; zlen items] d 0))
                     (with_server (after_read items (server h)) h)) ∧
    read_data (zlen items) 0 items (read_results (server h) items) d.
Proof.
  intros Hr Hr0 Hv Hn Hsize Hw. pose proof (plc_valid items Hv) as Hvi.
  set (s0 := logged functionReadVar (zlen items) (ReadRequestSize (zlen items)) (server h)).
  destruct (handleRead_spec s0 items Hv Hn) as (d & Hd & Hrd). exists d. split; [|exact Hrd].
  assert (zlen (job_pdu reference (variable_block functionReadVar items) []) = ReadRequestSize (zlen items)) as Hz.
  { unfold ReadRequestSize, jobHeaderSize, itemSpecSize. zlia. }
  apply read_data_size in Hrd as [Hdl _]; [|done]. unfold ReadResponseSize, ackHeaderSize in Hsize.
  rewrite serve_request_job by (done || lia || rewrite Hz; unfold ReadRequestSize, jobHeaderSize, itemSpecSize; iso_lia).
  rewrite Hz. fold s0. unfold dispatch. change (functionReadVar =? 4) with true. cbv iota.
  unfold mbind, Srv_bind, on_server. cbn [server with_server inbound writable outbound]. rewrite Hd.
  unfold delayResponse, locked. cbv beta iota. cbn [server inbound writable outbound].
  rewrite writeAck_spec; [done|done|frame_lia].
Qed.

(** The server after it answered a write, unless the answer is dropped. *)
Definition after_write (items : list Protocol.WriteItem) (s : Server) : Server :=
  with_drop false (with_delay 0 (write_effect
    (logged functionWriteVar (zlen items) (WriteRequestSize items) s) items)).

Lemma bytes_write_data items : ∀ idx count, Forall Protocol.valid_item (Protocol.WItem <$> items) →
  Forall (λ w, bytes (Protocol.WData w)) items → bytes (write_data idx count items).
Proof.
  induction items as [|w items IH]; intros idx count Hv Hb; [constructor|].
  rewrite fmap_cons in Hv. apply Forall_cons in Hv as [[_ [? _] _ _ _ _ _ _] Hv]. apply Forall_cons in Hb as [Hb Hbs].
  cbn [write_data]. rewrite !Forall_app. split_and!; try done; [|apply bytes_be_split| |by apply IH].
  - repeat constructor; unfold is_u8 in *; lia.
  - case_if; by repeat constructor.
Qed.

Lemma serve_request_write reference items h :
  is_u16 reference → reference ≠ 0 → Forall plc_item (Protocol.WItem <$> items) → 1 ≤ zlen items ≤ 255 →
  Forall (λ w, zlen (Protocol.WData w) = DataBytes (Protocol.WItem w)) items →
  Forall (λ w, bytes (Protocol.WData w)) items →
  WriteRequestSize items ≤ maxTPKTLength - DataHeaderSize → writable h = [] →
  dropNextWriteResponse (server h) = false →
  serve_request (data_frame 0x80 (job_pdu reference (variable_block functionWriteVar (Protocol.WItem <$> items))
    (write_data 0 (zlen items) items))) h
  = (Ok true, sent (data_frame 0x80 (ack_pdu reference [functionWriteVar; zlen items]
                      (first_code (server h) :: replicate (length items - 1) 0xff) 0))
                (with_server (after_write items (server h)) h)).
Proof.
  intros Hr Hr0 Hv Hn Hd Hb Hsize Hw Hdrop. pose proof (plc_valid _ Hv) as Hvi.
  set (s0 := logged functionWriteVar (zlen items) (WriteRequestSize items) (server h)).
  assert (zlen (job_pdu reference (variable_block functionWriteVar (Protocol.WItem <$> items))
    (write_data 0 (zlen items) items)) = WriteRequestSize items) as Hz.
  { unfold WriteRequestSize, jobHeaderSize, itemSpecSize. rewrite zlen_job_pdu, zlen_write_data. zlia. }
  rewrite serve_request_job; [|done|done|rewrite zlen_map; lia|by apply bytes_write_data|done|done|lia].
  rewrite Hz, zlen_map. fold s0. unfold dispatch. change (functionWriteVar =? 4) with false.
  change (functionWriteVar =? 5) with true. cbv iota.
  unfold mbind, Srv_bind, on_server. cbn [server with_server inbound writable outbound].
  rewrite handleWrite_spec by done. unfold delayResponse, consumeDropWriteResponse, locked.
  cbv beta iota. cbn [server inbound writable outbound].
  assert (dropNextWriteResponse (with_delay 0 (write_effect s0 items)) = false) as ->.
  { unfold write_effect, after_reject. by repeat case_if. }
  rewrite writeAck_spec; [done|done|].
  assert (Z.of_nat (length items - 1) ≤ 255) by (unfold zlen in *; lia). frame_lia.
Qed.

(** ** The PLC as a peer *)

Lemma u8_bytes l : bytes l → u8 <$> l = l.
Proof. induction 1 as [|b l Hb _ IH]; [done|]. by rewrite fmap_cons, IH, u8_id. Qed.

(** Nothing to read: the handler waits. *)
Lemma feed_nothing fuel s ph out : feed fuel (mkPLC s ph []) out = (mkPLC s ph [], out).
Proof. by destruct fuel, ph. Qed.

(** One complete frame: the handler serves it and waits for the next. *)
Lemma plc_answer_frame ph s frame ph' s' out : ph ≠ Gone → tpkt 65535 frame → bytes frame →
  serve ph frame (mkHandler s [] [] []) = (Ok ph', mkHandler s' [] [] out) → bytes out →
  plc_answer (mkPLC s ph []) frame
  = (mkPLC s' ph' [], Chunk out :: match ph' with Gone => [Fault (EVar IoEOF)] | _ => [] end).
Proof.
  intros Hph Ht Hb Hserve Hout. unfold plc_answer. cbn [plc_server plc_phase plc_unread app].
  destruct (ReadFrame_tpkt [Chunk frame] frame [] 65535) as (rest & Hread & Hrest);
    [done|done|done|constructor|done|].
  destruct ph; [..|done]; cbn [feed plc_phase plc_unread plc_server]; rewrite Hread, Hserve, Hrest;
    cbn [server outbound app]; rewrite feed_nothing; cbn [plc_phase]; by rewrite u8_bytes.
Qed.

(** A reader that has just the bytes of a packet is exhausted by it. *)
Lemma ReadFull_exact bs got : bs ≠ [] → ReadFull [Chunk bs] (zlen bs) got = ((got ++ bs, None), []).
Proof.
  intros Hb. zlen_pos. assert (zlen bs ≠ 0) by (intros ?%zlen_nil_inv; done). cbn [ReadFull].
  destruct (zlen bs <=? 0) eqn:E; [lia|]. rewrite Z.leb_refl, Z.sub_diag. done.
Qed.

Lemma ReadFrame_chunk frame maxFrameBytes : maxFrameBytes ≤ maxTPKTLength → tpkt maxFrameBytes frame →
  bytes frame → ReadFrame [Chunk frame] maxFrameBytes = (Ok frame, []).
Proof.
  intros Hm Ht Hb. destruct (ReadFrame_tpkt [Chunk frame] frame [] maxFrameBytes) as (rest & Hr & _);
    [done|done|done|constructor|by cbn; rewrite app_nil_r|].
  enough (rest = []) by by subst. revert Hr. destruct Ht as (Hl & body & Hf).
  assert (zlen frame = 4 + zlen body) as Hz
    by (apply (f_equal zlen) in Hf; autorewrite with zlen in Hf; lia).
  unfold ReadFrame. case_if; [iso_lia|]. unfold TPKTHeaderSize at 1. cbn [ReadFull Z.leb Z.compare].
  destruct (zlen frame <=? 4) eqn:E; [iso_lia|]. clear E.
  clear Hb Hm. revert Hf Hl Hz. generalize (zlen frame). intros z -> Hl Hz. cbn [be_split app].
  change (take (Z.to_nat 4) (3 :: ?a :: ?b :: ?c :: ?l)) with [3; a; b; c].
  change (drop (Z.to_nat 4) (3 :: ?a :: ?b :: ?c :: ?l)) with l.
  rewrite !index_Ok, get_uint16_Ok by zlia. eval_at. cbn [mbind outcome_bind negb orb Z.eqb Pos.eqb].
  rewrite be_combine_split2 by (unfold is_u16; iso_lia).
  case_if; [iso_lia|]. replace (z - TPKTHeaderSize) with (zlen body) by iso_lia.
  rewrite ReadFull_exact; [by intros [= _ <-]|]. intros ->. change (zlen []) with 0 in Hz. iso_lia.
Qed.

(** *** What a client sees *)

Lemma plc_connects s localTSAP remoteTSAP code : is_u16 localTSAP → is_u16 remoteTSAP → is_u8 code →
  plc_answer (listening s) (request_frame localTSAP remoteTSAP code)
  = (mkPLC s AwaitSetup [], [Chunk (confirm_frame localTSAP remoteTSAP code)]).
Proof.
  intros Hl Hr Hc.
  assert (∀ a b, bytes ([3; 0; 0; 22; 17; a; 0; b; 0; 1; 0; 0xc0; 1; code; 0xc1; 2]) ↔ is_u8 a ∧ is_u8 b) as Hbytes.
  { intros a b. rewrite !Forall_cons, Forall_nil. unfold is_u8 in *. lia. }
  unfold listening. rewrite (plc_answer_frame AwaitConnect s _ AwaitSetup s (confirm_frame localTSAP remoteTSAP code)).
  - done.
  - done.
  - split; [done|]. by eexists.
  - unfold request_frame. rewrite !Forall_app. split_and!; try apply bytes_be_split; [by apply Hbytes|by repeat constructor].
  - cbn [serve]. unfold mbind, Srv_bind. by rewrite serve_connect_spec.
  - unfold confirm_frame. rewrite !Forall_app. split_and!; try apply bytes_be_split; [by apply Hbytes|by repeat constructor].
Qed.

Lemma bytes_ack_pdu reference p d g : bytes p → bytes d → bytes (ack_pdu reference p d g).
Proof. intros. unfold ack_pdu. solve_bytes. Qed.

Lemma plc_sets_up s reference caller callee requested :
  is_u16 reference → reference ≠ 0 → is_u16 requested → is_u16 (pdu s) →
  plc_answer (mkPLC s AwaitSetup []) (data_frame 0x80 (job_pdu reference
    ([functionSetup; 0] ++ be_split 2 caller ++ be_split 2 callee ++ be_split 2 requested) []))
  = (mkPLC s AwaitRequest [], [Chunk (data_frame 0x80 (setup_answer s reference requested))]).
Proof.
  intros Hr Hr0 Hq Hs.
  rewrite (plc_answer_frame AwaitSetup s _ AwaitRequest s (data_frame 0x80 (setup_answer s reference requested))).
  - done.
  - done.
  - apply tpkt_data_frame. frame_lia.
  - apply bytes_data_frame. unfold job_pdu. solve_bytes.
  - cbn [serve]. unfold mbind, Srv_bind. by rewrite serve_setup_spec.
  - apply bytes_data_frame. unfold setup_answer. apply bytes_ack_pdu; [|constructor]. apply Forall_app.
    split; [by repeat constructor|apply bytes_be_split].
Qed.

(** Requests at a PLC with an open session. *)
Definition ready_plc (s : Server) : PLC := mkPLC s AwaitRequest [].

Lemma plc_reads s reference items : memory_typed s → is_u8 (first_code s) →
  is_u16 reference → reference ≠ 0 → Forall plc_item items → 1 ≤ zlen items ≤ 255 →
  ReadResponseSize items ≤ maxTPKTLength - DataHeaderSize →
  ∃ d, plc_answer (ready_plc s) (data_frame 0x80 (job_pdu reference (variable_block functionReadVar items) []))
       = (ready_plc (after_read items s),
          [Chunk (data_frame 0x80 (ack_pdu reference [functionReadVar; zlen items] d 0))]) ∧
    read_data (zlen items) 0 items (read_results s items) d ∧ bytes d.
Proof.
  intros Hm Hf Hr Hr0 Hv Hn Hsize. pose proof (plc_valid items Hv) as Hvi.
  destruct (serve_request_read reference items (mkHandler s [] [] []) Hr Hr0 Hv Hn Hsize eq_refl) as (d & Hd & Hrd).
  cbn [server] in Hrd. assert (bytes d) as Hb by (eapply bytes_read_data; [done..|by apply read_results_bytes]).
  exists d. split; [|done]. pose proof (bytes_variable_block functionReadVar items ltac:(done) ltac:(lia) Hvi).
  unfold ready_plc. rewrite (plc_answer_frame AwaitRequest s _ AwaitRequest (after_read items s)
    (data_frame 0x80 (ack_pdu reference [functionReadVar; zlen items] d 0))).
  - done.
  - done.
  - apply tpkt_data_frame. unfold DataHeaderSize, TPKTHeaderSize, DataTPDUHeaderSize. zlia.
  - apply bytes_data_frame. unfold job_pdu. solve_bytes.
  - cbn [serve]. unfold mbind, Srv_bind. by rewrite Hd.
  - apply bytes_data_frame, bytes_ack_pdu; [|done]. rewrite !Forall_cons, Forall_nil. unfold is_u8, functionReadVar. lia.
Qed.

Lemma plc_writes s reference items : is_u8 (first_code s) → dropNextWriteResponse s = false →
  is_u16 reference → reference ≠ 0 → Forall plc_item (Protocol.WItem <$> items) → 1 ≤ zlen items ≤ 255 →
  Forall (λ w, zlen (Protocol.WData w) = DataBytes (Protocol.WItem w)) items →
  Forall (λ w, bytes (Protocol.WData w)) items →
  WriteRequestSize items ≤ maxTPKTLength - DataHeaderSize →
  plc_answer (ready_plc s) (data_frame 0x80 (job_pdu reference
      (variable_block functionWriteVar (Protocol.WItem <$> items)) (write_data 0 (zlen items) items)))
  = (ready_plc (after_write items s),
     [Chunk (data_frame 0x80 (ack_pdu reference [functionWriteVar; zlen items]
        (first_code s :: replicate (length items - 1) 0xff) 0))]).
Proof.
  intros Hf Hdrop Hr Hr0 Hv Hn Hd Hb Hsize. pose proof (plc_valid _ Hv) as Hvi.
  assert (bytes (variable_block functionWriteVar (Protocol.WItem <$> items))).
  { apply bytes_variable_block; [done|rewrite zlen_map; lia|done]. }
  pose proof (bytes_write_data items 0 (zlen items) Hvi Hb).
  assert (zlen (job_pdu reference (variable_block functionWriteVar (Protocol.WItem <$> items))
    (write_data 0 (zlen items) items)) = WriteRequestSize items) as Hz.
  { unfold WriteRequestSize, jobHeaderSize, itemSpecSize. rewrite zlen_job_pdu, zlen_write_data. zlia. }
  unfold ready_plc. rewrite (plc_answer_frame AwaitRequest s _ AwaitRequest (after_write items s)
    (data_frame 0x80 (ack_pdu reference [functionWriteVar; zlen items]
        (first_code s :: replicate (length items - 1) 0xff) 0))).
  - done.
  - done.
  - apply tpkt_data_frame. rewrite Hz. unfold maxTPKTLength in Hsize. lia.
  - apply bytes_data_frame. unfold job_pdu. solve_bytes.
  - cbn [serve]. unfold mbind, Srv_bind. by rewrite serve_request_write.
  - apply bytes_data_frame, bytes_ack_pdu;
      [rewrite !Forall_cons, Forall_nil; unfold is_u8, functionWriteVar; lia|].
    constructor; [done|]. apply Forall_replicate. done.
Qed.
