(* ===== verification/PLCMemory.v ===== *)
(** * PLCMemory: what the memory of the scripted PLC holds

    Reads and writes of the server in terms of spans of bytes and of single
    bits: a write is read back, and leaves the rest of the memory alone. The
    fragments of a read cut its item's bytes into consecutive pieces. *)

From stdpp Require Import gmap.
From S2P Require Import Errors Protocol Item Planner ReadProofs TestPLC PLCProofs.

(** ** Spans of bytes *)

(** The [n] bytes of an area from byte [lo] on. *)
Definition span (m : Memory) (area db lo n : Z) : list Z :=
  (λ k, memory_at m (area, db, k)) <$> seqZ lo n.

Lemma zlen_span m area db lo n : 0 ≤ n → zlen (span m area db lo n) = n.
Proof. intros Hn. unfold span. rewrite zlen_map. unfold zlen. rewrite length_seqZ. lia. Qed.

Lemma span_app m area db lo n k : 0 ≤ n → 0 ≤ k →
  span m area db lo (n + k) = span m area db lo n ++ span m area db (lo + n) k.
Proof. intros Hn Hk. unfold span. by rewrite seqZ_app, fmap_app. Qed.

Lemma span_ext m m' area db lo n :
  (∀ k, lo ≤ k < lo + n → memory_at m (area, db, k) = memory_at m' (area, db, k)) →
  span m area db lo n = span m' area db lo n.
Proof.
  intros He. unfold span. apply list_fmap_ext. intros i k Hk. apply He.
  apply lookup_seqZ in Hk. lia.
Qed.

Lemma loadBytes_span m area db off n : ∀ idx, 0 ≤ off → 0 ≤ idx → off + idx + Z.of_nat n ≤ 2 ^ 32 →
  loadBytes m area db off idx n = span m area db (off + idx) (Z.of_nat n).
Proof.
  induction n as [|n IH]; intros idx Ho Hi Hn; [done|]. cbn [loadBytes]. unfold span.
  rewrite seqZ_cons, fmap_cons by lia. rewrite (u32_id idx), u32_id by (unfold is_u32; lia). f_equal.
  rewrite IH by lia. unfold span. do 2 f_equal; lia.
Qed.

Lemma memory_at_insert m key key' v :
  memory_at (<[key := v]> m) key' = if decide (key = key') then v else memory_at m key'.
Proof.
  unfold memory_at. destruct (decide (key = key')) as [->|Hne].
  - by rewrite lookup_insert_eq.
  - by rewrite lookup_insert_ne.
Qed.

Lemma storeBytes_at area db off value : ∀ m idx k area' db',
  0 ≤ off → 0 ≤ idx → off + idx + zlen value ≤ 2 ^ 32 →
  memory_at (storeBytes m area db off idx value) (area', db', k) =
    if decide (area' = area ∧ db' = db ∧ off + idx ≤ k < off + idx + zlen value)
    then byte_at value (k - (off + idx)) else memory_at m (area', db', k).
Proof.
  induction value as [|v value IH]; intros m idx k area' db' Ho Hi Hn.
  { rewrite decide_False; [done|]. change (zlen []) with 0. lia. }
  rewrite zlen_cons in *. zlen_pos. cbn [storeBytes]. rewrite IH by lia.
  rewrite (u32_id idx), u32_id, memory_at_insert by (unfold is_u32; lia).
  destruct (decide (area' = area ∧ db' = db ∧ off + (idx + 1) ≤ k < off + (idx + 1) + zlen value)) as [(-> & -> & Hk)|Hk].
  - rewrite decide_True by lia. rewrite byte_at_cons by lia. f_equal. lia.
  - destruct (decide ((area, db, off + idx) = (area', db', k))) as [[= <- <- <-]|Hne].
    + rewrite decide_True by lia. by rewrite Z.sub_diag.
    + rewrite decide_False; [done|]. intros (-> & -> & Hk').
      destruct (decide (k = off + idx)) as [->|]; [done|]. apply Hk. lia.
Qed.

Lemma storeBytes_span m area db off value : 0 ≤ off → off + zlen value ≤ 2 ^ 32 →
  span (storeBytes m area db off 0 value) area db off (zlen value) = value.
Proof.
  intros Ho Hn. apply list_eq. intros i. unfold span. rewrite list_lookup_fmap.
  destruct (value !! i) as [v|] eqn:Hv.
  - pose proof (lookup_lt_Some _ _ _ Hv) as Hi.
    assert (seqZ off (zlen value) !! i = Some (off + Z.of_nat i)) as -> by (apply lookup_seqZ; unfold zlen; lia).
    cbn [fmap option_fmap option_map]. f_equal. rewrite storeBytes_at by lia.
    rewrite decide_True by (unfold zlen; lia). unfold byte_at.
    replace (Z.to_nat (off + Z.of_nat i - (off + 0))) with i by lia. by apply nth_lookup_Some.
  - apply lookup_ge_None in Hv. rewrite lookup_seqZ_ge; [done|]. unfold zlen. lia.
Qed.

(** ** Bits *)

Definition bit_mask (bit : Z) : Z := u8 (Z.shiftl 1 bit).

Lemma bit_mask_value bit : 0 ≤ bit < 8 → bit_mask bit = 2 ^ bit.
Proof.
  intros Hb. unfold bit_mask. rewrite Z.shiftl_1_l, u8_id; [done|].
  pose proof (Z.pow_lt_mono_r 2 bit 8). pose proof (Z.pow_pos_nonneg 2 bit). unfold is_u8. lia.
Qed.

Lemma bit_mask_test v bit : 0 ≤ bit < 8 → negb (Z.land v (bit_mask bit) =? 0) = Z.testbit v bit.
Proof.
  intros Hb. rewrite bit_mask_value by done. destruct (Z.testbit v bit) eqn:Ht.
  - apply negb_true_iff, Z.eqb_neq. intros Hz. apply (f_equal (λ z, Z.testbit z bit)) in Hz.
    rewrite Z.land_spec, Z.pow2_bits_true, Ht, Z.bits_0 in Hz by lia. done.
  - apply negb_false_iff, Z.eqb_eq. apply Z.bits_inj'. intros n Hn.
    rewrite Z.land_spec, Z.pow2_bits_eqb, Z.bits_0 by lia. destruct (bit =? n) eqn:E; [|by rewrite andb_false_r].
    replace n with bit by lia. by rewrite Ht.
Qed.

(** Setting or clearing a bit, bit by bit. *)
Definition put_bit (v bit : Z) (b : bool) : Z :=
  if b then Z.lor v (bit_mask bit) else Z.ldiff v (bit_mask bit).

Lemma put_bit_test v bit b n : 0 ≤ bit < 8 → 0 ≤ n →
  Z.testbit (put_bit v bit b) n = if n =? bit then b else Z.testbit v n.
Proof.
  intros Hb Hn. unfold put_bit. rewrite bit_mask_value by done. destruct b.
  - rewrite Z.lor_spec, Z.pow2_bits_eqb by lia. rewrite (Z.eqb_sym bit).
    destruct (n =? bit); [by rewrite orb_true_r|by rewrite orb_false_r].
  - rewrite Z.ldiff_spec, Z.pow2_bits_eqb by lia. rewrite (Z.eqb_sym bit).
    destruct (n =? bit); [by rewrite andb_false_r|by rewrite andb_true_r].
Qed.

Lemma put_bit_u8 v bit b : 0 ≤ bit < 8 → is_u8 v → is_u8 (put_bit v bit b).
Proof.
  intros Hb Hv. assert (put_bit v bit b = u8 (put_bit v bit b)) as ->; [|apply u8_range].
  unfold u8. apply Z.bits_inj'. intros n Hn. destruct (decide (n < 8)).
  - by rewrite Z.mod_pow2_bits_low.
  - rewrite Z.mod_pow2_bits_high, put_bit_test by lia. destruct (n =? bit) eqn:E; [lia|].
    rewrite <-(u8_id v Hv). unfold u8. apply Z.mod_pow2_bits_high. lia.
Qed.

(** ** Wire items in memory *)

Definition is_bit (i : Protocol.Item) : bool := WordLength i =? 1.
(** The byte a bit item is in, and the first byte of any other item. *)
Definition item_start (i : Protocol.Item) : Z := byte_start (variable_of i).
Definition item_key (i : Protocol.Item) (k : Z) : memoryKey := (Protocol.Area i, Protocol.DBNumber i, k).

(** [touches i key b]: item [i] covers bit [b] of the byte at [key]. *)
Definition touches (i : Protocol.Item) (key : memoryKey) (b : Z) : Prop :=
  if is_bit i then key = item_key i (Protocol.Address i / 8) ∧ b = Protocol.Address i mod 8
  else ∃ k, key = item_key i k ∧ item_start i ≤ k < item_start i + DataBytes i.

(** Two items without a common bit. *)
Definition separate (i j : Protocol.Item) : Prop := ∀ key b, 0 ≤ b < 8 → touches i key b → touches j key b → False.

Lemma item_range i : plc_item i → is_bit i = false →
  0 ≤ item_start i ∧ item_start i + DataBytes i ≤ 2 ^ 32 ∧ 0 < DataBytes i.
Proof.
  intros [[_ _ _ _ _ Ha Hb Hl] _] Hbit. unfold is_bit in Hbit. unfold encoded_length in Hl. rewrite Hbit in Hl.
  assert (DataBytes i ≤ 65535) by (unfold MaxUint16 in Hl; destruct (LengthInBits i); lia).
  unfold item_start, byte_start. cbn [address wordLength variable_of]. case_if.
  - rewrite u32_id by (unfold is_u32; lia). lia.
  - pose proof (Z.div_le_upper_bound (Protocol.Address i) 8 (2 ^ 24)). 
    pose proof (Z.div_pos (Protocol.Address i) 8). lia.
Qed.

Lemma contents_span m i : plc_item i → is_bit i = false →
  contents m i = span m (Protocol.Area i) (Protocol.DBNumber i) (item_start i) (DataBytes i).
Proof.
  intros Hi Hb. destruct (item_range i Hi Hb) as (Hs & Hn & Hp). unfold contents, load.
  unfold is_bit in Hb. change (wordLength (variable_of i)) with (WordLength i). rewrite Hb.
  fold (item_start i). cbn [varea vdb dataBytes variable_of].
  rewrite loadBytes_span by lia. f_equal; lia.
Qed.

Lemma contents_bit m i : is_bit i = true →
  contents m i = [if Z.testbit (memory_at m (item_key i (Protocol.Address i / 8))) (Protocol.Address i mod 8)
                  then 1 else 0].
Proof.
  intros Hb. unfold contents, load. cbn [wordLength variable_of varea vdb address].
  unfold is_bit in Hb. rewrite Hb. fold (bit_mask (Protocol.Address i mod 8)).
  pose proof (Z.mod_pos_bound (Protocol.Address i) 8). rewrite bit_mask_test by lia.
  unfold item_key. by case_if.
Qed.

Lemma written_span i data m : is_bit i = false →
  written i data m = storeBytes m (Protocol.Area i) (Protocol.DBNumber i) (item_start i) 0 data.
Proof. intros Hb. unfold written. unfold is_bit in Hb. by rewrite Hb. Qed.

Lemma written_bit i data m (key := item_key i (Protocol.Address i / 8)) : is_bit i = true →
  written i data m
  = <[key := put_bit (memory_at m key) (Protocol.Address i mod 8) (byte_at data 0 =? 1)]> m.
Proof. intros Hb. unfold written. unfold is_bit in Hb. rewrite Hb. unfold put_bit. by case_if. Qed.

(** The bytes of a memory are determined by their eight bits. *)
Lemma byte_ext v v' : is_u8 v → is_u8 v' → (∀ b, 0 ≤ b < 8 → Z.testbit v b = Z.testbit v' b) → v = v'.
Proof.
  intros Hv Hv' He. apply Z.bits_inj'. intros n Hn. destruct (decide (n < 8)); [by apply He|].
  rewrite <-(u8_id v Hv), <-(u8_id v' Hv'). unfold u8. by rewrite !Z.mod_pow2_bits_high by lia.
Qed.

(** An item's contents are the bits it touches. *)
Lemma contents_touched m m' i : plc_item i → byte_memory m → byte_memory m' →
  (∀ key b, 0 ≤ b < 8 → touches i key b → Z.testbit (memory_at m key) b = Z.testbit (memory_at m' key) b) →
  contents m i = contents m' i.
Proof.
  intros Hi Hm Hm' He. unfold touches in He. destruct (is_bit i) eqn:Hb.
  - rewrite !contents_bit by done. pose proof (Z.mod_pos_bound (Protocol.Address i) 8).
    by rewrite (He _ (Protocol.Address i mod 8) ltac:(lia) (conj eq_refl eq_refl)).
  - rewrite !contents_span by done. apply span_ext. intros k Hk.
    apply byte_ext; [by apply memory_at_u8..|]. intros b Hbb. apply He; [done|]. by exists k.
Qed.

(** A write changes the bits of its item only. *)
Lemma written_elsewhere i data m key b : plc_item i → zlen data = DataBytes i → 0 ≤ b < 8 →
  ¬ touches i key b → Z.testbit (memory_at (written i data m) key) b = Z.testbit (memory_at m key) b.
Proof.
  intros Hi Hd Hb Ht. unfold touches in Ht. destruct (is_bit i) eqn:Hbit.
  - rewrite written_bit, memory_at_insert by done. case_decide as Hk; [|done]. subst key.
    pose proof (Z.mod_pos_bound (Protocol.Address i) 8). rewrite put_bit_test by lia.
    destruct (b =? _) eqn:E; [|done]. destruct Ht. split; [done|lia].
  - destruct (item_range i Hi Hbit) as (Hs & Hn & _). destruct key as [[a d] k].
    rewrite written_span, storeBytes_at by (done || lia). rewrite decide_False; [done|].
    intros (-> & -> & Hk). apply Ht. exists k. split; [done|lia].
Qed.

Lemma written_byte_memory i data m : plc_item i → zlen data = DataBytes i → bytes data →
  byte_memory m → byte_memory (written i data m).
Proof.
  intros Hi Hd Hb Hm. assert (∀ key, is_u8 (memory_at (written i data m) key)) as Hat.
  { destruct (is_bit i) eqn:Hbit.
    - intros key. rewrite written_bit, memory_at_insert by done. case_decide; [|by apply memory_at_u8].
      pose proof (Z.mod_pos_bound (Protocol.Address i) 8). apply put_bit_u8; [lia|by apply memory_at_u8].
    - destruct (item_range i Hi Hbit) as (Hs & Hn & _). intros [[a d] k].
      rewrite written_span, storeBytes_at by (done || lia).
      case_decide; [by apply byte_at_range|by apply memory_at_u8]. }
  intros key v Hv. specialize (Hat key). unfold memory_at in Hat. by rewrite Hv in Hat.
Qed.

(** The data of a write are what its item can hold. *)
Definition fits_item (i : Protocol.Item) (data : list Z) : Prop :=
  zlen data = DataBytes i ∧ bytes data ∧ (is_bit i = true → byte_at data 0 ≤ 1).

Lemma write_read_back i data m : plc_item i → fits_item i data → contents (written i data m) i = data.
Proof.
  intros Hi (Hd & Hb & Hbit). destruct (is_bit i) eqn:E.
  - specialize (Hbit eq_refl). destruct (plc_item_bit i Hi E) as (H1 & _). rewrite H1 in Hd.
    destruct data as [|v [|? ?]]; [done| |exfalso; zlia]. apply Forall_cons in Hb as [Hv _].
    rewrite contents_bit, written_bit, memory_at_insert, decide_True by done.
    pose proof (Z.mod_pos_bound (Protocol.Address i) 8). rewrite put_bit_test, Z.eqb_refl by lia.
    change (byte_at [v] 0) with v in *. unfold is_u8 in Hv. f_equal. case_if; lia.
  - destruct (item_range i Hi E) as (Hs & Hn & _). rewrite contents_span, written_span by done.
    rewrite <-Hd. apply storeBytes_span; lia.
Qed.

Lemma write_frame i j data m : plc_item i → plc_item j → fits_item i data → byte_memory m →
  separate i j → contents (written i data m) j = contents m j.
Proof.
  intros Hi Hj (Hd & Hb & _) Hm Hsep. apply contents_touched; [done|by apply written_byte_memory|done|].
  intros key b Hbb Ht. apply written_elsewhere; [done..|]. intros Hti. by apply (Hsep key b).
Qed.

(** A batch of writes, item by item. *)
Lemma written_all_cons w items m :
  written_all (w :: items) m = written_all items (written (Protocol.WItem w) (Protocol.WData w) m).
Proof. done. Qed.
Lemma written_all_app items items' m :
  written_all (items ++ items') m = written_all items' (written_all items m).
Proof. unfold written_all. by rewrite foldl_app. Qed.

Definition fitting (w : Protocol.WriteItem) : Prop :=
  plc_item (Protocol.WItem w) ∧ fits_item (Protocol.WItem w) (Protocol.WData w).

Lemma written_all_byte_memory items : ∀ m, Forall fitting items → byte_memory m →
  byte_memory (written_all items m).
Proof.
  induction items as [|w items IH]; intros m Hf Hm; [done|].
  apply Forall_cons in Hf as [[Hi (Hd & Hb & _)] Hf]. rewrite written_all_cons.
  apply IH; [done|]. by apply written_byte_memory.
Qed.

Lemma written_all_frame items j : ∀ m, Forall fitting items → plc_item j → byte_memory m →
  Forall (λ w, separate (Protocol.WItem w) j) items → contents (written_all items m) j = contents m j.
Proof.
  induction items as [|w items IH]; intros m Hf Hj Hm Hs; [done|].
  apply Forall_cons in Hf as [[Hi Hfit] Hf]. apply Forall_cons in Hs as [Hsw Hs]. rewrite written_all_cons.
  rewrite IH by (done || (destruct Hfit as (? & ? & _); by apply written_byte_memory)). by apply write_frame.
Qed.

(** An item holds its data after the batch if no later item overwrites it. *)
Lemma written_all_read before w after m : Forall fitting (before ++ w :: after) → byte_memory m →
  Forall (λ w', separate (Protocol.WItem w') (Protocol.WItem w)) after →
  contents (written_all (before ++ w :: after) m) (Protocol.WItem w) = Protocol.WData w.
Proof.
  intros Hf Hm Hs. apply Forall_app in Hf as [Hb Hf]. apply Forall_cons in Hf as [[Hi Hfit] Hf].
  rewrite written_all_app, written_all_cons. pose proof (written_all_byte_memory before m Hb Hm) as Hm1.
  rewrite written_all_frame; [by apply write_read_back|done|done| |done].
  destruct Hfit as (? & ? & _). by apply written_byte_memory.
Qed.

(** ** Logical items in memory *)

(** The first byte of a byte-addressed item; timers and counters have two bytes each. *)
Definition byte_offset (a : Item.Address) : Z := if byte_area (Area a) then Offset a else Offset a * 2.

(** What the memory holds for a logical item of any length. *)
Definition stored (m : Memory) (i : ReadItem) : list Z :=
  if RTransport i =? TransportBit then contents m (descriptor (RAddress i) TransportBit 1)
  else span m (area_code (Area (RAddress i))) (Item.DBNumber (RAddress i)) (byte_offset (RAddress i))
         (item_length i).

Lemma descriptor_span m a t c : address_values a → valid_address a t → t ≠ TransportBit →
  plc_item (descriptor a t c) →
  contents m (descriptor a t c)
  = span m (area_code (Area a)) (Item.DBNumber a) (byte_offset a) (item_bytes t c).
Proof.
  intros Ha Hv Hb Hi. assert (is_bit (descriptor a t c) = false ∧
    ((wordLength (variable_of (descriptor a t c)) =? 0x1c) || (wordLength (variable_of (descriptor a t c)) =? 0x1d))
      = negb (byte_area (Area a))) as [Hbit Hword].
  { destruct Hv as [Ht Hv]. unfold is_bit, descriptor, variable_of. cbn [wordLength WordLength].
    assert (t = 1 ∨ t = 2 ∨ t = 3 ∨ t = 4 ∨ t = 5 ∨ t = 6 ∨ t = 7) as Hc by lia.
    destruct (byte_area (Area a)); destruct Hc as [->|[->|[->|[->|[->|[->| ->]]]]]]; try done;
      exfalso; unfold TransportBit, TransportTimer, TransportCounter in *; destruct_and!; try done;
      case_match; done. }
  rewrite contents_span by done. unfold item_start, byte_start. rewrite Hword.
  pose proof (valid_address_wire a t Ha Hv) as Hw. unfold wire_address in Hw.
  assert (t ≠ TransportBit → byte_area (Area a) = true → Bit a = 0) as Hbz.
  { intros _ Hba. destruct Hv as [_ Hv]. rewrite Hba in Hv. destruct Hv as (_ & _ & _ & _ & Hbt & _).
    destruct (t =? TransportBit) eqn:E; [lia|]. destruct Ha. unfold is_u8 in *. lia. }
  unfold descriptor, variable_of, byte_offset, wire_address. cbn [Protocol.Area Protocol.DBNumber DataBytes Protocol.Address address].
  destruct (byte_area (Area a)); cbn [negb].
  - rewrite Hbz by done. f_equal. rewrite Z.add_0_r. by rewrite Z.div_mul.
  - by rewrite u32_id by (unfold is_u32; lia).
Qed.

Lemma stored_descriptor m a t c : address_values a → valid_address a t → plc_item (descriptor a t c) →
  (t = TransportBit → c = 1) → contents m (descriptor a t c) = stored m (mkReadItem a t c).
Proof.
  intros Ha Hv Hi Hb. unfold stored. cbn [RTransport RAddress]. destruct (t =? TransportBit) eqn:E.
  - assert (t = TransportBit) as -> by lia. by rewrite Hb.
  - rewrite descriptor_span; [done|done|done|lia|done].
Qed.

(** ** Fragments *)

(** A fragment of the plan, in terms of the item it is cut from. *)
Lemma all_fragments_in maxItemBytes pdu its lens f : 32 ≤ pdu → Forall2 (planned maxItemBytes) its lens →
  ∀ n, f ∈ all_fragments pdu n its lens →
  ∃ (k : nat) i len, its !! k = Some i ∧ lens !! k = Some len ∧ original f = n + Z.of_nat k ∧
    planned maxItemBytes i len ∧ 0 ≤ offset f < len ∧ offset f mod width_of (RTransport i) = 0 ∧
    f = fragment_at (n + Z.of_nat k) i len (max_data (RTransport i) pdu) (offset f).
Proof.
  intros Hp. induction 1 as [|i len its lens Hpl Hall IH]; intros n Hf; [by apply elem_of_nil in Hf|].
  cbn [all_fragments] in Hf. apply elem_of_app in Hf as [Hf|Hf].
  - exists O, i, len. destruct (planned_pos _ _ _ Hpl) as (Ht & Hw & Hlen & _).
    destruct (max_data_range _ pdu Ht Hp) as (Hm & Hmod & _).
    unfold item_fragments in Hf. apply list_elem_of_fmap in Hf as (j & -> & Hj). apply elem_of_seqZ in Hj.
    cbn [original offset fragment_at]. unfold fragment_count in Hj. 
    set (m := max_data (RTransport i) pdu) in *. rewrite Z.add_0_r, !Z.add_0_l.
    assert (j * m < len) as Hjm.
    { rewrite Z.sub_0_r in Hj. pose proof (Z.mul_div_le (len + m - 1) m ltac:(lia)). nia. }
    split_and!; [done|done|done|done|nia|done| |done].
    by rewrite Z.mul_mod, Hmod, Z.mul_0_r, Z.mod_0_l by lia.
  - destruct (IH (n + 1) Hf) as (k & i' & len' & ? & ? & Ho & ? & ? & ? & He). exists (S k), i', len'.
    replace (n + Z.of_nat (S k)) with (n + 1 + Z.of_nat k) by lia. by do 6 (split; [done|]).
Qed.

(** The descriptor of a fragment: one the PLC serves, for a piece of the item. *)
Lemma fragment_contents maxItemBytes pdu i len n off m (f := fragment_at n i len (max_data (RTransport i) pdu) off) :
  32 ≤ pdu → planned maxItemBytes i len → 0 ≤ off < len → off mod width_of (RTransport i) = 0 →
  plc_item (item f) ∧ off + DataBytes (item f) ≤ len ∧
  contents m (item f) = sub (stored m i) off (off + DataBytes (item f)).
Proof.
  intros Hp Hpl Hoff Hal. destruct (planned_pos _ _ _ Hpl) as (Ht & Hw & Hlen & _).
  destruct (fragment_valid _ i len pdu n off Hpl Hp Hoff Hal) as (Hsize & Hsal & _ & Hvi & Hdb).
  fold f in Hvi, Hdb. set (size := fragment_size len (max_data (RTransport i) pdu) off) in *.
  assert (off + size ≤ len) as Hle by (unfold size, fragment_size; lia).
  destruct (advance_valid _ i len off Hpl Hoff Hal) as (Hav & Hva & _).
  assert (RTransport i = TransportBit → off = 0 ∧ size = 1) as Hbit.
  { intros Hb. pose proof (planned_bit _ i len Hpl Hb). lia. }
  assert (plc_item (item f)) as Hi.
  { apply descriptor_plc; [done|done|]. intros Hb. destruct (Hbit Hb) as [_ Hs].
    fold size. rewrite Hs, Hb. done. }
  split; [done|]. rewrite Hdb. split; [done|].
  unfold stored. destruct (RTransport i =? TransportBit) eqn:E.
  - assert (RTransport i = TransportBit) as Hb by lia. destruct (Hbit Hb) as [-> Hs]. rewrite Hs.
    unfold f, fragment_at. cbn [item]. fold size. rewrite Hs, Hb. change (1 / width_of TransportBit) with 1.
    assert (advance i 0 = RAddress i) as ->.
    { unfold advance. rewrite Z.add_0_r, Zdiv_0_l, Z.add_0_r. by destruct (byte_area _), (RAddress i). }
    rewrite contents_bit by done. done.
  - unfold f, fragment_at. cbn [item]. fold size. rewrite descriptor_span; [|done|done|lia|exact Hi].
    assert (item_bytes (RTransport i) (size / width_of (RTransport i)) = size) as ->.
    { unfold item_bytes. pose proof (Z.div_mod size (width_of (RTransport i))). lia. }
    destruct Hpl as [_ _ Hpl]. change (item_bytes (RTransport i) (RCount i)) with (item_length i) in Hpl.
    rewrite <-Hpl.
    assert (Area (advance i off) = Area (RAddress i) ∧ Item.DBNumber (advance i off) = Item.DBNumber (RAddress i) ∧
      byte_offset (advance i off) = byte_offset (RAddress i) + off) as (-> & -> & ->).
    { destruct Hva as [_ Hva]. unfold byte_offset, advance in *. destruct (byte_area (Area (RAddress i))) eqn:Hba;
        cbn [Area Item.DBNumber Offset] in *; rewrite Hba in *; split_and!; try done.
      assert (width_of (RTransport i) = 2) as Hw2.
      { destruct Hva as (_ & _ & _ & ->). by case_match. }
      rewrite Hw2 in *. pose proof (Z.div_mod off 2). lia. }
    replace len with (off + (size + (len - off - size))) by lia. rewrite !span_app by lia.
    unfold sub. replace (off + size - off) with size by lia.
    rewrite drop_app_length', take_app_length'; [done|..].
    + pose proof (zlen_span m (area_code (Area (RAddress i))) (Item.DBNumber (RAddress i))
        (byte_offset (RAddress i) + off) size). unfold zlen in *. lia.
    + pose proof (zlen_span m (area_code (Area (RAddress i))) (Item.DBNumber (RAddress i))
        (byte_offset (RAddress i)) off). unfold zlen in *. lia.
Qed.

Lemma zlen_stored maxItemBytes m i len : planned maxItemBytes i len → zlen (stored m i) = len.
Proof.
  intros Hpl. destruct (planned_pos _ _ _ Hpl) as (_ & _ & Hlen & _). unfold stored.
  destruct (RTransport i =? TransportBit) eqn:E.
  - rewrite contents_bit by done. pose proof (planned_bit _ i len Hpl ltac:(lia)). by subst.
  - destruct Hpl as [_ _ Hpl]. change (item_bytes (RTransport i) (RCount i)) with (item_length i) in Hpl.
    rewrite <-Hpl. apply zlen_span. lia.
Qed.

(** The answers of a PLC that serves its memory [m]. *)
Definition from_memory (m : Memory) (pdu : Z) (its : list ReadItem) (lens : list Z)
    (f : readFragment) (x : list Z) : Prop :=
  f ∈ all_fragments pdu 0 its lens ∧ x = contents m (item f).

(** Data assembled from such answers is what the memory holds. *)
Lemma assembled_stored maxItemBytes m pdu its lens (k : nat) i x : 32 ≤ pdu →
  Forall2 (planned maxItemBytes) its lens → its !! k = Some i →
  assembled (from_memory m pdu its lens) (Z.of_nat k) x → x = sub (stored m i) 0 (zlen x).
Proof.
  intros Hp Hpl Hi. induction 1 as [|x f y Hx IH Ho Hoff [Hin Hy] Hl]; [done|].
  destruct (all_fragments_in maxItemBytes pdu its lens f Hp Hpl 0 Hin)
    as (k' & i' & len & Hi' & _ & Hk & Hpli & Hrange & Hal & Hf).
  assert (k' = k) as -> by lia. rewrite Hi in Hi'. injection Hi' as <-.
  destruct (fragment_contents maxItemBytes pdu i len (0 + Z.of_nat k) (offset f) m Hp Hpli Hrange Hal)
    as (_ & _ & Hc). rewrite <-Hf, <-Hy, <-Hl, Hoff in Hc. zlen_pos.
  rewrite zlen_app, <-(sub_append _ 0 (zlen x)) by lia. by rewrite <-Hc, <-IH.
Qed.

(** ** The memory as the server's methods see it *)

Lemma Bytes_SetBytes area db off value s : 0 ≤ off → off + zlen value ≤ 2 ^ 32 →
  Bytes area db off (zlen value) (SetBytes area db off value s) = Ok value.
Proof.
  intros Ho Hn. zlen_pos. unfold Bytes, SetBytes. case_if; [lia|]. cbn [memory with_memory].
  rewrite loadBytes_span, Z2Nat.id, Z.add_0_r by lia. by rewrite storeBytes_span.
Qed.

Lemma readItem_contents i s : readItem (variable_of i) s = contents (memory s) i.
Proof. done. Qed.

(** C17. The memory of the scripted PLC: what is written to an item is read from
    it, down to single bits, and an item that shares no bit with it reads as
    before; nothing else of the server changes. *)
Theorem PLC_memory i j data s : plc_item i → plc_item j → fits_item i data → byte_memory (memory s) →
  separate i j →
  match writeItem (variable_of i) data s with
  | (Ok _, s') =>
      readItem (variable_of i) s' = data ∧ readItem (variable_of j) s' = readItem (variable_of j) s ∧
      s' = with_memory (memory s') s
  | _ => False
  end.
Proof.
  intros Hi Hj Hfit Hm Hsep. pose proof Hfit as [Hd _]. rewrite writeItem_spec by done.
  rewrite !readItem_contents. cbn [memory with_memory]. split; [by apply write_read_back|].
  split; [by apply write_frame|done].
Qed.
(** Two bits of one byte. *)
Definition bit_at (b : Z) : Protocol.Item := descriptor (mkAddress AreaDB 1 10 b) TransportBit 1.
Lemma bit_at_plc b : 0 ≤ b < 8 → plc_item (bit_at b).
Proof.
  intros Hb. apply descriptor_plc; [|done|done]. constructor; cbn; unfold wire_address; cbn; done || lia.
Qed.
Definition bit_server : Server := mkServer 480 {[ (0x84, 1, 10) := 0x10 ]} [] false 0 0 0 None.
Lemma PLC_memory_witness :
  ∃ s', writeItem (variable_of (bit_at 3)) [1] bit_server = (Ok tt, s') ∧
    readItem (variable_of (bit_at 3)) s' = [1] ∧ readItem (variable_of (bit_at 4)) s' = [1].
Proof.
  pose proof (PLC_memory (bit_at 3) (bit_at 4) [1] bit_server (bit_at_plc 3 ltac:(lia)) (bit_at_plc 4 ltac:(lia))) as H.
  assert (fits_item (bit_at 3) [1]) as Hfit by (split; [done|]; split; [by repeat constructor|done]).
  assert (byte_memory (memory bit_server)) as Hm by (by apply map_Forall_singleton).
  assert (separate (bit_at 3) (bit_at 4)) as Hs by (intros key b Hb [-> ->] [_ Hne]; by vm_compute in Hne).
  specialize (H Hfit Hm Hs). change (readItem (variable_of (bit_at 4)) bit_server) with [1] in H.
  destruct (writeItem _ _ _) as [[[]|e|] s']; [|done..]. exists s'. split; [done|]. by destruct H as (? & ? & _).
Defined.
