(* ===== verification/PLCSafety.v ===== *)
(** * PLCSafety: the scripted PLC survives any bytes

    Whatever arrives on a connection, the handler neither panics nor runs
    forever: its parsers check every bound, and every turn of its request loop
    consumes a frame. *)

From stdpp Require Import gmap.
From S2P Require Import Errors Protocol IsoTCP Session TestPLC PLCProofs.

(** ** Parsers *)

Lemma sub2_range l a : bytes l → 0 ≤ a → a + 2 ≤ zlen l → is_u16 (be_combine (sub l a (a + 2))).
Proof.
  intros Hb Ha Hl. pose proof (be_combine_range (sub l a (a + 2)) (bytes_sub _ _ _ Hb)) as Hr.
  rewrite zlen_sub in Hr by lia. replace (a + 2 - a) with 2 in Hr by lia. exact Hr.
Qed.

Lemma parseJob_typed payload : bytes payload →
  match parseJob payload with
  | Ok (_, parameters, data) => bytes parameters ∧ bytes data
  | Err _ => True
  | Panic => False
  end.
Proof.
  intros Hb. unfold parseJob. case_if; [done|]. rewrite !index_Ok by lia. cbn [mbind outcome_bind].
  case_if; [done|]. rewrite !get_uint16_Ok by lia. cbn [mbind outcome_bind].
  pose proof (sub2_range payload 6 Hb ltac:(lia) ltac:(lia)) as Hn.
  case_if; [done|]. unfold is_u16 in Hn. rewrite !slice_Ok by lia. cbn [mbind outcome_bind].
  split; by apply bytes_sub.
Qed.

(** What the parsed items satisfy: a bit item has one byte. *)
Definition item_typed (i : variableItem) : Prop :=
  0 ≤ dataBytes i ∧ (wordLength i = 0x01 → dataBytes i = 1).

Lemma word_kind_typed w amount width transport len : 0 ≤ amount →
  word_kind w amount = Ok (width, transport, len) → 0 ≤ amount * width ∧ (w = 0x01 → amount * width = 1).
Proof.
  intros Ha. unfold word_kind. repeat case_if; intros [= <- <- <-]; lia.
Qed.

Lemma parseVariable_typed spec : bytes spec → zlen spec = 12 →
  match parseVariable spec with Ok i => item_typed i | Err _ => True | Panic => False end.
Proof.
  intros Hb Hl. unfold parseVariable. rewrite !index_Ok by lia. cbn [mbind outcome_bind]. case_if; [done|].
  rewrite !get_uint16_Ok by lia. cbn [mbind outcome_bind].
  pose proof (sub2_range spec 4 Hb ltac:(lia) ltac:(lia)) as Hn. set (amount := be_combine (sub spec 4 (4 + 2))) in *.
  pose proof (word_kind_typed (byte_at spec 3) amount) as Hw.
  destruct (word_kind (byte_at spec 3) amount) as [[[width transport] len]|e|] eqn:Hk; cbn [mbind outcome_bind];
    [|done|].
  { destruct (Hw _ _ _ ltac:(unfold is_u16 in Hn; lia) eq_refl) as [H0 H1].
    case_if; [case_if; [done|]|]; split; cbn; done || lia. }
  revert Hk. unfold word_kind. by repeat case_if.
Qed.

Lemma parseVariablesFrom_typed parameters n : ∀ idx, bytes parameters → 0 ≤ idx →
  2 + 12 * (idx + Z.of_nat n) ≤ zlen parameters →
  match parseVariablesFrom parameters idx n with Ok l => Forall item_typed l ∧ length l = n | Err _ => True | Panic => False end.
Proof.
  induction n as [|n IH]; intros idx Hb Hi Hl; cbn [parseVariablesFrom]; [done|].
  rewrite slice_Ok by lia. cbn [mbind outcome_bind].
  pose proof (parseVariable_typed (sub parameters (2 + 12 * idx) (2 + 12 * (idx + 1))) (bytes_sub _ _ _ Hb)
    ltac:(rewrite zlen_sub by lia; lia)) as Hv.
  destruct (parseVariable _) as [i|e|]; cbn [mbind outcome_bind]; [|done|done].
  specialize (IH (idx + 1) Hb ltac:(lia) ltac:(lia)).
  destruct (parseVariablesFrom _ _ _) as [l|e|]; cbn [mbind outcome_bind]; [|done|done].
  destruct IH as [? <-]. split; [by constructor|done].
Qed.

Lemma parseVariableItems_typed parameters : bytes parameters →
  match parseVariableItems parameters with Ok l => Forall item_typed l | Err _ => True | Panic => False end.
Proof.
  intros Hb. unfold parseVariableItems. case_if; [done|]. rewrite index_Ok by lia. cbn [mbind outcome_bind].
  pose proof (byte_at_range parameters 1 Hb) as Hr. case_if; [done|].
  pose proof (parseVariablesFrom_typed parameters (Z.to_nat (byte_at parameters 1)) 0 Hb ltac:(lia)) as Hp.
  unfold is_u8 in Hr. specialize (Hp ltac:(lia)). destruct (parseVariablesFrom _ _ _); [by destruct Hp|done..].
Qed.

Lemma writeValue_typed item requestData offset : bytes requestData → item_typed item → 0 ≤ offset →
  match writeValue item requestData offset with
  | Ok (value, offset') => zlen value = dataBytes item ∧ offset ≤ offset' ≤ zlen requestData
  | Err _ => True
  | Panic => False
  end.
Proof.
  intros Hb [Hi _] Ho. unfold writeValue. case_if; [done|]. rewrite !index_Ok, get_uint16_Ok by lia.
  cbn [mbind outcome_bind]. case_if; [done|]. case_if; [done|]. rewrite slice_Ok by lia. cbn [mbind outcome_bind].
  rewrite zlen_sub by lia. lia.
Qed.

(** ** Handlers *)

(** From a state in [Pre], [m] does not panic, and without an error ends in [Post]. *)
Definition runs {S A} (Pre : S → Prop) (m : Srv S A) (Post : A → S → Prop) : Prop :=
  ∀ s, Pre s → match m s with (Ok a, s') => Post a s' | (Err _, _) => True | (Panic, _) => False end.

Lemma runs_bind {S A B} (Pre : S → Prop) (m : Srv S A) Mid (f : A → Srv S B) Post :
  runs Pre m Mid → (∀ a, runs (Mid a) (f a) Post) → runs Pre (m ≫= f) Post.
Proof.
  intros Hm Hf s Hs. specialize (Hm s Hs). unfold mbind, Srv_bind.
  destruct (m s) as [[a|e|] s']; [by apply (Hf a)|done|done].
Qed.
Lemma runs_ret {S A} (a : A) (Pre : S → Prop) (Post : A → S → Prop) :
  (∀ s, Pre s → Post a s) → runs Pre (mret a) Post.
Proof. intros Hp s Hs. by apply Hp. Qed.
Lemma runs_complain {S A} (Pre : S → Prop) msg (Post : A → S → Prop) : runs Pre (complain msg) Post.
Proof. done. Qed.
(** A computation without effects: it returns, and its value is in [Q]. *)
Lemma runs_pure {S A B} (Pre : S → Prop) (m : result A) (Q : A → Prop) (f : A → Srv S B) Post :
  match m with Ok a => Q a | Err _ => True | Panic => False end →
  (∀ a, Q a → runs Pre (f a) Post) → runs Pre (pure m ≫= f) Post.
Proof. intros Hm Hf s Hs. unfold mbind, Srv_bind, pure. destruct m as [a|e|]; [by apply Hf|done|done]. Qed.
(** Steps that keep an assertion. *)
Lemma runs_keep {S A B} (Pre : S → Prop) (m : Srv S A) (f : A → Srv S B) Post :
  runs Pre m (λ _, Pre) → (∀ a, runs Pre (f a) Post) → runs Pre (m ≫= f) Post.
Proof. intros Hm. by apply runs_bind. Qed.

Local Abbreviation any := (λ _, True).

Lemma runs_locked {A} (f : Server → A * Server) : runs any (locked f) (λ _, any).
Proof. intros s _. unfold locked. by destruct (f s). Qed.

Lemma readItems_runs count items : ∀ idx response,
  runs any (readItems idx count items response) (λ _, any).
Proof.
  induction items as [|i items IH]; intros idx response; cbn [readItems]; [done|].
  apply runs_keep; [destruct (idx =? 0); [apply runs_locked|done]|]. intros code.
  destruct (negb (code =? 255)); [apply IH|]. apply runs_keep; [apply runs_locked|]. intros value. apply IH.
Qed.

Lemma handleRead_runs parameters data : bytes parameters → runs any (handleRead parameters data) (λ _, any).
Proof.
  intros Hb. unfold handleRead. destruct (negb _); [done|].
  apply (runs_pure _ _ any). { pose proof (parseVariableItems_typed parameters Hb). by destruct (parseVariableItems parameters). }
  intros items _. apply runs_keep; [apply readItems_runs|]. done.
Qed.

Lemma writeItem_runs i value : item_typed i → zlen value = dataBytes i → runs any (writeItem i value) (λ _, any).
Proof.
  intros [_ Hi] Hv. unfold writeItem. destruct (wordLength i =? 1) eqn:E; [|apply runs_locked].
  intros s _. rewrite Hi in Hv by lia. unfold mbind, Srv_bind, pure. rewrite index_Ok by lia. done.
Qed.

Lemma writeItems_runs requestData items : bytes requestData → Forall item_typed items → ∀ idx count offset codes,
  0 ≤ offset → 0 ≤ idx → idx + zlen items ≤ zlen codes →
  runs any (writeItems idx count items requestData offset codes) (λ _, any).
Proof.
  intros Hb Hitems. induction Hitems as [|i items Hi _ IH]; intros idx count offset codes Ho Hx Hc; cbn [writeItems]; [done|].
  rewrite zlen_cons in Hc. zlen_pos. pose proof (writeValue_typed i requestData offset Hb Hi Ho) as Hv.
  eapply (runs_pure _ _ (λ r, zlen r.1 = dataBytes i ∧ offset ≤ r.2 ≤ zlen requestData));
    [by destruct (writeValue i requestData offset) as [[value offset']|e|]|].
  intros [value offset'] [Hvl Ho']. cbn [fst snd] in *.
  apply runs_keep; [destruct (idx =? 0); [apply runs_locked|done]|]. intros code.
  apply (runs_pure _ _ (λ codes', zlen codes' = zlen codes)); [rewrite store_Ok by lia; by rewrite zlen_insert|].
  intros codes' Hcl.
  apply runs_keep; [destruct (code =? 255); [by apply writeItem_runs|done]|]. intros _.
  case_if; [|apply IH; lia].
  case_if; [done|]. apply (runs_pure _ _ any); [by rewrite index_Ok by lia|]. intros padding _.
  case_if; [done|apply IH; lia].
Qed.

Lemma handleWrite_runs parameters data : bytes parameters → bytes data →
  runs any (handleWrite parameters data) (λ _, any).
Proof.
  intros Hb Hd. unfold handleWrite. apply (runs_pure _ _ (Forall item_typed)); [by apply parseVariableItems_typed|].
  intros items Hitems. zlen_pos. apply runs_keep.
  - apply writeItems_runs; [done|done|lia|lia|]. rewrite zlen_make; lia.
  - intros [offset codes]. by destruct (negb _).
Qed.

(** *** On a connection *)

(** At most [k] more bytes arrive. *)
Definition arriving_at_most (k : nat) (h : Handler) : Prop :=
  Forall arrival_bytes (inbound h) ∧ (length (pending (inbound h)) ≤ k)%nat.

Lemma receive_runs k : runs (arriving_at_most k) receive
  (λ frame h, (bytes frame ∧ (0 < k)%nat) ∧ arriving_at_most (k - 1) h).
Proof.
  intros h [Hb Hk]. unfold receive.
  pose proof (ReadFrame_typed (inbound h) 65535 ltac:(done) Hb) as Ht.
  pose proof (ReadFrame_spec (inbound h) 65535 ltac:(done) (pending_bytes _ Hb)) as Hs.
  destruct (ReadFrame (inbound h) 65535) as [[frame|e|] rest]; [|done|done].
  destruct Ht as (Hf & Hl & Hr), Hs as [_ Hp]. apply (f_equal length) in Hp. rewrite length_app in Hp.
  assert (0 < length frame)%nat by (unfold zlen, DataHeaderSize, TPKTHeaderSize, DataTPDUHeaderSize in Hl; lia).
  split; [split; [done|lia]|]. split; [done|]. cbn [inbound]. lia.
Qed.

Lemma receive_then {B} k (f : list Z → Srv Handler B) Post :
  (∀ frame, bytes frame → (0 < k)%nat → runs (arriving_at_most (k - 1)) (f frame) Post) →
  runs (arriving_at_most k) (receive ≫= f) Post.
Proof.
  intros Hf. eapply runs_bind; [apply receive_runs|]. intros frame h [[Hb Hk] Hh]. by apply (Hf frame Hb Hk h).
Qed.

(** A step that leaves the arriving bytes alone. *)
Definition undisturbed {A} (m : Srv Handler A) : Prop :=
  ∀ h, match m h with (Panic, _) => False | (_, h') => inbound h' = inbound h end.

Lemma undisturbed_runs {A} k (m : Srv Handler A) : undisturbed m → runs (arriving_at_most k) m (λ _, arriving_at_most k).
Proof.
  intros Hm h Hh. specialize (Hm h). destruct (m h) as [[a|e|] h']; [|done|done].
  unfold arriving_at_most in *. by rewrite Hm.
Qed.
Lemma undisturbed_bind {A B} (m : Srv Handler A) (f : A → Srv Handler B) :
  undisturbed m → (∀ a, undisturbed (f a)) → undisturbed (m ≫= f).
Proof.
  intros Hm Hf h. specialize (Hm h). unfold mbind, Srv_bind. destruct (m h) as [[a|e|] h']; [|done|done].
  rewrite <-Hm. apply Hf.
Qed.
Lemma undisturbed_pure {A B} (m : result A) (Q : A → Prop) (f : A → Srv Handler B) :
  match m with Ok a => Q a | Err _ => True | Panic => False end → (∀ a, Q a → undisturbed (f a)) →
  undisturbed (pure m ≫= f).
Proof. intros Hm Hf h. unfold mbind, Srv_bind, pure. destruct m as [a|e|]; [by apply Hf|done|done]. Qed.
Lemma undisturbed_server {A} (m : Srv Server A) : runs any m (λ _, any) → undisturbed (on_server m).
Proof. intros Hm h. unfold on_server. specialize (Hm (server h) I). by destruct (m (server h)) as [[a|e|] s]. Qed.
Lemma undisturbed_send frame : undisturbed (send frame).
Proof. intros h. unfold send. by destruct (WriteFull _ _) as [sent [n [e|]]]. Qed.
Lemma undisturbed_complain {A} msg : undisturbed (complain (A:=A) msg).
Proof. done. Qed.

(** Writes within a buffer succeed and keep its size. *)
Lemma store_size {B} n l i v (f : list Z → result B) : zlen l = n → 0 ≤ i < n →
  (∀ l', zlen l' = n → returns (f l')) → returns (store l i v ≫= f).
Proof. intros Hl Hi Hf. rewrite store_Ok by lia. apply Hf. by rewrite zlen_insert. Qed.
Lemma put_uint16_size {B} n l i v (f : list Z → result B) : zlen l = n → 0 ≤ i → i + 2 ≤ n →
  (∀ l', zlen l' = n → returns (f l')) → returns (put_uint16 l i v ≫= f).
Proof.
  intros Hl Hi Hn Hf. unfold put_uint16. rewrite store_Ok by lia. cbn [mbind outcome_bind].
  rewrite store_Ok by (rewrite ?zlen_insert; lia). apply Hf. by rewrite !zlen_insert.
Qed.

Lemma ack_payload_returns reference p d g : returns (ack_payload reference p d g).
Proof.
  unfold ack_payload. zlen_pos. set (n := 12 + zlen p + zlen d).
  apply (store_size n); [apply zlen_make; lia|lia|]. intros l1 H1.
  apply (store_size n); [done|lia|]. intros l2 H2.
  do 3 (apply (put_uint16_size n); [done|lia|lia|]; intros ? ?).
  apply (store_size n); [done|lia|]. intros l3 Hl3.
  by apply (store_size n); [done|lia|].
Qed.

Lemma writeAck_undisturbed reference p d g : undisturbed (writeAck reference p d g).
Proof.
  unfold writeAck. apply (undisturbed_pure _ any).
  { pose proof (ack_payload_returns reference p d g). by destruct (ack_payload _ _ _ _). }
  intros payload _. apply (undisturbed_pure _ any); [|intros frame _; apply undisturbed_send].
  rewrite WrapData_spec. by case_decide.
Qed.

Lemma serve_connect_undisturbed request : undisturbed (serve_connect request).
Proof.
  unfold serve_connect. case_if; [done|].
  do 3 (apply (undisturbed_pure _ any); [by rewrite index_Ok by lia|]; intros ? _). case_if; [done|].
  do 2 (apply (undisturbed_pure _ any); [by rewrite get_uint16_Ok by lia|]; intros ? _).
  apply (undisturbed_pure _ any); [by rewrite index_Ok by lia|]; intros ? _.
  apply (undisturbed_pure _ any); [done|]. intros confirm _. apply undisturbed_send.
Qed.

Lemma UnwrapData_bytes frame : bytes frame →
  match UnwrapData frame with Ok payload => bytes payload | Err _ => True | Panic => False end.
Proof.
  intros Hb. destruct (isotcp_parsers_never_panic frame 0 0 0 Hb) as [_ Hr].
  destruct (UnwrapData frame) as [payload|e|] eqn:E; [|done|done].
  apply UnwrapData_spec in E as (fl & _ & -> & _); [|done]. unfold data_frame in Hb. rewrite !Forall_app in Hb. tauto.
Qed.

Lemma unwrapped_undisturbed {B} frame (f : list Z → Z * list Z * list Z → Srv Handler B) : bytes frame →
  (∀ payload reference parameters data, bytes parameters → bytes data →
     parseJob payload = Ok (reference, parameters, data) → undisturbed (f payload (reference, parameters, data))) →
  undisturbed (payload ← pure (UnwrapData frame); r ← pure (parseJob payload); f payload r).
Proof.
  intros Hb Hf. apply (undisturbed_pure _ bytes); [by apply UnwrapData_bytes|]. intros payload Hp.
  apply (undisturbed_pure _ (λ r, (bytes r.1.2 ∧ bytes r.2) ∧ parseJob payload = Ok r)).
  - pose proof (parseJob_typed payload Hp). by destruct (parseJob payload) as [[[r p] d]|e|].
  - intros [[r p] d] [[? ?] ?]. by eapply Hf.
Qed.

Lemma serve_setup_undisturbed frame : bytes frame → undisturbed (serve_setup frame).
Proof.
  intros Hb. unfold serve_setup. apply (unwrapped_undisturbed frame (λ payload r, _)); [done|].
  intros payload reference parameters data Hp Hd _. cbn beta iota. case_if; [done|].
  apply (undisturbed_pure _ any); [by rewrite index_Ok by lia|]. intros p0 _. case_if; [done|].
  apply (undisturbed_pure _ any); [by rewrite get_uint16_Ok by lia|]. intros requested _.
  apply undisturbed_bind; [apply undisturbed_server, runs_locked|]. intros serverPDU. apply writeAck_undisturbed.
Qed.

Lemma dispatch_undisturbed function reference parameters data : bytes parameters → bytes data →
  undisturbed (dispatch function reference parameters data).
Proof.
  intros Hp Hd. unfold dispatch. case_if; [|case_if; [|done]].
  - apply undisturbed_bind; [by apply undisturbed_server, handleRead_runs|]. intros [rp rd].
    apply undisturbed_bind; [apply undisturbed_server, runs_locked|]. intros _.
    apply undisturbed_bind; [apply writeAck_undisturbed|]. done.
  - apply undisturbed_bind; [by apply undisturbed_server, handleWrite_runs|]. intros [rp rd].
    apply undisturbed_bind; [apply undisturbed_server, runs_locked|]. intros _.
    apply undisturbed_bind; [apply undisturbed_server, runs_locked|]. intros [|]; [done|].
    apply undisturbed_bind; [apply writeAck_undisturbed|]. done.
Qed.

Lemma serve_request_undisturbed frame : bytes frame → undisturbed (serve_request frame).
Proof.
  intros Hb. unfold serve_request. apply (unwrapped_undisturbed frame (λ payload r, _)); [done|].
  intros payload reference parameters data Hp Hd _. cbn beta iota. case_if; [done|].
  do 2 (apply (undisturbed_pure _ any); [by rewrite index_Ok by lia|]; intros ? _).
  apply undisturbed_bind; [apply undisturbed_server, runs_locked|]. intros _. by apply dispatch_undisturbed.
Qed.

Lemma serveLoop_runs fuel : ∀ k, (k < fuel)%nat → runs (arriving_at_most k) (serveLoop fuel) (λ _, any).
Proof.
  induction fuel as [|fuel IH]; intros k Hk; [lia|]. cbn [serveLoop].
  apply receive_then. intros frame Hb H0.
  eapply runs_bind; [by apply undisturbed_runs, serve_request_undisturbed|]. intros [|]; [apply IH; lia|done].
Qed.

(** ** The handler *)

(** C19. The PLC's connection handler survives any bytes: whatever arrives, in
    whatever pieces and with whatever write failures, it never panics and it
    ends once the bytes are used up. *)
Theorem handleConnection_returns fuel h : Forall arrival_bytes (inbound h) →
  (length (pending (inbound h)) < fuel)%nat → returns (handleConnection fuel h).1.
Proof.
  intros Hb Hf. set (k := length (pending (inbound h))) in Hf.
  assert (runs (arriving_at_most k) (handleConnection fuel) (λ _, any)) as Hr.
  { unfold handleConnection.
    apply receive_then. intros request _ _.
    eapply runs_bind; [apply undisturbed_runs, serve_connect_undisturbed|]. intros [].
    apply receive_then. intros frame Hfb _.
    eapply runs_bind; [by apply undisturbed_runs, serve_setup_undisturbed|]. intros [].
    apply serveLoop_runs. lia. }
  specialize (Hr h (conj Hb (le_n _))). by destruct (handleConnection fuel h) as [[u|e|] h'].
Qed.

Lemma handleConnection_returns_witness :
  returns (handleConnection 8 (mkHandler (mkServer 480 ∅ [] false 0 0 0 None) [Chunk [3; 0; 0]; Chunk [7; 2; 0xf0; 0x80]] [] [])).1.
Proof. apply handleConnection_returns; [by repeat constructor|vm_compute; lia]. Defined.
