(* ===== verification/PLCStream.v ===== *)
(** * PLCStream: the scripted PLC on a stream of bytes

    [TestPLC.plc_answer] serves a connection piece by piece, as a peer the
    client talks to; [TestPLC.serveConnection] is the goroutine of the source,
    which blocks for bytes. Both do the same, however the bytes are cut. *)

From S2P Require Import Errors Protocol IsoTCP Session TestPLC PLCProofs.

(** ** Streams without faults *)

(** The reader delivers bytes until its end. *)
Definition steady (reader : list arrival) : Prop :=
  Forall (λ a, match a with Chunk _ => True | Fault _ => False end) reader.

Lemma steady_chunk bs : steady [Chunk bs].
Proof. by repeat constructor. Qed.
Lemma steady_chunks cs : steady (Chunk <$> cs).
Proof. apply Forall_fmap, Forall_true. done. Qed.
Lemma pending_chunks cs : pending (Chunk <$> cs) = concat cs.
Proof. induction cs as [|c cs IH]; [done|]. cbn. by rewrite <-IH. Qed.
Lemma steady_bytes reader : steady reader → bytes (pending reader) → Forall arrival_bytes reader.
Proof.
  induction 1 as [|[bs|e] reader Ha _ IH]; cbn [pending]; [done| |done].
  intros [? ?]%Forall_app. constructor; [done|by apply IH].
Qed.
#[export] Hint Resolve steady_chunk steady_chunks : core.

(** [ReadFull] on a steady reader: the bytes asked for, or all there are. *)
Lemma ReadFull_steady reader : ∀ want got, steady reader →
  ∃ rest, steady rest ∧
    if decide (want ≤ zlen (pending reader)) then
      ReadFull reader want got = ((got ++ take (Z.to_nat want) (pending reader), None), rest) ∧
      pending rest = drop (Z.to_nat want) (pending reader)
    else
      ReadFull reader want got
      = ((got ++ pending reader,
          Some (EVar (if zlen (got ++ pending reader) =? 0 then IoEOF else IoUnexpectedEOF))), []).
Proof.
  induction reader as [|[bs|e] reader IH]; intros want got Hs; cbn [ReadFull pending];
    destruct (want <=? 0) eqn:Hz; zlen_pos.
  1,3,5: eexists; split; [exact Hs|]; rewrite decide_True by (zlen_pos; zlia);
    replace (Z.to_nat want) with 0%nat by lia; by rewrite app_nil_r.
  - exists []. split; [done|]. rewrite decide_False by zlia. by rewrite app_nil_r.
  - apply Forall_cons in Hs as [_ Hs]. destruct (zlen bs <=? want) eqn:Hb.
    + destruct (IH (want - zlen bs) (got ++ bs) Hs) as (rest & Hr & Hf). exists rest. split; [done|].
      case_decide.
      * rewrite decide_True by zlia. destruct Hf as [-> ->]. rewrite <-app_assoc.
        rewrite (take_app_ge bs), drop_app_ge by (unfold zlen in *; lia).
        split; repeat f_equal; unfold zlen in *; lia.
      * rewrite decide_False by zlia. by rewrite Hf, <-app_assoc.
    + exists (Chunk (drop (Z.to_nat want) bs) :: reader). split; [by constructor|].
      rewrite decide_True by zlia. cbn [pending].
      by rewrite take_app_le, drop_app_le by (unfold zlen in *; lia).
  - by apply Forall_cons in Hs as [? _].
Qed.

(** What is read depends on the bytes only; more bytes behind them change
    nothing, unless the reader ran out of them. *)
Lemma ReadFull_more reader reader' more want got : steady reader → steady reader' →
  pending reader' = pending reader ++ more →
  let '((x, err), rest) := ReadFull reader want got in
  (more = [] ∨ err = None → ∃ rest', ReadFull reader' want got = ((x, err), rest') ∧
     steady rest ∧ steady rest' ∧ pending rest' = pending rest ++ more) ∧
  (err ≠ None → err = Some (EVar IoEOF) ∨ err = Some (EVar IoUnexpectedEOF)).
Proof.
  intros Hs Hs' Hp. destruct (ReadFull_steady reader want got Hs) as (rest & Hr & H).
  destruct (ReadFull_steady reader' want got Hs') as (rest' & Hr' & H'). rewrite Hp in H'. zlen_pos.
  destruct (decide (want ≤ zlen (pending reader))) as [Hn|Hn].
  - rewrite decide_True in H' by zlia. destruct H as [-> H], H' as [-> H']. split; [|done]. intros _.
    exists rest'. rewrite take_app_le, H, H', drop_app_le by (unfold zlen in *; lia). done.
  - rewrite H. split; [|by destruct (zlen _ =? 0); auto].
    intros [->|]; [|done]. rewrite app_nil_r in *. rewrite decide_False in H' by done.
    exists []. split_and!; [done|by constructor..|done].
Qed.

(** An error that more bytes cannot mend. *)
Definition settled (r : result (list Z)) : Prop :=
  match r with Err e => starved e = false | _ => True end.

Lemma ReadFrame_more reader reader' more maxFrameBytes : steady reader → steady reader' →
  pending reader' = pending reader ++ more →
  let '(r, rest) := ReadFrame reader maxFrameBytes in
  more = [] ∨ settled r → ∃ rest', ReadFrame reader' maxFrameBytes = (r, rest') ∧
    steady rest ∧ steady rest' ∧ pending rest' = pending rest ++ more.
Proof.
  intros Hs Hs' Hp. unfold ReadFrame. case_if; [intros _; eauto|].
  pose proof (ReadFull_more reader reader' more TPKTHeaderSize [] Hs Hs' Hp) as Hh.
  destruct (ReadFull reader TPKTHeaderSize []) as [[header [e|]] r1]; destruct Hh as [Hh Hhe].
  { intros [->|Hset]; [|exfalso; destruct (Hhe ltac:(done)) as [[= ->]|[= ->]]; done].
    destruct Hh as (r1' & -> & ?); [by left|]. eauto. }
  destruct Hh as (r1' & -> & Hs1 & Hs1' & Hp1); [by right|].
  match goal with |- context [match ?p with Ok _ => _ | Err _ => _ | Panic => _ end] => destruct p as [len|e|] end;
    [|by eauto..].
  pose proof (ReadFull_more r1 r1' more (len - TPKTHeaderSize) [] Hs1 Hs1' Hp1) as Hb.
  destruct (ReadFull r1 _ []) as [[body [e|]] r2]; destruct Hb as [Hb Hbe].
  { intros [->|Hset]; [|exfalso; destruct (Hbe ltac:(done)) as [[= ->]|[= ->]]; done].
    destruct Hb as (r2' & -> & ?); [by left|]. eauto. }
  destruct Hb as (r2' & -> & ?); [by right|]. eauto.
Qed.

(** Two steady readers with the same bytes are read alike. *)
Lemma ReadFrame_steady reader maxFrameBytes (whole := [Chunk (pending reader)]) : steady reader →
  ∃ rest, ReadFrame reader maxFrameBytes = ((ReadFrame whole maxFrameBytes).1, rest) ∧
    steady (ReadFrame whole maxFrameBytes).2 ∧ steady rest ∧
    pending rest = pending (ReadFrame whole maxFrameBytes).2.
Proof.
  intros Hs. pose proof (ReadFrame_more whole reader [] maxFrameBytes (steady_chunk _) Hs) as Hm.
  cbn [pending whole] in Hm. specialize (Hm ltac:(by rewrite !app_nil_r)).
  destruct (ReadFrame whole maxFrameBytes) as [r rest0]. destruct Hm as (rest & -> & ? & ? & Hp); [by left|].
  exists rest. by rewrite app_nil_r in Hp.
Qed.

(** A frame read leaves fewer bytes. *)
Lemma ReadFrame_consumes bs frame rest : bytes bs → ReadFrame [Chunk bs] 65535 = (Ok frame, rest) →
  (length (pending rest) < length bs)%nat ∧ bytes (pending rest).
Proof.
  intros Hb Hr. pose proof (ReadFrame_spec [Chunk bs] 65535 ltac:(iso_lia)) as Hc.
  cbn [pending] in Hc. rewrite app_nil_r, Hr in Hc. specialize (Hc Hb). destruct Hc as [[Hl _] ->].
  apply Forall_app in Hb as [_ ?]. split; [|done]. rewrite length_app. unfold zlen in Hl. iso_lia.
Qed.

(** ** Steps that read nothing *)

(** A step that neither reads the connection nor looks at what was sent: it
    changes the server, adds to the bytes sent, and is the same on every
    connection whose writes succeed. *)
Definition portable {A} (m : Srv Handler A) : Prop :=
  ∀ s, ∃ r s' sent, ∀ i out, m (mkHandler s i [] out) = (r, mkHandler s' i [] (out ++ sent)).

Lemma portable_ret {A} (a : A) : portable (mret a).
Proof. intros s. exists (Ok a), s, []. intros i out. by rewrite app_nil_r. Qed.
Lemma portable_pure {A} (m : result A) : portable (pure m).
Proof. intros s. exists m, s, []. intros i out. by rewrite app_nil_r. Qed.
Lemma portable_complain {A} msg : portable (complain (A:=A) msg).
Proof. apply portable_pure. Qed.
Lemma portable_server {A} (m : Srv Server A) : portable (on_server m).
Proof.
  intros s. destruct (m s) as [r s'] eqn:Hm. exists r, s', []. intros i out.
  unfold on_server. cbn. by rewrite Hm, app_nil_r.
Qed.
Lemma portable_send frame : portable (send frame).
Proof.
  intros s. destruct (WriteFull [] frame) as [sent [n err]] eqn:Hw.
  exists (match err with Some e => Err e | None => Ok tt end), s, sent. intros i out.
  unfold send. change (default [] _) with (@nil (Z * option error)). by rewrite Hw.
Qed.
Lemma portable_bind {A B} (m : Srv Handler A) (f : A → Srv Handler B) :
  portable m → (∀ a, portable (f a)) → portable (m ≫= f).
Proof.
  intros Hm Hf s. destruct (Hm s) as (r & s1 & sent1 & H1). destruct r as [a|e|].
  - destruct (Hf a s1) as (r & s2 & sent2 & H2). exists r, s2, (sent1 ++ sent2). intros i out.
    unfold mbind, Srv_bind. by rewrite H1, H2, app_assoc.
  - exists (Err e), s1, sent1. intros i out. unfold mbind, Srv_bind. by rewrite H1.
  - exists Panic, s1, sent1. intros i out. unfold mbind, Srv_bind. by rewrite H1.
Qed.

Create HintDb portable.
#[export] Hint Resolve portable_ret portable_pure portable_complain portable_server portable_send : portable.

(** Through the binds and the tests of a handler. *)
Ltac portable :=
  repeat match goal with
  | |- portable (mbind _ _) => apply portable_bind; [|intros ?]
  | |- portable (if ?b then _ else _) => destruct b
  | |- portable (match ?x with (_, _) => _ end) => destruct x
  | |- portable _ => by auto with portable
  end.

Lemma portable_ack reference parameters data code : portable (writeAck reference parameters data code).
Proof. unfold writeAck. portable. Qed.
#[export] Hint Resolve portable_ack : portable.

Lemma portable_serve ph frame : portable (serve ph frame).
Proof. destruct ph; unfold serve, serve_connect, serve_setup, serve_request, dispatch; portable. Qed.

(** ** The handler, resumed *)

(** What is left of [handleConnection] when it waits for the next frame. *)
Definition resume (ph : phase) (fuel : nat) : Srv Handler unit :=
  match ph with
  | AwaitConnect => handleConnection fuel
  | AwaitSetup => setupFrame ← receive; _ ← serve_setup setupFrame; serveLoop fuel
  | AwaitRequest => serveLoop fuel
  | Gone => mret tt
  end.

(** What the goroutine does when its handler has returned. *)
Definition conclude (r : result unit * Handler) : Handler :=
  match r with
  | (Err err, h) =>
      if isExpectedClose err then h
      else mkHandler (recordError err (server h)) (inbound h) (writable h) (outbound h)
  | (_, h) => h
  end.
Lemma serveConnection_resume fuel h : serveConnection fuel h = conclude (resume AwaitConnect fuel h).
Proof. done. Qed.

(** One turn of the handler: a frame is received and served. *)
Lemma resume_turn ph fuel s i out : ph ≠ Gone → ∃ fuel', (fuel ≤ fuel')%nat ∧
  resume ph (S fuel) (mkHandler s i [] out) =
    match ReadFrame i 65535 with
    | (Ok frame, rest) =>
        match serve ph frame (mkHandler s rest [] out) with
        | (Ok ph', h) => resume ph' fuel' h
        | (Err e, h) => (Err e, h)
        | (Panic, h) => (Panic, h)
        end
    | (Err e, rest) => (Err e, mkHandler s rest [] out)
    | (Panic, rest) => (Panic, mkHandler s rest [] out)
    end.
Proof.
  intros Hph. destruct ph; [exists (S fuel)|exists (S fuel)|exists fuel|done]; (split; [lia|]);
    cbn [resume serve]; unfold handleConnection; cbn [serveLoop]; unfold mbind, Srv_bind, receive;
    cbn [inbound server writable outbound]; destruct (ReadFrame i 65535) as [[frame|e|] rest]; try done.
  - by destruct (serve_connect frame _) as [[[]|e|] h].
  - by destruct (serve_setup frame _) as [[[]|e|] h].
  - by destruct (serve_request frame _) as [[[]|e|] h].
Qed.

(** ** Waiting PLCs *)

#[export] Instance phase_eq_dec : EqDecision phase.
Proof. solve_decision. Defined.

(** The bytes a PLC that has hung up leaves unread do not matter. *)
#[export] Instance plc_equiv : Equiv PLC := λ p q,
  plc_server p = plc_server q ∧ plc_phase p = plc_phase q ∧
  (plc_phase p = Gone ∨ plc_unread p = plc_unread q).
#[export] Instance plc_equivalence : Equivalence (≡@{PLC}).
Proof.
  split.
  - intros p. split_and!; auto.
  - intros p q (? & Hp & Hu). split_and!; [done..|]. rewrite <-Hp. naive_solver.
  - intros p q r (? & Hp & Hu) (? & Hq & Hv). split_and!; [congruence..|].
    destruct Hu as [|Hu]; [by left|]. destruct Hv as [Hv|Hv]; [left|right]; congruence.
Qed.

(** New bytes arrive. *)
Definition push (p : PLC) (bs : list Z) : PLC := mkPLC (plc_server p) (plc_phase p) (plc_unread p ++ bs).

#[export] Instance push_proper : Proper ((≡@{PLC}) ==> eq ==> (≡@{PLC})) push.
Proof. intros p q (Hs & Hp & Hu) bs _ <-. split_and!; [done..|]. cbn. destruct Hu as [?|Hu]; [by left|right; by rewrite Hu]. Qed.

(** The server when the client closes the connection now. *)
Definition at_eof (p : PLC) : Server :=
  match plc_phase p, (ReadFrame [Chunk (plc_unread p)] 65535).1 with
  | Gone, _ => plc_server p
  | _, Err err => if isExpectedClose err then plc_server p else recordError err (plc_server p)
  | _, _ => plc_server p
  end.
#[export] Instance at_eof_proper : Proper ((≡@{PLC}) ==> eq) at_eof.
Proof.
  intros [s ph u] [s' ph' u'] (Hs & Hp & Hu). cbn in *. subst. unfold at_eof. cbn [plc_phase plc_server plc_unread].
  by destruct Hu as [->| ->].
Qed.

(** One turn of [feed]. *)
Lemma feed_turn fuel s ph u out : ph ≠ Gone →
  feed (S fuel) (mkPLC s ph u) out =
    match ReadFrame [Chunk u] 65535 with
    | (Ok frame, rest) =>
        match serve ph frame (mkHandler s [] [] []) with
        | (Ok ph, h) => feed fuel (mkPLC (server h) ph (pending rest)) (out ++ outbound h)
        | (Err err, h) => hang_up err (server h) (out ++ outbound h)
        | (Panic, h) => (mkPLC (server h) Gone [], out ++ outbound h)
        end
    | (Err err, _) => if starved err then (mkPLC s ph u, out) else hang_up err s out
    | (Panic, _) => (mkPLC s Gone [], out)
    end.
Proof. by destruct ph. Qed.
Lemma feed_gone fuel s u out : feed fuel (mkPLC s Gone u) out = (mkPLC s Gone u, out).
Proof. by destruct fuel. Qed.

(** The goroutine on a stream ends where the waiting PLC is when the stream ends. *)
Lemma resume_feed n : ∀ ph s u i fuel out, bytes u → steady i → pending i = u →
  (length u < n)%nat → (length u < fuel)%nat →
  let '(p, out') := feed n (mkPLC s ph u) out in
  let h := conclude (resume ph fuel (mkHandler s i [] out)) in
  server h = at_eof p ∧ outbound h = out'.
Proof.
  induction n as [|n IH]; intros ph s u i fuel out Hb Hi Hu Hn Hf; [lia|].
  destruct fuel as [|fuel]; [lia|]. destruct (decide (ph = Gone)) as [->|Hph]; [by rewrite feed_gone|].
  destruct (resume_turn ph fuel s i out Hph) as (fuel' & Hfuel & ->). rewrite feed_turn by done.
  destruct (ReadFrame_steady i 65535 Hi) as (rest' & -> & Hsr & Hsr' & Hrest). rewrite Hu in *.
  assert (at_eof (mkPLC s ph u) = match (ReadFrame [Chunk u] 65535).1 with
    Err err => if isExpectedClose err then s else recordError err s | _ => s end) as He by (by destruct ph).
  destruct (ReadFrame [Chunk u] 65535) as [[frame|e|] rest] eqn:Hr; cbn [fst snd] in *.
  - destruct (ReadFrame_consumes u frame rest Hb Hr) as [Hlt Hbr].
    destruct (portable_serve ph frame s) as (r & s' & sent & Hserve). rewrite !Hserve.
    destruct r as [ph'|e|]; cbn [server outbound app].
    + apply IH; [done..|lia|lia].
    + cbn. by case_if.
    + done.
  - destruct (starved e); [rewrite He|]; cbn; by case_if.
  - done.
Qed.

(** *** Fuel and pieces *)

(** Enough fuel is as good as more. *)
Lemma feed_fuel n : ∀ m ph s u out, bytes u → (length u < n)%nat → (length u < m)%nat →
  feed n (mkPLC s ph u) out = feed m (mkPLC s ph u) out.
Proof.
  induction n as [|n IH]; intros [|m] ph s u out Hb Hn Hm; [lia..|].
  destruct (decide (ph = Gone)) as [->|Hph]; [by rewrite !feed_gone|]. rewrite !feed_turn by done.
  destruct (ReadFrame [Chunk u] 65535) as [[frame|e|] rest] eqn:Hr; [|done..].
  destruct (ReadFrame_consumes u frame rest Hb Hr) as [Hlt Hbr].
  destruct (serve ph frame _) as [[ph'|e|] h]; [|done..]. apply IH; [done|lia..].
Qed.

Ltac gone := unfold hang_up, push; cbn; rewrite ?feed_gone; repeat split; by auto.

(** Bytes served in two pieces are served alike in one. *)
Lemma feed_app n : ∀ m k ph s u v out, bytes (u ++ v) → (length u < n)%nat → (length (u ++ v) < m)%nat →
  (length (u ++ v) < k)%nat →
  let '(p, out1) := feed n (mkPLC s ph u) out in
  (feed m (push p v) out1).1 ≡ (feed k (mkPLC s ph (u ++ v)) out).1 ∧
  (feed m (push p v) out1).2 = (feed k (mkPLC s ph (u ++ v)) out).2.
Proof.
  induction n as [|n IH]; intros m k ph s u v out Hb Hn Hm Hk; [lia|].
  destruct k as [|k]; [lia|].
  destruct (decide (ph = Gone)) as [->|Hph].
  { rewrite !feed_gone. gone. }
  rewrite (feed_turn k), (feed_turn n) by done. pose proof Hb as [Hbu _]%Forall_app.
  pose proof (ReadFrame_more [Chunk u] [Chunk (u ++ v)] v 65535 (steady_chunk _) (steady_chunk _)) as Hmore.
  cbn [pending] in Hmore. rewrite !app_nil_r in Hmore. specialize (Hmore eq_refl).
  destruct (ReadFrame [Chunk u] 65535) as [[frame|e|] rest] eqn:Hr.
  - destruct Hmore as (rest' & Hr' & _ & _ & Hp); [by right|]. rewrite Hr', Hp.
    destruct (ReadFrame_consumes _ frame rest Hbu Hr) as [Hlt Hbr].
    destruct (ReadFrame_consumes _ frame rest' Hb Hr') as [Hlt' Hbr'].
    destruct (portable_serve ph frame s) as (r & s' & sent & ->). destruct r as [ph'|e|]; cbn [server outbound app].
    + rewrite Hp in Hbr', Hlt'. apply IH; [done|lia..].
    + gone.
    + gone.
  - destruct (starved e) eqn:Hst.
    + rewrite <-feed_turn by done. unfold push. cbn [plc_server plc_phase plc_unread].
      rewrite (feed_fuel m (S k)) by (done || lia). done.
    + destruct Hmore as (rest' & -> & _); [by right|]. rewrite Hst. gone.
  - destruct Hmore as (rest' & -> & _); [by right|]. gone.
Qed.

(** What was sent before does not matter. *)
Lemma feed_out n : ∀ p out, feed n p out = ((feed n p []).1, out ++ (feed n p []).2).
Proof.
  induction n as [|n IH]; intros [s ph u] out; [by cbn; rewrite app_nil_r|].
  destruct (decide (ph = Gone)) as [->|Hph]; [by rewrite !feed_gone, app_nil_r|].
  rewrite !feed_turn by done. unfold hang_up.
  destruct (ReadFrame [Chunk u] 65535) as [[frame|e|] rest]; [|case_if; by rewrite app_nil_r|by rewrite app_nil_r].
  destruct (serve ph frame _) as [[ph'|e|] h]; [|done..]. rewrite IH, (IH _ ([] ++ outbound h)).
  cbn [fst snd]. by rewrite app_assoc.
Qed.

Lemma feed_proper n p q out : p ≡ q →
  (feed n p out).1 ≡ (feed n q out).1 ∧ (feed n p out).2 = (feed n q out).2.
Proof.
  destruct p as [s ph u], q as [s' ph' u']. intros (Hs & Hp & Hu). cbn in *. subst.
  destruct Hu as [->| ->]; [rewrite !feed_gone|]; repeat split; auto.
Qed.

Lemma feed_keeps n : ∀ p out, bytes (plc_unread p) → bytes (plc_unread (feed n p out).1).
Proof.
  induction n as [|n IH]; intros [s ph u] out Hb; [done|]. cbn in Hb.
  destruct (decide (ph = Gone)) as [->|Hph]; [done|]. rewrite feed_turn by done. unfold hang_up.
  destruct (ReadFrame [Chunk u] 65535) as [[frame|e|] rest] eqn:Hr; [|case_if; by cbn|by constructor].
  destruct (ReadFrame_consumes u frame rest Hb Hr) as [_ Hbr].
  destruct (serve ph frame _) as [[ph'|e|] h]; [by apply IH|by constructor..].
Qed.

(** Equivalent PLCs fed the same piece, with enough fuel each. *)
Lemma feed_push p q bs n m : p ≡ q → bytes (plc_unread q) → bytes bs →
  (length (plc_unread p ++ bs) < n)%nat → (length (plc_unread q ++ bs) < m)%nat →
  (feed n (push p bs) []).1 ≡ (feed m (push q bs) []).1 ∧ (feed n (push p bs) []).2 = (feed m (push q bs) []).2.
Proof.
  destruct p as [s ph u], q as [s' ph' u']. intros (Hs & Hp & Hu) Hq Hb Hn Hm. cbn in *. subst. unfold push.
  cbn [plc_server plc_phase plc_unread]. destruct Hu as [->| ->]; [rewrite !feed_gone; repeat split; auto|].
  by rewrite (feed_fuel n m) by (done || by apply Forall_app).
Qed.

(** The client's pieces one after the other, and what the PLC sends for them. *)
Fixpoint converse (p : PLC) (pieces : list (list Z)) : PLC * list Z :=
  match pieces with
  | [] => (p, [])
  | bs :: pieces =>
      let '(p, reply) := plc_answer p bs in
      let '(p, sent) := converse p pieces in (p, pending reply ++ sent)
  end.

Lemma plc_answer_feed p bs : (plc_answer p bs).1 = (feed (S (length (plc_unread p ++ bs))) (push p bs) []).1 ∧
  pending (plc_answer p bs).2 = u8 <$> (feed (S (length (plc_unread p ++ bs))) (push p bs) []).2.
Proof.
  unfold plc_answer, push. cbn [plc_unread]. destruct (feed _ _ _) as [p' out]. cbn [fst snd pending].
  by destruct (plc_phase p'); cbn [pending]; rewrite app_nil_r.
Qed.

Lemma converse_snoc pieces bs : ∀ p,
  converse p (pieces ++ [bs]) =
    (let '(p, sent) := converse p pieces in
     let '(p, reply) := plc_answer p bs in (p, sent ++ pending reply)).
Proof.
  induction pieces as [|b pieces IH]; intros p; cbn [app converse].
  { destruct (plc_answer p bs) as [p' reply]. by rewrite app_nil_r. }
  destruct (plc_answer p b) as [p1 reply1]. rewrite IH. destruct (converse p1 pieces) as [p2 sent].
  destruct (plc_answer p2 bs) as [p3 reply3]. by rewrite app_assoc.
Qed.

(** Pieces or one piece. *)
Lemma converse_feed pieces s n : bytes (concat pieces) → (length (concat pieces) < n)%nat →
  let whole := feed n (mkPLC s AwaitConnect (concat pieces)) [] in
  (converse (listening s) pieces).1 ≡ whole.1 ∧ (converse (listening s) pieces).2 = u8 <$> whole.2.
Proof.
  revert n. induction pieces as [|bs pieces IH] using rev_ind; intros n Hb Hn; cbn zeta.
  { rewrite feed_nothing. done. }
  rewrite converse_snoc. rewrite concat_app in *. cbn [concat app] in *. rewrite app_nil_r in *.
  pose proof Hb as [Hbp _]%Forall_app.
  destruct (IH (S (length (concat pieces))) Hbp ltac:(lia)) as [Hp Hs].
  destruct (converse (listening s) pieces) as [p sent]. cbn [fst snd] in Hp, Hs.
  destruct (plc_answer_feed p bs) as [Hp' Hs']. destruct (plc_answer p bs) as [p' reply]. cbn [fst snd] in *.
  pose proof (feed_keeps (S (length (concat pieces))) (mkPLC s AwaitConnect (concat pieces)) [] Hbp) as Hk.
  pose proof (feed_app (S (length (concat pieces)))) as Happ.
  destruct (feed (S (length (concat pieces))) (mkPLC s AwaitConnect (concat pieces)) []) as [p1 out1] eqn:Hf.
  specialize (Happ (S (length (concat pieces ++ bs) + length (plc_unread p1 ++ bs))) n AwaitConnect s
    (concat pieces) bs [] Hb ltac:(lia) ltac:(lia) Hn). rewrite Hf in Happ. cbn [fst snd] in Hp, Hs, Hk.
  rewrite feed_out in Happ. destruct Happ as [Happ1 <-]. rewrite <-Happ1. cbn [fst snd].
  assert (bytes bs) as Hbs by by apply Forall_app in Hb as [_ ?].
  destruct (feed_push p p1 bs (S (length (plc_unread p ++ bs)))
    (S (length (concat pieces ++ bs) + length (plc_unread p1 ++ bs))) Hp Hk Hbs ltac:(lia) ltac:(lia)) as [Hq Ho].
  rewrite Hp', Hs', Hs, Hq, Ho, fmap_app. done.
Qed.

(** ** Properties *)

(** C15. However the bytes of a connection are cut on their way, the goroutine
    that serves it sends what the PLC sends that answers the client piece by
    piece, and leaves the same server behind when the stream ends: the answers
    the client sees do not depend on the network. *)
Theorem serveConnection_streams s pieces arrivals fuel :
  bytes (concat pieces) → steady arrivals → pending arrivals = concat pieces →
  (length (concat pieces) < fuel)%nat →
  let '(p, sent) := converse (listening s) pieces in
  let h := serveConnection fuel (mkHandler s arrivals [] []) in
  server h = at_eof p ∧ u8 <$> outbound h = sent.
Proof.
  intros Hb Ha Hp Hf. destruct (converse_feed pieces s (S (length (concat pieces))) Hb ltac:(lia)) as [Hq Hs].
  pose proof (resume_feed (S (length (concat pieces))) AwaitConnect s (concat pieces) arrivals fuel [] Hb Ha Hp
    ltac:(lia) Hf) as Hr.
  destruct (converse (listening s) pieces) as [p sent], (feed _ _ []) as [p1 out1]. cbn [fst snd] in *.
  rewrite serveConnection_resume. destruct Hr as [-> ->]. by rewrite Hq, Hs.
Qed.
Lemma serveConnection_streams_witness :
  let s := mkServer 480 ∅ [] false 0 0 0 None in
  let request := request_frame 0x100 0x102 10 in
  let h := serveConnection 30 (mkHandler s [Chunk (request ++ [3; 0]); Chunk [0]] [] []) in
  server h = at_eof (converse (listening s) [take 5 request; drop 5 request ++ [3; 0; 0]]).1 ∧
  u8 <$> outbound h = confirm_frame 0x100 0x102 10.
Proof.
  set (s := mkServer 480 ∅ [] false 0 0 0 None). set (request := request_frame 0x100 0x102 10). cbn zeta.
  pose proof (serveConnection_streams s [take 5 request; drop 5 request ++ [3; 0; 0]]
    [Chunk (request ++ [3; 0]); Chunk [0]] 30 ltac:(repeat constructor; done) ltac:(repeat constructor)
    ltac:(done) ltac:(vm_compute; lia)) as H.
  assert ((converse (listening s) [take 5 request; drop 5 request ++ [3; 0; 0]]).2 = confirm_frame 0x100 0x102 10)
    as Hs by (vm_compute; reflexivity).
  destruct (converse _ _) as [p sent]. cbn [fst snd] in *. subst. done.
Defined.
