(* ===== verification/PLCServer.v ===== *)
(** * PLCServer: the goroutines of the scripted PLC (src/internal/testplc/server.go)

    [acceptLoop], the goroutine of every connection and [Close] run beside one
    another. Each is a program counter with a function that makes its next
    step; the system is their interleaving. Critical sections of [server.mu]
    are single steps. Bytes and handlers are in [TestPLC]: here a handler is
    its waits for the connection, the critical sections it enters between them
    and the error it returns. *)

From stdpp Require Import gmap.
From S2P Require Import Errors Session TestPLC.

(** ** The state *)

(** Where [acceptLoop] is, named by what comes next. *)
Inductive acceptor :=
| Accepting                  (** [server.listener.Accept()] *)
| Accepted (c : nat)         (** [server.connections[connection] = struct{}{}] *)
| Tabled (c : nat)           (** [server.wg.Add(1)] and [go func()] *)
| Failed (err : error)       (** [select] on [server.closed] *)
| Leaving                    (** the deferred [server.wg.Done()] *)
| Left.

(** Where the goroutine of a connection is. *)
Inductive goroutine :=
| Exchanging                 (** inside [handleConnection], in [ReadFrame] or [WriteFull] *)
| Handling (sections : nat)  (** inside it, with at most so many critical sections before the next *)
| Recording (err : error)    (** [server.recordError(err)] *)
| Untabling                  (** [delete(server.connections, connection)] *)
| HangingUp                  (** [connection.Close()] *)
| Finishing.                 (** [server.wg.Done()] *)

(** Where the one call of [Close] that runs [closeOnce.Do] is. *)
Inductive closer :=
| NotClosed
| Signalled                          (** [server.listener.Close()] *)
| Unlistened (err : option error)    (** the loop over the connections *)
| Waiting (err : option error)       (** [server.wg.Wait()] *)
| Closed (err : option error).       (** it has returned [err] *)

(** Connections are numbered as they are accepted; [opened] are those this side
    has not closed, [connections] is the table of the source, [wg] its counter. *)
Record System := mkSystem {
  plc : Server;
  connections : gset nat;
  opened : gset nat;
  accepted : nat;
  listenerOpen : bool;
  accept : acceptor;
  goroutines : gmap nat goroutine;
  closing : closer;
  wg : Z;
}.

Definition set_plc s σ := mkSystem s (connections σ) (opened σ) (accepted σ) (listenerOpen σ) (accept σ) (goroutines σ) (closing σ) (wg σ).
Definition set_connections cs σ := mkSystem (plc σ) cs (opened σ) (accepted σ) (listenerOpen σ) (accept σ) (goroutines σ) (closing σ) (wg σ).
Definition set_opened o σ := mkSystem (plc σ) (connections σ) o (accepted σ) (listenerOpen σ) (accept σ) (goroutines σ) (closing σ) (wg σ).
Definition set_accepted n σ := mkSystem (plc σ) (connections σ) (opened σ) n (listenerOpen σ) (accept σ) (goroutines σ) (closing σ) (wg σ).
Definition set_listenerOpen b σ := mkSystem (plc σ) (connections σ) (opened σ) (accepted σ) b (accept σ) (goroutines σ) (closing σ) (wg σ).
Definition set_accept a σ := mkSystem (plc σ) (connections σ) (opened σ) (accepted σ) (listenerOpen σ) a (goroutines σ) (closing σ) (wg σ).
Definition set_goroutines g σ := mkSystem (plc σ) (connections σ) (opened σ) (accepted σ) (listenerOpen σ) (accept σ) g (closing σ) (wg σ).
Definition set_closing c σ := mkSystem (plc σ) (connections σ) (opened σ) (accepted σ) (listenerOpen σ) (accept σ) (goroutines σ) c (wg σ).
Definition set_wg n σ := mkSystem (plc σ) (connections σ) (opened σ) (accepted σ) (listenerOpen σ) (accept σ) (goroutines σ) (closing σ) n.

(** What [Start] leaves behind: the accept loop runs, counted by [wg]. *)
Definition launched (s : Server) : System := mkSystem s ∅ ∅ 0 true Accepting ∅ NotClosed 1.

(** [server.closed] is closed. *)
Definition closedChan (σ : System) : bool := match closing σ with NotClosed => false | _ => true end.

(** ** The steps *)

(** [acceptLoop]: [incoming] is what [Accept] answers while the listener is
    open, a connection or an error; a closed listener answers [net.ErrClosed]. *)
Definition acceptLoop (incoming : option error) (σ : System) : option System :=
  match accept σ with
  | Accepting =>
      if listenerOpen σ then
        match incoming with
        | None =>
            let c := accepted σ in
            Some (set_accept (Accepted c) (set_accepted (S c) (set_opened ({[ c ]} ∪ opened σ) σ)))
        | Some err => Some (set_accept (Failed err) σ)
        end
      else Some (set_accept (Failed ErrNetClosed) σ)
  | Accepted c => Some (set_accept (Tabled c) (set_connections ({[ c ]} ∪ connections σ) σ))
  | Tabled c =>
      Some (set_accept Accepting (set_goroutines (<[c := Exchanging]> (goroutines σ)) (set_wg (wg σ + 1) σ)))
  | Failed err =>
      if closedChan σ then Some (set_accept Leaving σ)
      else Some (set_accept Leaving (set_plc (recordError err (plc σ)) σ))
  | Leaving => Some (set_accept Left (set_wg (wg σ - 1) σ))
  | Left => None
  end.

(** What [handleConnection] does next: it returns, or it goes on with so many
    critical sections before it uses the connection again. *)
Inductive answer :=
| Returns (err : option error)
| Continues (sections : nat).

(** A request enters [recordRequest], [consumeRejectItem], one of [readItem] and
    [writeItem] for each of its at most 255 items, [delayResponse] and
    [consumeDropWriteResponse]. *)
Definition request_sections : nat := 259.

(** The goroutine of connection [c].  On a connection this side has closed,
    [ReadFrame] and [WriteFull] fail, and the handler returns. *)
Definition serveGoroutine (c : nat) (a : answer) (σ : System) : option System :=
  let at_phase g := set_goroutines (<[c := g]> (goroutines σ)) in
  let returned err :=
    match err with
    | Some e => if isExpectedClose e then at_phase Untabling σ else at_phase (Recording e) σ
    | None => at_phase Untabling σ
    end in
  match goroutines σ !! c with
  | Some Exchanging =>
      match a with
      | Returns err => Some (returned err)
      | Continues n =>
          if bool_decide (c ∈ opened σ) && (n <=? request_sections)%nat then Some (at_phase (Handling n) σ) else None
      end
  | Some (Handling _) =>
      match a with
      | Returns err => Some (returned err)
      | Continues _ => Some (at_phase Exchanging σ)
      end
  | Some (Recording e) => Some (at_phase Untabling (set_plc (recordError e (plc σ)) σ))
  | Some Untabling => Some (at_phase HangingUp (set_connections (connections σ ∖ {[ c ]}) σ))
  | Some HangingUp => Some (at_phase Finishing (set_opened (opened σ ∖ {[ c ]}) σ))
  | Some Finishing => Some (set_goroutines (delete c (goroutines σ)) (set_wg (wg σ - 1) σ))
  | None => None
  end.

(** [if errors.Is(closeErr, net.ErrClosed)] at the end of [Close]. *)
Definition Close_result (closeErr : option error) : option error :=
  match closeErr with Some err => if is_net_closed err then None else Some err | None => None end.

(** [Close]: [err] is what [server.listener.Close()] returns. *)
Definition Close (err : option error) (σ : System) : option System :=
  match closing σ with
  | NotClosed => Some (set_closing Signalled σ)
  | Signalled => Some (set_closing (Unlistened err) (set_listenerOpen false σ))
  | Unlistened err => Some (set_closing (Waiting err) (set_opened (opened σ ∖ connections σ) σ))
  | Waiting err => if wg σ =? 0 then Some (set_closing (Closed (Close_result err)) σ) else None
  | Closed _ => None
  end.

(** The critical sections a handler enters. *)
Inductive critical : Server → Server → Prop :=
| critical_record r s : critical s (recordRequest r s).2
| critical_reject fallback s : critical s (consumeRejectItem fallback s).2
| critical_drop s : critical s (consumeDropWriteResponse s).2
| critical_delay s : critical s (delayResponse s).2
| critical_write item value s : critical s (writeItem item value s).2
| critical_read s : critical s s (** [readItem] only looks *).

(** The methods that set the server up, callable at any time. *)
Inductive scripted : Server → Server → Prop :=
| scripted_bytes area db off value s : scripted s (SetBytes area db off value s)
| scripted_drop s : scripted s (DropNextWriteResponse s)
| scripted_delay delay s : scripted s (DelayNextResponse delay s)
| scripted_reject code s : scripted s (RejectNextItem code s)
| scripted_reject_after skip code s : scripted s (RejectItemAfter skip code s).

(** Who makes a step happen: the server by itself, or its environment (clients
    that dial, send and hang up, and the test that drives it). *)
Inductive actor := Internal | External.

Definition accept_actor (σ : System) : actor :=
  match accept σ with Accepting => if listenerOpen σ then External else Internal | _ => Internal end.
(** A handler waits for its client in [ReadFrame] and [WriteFull], unless the
    connection is closed on this side; everything else it does by itself. *)
Definition goroutine_actor (c : nat) (σ : System) : actor :=
  match goroutines σ !! c with
  | Some Exchanging => if bool_decide (c ∈ opened σ) then External else Internal
  | _ => Internal
  end.
Definition close_actor (σ : System) : actor := match closing σ with NotClosed => External | _ => Internal end.

Inductive step : actor → System → System → Prop :=
| step_accept incoming σ σ' : acceptLoop incoming σ = Some σ' → step (accept_actor σ) σ σ'
| step_goroutine c a σ σ' : serveGoroutine c a σ = Some σ' → step (goroutine_actor c σ) σ σ'
| step_critical c n s σ : goroutines σ !! c = Some (Handling (S n)) → critical (plc σ) s →
    step Internal σ (set_plc s (set_goroutines (<[c := Handling n]> (goroutines σ)) σ))
| step_scripted s σ : scripted (plc σ) s → step External σ (set_plc s σ)
| step_close err σ σ' : Close err σ = Some σ' → step (close_actor σ) σ σ'.

Inductive reachable (s : Server) : System → Prop :=
| reach_launched : reachable s (launched s)
| reach_step a σ σ' : reachable s σ → step a σ σ' → reachable s σ'.

(** A run of steps by anyone, and who made them. *)
Inductive run : list actor → System → System → Prop :=
| run_nil σ : run [] σ σ
| run_cons a actors σ σ1 σ' : step a σ σ1 → run actors σ1 σ' → run (a :: actors) σ σ'.

#[export] Instance actor_eq_dec : EqDecision actor.
Proof. solve_decision. Defined.
(** The server's own steps of a run. *)
Definition own_steps (actors : list actor) : nat := length (filter (.= Internal) actors).

(** ** The invariant *)

(** The connection is in the table while its goroutine is here. *)
Definition tabled (g : goroutine) : Prop := match g with HangingUp | Finishing => False | _ => True end.
(** The accept loop counts in [wg]. *)
Definition accept_count (a : acceptor) : Z := match a with Left => 0 | _ => 1 end.
(** The connection the accept loop holds. *)
Definition held (a : acceptor) (c : nat) : Prop := a = Accepted c ∨ a = Tabled c.

Record consistent (σ : System) : Prop := {
  c_wg : wg σ = accept_count (accept σ) + Z.of_nat (size (goroutines σ));
  c_table : ∀ c, c ∈ connections σ ↔ accept σ = Tabled c ∨ ∃ g, goroutines σ !! c = Some g ∧ tabled g;
  c_opened : ∀ c, c ∈ opened σ → held (accept σ) c ∨ ∃ g, goroutines σ !! c = Some g ∧ g ≠ Finishing;
  c_accepted : ∀ c, is_Some (goroutines σ !! c) ∨ held (accept σ) c → (c < accepted σ)%nat;
  c_held : ∀ c, held (accept σ) c → goroutines σ !! c = None;
  c_listener : listenerOpen σ = match closing σ with NotClosed | Signalled => true | _ => false end;
  c_closed : ∀ err, closing σ = Closed err → wg σ = 0;
}.

Lemma launched_consistent s : consistent (launched s).
Proof.
  constructor; cbn; try done.
  - intros c. split; [set_solver|]. intros [?|(g & Hg & _)]; [done|]. by rewrite lookup_empty in Hg.
  - intros c [[g Hg]|[?|?]]; [by rewrite lookup_empty in Hg|done..].
Qed.

Ltac unheld := unfold held in *; naive_solver.

Lemma acceptLoop_consistent incoming σ σ' : consistent σ → acceptLoop incoming σ = Some σ' → consistent σ'.
Proof.
  intros [Hwg Ht Ho Ha Hh Hl Hc]. unfold acceptLoop.
  destruct (accept σ) as [|c|c|err| |] eqn:Hacc; [destruct (listenerOpen σ) eqn:Hlis; [destruct incoming as [err|]|]| | |destruct (closedChan σ)| |];
    intros [= <-]; cbn in *.
  - constructor; cbn; try done; unheld.
  - assert (goroutines σ !! accepted σ = None) as Hnone.
    { apply eq_None_not_Some. intros Hs. specialize (Ha (accepted σ) (or_introl Hs)). lia. }
    constructor; cbn; try done.
    + unheld.
    + intros c. rewrite elem_of_union, elem_of_singleton. unheld.
    + intros c [Hs|[[= ->]|[=]]]; [|lia]. specialize (Ha c (or_introl Hs)). lia.
    + by intros c [[= <-]|[=]].
    + congruence.
  - constructor; cbn; try done; unheld.
  - constructor; cbn; try done.
    + intros c'. rewrite elem_of_union, elem_of_singleton, Ht. unheld.
    + unheld.
    + unheld.
    + unheld.
  - assert (goroutines σ !! c = None) as Hnone by (apply Hh; by right).
    constructor; cbn; try done.
    + rewrite map_size_insert_None by done. lia.
    + intros c'. rewrite Ht. destruct (decide (c = c')) as [->|Hne].
      * rewrite lookup_insert_eq. naive_solver.
      * rewrite lookup_insert_ne by done. naive_solver.
    + intros c' [[?|[= ->]]|(g & Hg & Hn)]%Ho; [done| |]; right.
      * exists Exchanging. by rewrite lookup_insert_eq.
      * exists g. rewrite lookup_insert_ne by congruence. done.
    + intros c' [Hs|Hs]; [|unheld]. destruct (decide (c = c')) as [->|Hne]; [apply Ha; right; by right|].
      rewrite lookup_insert_ne in Hs by done. apply Ha. by left.
    + unheld.
    + intros err Herr. specialize (Hc err Herr). lia.
  - constructor; cbn; try done; unheld.
  - constructor; cbn; try done; unheld.
  - constructor; cbn; try done; [lia|unheld..|]. intros err Herr. specialize (Hc err Herr). lia.
Qed.

(** The goroutine of [c] moves to the phase [g]. *)
Lemma moved_consistent c g g' σ σ' : consistent σ → goroutines σ !! c = Some g →
  goroutines σ' = <[c := g']> (goroutines σ) → accept σ' = accept σ → accepted σ' = accepted σ →
  listenerOpen σ' = listenerOpen σ → closing σ' = closing σ → wg σ' = wg σ →
  (∀ c', c' ∈ connections σ' ↔ c' ∈ connections σ ∧ (c' = c → tabled g')) → (tabled g' → tabled g) →
  (∀ c', c' ∈ opened σ' → c' ∈ opened σ ∧ (c' = c → g' ≠ Finishing)) →
  consistent σ'.
Proof.
  intros [Hwg Ht Ho Ha Hh Hl Hc] Hg Hgs Hac Hacd Hlis Hcl Hw Htab Hmono Hop.
  constructor; rewrite ?Hgs, ?Hac, ?Hacd, ?Hlis, ?Hcl, ?Hw; [..|done].
  - by rewrite map_size_insert_Some by done.
  - intros c'. rewrite Htab, Ht. destruct (decide (c = c')) as [<-|Hne].
    + rewrite lookup_insert_eq. assert (¬ held (accept σ) c) as Hnh by (intros Hx; apply Hh in Hx; congruence).
      unheld.
    + rewrite lookup_insert_ne by done. naive_solver.
  - intros c' [Hx Hy]%Hop. destruct (Ho c' Hx) as [?|(g1 & Hg1 & Hn1)]; [by left|right].
    destruct (decide (c = c')) as [<-|Hne].
    + exists g'. rewrite lookup_insert_eq. auto.
    + exists g1. by rewrite lookup_insert_ne.
  - intros c' [Hs|Hs]; apply Ha; [left|by right]. destruct (decide (c = c')) as [<-|Hne]; [by eexists|].
    by rewrite lookup_insert_ne in Hs.
  - intros c' Hx%Hh. destruct (decide (c = c')) as [<-|Hne]; [congruence|by rewrite lookup_insert_ne].
  - done.
Qed.

Lemma serveGoroutine_consistent c a σ σ' : consistent σ → serveGoroutine c a σ = Some σ' → consistent σ'.
Proof.
  intros Hcon. unfold serveGoroutine. destruct (goroutines σ !! c) as [[|n|e| | |]|] eqn:Hg; [destruct a as [err|n]|destruct a as [err|n']|..|done];
    [|case_if; [|done]|..]; intros [= <-].
  - destruct err as [e|]; [case_if|];
      (eapply (moved_consistent c); [exact Hcon|exact Hg|reflexivity|done..| |done|]); cbn; naive_solver.
  - eapply (moved_consistent c); [exact Hcon|exact Hg|reflexivity|done..| |done|]; cbn; naive_solver.
  - destruct err as [e|]; [case_if|];
      (eapply (moved_consistent c); [exact Hcon|exact Hg|reflexivity|done..| |done|]); cbn; naive_solver.
  - eapply (moved_consistent c); [exact Hcon|exact Hg|reflexivity|done..| |done|]; cbn; naive_solver.
  - eapply (moved_consistent c); [exact Hcon|exact Hg|reflexivity|done..| |done|]; cbn; naive_solver.
  - eapply (moved_consistent c); [exact Hcon|exact Hg|reflexivity|done..| |done|]; cbn; [|naive_solver].
    intros c'. rewrite elem_of_difference, elem_of_singleton. naive_solver.
  - assert (c ∉ connections σ) as Hnc.
    { intros [Hx|(g & Hx & Hy)]%(c_table _ Hcon); [|rewrite Hg in Hx; by injection Hx as <-].
      rewrite (c_held _ Hcon c) in Hg; [done|by right]. }
    eapply (moved_consistent c); [exact Hcon|exact Hg|reflexivity|done..| |done|]; cbn; [naive_solver|].
    intros c'. rewrite elem_of_difference, elem_of_singleton. naive_solver.
  - destruct Hcon as [Hwg Ht Ho Ha Hh Hl Hc]. constructor; cbn; try done.
    + rewrite map_size_delete_Some by (by eexists). pose proof (map_size_ne_0_lookup_2 (goroutines σ) c ltac:(by eexists)). lia.
    + intros c'. rewrite Ht. destruct (decide (c = c')) as [<-|Hne]; [rewrite lookup_delete_eq|by rewrite lookup_delete_ne].
      rewrite Hg. naive_solver.
    + intros c' [?|(g & Hx & Hn)]%Ho; [by left|right]. exists g. rewrite lookup_delete_ne; [done|congruence].
    + intros c' [Hs|Hs]; apply Ha; [left|by right]. by apply lookup_delete_is_Some in Hs as [_ ?].
    + intros c' Hx%Hh. by apply lookup_delete_None; right.
    + intros err' He. specialize (Hc err' He). pose proof (map_size_ne_0_lookup_2 (goroutines σ) c ltac:(by eexists)).
      destruct (accept σ); cbn in Hwg; lia.
Qed.

Lemma Close_consistent err σ σ' : consistent σ → Close err σ = Some σ' → consistent σ'.
Proof.
  intros [Hwg Ht Ho Ha Hh Hl Hc]. unfold Close.
  destruct (closing σ) as [| |e|e|e] eqn:Hcl; [..|done]; try (intros [= <-]).
  1,2: by constructor.
  - constructor; cbn; try done. intros c [Hx _]%elem_of_difference. by apply Ho.
  - case_if; [|done]. intros [= <-]. constructor; cbn; try done. intros. lia.
Qed.

Lemma step_consistent a σ σ' : consistent σ → step a σ σ' → consistent σ'.
Proof.
  intros Hc Hs. destruct Hs as [incoming ? ? Hs|c b ? ? Hs|c n s ? Hg Hs|s ? Hs|err ? ? Hs].
  - by eapply acceptLoop_consistent.
  - by eapply serveGoroutine_consistent.
  - eapply (moved_consistent c); [exact Hc|exact Hg|reflexivity|done..| |done|]; cbn; naive_solver.
  - destruct Hc. by constructor.
  - by eapply Close_consistent.
Qed.

Lemma reachable_consistent s σ : reachable s σ → consistent σ.
Proof. induction 1; [apply launched_consistent|by eapply step_consistent]. Qed.

(** ** Progress of Close *)

(** The steps that are left. *)
Definition goroutine_left (g : goroutine) : nat :=
  match g with Handling n => 6 + n | Exchanging => 5 | Recording _ => 4 | Untabling => 3 | HangingUp => 2 | Finishing => 1 end.
Definition acceptor_left (a : acceptor) : nat :=
  match a with Accepted _ => 10 | Tabled _ => 9 | Accepting => 3 | Failed _ => 2 | Leaving => 1 | Left => 0 end.
Definition closer_left (c : closer) : nat :=
  match c with NotClosed => 4 | Signalled => 3 | Unlistened _ => 2 | Waiting _ => 1 | Closed _ => 0 end.
Definition goroutines_left (gs : gmap nat goroutine) : nat := map_fold (λ _ g n, (goroutine_left g + n)%nat) O gs.
Definition steps_left (σ : System) : nat :=
  acceptor_left (accept σ) + goroutines_left (goroutines σ) + closer_left (closing σ).

Lemma goroutines_left_insert gs c g : gs !! c = None →
  goroutines_left (<[c := g]> gs) = (goroutine_left g + goroutines_left gs)%nat.
Proof. intros Hc. unfold goroutines_left. rewrite map_fold_insert_L; [done| |done]. intros. lia. Qed.
Lemma goroutines_left_lookup gs c g : gs !! c = Some g →
  goroutines_left gs = (goroutine_left g + goroutines_left (delete c gs))%nat.
Proof.
  intros Hc. rewrite <-(goroutines_left_insert _ c) by apply lookup_delete_eq. by rewrite insert_delete_id.
Qed.
Lemma goroutines_left_update gs c g g' : gs !! c = Some g →
  (goroutines_left (<[c := g']> gs) + goroutine_left g = goroutines_left gs + goroutine_left g')%nat.
Proof.
  intros Hc. rewrite (goroutines_left_lookup gs c g Hc), <-(insert_delete_eq gs c g').
  rewrite goroutines_left_insert by apply lookup_delete_eq. lia.
Qed.

(** The goroutine of [c] no longer serves its client. *)
Definition freed (σ : System) (c : nat) : Prop :=
  ∃ g, goroutines σ !! c = Some g ∧ g ≠ Exchanging ∧ ∀ n, g ≠ Handling n.
(** Close has closed the connections of the table, and no other one is served. *)
Definition closes (err : option error) (σ : System) : Prop :=
  listenerOpen σ = false ∧
  (closing σ = Closed (Close_result err) ∨ closing σ = Waiting err ∧ ∀ c, c ∈ opened σ → freed σ c).

(** What [closes] says of a goroutine that serves: its connection is closed. *)
Lemma closes_served err σ c g : consistent σ → closes err σ → goroutines σ !! c = Some g →
  g = Exchanging ∨ (∃ n, g = Handling n) → c ∉ opened σ.
Proof.
  intros Hcon [_ Hcl] Hg Hs Hc. destruct Hcl as [Hcl|[_ Hf]].
  - pose proof (c_wg _ Hcon) as Hw. rewrite (c_closed _ Hcon _ Hcl) in Hw.
    pose proof (map_size_ne_0_lookup_2 (goroutines σ) c ltac:(by eexists)). destruct (accept σ); cbn in Hw; lia.
  - destruct (Hf c Hc) as (g' & Hg' & H1 & H2). rewrite Hg in Hg'. injection Hg' as <-. naive_solver.
Qed.

Lemma internal_decreases err σ σ' : consistent σ → closes err σ → step Internal σ σ' → (steps_left σ' < steps_left σ)%nat.
Proof.
  intros Hcon Hcl Hs. pose proof Hcl as [Hl _]. remember Internal as a eqn:Ha.
  destruct Hs as [incoming ? ? Hs|c b σ σ' Hs|c n s ? Hg Hs|s ? Hs|e ? ? Hs]; [| | |done|]; unfold steps_left.
  - clear Ha. pose proof (c_held _ Hcon) as Hh. revert Hs. unfold acceptLoop. rewrite Hl.
    destruct (accept σ) as [|c|c|e| |] eqn:Hacc; [| | |case_if| |done]; intros [= <-]; cbn; try lia.
    rewrite goroutines_left_insert by (apply Hh; by right). cbn. lia.
  - revert Hs. unfold serveGoroutine. destruct (goroutines σ !! c) as [g|] eqn:Hg; [|done].
    pose proof (goroutines_left_lookup _ _ _ Hg) as Hd.
    pose proof (λ g', goroutines_left_update _ _ _ g' Hg) as Hu.
    assert (∀ n : nat, g = Exchanging → bool_decide (c ∈ opened σ) && (n <=? request_sections)%nat = false) as Hno.
    { intros n ->. rewrite bool_decide_eq_false_2; [done|]. eapply closes_served; eauto. }
    destruct g as [|n|e'| | |];
      [destruct b as [[e|]|n]; [case_if| |rewrite (Hno n eq_refl); done]|destruct b as [[e|]|n']; [case_if| |]|..];
      intros [= <-]; cbn;
      try (match goal with |- context [<[c := ?g']> _] => specialize (Hu g') end; cbn in Hu; lia).
    cbn in Hd. lia.
  - cbn. pose proof (goroutines_left_update _ _ _ (Handling n) Hg) as Hu. cbn in Hu. lia.
  - clear Ha. revert Hs. unfold Close. destruct (closing σ) eqn:Hc; [..|done]; try case_if; try done;
      intros [= <-]; cbn; lia.
Qed.

(** What keeps [closes]: nothing is opened, and freed connections stay freed or
    are closed. *)
Lemma closes_mono err σ σ' : closes err σ → listenerOpen σ' = listenerOpen σ → closing σ' = closing σ →
  (∀ c, c ∈ opened σ' → c ∈ opened σ ∧ (freed σ c → freed σ' c)) → closes err σ'.
Proof.
  intros [Hl Hcl] Hl' Hc' Hop. split; [by rewrite Hl'|]. rewrite Hc'.
  destruct Hcl as [?|[? Hf]]; [by left|right]. split; [done|]. intros c [Hx Hy]%Hop. auto.
Qed.

Lemma acceptLoop_closes err incoming σ σ' : consistent σ → closes err σ →
  acceptLoop incoming σ = Some σ' → closes err σ'.
Proof.
  intros Hcon Hcl. pose proof (c_held _ Hcon) as Hh. pose proof Hcl as [Hl _]. unfold acceptLoop. rewrite Hl.
  destruct (accept σ) as [|c|c|e| |] eqn:Hacc; [| | |case_if| |done]; intros [= <-];
    (apply (closes_mono err σ); [done..|]); intros c' Hc'; cbn in *; try by auto.
  split; [done|]. intros (g & Hg & Hn). exists g. split; [|done]. cbn.
  rewrite lookup_insert_ne; [done|]. intros ->. by rewrite (Hh c' ltac:(by right)) in Hg.
Qed.

(** A goroutine that moves on, unless it goes back to serving. *)
Lemma freed_insert σ σ' c g g' c' : goroutines σ !! c = Some g → goroutines σ' = <[c := g']> (goroutines σ) →
  (g' = Exchanging ∨ (∃ n, g' = Handling n) → g = Exchanging ∨ ∃ n, g = Handling n) →
  freed σ c' → freed σ' c'.
Proof.
  intros Hg Hg' Hs (g1 & Hg1 & H1 & H2). unfold freed. rewrite Hg'. destruct (decide (c = c')) as [<-|Hne].
  - exists g'. rewrite lookup_insert_eq. rewrite Hg in Hg1. injection Hg1 as <-. naive_solver.
  - exists g1. by rewrite lookup_insert_ne.
Qed.

Lemma serveGoroutine_closes err c b σ σ' : consistent σ → closes err σ →
  serveGoroutine c b σ = Some σ' → closes err σ'.
Proof.
  intros Hcon Hcl. unfold serveGoroutine. destruct (goroutines σ !! c) as [g|] eqn:Hg; [|done].
  destruct g as [|n|e'| | |]; [destruct b as [[e|]|n]; [case_if| |case_if; [|done]]|destruct b as [[e|]|n']; [case_if| |]|..];
    intros [= <-]; (apply (closes_mono err σ); [done..|]); intros c' Hc'; cbn in *;
    try (split; [done|]; eapply freed_insert; [exact Hg|reflexivity|naive_solver]).
  - split; [set_solver|]. eapply freed_insert; [exact Hg|reflexivity|naive_solver].
  - assert (c' ≠ c) as Hne.
    { intros ->. destruct (c_opened _ Hcon c Hc') as [Hx%(c_held _ Hcon)|(g & Hx & ?)]; congruence. }
    split; [done|]. intros (g & Hx & ?). exists g. cbn. by rewrite lookup_delete_ne.
Qed.

Lemma step_closes a err σ σ' : consistent σ → closes err σ → step a σ σ' → closes err σ'.
Proof.
  intros Hcon Hcl Hs. destruct Hs as [incoming ? ? Hs|c b ? ? Hs|c n s ? Hg Hs|s ? Hs|e ? ? Hs];
    [by eapply acceptLoop_closes|by eapply serveGoroutine_closes| |done|].
  - apply (closes_mono err σ); [done..|]. intros c' Hc'. split; [done|].
    eapply freed_insert; [exact Hg|reflexivity|naive_solver].
  - destruct Hcl as [Hl Hcl]. revert Hs. unfold Close.
    destruct (closing σ) as [| |e'|e'|e'] eqn:Hc; [by destruct Hcl as [?|[? _]]..| |done].
    case_if; [|done]. destruct Hcl as [?|[[= ->] _]]; [done|]. intros [= <-]. split; [done|by left].
Qed.

(** The environment adds nothing to do. *)
Lemma external_keeps err σ σ' : consistent σ → closes err σ → step External σ σ' → steps_left σ' = steps_left σ.
Proof.
  intros Hcon Hcl Hs. pose proof Hcl as [Hl Hc]. remember External as a eqn:Ha.
  destruct Hs as [incoming ? ? Hs|c b ? ? Hs|c n s ? Hg Hs|s ? Hs|e ? ? Hs]; [| |done|done|]; exfalso.
  - unfold accept_actor in Ha. rewrite Hl in Ha. by destruct (accept σ).
  - unfold goroutine_actor in Ha. destruct (goroutines σ !! c) as [[]|] eqn:Hg; try done.
    case_bool_decide as Ho; [|done]. by eapply closes_served in Ho; eauto.
  - unfold close_actor in Ha. destruct (closing σ); try done. by destruct Hc as [?|[? _]].
Qed.

Lemma acceptLoop_moves σ : listenerOpen σ = false → accept σ ≠ Left → ∃ σ', step Internal σ σ'.
Proof.
  intros Hl Ha. assert (accept_actor σ = Internal) as Hact by (unfold accept_actor; rewrite Hl; by destruct (accept σ)).
  rewrite <-Hact. destruct (acceptLoop None σ) as [σ'|] eqn:Hs; [exists σ'; by eapply step_accept|].
  exfalso. revert Hs. unfold acceptLoop. rewrite Hl. by destruct (accept σ); try case_if.
Qed.
Lemma goroutine_moves σ c : is_Some (goroutines σ !! c) → (c ∈ opened σ → freed σ c) → ∃ σ', step Internal σ σ'.
Proof.
  intros [g Hg] Hf. assert (goroutine_actor c σ = Internal) as Hact.
  { unfold goroutine_actor. rewrite Hg. destruct g; try done. case_bool_decide as Ho; [|done].
    destruct (Hf Ho) as (g' & Hg' & Hn & _). congruence. }
  rewrite <-Hact. destruct (serveGoroutine c (Returns None) σ) as [σ'|] eqn:Hs; [exists σ'; by eapply step_goroutine|].
  exfalso. revert Hs. unfold serveGoroutine. rewrite Hg. by destruct g.
Qed.
Lemma close_moves σ σ' : Close None σ = Some σ' → closing σ ≠ NotClosed → ∃ σ', step Internal σ σ'.
Proof.
  intros Hs Hc. assert (close_actor σ = Internal) as Hact by (unfold close_actor; by destruct (closing σ)).
  rewrite <-Hact. exists σ'. by eapply step_close.
Qed.

(** As long as Close has not returned, something can be done. *)
Lemma closes_progress err σ : consistent σ → closes err σ →
  closing σ = Closed (Close_result err) ∨ ∃ σ', step Internal σ σ'.
Proof.
  intros Hcon [Hl [Hcl|[Hcl Hf]]]; [by left|right].
  assert (accept σ = Left ∨ accept σ ≠ Left) as [Hleft|Hleft] by (destruct (accept σ); auto);
    [|by apply acceptLoop_moves].
  destruct (decide (goroutines σ = ∅)) as [He|(c & g & Hg)%map_choose].
  - pose proof (c_wg _ Hcon) as Hw. rewrite Hleft, He, map_size_empty in Hw.
    eapply close_moves; [|by rewrite Hcl]. unfold Close. rewrite Hcl, Hw. done.
  - apply (goroutine_moves σ c); [by eexists|apply Hf].
Qed.

Lemma closing_run err actors : ∀ σ σ', consistent σ → closes err σ → run actors σ σ' →
  consistent σ' ∧ closes err σ' ∧ (steps_left σ' + own_steps actors ≤ steps_left σ)%nat.
Proof.
  induction actors as [|a actors IH]; intros σ σ' Hcon Hcl Hs; inversion Hs as [|? ? ? σ1 ? H1 H2]; subst.
  { split_and!; [done..|cbn; lia]. }
  destruct (IH σ1 σ') as (? & ? & Hle); [by eapply step_consistent|by eapply step_closes|done|].
  split_and!; [done..|]. unfold own_steps in *. rewrite filter_cons. destruct a.
  - pose proof (internal_decreases err _ _ Hcon Hcl H1). case_decide; [cbn; lia|done].
  - rewrite <-(external_keeps err _ _ Hcon Hcl H1). case_decide; [done|lia].
Qed.

(** When Close closes the connections of the table, only one that is accepted but
    not in the table yet can escape it. *)
Lemma unlistened_closes err e σ σ1 : consistent σ → closing σ = Unlistened err → (∀ c, accept σ ≠ Accepted c) →
  Close e σ = Some σ1 → closes err σ1.
Proof.
  intros Hcon Hcl Hna. unfold Close. rewrite Hcl. intros [= <-].
  split; [cbn; by rewrite (c_listener _ Hcon), Hcl|]. right. split; [done|]. cbn.
  intros c [Hc Hn]%elem_of_difference.
  assert (∀ g, goroutines σ !! c = Some g → ¬ tabled g) as Hnt.
  { intros g Hg Ht. apply Hn, (c_table _ Hcon). right. by eexists. }
  destruct (c_opened _ Hcon c Hc) as [[?|Ht]|(g & Hg & _)]; [by edestruct Hna|destruct Hn|].
  - apply (c_table _ Hcon). by left.
  - exists g. split; [done|]. specialize (Hnt g Hg). destruct g; cbn in Hnt; tauto || done.
Qed.

(** ** What every goroutine keeps *)

(** The PDU size stays, the log of requests only grows, and the error that
    [Err] reports is the first one. *)
Record grows (s s' : Server) : Prop := {
  g_pdu : pdu s' = pdu s;
  g_requests : requests s `prefix_of` requests s';
  g_error : is_Some (firstError s) → firstError s' = firstError s;
}.
#[export] Instance grows_preorder : PreOrder grows.
Proof.
  split; [by constructor|]. intros s1 s2 s3 [H1 H2 H3] [H4 H5 H6].
  constructor; [congruence|by trans (requests s2)|]. intros Hs. rewrite H6; [by apply H3|by rewrite H3].
Qed.

Lemma recordError_grows err s : grows s (recordError err s).
Proof. unfold recordError. destruct (firstError s) eqn:He; [done|]. constructor; [done|done|]. rewrite He. by intros []. Qed.

Lemma critical_grows s s' : critical s s' → grows s s'.
Proof.
  destruct 1 as [r s|f s|s|s|i v s|s]; try done.
  - constructor; [done| |done]. by apply prefix_app_r.
  - unfold consumeRejectItem, locked. repeat case_if; done.
  - unfold writeItem, mbind, Srv_bind, pure, locked. case_if; [|done]. by destruct (index v 0).
Qed.

Lemma serveGoroutine_grows c b σ σ' : serveGoroutine c b σ = Some σ' → grows (plc σ) (plc σ').
Proof.
  unfold serveGoroutine. destruct (goroutines σ !! c) as [[]|];
    [destruct b as [[]|]; [case_if| |case_if; [|done]]|destruct b as [[]|]; [case_if| |]|..|done];
    intros [= <-]; first [done|apply recordError_grows].
Qed.

Lemma step_grows a σ σ' : step a σ σ' → grows (plc σ) (plc σ').
Proof.
  destruct 1 as [incoming σ σ' Hs|c b σ σ' Hs|c n s σ Hg Hs|s σ Hs|err σ σ' Hs];
    [|by eapply serveGoroutine_grows|by apply critical_grows|by destruct Hs|]; revert Hs.
  - unfold acceptLoop. destruct (accept σ); [case_if; [destruct incoming|]| | |case_if| |done];
      intros [= <-]; try done. apply recordError_grows.
  - unfold Close. destruct (closing σ); try case_if; try done; by intros [= <-].
Qed.

(** ** Runs *)

(** The choices of a run: what Accept, a handler or the listener answers. *)
Inductive move :=
| MoveAccept (incoming : option error)
| MoveServe (c : nat) (a : answer)
| MoveClose (err : option error).
Definition perform (σ : System) (m : move) : option System :=
  match m with
  | MoveAccept incoming => acceptLoop incoming σ
  | MoveServe c a => serveGoroutine c a σ
  | MoveClose err => Close err σ
  end.
Fixpoint performs (ms : list move) (σ : System) : option System :=
  match ms with [] => Some σ | m :: ms => σ ← perform σ m; performs ms σ end.

Lemma perform_step σ m σ' : perform σ m = Some σ' → ∃ a, step a σ σ'.
Proof. destruct m; intros Hp; eexists; [by eapply step_accept|by eapply step_goroutine|by eapply step_close]. Qed.
Lemma performs_reachable s ms : ∀ σ σ', reachable s σ → performs ms σ = Some σ' → reachable s σ'.
Proof.
  induction ms as [|m ms IH]; intros σ σ' Hr; cbn [performs]; [by intros [= <-]|].
  intros (σ1 & Hp & Hs)%bind_Some. destruct (perform_step _ _ _ Hp) as [a Ha].
  eapply IH; [by eapply reach_step|done].
Qed.

(** Close overtakes a connection that was just accepted. *)
Definition overtaken : list move :=
  [MoveAccept None; MoveClose None; MoveClose None; MoveClose None;
   MoveAccept None; MoveAccept None; MoveAccept None; MoveAccept None; MoveAccept None].
Definition overtaken_end (s : Server) : System :=
  mkSystem s {[ 0%nat ]} {[ 0%nat ]} 1 false Left {[ 0%nat := Exchanging ]} (Waiting None) 1.
(** A client comes, sends nonsense, and Close follows. *)
Definition orderly : list move :=
  [MoveAccept None; MoveAccept None; MoveAccept None; MoveServe 0 (Returns (Some (EText "testplc: malformed S7 job header")));
   MoveServe 0 (Returns None); MoveClose None; MoveClose None].
Definition idle_server : Server := mkServer 480 ∅ [] false 0 0 0 None.

(** ** Properties *)

(** The wait group of the server counts its goroutines: it never drops below
    zero and is only added to while the accept loop holds it, so Wait cannot
    be overtaken; the log of requests only grows and Err reports the first error. *)
Theorem server_counts s σ : reachable s σ →
  0 ≤ wg σ ∧ (∀ a σ', step a σ σ' → wg σ < wg σ' → 1 ≤ wg σ) ∧ grows s (plc σ).
Proof.
  intros Hr. split; [|split].
  - rewrite (c_wg _ (reachable_consistent s σ Hr)). destruct (accept σ); cbn; lia.
  - intros a σ' Hs Hw. pose proof (reachable_consistent s σ Hr) as Hcon.
    destruct Hs as [incoming σ σ' Hs|c b σ σ' Hs|c n s' σ Hg Hs|s' σ Hs|err σ σ' Hs];
      [| |cbn in Hw; lia|cbn in Hw; lia|]; revert Hs Hw.
    + pose proof (c_wg _ Hcon) as Hwg. unfold acceptLoop.
      destruct (accept σ); [case_if; [destruct incoming|]| | |case_if| |done]; intros [= <-] Hw; cbn in *; lia.
    + unfold serveGoroutine. destruct (goroutines σ !! c) as [[]|];
        [destruct b as [[]|]; [case_if| |case_if; [|done]]|destruct b as [[]|]; [case_if| |]|..|done];
        intros [= <-] Hw; cbn in *; lia.
    + unfold Close. destruct (closing σ); try case_if; try done; intros [= <-] Hw; cbn in *; lia.
  - induction Hr as [|a σ σ' _ IH Hs]; [done|]. trans (plc σ); [done|by eapply step_grows].
Qed.

(** C16. When Close has returned, nothing of the server is left: the accept loop
    and every goroutine have ended, the table is empty, the listener and every
    connection are closed. *)
Theorem Close_complete s σ err : reachable s σ → closing σ = Closed err →
  accept σ = Left ∧ goroutines σ = ∅ ∧ connections σ = ∅ ∧ opened σ = ∅ ∧ listenerOpen σ = false.
Proof.
  intros Hr Hcl. pose proof (reachable_consistent s σ Hr) as Hcon. pose proof (c_wg _ Hcon) as Hw.
  rewrite (c_closed _ Hcon err Hcl) in Hw.
  assert (accept σ = Left ∧ goroutines σ = ∅) as [Ha Hg].
  { destruct (accept σ); cbn in Hw; try lia. split; [done|]. apply map_size_empty_inv. lia. }
  split; [done|]. split; [done|]. split; [|split].
  - apply elem_of_equiv_empty_L. intros c [Hx|(g & Hx & _)]%(c_table _ Hcon); [congruence|].
    by rewrite Hg, lookup_empty in Hx.
  - apply elem_of_equiv_empty_L. intros c [[Hx|Hx]|(g & Hx & _)]%(c_opened _ Hcon); [congruence..|].
    by rewrite Hg, lookup_empty in Hx.
  - by rewrite (c_listener _ Hcon), Hcl.
Qed.

(** C17. Close returns: if no connection is between Accept and the table when it
    closes the connections of the table, then from there on, in every run,
    however the server's own steps, those of the clients and those of the test
    interleave, the server makes no more than [steps_left] steps of its own -
    the critical sections of its handlers are among them -, and as long as Close
    has not returned one of them can be made. *)
Theorem Close_returns s σ err e σ1 : reachable s σ → closing σ = Unlistened err → (∀ c, accept σ ≠ Accepted c) →
  Close e σ = Some σ1 →
  ∀ actors σ', run actors σ1 σ' →
    (own_steps actors ≤ steps_left σ1)%nat ∧
    (closing σ' = Closed (Close_result err) ∨ ∃ σ'', step Internal σ' σ'').
Proof.
  intros Hr Hcl Hna Hc actors σ' Hs. pose proof (reachable_consistent s σ Hr) as Hcon.
  destruct (closing_run err actors σ1 σ') as (Hcon' & Hcl' & Hn); [|by eapply unlistened_closes|done|].
  - by eapply Close_consistent.
  - split; [lia|]. by apply closes_progress.
Qed.

(** C18. Close may hang: a connection that is accepted but not yet in the table
    when Close closes the connections stays open, and Close waits for its client
    to hang up. *)
Theorem Close_can_hang s : ∃ σ c, reachable s σ ∧ closing σ = Waiting None ∧
  goroutines σ !! c = Some Exchanging ∧ c ∈ opened σ ∧ ∀ σ', ¬ step Internal σ σ'.
Proof.
  assert (performs overtaken (launched s) = Some (overtaken_end s)) as Hp by (vm_compute; reflexivity).
  exists (overtaken_end s), 0%nat. split; [by eapply performs_reachable; [apply reach_launched|]|].
  split; [done|]. split; [done|]. split; [set_solver|].
  intros σ' Hs. remember Internal as a eqn:Ha. remember (overtaken_end s) as σ eqn:Hσ.
  destruct Hs as [incoming ? ? H|c b ? ? H|c n s' ? H|s' ? H|err ? ? H]; subst σ; [done| | |done|done];
    (destruct (decide (c = 0%nat)) as [->|Hne]; [done || by vm_compute in Ha|]); revert H;
    [unfold serveGoroutine|]; change (goroutines _) with ({[ 0%nat := Exchanging ]} : gmap nat goroutine);
    by rewrite lookup_singleton_ne.
Qed.

(** ** Witnesses *)

Lemma orderly_unlistened : ∃ σ, performs orderly (launched idle_server) = Some σ ∧
  closing σ = Unlistened None ∧ accept σ = Accepting ∧
  firstError (plc σ) = Some (EText "testplc: malformed S7 job header") ∧ steps_left σ = 8%nat.
Proof. eexists. split_and!; vm_compute; reflexivity. Qed.
(** The rest of the orderly run. *)
Definition orderly_rest : list move :=
  [MoveClose None; MoveServe 0 (Returns None); MoveServe 0 (Returns None); MoveServe 0 (Returns None);
   MoveAccept None; MoveAccept None; MoveAccept None; MoveClose None].
Lemma orderly_closed : ∃ σ, performs (orderly ++ orderly_rest) (launched idle_server) = Some σ ∧
  closing σ = Closed None ∧ wg σ = 0.
Proof. eexists. split_and!; vm_compute; reflexivity. Qed.

Lemma server_counts_witness : 0 ≤ wg (overtaken_end idle_server) ∧ grows idle_server (plc (overtaken_end idle_server)).
Proof.
  destruct (server_counts idle_server (overtaken_end idle_server)) as (? & _ & ?); [|done].
  eapply performs_reachable; [apply reach_launched|]. by instantiate (1 := overtaken); vm_compute.
Defined.

Lemma Close_complete_witness : ∃ σ, reachable idle_server σ ∧ closing σ = Closed None ∧ opened σ = ∅ ∧ goroutines σ = ∅.
Proof.
  destruct orderly_closed as (σ & Hp & Hc & _). exists σ.
  assert (reachable idle_server σ) as Hr by (eapply performs_reachable; [apply reach_launched|exact Hp]).
  destruct (Close_complete idle_server σ None Hr Hc) as (_ & ? & _ & ? & _). done.
Defined.

(** Close comes while a handler is in a request, before three critical sections. *)
Definition busy : list move :=
  [MoveAccept None; MoveAccept None; MoveAccept None; MoveServe 0 (Continues 3); MoveClose None; MoveClose None].
Lemma busy_unlistened : ∃ σ σ1, performs busy (launched idle_server) = Some σ ∧ closing σ = Unlistened None ∧
  accept σ = Accepting ∧ Close None σ = Some σ1 ∧ steps_left σ1 = 13%nat.
Proof. eexists _, _. split_and!; vm_compute; reflexivity. Qed.

Lemma Close_returns_witness : ∃ σ σ1, reachable idle_server σ ∧ Close None σ = Some σ1 ∧
  ∀ actors σ', run actors σ1 σ' →
    (own_steps actors ≤ 13)%nat ∧ (closing σ' = Closed None ∨ ∃ σ'', step Internal σ' σ'').
Proof.
  destruct busy_unlistened as (σ & σ1 & Hp & Hc & Ha & Hs & Hn). exists σ, σ1.
  assert (reachable idle_server σ) as Hr by (eapply performs_reachable; [apply reach_launched|exact Hp]).
  split; [done|]. split; [done|]. rewrite <-Hn.
  apply (Close_returns idle_server σ None None σ1); [done|done| |done]. by rewrite Ha.
Defined.
