(* ===== verification/EndToEnd.v ===== *)
(** * EndToEnd: a client session against the scripted PLC

    The client of Session and DataPlane joined to the server of TestPLC by a
    network that delivers every byte, with no deadline passing and no
    concurrent Close: what an exchange and the steps around it do. *)

From stdpp Require Import gmap.
From S2P Require Import Errors Protocol IsoTCP Config Item Planner Session SessionProofs DataPlane ReadProofs WriteProofs ClientProofs TestPLC PLCProofs PLCMemory.

Section run.
Local Abbreviation World := (@World PLC).
Local Abbreviation Conn := (@Conn PLC).
Local Abbreviation M := (@M PLC).
Implicit Type w : World.

(** ** A quiet network *)

(** Nothing is scheduled, no context is done, no Close has begun. *)
Record calm (w : World) : Prop := {
  ca_schedule : schedule (env w) = [];
  ca_closer : closer (env w) = O;
  ca_context l : ctxDone (env w) l = None;
  ca_life : lifeCanceled (client w) = false;
}.

(** A connection on which every call succeeds, to the PLC [p]. *)
Record attached (p : PLC) (c : Conn) : Prop := {
  at_open : c_closed c = false;
  at_rx : c_rx c = [];
  at_writes : c_writes c = [];
  at_deadlines : c_deadlines c = [];
  at_peer : c_peer c = p;
}.

(** The client's connection [id] is attached to [p]. *)
Definition plugged (id : nat) (p : PLC) (w : World) : Prop :=
  calm w ∧ ∃ c, get_conn w id = Some c ∧ attached p c.

Lemma interfere_calm w : calm w → interfere w = on_env pop_schedule w.
Proof. intros [Hs _ _ _]. unfold interfere. by rewrite Hs. Qed.

Lemma calm_ctx w l : calm w → ctx_err w l = None.
Proof. intros [_ _ Hc _]. unfold ctx_err. by destruct l; rewrite !Hc. Qed.

#[export] Instance calm_stable : Stable calm.
Proof. intros w Hw. rewrite interfere_calm by done. destruct Hw as [Hs ? ? ?]. constructor; try done. cbn. by rewrite Hs. Qed.
#[export] Instance plugged_stable id p : Stable (plugged id p).
Proof. intros w [Hw Hc]. split; [by apply stable|]. by rewrite interfere_calm. Qed.

Lemma calm_same_env w w' : calm w → schedule (env w') = schedule (env w) → closer (env w') = closer (env w) →
  ctxDone (env w') = ctxDone (env w) → lifeCanceled (client w') = lifeCanceled (client w) → calm w'.
Proof. intros [] ????. constructor; congruence. Qed.

(** A step of the client that does not touch the environment. *)
Lemma plugged_on_client id p w f : plugged id p w → lifeCanceled (f (client w)) = lifeCanceled (client w) →
  plugged id p (on_client f w).
Proof. intros [Hw Hc] Hf. split; [by eapply calm_same_env|done]. Qed.

Lemma plugged_put id p p' w c : plugged id p w → attached p' c → plugged id p' (put_conn id c w).
Proof.
  intros [Hw (c0 & Hc0 & _)] Hc. split; [by eapply calm_same_env|]. exists c. split; [|done].
  rewrite get_put_conn by congruence. by rewrite decide_True.
Qed.

Lemma triple_ex {A B} (Pre : B → World → Prop) (m : M A) Post Er :
  (∀ x, triple (Pre x) m Post Er) → triple (λ w, ∃ x, Pre x w) m Post Er.
Proof. intros Hm w [x Hw]. by apply (Hm x). Qed.

(** *** The calls of an exchange, on a quiet network *)

(** The client is [c] and its connection [id] is attached to [p]. *)
Definition at_work (c : Client) (id : nat) (p : PLC) (w : World) : Prop := client w = c ∧ plugged id p w.

#[export] Instance client_stable_calm c id p : Stable (at_work c id p).
Proof. intros w [Hc Hw]. split; [|by apply stable]. rewrite interfere_calm; [done|apply Hw]. Qed.

Lemma quiet_ctxErr c id p l Er : triple (at_work c id p) (ctxErr l) (λ v w, v = None ∧ at_work c id p w) Er.
Proof. apply triple_atomically; [apply _|]. intros w Hw. split; [apply calm_ctx, Hw|done]. Qed.

Lemma quiet_get {A} (f : Client → A) c id p Er : triple (at_work c id p) (get f) (λ a w, a = f c ∧ at_work c id p w) Er.
Proof. apply triple_atomically; [apply _|]. intros w Hw. cbn. split; [|done]. by destruct Hw as [-> _]. Qed.

Lemma quiet_derive c id p l Er : triple (at_work c id p) (derive l) (λ _ w, at_work c id p w) Er.
Proof.
  intros w (Hc & [Hs Hcl Hx Hl] & Hcn). split; [done|]. split; [|done]. constructor; try done.
  intros l'. cbn. by case_decide.
Qed.

Lemma quiet_setDeadline c id p Er : triple (at_work c id p) (setDeadline id) (λ e w, e = None ∧ at_work c id p w) Er.
Proof.
  apply triple_atomically; [apply _|]. intros w (Hc & Hw & cn & Hcn & Ha). rewrite Hcn.
  destruct Ha as [Ho Hrx Hwr Hd Hp]. rewrite Ho, Hd. cbn. split; [done|]. split; [done|].
  apply (plugged_put id p p); [split; [done|by exists cn]|]. constructor; try done.
Qed.

(** With no context done and no Close begun, the free gate is the only case. *)
Lemma quiet_acquire (I J : World → Prop) Er : Stable I → Stable J → (∀ w, I w → calm w) → (∀ w, J w → calm w) →
  (∀ w, gate (client w) = false → I w → J (on_env pop_select (on_client (set_gate true) w))) →
  triple (λ w, gate (client w) = false ∧ I w) acquire (λ _ w, J w) Er.
Proof.
  intros HI HJ Hci Hcj Hgate. assert (Stable (λ w, gate (client w) = false ∧ I w)).
  { intros w [Hg Hw]. split; [|by apply stable]. by rewrite interfere_calm by auto. }
  unfold acquire. apply (triple_bind _ _ (λ case w, case = Some CaseGate ∧ J w)).
  - apply triple_atomically; [done|]. intros w [Hg Hw]. cbn [fst snd].
    assert (select_case w = Some CaseGate) as ->.
    { unfold select_case, ready_cases. rewrite Hg, (ca_life w), (calm_ctx w Caller) by auto. cbn [length app].
      by rewrite bool_decide_true, Nat.mod_1_r by done. }
    split; [done|]. rewrite bool_decide_true by done. by apply Hgate.
  - intros case. apply triple_pure. intros ->.
    apply (triple_bind _ _ (λ b w, b = false ∧ J w)).
    + apply triple_atomically; [apply _|]. intros w Hw. split; [by apply ca_life, Hcj|done].
    + intros b. apply triple_pure. intros ->. by apply triple_ret.
Qed.

(** The bytes on their way to the client. *)
Definition arriving (c : Client) (id : nat) (p : PLC) (frame : list Z) (w : World) : Prop :=
  client w = c ∧ calm w ∧ ∃ cn, get_conn w id = Some cn ∧ c_closed cn = false ∧ c_rx cn = [Chunk frame] ∧
    c_writes cn = [] ∧ c_deadlines cn = [] ∧ c_peer cn = p.

#[export] Instance arriving_stable c id p frame : Stable (arriving c id p frame).
Proof.
  intros w (Hc & Hw & Hcn). pose proof (stable w Hw). rewrite interfere_calm in * by done. by split.
Qed.

Lemma quiet_writeFull c id p p' frame reply Er : frame ≠ [] → plc_answer p frame = (p', [Chunk reply]) →
  triple (at_work c id p) (writeFull id frame)
    (λ r w, r = (zlen frame, None) ∧ arriving c id p' reply w) Er.
Proof.
  intros Hf Hp. apply triple_atomically; [apply _|]. intros w (Hc & Hw & cn & Hcn & Ha). rewrite Hcn.
  destruct Ha as [Ho Hrx Hwr Hd Hpeer]. rewrite Ho, Hwr, Hrx, Hpeer.
  change (default [] (head [])) with (@nil (Z * option error)).
  assert (WriteFull [] frame = (frame, (zlen frame, None))) as ->.
  { unfold WriteFull. cbn [WriteFullFrom]. zlen_pos. destruct frame as [|b frame]; [done|].
    assert ((0 <? zlen (b :: frame)) = true) as -> by zlia. done. }
  cbn [answer PLC_peer]. rewrite Hp. cbn [fst snd app tail].
  split; [done|]. split; [done|]. split; [by eapply calm_same_env|]. eexists. split.
  - rewrite get_put_conn by congruence. by rewrite decide_True.
  - done.
Qed.

Lemma quiet_readFrame c id p frame maxFrameBytes Er : maxFrameBytes ≤ maxTPKTLength →
  tpkt maxFrameBytes frame → bytes frame →
  triple (arriving c id p frame) (readFrame id maxFrameBytes) (λ r w, r = Ok frame ∧ at_work c id p w) Er.
Proof.
  intros Hm Ht Hb. apply triple_atomically; [apply _|].
  intros w (Hc & Hw & cn & Hcn & Ho & Hrx & Hwr & Hd & Hp). rewrite Hcn, Ho, Hrx, ReadFrame_chunk by done.
  cbn [fst snd]. split; [done|]. split; [done|]. split; [by eapply calm_same_env|]. eexists. split.
  - rewrite get_put_conn by congruence. by rewrite decide_True.
  - by constructor.
Qed.

(** The client of a ready session on connection [id]. *)
Record ready_client (id : nat) (c : Client) : Prop := {
  rc_state : state c = StateReady;
  rc_conn : conn c = Some id;
  rc_valid : limitsValid c = true;
  rc_limits : limits_ok (config c) (limits c);
}.

(** One exchange with a PLC that answers. *)
Lemma quiet_exchange operation c id p p' request reply : ready_client id c →
  zlen request ≤ NegotiatedPDU (limits c) → zlen reply ≤ NegotiatedPDU (limits c) → bytes reply →
  plc_answer p (data_frame 0x80 request) = (p', [Chunk (data_frame 0x80 reply)]) →
  triple (at_work c id p) (exchange operation request)
    (λ r w, r = (true, Ok reply) ∧ ∃ t, at_work (set_lastActivity t c) id p' w) never.
Proof.
  intros [Hst Hcn Hv [Hpdu Hreq Htpdu Hframe _ _]] Hrq Hrp Hb Hp. unfold exchange.
  eapply triple_bind; [apply quiet_ctxErr|]. intros v. cbn beta. apply triple_pure. intros ->.
  eapply triple_bind; [apply quiet_derive|]. intros [].
  eapply triple_bind; [apply quiet_get|]. intros a. cbn beta. apply triple_pure. intros ->.
  rewrite Hcn, Hst, Hv. rewrite bool_decide_true by done. cbn [negb orb].
  destruct (_ >? _) eqn:E; [lia|]. clear E. rewrite WrapData_spec.
  rewrite decide_True by iso_lia. rewrite zlen_data_frame. destruct (_ >? _) eqn:E; [iso_lia|]. clear E.
  eapply triple_bind; [apply quiet_setDeadline|]. intros e. cbn beta. apply triple_pure. intros ->.
  eapply triple_bind; [by apply (quiet_writeFull c id p p' _ (data_frame 0x80 reply))|].
  intros [n err]. cbn beta iota. apply triple_pure. intros [= -> ->].
  unfold exchange_response. eapply triple_bind.
  { apply quiet_readFrame; [lia|apply tpkt_data_frame; lia|by apply bytes_data_frame]. }
  intros r. cbn beta. apply triple_pure. intros ->. rewrite zlen_data_frame.
  destruct (_ >? _) eqn:E; [iso_lia|]. clear E. rewrite UnwrapData_frame by (done || iso_lia).
  destruct (_ >? _) eqn:E; [lia|]. clear E.
  apply (triple_bind _ _ (λ _ w, ∃ t, at_work (set_lastActivity t c) id p' w)); [|by intros []; apply triple_ret].
  apply triple_atomically; [apply _|]. intros w (Hc & Hw). cbn [fst snd].
  exists (clock (env w)). split; [by rewrite <-Hc|by apply plugged_on_client].
Qed.
(** ** An open session *)

(** A PLC that holds the memory [m] and serves every request. *)
Record serving (m : Memory) (s : Server) : Prop := {
  sv_memory : memory s = m;
  sv_typed : byte_memory m;
  sv_reject : rejectNextItem s = 0;
  sv_drop : dropNextWriteResponse s = false;
}.

Lemma serving_typed m s : serving m s → memory_typed s.
Proof. intros [<- ? _ _]. done. Qed.
Lemma serving_first_code m s : serving m s → first_code s = 0xff.
Proof. intros [_ _ Hr _]. unfold first_code. by rewrite Hr. Qed.
Lemma serving_after_reject m s : serving m s → after_reject s = s.
Proof. intros [_ _ Hr _]. unfold after_reject. by rewrite Hr. Qed.
Lemma serving_logged m s f c z : serving m s → serving m (logged f c z s).
Proof. intros []. by constructor. Qed.

Lemma serving_after_read m s items : serving m s → serving m (after_read items s).
Proof.
  intros Hs. unfold after_read. rewrite (serving_after_reject m) by (by apply serving_logged).
  destruct Hs. by constructor.
Qed.

Lemma serving_after_write m s items : Forall fitting items → serving m s →
  serving (written_all items m) (after_write items s).
Proof.
  intros Hf Hs. unfold after_write, write_effect. apply (serving_logged m s functionWriteVar (zlen items) (WriteRequestSize items)) in Hs.
  rewrite (serving_first_code _ _ Hs), (serving_after_reject _ _ Hs). destruct Hs as [Hm Ht Hr Hd].
  constructor; cbn; [|by apply written_all_byte_memory|done|done]. cbn in Hm. by rewrite Hm.
Qed.

(** The client has an open session with a PLC that holds [m]. *)
Definition online (cfg : normalizedConfig) (n : Z) (m : Memory) (w : World) : Prop :=
  settled w ∧ ∃ c id s, at_work c id (ready_plc s) w ∧ ready_client id c ∧ config c = cfg ∧
    NegotiatedPDU (limits c) = n ∧ serving m s.

#[export] Instance online_stable cfg n m : Stable (online cfg n m).
Proof.
  intros w [Hs (c & id & s & Hw & ?)]. split; [by apply stable|]. exists c, id, s.
  split; [by apply client_stable_calm|done].
Qed.

(** A step on the client that leaves the session alone. *)
Lemma online_on_client cfg n m w f : online cfg n m w → inv None (on_client f w) →
  (∀ c, state (f c) = state c ∧ conn (f c) = conn c ∧ limitsValid (f c) = limitsValid c ∧
        config (f c) = config c ∧ limits (f c) = limits c ∧ lifeCanceled (f c) = lifeCanceled c) →
  online cfg n m (on_client f w).
Proof.
  intros [[_ Hs] (c & id & s & (<- & Hw) & [Hst Hcn Hv Hl] & Hcfg & Hn & Hsv)] Hi Hf.
  destruct (Hf (client w)) as (E1 & E2 & E3 & E4 & E5 & E6). split; [split; [done|cbn; congruence]|].
  exists (f (client w)), id, s. split; [split; [done|by apply plugged_on_client]|].
  split; [constructor; congruence|]. by rewrite E4, E5.
Qed.

Lemma online_gate cfg n m b w : online cfg n m w → online cfg n m (on_client (set_gate b) w).
Proof. intros Hw. apply online_on_client; [done| |done]. apply inv_set_gate, Hw. Qed.

(** A step on the environment that leaves it calm. *)
Lemma online_on_env cfg n m f w : online cfg n m w → inv None (on_env f w) → calm (on_env f w) →
  conns (f (env w)) = conns (env w) → online cfg n m (on_env f w).
Proof.
  intros [[_ Hs] (c & id & s & (Hc & _ & Hcn) & ?)] Hi Hcalm He. split; [done|].
  exists c, id, s. split; [|done]. split; [done|]. split; [done|]. unfold get_conn in *. cbn. by rewrite He.
Qed.

Lemma online_calm cfg n m w : online cfg n m w → calm w.
Proof. intros [_ (? & ? & ? & (_ & ? & _) & _)]. done. Qed.

(** *** The steps of an operation on an open session *)

Lemma online_ctxErr cfg n m l Er :
  triple (online cfg n m) (ctxErr l) (λ v w, v = None ∧ online cfg n m w) Er.
Proof.
  apply triple_atomically; [apply _|]. intros w Hw. split; [|done]. by eapply calm_ctx, online_calm.
Qed.

Lemma online_config cfg n m Er :
  triple (online cfg n m) (get config) (λ a w, a = cfg ∧ config_ok cfg ∧ online cfg n m w) Er.
Proof.
  apply triple_atomically; [apply _|]. intros w Hw. cbn. pose proof Hw as [[Hi _] (c & id & s & (Hc & _) & _ & <- & _)].
  split; [by rewrite Hc|]. split; [|done]. rewrite <-Hc. apply (i_config _ _ Hi).
Qed.

Lemma online_derive cfg n m l Er : triple (online cfg n m) (derive l) (λ _ w, online cfg n m w) Er.
Proof.
  intros w Hw. pose proof (online_calm _ _ _ _ Hw) as [? ? Hx ?].
  apply online_on_env; [done|apply inv_derive, Hw| |done]. constructor; try done. intros l'. cbn. by case_decide.
Qed.

Lemma online_ready cfg n m operation Er :
  triple (online cfg n m) (readyPDU operation) (λ r w, r = n ∧ online cfg n m w) Er.
Proof.
  unfold readyPDU. set (f := λ c, _).
  apply (triple_bind _ _ (λ r w, r = inr n ∧ online cfg n m w)).
  - apply triple_atomically; [apply _|]. intros w Hw. split; [|done].
    pose proof Hw as [_ (c & id & s & (Hc & _) & [Hst Hcn Hv _] & _ & Hn & _)].
    cbn. rewrite Hc. unfold f. by rewrite Hst, Hcn, Hv, Hn.
  - intros r. apply triple_pure. intros ->. by apply triple_ret.
Qed.

Lemma online_reference cfg n m w r : is_u16 r → online cfg n m w → online cfg n m (on_client (set_reference r) w).
Proof.
  intros Hr Hw. apply online_on_client; [done| |done]. destruct Hw as [[Hi _] _]. by destruct Hi; constructor.
Qed.

Lemma online_acquire cfg n m Er :
  triple (λ w, gate (client w) = false ∧ online cfg n m w) acquire (λ _ w, online cfg n m w) Er.
Proof.
  apply quiet_acquire; [apply _|apply _|apply online_calm|apply online_calm|].
  intros w Hg Hw. apply (online_gate _ _ _ true) in Hw. apply online_on_env; [done|apply inv_pop_select, Hw| |done].
  apply online_calm in Hw. by destruct Hw.
Qed.

(** An exchange the PLC answers. *)
Lemma online_exchange operation cfg n m m' request (Q : list Z → Prop) : zlen request ≤ n →
  (∀ s, serving m s → ∃ s' reply, serving m' s' ∧ Q reply ∧ bytes reply ∧ zlen reply ≤ n ∧
     plc_answer (ready_plc s) (data_frame 0x80 request) = (ready_plc s', [Chunk (data_frame 0x80 reply)])) →
  triple (online cfg n m) (exchange operation request)
    (λ r w, ∃ reply, r = (true, Ok reply) ∧ Q reply ∧ bytes reply ∧ online cfg n m' w) never.
Proof.
  intros Hrq Hserve w [Hset (c & id & s & Hw & Hrc & Hcfg & Hn & Hsv)].
  destruct (Hserve s Hsv) as (s' & reply & Hsv' & HQ & Hb & Hrp & Hp).
  pose proof (quiet_exchange operation c id _ _ request reply Hrc ltac:(lia) ltac:(lia) Hb Hp w Hw) as Hx.
  assert (in_state (state (client w)) w) as Hst by (by intros _).
  pose proof (exchange_triple operation request _ _ _ (never (P:=PLC)) w (conj (conj (conj Hset Hst) eq_refl) eq_refl)) as Hset'.
  destruct (exchange operation request w) as [[r|e|] w']; [|done|done].
  destruct Hx as (-> & t & Hw'), Hset' as (Hset' & _). exists reply. do 3 (split; [done|]). split; [done|].
  exists (set_lastActivity t c), id, s'. split; [done|]. split; [by destruct Hrc|]. done.
Qed.

(** The payload of a frame the PLC sends. *)
Lemma payload_of_frame n reply : bytes reply → zlen reply ≤ n → n ≤ 960 →
  payload_of n (Some (data_frame 0x80 reply)) = Some reply.
Proof.
  intros Hb Hz Hn. unfold payload_of. rewrite UnwrapData_frame by (done || iso_lia).
  by assert (zlen reply >? n = false) as -> by lia.
Qed.

(** The client's session when no operation is in progress. *)
Definition in_session (cfg : normalizedConfig) (n : Z) (m : Memory) (w : World) : Prop :=
  gate (client w) = false ∧ online cfg n m w.

#[export] Instance in_session_stable cfg n m : Stable (in_session cfg n m).
Proof. intros w [Hg Hw]. split; [|by apply stable]. by rewrite interfere_calm by by eapply online_calm. Qed.

Lemma in_session_release cfg n m w : online cfg n m w → in_session cfg n m (release_gate w).
Proof. intros Hw. split; [done|]. apply online_gate. by apply stable. Qed.

(** What every operation does first and last. *)
Lemma in_session_caller {B} cfg n m (failed : errvar → M B) (go : M B) Post :
  triple (in_session cfg n m) go Post never →
  triple (in_session cfg n m) (err ← ctxErr Caller; match err with Some err => failed err | None => go end) Post never.
Proof.
  intros Hg. apply (triple_bind _ _ (λ v w, v = None ∧ in_session cfg n m w)).
  - apply triple_atomically; [apply _|]. intros w Hw. split; [|done]. by eapply calm_ctx, online_calm, Hw.
  - intros v. apply triple_pure. by intros ->.
Qed.

Lemma in_session_config cfg n m Er :
  triple (in_session cfg n m) (get config) (λ a w, a = cfg ∧ config_ok cfg ∧ in_session cfg n m w) Er.
Proof.
  intros w [Hg Hw]. pose proof (online_config cfg n m Er w Hw) as Hx. unfold get, atomically in *.
  destruct Hx as (? & ? & ?). split; [done|]. split; [done|]. split; [|done].
  by rewrite interfere_calm by by eapply online_calm.
Qed.

Lemma in_session_gated {B} cfg n m (failed : error → M B) (go : M B) Post :
  triple (online cfg n m) go (λ b w, Post b (release_gate w)) never →
  triple (in_session cfg n m)
    (acquired ← try acquire;
     match acquired with
     | Panic => lift Panic
     | Err err => failed err
     | Ok _ => deferred release_gate (_ ← derive Operation; go)
     end) Post never.
Proof.
  intros Hg. eapply triple_bind; [apply try_triple, (online_acquire cfg n m never)|].
  intros [u|e|]; cbn beta; [|by intros w []|by intros w []].
  apply (deferred_triple _ _ (λ b w, Post b (release_gate w)) never); [|done|by intros e w []].
  eapply triple_bind; [apply online_derive|]. by intros [].
Qed.
End run.
