(* ===== verification/EndToEndRead.v ===== *)
(** * EndToEndRead: reads from the scripted PLC

    Over an open session with a PLC that holds a memory, [Read] and [ReadArea]
    return what the memory holds, whatever the PDU size cuts the items into. *)

From stdpp Require Import gmap.
From S2P Require Import Errors Protocol IsoTCP Config Item Planner Session SessionProofs DataPlane ReadProofs TestPLC PLCProofs PLCMemory EndToEnd.

Section read.
Local Abbreviation World := (@World PLC).
Implicit Type w : World.

(** The results of a batch of fragments. *)
Definition batch_results (m : Memory) (batch : list readFragment) : list Protocol.ItemResult :=
  (λ f, Protocol.mkItemResult 0xff (contents m (item f))) <$> batch.

Lemma serving_results m s batch : serving m s → read_results s (item <$> batch) = batch_results m batch.
Proof.
  intros Hs. pose proof (sv_memory _ _ Hs) as Hm. unfold batch_results.
  assert (∀ i, read_result_of s i = Protocol.mkItemResult 0xff (contents m i)) as Hr
    by (intros i; unfold read_result_of; by rewrite Hm).
  destruct batch as [|f batch]; [done|]. rewrite !fmap_cons. cbn [read_results].
  rewrite (serving_first_code _ _ Hs), Hr. change (255 =? 255) with true. cbv iota.
  rewrite <-list_fmap_compose. f_equal. apply list_fmap_ext. intros k g _. apply Hr.
Qed.

(** The PLC answers a read request with the bytes it holds. *)
Lemma serving_reads m s reference batch : serving m s → is_u16 reference → reference ≠ 0 →
  Forall plc_item (item <$> batch) → 1 ≤ zlen batch ≤ 255 →
  ReadResponseSize (item <$> batch) ≤ maxTPKTLength - DataHeaderSize →
  ∃ s' reply, serving m s' ∧
    ParseReadResponse reply reference (item <$> batch) = Ok (batch_results m batch, 0) ∧ bytes reply ∧
    zlen reply ≤ ReadResponseSize (item <$> batch) ∧
    plc_answer (ready_plc s) (data_frame 0x80
      (job_pdu reference (variable_block functionReadVar (item <$> batch)) []))
    = (ready_plc s', [Chunk (data_frame 0x80 reply)]).
Proof.
  intros Hs Hr Hr0 Hi Hn Hsize. pose proof (plc_valid _ Hi) as Hvi.
  destruct (plc_reads s reference (item <$> batch)) as (d & Hd & Hrd & Hb); try done.
  { by eapply serving_typed. }
  { by rewrite (serving_first_code _ _ Hs). }
  { by rewrite zlen_map. }
  rewrite zlen_map in *. rewrite (serving_results m) in Hrd by done.
  pose proof (read_data_size _ _ _ _ _ Hrd Hvi) as [Hdl _].
  unfold ReadResponseSize, ackHeaderSize in *. rewrite zlen_map in *.
  assert (bytes (ack_pdu reference [functionReadVar; zlen batch] d 0)) as Hbytes.
  { apply bytes_ack_pdu; [|done]. rewrite !Forall_cons, Forall_nil. unfold is_u8, functionReadVar. lia. }
  eexists _, _. split; [by apply serving_after_read|]. split; [|split; [exact Hbytes|split; [zlia|exact Hd]]].
  apply ParseReadResponse_spec; [done|done|]. split; [done|]. split; [done|].
  exists [functionReadVar; zlen batch], d, 0. zlen_pos. split; [done|]. split; [done|].
  split; [unfold MaxUint16; iso_lia|]. split; [done|]. split; [done|]. right. split; [done|].
  rewrite zlen_map. done.
Qed.

Lemma online_limits cfg n m w : online cfg n m w →
  240 ≤ n ≤ 960 ∧ config (client w) = cfg ∧ config_ok cfg.
Proof.
  intros [[Hi _] (c & id & s & (Hc & _) & [_ _ _ []] & <- & <- & _)]. split; [lia|]. rewrite <-Hc.
  split; [done|]. apply (i_config _ _ Hi).
Qed.

Context (cfg : normalizedConfig) (n : Z) (m : Memory) (its : list ReadItem) (lens : list Z) (maxItemBytes : Z).
Hypothesis (Hpl : Forall2 (planned maxItemBytes) its lens).
Hypothesis (Hmany : zlen (all_fragments n 0 its lens) ≤ MaxFragmentsPerCall (nConfig cfg)).

(** No read of a calm session fails. *)
#[local] Instance plc_read_wire :
  ReadWire its lens n (online cfg n m) (λ _, online cfg n m) (λ _, from_memory m n its lens)
    (λ _ _ _, False) (λ _ _ _, False) (λ _ _, False) (λ _ _, False).
Proof.
  constructor.
  - intros w Hw. destruct (online_limits cfg n m w Hw) as [Hn _].
    pose proof (try_triple _ _ _ _ (never (P:=PLC)) (online_ready cfg n m "read" never) w Hw) as Hx.
    destruct (try _ w) as [[[k|e|]|e|] w']; try done. destruct Hx as [-> Hx]. split; [lia|done].
  - intros _. apply _.
  - intros _ w Hw. by destruct (online_limits cfg n m w Hw) as (_ & -> & ?).
  - intros _ w msg Hw Hx. destruct (online_limits cfg n m w Hw) as (_ & Hc & _). rewrite Hc in Hx. lia.
  - intros _ w r Hr Hw. by apply online_reference.
  - intros _. eapply triple_conseq; [apply online_ctxErr|done| |done]. by intros v w [-> Hw].
  - by intros _ v w [].
  - intros tr batch reference request Href Hne Hok (Hb20 & Hrq & Hrs) Hin Hreq. apply triple_world. intros w0 Hw0. destruct (online_limits cfg n m w0 Hw0) as [Hn _].
    assert (Forall plc_item (item <$> batch)) as Hitems.
    { apply Forall_fmap. eapply Forall_impl; [exact Hin|]. intros f Hf.
      destruct (all_fragments_in maxItemBytes n its lens f ltac:(lia) Hpl 0 Hf) as (k & i & len & _ & _ & _ & Hpi & Hr & Ha & Hfr).
      rewrite Hfr. apply (fragment_contents maxItemBytes n i len (0 + Z.of_nat k) (offset f) m); [lia|done..]. }
    assert (1 ≤ zlen batch ≤ 255) as Hbn.
    { unfold CompatibilityMaxItemsPerPDU in *. destruct batch; [done|]. zlia. }
    assert (is_u16 reference ∧ reference ≠ 0) as [Hr16 Hr0] by (unfold MaxUint16, is_u16 in *; lia).
    pose proof (BuildReadRequest_spec reference (item <$> batch) Hr16
      (Forall_impl _ _ _ (plc_valid _ Hitems) valid_typed)) as Hb. rewrite Hreq in Hb.
    destruct Hb as (_ & -> & Hz). rewrite zlen_map in Hz.
    eapply triple_conseq; [apply (online_exchange "read" cfg n m m _
      (λ reply, ParseReadResponse reply reference (item <$> batch) = Ok (batch_results m batch, 0)))|by intros w <-| |done].
    + lia.
    + intros s Hs. destruct (serving_reads m s reference batch) as (s' & reply & ? & ? & ? & ? & ?); try done.
      { iso_lia. } exists s', reply. split_and!; try done. lia.
    + intros r w (reply & -> & HQ & Hbytes & Hw). cbn [snd]. split; [done|]. rewrite HQ.
      eexists (mkAttempt _ batch reference n O _ (Some (data_frame 0x80 reply))).
      split; [split; [done|]; eexists; split; [exact Hreq|]; by apply transferred_whole, bytes_data_frame|].
      split; [done|]. split; [done|]. intros _. unfold batch_results. clear -Hin Hpl Hn Hitems. induction Hin as [|f batch Hf _ IH]; [constructor|].
      rewrite !fmap_cons. apply Forall_cons in Hitems as [Hi Hitems]. constructor; [|by apply IH].
      unfold wire_ok. cbn. split; [by apply zlen_contents|done].
  - by intros tr e w [].
  - done.
  - by intros tr a f code [].
Qed.

Lemma plc_item_read (k : nat) i len buf r p : 32 ≤ n → its !! k = Some i → lens !! k = Some len →
  item_read (from_memory m n its lens) (read_error (λ _ _, False) None) buf len (Z.of_nat k) r p →
  RErr r = None ∧ visible (RData r) = stored m i ∧ p = len ∧
  array (RData r) = stored m i ++ drop (length (stored m i)) buf.
Proof.
  intros Hn Hi Hl [(x & Hx & Hp & Ha) _ Hs Hc He].
  assert (RErr r = None) as Hr.
  { destruct (RErr r) as [e|]; [|done]. by destruct (He e eq_refl) as [(f & code & _ & _ & [] & _)|[=]]. }
  split; [done|]. specialize (Hc Hr). subst p.
  assert (planned maxItemBytes i len) as Hpi.
  { rewrite Forall2_lookup in Hpl. specialize (Hpl k). rewrite Hi, Hl in Hpl. by inversion Hpl. }
  assert (x = stored m i) as <-.
  { rewrite (assembled_stored maxItemBytes m n its lens k i x Hn Hpl Hi Hx).
    rewrite Hc. rewrite <-(zlen_stored maxItemBytes m i len Hpi) at 1. rewrite sub_full; [done|lia..]. }
  split; [|by split]. unfold visible. rewrite Hs, Ha, sub_0. unfold zlen. by rewrite Nat2Z.id, take_app_length.
Qed.

(** [readLocked] with buffers of the right lengths. *)
Lemma plc_readLocked destinations : maxItemBytes < 2 ^ 32 → total lens ≤ MaxInt →
  Forall2 (λ buf len, len = zlen buf) (buffers_of lens destinations) lens →
  triple (online cfg n m) (readLocked its lens destinations)
    (λ out w, out.2 = None ∧ online cfg n m w ∧
       ∃ bufs, (bufs = buffers_of lens destinations ∨ bufs = replicate (length lens) []) ∧
         each (item_read (from_memory m n its lens) (read_error (λ _ _, False) None)) 0 bufs lens out.1.1 out.1.2) never.
Proof.
  intros Hmax Htot Hbufs.
  eapply triple_conseq; [by apply (readLocked_triple maxItemBytes destinations)|done| |done].
  intros [[rs ps] [e|]] w (bufs & Hb & trace & _ & He & Hw); [done|].
  split; [done|]. split; [done|]. by exists bufs.
Qed.
End read.

(** ** Read *)

(** The results of a read of [input]. *)
Definition plc_read_post (m : Memory) (input : list ReadItem) (out : list ReadResult * option error) : Prop :=
  out.2 = None ∧ Forall2 (λ i r, visible (RData r) = stored m i ∧ RErr r = None) input out.1.

Lemma each_Forall2 Q n bufs lens rs ps : each Q n bufs lens rs ps → ∀ its (R : ReadItem → ReadResult → Prop),
  length its = length lens →
  (∀ (k : nat) i buf len r p, its !! k = Some i → lens !! k = Some len → bufs !! k = Some buf →
     Q buf len (n + Z.of_nat k) r p → R i r) → Forall2 R its rs.
Proof.
  induction 1 as [|n buf bufs len lens r rs p ps Hq _ IH]; intros [|i its] R Hl HR; try done; constructor.
  - eapply (HR O); [done..|]. by rewrite Z.add_0_r.
  - apply IH; [by injection Hl|]. intros k i' buf' len' r' p' ????. eapply (HR (S k)); [done..|].
    by replace (n + Z.of_nat (S k)) with (n + 1 + Z.of_nat k) by lia.
Qed.

Lemma lens_buffers lens : Forall (λ len, 0 ≤ len) lens → Forall2 (λ buf len, len = zlen buf) (make <$> lens) lens.
Proof. induction 1; constructor; [by rewrite zlen_make|done]. Qed.

Lemma plc_Read cfg n m input : Forall read_item_values input → acceptable_reads (nConfig cfg) input →
  zlen (all_fragments n 0 input (item_length <$> input)) ≤ MaxFragmentsPerCall (nConfig cfg) →
  triple (in_session cfg n m) (Read input) (λ out w, plc_read_post m input out ∧ in_session cfg n m w) never.
Proof.
  intros Hvals Hacc Hmany. unfold Read. apply in_session_caller.
  eapply triple_bind; [apply in_session_config|]. intros a. cbn beta. apply triple_pure. intros ->.
  apply triple_pure. intros [Hcfg _ _].
  pose proof (prepareReads_spec (nConfig cfg) input Hcfg Hvals) as Hprep.
  destruct (prepareReads (nConfig cfg) input) as [[its lens]|e|]; [|done..].
  destruct Hprep as ((_ & _ & Htotal) & -> & -> & Hpl).
  apply in_session_gated. apply triple_world. intros w0 Hw0. pose proof (online_limits cfg n m w0 Hw0) as (Hn & _).
  eapply triple_bind.
  { eapply triple_pre; [|by intros w <-; exact Hw0]. apply (plc_readLocked cfg n m input _ (MaxItemBytes (nConfig cfg))); try done.
    - destruct Hcfg. lia.
    - destruct Hcfg. unfold MaxInt. lia.
    - by apply lens_buffers, (planned_nonneg (MaxItemBytes (nConfig cfg)) input). }
  intros [[rs ps] err]. cbn beta. apply triple_ret. cbn [fst snd]. intros w (-> & Hw & bufs & _ & He).
  split; [|by apply in_session_release]. split; [done|]. cbn [fst].
  eapply each_Forall2; [exact He|by rewrite length_fmap|]. intros k i buf len r p Hi Hl _ Hr.
  destruct (plc_item_read n m input _ _ Hpl k i len buf r p ltac:(lia) Hi Hl Hr) as (? & ? & _). done.
Qed.

(** ** ReadArea *)

Lemma plc_ReadArea cfg n m area dbNumber start dst (i := mkReadItem (mkAddress area dbNumber start 0) TransportByte (zlen dst)) :
  is_u8 area → is_u16 dbNumber → is_u32 start → acceptable_reads (nConfig cfg) [i] →
  zlen (all_fragments n 0 [i] [zlen dst]) ≤ MaxFragmentsPerCall (nConfig cfg) →
  triple (in_session cfg n m) (ReadArea area dbNumber start dst)
    (λ out w, out = (zlen dst, None, stored m i) ∧ in_session cfg n m w) never.
Proof.
  intros Ha Hd Hs Hacc Hmany. unfold ReadArea. apply in_session_caller.
  eapply triple_bind; [apply in_session_config|]. intros a. cbn beta. apply triple_pure. intros ->.
  apply triple_pure. intros [Hcfg _ _].
  assert (item_length i = zlen dst) as Hlen by (unfold item_length, item_bytes; cbn; lia).
  pose proof Hacc as (_ & Hvalid & Htotal). cbn [fmap list_fmap] in Htotal. rewrite Hlen in Htotal.
  assert (zlen dst ≤ MaxBatchBytes (nConfig cfg)) as Hbatch by (unfold total in Htotal; cbn in Htotal; lia).
  apply Forall_cons in Hvalid as [(_ & Hpos & _ & Hitem & _) _]. change (item_length i ≤ MaxItemBytes (nConfig cfg)) in Hitem.
  rewrite Hlen in Hitem. change (0 < zlen dst) in Hpos.
  destruct (zlen dst =? 0) eqn:E; [lia|]. clear E.
  destruct (_ || _) eqn:E; [destruct Hcfg; unfold MaxUint32 in E; lia|]. clear E.
  assert (is_u32 (zlen dst)) as Hu by (destruct Hcfg; unfold is_u32; lia).
  rewrite (u32_id _ Hu). fold i.
  assert (read_item_values i) as Hv by (constructor; [by constructor|done|done]).
  pose proof (prepareReads_spec (nConfig cfg) [i] Hcfg ltac:(by constructor)) as Hprep.
  destruct (prepareReads (nConfig cfg) [i]) as [[its lens]|e|]; [|done..].
  destruct Hprep as (_ & -> & -> & Hpl). cbn [fmap list_fmap] in *. rewrite Hlen in *.
  apply in_session_gated. apply triple_world. intros w0 Hw0. pose proof (online_limits cfg n m w0 Hw0) as (Hn & _).
  eapply triple_bind.
  { eapply triple_pre; [|by intros w <-; exact Hw0].
    apply (plc_readLocked cfg n m [i] _ (MaxItemBytes (nConfig cfg)) Hpl Hmany (Some [dst])).
    - destruct Hcfg. lia.
    - destruct Hcfg. unfold MaxInt. lia.
    - by repeat constructor. }
  intros [[rs ps] err]. cbn beta. cbn [fst snd]. intros w (-> & Hw & bufs & Hbufs & He).
  inversion He as [|? buf bufs' len lens r rs' p ps' Hr Hrest]; subst. inversion Hrest; subst. cbn [lift].
  change (elem [r] 0) with (Ok (E:=error) r). change (elem [p] 0) with (Ok (E:=error) p).
  destruct (plc_item_read n m [i] _ _ Hpl O i (zlen dst) buf r p ltac:(lia) eq_refl eq_refl Hr) as (Herr & _ & -> & Harr).
  assert (zlen (stored m i) = zlen dst) as Hst.
  { apply (zlen_stored (MaxItemBytes (nConfig cfg))). by inversion Hpl. }
  change ((zlen dst, RErr r, written_through dst r) = (zlen dst, None, stored m i) ∧ in_session cfg n m (release_gate w)).
  split; [|by apply in_session_release]. rewrite Herr. f_equal. unfold written_through. rewrite Harr.
  rewrite drop_ge, app_nil_r, Hst; [by destruct (zlen dst =? 0) eqn:E; [lia|]|].
  destruct Hbufs as [Hb|Hb]; injection Hb as ->; [unfold zlen in Hst; lia|apply Nat.le_0_l].
Qed.
