(* ===== verification/EndToEndWrite.v ===== *)
(** * EndToEndWrite: writes to the scripted PLC

    Over an open session with a PLC that serves every request, [Write]
    acknowledges every item and the memory of the PLC changes exactly as the
    items say, in order. *)

From stdpp Require Import gmap.
From S2P Require Import Errors Protocol IsoTCP Config Item Planner Session SessionProofs DataPlane ReadProofs WriteProofs TestPLC PLCProofs PLCMemory EndToEnd EndToEndRead.

Local Abbreviation World := (@World PLC).

(** The PLC answers a write request and takes the data. *)
Lemma serving_writes m s reference items : serving m s → is_u16 reference → reference ≠ 0 →
  Forall fitting items → 1 ≤ zlen items ≤ 255 → WriteRequestSize items ≤ maxTPKTLength - DataHeaderSize →
  ∃ s' reply, serving (written_all items m) s' ∧
    ParseWriteResponse reply reference (zlen items) = Ok (replicate (length items) 0xff, 0) ∧ bytes reply ∧
    zlen reply = WriteResponseSize (zlen items) ∧
    plc_answer (ready_plc s) (data_frame 0x80 (job_pdu reference
      (variable_block functionWriteVar (Protocol.WItem <$> items)) (write_data 0 (zlen items) items)))
    = (ready_plc s', [Chunk (data_frame 0x80 reply)]).
Proof.
  intros Hs Hr Hr0 Hf Hn Hsize.
  assert (Forall plc_item (Protocol.WItem <$> items)) as Hitems
    by (apply Forall_fmap; eapply Forall_impl; [exact Hf|]; by intros w [? _]).
  rewrite (plc_writes s reference items); try done; cycle 1.
  { by rewrite (serving_first_code _ _ Hs). }
  { apply Hs. }
  { eapply Forall_impl; [exact Hf|]. by intros w [_ (? & _)]. }
  { eapply Forall_impl; [exact Hf|]. by intros w [_ (_ & ? & _)]. }
  assert (first_code s :: replicate (length items - 1) 0xff = replicate (length items) 0xff) as ->.
  { rewrite (serving_first_code _ _ Hs). destruct items as [|w items]; [change (zlen []) with 0 in Hn; lia|].
    cbn [length replicate]. do 2 f_equal. lia. }
  assert (bytes (replicate (length items) 0xff)) as Hbr by (by apply Forall_replicate).
  assert (bytes (ack_pdu reference [functionWriteVar; zlen items] (replicate (length items) 0xff) 0)) as Hbytes.
  { apply bytes_ack_pdu; [|done]. rewrite !Forall_cons, Forall_nil. unfold is_u8, functionWriteVar. lia. }
  assert (zlen (replicate (length items) 0xff) = zlen items) as Hz by (rewrite zlen_replicate; done).
  eexists _, _. split; [by apply serving_after_write|]. split; [|split; [exact Hbytes|split; [|done]]].
  - apply ParseWriteResponse_spec; [done|done|]. split; [done|]. split; [done|].
    exists [functionWriteVar; zlen items], (replicate (length items) 0xff), 0. split; [done|]. split; [done|].
    split; [unfold MaxUint16; lia|]. split; [done|]. split; [done|]. right. by split_and!.
  - unfold WriteResponseSize, ackHeaderSize. zlia.
Qed.

(** The attempts of a write that was acknowledged throughout. *)
Definition acknowledged (a : write_attempt) : Prop := a_reply a = Some (replicate (length (a_batch a)) 0xff, 0).

Lemma acknowledged_rejected tr e : Forall acknowledged tr → ¬ rejected_in tr e.
Proof.
  intros Hall (a & codes & code & Ha & Hr & Hc & Hne & _). rewrite Forall_forall in Hall.
  specialize (Hall a Ha). unfold acknowledged in Hall. rewrite Hr in Hall. injection Hall as ->.
  by apply elem_of_replicate in Hc as [-> _].
Qed.

Lemma acknowledged_outcomes tr : Forall acknowledged tr →
  concat (outcomes <$> tr) = replicate (length (concat (a_batch <$> tr))) WriteAcknowledged.
Proof.
  induction 1 as [|a tr Ha _ IH]; [done|]. rewrite !fmap_cons. cbn [concat]. rewrite length_app, replicate_add, IH.
  f_equal. unfold outcomes. rewrite Ha. change (0 =? 0) with true. cbv iota. by rewrite fmap_replicate.
Qed.

(** The items that went out in some attempts. *)
Definition attempted (tr : list write_attempt) : list Protocol.WriteItem := wItem <$> concat (a_batch <$> tr).

Lemma attempted_snoc tr a : attempted (tr ++ [a]) = attempted tr ++ (wItem <$> a_batch a).
Proof. unfold attempted. rewrite fmap_app, concat_app, fmap_app. cbn. by rewrite app_nil_r. Qed.

Section write.
Implicit Type w : World.
Context (cfg : normalizedConfig) (n : Z) (m : Memory) (prepared : list preparedWrite).
Hypothesis (Hfit : Forall fitting (wItem <$> prepared)).
Hypothesis (Hover : oversized n prepared = false).

(** The session after the attempts [tr]. *)
Definition online_after (tr : list write_attempt) (w : World) : Prop :=
  Forall acknowledged tr ∧ online cfg n (written_all (attempted tr) m) w.

(** One exchange: the batch is acknowledged and in the memory. *)
Lemma plc_write_exchange tr batch reference request : Forall acknowledged tr →
  1 ≤ reference ≤ MaxUint16 → batch ≠ [] → write_batch_fits n batch →
  (∃ before after, prepared = before ++ batch ++ after) →
  BuildWriteRequest reference (wItem <$> batch) = Ok request →
  triple (online cfg n (written_all (attempted tr) m)) (exchange "write" request)
    (λ r w, ∃ payload a, r = (true, Ok payload) ∧ bytes payload ∧
       ParseWriteResponse payload reference (zlen batch) = Ok (replicate (length batch) 0xff, 0) ∧
       attempt_for batch (Some (replicate (length batch) 0xff, 0)) a ∧
       (n = n ∧ online_after (tr ++ [a]) w) ∧
       (0 ≠ 0 → False)) never.
Proof.
  intros Hack Href Hne (Hb20 & Hrq & Hrs) (before & after & Hp) Hreq w0 Hw0.
  destruct (online_limits cfg n _ w0 Hw0) as [Hn _].
  assert (Forall fitting (wItem <$> batch)) as Hfb.
  { rewrite Hp, !fmap_app, !Forall_app in Hfit. by destruct_and! Hfit. }
  assert (1 ≤ zlen batch ≤ 255) as Hbn.
  { unfold CompatibilityMaxItemsPerPDU in *. destruct batch; [done|]. zlia. }
  assert (is_u16 reference ∧ reference ≠ 0) as [Hr16 Hr0] by (unfold MaxUint16, is_u16 in *; lia).
  assert (Forall typed_item (Protocol.WItem <$> (wItem <$> batch))) as Htyped.
  { apply Forall_fmap. eapply Forall_impl; [exact Hfb|]. intros x [[Hv _] _]. by apply valid_typed. }
  pose proof (BuildWriteRequest_spec reference (wItem <$> batch) Hr16 Htyped) as Hb. rewrite Hreq in Hb.
  destruct Hb as (_ & Hjob & Hz). set (m0 := written_all (attempted tr) m) in *.
  assert (∀ s, serving m0 s → ∃ s' reply, serving (written_all (wItem <$> batch) m0) s' ∧
    (zlen reply ≤ n ∧ ParseWriteResponse reply reference (zlen batch) = Ok (replicate (length batch) 0xff, 0)) ∧
    bytes reply ∧ zlen reply ≤ n ∧
    plc_answer (ready_plc s) (data_frame 0x80 request) = (ready_plc s', [Chunk (data_frame 0x80 reply)])) as Hserve.
  { intros s Hs. destruct (serving_writes m0 s reference (wItem <$> batch)) as (s' & reply & ? & HQ & ? & Hsz & Hans);
      try done; [by rewrite zlen_map|iso_lia|]. rewrite zlen_map, length_fmap in *.
    exists s', reply. rewrite Hjob. split_and!; try done; lia. }
  pose proof (online_exchange "write" cfg n m0 (written_all (wItem <$> batch) m0) request
    (λ reply, zlen reply ≤ n ∧ ParseWriteResponse reply reference (zlen batch) = Ok (replicate (length batch) 0xff, 0))
    ltac:(lia) Hserve w0 Hw0) as Hx. clear Hserve.
  destruct (exchange "write" request w0) as [[r|e|] w1]; [|done|done].
  destruct Hx as (reply & -> & [Hreply HQ] & Hbytes & Hw1).
  set (a := mkAttempt _ batch reference n O (data_frame 0x80 request) (Some (data_frame 0x80 reply))).
  assert (a_reply a = Some (replicate (length batch) 0xff, 0)) as Ha.
  { unfold a_reply. cbn [a a_pdu a_answer a_reference a_batch]. rewrite payload_of_frame by (done || lia). by rewrite HQ. }
  exists reply, a.
  split; [done|]. split; [done|]. split; [done|]. split; [|split; [|done]].
  - split; [done|]. split; [done|]. exists request. split; [done|]. by apply transferred_whole, bytes_data_frame.
  - split; [done|]. split; [by apply Forall_app; split; [|constructor]|].
    rewrite attempted_snoc, written_all_app. exact Hw1.
Qed.

#[local] Instance plc_write_wire :
  WriteWire prepared (online cfg n m) (λ k tr w, k = n ∧ online_after tr w) (λ _ _ _, False)
    (λ _ _, False) (λ _ _, False).
Proof.
  constructor.
  - intros w Hw. destruct (online_limits cfg n m w Hw) as [Hn _].
    pose proof (try_triple _ _ _ _ (never (P:=PLC)) (online_ready cfg n m "write" never) w Hw) as Hx.
    destruct (try _ w) as [[[k|e|]|e|] w']; try done. destruct Hx as [-> Hx]. split; [unfold MaxUint16; lia|].
    split; [done|]. by split.
  - intros k tr w (-> & Ha & Hw). split; [done|]. split; [done|]. by apply stable.
  - intros k tr msg w [-> _] Hx. by rewrite Hover in Hx.
  - intros k tr w r Hr (-> & Ha & Hw). split; [done|]. split; [done|]. by apply online_reference.
  - intros k tr w (-> & Ha & Hw).
    pose proof (online_ctxErr cfg n (written_all (attempted tr) m) Operation never w Hw) as Hx.
    destruct (ctxErr Operation w) as [[v|e|] w']; [|done..]. by destruct Hx as [-> Hx].
  - by intros tr v w [].
  - intros k tr batch reference request Href Hne Hfits Hb Hreq w0 (-> & Hack & Hw0).
    pose proof (plc_write_exchange tr batch reference request Hack Href Hne Hfits Hb Hreq w0 Hw0) as Hx.
    destruct (exchange "write" request w0) as [[r|e|] w1]; [|done|done].
    destruct Hx as (payload & a & -> & Hbytes & HQ & Ha & Hw1). cbn [fst snd]. split; [done|]. rewrite HQ. by exists a.
  - by intros tr e w [].
  - intros k tr e w (_ & Ha & _) Hr. by eapply acknowledged_rejected.
Qed.

(** Nothing but acknowledged results, and the memory they stand for. *)
Definition all_acknowledged (count : nat) : list WriteResult :=
  replicate count (mkWriteResult WriteAcknowledged None).

Lemma acknowledged_report trace results : Forall acknowledged trace →
  write_report prepared trace results None →
  results = all_acknowledged (length prepared) ∧ attempted trace = wItem <$> prepared.
Proof.
  intros Hack [_ _ (rest & Hp & Ho & Hrest) He _ _]. rewrite (Hrest eq_refl) in *. cbn in Ho. rewrite app_nil_r in *.
  split; [|unfold attempted; by rewrite Hp].
  rewrite acknowledged_outcomes, <-Hp in Ho by done. unfold all_acknowledged.
  revert Ho. generalize (length prepared). clear Hp. induction He as [|r results Hr _ IH]; intros [|k] Ho; try done.
  injection Ho as Hor Ho. cbn [replicate]. rewrite <-IH by done. f_equal. destruct r as [o [e|]]; cbn in Hor; subst o; [|done].
  destruct Hr as [? _]. done.
Qed.

Lemma plc_writeLocked items single : wire_items (prepared := prepared) → prepareWireWrites 0 items = Ok prepared → items ≠ [] →
  triple (online cfg n m) (writeLocked items single)
    (λ out w, out = (all_acknowledged (length prepared), None) ∧ online cfg n (written_all (wItem <$> prepared) m) w) never.
Proof.
  intros Hwire Hprep Hne.
  eapply triple_conseq; [by apply (writeLocked_triple (prepared := prepared) items single)|done| |done].
  intros [rs [e|]] w (trace & Hrep & Hw); cbn [fst snd] in *; [done|].
  destruct Hw as (k & _ & Hack & Hw). destruct (acknowledged_report trace rs Hack Hrep) as [-> Htr].
  by rewrite Htr in Hw.
Qed.
End write.

(** ** Write *)

(** What goes over the wire for an item. *)
Definition wire_write (it : WriteItem) : Protocol.WriteItem :=
  Protocol.mkWriteItem (descriptor (WAddress it) (WTransport it) (WCount it)) (WData it).

Lemma wItem_prepared input : ∀ k, wItem <$> prepared_of k input = wire_write <$> input.
Proof. induction input as [|it input IH]; intros k; [done|]. cbn [prepared_of]. by rewrite !fmap_cons, IH. Qed.

Lemma wire_write_fits it maxItemBytes : write_item_values it → valid_write_item it maxItemBytes →
  fitting (wire_write it).
Proof.
  intros Hv Hok. pose proof Hv as [[Ha _ Hc] Hb]. pose proof Hok as ((Hva & Hc0 & Hbit & _) & _ & _ & Hd & Hd0).
  destruct (prepareWireWrites_Ok maxItemBytes [it] 0) as (_ & _ & Hf); [by constructor..|].
  apply Forall_cons in Hf as [[Hvi Hz] _]. cbn in Hvi, Hz, Ha, Hc, Hva, Hbit.
  pose proof Hva as [Ht _]. split; [by apply descriptor_plc|]. split; [done|]. split; [done|].
  unfold wire_write. cbn. intros Hbt. apply Hd0. unfold is_bit, descriptor in Hbt. cbn in Hbt.
  assert (WTransport it = 1 ∨ WTransport it = 2 ∨ WTransport it = 3 ∨ WTransport it = 4 ∨ WTransport it = 5
    ∨ WTransport it = 6 ∨ WTransport it = 7) as Hcases by lia.
  destruct Hcases as [E|[E|[E|[E|[E|[E|E]]]]]]; rewrite E in *; done.
Qed.

(** The memory after a write. *)
Definition wrote (input : list WriteItem) (m : Memory) : Memory := written_all (wire_write <$> input) m.

Lemma plc_Write cfg n m input : Forall write_item_values input → acceptable_writes (nConfig cfg) input →
  Forall (λ it, WriteRequestSize [wire_write it] ≤ n) input →
  triple (in_session cfg n m) (Write input)
    (λ out w, out = (all_acknowledged (length input), None) ∧ in_session cfg n (wrote input m) w) never.
Proof.
  intros Hvals Hacc Hsize. unfold Write. apply in_session_caller.
  eapply triple_bind; [apply in_session_config|]. intros a. cbn beta. apply triple_pure. intros ->.
  apply triple_pure. intros [Hcfg _ _].
  pose proof (prepareWrites_spec (nConfig cfg) input Hcfg Hvals) as Hprep.
  destruct (prepareWrites (nConfig cfg) input) as [its|e|]; [|done..].
  destruct Hprep as ((Hcount & Hvalid & _) & ->).
  assert (input ≠ []) as Hne by (intros ->; change (zlen (@nil WriteItem)) with 0 in Hcount; lia).
  destruct (prepareWireWrites_Ok _ input 0 Hvals Hvalid) as (Hpw & Hn & Hf).
  apply in_session_gated. apply triple_world. intros w0 Hw0. pose proof (online_limits cfg n m w0 Hw0) as (Hrange & _).
  eapply triple_conseq; [apply (plc_writeLocked cfg n m (prepared_of 0 input))|by intros w <-| |done].
  - rewrite wItem_prepared. apply Forall_fmap. rewrite !Forall_forall in *. intros it Hit.
    by eapply wire_write_fits; [apply Hvals|apply Hvalid].
  - unfold oversized. apply not_true_iff_false. intros (p & Hp & Hx)%existsb_exists.
    apply list_elem_of_In in Hp. apply (list_elem_of_fmap_2 wItem) in Hp. rewrite wItem_prepared in Hp.
    apply list_elem_of_fmap in Hp as (it & Heq & Hit). rewrite Heq in Hx. rewrite Forall_forall in Hsize.
    specialize (Hsize it Hit). unfold WriteResponseSize, ackHeaderSize in Hx. lia.
  - done.
  - done.
  - done.
  - intros out w [-> Hw]. rewrite length_prepared_of. split; [done|]. apply in_session_release.
    by rewrite wItem_prepared in Hw.
Qed.

(** ** What was written is read *)

(** No item overlaps a later one. *)
Definition disjoint_items (input : list WriteItem) : Prop :=
  ∀ i j it jt, (i < j)%nat → input !! i = Some it → input !! j = Some jt →
    separate (Protocol.WItem (wire_write jt)) (Protocol.WItem (wire_write it)).

Lemma stored_wrote m input : byte_memory m → Forall write_item_values input →
  (∃ max, Forall (λ it, valid_write_item it max) input) → disjoint_items input →
  Forall (λ it, stored (wrote input m) (read_of it) = WData it) input.
Proof.
  intros Hm Hvals (max & Hvalid) Hdis. apply Forall_forall. intros it Hit.
  assert (∀ jt, jt ∈ input → fitting (wire_write jt)) as Hfit.
  { intros jt Hj. rewrite !Forall_forall in *. by eapply wire_write_fits; [apply Hvals|apply Hvalid]. }
  apply list_elem_of_split in Hit as (before & after & ->).
  destruct (Hfit it) as [Hi _]; [set_solver|]. rewrite Forall_forall in Hvals, Hvalid.
  destruct (Hvals it) as [[Ha _ _] _]; [set_solver|]. destruct (Hvalid it) as ((Hva & _ & Hbit & _) & _); [set_solver|].
  unfold read_of. rewrite <-stored_descriptor by done.
  change (contents (wrote (before ++ it :: after) m) (Protocol.WItem (wire_write it)) = WData it).
  unfold wrote. rewrite fmap_app, fmap_cons. apply written_all_read; [|done|].
  - apply Forall_forall. intros w. rewrite <-fmap_cons, <-fmap_app. intros (jt & -> & Hj)%list_elem_of_fmap.
    by apply Hfit.
  - apply Forall_fmap, Forall_forall. intros jt (k & Hk)%list_elem_of_lookup. cbn.
    apply (Hdis (length before) (length before + S k)%nat); [lia| |].
    + by rewrite lookup_app_r, Nat.sub_diag by lia.
    + rewrite lookup_app_r by lia. by replace (length before + S k - length before)%nat with (S k) by lia.
Qed.

(** An item that fits one write request is read with one fragment. *)
Lemma max_data_room t n : 1 ≤ t ≤ 7 → 240 ≤ n ≤ 960 → t ≠ TransportBit → n - 28 ≤ max_data t n.
Proof.
  intros Ht Hn Hb. unfold max_data, capacity. destruct (t =? TransportBit) eqn:E; [lia|].
  pose proof (width_of_range t Ht). pose proof (Z.mod_pos_bound (Z.min (n - 18) (if in_bits t then 8191 else 65535)) (width_of t)).
  destruct (in_bits t); lia.
Qed.

Lemma one_fragment it max n k : write_item_values it → valid_write_item it max → 240 ≤ n ≤ 960 →
  WriteRequestSize [wire_write it] ≤ n →
  zlen (item_fragments k (read_of it) (write_length it) (max_data (WTransport it) n) 0) = 1.
Proof.
  intros Hv Hok Hn Hsize. pose proof (write_length_pos it max Hv Hok) as Hpos.
  pose proof Hok as ((Hva & _ & Hbit & _) & _ & _ & Hd & _). pose proof Hva as [Ht _]. cbn in Ht, Hbit.
  assert (0 < write_length it ≤ max_data (WTransport it) n) as Hle.
  { split; [lia|]. destruct (decide (WTransport it = TransportBit)) as [E|E].
    - unfold write_length. rewrite E, (Hbit E). done.
    - transitivity (n - 28); [|by apply max_data_room].
      unfold WriteRequestSize in Hsize. cbn [fmap list_fmap itemSizes wire_write Protocol.WData zlen] in Hsize.
      change (zlen [wire_write it]) with 1 in Hsize. change (padded 0 1 (zlen (WData it))) with false in Hsize.
      unfold jobHeaderSize, itemSpecSize, itemDataHeaderSize in Hsize. unfold write_length. lia. }
  unfold item_fragments, fragment_count. rewrite zlen_map. unfold zlen. rewrite length_seqZ.
  assert ((write_length it - 0 + max_data (WTransport it) n - 1) / max_data (WTransport it) n = 1) as ->; [|done].
  symmetry; apply Z.div_unique with (r := write_length it - 1); lia.
Qed.

Lemma fragments_of_written n max input : 240 ≤ n ≤ 960 → Forall write_item_values input →
  Forall (λ it, valid_write_item it max) input → Forall (λ it, WriteRequestSize [wire_write it] ≤ n) input →
  ∀ k, zlen (all_fragments n k (read_of <$> input) (item_length <$> (read_of <$> input))) = zlen input.
Proof.
  intros Hn Hv Hok Hs. induction input as [|it input IH]; intros k; [done|].
  apply Forall_cons in Hv as [Hvi Hv], Hok as [Hoki Hok], Hs as [Hsi Hs].
  rewrite !fmap_cons. cbn [all_fragments]. rewrite zlen_app, IH by done.
  pose proof (one_fragment it max n k Hvi Hoki Hn Hsi) as H1. change (RTransport (read_of it)) with (WTransport it).
  change (item_length (read_of it)) with (write_length it). zlia.
Qed.

Lemma acceptable_read_back config input : acceptable_writes config input →
  acceptable_reads config (read_of <$> input).
Proof.
  intros (Hc & Hv & Ht). split; [by rewrite zlen_map|]. split.
  - apply Forall_fmap. eapply Forall_impl; [exact Hv|]. by intros it [? _].
  - by rewrite <-list_fmap_compose.
Qed.
