(* ===== verification/EndToEndArea.v ===== *)
(** * EndToEndArea: area writes to the scripted PLC

    [WriteArea] over an open session cuts the source into chunks, and the
    memory of the PLC ends as if the source had been stored at once. *)

From stdpp Require Import gmap.
From S2P Require Import Errors Protocol IsoTCP Config Item Planner Session SessionProofs DataPlane ReadProofs WriteProofs TestPLC PLCProofs PLCMemory EndToEnd EndToEndRead EndToEndWrite.

Local Abbreviation World := (@World PLC).

(** ** Bytes stored in pieces *)

Lemma storeBytes_app area db off x y : ∀ m idx,
  storeBytes m area db off idx (x ++ y)
  = storeBytes (storeBytes m area db off idx x) area db off (idx + zlen x) y.
Proof.
  induction x as [|v x IH]; intros m idx; cbn [app storeBytes]; [by rewrite Z.add_0_r|].
  rewrite IH. f_equal. zlia.
Qed.

Lemma storeBytes_shift area db off k y : ∀ m idx,
  storeBytes m area db off (k + idx) y = storeBytes m area db (off + k) idx y.
Proof.
  induction y as [|v y IH]; intros m idx; cbn [storeBytes]; [done|].
  rewrite <-IH. replace (k + idx + 1) with (k + (idx + 1)) by lia. f_equal.
  assert (u32 (off + u32 (k + idx)) = u32 (off + k + u32 idx)) as ->; [|done].
  unfold u32. rewrite !Z.add_mod_idemp_r by lia. f_equal. lia.
Qed.

Section area.
Implicit Type w : World.
Context (cfg : normalizedConfig) (n : Z) (m : Memory) (area dbNumber start : Z) (src : list Z).
Context (Hcfg : settings_ok (nConfig cfg)) (Hrange : 240 ≤ n ≤ 960).
Context (Harea : is_u8 area) (Hdb : is_u16 dbNumber) (Hstart : is_u32 start) (Hbytes : bytes src).
Context (Hvalid : valid_read_item (mkReadItem (mkAddress area dbNumber start 0) TransportByte (zlen src))
  (MaxBatchBytes (nConfig cfg))).

Local Abbreviation chunk_item := (chunk_item area dbNumber start src).

(** The memory when the first [off] bytes have been written. *)
Definition area_memory (off : Z) : Memory := storeBytes m (area_code area) dbNumber start 0 (sub src 0 off).

Lemma chunk_accepted off len : 0 ≤ off → 0 < len → off + len ≤ zlen src → len ≤ 8191 →
  len ≤ MaxItemBytes (nConfig cfg) →
  write_item_values (chunk_item off len) ∧ acceptable_writes (nConfig cfg) [chunk_item off len].
Proof.
  by apply chunk_acceptable.
Qed.

Lemma bytes_area : byte_area area = true.
Proof.
  destruct Hvalid as [[_ Hva] _]. cbn in Hva. destruct (byte_area area); [done|].
  destruct Hva as (_ & _ & _ & Ht). by destruct (area =? AreaTimer).
Qed.

(** A chunk goes where the bytes before it end. *)
Lemma chunk_stored off len : 0 ≤ off → 0 < len → off + len ≤ zlen src → len ≤ 8191 →
  len ≤ MaxItemBytes (nConfig cfg) →
  wrote [chunk_item off len] (area_memory off) = area_memory (off + len).
Proof.
  intros Ho Hl Hs Hm Hi. destruct (chunk_accepted off len Ho Hl Hs Hm Hi) as [Hv (_ & Hok & _)].
  apply Forall_cons in Hok as [Hok _]. destruct (wire_write_fits _ _ Hv Hok) as [Hp _].
  unfold wrote. cbn [fmap list_fmap]. rewrite written_all_cons. change (written_all [] ?x) with x.
  rewrite written_span by done. unfold area_memory.
  rewrite <-(sub_append src 0 off (off + len)), storeBytes_app, zlen_sub by lia.
  replace (0 + (off - 0)) with (off + 0) by lia. rewrite storeBytes_shift. f_equal.
  unfold item_start, byte_start. cbn [wordLength variable_of wire_write Protocol.WItem]. 
  change (WordLength (descriptor _ TransportByte _)) with 0x02. cbn [orb Z.eqb Pos.eqb].
  cbn. unfold wire_address. cbn [Area]. rewrite bytes_area. cbn [Offset Bit]. rewrite Z.add_0_r. by rewrite Z.div_mul.
Qed.

(** One chunk over the wire. *)
Lemma plc_chunk off len : 0 ≤ off → 0 < len → off + len ≤ zlen src → len ≤ 8191 →
  len ≤ MaxItemBytes (nConfig cfg) → len ≤ n - 28 →
  triple (online cfg n (area_memory off)) (writeLocked [chunk_item off len] true)
    (λ out w, out = (all_acknowledged 1, None) ∧ online cfg n (area_memory (off + len)) w) never.
Proof.
  intros Ho Hl Hs Hm Hi Hn. destruct (chunk_accepted off len Ho Hl Hs Hm Hi) as [Hv (_ & Hok & _)].
  destruct (prepareWireWrites_Ok _ [chunk_item off len] 0 ltac:(by constructor) Hok) as (Hpw & _ & Hf).
  rewrite <-chunk_stored by done. apply Forall_cons in Hok as [Hok _].
  eapply triple_conseq; [apply (plc_writeLocked cfg n (area_memory off) (chunk area dbNumber start src off len))|done| |done].
  - unfold chunk. rewrite wItem_prepared. constructor; [|done]. by eapply wire_write_fits.
  - unfold chunk, oversized. cbn [prepared_of existsb]. rewrite orb_false_r.
    assert (WriteRequestSize [wire_write (chunk_item off len)] = 28 + len) as Hsize.
    { unfold WriteRequestSize. cbn [fmap list_fmap itemSizes wire_write Protocol.WData chunk_item WData].
      change (zlen [_]) with 1. change (padded 0 1 _) with false. rewrite zlen_sub by lia.
      unfold jobHeaderSize, itemSpecSize, itemDataHeaderSize. lia. }
    change (wItem _) with (wire_write (chunk_item off len)). rewrite Hsize.
    change (WriteResponseSize 1) with 15. lia.
  - done.
  - done.
  - done.
  - intros out w [-> Hw]. split; [done|]. unfold chunk in Hw. by rewrite wItem_prepared in Hw.
Qed.

(** The loop writes the rest of the source. *)
Lemma plc_writeAreaLoop maxChunk : 1 ≤ maxChunk ≤ 8191 → maxChunk ≤ MaxItemBytes (nConfig cfg) →
  maxChunk ≤ n - 28 → ∀ fuel off, 0 ≤ off ≤ zlen src → zlen src - off ≤ Z.of_nat fuel * maxChunk →
  triple (online cfg n (area_memory off))
    (writeAreaLoop fuel (nConfig cfg) area dbNumber start maxChunk src off off)
    (λ out w, out = (zlen src, None) ∧ online cfg n (area_memory (zlen src)) w) never.
Proof.
  intros Hmc Hmi Hmn fuel. induction fuel as [|fuel IH]; intros off Hoff Hfuel;
    cbn [writeAreaLoop]; destruct (off <? zlen src) eqn:Hlt; cbn [negb]; [lia| | |].
  1,3: (assert (off = zlen src) as -> by lia; apply triple_ret; intros w Hw; done).
  set (len := smallerInt maxChunk (zlen src - off)).
  assert (0 < len ≤ maxChunk ∧ off + len ≤ zlen src ∧ (len = maxChunk ∨ off + len = zlen src)) as Hlen.
  { unfold len, smallerInt. case_if; lia. }
  rewrite slice_Ok by lia. change (lift (Ok ?a) ≫= ?f) with (f a). cbn beta.
  destruct (chunk_accepted off len) as [Hv Hacc]; [lia..|].
  assert (u32 (start + u32 off) = start + off ∧ u32 len = len) as [-> ->].
  { destruct Hv as [[[_ _ Ho _] _ Hl] _]. cbn in Ho, Hl. unfold is_u32 in *.
    rewrite (u32_id off), !u32_id by (unfold is_u32; lia). done. }
  change (mkWriteItem (mkAddress area dbNumber (start + off) 0) TransportByte len (sub src off (off + len)))
    with (chunk_item off len).
  pose proof (prepareWrites_spec (nConfig cfg) [chunk_item off len] Hcfg ltac:(by constructor)) as Hprep.
  destruct (prepareWrites (nConfig cfg) [chunk_item off len]) as [its|e|]; [|done|done].
  destruct Hprep as [_ ->].
  eapply triple_bind; [apply plc_chunk; lia|]. intros [results err]. cbn beta. apply triple_pure. intros [= -> ->].
  cbn [all_acknowledged replicate]. change (negb (bool_decide _)) with false. cbv iota.
  apply IH; [lia|]. destruct Hlen as (? & ? & [->|Hend]); [lia|]. rewrite Hend. nia.
Qed.
End area.

(** ** WriteArea *)

Lemma plc_WriteArea cfg n m area dbNumber start src : is_u8 area → is_u16 dbNumber → is_u32 start → bytes src →
  valid_read_item (mkReadItem (mkAddress area dbNumber start 0) TransportByte (zlen src)) (MaxBatchBytes (nConfig cfg)) →
  (zlen src + area_chunk (nConfig cfg) n - 1) / area_chunk (nConfig cfg) n ≤ MaxFragmentsPerCall (nConfig cfg) →
  triple (in_session cfg n m) (WriteArea area dbNumber start src)
    (λ out w, out = (zlen src, None) ∧ in_session cfg n (storeBytes m (area_code area) dbNumber start 0 src) w) never.
Proof.
  intros Ha Hd Hs Hb Hvalid Hmany. unfold WriteArea. apply in_session_caller.
  eapply triple_bind; [apply in_session_config|]. intros a. cbn beta. apply triple_pure. intros ->.
  apply triple_pure. intros [Hcfg _ _].
  pose proof Hvalid as (_ & Hpos & _ & Hbatch & _). change (0 < zlen src) in Hpos.
  change (zlen src * 1 ≤ MaxBatchBytes (nConfig cfg)) in Hbatch.
  destruct (zlen src =? 0) eqn:E; [lia|]. clear E.
  destruct (zlen src >? MaxBatchBytes _) eqn:E; [lia|]. clear E.
  destruct (zlen src >? MaxUint32) eqn:E; [destruct Hcfg; unfold MaxUint32 in E; lia|]. clear E.
  assert (is_u32 (zlen src)) as Hu by (destruct Hcfg; unfold is_u32; lia). rewrite (u32_id _ Hu).
  set (i := mkReadItem (mkAddress area dbNumber start 0) TransportByte (zlen src)) in *.
  assert (read_item_values i) as Hv by (constructor; [by constructor|done|done]).
  pose proof (validateReadItem_spec i (MaxBatchBytes (nConfig cfg)) Hv) as Hval.
  destruct (validateReadItem i (MaxBatchBytes (nConfig cfg))) as [len|e|]; [|done..]. clear Hval.
  apply in_session_gated. apply triple_world. intros w0 Hw0. pose proof (online_limits cfg n m w0 Hw0) as (Hn & _).
  eapply triple_bind; [eapply triple_pre; [apply try_triple, (online_ready cfg n m "write_area" never)|by intros w <-]|].
  intros [k|e|]; cbn beta; [|by intros w []..]. apply triple_pure. intros ->.
  set (c := area_chunk (nConfig cfg) n) in *.
  assert (1 ≤ c ≤ 8191 ∧ c ≤ MaxItemBytes (nConfig cfg) ∧ c ≤ n - 28) as (Hc & Hci & Hcn).
  { unfold c, area_chunk. change (Z.quot MaxUint16 8) with 8191. cbn zeta. destruct Hcfg.
    destruct (n - 28 >? 8191) eqn:?; case_if; lia. }
  cbn zeta. destruct (c <? 1) eqn:E; [lia|]. clear E. rewrite Z.quot_div_nonneg by lia.
  destruct (_ >? MaxFragmentsPerCall _) eqn:E; [lia|]. clear E.
  eapply triple_conseq; [apply (plc_writeAreaLoop cfg n m area dbNumber start src Hcfg Hn Ha Hd Hs Hb Hvalid c Hc Hci Hcn)| | |done].
  - split; [done|]. by apply zlen_nonneg.
  - pose proof (Z.div_mod (zlen src + c - 1) c). pose proof (Z.mod_pos_bound (zlen src + c - 1) c).
    rewrite Z2Nat.id by (apply Z.div_pos; lia). lia.
  - intros w Hw. unfold area_memory. by rewrite sub_0.
  - intros out w [-> Hw]. split; [done|]. apply in_session_release. unfold area_memory in Hw.
    by rewrite sub_full in Hw.
Qed.
