(* ===== verification/EndToEndConnect.v ===== *)
(** * EndToEndConnect: the handshake with the scripted PLC

    [Connect] to a listening PLC negotiates the smaller of the two PDU sizes
    and leaves an open session. *)

From stdpp Require Import gmap.
From S2P Require Import Errors Protocol IsoTCP Config Item Planner Session SessionProofs DataPlane ReadProofs TestPLC PLCProofs PLCMemory EndToEnd.

(** ** The frames of the handshake *)

Lemma BuildConnectionRequest_frame localTSAP remoteTSAP size code : tpduSizeCode size = Ok code →
  BuildConnectionRequest localTSAP remoteTSAP size = Ok (request_frame localTSAP remoteTSAP code).
Proof. intros Hc. unfold BuildConnectionRequest. rewrite Hc. reflexivity. Qed.

Lemma confirm_frame_bytes localTSAP remoteTSAP code : is_u8 code → bytes (confirm_frame localTSAP remoteTSAP code).
Proof.
  intros Hc. unfold confirm_frame. rewrite !Forall_app. split_and!; try apply bytes_be_split; [|by repeat constructor].
  by repeat (constructor; [done|]).
Qed.

(** The three parameters of a confirm. *)
Lemma cc_size size code source destination : tpduSizeCode size = Ok code →
  ccParameter (mkCC size source destination) 0xc0 [code] = Ok (mkCC size source destination).
Proof.
  intros [_ Hback]%tpduSizeCode_Ok. unfold ccParameter. cbn [Z.eqb Pos.eqb].
  change (index (E:=error) [code] 0) with (Ok (E:=error) code). cbn [mbind outcome_bind]. rewrite Hback.
  cbn [mbind outcome_bind ccTPDU ccSource ccDestination]. by rewrite Z.ltb_irrefl.
Qed.
Lemma cc_source size tsap source destination : is_u16 tsap →
  ccParameter (mkCC size source destination) 0xc1 (be_split 2 tsap) = Ok (mkCC size (Some tsap) destination).
Proof.
  intros Ht. unfold ccParameter. cbn [Z.eqb Pos.eqb be_split app]. rewrite get_uint16_Ok by zlia. eval_at.
  match goal with |- context [zlen ?l =? 2] => change (zlen l =? 2) with true end.
  cbn [negb mbind outcome_bind ccTPDU ccSource ccDestination]. by rewrite be_combine_split2.
Qed.
Lemma cc_destination size tsap source destination : is_u16 tsap →
  ccParameter (mkCC size source destination) 0xc2 (be_split 2 tsap) = Ok (mkCC size source (Some tsap)).
Proof.
  intros Ht. unfold ccParameter. cbn [Z.eqb Pos.eqb be_split app]. rewrite get_uint16_Ok by zlia. eval_at.
  match goal with |- context [zlen ?l =? 2] => change (zlen l =? 2) with true end.
  cbn [negb mbind outcome_bind ccTPDU ccSource ccDestination]. by rewrite be_combine_split2.
Qed.

Lemma ParseConnectionConfirm_frame localTSAP remoteTSAP size code : is_u16 localTSAP → is_u16 remoteTSAP →
  is_u8 code → tpduSizeCode size = Ok code →
  ParseConnectionConfirm (confirm_frame localTSAP remoteTSAP code) localTSAP remoteTSAP size
  = Ok (mkConnectionConfirm size).
Proof.
  intros Hl Hr Hu Hc. pose proof (tpduSizeCode_Ok _ _ Hc) as [Hs Hback].
  apply ParseConnectionConfirm_spec; [by apply confirm_frame_bytes|]. split; [done|].
  exists 0, 1, 0, [(0xc0, [code]); (0xc1, be_split 2 remoteTSAP); (0xc2, be_split 2 localTSAP)],
    (mkCC size (Some remoteTSAP) (Some localTSAP)).
  split; [done|]. split; [done|]. split; [done|]. split; [|split; [|done]].
  - cbn [cc_fold]. rewrite cc_size by done. cbn [mbind outcome_bind]. rewrite cc_source by done.
    cbn [mbind outcome_bind]. by rewrite cc_destination.
  - unfold ccTSAPs. cbn [ccSource ccDestination]. by rewrite !Z.eqb_refl.
Qed.

(** The acknowledged limits. *)
Lemma ParseSetupResponse_frame s requested : is_u16 (Z.min (pdu s) requested) →
  ParseSetupResponse (setup_answer s setupReference requested) setupReference
  = Ok (mkSetupResult 1 1 (Z.min (pdu s) requested) 0).
Proof.
  intros Hu. apply ParseSetupResponse_spec.
  { unfold setup_answer. apply bytes_ack_pdu; [|constructor]. apply Forall_app. split; [by repeat constructor|apply bytes_be_split]. }
  split; [done|]. split; [done|]. do 3 eexists. split; [done|]. split; [done|]. split; [done|]. split; [done|].
  split; [done|]. right. by split_and!.
Qed.

(** ** Connect, step by step *)

Section run.
Local Abbreviation World := (@World PLC).
Local Abbreviation Conn := (@Conn PLC).
Local Abbreviation M := (@M PLC).
Implicit Type w : World.

(** The next dial reaches the PLC [s]. *)
Definition dials_plc (s : Server) (tcp : bool) (w : World) : Prop :=
  ∃ d, head (dials (env w)) = Some (Dialled d tcp None None None) ∧ c_rx d = [] ∧ c_writes d = [] ∧
    c_deadlines d = [] ∧ c_peer d = listening s.
Definition waiting (c : Client) (s : Server) (tcp : bool) (w : World) : Prop :=
  client w = c ∧ calm w ∧ dials_plc s tcp w.

#[export] Instance waiting_stable c s tcp : Stable (waiting c s tcp).
Proof.
  intros w (Hc & Hw & Hd). pose proof (stable w Hw) as Hw'. rewrite interfere_calm in * by done. by split.
Qed.

Lemma or_fail_Ok {A B} (Pre : World → Prop) (r : result A) a kind failure (f : A → M B) Post Er :
  r = Ok a → triple Pre (f a) Post Er → triple Pre (or_fail_connect r kind failure ≫= f) Post Er.
Proof. intros -> Hf. exact Hf. Qed.

Lemma quiet_modify c f id p (Er : error → World → Prop) : lifeCanceled (f c) = lifeCanceled c →
  triple (at_work c id p) (modify f) (λ _ w, at_work (f c) id p w) Er.
Proof.
  intros Hf. apply triple_atomically; [apply _|]. intros w (Hc & Hw). split; [cbn; by rewrite Hc|].
  apply plugged_on_client; [done|by rewrite Hc].
Qed.

Lemma quiet_dial c s tcp (Er : error → World → Prop) :
  triple (waiting c s tcp) dialContext
    (λ r w, ∃ id, r = inr (id, tcp, (None, None, None)) ∧ at_work c id (listening s) w) Er.
Proof.
  apply triple_atomically; [apply _|]. intros w (Hc & Hw & d & Hd & Hrx & Hwr & Hdl & Hp). rewrite Hd.
  eexists. split; [done|]. split; [done|]. split; [by eapply calm_same_env|].
  exists (open_conn d). split; [|by constructor]. unfold get_conn. cbn.
  by rewrite lookup_app_r, Nat.sub_diag by lia.
Qed.

Lemma quiet_connect_dial c s tcp (Er : error → World → Prop) : is_closing (state c) = false →
  triple (waiting c s tcp) connect_dial
    (λ id w, at_work (set_conn (Some id) c) id (listening s) w) Er.
Proof.
  intros Hst. unfold connect_dial. eapply triple_bind; [apply quiet_dial|]. intros r. cbn beta.
  apply triple_ex. intros id. apply triple_pure. intros ->.
  apply (triple_bind _ _ (λ _ w, at_work c id (listening s) w)).
  { destruct tcp; [|by apply triple_ret]. cbn [socket_option].
    assert (∀ f : () → M (), triple (at_work c id (listening s)) (f tt) (λ _ w, at_work c id (listening s) w) Er →
      triple (at_work c id (listening s)) (mret tt ≫= f) (λ _ w, at_work c id (listening s) w) Er) as Hskip by done.
    apply Hskip. eapply triple_bind; [apply quiet_get|]. intros keep. cbn beta.
    apply triple_pure. intros _. destruct keep; [|by apply triple_ret].
    apply Hskip. by apply triple_ret. }
  intros []. apply (triple_bind _ _ (λ taken w, taken = true ∧ at_work (set_conn (Some id) c) id (listening s) w)).
  { apply triple_atomically; [apply _|]. intros w (Hc & Hw). rewrite Hc, Hst. cbn [fst snd]. split; [done|].
    split; [cbn; by rewrite Hc|]. by apply plugged_on_client. }
  intros taken. apply triple_pure. intros ->.
  eapply triple_bind; [apply quiet_setDeadline|]. intros e. cbn beta. apply triple_pure. intros ->. by apply triple_ret.
Qed.

Lemma quiet_connect_exchange c id p p' frame reply writing reading (Er : error → World → Prop) : frame ≠ [] →
  plc_answer p frame = (p', [Chunk reply]) → bytes reply →
  MaxFrameBytes (nConfig (config c)) ≤ maxTPKTLength → tpkt (MaxFrameBytes (nConfig (config c))) reply →
  triple (at_work c id p) (connect_exchange id frame writing reading) (λ r w, r = reply ∧ at_work c id p' w) Er.
Proof.
  intros Hf Hp Hb Hm Ht. unfold connect_exchange.
  eapply triple_bind; [by apply (quiet_writeFull c id p p' frame reply)|]. intros [n err]. cbn beta iota.
  apply triple_pure. intros [= -> ->].
  apply (triple_bind _ _ (λ a w, a = config c ∧ arriving c id p' reply w)).
  { apply triple_atomically; [apply _|]. intros w Hw. split; [|done]. by destruct Hw as [<- _]. }
  intros cfg. apply triple_pure. intros ->.
  eapply triple_bind; [by apply quiet_readFrame|]. intros r. cbn beta. apply triple_pure. intros ->. by apply triple_ret.
Qed.

(** The COTP exchange settles on the TPDU size of the request. *)
Lemma quiet_connect_cotp c id s (Er : error → World → Prop) : config_ok (config c) →
  triple (at_work c id (listening s)) (connect_cotp id)
    (λ tpdu w, (tpdu ∈ tpdu_sizes ∧ RequestedPDU (nConfig (config c)) + 3 ≤ tpdu) ∧
       at_work c id (mkPLC s AwaitSetup []) w) Er.
Proof.
  intros Hcfg. pose proof Hcfg as [Hs Hl Hr]. pose proof (config_frame _ Hcfg) as Hframe.
  unfold connect_cotp. eapply triple_bind; [apply quiet_get|]. intros cfg. cbn beta. apply triple_pure. intros ->.
  pose proof (TPDUSizeForS7PDU_spec (RequestedPDU (nConfig (config c)))) as Hsize.
  destruct (TPDUSizeForS7PDU _) as [size|e|] eqn:Hoff; [|destruct Hs; unfold DataTPDUHeaderSize in Hsize; lia|done].
  destruct Hsize as (_ & Hin & Hle & _).
  assert (∃ code, tpduSizeCode size = Ok code ∧ is_u8 code) as (code & Hcode & Hu).
  { rewrite !elem_of_cons, elem_of_nil in Hin. destruct_or! Hin; subst; by eexists. }
  eapply or_fail_Ok; [done|]. eapply or_fail_Ok; [by apply BuildConnectionRequest_frame|].
  eapply triple_bind.
  { apply (quiet_connect_exchange c id (listening s) (mkPLC s AwaitSetup []) _
      (confirm_frame (nLocalTSAP (config c)) (nRemoteTSAP (config c)) code)); try done.
    - by apply plc_connects.
    - by apply confirm_frame_bytes.
    - lia.
    - split; [destruct Hs; change (7 ≤ 22 ≤ MaxFrameBytes (nConfig (config c))); lia|]. by eexists. }
  intros r. cbn beta. apply triple_pure. intros ->.
  eapply or_fail_Ok; [by apply ParseConnectionConfirm_frame|]. cbn [TPDUSize].
  unfold DataTPDUHeaderSize, minRequestedPDU in *. destruct (_ <? _) eqn:E; [destruct Hs; lia|].
  apply triple_ret. intros w Hw. split; [|done]. split; [|done]. unfold tpdu_sizes.
  rewrite !elem_of_cons, elem_of_nil in *. tauto.
Qed.

(** The setup exchange settles on the smaller PDU. *)
Lemma quiet_connect_setup c id s tpdu (Er : error → World → Prop)
    (n := Z.min (pdu s) (RequestedPDU (nConfig (config c)))) :
  config_ok (config c) → is_u16 (pdu s) → 240 ≤ pdu s → RequestedPDU (nConfig (config c)) + 3 ≤ tpdu →
  triple (at_work c id (mkPLC s AwaitSetup [])) (connect_setup id tpdu)
    (λ r w, r = mkSetupResult 1 1 n 0 ∧ at_work c id (ready_plc s) w) Er.
Proof.
  intros Hcfg Hs Hs240 Ht. pose proof Hcfg as [Hset _ _]. pose proof (config_frame _ Hcfg) as Hframe.
  unfold connect_setup. eapply triple_bind; [apply quiet_get|]. intros cfg. cbn beta. apply triple_pure. intros ->.
  set (requested := RequestedPDU (nConfig (config c))) in *.
  assert (240 ≤ requested ≤ 960) as Hreq by apply Hset.
  assert (requested + 7 ≤ MaxFrameBytes (nConfig (config c))) as Hrf by apply Hset.
  assert (session_pdu (config c) tpdu = requested) as ->.
  { unfold session_pdu, DataTPDUHeaderSize. fold requested. destruct (_ <? _) eqn:E; lia. }
  rewrite u16_id by (unfold is_u16; lia).
  assert (is_u16 requested) as Hr16 by (unfold is_u16; lia).
  assert (is_u16 n) as Hn16 by (unfold n, is_u16 in *; lia).
  set (request := job_pdu setupReference ([functionSetup; 0] ++ be_split 2 maxAmQCaller ++ be_split 2 maxAmQCallee
    ++ be_split 2 requested) []).
  assert (zlen request = 18) as Hz by done.
  set (reply := setup_answer s setupReference requested).
  assert (zlen reply = 20) as Hz' by done.
  assert (bytes reply) as Hb.
  { unfold reply, setup_answer. apply bytes_ack_pdu; [|constructor]. apply Forall_app. split; [by repeat constructor|apply bytes_be_split]. }
  apply (or_fail_Ok _ _ request).
  { rewrite BuildSetupRequest_spec by done. rewrite decide_True; [done|]. unfold setupReference, maxAmQCaller, maxAmQCallee. lia. }
  apply (or_fail_Ok _ _ (data_frame 0x80 request)).
  { rewrite WrapData_spec. by rewrite decide_True by (rewrite Hz; iso_lia). }
  rewrite zlen_data_frame, Hz. destruct (_ >? _) eqn:E; [iso_lia|]. clear E.
  eapply triple_bind.
  { apply (quiet_connect_exchange c id (mkPLC s AwaitSetup []) (ready_plc s) _ (data_frame 0x80 reply)); try done.
    - by apply plc_sets_up.
    - by apply bytes_data_frame.
    - lia.
    - apply tpkt_data_frame. rewrite Hz'. iso_lia. }
  intros r. cbn beta. apply triple_pure. intros ->.
  rewrite zlen_data_frame, Hz'. destruct (_ >? _) eqn:E; [iso_lia|]. clear E.
  apply (or_fail_Ok _ _ reply); [apply UnwrapData_frame; [done|rewrite Hz'; iso_lia]|].
  rewrite Hz'. destruct (_ >? _) eqn:E; [lia|]. clear E.
  apply (or_fail_Ok _ _ (mkSetupResult 1 1 n 0)); [by apply ParseSetupResponse_frame|]. cbn [GlobalCode].
  by apply triple_ret.
Qed.

Lemma quiet_connect_finish c id p tpdu n (Er : error → World → Prop) :
  config_ok (config c) → 240 ≤ n ≤ RequestedPDU (nConfig (config c)) →
  RequestedPDU (nConfig (config c)) + 3 ≤ tpdu → is_closing (state c) = false →
  triple (at_work c id p) (connect_finish id tpdu (mkSetupResult 1 1 n 0))
    (λ _ w, ∃ la ra now,
       at_work (enter_ready (config c) tpdu (mkSetupResult 1 1 n 0) la ra now c) id p w) Er.
Proof.
  intros [Hset _ _] Hn Ht Hst. unfold connect_finish.
  eapply triple_bind; [apply quiet_ctxErr|]. intros v. cbn beta. apply triple_pure. intros ->.
  eapply triple_bind; [apply quiet_get|]. intros cfg. cbn beta. apply triple_pure. intros ->.
  assert (bad_limits (config c) tpdu (mkSetupResult 1 1 n 0) = false) as ->.
  { unfold bad_limits, session_pdu. cbn [MaxAmQCaller MaxAmQCallee PDU].
    unfold minRequestedPDU, maxAmQCaller, maxAmQCallee, DataTPDUHeaderSize, DataHeaderSize, TPKTHeaderSize.
    destruct Hset. unfold DataTPDUHeaderSize. case_if; lia. }
  apply (triple_bind _ _ (λ _ w, at_work c id p w)).
  { by apply triple_atomically; [apply _|]. }
  intros [[la ra] now].
  apply (triple_bind _ _ (λ entered w, entered = true ∧
    at_work (enter_ready (config c) tpdu (mkSetupResult 1 1 n 0) la ra now c) id p w)).
  { apply triple_atomically; [apply _|]. intros w (Hc & Hw). rewrite Hc, Hst. cbn [fst snd]. split; [done|].
    split; [cbn; by rewrite Hc|]. by apply plugged_on_client. }
  intros entered. apply triple_pure. intros ->. apply triple_ret. intros w Hw. by exists la, ra, now.
Qed.

Lemma waiting_gate c s tcp w : waiting c s tcp w →
  waiting (set_gate true c) s tcp (on_env pop_select (on_client (set_gate true) w)).
Proof. intros (Hc & Hw & Hd). split; [cbn; by rewrite Hc|]. split; [by eapply calm_same_env|done]. Qed.

(** A handshake from a session that is neither open nor closed. *)
Lemma quiet_connect c s tcp : config_ok (config c) → is_u16 (pdu s) → 240 ≤ pdu s →
  is_closing (state c) = false → state c ≠ StateReady →
  triple (λ w, gate (client w) = false ∧ waiting c s tcp w) Connect
    (λ _ w, calm w ∧ lifeCanceled (client w) = lifeCanceled c ∧ config (client w) = config c ∧
       NegotiatedPDU (limits (client w)) = Z.min (pdu s) (RequestedPDU (nConfig (config c))) ∧
       state (client w) = StateReady ∧ limitsValid (client w) = true ∧
       ∃ id, conn (client w) = Some id ∧ plugged id (ready_plc s) w) never.
Proof.
  intros Hcfg Hs Hs240 Hst Hnr. unfold Connect.
  eapply triple_bind.
  { apply (quiet_acquire (waiting c s tcp) (waiting (set_gate true c) s tcp)); [apply _|apply _|by intros w (_ & ? & _)..|].
    intros w _. apply waiting_gate. }
  intros []. set (c1 := set_gate true c).
  apply (deferred_triple _ _ (λ _ w, ∃ id tpdu la ra now,
    at_work (enter_ready (config c) tpdu (mkSetupResult 1 1 (Z.min (pdu s) (RequestedPDU (nConfig (config c)))) 0)
      la ra now (set_conn (Some id) (set_state StateConnecting c1))) id (ready_plc s) w) never);
    [| |by intros e w []].
  2: { intros [] w (id & tpdu & la & ra & now & Hw). apply stable in Hw. destruct Hw as (Hc & Hp).
       unfold release_gate. cbn [on_client client]. rewrite Hc. cbn.
       destruct Hp as [Hcalm Hcn]. assert (calm (on_client (set_gate false) (interfere w))) by by eapply calm_same_env.
       split; [done|]. do 5 (split; [done|]). exists id. split; [done|]. by split. }
  apply (triple_bind _ _ (λ st w, st = state c ∧ waiting c1 s tcp w)).
  { apply triple_atomically; [apply _|]. intros w Hw. split; [|done]. by destruct Hw as [-> _]. }
  intros st. apply triple_pure. intros ->. rewrite Hst, bool_decide_false by done.
  apply (triple_bind _ _ (λ _, waiting c1 s tcp)).
  { intros w (Hc & [? ? Hx ?] & Hd). split; [done|]. split; [|done]. constructor; try done. intros l. cbn. by case_decide. }
  intros []. apply (triple_bind _ _ (λ v w, v = None ∧ waiting c1 s tcp w)).
  { apply triple_atomically; [apply _|]. intros w Hw. split; [|done]. apply calm_ctx, Hw. }
  intros v. apply triple_pure. intros ->.
  apply (triple_bind _ _ (λ started w, started = true ∧ waiting (set_state StateConnecting c1) s tcp w)).
  { apply triple_atomically; [apply _|]. intros w (Hc & Hw & Hd). rewrite Hc. cbn [state c1 set_gate]. rewrite Hst.
    split; [done|]. split; [cbn; by rewrite Hc|]. split; [|done]. eapply calm_same_env; [done..|]. cbn. by rewrite Hc. }
  intros started. apply triple_pure. intros ->.
  eapply triple_bind; [by apply quiet_connect_dial|]. intros id. cbn beta.
  set (c2 := set_conn (Some id) (set_state StateConnecting c1)).
  eapply triple_bind; [by apply quiet_connect_cotp|]. intros tpdu. cbn beta.
  apply triple_pure. intros [_ Ht].
  eapply triple_bind; [by apply quiet_connect_setup|]. intros r. cbn beta. apply triple_pure. intros ->.
  eapply triple_conseq; [apply (quiet_connect_finish c2 id)|done| |done]; try done.
  - destruct Hcfg as [[] _ _]. change (config c2) with (config c). lia.
  - intros [] w (la & ra & now & Hw). by exists id, tpdu, la, ra, now.
Qed.

(** The world before a Connect that reaches the PLC [s]. *)
Record at_rest (s : Server) (w : World) : Prop := {
  ar_idle : idle w;
  ar_calm : calm w;
  ar_state : is_closing (state (client w)) = false;
  ar_ready : state (client w) ≠ StateReady;
  ar_dials : ∃ tcp, dials_plc s tcp w;
}.

Lemma plc_Connect m s w : at_rest s w → serving m s → is_u16 (pdu s) → 240 ≤ pdu s →
  match Connect w with
  | (Ok _, w') => in_session (config (client w))
                    (Z.min (pdu s) (RequestedPDU (nConfig (config (client w))))) m w'
  | _ => False
  end.
Proof.
  intros [Hi Hcalm Hst Hnr (tcp & Hd)] Hsv Hs Hs240. pose proof Hi as (Hinv & _ & Hg).
  pose proof (quiet_connect (client w) s tcp (i_config _ _ Hinv) Hs Hs240 Hst Hnr w) as Hx.
  specialize (Hx (conj Hg (conj eq_refl (conj Hcalm Hd)))).
  pose proof (Connect_triple _ _ _ _ w (idle_before w Hi)) as Hy.
  destruct (Connect w) as [[[]|e|] w']; [|done..].
  destruct Hx as (Hcalm' & _ & Hcfg & Hn & Hr & Hv & id & Hcn & Hp), Hy as [[Hi' _] _].
  destruct Hi' as (Hinv' & Hs' & Hg'). split; [done|]. split; [by split|].
  exists (client w'), id, s. split; [done|].
  destruct (i_ready _ _ Hinv' Hr) as (_ & _ & Hl). split; [by constructor|]. done.
Qed.
End run.
