(* ===== verification/EndToEndTheorems.v ===== *)
(** * EndToEndTheorems: client and PLC together

    The theorems about a session with the scripted PLC, from the handshake to
    reading back what was written, each with a run of the executable
    definitions as its witness. *)

From stdpp Require Import gmap.
From S2P Require Import Errors Protocol IsoTCP Config Item Planner Session SessionProofs DataPlane ReadProofs WriteProofs ClientProofs TestPLC PLCProofs PLCMemory EndToEnd EndToEndRead EndToEndWrite EndToEndArea EndToEndConnect.

Local Abbreviation World := (@World PLC).

(** ** The theorems *)

(** C12. Connect to a listening PLC succeeds: the session is open with the
    smaller of the two PDU sizes, and the PLC holds what it held before. *)
Theorem PLC_Connect m s (w : World) : at_rest s w → serving m s → is_u16 (pdu s) → 240 ≤ pdu s →
  match Connect w with
  | (Ok _, w') => in_session (config (client w))
                    (Z.min (pdu s) (RequestedPDU (nConfig (config (client w))))) m w'
  | _ => False
  end.
Proof. apply plc_Connect. Qed.

(** C10. Read over an open session returns the bytes the PLC's memory holds for
    every item, however the PDU size cuts the items into fragments and batches;
    the memory is unchanged and the session stays open. *)
Theorem PLC_Read cfg n m input (w : World) : in_session cfg n m w → Forall read_item_values input →
  acceptable_reads (nConfig cfg) input →
  zlen (all_fragments n 0 input (item_length <$> input)) ≤ MaxFragmentsPerCall (nConfig cfg) →
  match Read input w with
  | (Ok out, w') => plc_read_post m input out ∧ in_session cfg n m w'
  | _ => False
  end.
Proof.
  intros Hw Hv Ha Hf. pose proof (plc_Read cfg n m input Hv Ha Hf w Hw) as Hx.
  by destruct (Read input w) as [[out|e|] w'].
Qed.

(** C13. ReadArea over an open session fills the buffer with the bytes of the
    PLC's memory. *)
Theorem PLC_ReadArea cfg n m area dbNumber start dst (w : World) :
  let i := mkReadItem (mkAddress area dbNumber start 0) TransportByte (zlen dst) in
  in_session cfg n m w → is_u8 area → is_u16 dbNumber → is_u32 start →
  acceptable_reads (nConfig cfg) [i] →
  zlen (all_fragments n 0 [i] [zlen dst]) ≤ MaxFragmentsPerCall (nConfig cfg) →
  match ReadArea area dbNumber start dst w with
  | (Ok out, w') => out = (zlen dst, None, stored m i) ∧ in_session cfg n m w'
  | _ => False
  end.
Proof.
  intros i Hw Ha Hd Hs Hacc Hf. pose proof (plc_ReadArea cfg n m area dbNumber start dst Ha Hd Hs Hacc Hf w Hw) as Hx.
  by destruct (ReadArea area dbNumber start dst w) as [[out|e|] w'].
Qed.

(** C11. Write over an open session acknowledges every item, and the PLC's
    memory changes exactly as the items say, in order. *)
Theorem PLC_Write cfg n m input (w : World) : in_session cfg n m w → Forall write_item_values input →
  acceptable_writes (nConfig cfg) input → Forall (λ it, WriteRequestSize [wire_write it] ≤ n) input →
  match Write input w with
  | (Ok out, w') => out = (all_acknowledged (length input), None) ∧ in_session cfg n (wrote input m) w'
  | _ => False
  end.
Proof.
  intros Hw Hv Ha Hs. pose proof (plc_Write cfg n m input Hv Ha Hs w Hw) as Hx.
  by destruct (Write input w) as [[out|e|] w'].
Qed.

(** C14. WriteArea over an open session confirms the whole source, and the PLC's
    memory ends as if the source had been stored at once, however the PDU size
    cuts it into chunks. *)
Theorem PLC_WriteArea cfg n m area dbNumber start src (w : World) :
  in_session cfg n m w → is_u8 area → is_u16 dbNumber → is_u32 start → bytes src →
  valid_read_item (mkReadItem (mkAddress area dbNumber start 0) TransportByte (zlen src)) (MaxBatchBytes (nConfig cfg)) →
  (zlen src + area_chunk (nConfig cfg) n - 1) / area_chunk (nConfig cfg) n ≤ MaxFragmentsPerCall (nConfig cfg) →
  match WriteArea area dbNumber start src w with
  | (Ok out, w') => out = (zlen src, None) ∧ in_session cfg n (storeBytes m (area_code area) dbNumber start 0 src) w'
  | _ => False
  end.
Proof.
  intros Hw Ha Hd Hs Hb Hv Hm. pose proof (plc_WriteArea cfg n m area dbNumber start src Ha Hd Hs Hb Hv Hm w Hw) as Hx.
  by destruct (WriteArea area dbNumber start src w) as [[out|e|] w'].
Qed.

Lemma in_session_typed cfg n m (w : World) : in_session cfg n m w → byte_memory m ∧ 240 ≤ n ≤ 960.
Proof.
  intros [_ Hw]. split; [|by eapply online_limits]. by destruct Hw as [_ (c & id & s & _ & _ & _ & _ & [])].
Qed.

(** C9. What Write wrote, Read reads: a Write of items that do not overlap
    followed by a Read of the same addresses returns the written data, item by
    item and without an error. *)
Theorem PLC_write_read cfg n m input (w : World) : in_session cfg n m w → Forall write_item_values input →
  acceptable_writes (nConfig cfg) input → Forall (λ it, WriteRequestSize [wire_write it] ≤ n) input →
  zlen input ≤ MaxFragmentsPerCall (nConfig cfg) → disjoint_items input →
  match Write input w with
  | (Ok (_, None), w') =>
      match Read (read_of <$> input) w' with
      | (Ok (results, None), _) => Forall2 (λ it r, visible (RData r) = WData it ∧ RErr r = None) input results
      | _ => False
      end
  | _ => False
  end.
Proof.
  intros Hw Hv Ha Hs Hn Hdis. destruct (in_session_typed _ _ _ _ Hw) as [Hm Hrange].
  pose proof (plc_Write cfg n m input Hv Ha Hs w Hw) as Hx.
  destruct (Write input w) as [[[rs e]|e|] w']; [|done..]. destruct Hx as [[= -> ->] Hw'].
  pose proof Ha as (_ & Hvalid & _).
  assert (Forall read_item_values (read_of <$> input)) as Hrv
    by (apply Forall_fmap; eapply Forall_impl; [exact Hv|]; by intros it [? _]).
  pose proof (plc_Read cfg n _ _ Hrv (acceptable_read_back _ _ Ha)
    ltac:(by rewrite (fragments_of_written n _ input Hrange Hv Hvalid Hs 0)) w' Hw') as Hy.
  destruct (Read (read_of <$> input) w') as [[[results e]|e|] w'']; [|done..].
  destruct Hy as [[He Hres] _]. cbn [fst snd] in He, Hres. subst e.
  pose proof (stored_wrote m input Hm Hv (ex_intro _ _ Hvalid) Hdis) as Hst.
  rewrite Forall2_fmap_l in Hres. revert Hres Hst. generalize (wrote input m). clear. intros m Hres Hst. induction Hres as [|it r its rs [Hr He] _ IH]; [constructor|].
  apply Forall_cons in Hst as [Hst Hsts]. constructor; [by rewrite Hr, Hst|by apply IH].
Qed.

(** ** A run *)

(** A PLC that offers a 480-byte PDU, with a few bytes in data block 1. *)
Definition sample_memory : Memory := storeBytes ∅ (area_code AreaDB) 1 10 0 [0xab; 0xcd].
Definition sample_plc : Server := mkServer 480 sample_memory [] false 0 0 0 None.
Definition plc_env : @Env PLC :=
  mkEnv [] [Dialled (mkConn false [] [] [] (listening sample_plc) [] [] []) true None None None]
    [] [] (λ _, None) 0 None 0.
Definition plc_world : World := mkWorld sample_client plc_env.
Definition plc_session : World := (Connect plc_world).2.

Lemma sample_serving : serving sample_memory sample_plc.
Proof.
  constructor; [done| |done|done]. intros key v Hk. unfold sample_memory in Hk. cbn [storeBytes] in Hk.
  apply lookup_insert_Some in Hk as [[_ <-]|[_ Hk]]; [done|].
  apply lookup_insert_Some in Hk as [[_ <-]|[_ Hk]]; [done|]. by rewrite lookup_empty in Hk.
Qed.

Lemma plc_world_rest : at_rest sample_plc plc_world.
Proof.
  constructor.
  - apply (New_idle sample_config); [apply sample_values|apply sample_New|]. constructor; [done..|]. by repeat constructor.
  - constructor; [done..|by vm_compute].
  - by vm_compute.
  - by vm_compute.
  - exists true. by eexists.
Qed.

(** The negotiated session. *)
Lemma plc_session_open : in_session sample_normalized 480 sample_memory plc_session.
Proof.
  pose proof (plc_Connect sample_memory sample_plc plc_world plc_world_rest sample_serving ltac:(done) ltac:(done)) as H.
  assert (config (client plc_world) = sample_normalized) as Hc by (vm_compute; reflexivity).
  assert (Z.min (pdu sample_plc) (RequestedPDU (nConfig sample_normalized)) = 480) as Hp by (vm_compute; reflexivity).
  rewrite Hc, Hp in H. unfold plc_session.
  by destruct (Connect plc_world) as [[[]|e|] w'].
Qed.

Lemma normalized_settings : settings_ok (nConfig sample_normalized).
Proof.
  destruct plc_session_open as [_ Hw]. destruct (online_limits _ _ _ _ Hw) as (_ & _ & [? _ _]). done.
Qed.
Lemma accepted_reads input r : Forall read_item_values input →
  prepareReads (nConfig sample_normalized) input = Ok r → acceptable_reads (nConfig sample_normalized) input.
Proof.
  intros Hv Hp. pose proof (prepareReads_spec _ input normalized_settings Hv) as Hx. rewrite Hp in Hx.
  destruct r. apply Hx.
Qed.
Lemma accepted_writes input r : Forall write_item_values input →
  prepareWrites (nConfig sample_normalized) input = Ok r → acceptable_writes (nConfig sample_normalized) input.
Proof.
  intros Hv Hp. pose proof (prepareWrites_spec _ input normalized_settings Hv) as Hx. rewrite Hp in Hx. apply Hx.
Qed.

(** Two items that do not overlap. *)
Definition two_writes : list WriteItem :=
  [mkWriteItem (mkAddress AreaDB 1 20 0) TransportWord 2 [1; 2; 3; 4];
   mkWriteItem (mkAddress AreaDB 1 30 3) TransportBit 1 [1]].

Lemma two_writes_values : Forall write_item_values two_writes.
Proof. by repeat constructor. Qed.
Lemma two_writes_accepted : acceptable_writes (nConfig sample_normalized) two_writes.
Proof. eapply accepted_writes; [apply two_writes_values|vm_compute; reflexivity]. Qed.
Lemma two_writes_fit : Forall (λ it, WriteRequestSize [wire_write it] ≤ 480) two_writes.
Proof. by repeat constructor. Qed.
Lemma two_writes_disjoint : disjoint_items two_writes.
Proof.
  intros [|[|i]] [|[|j]] it jt Hij Hi Hj; try lia; try done. injection Hi as <-. injection Hj as <-.
  intros key b Hb. unfold touches. cbn. intros [-> _] (k & Hk & Hr). injection Hk as <-.
  change (item_start _) with 20 in Hr. change (DataBytes _) with 4 in Hr. vm_compute in Hr. destruct Hr. done.
Qed.

(** ** Witnesses *)

Lemma PLC_Connect_witness :
  (Connect plc_world).1 = Ok () ∧ in_session sample_normalized 480 sample_memory (Connect plc_world).2.
Proof.
  pose proof (PLC_Connect sample_memory sample_plc plc_world plc_world_rest sample_serving ltac:(done) ltac:(done)) as H.
  assert (config (client plc_world) = sample_normalized) as Hc by (vm_compute; reflexivity).
  assert (Z.min (pdu sample_plc) (RequestedPDU (nConfig sample_normalized)) = 480) as Hp by (vm_compute; reflexivity).
  rewrite Hc, Hp in H. destruct (Connect plc_world) as [[[]|e|] w']; [|destruct H..]. by split.
Defined.

Lemma PLC_Read_witness :
  ∃ w', Read [read_two] plc_session = (Ok ([mkReadResult (mkView [0xab; 0xcd] 2) None], None), w') ∧
    in_session sample_normalized 480 sample_memory w'.
Proof.
  pose proof (PLC_Read sample_normalized 480 sample_memory [read_two] plc_session plc_session_open read_two_values) as H.
  assert ((Read [read_two] plc_session).1 = Ok ([mkReadResult (mkView [0xab; 0xcd] 2) None], None)) as E
    by (vm_compute; reflexivity).
  destruct (Read [read_two] plc_session) as [r w']. cbn [fst] in E. subst r. exists w'. split; [done|].
  apply H; [|by vm_compute]. eapply accepted_reads; [apply read_two_values|vm_compute; reflexivity].
Defined.

Lemma PLC_ReadArea_witness :
  ∃ w', ReadArea AreaDB 1 10 [0; 0; 0] plc_session = (Ok (3, None, [0xab; 0xcd; 0]), w') ∧
    in_session sample_normalized 480 sample_memory w'.
Proof.
  pose proof (PLC_ReadArea sample_normalized 480 sample_memory AreaDB 1 10 [0; 0; 0] plc_session plc_session_open
    ltac:(done) ltac:(done) ltac:(done)) as H.
  assert ((ReadArea AreaDB 1 10 [0; 0; 0] plc_session).1 = Ok (3, None, [0xab; 0xcd; 0])) as E
    by (vm_compute; reflexivity).
  destruct (ReadArea AreaDB 1 10 [0; 0; 0] plc_session) as [r w']. cbn [fst] in E. subst r. exists w'. split; [done|].
  apply H; [|by vm_compute]. eapply accepted_reads; [by repeat constructor|vm_compute; reflexivity].
Defined.

Lemma PLC_Write_witness :
  ∃ w', Write two_writes plc_session = (Ok (all_acknowledged 2, None), w') ∧
    in_session sample_normalized 480 (wrote two_writes sample_memory) w'.
Proof.
  pose proof (PLC_Write sample_normalized 480 sample_memory two_writes plc_session plc_session_open
    two_writes_values two_writes_accepted two_writes_fit) as H.
  destruct (Write two_writes plc_session) as [[out|e|] w']; [|destruct H..]. destruct H as [-> H]. by exists w'.
Defined.

Lemma PLC_write_read_witness :
  ∃ w' w'' results, Write two_writes plc_session = (Ok (all_acknowledged 2, None), w') ∧
    Read (read_of <$> two_writes) w' = (Ok (results, None), w'') ∧
    Forall2 (λ it r, visible (RData r) = WData it ∧ RErr r = None) two_writes results.
Proof.
  pose proof (PLC_write_read sample_normalized 480 sample_memory two_writes plc_session plc_session_open
    two_writes_values two_writes_accepted two_writes_fit ltac:(by vm_compute) two_writes_disjoint) as H.
  assert ((Write two_writes plc_session).1 = Ok (all_acknowledged 2, None)) as E by (vm_compute; reflexivity).
  destruct (Write two_writes plc_session) as [r w']. cbn [fst] in E. subst r.
  destruct (Read (read_of <$> two_writes) w') as [[[results [e|]]|e|] w''] eqn:Er; [destruct H| |destruct H..].
  by exists w', w'', results.
Defined.

Lemma PLC_WriteArea_witness :
  ∃ w', WriteArea AreaDB 1 20 (replicate 500 7) plc_session = (Ok (500, None), w') ∧
    in_session sample_normalized 480 (storeBytes sample_memory (area_code AreaDB) 1 20 0 (replicate 500 7)) w'.
Proof.
  pose proof (PLC_WriteArea sample_normalized 480 sample_memory AreaDB 1 20 (replicate 500 7) plc_session plc_session_open
    ltac:(done) ltac:(done) ltac:(done) ltac:(by apply Forall_replicate)) as H.
  assert ((WriteArea AreaDB 1 20 (replicate 500 7) plc_session).1 = Ok (500, None)) as E by (vm_compute; reflexivity).
  destruct (WriteArea AreaDB 1 20 (replicate 500 7) plc_session) as [r w']. cbn [fst] in E. subst r. exists w'.
  split; [done|]. apply H; [|by vm_compute].
  pose proof (validateReadItem_spec (mkReadItem (mkAddress AreaDB 1 20 0) TransportByte 500)
    (MaxBatchBytes (nConfig sample_normalized)) ltac:(by repeat constructor)) as Hv.
  by destruct (validateReadItem _ _) as [k|e|] eqn:E; [apply Hv|..].
Defined.
